(* ===== verification/_CoqProject ===== *)
-Q . S2P
Prelude.v
Floats.v
Types.v
Text.v
Mpt.v
MptTree.v
MptFacts.v
MptGc.v
MptProof.v
MptExamples.v
State.v
Physics.v
Pvm.v
PvmFacts.v
PvmExamples.v
Wasm.v
Dispatch.v
Mempool.v
Toy.v
MempoolExamples.v
Framing.v
Crystal.v
Chamber.v
Storage.v
Engine.v
Processor.v
ProcessorFacts.v
Mining.v
ChainExamples.v
Dht.v
DhtFacts.v
Kademlia.v
Maintenance.v
Gossip.v
GossipFacts.v
Noise.v
NoiseFacts.v
Shield.v
Ingress.v
IngressFacts.v
Server.v
Peers.v
Crypto.v
Handshake.v
Sdk.v
SdkFacts.v
Ipc.v
IpcPath.v
IpcRun.v
Node.v
NodeFacts.v
System.v
Replica.v
Sync.v
KadRpc.v
Connection.v
Client.v
ClientFacts.v
ClientNoise.v
Cli.v
CliFacts.v
NetExamples.v
ClientExamples.v
ConnectionExamples.v
PeersExamples.v
NodeExamples.v
ReplicaExamples.v
CliExamples.v
Setup.v
SetupFacts.v
Startup.v
Tui.v
Screen.v
Poller.v
PollerExamples.v
Discovery.v
Console.v
Boot.v
Launch.v
BootExamples.v
