(* ===== verification/Prelude.v ===== *)
(** Primus (Obsidian Nexus): a verification library of the node, its network layer and its
    client, after the Rust sources under src/.

    * What the program is

    Primus is a layer-1 ledger.  Accounts are atoms with a mass (the balance) and a nonce;
    transactions are signed reactions; blocks are crystals.  A client (primus-sdk) builds
    and signs a reaction; a node (primus-core) receives it over its network layer
    (primus-net-opt), keeps it in its mempool, mines crystals, executes them in the virtual
    machine (primus-vm) and commits the resulting write set to a Merkle-Patricia trie
    (primus-storage).  primus-types holds what they share.

    * The files, and the sources they translate

    Foundations
    - Prelude: results and their notations, bytes, machine integers, big and little endian
      encodings, lists and hexadecimal helpers, tactics and hints.
    - Floats: IEEE binary32 and binary64 as the standard library's SpecFloat, with Rust's
      saturating casts; the sources compute fees and temperatures in f32.
    - Types: primus-types (atom.rs, payload.rs, reaction.rs, physics.rs, crystal.rs,
      galactic_sync.rs, proof.rs, peer.rs): the data, the bytes that are hashed and signed,
      structural validation in the order of its checks, the fixed-point codec.

    State
    - Mpt: primus-storage/mpt.rs, operation by operation, over any store of nodes; MptTree:
      the trees a root hash stands for; MptFacts: insert and delete implement those of a
      finite map, and the root is a function of that map; MptGc: garbage collection;
      MptProof: inclusion and exclusion proofs, and what neither they nor the root bind.
    - State: changeset.rs, types.rs, primus-core/state.rs: write sets, undo logs, the tree
      of atoms in memory.
    - Storage: primus-core/storage.rs: a database of maps, the trie over it, commit,
      pruning and old roots.

    Execution
    - Physics, Pvm, PvmFacts: primus-vm/physics.rs and pvm.rs: execution of one reaction and
      of a batch on every branch; mass is conserved, nonces are used once, signatures hold.
    - Wasm, Dispatch: gas, the host functions contracts call, and the settlement of a call.

    Blocks
    - Mempool (mempool_v2.rs), Framing (framing.rs), Crystal (crystal.rs and the nonce
      search of engine.rs), Chamber (chamber.rs, gravity.rs), Engine (engine.rs: genesis,
      difficulty), Mining (mine_block), Processor and ProcessorFacts (processor.rs:
      crystals of the network, solidification, reorganisation).

    Network
    - Dht, DhtFacts (dht.rs), Kademlia (find_node of lib.rs), KadRpc (its requests), Maintenance
      (the hourly lookups).
    - Gossip, GossipFacts (network.rs, gossip.rs: asynchronous programs, sessions and
      flooding), Peers (the cache of
      connections, broadcasting, the discovery tick, the listener), Discovery (discovery.rs).
    - Handshake (noise.rs, transport.rs: the three messages), Noise, NoiseFacts (the encrypted
      stream after it), Server (server.rs: session nonces, the gossip stream), Connection (a
      connection from its handshake to its end, the accept loops, the server over all its
      connections).
    - Shield (gravity_shield.rs, gravity_net.rs), Ingress, IngressFacts (CoreHandleImpl of
      primus-core/main.rs: the bridge between network and core).

    The running node (primus-core main.rs, ipc.rs, setup.rs)
    - Setup, SetupFacts (the configuration file and the wizard), Startup (the machine's
      address, the client's arguments), Boot (from the files to the node's record and state),
      Launch (nat.rs, the new of server.rs: the ports), Node, NodeFacts (the record, a round of
      mining, shutdown), Console (the commands typed).
    - Replica: two nodes that solidify the same crystals, and what their own heat changes.
    - Sync: a node that is behind, and the messages by which it catches up.
    - System: threads and locks; core and network together, as one step relation over
      everything that can happen to a running node, section by section; what its runs keep,
      what stops its mining, how often it sends a reaction.
    - Ipc (a connection of the administration socket), IpcRun (all of them, interleaved),
      IpcPath (where the socket is, and whose).

    Clients
    - Crypto (key derivation of node and SDK), Sdk, SdkFacts (wallet, transaction builder,
      light-client proofs).
    - Client, ClientFacts, ClientNoise (primus-client rpc.rs: messages, transports, calls),
      Tui, Screen (its keys and what it draws), Poller (what runs behind the screen).
    - Cli, CliFacts (primus-cli: its commands over the socket and over TCP).
    - Text: what they use of the standard library's text.

    MptExamples, PvmExamples, MempoolExamples, ChainExamples, NetExamples, NodeExamples,
    ReplicaExamples, ClientExamples, CliExamples, PeersExamples, ConnectionExamples, PollerExamples,
    BootExamples and Toy hold concrete instances of the interfaces and the theorems applied
    to them; no theorem about the program depends on them.

    * How code becomes definitions

    A struct is a record, an enum an inductive type, a method on [&mut self] a function
    that returns the object as it leaves it, also when it returns an error.  A u64 is a Z
    in its range, with saturation, wrapping and overflow written where the source has them.
    [HashMap] and [BTreeMap] are finite maps; where the order of a [HashMap] could matter it
    is an arbitrary list with the same contents.  The clock and random numbers are arguments.
    An asynchronous function of network and core is a program ([Async] of Gossip): what it does
    between two awaits is one section, and it waits for locks, holds them and lets them go.
    [on_message], [on_task], [push_program], [crystal_program], [ingress_program],
    [mining_program] and [send_program] are the programs; System runs any number of them
    interleaved, and a call with a time limit may end while it waits.  [handle_message],
    [run_task], [core_push_bytes], [core_on_crystal], [ingress_push_bytes], [mining_loop_step]
    and [console_send] are what they do when nothing comes between, as the lemmas named _exec
    say; theorems about one call after the other (Sync, Client, Peers) use these.  Elsewhere
    tasks that interleave are steps of a relation, or turns of a schedule that is an arbitrary
    list (Dht's insertions, IpcRun, Connection).  A socket is
    the bytes that arrive on it before it closes.  A function that Rust inlines in a long
    method is named here, and its callers call it where the source has it.

    * Interfaces

    Code that is not in the repository is the parameter of a class, with what is relied on
    as its fields: [Hashes] (output lengths), [NodeCodec], [AtomCodec], [ReactionCodec],
    [CrystalCodec], [EnvelopeCodec], [WalletFileCodec], [KeyFileCodec], [MessageCodec] and
    [MessageDecoder], [ClientCodec], [IpcCodec] and [IpcClientCodec], [KademliaCodec],
    [HandshakeCodec] (bincode: decoding what was encoded), [Rkyv] (checked access gives the
    archive of what was serialised), [LengthDelimitedCodec] (tokio_util's frames), [AddrText]
    (addresses are parsed as they are printed), [CryptoVerifier] and [MlDsa87] (a signature
    under a derived key verifies), [NoiseHandshake] (a run of the pattern between two parties
    delivers the payloads and ends in matching transports), [StatelessTransport] (the message
    of at most 65519 bytes written under a nonce is read under it, tags have 16 bytes), [WasmRuntime], [Bip39],
    [Hex], [Libm] (ln_1p, no law).  Every class with laws has an instance in the example files.
    Theorems that need hashes not to collide say so about the values in play, or have a
    collision in their conclusion; for the nodes of tries this excludes, besides collisions of
    BLAKE3, branches whose children are each other's in another order.  [MptStoreSpec] is the contract between trie and store;
    [CoreHandle] of Gossip is the trait by which the network calls the core, implemented in
    Ingress.

    * What the theorems show

    - Execution: an accepted batch creates no mass beyond the rewards, the masses its
      Generic snapshots claim and the genesis of the Architect; no nonce is confirmed twice; every user reaction carries a
      valid signature; when exactly a transfer confirms, and what it writes; contract calls
      take mass from their caller only.
    - State: the trie implements a finite map and keeps a canonical shape; its root is a
      function of the map, which it does not bind (accounts may be exchanged under it); proofs
      verify; garbage collection removes what only the old root leads to; a commit brings trie
      and tables together and logs the old root.
    - Agreement: nodes with the same accounts that solidify the same crystals have the same
      accounts, contracts and state root afterwards; a node's own heat can make it refuse the
      first crystal, and, with Generic reactions only, compute another root.  A node that is
      behind asks for what it lacks, gets it and ends in agreement.
    - Chain: solidification keeps the node's invariant (memory, tables and trie agree) on
      success; a refused crystal leaves what the theorem says; rollback restores; a
      reorganisation goes back to the fork; mining extends the tip, its search ends with the
      first solution.
    - Pool and chamber: accounting of the mempool, order of a drain, one reaction per sender.
    - Network: the routing table's invariant under any interleaving of its locks (and how two
      insertions list a peer twice), which the hourly maintenance alone keeps for ever;
      termination of lookups; the bound of a flood, re-broadcasts by the pools included; chunks and encrypted streams round trip under any
      schedule; what reaches the core over the server was authenticated by a completed
      handshake; an honest peer gets its session; the exact admission rules of the shield and
      the core; a chunk in a chunk locks the reassembler for ever; a reaction goes from one
      node to another.
    - Node: however its parts take their turns, the mempool stays well formed and the accounts
      change by accepted batches and by undoing recorded ones only;
      one handshake with an invented height makes it mine no more, unless a session is just
      about to finish a synchronisation; it starts, stops and starts again with the same state and identities; a round of
      mining keeps its invariant; the configuration is read as it was written; however the
      connections of the administration socket interleave, only the Architect's signature of
      a connection's own challenge stops the node.
    - Clients: a transfer built by the SDK from the account's state passes validation and is
      executed; node and SDK derive the same keys; wallets round trip; a payment typed into
      the client reaches the node's mempool; what the commands of the Architect do.
    - Negative results, where the code does not do what it means to: they are theorems too,
      and are listed as findings of the manifest.

    * Recursion

    Structural where the source loops over a list; otherwise with fuel, and with a theorem
    that the fuel given is enough, or a definition that gives it its bound: [key_fuel] (66)
    for a path of 64 nibbles; the number of unknown peers plus one for [find_node]; the length
    of the input plus one for the IPC loop, the bridge's loop and for reading a stream; two
    calls of [on_crystal] within one another, the third being behind a lock that the first
    holds ([crystal_exec]); two for the client's broadcast, which
    tries again once; three for the messages of the handshake; [solve] takes the source's own
    bound MAX_NONCE_ATTEMPTS.  [processor.rs]'s search for the ancestor counts down, and is
    structural.  What never ends in the source (listeners, the maintenance, the screen) is run
    on a finite list of events, for every such list.

    * Not modelled

    I/O errors of sled and sockets; the insides of snow, quinn, wtransport, wasmtime and
    ml_dsa, whose calls are classes; the making of certificates and
    the spawning of tasks, which have no effect but the loops that are modelled; the threads
    with a large stack, which only run the computation that is modelled; what ratatui makes of the widgets of the
    client's screen; the text of log lines; argon2 in crypto.rs, which nothing calls.
    A feature of primus-vm names a second WebAssembly backend that has no source.  wasmtime
    is what happens between two host calls: anything. *)
From Stdlib Require Export ZArith Lia.
From stdpp Require Export base gmap list sorting option numbers.

#[export] Set Default Goal Selector "!".
Open Scope Z_scope.

(** ** Results *)

(** Rust's [Result<A, E>]. *)
Inductive result (A E : Type) : Type :=
| Ok (a : A)
| Err (e : E).
Arguments Ok {A E} a.
Arguments Err {A E} e.

Definition is_ok {A E} (r : result A E) : bool :=
  match r with Ok _ => true | Err _ => false end.

Definition ok_or {A E} (o : option A) (e : E) : result A E :=
  match o with Some a => Ok a | None => Err e end.

(** The `?` operator: early return of the error. *)
Definition rbind {A B E} (r : result A E) (k : A → result B E) : result B E :=
  match r with Ok a => k a | Err e => Err e end.

Declare Scope primus_scope.
Delimit Scope primus_scope with primus.
Notation "'let?' x := r 'in' k" := (rbind r (λ x, k))
  (at level 10, x pattern, r at level 100, k at level 200) : primus_scope.
Notation "'guard?' c 'else' e ; k" := (if (c : bool) then k else Err e)
  (at level 10, c at level 100, e at level 100, k at level 200) : primus_scope.
Open Scope primus_scope.

(** ** Bytes and machine integers

    A byte is a [Z] in [0, 256); [Vec<u8>], [&[u8]] and [[u8; n]] are lists of them. *)
Abbreviation bytes := (list Z).

Definition is_byte (b : Z) : Prop := 0 ≤ b < 256.
Definition U64_MAX : Z := 2 ^ 64 - 1.
Definition U32_MAX : Z := 2 ^ 32 - 1.
Definition is_u64 (n : Z) : Prop := 0 ≤ n ≤ U64_MAX.
Definition zero32 : bytes := replicate 32 0.
(** `v.len()`, as an integer. *)
Definition len {A} (l : list A) : Z := Z.of_nat (length l).

Definition u64_saturating_add (a b : Z) : Z := Z.min U64_MAX (a + b).
Definition u64_saturating_sub (a b : Z) : Z := Z.max 0 (a - b).
Definition u64_saturating_mul (a b : Z) : Z := Z.min U64_MAX (a * b).
Definition u64_checked_add (a b : Z) : option Z :=
  if a + b <=? U64_MAX then Some (a + b) else None.
Definition u64_checked_sub (a b : Z) : option Z :=
  if b <=? a then Some (a - b) else None.
Definition u64_wrapping_add (a b : Z) : Z := (a + b) mod 2 ^ 64.

(** [to_le_bytes] / [to_be_bytes] of an [8 n]-bit unsigned integer. *)
Fixpoint to_le (n : nat) (z : Z) : bytes :=
  match n with
  | O => []
  | S n' => z mod 256 :: to_le n' (z / 256)
  end.

Fixpoint of_le (bs : bytes) : Z :=
  match bs with
  | [] => 0
  | b :: r => b + 256 * of_le r
  end.

Definition to_be (n : nat) (z : Z) : bytes := reverse (to_le n z).
Definition of_be (bs : bytes) : Z := of_le (reverse bs).

(** Pointwise exclusive or of two arrays, as the `zip` loops of the source do it. *)
Definition xor_bytes (a b : bytes) : bytes := zip_with Z.lxor a b.

(** ** Lexicographic order on byte strings (the [Ord] instance of [Vec<u8>]) *)
Fixpoint bytes_leb (a b : bytes) : bool :=
  match a, b with
  | [], _ => true
  | _ :: _, [] => false
  | x :: a', y :: b' => (x <? y) || ((x =? y) && bytes_leb a' b')
  end.
Definition bytes_le (a b : bytes) : Prop := bytes_leb a b = true.

(** ** [BTreeMap]: a finite map whose iteration order is the key order *)
Definition key_le {A} (p q : bytes * A) : Prop := bytes_le p.1 q.1.

#[export] Instance bytes_le_dec : RelDecision bytes_le.
Proof. intros a b. unfold bytes_le. apply _. Defined.
#[export] Instance key_le_dec {A} : RelDecision (@key_le A).
Proof. intros p q. unfold key_le. apply _. Defined.

Definition btree_to_list {A} (m : gmap bytes A) : list (bytes * A) :=
  merge_sort key_le (map_to_list m).

(** ** Lemmas on results *)
Create HintDb primus.

Lemma rbind_Ok {A B E} (r : result A E) (k : A → result B E) b :
  rbind r k = Ok b ↔ ∃ a, r = Ok a ∧ k a = Ok b.
Proof. destruct r; simpl; naive_solver. Qed.

Lemma ok_or_Ok {A E} (o : option A) (e : E) a : ok_or o e = Ok a ↔ o = Some a.
Proof. destruct o; simpl; naive_solver. Qed.

Lemma guard_Ok {A E} (c : bool) (k : result A E) (e : E) a :
  (if c then k else Err e) = Ok a ↔ c = true ∧ k = Ok a.
Proof. destruct c; naive_solver. Qed.

(** [inv_ok H] opens a successful chain of `?` steps and guards. *)
Ltac inv_ok H :=
  repeat first
    [ progress simplify_eq
    | rewrite rbind_Ok in H; destruct H as (?&?&H); simpl in H
    | rewrite ok_or_Ok in H
    | rewrite guard_Ok in H; destruct H as [? H] ];
  rewrite ?ok_or_Ok in *.

(** ** Lemmas on integers *)
Lemma u64_saturating_add_u64 a b : is_u64 a → 0 ≤ b → is_u64 (u64_saturating_add a b).
Proof. unfold is_u64, u64_saturating_add, U64_MAX. lia. Qed.
Lemma u64_saturating_sub_u64 a b : is_u64 a → 0 ≤ b → is_u64 (u64_saturating_sub a b).
Proof. unfold is_u64, u64_saturating_sub, U64_MAX. lia. Qed.
#[export] Hint Resolve u64_saturating_add_u64 u64_saturating_sub_u64 : primus.

Lemma length_to_le n z : length (to_le n z) = n.
Proof. revert z; induction n; intros z; simpl; [done|]. by rewrite IHn. Qed.
Lemma length_to_be n z : length (to_be n z) = n.
Proof. unfold to_be. by rewrite length_reverse, length_to_le. Qed.

Lemma of_le_to_le n z : of_le (to_le n z) = z mod 256 ^ Z.of_nat n.
Proof.
  revert z; induction n as [|n IH]; intros z.
  { simpl. by rewrite Z.mod_1_r. }
  cbn [to_le of_le]. rewrite IH, Nat2Z.inj_succ, Z.pow_succ_r by lia.
  rewrite Z.rem_mul_r by lia. lia.
Qed.

Lemma to_le_inj n a b :
  0 ≤ a < 256 ^ Z.of_nat n → 0 ≤ b < 256 ^ Z.of_nat n → to_le n a = to_le n b → a = b.
Proof.
  intros Ha Hb H. apply (f_equal of_le) in H.
  rewrite !of_le_to_le, !Z.mod_small in H by done. done.
Qed.

Lemma to_le_bytes n z : Forall is_byte (to_le n z).
Proof.
  revert z; induction n; intros z; simpl; constructor; [|done].
  unfold is_byte. apply Z.mod_pos_bound. lia.
Qed.

(** ** Lemmas on exclusive or *)
Lemma xor_bytes_comm a b : xor_bytes a b = xor_bytes b a.
Proof.
  unfold xor_bytes. revert b; induction a as [|x a IH]; intros [|y b]; simpl; try done.
  by rewrite Z.lxor_comm, IH.
Qed.

Lemma length_xor_bytes a b :
  length (xor_bytes a b) = Nat.min (length a) (length b).
Proof. apply length_zip_with. Qed.

Lemma xor_bytes_assoc a b c :
  xor_bytes a (xor_bytes b c) = xor_bytes (xor_bytes a b) c.
Proof.
  unfold xor_bytes. revert b c; induction a as [|x a IH]; intros [|y b] [|z c]; simpl; try done.
  by rewrite Z.lxor_assoc, IH.
Qed.

Lemma xor_bytes_zero a n : length a = n → xor_bytes a (replicate n 0) = a.
Proof.
  intros <-. unfold xor_bytes. induction a as [|x a IH]; simpl; [done|].
  by rewrite Z.lxor_0_r, IH.
Qed.

Lemma xor_bytes_diag a : xor_bytes a a = replicate (length a) 0.
Proof.
  unfold xor_bytes. induction a as [|x a IH]; simpl; [done|].
  by rewrite Z.lxor_nilpotent, IH.
Qed.

(** ** The byte order is total, and [btree_to_list] lists a map in it *)
Lemma bytes_leb_refl a : bytes_leb a a = true.
Proof. induction a as [|x a IH]; simpl; [done|]. by rewrite Z.eqb_refl, IH, orb_true_r. Qed.

Lemma bytes_le_total_aux a b : bytes_le a b ∨ bytes_le b a.
Proof.
  unfold bytes_le. revert b; induction a as [|x a IH]; intros [|y b]; simpl; auto.
  rewrite !orb_true_iff, !andb_true_iff, !Z.ltb_lt, !Z.eqb_eq.
  destruct (IH b); destruct (Z.lt_total x y) as [?|[?|?]]; naive_solver.
Qed.

Lemma bytes_le_trans_aux a b c : bytes_le a b → bytes_le b c → bytes_le a c.
Proof.
  unfold bytes_le. revert b c; induction a as [|x a IH]; intros [|y b] [|z c]; simpl; auto;
    try discriminate.
  rewrite !orb_true_iff, !andb_true_iff, !Z.ltb_lt, !Z.eqb_eq.
  intros [?|[-> ?]] [?|[-> ?]]; [left; lia|by left|by left|]. right. split; [done|]. eauto.
Qed.

Lemma bytes_le_antisymm a b : bytes_le a b → bytes_le b a → a = b.
Proof.
  unfold bytes_le. revert b; induction a as [|x a IH]; intros [|y b]; simpl; auto;
    try discriminate.
  rewrite !orb_true_iff, !andb_true_iff, !Z.ltb_lt, !Z.eqb_eq.
  intros [?|[-> ?]] [?|[? ?]]; try lia. f_equal. auto.
Qed.

(** Strings with prefixes of one length compare by the prefixes first. *)
Lemma bytes_le_app p q a b :
  length p = length q → bytes_le (p ++ a) (q ++ b) ↔ (p ≠ q ∧ bytes_le p q) ∨ (p = q ∧ bytes_le a b).
Proof.
  unfold bytes_le. revert q; induction p as [|x p IH]; intros [|y q]; simpl; try done.
  { naive_solver. }
  intros [= Hl]. specialize (IH q Hl).
  rewrite !orb_true_iff, !andb_true_iff, !Z.ltb_lt, !Z.eqb_eq, IH.
  destruct (decide (x = y)) as [->|]; [|split; [|naive_solver lia]].
  - split; [intros [?|[_ H]]; [lia|]|].
    + destruct H as [[? ?]|[-> ?]]; [left; split; [congruence|by right]|by right].
    + intros [[? [?|[_ ?]]]|[? ?]]; [lia|right; split; [done|]; left; split; [congruence|done]|].
      right. split; [done|]. right. split; [congruence|done].
  - intros [?|[? _]]; [|done]. left. split; [congruence|by left].
Qed.

Lemma bytes_le_to_be n a b :
  0 ≤ a < 256 ^ Z.of_nat n → 0 ≤ b < 256 ^ Z.of_nat n → bytes_le (to_be n a) (to_be n b) ↔ a ≤ b.
Proof.
  revert a b; induction n as [|n IH]; intros a b Ha Hb.
  { simpl in *. split; [lia|done]. }
  rewrite Nat2Z.inj_succ, Z.pow_succ_r in Ha, Hb by lia.
  assert (Hs : ∀ z, to_be (S n) z = to_be n (z / 256) ++ [z mod 256])
    by (intros z; unfold to_be; simpl; by rewrite reverse_cons).
  rewrite !Hs, bytes_le_app by (by rewrite !length_to_be).
  pose proof (Z.div_mod a 256) as Da. pose proof (Z.div_mod b 256) as Db.
  pose proof (Z.mod_pos_bound a 256) as Ma. pose proof (Z.mod_pos_bound b 256) as Mb.
  rewrite IH by lia.
  assert (Heq : to_be n (a / 256) = to_be n (b / 256) ↔ a / 256 = b / 256).
  { split; [|by intros ->]. intros He. apply (to_le_inj n); [lia..|].
    unfold to_be in He. by apply (f_equal reverse) in He; rewrite !reverse_involutive in He. }
  rewrite Heq. unfold bytes_le. simpl. rewrite orb_true_iff, andb_true_iff, Z.ltb_lt, Z.eqb_eq.
  split; [lia|]. intros. destruct (decide (a / 256 = b / 256)); [right|left]; lia.
Qed.

#[export] Instance bytes_le_total : Total bytes_le.
Proof. intros a b. apply bytes_le_total_aux. Qed.
#[export] Instance bytes_le_trans : Transitive bytes_le.
Proof. intros a b c. apply bytes_le_trans_aux. Qed.
#[export] Instance key_le_total {A} : Total (@key_le A).
Proof. intros p q. apply bytes_le_total_aux. Qed.
#[export] Instance key_le_trans {A} : Transitive (@key_le A).
Proof. intros p q r. apply bytes_le_trans_aux. Qed.

Lemma StronglySorted_sublist {A} (R : relation A) l k :
  l `sublist_of` k → StronglySorted R k → StronglySorted R l.
Proof.
  induction 1 as [|x l k Hs IH|x l k Hs IH]; intros Hk; [done| |].
  - apply StronglySorted_inv in Hk as [Hk Hall]. constructor; [by apply IH|].
    rewrite Forall_forall in *. intros y Hy. apply Hall.
    apply list_elem_of_In. eapply elem_of_sublist; [by apply list_elem_of_In|done].
  - apply StronglySorted_inv in Hk as [Hk _]. by apply IH.
Qed.

Section btree.
Context {A : Type}.
Implicit Types m : gmap bytes A.

Lemma btree_to_list_perm m : btree_to_list m ≡ₚ map_to_list m.
Proof. apply merge_sort_Permutation. Qed.

Lemma btree_to_list_sorted m : StronglySorted key_le (btree_to_list m).
Proof. apply Sorted_StronglySorted; [apply _|]. apply Sorted_merge_sort, _. Qed.

Lemma elem_of_btree_to_list m k x : (k, x) ∈ btree_to_list m ↔ m !! k = Some x.
Proof. by rewrite btree_to_list_perm, elem_of_map_to_list. Qed.

Lemma btree_to_list_NoDup_keys m : NoDup (btree_to_list m).*1.
Proof. rewrite btree_to_list_perm. apply NoDup_fst_map_to_list. Qed.

Lemma btree_to_list_to_map m : list_to_map (btree_to_list m) = m.
Proof.
  rewrite <-(list_to_map_to_list m) at 2. apply list_to_map_proper.
  - apply btree_to_list_NoDup_keys.
  - apply btree_to_list_perm.
Qed.
End btree.
