(* ===== verification/Floats.v ===== *)
(** IEEE-754 single and double precision as the Rust code uses them.

    [f32] and [f64] values are Rocq's [spec_float]s; every operation below is the
    correctly rounded one of the Standard Library's [SpecFloat] at the precision and
    the exponent range of the type. *)
From Stdlib Require Export Floats.SpecFloat.
From S2P Require Import Prelude.

Definition f32 := spec_float.
Definition f64 := spec_float.

(** ** Operations at each width *)
Definition f32_of_Z (n : Z) : f32 := binary_normalize 24 128 n 0 false.
Definition f64_of_Z (n : Z) : f64 := binary_normalize 53 1024 n 0 false.
Definition f32_add : f32 → f32 → f32 := SFadd 24 128.
Definition f32_sub : f32 → f32 → f32 := SFsub 24 128.
Definition f32_mul : f32 → f32 → f32 := SFmul 24 128.
Definition f32_div : f32 → f32 → f32 := SFdiv 24 128.
Definition f64_add : f64 → f64 → f64 := SFadd 53 1024.
Definition f64_sub : f64 → f64 → f64 := SFsub 53 1024.
Definition f64_mul : f64 → f64 → f64 := SFmul 53 1024.
Definition f64_div : f64 → f64 → f64 := SFdiv 53 1024.
Definition f64_sqrt : f64 → f64 := SFsqrt 53 1024.
Definition f32_neg : f32 → f32 := SFopp.
Definition f32_abs : f32 → f32 := SFabs.
Definition f64_abs : f64 → f64 := SFabs.

(** The decimal literal [n / d], rounded once to the type (exact operands). *)
Definition f32_lit (n d : Z) : f32 := f32_div (f32_of_Z n) (f32_of_Z d).
Definition f64_lit (n d : Z) : f64 := f64_div (f64_of_Z n) (f64_of_Z d).

(** Comparisons: all false on a NaN, as in Rust. *)
Definition fp_lt (a b : spec_float) : bool := SFltb a b.
Definition fp_le (a b : spec_float) : bool := SFleb a b.
Definition fp_gt (a b : spec_float) : bool := SFltb b a.
Definition fp_ge (a b : spec_float) : bool := SFleb b a.
Definition fp_eq (a b : spec_float) : bool := SFeqb a b.

Definition fp_is_nan (a : spec_float) : bool :=
  match a with S754_nan => true | _ => false end.
Definition fp_is_finite (a : spec_float) : bool :=
  match a with S754_zero _ | S754_finite _ _ _ => true | _ => false end.

(** [a.max(b)] and [a.min(b)]: a NaN operand is ignored. *)
Definition fp_max (a b : spec_float) : spec_float :=
  if fp_is_nan a then b else if fp_is_nan b then a else if fp_lt a b then b else a.
Definition fp_min (a b : spec_float) : spec_float :=
  if fp_is_nan a then b else if fp_is_nan b then a else if fp_lt b a then b else a.

(** [x.clamp(lo, hi)]; a NaN stays a NaN. *)
Definition fp_clamp (x lo hi : spec_float) : spec_float :=
  let x := if fp_lt x lo then lo else x in
  if fp_lt hi x then hi else x.

(** ** Conversions *)
Definition fp_convert (prec emax : Z) (x : spec_float) : spec_float :=
  match x with
  | S754_finite s m e => binary_normalize prec emax (if s then Zneg m else Zpos m) e s
  | _ => x
  end.
(** `as f64` of an f32 and `as f32` of an f64. *)
Definition f64_of_f32 (x : f32) : f64 := fp_convert 53 1024 x.
Definition f32_of_f64 (x : f64) : f32 := fp_convert 24 128 x.

(** The integral part, rounded toward zero, of a finite number. *)
Definition fp_trunc (x : spec_float) : Z :=
  match x with
  | S754_finite s m e =>
      let q := if 0 <=? e then Z.pos m * 2 ^ e else Z.pos m / 2 ^ (- e) in
      if s then - q else q
  | _ => 0
  end.

(** `as u64`: truncation, saturating at both ends, NaN to 0. *)
Definition fp_to_u64 (x : spec_float) : Z :=
  match x with
  | S754_infinity false => U64_MAX
  | S754_finite false _ _ => Z.min U64_MAX (fp_trunc x)
  | _ => 0
  end.

(** The bit patterns ([to_bits]) of an f32. *)
Definition f32_to_bits (x : f32) : Z :=
  let sign (s : bool) := if s then 2 ^ 31 else 0 in
  match x with
  | S754_zero s => sign s
  | S754_infinity s => sign s + Z.shiftl 255 23
  | S754_nan => Z.shiftl 255 23 + 2 ^ 22
  | S754_finite s m e =>
      if Z.pos m <? 2 ^ 23 then sign s + Z.pos m
      else sign s + Z.shiftl (e + 150) 23 + (Z.pos m - 2 ^ 23)
  end.

(** ** Sanity of the literals *)
Example f32_lit_300_15 : f32_to_bits (f32_lit 30015 100) = 0x43961333.
Proof. vm_compute. reflexivity. Qed.
Example f32_one_bits : f32_to_bits (f32_of_Z 1) = 0x3F800000.
Proof. reflexivity. Qed.
Example f32_2_20_bits : f32_to_bits (f32_lit 220 100) = 0x400CCCCD.
Proof. vm_compute. reflexivity. Qed.

(** ** Exactness of small integers *)
Lemma digits2_pos_bounds m :
  2 ^ (Z.pos (digits2_pos m) - 1) ≤ Z.pos m < 2 ^ Z.pos (digits2_pos m).
Proof.
  induction m as [m IH|m IH|]; cbn [digits2_pos]; [| |done].
  all: rewrite Pos2Z.inj_succ, <-Z.add_1_r.
  all: replace (Z.pos (digits2_pos m) + 1 - 1) with (Z.pos (digits2_pos m)) by lia.
  all: replace (Z.pos (digits2_pos m)) with (Z.pos (digits2_pos m) - 1 + 1) at 1 by lia.
  all: rewrite !Z.pow_add_r by lia; lia.
Qed.

Lemma digits2_pos_unique m d : 0 < d → 2 ^ (d - 1) ≤ Z.pos m < 2 ^ d → Z.pos (digits2_pos m) = d.
Proof.
  intros Hd [H1 H2]. pose proof (digits2_pos_bounds m) as [H3 H4].
  destruct (Z.lt_total (Z.pos (digits2_pos m)) d) as [H|[H|H]]; [|done|]; exfalso.
  - assert (2 ^ Z.pos (digits2_pos m) ≤ 2 ^ (d - 1)) by (apply Z.pow_le_mono_r; lia). lia.
  - assert (2 ^ d ≤ 2 ^ (Z.pos (digits2_pos m) - 1)) by (apply Z.pow_le_mono_r; lia). lia.
Qed.

Lemma digits2_pos_shift m m' k :
  0 ≤ k → Z.pos m' = Z.pos m * 2 ^ k → Z.pos (digits2_pos m') = Z.pos (digits2_pos m) + k.
Proof.
  intros Hk Hm. pose proof (digits2_pos_bounds m) as [H1 H2].
  apply digits2_pos_unique; [lia|]. rewrite Hm.
  replace (Z.pos (digits2_pos m) + k - 1) with (Z.pos (digits2_pos m) - 1 + k) by lia.
  rewrite !Z.pow_add_r by lia. nia.
Qed.

Lemma iter_xO m d : Z.pos (Pos.iter xO m d) = Z.pos m * 2 ^ Z.pos d.
Proof.
  induction d as [|d IH] using Pos.peano_ind; [simpl; lia|].
  rewrite Pos.iter_succ, Pos2Z.inj_succ, Z.pow_succ_r by lia.
  rewrite Pos2Z.inj_xO, IH. lia.
Qed.

Lemma iter_pos_iter {A} (f : A → A) n x :
  SpecFloat.iter_pos f n x = Nat.iter (Pos.to_nat n) f x.
Proof.
  revert x; induction n as [n IH|n IH|]; intros x; cbn [SpecFloat.iter_pos]; [| |done].
  - rewrite !IH, <-Nat.iter_add, <-Nat.iter_succ_r. f_equal. lia.
  - rewrite !IH, <-Nat.iter_add. f_equal. lia.
Qed.

Lemma shr_1_exact q : 0 < q → shr_1 (Build_shr_record (2 * q) false false) = Build_shr_record q false false.
Proof. by destruct q. Qed.

Lemma shr_exact k q :
  0 < q → Nat.iter k shr_1 (Build_shr_record (q * 2 ^ Z.of_nat k) false false)
          = Build_shr_record q false false.
Proof.
  intros Hq. induction k as [|k IH]; [simpl; f_equal; lia|].
  rewrite Nat2Z.inj_succ, Z.pow_succ_r, Nat.iter_succ_r by lia.
  replace (q * (2 * 2 ^ Z.of_nat k)) with (2 * (q * 2 ^ Z.of_nat k)) by lia.
  rewrite shr_1_exact by lia. done.
Qed.

(** Rounding is exact when the bits that are shifted out are zeros. *)
Lemma binary_round_aux_exact prec emax m q e s :
  0 ≤ s →
  fexp prec emax (Z.pos (digits2_pos m) + e) = e + s →
  Z.pos m = Z.pos q * 2 ^ s →
  e + s ≤ emax - prec →
  binary_round_aux prec emax false (Z.pos m) e loc_Exact = S754_finite false q (e + s).
Proof.
  intros Hs Hf Hm He.
  assert (Hshr : shr_fexp prec emax (Z.pos m) e loc_Exact
                 = (Build_shr_record (Z.pos q) false false, e + s)).
  { unfold shr_fexp, Zdigits2, shr_record_of_loc. rewrite Hf.
    replace (e + s - e) with s by lia. destruct s as [|p|p]; simpl.
    - replace (e + 0) with e by lia. do 2 f_equal. lia.
    - rewrite iter_pos_iter. f_equal.
      rewrite Hm, <-(positive_nat_Z p). apply shr_exact. lia.
    - lia. }
  unfold binary_round_aux. rewrite Hshr. cbn [loc_of_shr_record shr_m round_nearest_even].
  assert (Hd : Z.pos (digits2_pos m) = Z.pos (digits2_pos q) + s) by (eapply digits2_pos_shift; done).
  unfold shr_fexp at 1, Zdigits2, shr_record_of_loc.
  replace (Z.pos (digits2_pos q) + (e + s)) with (Z.pos (digits2_pos m) + e) by lia.
  rewrite Hf. replace (e + s - (e + s)) with 0 by lia.
  cbn [shr shr_m]. rewrite (proj2 (Z.leb_le _ _)) by done. done.
Qed.

(** A number of at most [prec] digits is represented exactly. *)
Lemma binary_normalize_exact prec emax m e e' :
  e' = fexp prec emax (Z.pos (digits2_pos m) + e) → e' ≤ e → e' ≤ emax - prec →
  ∃ q, binary_normalize prec emax (Z.pos m) e false = S754_finite false q e'
       ∧ Z.pos q = Z.pos m * 2 ^ (e - e').
Proof.
  intros He' Hle Hmax. unfold binary_normalize, binary_round, shl_align. rewrite <-He'.
  destruct (e' - e) as [|d|d] eqn:Hd; [|lia|].
  - exists m. assert (e' = e) as -> by lia. rewrite Z.sub_diag. split; [|simpl; lia].
    rewrite (binary_round_aux_exact _ _ m m e 0); [f_equal; lia|lia|lia|lia|lia].
  - exists (Pos.iter xO m d).
    assert (Hv : Z.pos (Pos.iter xO m d) = Z.pos m * 2 ^ (e - e')).
    { rewrite iter_xO. f_equal. f_equal. lia. }
    split; [|done].
    assert (Z.pos (digits2_pos (Pos.iter xO m d)) = Z.pos (digits2_pos m) + (e - e'))
      by (apply digits2_pos_shift; [lia|done]).
    rewrite (binary_round_aux_exact _ _ _ (Pos.iter xO m d) e' 0);
      [f_equal; lia|lia| |lia|lia].
    rewrite Z.add_0_r, He' at 1. rewrite He' in H |- *. f_equal.
    rewrite <-He' in H |- *. lia.
Qed.

(** An f32 holding a non-negative integer below 2^24, as mantissa and exponent. *)
Lemma f32_of_Z_exact n :
  0 < n < 2 ^ 24 →
  ∃ q k, f32_of_Z n = S754_finite false q (- k) ∧ Z.pos q = n * 2 ^ k ∧ 0 ≤ k
         ∧ Z.pos (digits2_pos q) = 24.
Proof.
  intros Hn. destruct n as [|m|]; [lia| |lia].
  pose proof (digits2_pos_bounds m) as [H1 H2].
  assert (Hd : Z.pos (digits2_pos m) ≤ 24).
  { destruct (Z.le_gt_cases (Z.pos (digits2_pos m)) 24); [done|].
    assert (2 ^ 24 ≤ 2 ^ (Z.pos (digits2_pos m) - 1)) by (apply Z.pow_le_mono_r; lia). lia. }
  set (k := 24 - Z.pos (digits2_pos m)).
  destruct (binary_normalize_exact 24 128 m 0 (- k)) as (q & Hq & Hv).
  - unfold k, fexp, emin. lia.
  - lia.
  - lia.
  - rewrite Z.sub_0_l, Z.opp_involutive in Hv.
    exists q, k. repeat split; [done|done|lia|].
    rewrite (digits2_pos_shift m q k); [lia|lia|done].
Qed.

Lemma f32_of_Z_trunc n : 0 ≤ n < 2 ^ 24 → fp_to_u64 (f32_of_Z n) = n.
Proof.
  intros Hn. destruct (decide (n = 0)) as [->|]; [done|].
  destruct (f32_of_Z_exact n) as (q & k & -> & Hq & Hk & _); [lia|].
  cbn [fp_to_u64 fp_trunc]. rewrite Hq. unfold U64_MAX.
  assert (0 < 2 ^ k) by (apply Z.pow_pos_nonneg; lia).
  destruct (0 <=? - k) eqn:E.
  - assert (k = 0) as -> by (apply Z.leb_le in E; lia). simpl. lia.
  - rewrite Z.opp_involutive, Z.div_mul by lia. lia.
Qed.

(** Scaling such an f32 by an integer constant below 2^30 in f64 is exact. *)
Lemma f64_mul_exact q k c c' kc n :
  Z.pos q = n * 2 ^ k → 0 ≤ k → Z.pos (digits2_pos q) = 24 → 0 < n → 0 < c →
  f64_of_Z c = S754_finite false c' (- kc) → Z.pos c' = c * 2 ^ kc → 0 ≤ kc →
  0 < n * c < 2 ^ 53 → k + kc < 900 → 
  Z.pos (digits2_pos c') = 53 →
  ∃ r j, f64_mul (f64_of_f32 (S754_finite false q (- k))) (f64_of_Z c)
           = S754_finite false r (- j) ∧ Z.pos r = n * c * 2 ^ j ∧ 0 ≤ j.
Proof.
  intros Hq Hk Hdq Hn Hc Hfc Hc' Hkc Hnc Hsmall Hdc.
  destruct (binary_normalize_exact 53 1024 q (- k) (- k - 29)) as (q' & Hq' & Hv');
    [unfold fexp, emin; lia|lia|lia|].
  replace (- k - (- k - 29)) with 29 in Hv' by lia.
  unfold f64_of_f32, fp_convert. rewrite Hq', Hfc. unfold f64_mul, SFmul. cbn [xorb].
  set (p := (q' * c')%positive).
  assert (Hp : Z.pos p = n * c * 2 ^ (k + 29 + kc)).
  { unfold p. rewrite Pos2Z.inj_mul, Hv', Hq, Hc', !Z.pow_add_r by lia. ring. }
  destruct (n * c) as [|w|w] eqn:Hw; [lia| |lia].
  assert (Hdw : Z.pos (digits2_pos p) = Z.pos (digits2_pos w) + (k + 29 + kc))
    by (eapply digits2_pos_shift; [lia|done]).
  pose proof (digits2_pos_bounds w) as [Hw1 Hw2].
  assert (Z.pos (digits2_pos w) ≤ 53).
  { destruct (Z.le_gt_cases (Z.pos (digits2_pos w)) 53); [done|].
    assert (2 ^ 53 ≤ 2 ^ (Z.pos (digits2_pos w) - 1)) by (apply Z.pow_le_mono_r; lia). lia. }
  set (j := 53 - Z.pos (digits2_pos w)). set (s := k + 29 + kc - j).
  (* the product has at least 105 digits, so the shift is to the right *)
  assert (Hs : 0 ≤ s).
  { unfold s, j.
    enough (53 ≤ Z.pos (digits2_pos p)) by lia.
    assert (Hbig : 2 ^ 52 ≤ Z.pos p).
    { unfold p. rewrite Pos2Z.inj_mul.
      pose proof (digits2_pos_bounds c') as [Hc1 _]. rewrite Hdc in Hc1. simpl in Hc1. lia. }
    pose proof (digits2_pos_bounds p) as [_ Hp2].
    destruct (Z.le_gt_cases 53 (Z.pos (digits2_pos p))); [done|].
    assert (2 ^ Z.pos (digits2_pos p) ≤ 2 ^ 52) by (apply Z.pow_le_mono_r; lia). lia. }
  assert (Hj : 0 ≤ j) by (unfold j; lia).
  assert (Hr : 0 < Z.pos w * 2 ^ j) by (assert (0 < 2 ^ j) by (apply Z.pow_pos_nonneg; lia); lia).
  destruct (Z.pos w * 2 ^ j) as [|r|r] eqn:Er; [lia| |lia].
  exists r, j. split; [|done].
  rewrite (binary_round_aux_exact 53 1024 p r (- k - 29 + - kc) s); [f_equal; unfold s; lia|done| | |unfold s; lia].
  - rewrite Hdw. unfold fexp, emin, s, j. lia.
  - rewrite Hp, <-Er. unfold s. replace (k + 29 + kc) with (j + (k + 29 + kc - j)) at 1 by lia.
    rewrite Z.pow_add_r by (unfold s in Hs; lia). ring.
Qed.

(** ** The order of bit patterns *)
(** The numbers the format has: normal ones have 24 digits, subnormal ones the least exponent. *)
Definition f32_valid (x : f32) : Prop := valid_binary 24 128 x = true.
Definition f32_positive (x : f32) : Prop :=
  match x with S754_finite false _ _ | S754_infinity false => True | _ => False end.

Lemma f32_valid_finite s m e :
  f32_valid (S754_finite s m e) →
  -149 ≤ e ≤ 104 ∧ Z.pos m < 2 ^ 24 ∧ (2 ^ 23 ≤ Z.pos m ∨ e = -149) ∧
  f32_to_bits (S754_finite false m e) = (e + 149) * 2 ^ 23 + Z.pos m.
Proof.
  unfold f32_valid. cbn [valid_binary]. unfold bounded, canonical_mantissa, fexp, emin.
  rewrite andb_true_iff, Z.eqb_eq, Z.leb_le. intros [He Hmax].
  pose proof (digits2_pos_bounds m) as [H1 H2].
  assert (Hlt : Z.pos m < 2 ^ 24).
  { assert (2 ^ Z.pos (digits2_pos m) ≤ 2 ^ 24) by (apply Z.pow_le_mono_r; lia). lia. }
  assert (Hn : 2 ^ 23 ≤ Z.pos m ∨ e = -149).
  { destruct (decide (e = -149)); [by right|]. left.
    replace 23 with (Z.pos (digits2_pos m) - 1) by lia. done. }
  split_and!; [lia|lia|done|done|]. cbn [f32_to_bits]. rewrite Z.shiftl_mul_pow2 by lia.
  destruct (Z.ltb_spec (Z.pos m) (2 ^ 23)); [|lia]. destruct Hn as [?| ->]; lia.
Qed.

Lemma f32_bits_bounds x : f32_valid x → f32_positive x → 0 < f32_to_bits x ≤ 255 * 2 ^ 23.
Proof.
  destruct x as [| [|] | |[|] m e]; try done. intros Hv _.
  destruct (f32_valid_finite _ _ _ Hv) as (? & ? & ? & ->). lia.
Qed.

(** On positive numbers the bit pattern grows with the number. *)
Lemma f32_bits_lt x y :
  f32_valid x → f32_valid y → f32_positive x → f32_positive y →
  fp_lt x y = true → f32_to_bits x < f32_to_bits y.
Proof.
  intros Hx Hy Px Py. destruct x as [| [|] | |[|] m e]; try done;
    destruct y as [| [|] | |[|] m' e']; try done; intros Hlt.
  - destruct (f32_valid_finite _ _ _ Hx) as (? & ? & ? & ->). unfold f32_to_bits.
    rewrite Z.shiftl_mul_pow2 by lia. lia.
  - destruct (f32_valid_finite _ _ _ Hx) as (? & ? & ? & ->).
    destruct (f32_valid_finite _ _ _ Hy) as (? & ? & ? & ->).
    unfold fp_lt, SFltb in Hlt. cbn [SFcompare] in Hlt.
    destruct (Z.compare_spec e e'); [subst e'| |done]; [|lia].
    change (Pos.compare_cont Eq m m') with (m ?= m')%positive in Hlt.
    destruct (Pos.compare_spec m m'); [done|lia|done].
Qed.

(** ** Sign and order *)
(** Not a NaN, with a positive sign. *)
Definition fp_nonneg (x : spec_float) : Prop :=
  match x with S754_zero false | S754_finite false _ _ | S754_infinity false => True | _ => False end.

Lemma shr_nonneg mrs e n : 0 ≤ shr_m mrs → 0 ≤ shr_m (shr mrs e n).1.
Proof.
  intros H. destruct n as [|p|p]; [done| |done]. cbn [shr fst]. rewrite iter_pos_iter.
  induction (Pos.to_nat p) as [|k IH]; [done|]. cbn [Nat.iter nat_rect].
  change (nat_rect _ mrs (λ _, shr_1) k) with (Nat.iter k shr_1 mrs).
  destruct (Nat.iter k shr_1 mrs) as [[|[q|q|]|q] r s]; simpl in *; lia.
Qed.

Lemma shr_fexp_nonneg prec emax m e l : 0 ≤ m → 0 ≤ shr_m (shr_fexp prec emax m e l).1.
Proof. intros H. unfold shr_fexp. apply shr_nonneg. by destruct l as [|[]]. Qed.

Lemma binary_round_aux_nonneg prec emax m e l : 0 ≤ m → fp_nonneg (binary_round_aux prec emax false m e l).
Proof.
  intros H. unfold binary_round_aux. pose proof (shr_fexp_nonneg prec emax m e l H) as H1.
  destruct (shr_fexp prec emax m e l) as [mrs e1]. cbn [fst] in H1.
  assert (H2 : 0 ≤ round_nearest_even (shr_m mrs) (loc_of_shr_record mrs))
    by (destruct (loc_of_shr_record mrs) as [|[]]; simpl; [|case_match|..]; lia).
  pose proof (shr_fexp_nonneg prec emax _ e1 loc_Exact H2) as H3.
  destruct (shr_fexp prec emax _ e1 loc_Exact) as [mrs2 e2]. cbn [fst] in H3.
  destruct (shr_m mrs2); [done| |lia]. by case_match.
Qed.

Lemma f32_of_Z_nonneg n : 0 ≤ n → fp_nonneg (f32_of_Z n).
Proof.
  destruct n as [|p|p]; [done| |lia]. intros _. unfold f32_of_Z, binary_normalize, binary_round.
  destruct (shl_align _ _ _). by apply binary_round_aux_nonneg.
Qed.

Lemma f32_div_nonneg m e y : fp_nonneg y → fp_nonneg (f32_div (S754_finite false m e) y).
Proof.
  destruct y as [[]|[]| |[] m' e']; try done. intros _. cbn [f32_div SFdiv].
  unfold f32_div, SFdiv, SFdiv_core_binary. cbv zeta. set (sh := _ - _ - _).
  set (m1 := match sh with Z0 => _ | _ => _ end).
  assert (0 ≤ m1) by (unfold m1; destruct sh; [lia|apply Z.shiftl_nonneg; lia|lia]).
  pose proof (Z.div_pos m1 (Z.pos m') ltac:(done) ltac:(lia)) as Hq. unfold Z.div in Hq.
  destruct (Z.div_eucl m1 (Z.pos m')) as [q r]. by apply binary_round_aux_nonneg.
Qed.

Lemma f32_mul_nonneg m e y : fp_nonneg y → fp_nonneg (f32_mul (S754_finite false m e) y).
Proof. destruct y as [[]|[]| |[] m' e']; try done. intros _. by apply binary_round_aux_nonneg. Qed.

Lemma fp_nonneg_not_nan x : fp_nonneg x → fp_is_nan x = false.
Proof. by destruct x as [[]|[]| |[]]. Qed.

(** Numbers that are not NaN are totally ordered. *)
Lemma fp_lt_total x y : fp_is_nan x = false → fp_is_nan y = false → fp_lt x y = false → fp_le y x = true.
Proof.
  unfold fp_lt, fp_le, SFltb, SFleb. destruct x as [s|s| |s m e], y as [s'|s'| |s' m' e']; try done;
    try (by destruct s, s'); try (by destruct s); try (by destruct s').
  intros _ _. cbn [SFcompare]. destruct s, s'; try done; rewrite (Z.compare_antisym e e');
    destruct (Z.compare e e'); cbn [CompOpp]; try done;
    change (Pos.compare_cont Eq m m') with (m ?= m')%positive;
    change (Pos.compare_cont Eq m' m) with (m' ?= m)%positive;
    rewrite (Pos.compare_antisym m m'); by destruct (m ?= m')%positive.
Qed.

(** Clamping a number puts it within the bounds. *)
Lemma fp_clamp_bounds x lo hi :
  fp_is_nan x = false → fp_is_nan lo = false → fp_is_nan hi = false → fp_le lo hi = true → fp_lt hi lo = false →
  fp_le lo lo = true → fp_le hi hi = true →
  fp_le lo (fp_clamp x lo hi) = true ∧ fp_le (fp_clamp x lo hi) hi = true.
Proof.
  intros Hx Hlo Hhi Hle Hlt Rlo Rhi. unfold fp_clamp. destruct (fp_lt x lo) eqn:E.
  - by rewrite Hlt.
  - destruct (fp_lt hi x) eqn:E'; [done|]. split; by apply fp_lt_total.
Qed.
