(* ===== verification/Types.v ===== *)
(** The crate primus-types: constants, atoms, payloads, signed reactions, crystals,
    the canonical fixed-point encoding and the structural validation.

    SHA3-256 and BLAKE3 (crates sha3 and blake3) are the fields of [Hashes]; their
    only assumed behaviour is the output length.  The archived mirror types are the
    ones rkyv derives from the structs, field by field. *)
From S2P Require Import Prelude Floats.
From stdpp Require Export strings.
Open Scope Z_scope.

(** ** Hash functions of the crates sha3 and blake3 *)
Class Hashes := {
  sha3_256 : bytes → bytes;
  blake3 : bytes → bytes;
  length_sha3_256 b : length (sha3_256 b) = 32%nat;
  length_blake3 b : length (blake3 b) = 32%nat;
}.

(** ** constants.rs *)
Definition PK_BYTES : Z := 2592.
Definition SIG_BYTES : Z := 4627.
Definition PROTOCOL_MIN_FEE : Z := 10.
Definition MINING_REWARD_AMOUNT : Z := 10.
Definition bytes_of_string (s : string) : bytes :=
  (λ a, Z.of_N (Ascii.N_of_ascii a)) <$> String.list_ascii_of_string s.
Definition MINING_REWARD_TAG : bytes := bytes_of_string "PRIMUS_MINING_REWARD_V1".
Definition SEED_DOMAIN_TAG : bytes := bytes_of_string "PRIMUS_SDK".
Definition MPT_PROOF_VERSION : Z := 2.

(** ** physics.rs: the canonical encoding of physics scalars *)
Definition FIXED_POINT_SCALE : Z := 1000000000.

Definition encode (value : f32) : Z :=
  let scaled := fp_max (f64_mul (f64_of_f32 value) (f64_of_Z FIXED_POINT_SCALE)) (f64_of_Z 0) in
  if fp_ge scaled (f64_of_Z U64_MAX) then U64_MAX else fp_to_u64 scaled.

Definition decode (encoded : Z) : f32 :=
  f32_of_f64 (f64_div (f64_of_Z encoded) (f64_of_Z FIXED_POINT_SCALE)).

(** ** atom.rs *)
Inductive Element := Hydrogen | Carbon | Oxygen | Gold.
#[export] Instance Element_eq_dec : EqDecision Element.
Proof. solve_decision. Defined.

Definition initial_charge (e : Element) : f32 :=
  match e with
  | Hydrogen => f32_lit 220 100
  | Carbon => f32_lit 255 100
  | Oxygen => f32_lit 344 100
  | Gold => f32_lit 254 100
  end.

Definition base_mass (e : Element) : Z :=
  match e with Hydrogen => 1000 | Carbon => 6000 | Oxygen => 4000 | Gold => 50000 end.

Inductive QuantumState :=
| Stable
| Entangled (partner : bytes)
| Superposition (seed : Z).

Record Atom := MkAtom {
  public_key : bytes;
  element : Element;
  neutron_count : Z;
  mass : Z;
  charge : f32;
  last_reaction_hash : bytes;
  last_active_index : Z;
  nonce : Z;
  quantum_state : QuantumState;
}.

Definition new_materialized (pk : bytes) (e : Element) : Atom :=
  MkAtom pk e 0 0 (initial_charge e) zero32 0 0 Stable.

Definition sender_snapshot (pk : bytes) (e : Element) (m : Z) (last : bytes)
    (n neutrons active : Z) : Atom :=
  MkAtom pk e neutrons m (initial_charge e) last active n Stable.

Definition new_receiver (pk : bytes) : Atom := new_materialized pk Hydrogen.

Definition sector (a : Atom) : Z := from_option id 0 (head (public_key a)).

(** Field assignments of the source ([atom.mass = m], ...). *)
Definition set_mass (m : Z) (a : Atom) : Atom :=
  MkAtom (public_key a) (element a) (neutron_count a) m (charge a)
    (last_reaction_hash a) (last_active_index a) (nonce a) (quantum_state a).
Definition set_nonce (n : Z) (a : Atom) : Atom :=
  MkAtom (public_key a) (element a) (neutron_count a) (mass a) (charge a)
    (last_reaction_hash a) (last_active_index a) n (quantum_state a).
Definition set_last_reaction_hash (h : bytes) (a : Atom) : Atom :=
  MkAtom (public_key a) (element a) (neutron_count a) (mass a) (charge a)
    h (last_active_index a) (nonce a) (quantum_state a).
Definition set_last_active_index (i : Z) (a : Atom) : Atom :=
  MkAtom (public_key a) (element a) (neutron_count a) (mass a) (charge a)
    (last_reaction_hash a) i (nonce a) (quantum_state a).
Definition set_element (e : Element) (c : f32) (a : Atom) : Atom :=
  MkAtom (public_key a) e (neutron_count a) (mass a) c
    (last_reaction_hash a) (last_active_index a) (nonce a) (quantum_state a).
Definition set_charge (c : f32) (a : Atom) : Atom :=
  MkAtom (public_key a) (element a) (neutron_count a) (mass a) c
    (last_reaction_hash a) (last_active_index a) (nonce a) (quantum_state a).

(** ** payload.rs *)
Inductive Payload :=
| Generic
| Transfer (amount : Z)
| MiningReward (amount : Z)
| Contract (code : bytes)
| ContractCall (address data : bytes)
| Unknown.

Definition transfer_amount (p : Payload) : option Z :=
  match p with
  | Transfer amount | MiningReward amount => Some amount
  | _ => None
  end.

Definition requires_signature_verification (p : Payload) : bool :=
  match p with MiningReward _ | Unknown => false | _ => true end.

Inductive ArchivedPayload :=
| AGeneric
| ATransfer (amount : Z)
| AMiningReward (amount : Z)
| AContract (code : bytes)
| AContractCall (address data : bytes)
| AUnknown.

Definition archived_transfer_amount (p : ArchivedPayload) : option Z :=
  match p with
  | ATransfer amount => Some amount
  | AMiningReward amount => Some amount
  | _ => None
  end.

Definition archived_requires_signature_verification (p : ArchivedPayload) : bool :=
  negb match p with AMiningReward _ | AUnknown => true | _ => false end.

(** ** error.rs *)
Inductive PrimusError :=
| InvalidPublicKeyLength (expected actual : Z)
| InvalidSignatureLength (expected actual : Z)
| FeeBelowMinimum (minimum actual : Z)
| ReactionHashMismatch (expected actual : bytes)
| DeserializationFailed (reason : string)
| PrimusUnknownPayload.

(** ** reaction.rs *)
Record SignedReaction := MkReaction {
  sender : Atom;
  receiver : Atom;
  reaction_hash : bytes;
  energy : f32;
  rx_timestamp : Z;
  signature : bytes;
  payload : Payload;
}.

Section reaction.
Context {HA : Hashes}.

Definition signing_input (rx : SignedReaction) : bytes :=
  let amount := default 0 (transfer_amount (payload rx)) in
  let fee_encoded := encode (energy rx) in
  public_key (sender rx) ++ public_key (receiver rx)
    ++ to_le 8 amount ++ to_le 8 fee_encoded ++ last_reaction_hash (sender rx).

Definition signing_digest (rx : SignedReaction) : bytes := sha3_256 (signing_input rx).

Definition compute_reaction_hash (rx : SignedReaction) : bytes := signing_digest rx.

Definition mining_reward_hash (crystal_index : Z) (architect_pk : bytes) : bytes :=
  sha3_256 (MINING_REWARD_TAG ++ to_le 8 crystal_index ++ architect_pk).

Definition validate_structure (rx : SignedReaction) : result unit PrimusError :=
  guard? len (public_key (sender rx)) =? PK_BYTES
    else InvalidPublicKeyLength PK_BYTES (len (public_key (sender rx)));
  guard? len (public_key (receiver rx)) =? PK_BYTES
    else InvalidPublicKeyLength PK_BYTES (len (public_key (receiver rx)));
  guard? negb (requires_signature_verification (payload rx)
               && negb (len (signature rx) =? SIG_BYTES))
    else InvalidSignatureLength SIG_BYTES (len (signature rx));
  guard? negb (encode (energy rx) <? PROTOCOL_MIN_FEE)
    else FeeBelowMinimum PROTOCOL_MIN_FEE (encode (energy rx));
  let expected_hash := compute_reaction_hash rx in
  guard? bool_decide (reaction_hash rx = expected_hash)
    else ReactionHashMismatch expected_hash (reaction_hash rx);
  Ok tt.

(** The archived form: the struct rkyv derives, and what rkyv's serializer and
    [check_archived_root] relate it to. *)
Record ArchivedAtom := MkArchivedAtom {
  a_public_key : bytes;
  a_element : Element;
  a_neutron_count : Z;
  a_mass : Z;
  a_charge : f32;
  a_last_reaction_hash : bytes;
  a_last_active_index : Z;
  a_nonce : Z;
  a_quantum_state : QuantumState;
}.
Record ArchivedSignedReaction := MkArchivedReaction {
  a_sender : ArchivedAtom;
  a_receiver : ArchivedAtom;
  a_reaction_hash : bytes;
  a_energy : f32;
  a_timestamp : Z;
  a_signature : bytes;
  a_payload : ArchivedPayload;
}.

Definition archive_atom (a : Atom) : ArchivedAtom :=
  MkArchivedAtom (public_key a) (element a) (neutron_count a) (mass a) (charge a)
    (last_reaction_hash a) (last_active_index a) (nonce a) (quantum_state a).
Definition archive_payload (p : Payload) : ArchivedPayload :=
  match p with
  | Generic => AGeneric
  | Transfer n => ATransfer n
  | MiningReward n => AMiningReward n
  | Contract c => AContract c
  | ContractCall a d => AContractCall a d
  | Unknown => AUnknown
  end.
Definition archive (rx : SignedReaction) : ArchivedSignedReaction :=
  MkArchivedReaction (archive_atom (sender rx)) (archive_atom (receiver rx))
    (reaction_hash rx) (energy rx) (rx_timestamp rx) (signature rx)
    (archive_payload (payload rx)).

Definition archived_signing_digest (rx : ArchivedSignedReaction) : bytes :=
  let amount := default 0 (archived_transfer_amount (a_payload rx)) in
  let fee_encoded := encode (a_energy rx) in
  sha3_256 (a_public_key (a_sender rx) ++ a_public_key (a_receiver rx)
    ++ to_le 8 amount ++ to_le 8 fee_encoded ++ a_last_reaction_hash (a_sender rx)).

Definition archived_validate_structure (rx : ArchivedSignedReaction)
    : result unit PrimusError :=
  guard? len (a_public_key (a_sender rx)) =? PK_BYTES
    else InvalidPublicKeyLength PK_BYTES (len (a_public_key (a_sender rx)));
  guard? len (a_public_key (a_receiver rx)) =? PK_BYTES
    else InvalidPublicKeyLength PK_BYTES (len (a_public_key (a_receiver rx)));
  guard? negb (archived_requires_signature_verification (a_payload rx)
               && negb (len (a_signature rx) =? SIG_BYTES))
    else InvalidSignatureLength SIG_BYTES (len (a_signature rx));
  let fee_encoded := encode (a_energy rx) in
  guard? negb (fee_encoded <? PROTOCOL_MIN_FEE)
    else FeeBelowMinimum PROTOCOL_MIN_FEE fee_encoded;
  let expected_hash := archived_signing_digest rx in
  guard? bool_decide (a_reaction_hash rx = expected_hash)
    else ReactionHashMismatch expected_hash (a_reaction_hash rx);
  Ok tt.

Definition from_bytes_zero_copy
    (check_archived_root : bytes → option ArchivedSignedReaction) (b : bytes)
    : result ArchivedSignedReaction PrimusError :=
  ok_or (check_archived_root b)
    (DeserializationFailed "rkyv structural validation (check_bytes) failed").
End reaction.

(** ** crystal.rs *)
Record Crystal := MkCrystal {
  index : Z;
  prev_hash : bytes;
  cr_timestamp : Z;
  cr_nonce : Z;
  reactions : list bytes;
  reactions_data : list SignedReaction;
  cumulative_energy : f32;
  state_root : bytes;
  final_temp : f32;
  final_entropy : f32;
}.

Definition Crystal_new (i : Z) (prev : bytes) : Crystal :=
  MkCrystal i prev 0 0 [] [] (f32_of_Z 0) zero32 (f32_of_Z 0) (f32_of_Z 0).

(** ** galactic_sync.rs *)
Record GalacticStatus := MkStatus {
  gs_crystal_index : Z;
  current_entropy : f32;
  sector_drift : Z;
  gs_cumulative_energy : f32;
}.

Definition from_state (i : Z) (entropy : f32) : GalacticStatus :=
  MkStatus i entropy (i mod 256) (f32_of_Z 0).
Definition from_engine (i : Z) (entropy cum_energy : f32) : GalacticStatus :=
  MkStatus i entropy (i mod 256) cum_energy.

(** [f32::EPSILON] = 2^-23. *)
Definition f32_EPSILON : f32 := f32_lit 1 8388608.

Definition is_more_dominant_than (self other : GalacticStatus) : bool :=
  if gs_crystal_index other <? gs_crystal_index self then true
  else if gs_crystal_index self =? gs_crystal_index other then
    if fp_gt (gs_cumulative_energy self) (gs_cumulative_energy other) then true
    else if fp_lt (f32_abs (f32_sub (gs_cumulative_energy self) (gs_cumulative_energy other)))
                  f32_EPSILON
            && fp_gt (current_entropy self) (current_entropy other) then true
    else false
  else false.

Inductive SyncMessage :=
| Handshake (s : GalacticStatus)
| RequestCrystals (first last : Z)
| InventoryResponse (crystals : list bytes).

(** ** proof.rs *)
Inductive PathStep :=
| PBranch (nibble : Z)
| PExtension (n : Z)
| PLeaf.
Record MerkleProof := MkProof {
  trie_key : bytes;
  value : option bytes;
  root : bytes;
  siblings : list bytes;
  path : list PathStep;
}.

(** ** peer.rs *)
Record PrimusNR := MkNR {
  nr_public_key : bytes;
  addr_ip : Z;
  addr_port : Z;
  nr_signature : bytes;
  nr_timestamp : Z;
}.
Inductive IpAddr := V4 (a : Z) | V6 (a : Z).
Record SocketAddr := MkSocketAddr { ip : IpAddr; port : Z }.

Definition node_id `{Hashes} (nr : PrimusNR) : bytes := sha3_256 (nr_public_key nr).

(** [Ipv4Addr::to_ipv6_mapped] and [Ipv6Addr::to_ipv4_mapped] on the 128-bit value. *)
Definition to_ipv6_mapped (v4 : Z) : Z := Z.lor (Z.shiftl 0xFFFF 32) v4.
Definition to_ipv4_mapped (v6 : Z) : option Z :=
  if Z.shiftr v6 32 =? 0xFFFF then Some (Z.land v6 (Z.ones 32)) else None.

Definition addr (nr : PrimusNR) : SocketAddr :=
  let ip := match to_ipv4_mapped (addr_ip nr) with
            | Some v4 => V4 v4
            | None => V6 (addr_ip nr)
            end in
  MkSocketAddr ip (addr_port nr).

Definition from_socket_addr (pk : bytes) (a : SocketAddr) (sig : bytes) (ts : Z) : PrimusNR :=
  let addr_ip := match ip a with V4 v4 => to_ipv6_mapped v4 | V6 v6 => v6 end in
  MkNR pk addr_ip (port a) sig ts.

(** ML-DSA-87: [mldsa_verify pk msg sig] is the crate's decode-and-verify on keys
    and signatures of the right lengths. *)
Definition nr_verify (mldsa_verify : bytes → bytes → bytes → bool) (nr : PrimusNR) : bool :=
  let msg := nr_public_key nr ++ to_be 16 (addr_ip nr) ++ to_be 2 (addr_port nr)
             ++ to_le 8 (nr_timestamp nr) in
  if len (nr_public_key nr) =? PK_BYTES then
    if len (nr_signature nr) =? SIG_BYTES then
      mldsa_verify (nr_public_key nr) msg (nr_signature nr)
    else false
  else false.

(** ** The canonical encoding *)
Lemma encode_bounds v : 0 ≤ encode v ≤ U64_MAX.
Proof.
  unfold encode. case_match; [unfold U64_MAX; lia|].
  generalize (fp_max (f64_mul (f64_of_f32 v) (f64_of_Z FIXED_POINT_SCALE)) (f64_of_Z 0)).
  intros x. unfold fp_to_u64, fp_trunc, U64_MAX.
  destruct x as [| [|] | | [|] m e]; try lia. case_match; [|].
  - assert (0 < 2 ^ e) by (apply Z.pow_pos_nonneg; [lia|by apply Z.leb_le]). lia.
  - assert (0 ≤ Z.pos m / 2 ^ (- e)); [|lia].
    apply Z.div_pos; [lia|]. apply Z.pow_pos_nonneg; [lia|]. apply Z.leb_gt in H0. lia.
Qed.

Definition fp_negative_or_small (x : spec_float) : Prop :=
  match x with S754_finite false _ _ | S754_infinity false => False | _ => True end.

Lemma binary_round_aux_neg prec emax m e l :
  fp_negative_or_small (binary_round_aux prec emax true m e l).
Proof.
  unfold binary_round_aux. repeat (case_match; try done).
  all: simplify_eq; simpl; repeat case_match; done.
Qed.

Lemma fp_convert_neg prec emax m e :
  fp_negative_or_small (fp_convert prec emax (S754_finite true m e)).
Proof.
  unfold fp_convert, binary_normalize, binary_round. destruct (shl_align _ _ _).
  apply binary_round_aux_neg.
Qed.

Lemma f64_mul_neg x m e : fp_negative_or_small x → fp_negative_or_small (f64_mul x (S754_finite false m e)).
Proof. destruct x as [| [|] | |[|] ??]; try done. intros _. apply binary_round_aux_neg. Qed.

(** Only positive numbers have a nonzero encoding. *)
Lemma encode_positive v : encode v ≠ 0 → f32_positive v.
Proof.
  intros H. destruct v as [s|[|]| |[|] m e].
  1: destruct H, s; vm_compute; reflexivity.
  1, 3: destruct H; vm_compute; reflexivity.
  1, 3: exact I.
  destruct H. unfold encode. destruct (f64_of_Z FIXED_POINT_SCALE) as [| | |[|] c ce] eqn:Ec; try (by vm_compute in Ec).
  pose proof (f64_mul_neg (f64_of_f32 (S754_finite true m e)) c ce (fp_convert_neg _ _ m e)) as Hn.
  destruct (f64_mul _ _) as [[|]|[|]| |[|] m' e']; try done; vm_compute; reflexivity.
Qed.
#[export] Hint Resolve encode_bounds : primus.

Lemma encode_exact n : 0 ≤ n < 2 ^ 23 → encode (f32_of_Z n) = n * FIXED_POINT_SCALE.
Proof.
  intros Hn. destruct (decide (n = 0)) as [->|Hn0]; [reflexivity|].
  destruct (f32_of_Z_exact n) as (q & k & Hfq & Hq & Hk & Hdq); [lia|].
  assert (Hk24 : k ≤ 24).
  { pose proof (digits2_pos_bounds q) as [_ Hub]. rewrite Hdq, Hq in Hub.
    destruct (Z.le_gt_cases k 24); [done|].
    assert (2 ^ 24 < 2 ^ k) by (apply Z.pow_lt_mono_r; lia). nia. }
  destruct (f64_mul_exact q k FIXED_POINT_SCALE 8388608000000000 23 n) as (r & j & Hr & Hv & Hj);
    [done|done|done|lia|done|vm_compute; done|done|lia|unfold FIXED_POINT_SCALE; lia|lia
    |reflexivity|].
  unfold encode. rewrite Hfq, Hr.
  assert (Hmax : fp_max (S754_finite false r (- j)) (f64_of_Z 0) = S754_finite false r (- j)) by done.
  rewrite Hmax.
  assert (Hpow : 0 < 2 ^ j) by (apply Z.pow_pos_nonneg; lia).
  assert (Ht : fp_trunc (S754_finite false r (- j)) = n * FIXED_POINT_SCALE).
  { cbn [fp_trunc]. case_match.
    - assert (j = 0) as -> by (apply Z.leb_le in H; lia). simpl. lia.
    - rewrite Z.opp_involutive, Hv, Z.div_mul by lia. done. }
  assert (Hge : fp_ge (S754_finite false r (- j)) (f64_of_Z U64_MAX) = false).
  { replace (f64_of_Z U64_MAX) with (S754_finite false 4503599627370496 12) by (vm_compute; done).
    unfold fp_ge, SFleb, SFcompare.
    assert (Hlt : - j < 12) by lia. rewrite (proj2 (Z.compare_gt_iff _ _)) by lia. done. }
  rewrite Hge. cbn [fp_to_u64]. rewrite Ht.
  unfold FIXED_POINT_SCALE, U64_MAX in *. lia.
Qed.

(** The canonical encoding of an integral scalar below 2^23 is exact: every such
    fee or temperature [n], held as an f32, is hashed as [n * 10^9]. *)
Theorem encode_integer n : 0 ≤ n < 2 ^ 23 → encode (f32_of_Z n) = n * FIXED_POINT_SCALE.
Proof. apply encode_exact. Qed.
Lemma encode_integer_witness : 0 ≤ 10 < 2 ^ 23 ∧ encode (f32_of_Z 10) = 10 * FIXED_POINT_SCALE.
Proof. split; [lia|]. apply (encode_integer 10). lia. Defined.

(** The fee floor is compared at scale 10^9, so it admits a fee whose integral
    part, the amount the virtual machine burns, is zero. *)
Theorem fee_floor_admits_zero_burn :
  ∃ e, PROTOCOL_MIN_FEE ≤ encode e ∧ fp_to_u64 e = 0 ∧ encode e < FIXED_POINT_SCALE.
Proof. exists (f32_lit 2 100000000). vm_compute. repeat split; discriminate. Qed.

(** ** Structural validation *)
Section validation.
Context `{HA : Hashes}.
Implicit Types rx : SignedReaction.

Lemma length_signing_digest rx : length (signing_digest rx) = 32%nat.
Proof. apply length_sha3_256. Qed.

Lemma archived_signing_digest_archive rx :
  archived_signing_digest (archive rx) = signing_digest rx.
Proof. unfold archived_signing_digest, signing_digest, signing_input, archive. by destruct (payload rx). Qed.

Lemma archived_requires_signature_archive p :
  archived_requires_signature_verification (archive_payload p) = requires_signature_verification p.
Proof. by destruct p. Qed.

Lemma archived_validate_structure_archive rx :
  archived_validate_structure (archive rx) = validate_structure rx.
Proof.
  unfold archived_validate_structure. rewrite archived_signing_digest_archive.
  cbn [archive a_payload]. rewrite archived_requires_signature_archive. done.
Qed.

(** The zero-copy validation of an archived reaction gives exactly the result of
    the owned one, errors included. *)
Theorem archived_validate_structure_agrees rx :
  archived_validate_structure (archive rx) = validate_structure rx.
Proof. apply archived_validate_structure_archive. Qed.

(** What a structurally valid reaction satisfies. *)
Definition structurally_valid rx : Prop :=
  len (public_key (sender rx)) = PK_BYTES ∧
  len (public_key (receiver rx)) = PK_BYTES ∧
  (requires_signature_verification (payload rx) = true → len (signature rx) = SIG_BYTES) ∧
  PROTOCOL_MIN_FEE ≤ encode (energy rx) ∧
  reaction_hash rx = signing_digest rx.

Lemma validate_structure_Ok rx : validate_structure rx = Ok tt ↔ structurally_valid rx.
Proof.
  unfold validate_structure, structurally_valid, compute_reaction_hash.
  rewrite !guard_Ok, !Z.eqb_eq, !negb_true_iff, Z.ltb_ge, bool_decide_eq_true.
  assert (∀ a b c : bool, (a && negb b) = false ↔ (a = true → b = true)) as Himp
    by (intros [] []; naive_solver).
  rewrite (Himp _ _ true), Z.eqb_eq. naive_solver.
Qed.

(** Structural validation accepts exactly the reactions with keys and signature of
    the protocol's lengths, a fee not below the floor and the derived reaction hash. *)
Theorem validate_structure_iff rx : validate_structure rx = Ok tt ↔ structurally_valid rx.
Proof. apply validate_structure_Ok. Qed.

(** A fee above the floor is a positive number (or +∞): the encoding of anything else is 0. *)
Lemma structurally_valid_energy rx : structurally_valid rx → f32_positive (energy rx).
Proof.
  intros (_ & _ & _ & Hfee & _). apply encode_positive. unfold PROTOCOL_MIN_FEE in Hfee. lia.
Qed.

(** The reaction hash fixes both parties, the amount, the encoded fee and the sender's
    anchor, up to a collision of the hash on these inputs. *)
Lemma signing_input_inj rx rx' :
  len (public_key (sender rx)) = PK_BYTES → len (public_key (receiver rx)) = PK_BYTES →
  len (public_key (sender rx')) = PK_BYTES → len (public_key (receiver rx')) = PK_BYTES →
  is_u64 (default 0 (transfer_amount (payload rx))) →
  is_u64 (default 0 (transfer_amount (payload rx'))) →
  signing_input rx = signing_input rx' →
  public_key (sender rx) = public_key (sender rx') ∧
  public_key (receiver rx) = public_key (receiver rx') ∧
  default 0 (transfer_amount (payload rx)) = default 0 (transfer_amount (payload rx')) ∧
  encode (energy rx) = encode (energy rx') ∧
  last_reaction_hash (sender rx) = last_reaction_hash (sender rx').
Proof.
  unfold signing_input, len. intros H1 H2 H3 H4 [??] [??] Hin.
  pose proof (encode_bounds (energy rx)) as [??].
  pose proof (encode_bounds (energy rx')) as [??].
  apply app_inj_1 in Hin as [Hs Hin]; [|lia].
  apply app_inj_1 in Hin as [Hr Hin]; [|lia].
  apply app_inj_1 in Hin as [Ha Hin]; [|by rewrite !length_to_le].
  apply app_inj_1 in Hin as [He Hin]; [|by rewrite !length_to_le].
  unfold U64_MAX in *.
  apply to_le_inj in Ha; [|lia|lia]. apply to_le_inj in He; [|lia|lia]. done.
Qed.

(** Two structurally valid reactions with the same reaction hash name the same
    sender, receiver, amount, encoded fee and sender anchor, unless they exhibit a
    collision of SHA3-256. *)
Theorem reaction_hash_binds rx rx' :
  structurally_valid rx → structurally_valid rx' →
  is_u64 (default 0 (transfer_amount (payload rx))) →
  is_u64 (default 0 (transfer_amount (payload rx'))) →
  reaction_hash rx = reaction_hash rx' →
  (public_key (sender rx) = public_key (sender rx') ∧
   public_key (receiver rx) = public_key (receiver rx') ∧
   default 0 (transfer_amount (payload rx)) = default 0 (transfer_amount (payload rx')) ∧
   encode (energy rx) = encode (energy rx') ∧
   last_reaction_hash (sender rx) = last_reaction_hash (sender rx')) ∨
  (signing_input rx ≠ signing_input rx' ∧
   sha3_256 (signing_input rx) = sha3_256 (signing_input rx')).
Proof.
  intros (?&?&?&?&Hh) (?&?&?&?&Hh') ?? Heq.
  destruct (decide (signing_input rx = signing_input rx')).
  - left. by apply signing_input_inj.
  - right. split; [done|]. unfold signing_digest in *. congruence.
Qed.
End validation.

(** A concrete instance to evaluate the definitions on: a polynomial hash.  Witnesses
    use it; no theorem depends on it. *)
Definition toy_hash (b : bytes) : bytes :=
  to_le 32 (foldl (λ acc x, (acc * 257 + x + 1) mod (2 ^ 255 - 19)) 7 b).
Definition toy_hashes : Hashes :=
  {| sha3_256 := toy_hash; blake3 := toy_hash;
     length_sha3_256 b := length_to_le 32 _; length_blake3 b := length_to_le 32 _ |}.
(** A cheap checksum in the place of the hash. *)
Definition checksum (b : bytes) : bytes := to_le 32 (foldl Z.add 0 b).
Definition checksum_hashes : Hashes :=
  {| sha3_256 := checksum; blake3 := checksum;
     length_sha3_256 b := length_to_le 32 _; length_blake3 b := length_to_le 32 _ |}.
Definition toy_key (n : Z) : bytes := n :: replicate 2591 1.
Definition toy_rx `{Hashes} (s r : Atom) (fee : Z) (p : Payload) : SignedReaction :=
  let rx := MkReaction s r zero32 (f32_of_Z fee) 0 (replicate 4627 5) p in
  MkReaction s r (signing_digest rx) (f32_of_Z fee) 0 (replicate 4627 5) p.

Definition toy_resign (sig : Z) (rx : SignedReaction) : SignedReaction :=
  MkReaction (sender rx) (receiver rx) (reaction_hash rx) (energy rx) (rx_timestamp rx)
    (replicate 4627 sig) (payload rx).
Definition toy_transfer : SignedReaction :=
  @toy_rx checksum_hashes (new_receiver (toy_key 1)) (new_receiver (toy_key 2)) 10 (Transfer 5).

Lemma toy_transfer_valid sig : structurally_valid (HA := checksum_hashes) (toy_resign sig toy_transfer).
Proof.
  unfold structurally_valid.
  refine (conj _ (conj _ (conj (λ _, _) (conj _ _)))); vm_compute; congruence.
Qed.

Lemma reaction_hash_binds_witness :
  (default 0 (transfer_amount (payload (toy_resign 5 toy_transfer)))
   = default 0 (transfer_amount (payload (toy_resign 6 toy_transfer)))) ∨
  @sha3_256 checksum_hashes (signing_input (toy_resign 5 toy_transfer))
   = @sha3_256 checksum_hashes (signing_input (toy_resign 6 toy_transfer)).
Proof.
  destruct (reaction_hash_binds (HA := checksum_hashes) (toy_resign 5 toy_transfer)
              (toy_resign 6 toy_transfer) (toy_transfer_valid 5) (toy_transfer_valid 6)
              ltac:(split; discriminate) ltac:(split; discriminate) eq_refl)
    as [(_&_&H&_)|[_ H]]; [left; exact H|right; exact H].
Defined.

(** ** Node records *)
Lemma to_ipv4_mapped_to_ipv6 v : 0 ≤ v < 2 ^ 32 → to_ipv4_mapped (to_ipv6_mapped v) = Some v.
Proof.
  intros Hv. unfold to_ipv4_mapped, to_ipv6_mapped.
  assert (Hs : Z.shiftr v 32 = 0).
  { rewrite Z.shiftr_div_pow2 by lia. apply Z.div_small. lia. }
  rewrite Z.shiftr_lor, Hs, Z.shiftr_shiftl_l by lia.
  change (Z.lor (Z.shiftl 0xFFFF (32 - 32)) 0 =? 0xFFFF) with true. cbv iota. f_equal.
  rewrite Z.land_lor_distr_l, !Z.land_ones, Z.shiftl_mul_pow2, Z.mod_mul by lia.
  rewrite Z.lor_0_l. by apply Z.mod_small.
Qed.

(** A socket address survives the trip through a node record: the 128-bit field
    gives back an IPv4 address as IPv4 and any other address as it was. *)
Theorem addr_from_socket_addr pk a sig ts :
  match ip a with
  | V4 v => 0 ≤ v < 2 ^ 32
  | V6 v => to_ipv4_mapped v = None
  end → addr (from_socket_addr pk a sig ts) = a.
Proof.
  destruct a as [[v|v] p]; cbn [ip port]; intros Hv; unfold addr, from_socket_addr;
    cbn [ip port addr_ip addr_port].
  - by rewrite to_ipv4_mapped_to_ipv6.
  - by rewrite Hv.
Qed.

Lemma addr_from_socket_addr_witness :
  addr (from_socket_addr [] (MkSocketAddr (V4 0x7F000001) 8080) [] 0)
  = MkSocketAddr (V4 0x7F000001) 8080.
Proof. apply addr_from_socket_addr. simpl. lia. Defined.

(** ** Chain dominance *)
Lemma SFltb_asym a b : SFltb a b = true → SFltb b a = false.
Proof.
  unfold SFltb, SFcompare.
  destruct a as [[|]|[|]| |[|] m e], b as [[|]|[|]| |[|] m' e']; try done.
  all: rewrite (Z.compare_antisym e e'); destruct (e ?= e')%Z eqn:He; simpl; try done.
  all: rewrite (Pos.compare_cont_antisym m m' Eq) || idtac; simpl.
  all: change (Pos.compare_cont Eq m m') with (Pos.compare m m') in *;
       change (Pos.compare_cont Eq m' m) with (Pos.compare m' m) in *;
       rewrite (Pos.compare_antisym m m'); destruct (Pos.compare m m'); done.
Qed.

(** Two status reports dominate each other exactly when their indices are equal,
    one carries the larger cumulative energy by less than the epsilon, and the other
    the larger entropy; everywhere else dominance is asymmetric. *)
Theorem mutual_dominance_iff a b :
  (is_more_dominant_than a b = true ∧ is_more_dominant_than b a = true) ↔
  gs_crystal_index a = gs_crystal_index b ∧
  ((fp_gt (gs_cumulative_energy a) (gs_cumulative_energy b) = true ∧
    fp_lt (f32_abs (f32_sub (gs_cumulative_energy b) (gs_cumulative_energy a))) f32_EPSILON = true ∧
    fp_gt (current_entropy b) (current_entropy a) = true) ∨
   (fp_gt (gs_cumulative_energy b) (gs_cumulative_energy a) = true ∧
    fp_lt (f32_abs (f32_sub (gs_cumulative_energy a) (gs_cumulative_energy b))) f32_EPSILON = true ∧
    fp_gt (current_entropy a) (current_entropy b) = true)).
Proof.
  unfold is_more_dominant_than, fp_gt.
  pose proof (SFltb_asym (gs_cumulative_energy a) (gs_cumulative_energy b)) as Hc.
  pose proof (SFltb_asym (current_entropy a) (current_entropy b)) as He.
  destruct (Z.lt_total (gs_crystal_index a) (gs_crystal_index b)) as [H|[H|H]].
  - rewrite (proj2 (Z.ltb_ge _ _)), (proj2 (Z.eqb_neq _ _)) by lia. naive_solver lia.
  - rewrite H, !Z.ltb_irrefl, !Z.eqb_refl.
    destruct (SFltb (gs_cumulative_energy a) _), (SFltb (gs_cumulative_energy b) _),
      (fp_lt _ _), (fp_lt _ _), (SFltb (current_entropy a) _), (SFltb (current_entropy b) _);
      simpl; naive_solver.
  - rewrite (proj2 (Z.ltb_lt _ _)) by lia.
    rewrite (proj2 (Z.ltb_ge (gs_crystal_index a) _)), (proj2 (Z.eqb_neq _ _)) by lia. naive_solver lia.
Qed.
