(* ===== verification/Text.v ===== *)
(** The operations on text that the sources take from the standard library: trimming,
    lines, prefixes, splitting, and decimal numbers.  Text is a list of bytes. *)
From S2P Require Import Prelude Types.
From stdpp Require Import pretty.
Open Scope Z_scope.

(** The white space of ASCII. *)
Definition is_space (b : Z) : bool := (b =? 32) || ((9 <=? b) && (b <=? 13)).
Fixpoint drop_while (p : Z → bool) (l : bytes) : bytes :=
  match l with
  | [] => []
  | b :: l' => if p b then drop_while p l' else l
  end.
(** `trim` and `trim_matches`. *)
Definition trim_by (p : Z → bool) (l : bytes) : bytes := reverse (drop_while p (reverse (drop_while p l))).

(** `split` at a character; `lines`. *)
Fixpoint split_on (sep : Z) (cur l : bytes) : list bytes :=
  match l with
  | [] => [reverse cur]
  | b :: l => if b =? sep then reverse cur :: split_on sep [] l else split_on sep (b :: cur) l
  end.
Definition split_lines (l : bytes) : list bytes := split_on 10 [] l.

Fixpoint strip_prefix (p l : bytes) : option bytes :=
  match p, l with
  | [], _ => Some l
  | x :: p, y :: l => if x =? y then strip_prefix p l else None
  | _ :: _, [] => None
  end.

(** `str::parse::<u64>`: an optional plus sign and at least one decimal digit. *)
Fixpoint parse_digits (acc : Z) (l : bytes) : option Z :=
  match l with
  | [] => Some acc
  | b :: l =>
      if (48 <=? b) && (b <=? 57) then
        let acc := acc * 10 + (b - 48) in
        if acc <=? U64_MAX then parse_digits acc l else None
      else None
  end.
Definition parse_u64 (l : bytes) : option Z :=
  let digits := match l with 43 :: l => l | _ => l end in
  match digits with [] => None | _ => parse_digits 0 digits end.

(** `to_string` of an unsigned integer. *)
Definition decimal (p : Z) : bytes := bytes_of_string (pretty (Z.to_N p)).
(** `parse::<u16>`. *)
Definition parse_u16 (l : bytes) : option Z := parse_u64 l ≫= λ n, if n <? 65536 then Some n else None.

(** `join`. *)
Fixpoint join (sep : bytes) (l : list bytes) : bytes :=
  match l with
  | [] => []
  | [x] => x
  | x :: l => x ++ sep ++ join sep l
  end.
(** `trim_end_matches` of a character. *)
Definition trim_end (p : Z → bool) (l : bytes) : bytes := reverse (drop_while p (reverse l)).

(** ** Decimal numbers are parsed as they are printed *)
Lemma bytes_of_string_cons a s : bytes_of_string (String a s) = Z.of_N (Ascii.N_of_ascii a) :: bytes_of_string s.
Proof. done. Qed.

Lemma parse_digits_char acc d l :
  0 ≤ d < 10 → 0 ≤ acc → acc * 10 + d ≤ U64_MAX → parse_digits acc ((48 + d) :: l) = parse_digits (acc * 10 + d) l.
Proof.
  intros Hd Ha Hu. cbn [parse_digits]. rewrite (proj2 (Z.leb_le 48 _)), (proj2 (Z.leb_le _ 57)) by lia. cbn [andb].
  replace (acc * 10 + (48 + d - 48)) with (acc * 10 + d) by lia. by rewrite (proj2 (Z.leb_le _ _)).
Qed.

Lemma pretty_N_char_code d : (d < 10)%N → Z.of_N (Ascii.N_of_ascii (pretty_N_char d)) = 48 + Z.of_N d.
Proof.
  intros Hd. destruct d as [|p]; [done|].
  do 4 (destruct p as [p|p|]; try done; try (exfalso; lia)).
Qed.

Lemma parse_digits_pretty (n : N) s :
  Z.of_N n ≤ U64_MAX → parse_digits 0 (bytes_of_string (pretty_N_go n s)) = parse_digits (Z.of_N n) (bytes_of_string s).
Proof.
  revert s. induction (N.lt_wf_0 n) as [n _ IH]. intros s Hn. destruct (decide (n = 0%N)) as [->|Hn0].
  { by rewrite pretty_N_go_0. }
  rewrite pretty_N_go_step by lia.
  pose proof (N.mod_lt n 10 ltac:(lia)). pose proof (N.div_mod n 10 ltac:(lia)). pose proof (N.div_lt n 10 ltac:(lia) ltac:(lia)).
  set (q := (n / 10)%N) in *. set (r := (n mod 10)%N) in *. clearbody q r.
  assert (Hz : Z.of_N q * 10 + Z.of_N r = Z.of_N n) by lia.
  rewrite IH by lia. rewrite bytes_of_string_cons, pretty_N_char_code by lia.
  rewrite parse_digits_char by lia. by rewrite Hz.
Qed.

Lemma pretty_N_char_range n :
  48 ≤ Z.of_N (Ascii.N_of_ascii (pretty_N_char (n mod 10))) < 58.
Proof.
  pose proof (N.mod_lt n 10 ltac:(lia)) as H. rewrite pretty_N_char_code by done.
  generalize dependent (n mod 10)%N. intros d. lia.
Qed.
Definition digit (c : Z) : Prop := 48 ≤ c < 58.
Lemma pretty_N_go_digits n s :
  Forall digit (bytes_of_string s) → (n ≠ 0%N ∨ s ≠ "") →
  Forall digit (bytes_of_string (pretty_N_go n s)) ∧ bytes_of_string (pretty_N_go n s) ≠ [].
Proof.
  revert s. induction (N.lt_wf_0 n) as [n _ IH]. intros s Hs Hne. destruct (decide (n = 0%N)) as [->|Hn].
  { rewrite pretty_N_go_0. split; [done|]. destruct Hne as [?|Hs0]; [done|]. by destruct s. }
  rewrite pretty_N_go_step by lia. apply IH; [apply N.div_lt; lia| |by right].
  rewrite bytes_of_string_cons. constructor; [apply pretty_N_char_range|done].
Qed.
Lemma decimal_digits n : Forall digit (decimal n) ∧ decimal n ≠ [].
Proof.
  unfold decimal, pretty, pretty_N. case_decide as Hn; [split; [by repeat constructor|done]|].
  apply pretty_N_go_digits; [constructor|by left].
Qed.

(** A number below a power of ten has no more digits than the power has zeros. *)
Lemma length_pretty_N_go (k : nat) n s :
  (n < 10 ^ N.of_nat k)%N → (length (bytes_of_string (pretty_N_go n s)) ≤ k + length (bytes_of_string s))%nat.
Proof.
  revert n s. induction k as [|k IH]; intros n s Hn.
  { replace n with 0%N by (cbn in Hn; lia). by rewrite pretty_N_go_0. }
  destruct (decide (n = 0%N)) as [->|Hn0]; [rewrite pretty_N_go_0; lia|].
  rewrite pretty_N_go_step by lia. etransitivity; [apply IH|rewrite bytes_of_string_cons; cbn [length]; lia].
  apply N.Div0.div_lt_upper_bound. rewrite Nat2N.inj_succ, N.pow_succ_r' in Hn. lia.
Qed.
Lemma length_decimal (k : nat) n : (0 < k)%nat → n < 10 ^ Z.of_nat k → (length (decimal n) ≤ k)%nat.
Proof.
  intros Hk Hn. unfold decimal, pretty, pretty_N. case_decide as H0; [cbn; lia|].
  pose proof (length_pretty_N_go k (Z.to_N n) "") as Hl. change (length (bytes_of_string "")) with 0%nat in Hl.
  rewrite Nat.add_0_r in Hl. apply Hl. apply N2Z.inj_lt. rewrite N2Z.inj_pow, nat_N_Z.
  assert (0 < 10 ^ Z.of_nat k) by (apply Z.pow_pos_nonneg; lia). change (Z.of_N 10) with 10. lia.
Qed.

Lemma parse_u64_decimal n : is_u64 n → parse_u64 (decimal n) = Some n.
Proof.
  intros [H0 Hu]. destruct (decimal_digits n) as [Hdig Hne0].
  assert (Hp : parse_digits 0 (decimal n) = Some n).
  { unfold decimal, pretty, pretty_N. case_decide as Hn; [cbn; f_equal; lia|].
    rewrite parse_digits_pretty by lia. cbn. f_equal. lia. }
  unfold parse_u64. destruct (decimal n) as [|d l]; [done|]. inversion Hdig as [|?? Hr _]; subst. unfold digit in Hr.
  destruct d as [|p|]; [done| |done].
  destruct (decide (Z.pos p = 43)) as [Heq|Hne]; [lia|].
  assert (Hm : match Z.pos p with 43 => l | _ => Z.pos p :: l end = Z.pos p :: l).
  { clear -Hne. do 6 (destruct p as [p|p|]; try done). }
  revert Hm. do 6 (destruct p as [p|p|]; try done).
Qed.

(** ** Trimming and splitting *)
Definition avoids (p : Z → bool) (l : bytes) : Prop := Forall (λ c, p c = false) l.

Lemma avoids_weaken (p q : Z → bool) l : (∀ x, p x = false → q x = false) → avoids p l → avoids q l.
Proof. intros Hpq Hl. eapply Forall_impl; [exact Hl|]. intros x. apply Hpq. Qed.
Lemma drop_while_head p l x : head l = Some x → p x = false → drop_while p l = l.
Proof. destruct l as [|y l]; [done|]. intros [= ->] Hx. cbn. by rewrite Hx. Qed.
Lemma head_reverse (l : bytes) : head (reverse l) = last l.
Proof. induction l as [|x l IH] using rev_ind; [done|]. by rewrite reverse_snoc, last_snoc. Qed.
Lemma trim_end_last p l x : last l = Some x → p x = false → trim_end p l = l.
Proof. intros Hl Hx. unfold trim_end. rewrite (drop_while_head p _ x); [apply reverse_involutive|by rewrite head_reverse|done]. Qed.
Lemma trim_by_ends p l x y : head l = Some x → p x = false → last l = Some y → p y = false → trim_by p l = l.
Proof.
  intros Hh Hx Hl Hy. unfold trim_by. rewrite (drop_while_head p l x) by done.
  exact (trim_end_last p l y Hl Hy).
Qed.
Lemma trim_by_avoids p l : avoids p l → trim_by p l = l.
Proof.
  intros H. destruct l as [|x l]; [done|]. destruct (last (x :: l)) as [y|] eqn:Hl.
  - apply (trim_by_ends p _ x y); [done|by inversion H|done|].
    unfold avoids in H. rewrite Forall_forall in H. apply H. by apply last_Some_elem_of.
  - by apply last_None in Hl.
Qed.

Lemma avoids_app p l k : avoids p (l ++ k) ↔ avoids p l ∧ avoids p k.
Proof. apply Forall_app. Qed.

Lemma split_on_avoids sep cur l rest :
  avoids (λ c, c =? sep) l → split_on sep cur (l ++ sep :: rest) = (reverse cur ++ l) :: split_on sep [] rest.
Proof.
  intros Hl. revert cur; induction Hl as [|x l Hx _ IH]; intros cur; cbn [app split_on].
  - by rewrite Z.eqb_refl, app_nil_r.
  - rewrite Hx, IH, reverse_cons, <-app_assoc. done.
Qed.
Lemma split_on_last sep cur l : avoids (λ c, c =? sep) l → split_on sep cur l = [reverse cur ++ l].
Proof.
  intros Hl. revert cur; induction Hl as [|x l Hx _ IH]; intros cur; cbn [split_on].
  - by rewrite app_nil_r.
  - rewrite Hx, IH, reverse_cons, <-app_assoc. done.
Qed.
(** Splitting undoes joining with the separator and a space, up to that space. *)
Lemma split_on_join sep l :
  l ≠ [] → Forall (avoids (λ c, c =? sep)) l → 32 ≠ sep →
  split_on sep [] (join [sep; 32] l) = match l with [] => [] | x :: l => x :: ((λ y, 32 :: y) <$> l) end.
Proof.
  intros Hne Hl Hs. destruct Hl as [|x l Hx Hl]; [done|]. clear Hne.
  assert (Hgo : ∀ cur x, avoids (λ c, c =? sep) x →
            split_on sep cur (join [sep; 32] (x :: l)) = (reverse cur ++ x) :: ((λ y, 32 :: y) <$> l)).
  { induction Hl as [|y l Hy Hl IH]; intros cur z Hz.
    - cbn [join]. by rewrite split_on_last.
    - change (join [sep; 32] (z :: y :: l)) with (z ++ sep :: 32 :: join [sep; 32] (y :: l)).
      rewrite split_on_avoids by done. cbn [split_on]. rewrite (proj2 (Z.eqb_neq 32 sep)) by done. by rewrite IH. }
  by rewrite Hgo.
Qed.

Lemma strip_prefix_app p l : strip_prefix p (p ++ l) = Some l.
Proof. induction p as [|x p IH]; cbn; [done|]. by rewrite Z.eqb_refl. Qed.
Lemma split_lines_lines (ls : list bytes) :
  Forall (avoids (λ c, c =? 10)) ls → split_lines (ls ≫= λ l, l ++ [10]) = ls ++ [[]].
Proof.
  unfold split_lines. induction 1 as [|l ls Hl _ IH]; [done|].
  rewrite bind_cons, <-app_assoc. cbn [app]. rewrite split_on_avoids by done. by rewrite IH.
Qed.

Lemma digit_not_space c : digit c → is_space c = false.
Proof.
  unfold digit, is_space. intros H. rewrite orb_false_iff, andb_false_iff, Z.eqb_neq, !Z.leb_gt. lia.
Qed.
Lemma decimal_avoids_space n : avoids is_space (decimal n).
Proof. eapply Forall_impl; [apply decimal_digits|]. intros c. apply digit_not_space. Qed.
Lemma last_digit n : ∃ y, last (decimal n) = Some y ∧ is_space y = false.
Proof.
  destruct (decimal_digits n) as [Hd Hne]. destruct (last (decimal n)) as [y|] eqn:E; [|by apply last_None in E].
  exists y. split; [done|]. apply digit_not_space. rewrite Forall_forall in Hd. apply Hd. by apply last_Some_elem_of.
Qed.
Lemma parse_u16_decimal n : 0 ≤ n < 65536 → parse_u16 (decimal n) = Some n.
Proof.
  intros Hn. unfold parse_u16. rewrite parse_u64_decimal by (unfold is_u64, U64_MAX; lia). cbn.
  by rewrite (proj2 (Z.ltb_lt _ _)) by lia.
Qed.
