(* ===== verification/Mpt.v ===== *)
(** primus-storage/src/mpt.rs: the Merkle-Patricia trie, operation by operation, over
    any implementation of the trait MptStore.

    Recursive methods take fuel; [OutOfFuel] stands for running on, and MptFacts shows
    that [key_fuel] is always enough on a well-formed trie.  Interior mutability of the
    store is explicit state: an operation returns the new store. *)
From S2P Require Import Prelude Floats Types.
Open Scope Z_scope.

Abbreviation Hash32 := bytes.

(** ** Nodes *)
Inductive MptNode :=
| Leaf (key_suffix : bytes) (leaf_value : bytes)
| Extension (prefix : bytes) (child : Hash32)
| Branch (children : list (option Hash32)) (branch_value : option bytes).

#[export] Instance MptNode_eq_dec : EqDecision MptNode.
Proof. solve_decision. Defined.

(** bincode's encoding of a node (crate bincode), with its round trip. *)
Class NodeCodec := {
  ser_node : MptNode → bytes;
  de_node : bytes → option MptNode;
  de_ser_node n : de_node (ser_node n) = Some n;
}.

(** Failures of the operations: an absent node, a failing store or decoder, an index
    out of range (a panic of the program), fuel. *)
Inductive MptError := NodeNotFound | StoreError | IndexPanic | OutOfFuel.

Abbreviation mres A := (result A MptError).

Definition BRANCH_TAG : bytes := bytes_of_string "BRANCH".

Section hashing.
Context {HA : Hashes} {NC : NodeCodec}.

(** The loop `for h in hashes { combined ^= h }`. *)
Definition xor_all (acc : bytes) (hs : list bytes) : bytes := foldl xor_bytes acc hs.

Definition some_children (children : list (option Hash32)) : list Hash32 :=
  omap id children.

Definition branch_digest (combined_xor : bytes) : Hash32 :=
  blake3 (BRANCH_TAG ++ combined_xor).

Definition xor_value (acc : bytes) (value : option bytes) : bytes :=
  match value with
  | Some v => xor_bytes acc (blake3 v)
  | None => acc
  end.

Definition node_hash (n : MptNode) : Hash32 :=
  match n with
  | Leaf _ _ | Extension _ _ => blake3 (ser_node n)
  | Branch children value =>
      let combined_xor := xor_all zero32 (some_children children) in
      branch_digest (xor_value combined_xor value)
  end.
End hashing.

Definition key_to_nibbles (key : bytes) : bytes :=
  key ≫= λ byte, [Z.shiftr byte 4; Z.land byte 0x0F].

Fixpoint common_prefix (a b : bytes) : nat :=
  match a, b with
  | x :: a', y :: b' => if x =? y then S (common_prefix a' b') else O
  | _, _ => O
  end.

(** `nibbles.starts_with(prefix)`. *)
Fixpoint starts_with (nibbles prefix : bytes) {struct prefix} : bool :=
  match prefix, nibbles with
  | [], _ => true
  | p :: prefix', n :: nibbles' => (p =? n) && starts_with nibbles' prefix'
  | _ :: _, [] => false
  end.

(** ** The trait MptStore *)
Class MptStore (St : Type) := {
  get_node : St → Hash32 → mres (option MptNode);
  put_node : St → MptNode → mres (St * Hash32);
  delete_node : St → Hash32 → mres St;
}.

Record MerklePatriciaTrie (St : Type) := MkTrie {
  mroot : option Hash32;
  store : St;
}.
Arguments MkTrie {St} _ _.
Arguments mroot {St} _.
Arguments store {St} _.

(** `children[nibble]`. *)
Definition child_at (children : list (option Hash32)) (nibble : Z) : mres (option Hash32) :=
  ok_or (children !! Z.to_nat nibble) IndexPanic.
(** `children[nibble] = c`. *)
Definition set_child (children : list (option Hash32)) (nibble : Z) (c : option Hash32)
    : list (option Hash32) := <[Z.to_nat nibble := c]> children.
Definition no_children : list (option Hash32) := replicate 16 None.

Section trie.
Context {HA : Hashes} {NC : NodeCodec} {St : Type} `{MS : MptStore St}.
Implicit Types s : St.

Definition trie_new s : MerklePatriciaTrie St := MkTrie None s.
Definition with_root s (r : Hash32) : MerklePatriciaTrie St := MkTrie (Some r) s.
Definition with_root_opt s (r : option Hash32) : MerklePatriciaTrie St := MkTrie r s.

Definition load_node s (h : Hash32) : mres MptNode :=
  let? o := get_node s h in ok_or o NodeNotFound.

(** *** Lookup *)
Fixpoint get_recursive (fuel : nat) s (r : option Hash32) (nibbles : bytes)
    : mres (option bytes) :=
  match fuel with
  | O => Err OutOfFuel
  | S fuel =>
    match r with
    | None => Ok None
    | Some root_hash =>
      let? node := load_node s root_hash in
      match node with
      | Leaf key_suffix v => Ok (if bool_decide (key_suffix = nibbles) then Some v else None)
      | Extension prefix child =>
          if starts_with nibbles prefix
          then get_recursive fuel s (Some child) (drop (length prefix) nibbles)
          else Ok None
      | Branch children v =>
          match nibbles with
          | [] => Ok v
          | nibble :: rest =>
              let? c := child_at children nibble in
              get_recursive fuel s c rest
          end
      end
    end
  end.

(** *** Insertion *)
(** The value or new leaf that the split branch gets for one of the two keys:
    [sfx] is what follows the common prefix. *)
Definition split_slot s (sfx v : bytes) (children : list (option Hash32)) (bv : option bytes)
    : mres (St * list (option Hash32) * option bytes) :=
  match sfx with
  | [] => Ok (s, children, Some v)
  | nibble :: rest =>
      let? (s, h) := put_node s (Leaf rest v) in
      Ok (s, set_child children nibble (Some h), bv)
  end.

(** The branch of a split, under an extension when a prefix is shared. *)
Definition put_split s (shared : bytes) (children : list (option Hash32)) (bv : option bytes)
    : mres (St * Hash32) :=
  let? (s, branch_hash) := put_node s (Branch children bv) in
  match shared with
  | [] => Ok (s, branch_hash)
  | _ :: _ => put_node s (Extension shared branch_hash)
  end.

Definition insert_at_leaf s (key_suffix old_value nibbles value : bytes) : mres (St * Hash32) :=
  let match_len := common_prefix key_suffix nibbles in
  if (match_len =? length key_suffix)%nat && (match_len =? length nibbles)%nat
  then put_node s (Leaf key_suffix value)
  else
    let? (s, children, bv) :=
      split_slot s (drop match_len key_suffix) old_value no_children None in
    let? (s, children, bv) := split_slot s (drop match_len nibbles) value children bv in
    put_split s (take match_len nibbles) children bv.

Definition insert_at_extension_split s (match_len : nat) (prefix child nibbles value : bytes)
    : mres (St * Hash32) :=
  match drop match_len prefix with
  | [] => Err IndexPanic
  | old_nibble :: rest =>
      let? (s, old_child_hash) :=
        match rest with
        | [] => Ok (s, child)
        | _ :: _ => put_node s (Extension rest child)
        end in
      let children := set_child no_children old_nibble (Some old_child_hash) in
      let? (s, children, bv) := split_slot s (drop match_len nibbles) value children None in
      put_split s (take match_len nibbles) children bv
  end.

Fixpoint insert_recursive (fuel : nat) s (r : option Hash32) (nibbles value : bytes)
    : mres (St * Hash32) :=
  match fuel with
  | O => Err OutOfFuel
  | S fuel =>
    match r with
    | None => put_node s (Leaf nibbles value)
    | Some root_hash =>
      let? node := load_node s root_hash in
      match node with
      | Leaf key_suffix old_value => insert_at_leaf s key_suffix old_value nibbles value
      | Extension prefix child =>
          let match_len := common_prefix prefix nibbles in
          if (match_len =? length prefix)%nat then
            let? (s, new_child_hash) :=
              insert_recursive fuel s (Some child) (drop match_len nibbles) value in
            put_node s (Extension prefix new_child_hash)
          else insert_at_extension_split s match_len prefix child nibbles value
      | Branch children old_value =>
          match nibbles with
          | [] => put_node s (Branch children (Some value))
          | nibble :: rest =>
              let? c := child_at children nibble in
              let? (s, new_child_hash) := insert_recursive fuel s c rest value in
              put_node s (Branch (set_child children nibble (Some new_child_hash)) old_value)
          end
      end
    end
  end.

(** *** Deletion *)
(** Put [prefix] in front of the node stored under [h], merging it into a leaf or an
    extension. *)
Definition put_merged s (prefix : bytes) (h : Hash32) : mres (St * option Hash32) :=
  let? child_node := get_node s h in
  let? (s, h') :=
    match child_node with
    | Some (Leaf key_suffix v) => put_node s (Leaf (prefix ++ key_suffix) v)
    | Some (Extension child_prefix grandchild) =>
        put_node s (Extension (prefix ++ child_prefix) grandchild)
    | _ => put_node s (Extension prefix h)
    end in
  Ok (s, Some h').

(** `children.iter().enumerate().filter_map(..)`: the occupied slots, in order. *)
Definition remaining (children : list (option Hash32)) : list (Z * Hash32) :=
  omap (λ '(i, c), (λ h, (Z.of_nat i, h)) <$> c) (imap pair children).

(** Canonicalisation of a branch after a deletion. *)
Definition put_canonical s (children : list (option Hash32)) (value : option bytes)
    : mres (St * option Hash32) :=
  match remaining children, value with
  | [], None => Ok (s, None)
  | [], Some v => let? (s, h) := put_node s (Leaf [] v) in Ok (s, Some h)
  | [(nibble, child_hash)], None => put_merged s [nibble] child_hash
  | _, _ => let? (s, h) := put_node s (Branch children value) in Ok (s, Some h)
  end.

Fixpoint delete_recursive (fuel : nat) s (r : option Hash32) (nibbles : bytes)
    : mres (St * option Hash32) :=
  match fuel with
  | O => Err OutOfFuel
  | S fuel =>
    match r with
    | None => Ok (s, None)
    | Some root_hash =>
      let? node := load_node s root_hash in
      match node with
      | Leaf key_suffix _ =>
          Ok (s, if bool_decide (key_suffix = nibbles) then None else Some root_hash)
      | Extension prefix child =>
          if starts_with nibbles prefix then
            let? (s, new_child) :=
              delete_recursive fuel s (Some child) (drop (length prefix) nibbles) in
            match new_child with
            | Some h => put_merged s prefix h
            | None => Ok (s, None)
            end
          else Ok (s, Some root_hash)
      | Branch children v =>
          match nibbles with
          | [] => put_canonical s children None
          | nibble :: rest =>
              let? c := child_at children nibble in
              let? (s, c') := delete_recursive fuel s c rest in
              put_canonical s (set_child children nibble c') v
          end
      end
    end
  end.

(** *** Garbage collection *)
Section visit_children.
Context {A : Type} (visit : A → option Hash32 → mres A).

(** `for child in children.iter().flatten() { visit(Some(child))? }` *)
Fixpoint for_children (a : A) (hs : list Hash32) : mres A :=
  match hs with
  | [] => Ok a
  | h :: hs => let? a := visit a (Some h) in for_children a hs
  end.
End visit_children.

(** The same loop where a visit changes the state and may then fail: what was changed stays. *)
Section visit_all.
Context {A : Type} (visit : A → option Hash32 → A * result unit MptError).

Fixpoint visit_all (a : A) (hs : list Hash32) : A * result unit MptError :=
  match hs with
  | [] => (a, Ok tt)
  | h :: hs =>
      match visit a (Some h) with
      | (a, Ok _) => visit_all a hs
      | (a, Err e) => (a, Err e)
      end
  end.
End visit_all.

Definition node_children (n : MptNode) : list Hash32 :=
  match n with
  | Leaf _ _ => []
  | Extension _ child => [child]
  | Branch children _ => some_children children
  end.

Fixpoint collect_reachable (fuel : nat) s (live : gset Hash32) (r : option Hash32)
    : mres (gset Hash32) :=
  match fuel with
  | O => Err OutOfFuel
  | S fuel =>
    match r with
    | None => Ok live
    | Some h =>
      if decide (h ∈ live) then Ok live
      else
        let live := {[h]} ∪ live in
        let? o := get_node s h in
        match o with
        | None => Ok live
        | Some node => for_children (collect_reachable fuel s) live (node_children node)
        end
    end
  end.

(** Nodes deleted before a failure stay deleted. *)
Fixpoint delete_unreachable (fuel : nat) (live : gset Hash32) (st : St * Z) (r : option Hash32)
    : (St * Z) * result unit MptError :=
  match fuel with
  | O => (st, Err OutOfFuel)
  | S fuel =>
    match r with
    | None => (st, Ok tt)
    | Some h =>
      if decide (h ∈ live) then (st, Ok tt)
      else
        match get_node st.1 h with
        | Err e => (st, Err e)
        | Ok None => (st, Ok tt)
        | Ok (Some node) =>
            match visit_all (delete_unreachable fuel live) st (node_children node) with
            | (st, Err e) => (st, Err e)
            | (st, Ok _) =>
                match delete_node st.1 h with
                | Err e => (st, Err e)
                | Ok s => ((s, st.2 + 1), Ok tt)
                end
            end
        end
    end
  end.

(** *** Inclusion and exclusion proofs *)
Definition branch_sibling_hash (node : MptNode) (skip_nibble : Z) : Hash32 :=
  match node with
  | Branch children value =>
      let others := set_child children skip_nibble None in
      xor_value (xor_all zero32 (some_children others)) value
  | _ => zero32
  end.

Fixpoint get_with_proof (fuel : nat) s (r : option Hash32) (nibbles : bytes)
    (sibs : list Hash32) (path : list PathStep)
    : mres (option bytes * list Hash32 * list PathStep) :=
  match fuel with
  | O => Err OutOfFuel
  | S fuel =>
    match r with
    | None => Ok (None, sibs, path)
    | Some h =>
      let? node := load_node s h in
      match node with
      | Leaf key_suffix v =>
          let path := path ++ [PLeaf] in
          if bool_decide (key_suffix = nibbles) then Ok (Some v, sibs, path)
          else Ok (None, sibs ++ [node_hash node], path)
      | Extension prefix child =>
          let path := path ++ [PExtension (len prefix mod 256)] in
          if starts_with nibbles prefix
          then get_with_proof fuel s (Some child) (drop (length prefix) nibbles) sibs path
          else Ok (None, sibs ++ [node_hash node], path)
      | Branch children v =>
          match nibbles with
          | [] =>
              Ok (v, sibs ++ [xor_all zero32 (some_children children)], path ++ [PBranch 16])
          | nibble :: rest =>
              let? c := child_at children nibble in
              get_with_proof fuel s c rest (sibs ++ [branch_sibling_hash node nibble])
                (path ++ [PBranch (nibble mod 256)])
          end
      end
    end
  end.
End trie.

(** *** The public methods.  A key has 64 nibbles, so no path is longer than 65 nodes. *)
Definition key_fuel : nat := 66.

Section methods.
Context {HA : Hashes} {NC : NodeCodec} {St : Type} `{MS : MptStore St}.
Implicit Types t : MerklePatriciaTrie St.

Definition mpt_get t (key : bytes) : mres (option bytes) :=
  get_recursive key_fuel (store t) (mroot t) (key_to_nibbles key).

Definition mpt_insert t (key value : bytes) : mres (MerklePatriciaTrie St * Hash32) :=
  let? (s, new_root) :=
    insert_recursive key_fuel (store t) (mroot t) (key_to_nibbles key) value in
  Ok (MkTrie (Some new_root) s, new_root).

Definition mpt_delete t (key : bytes) : mres (MerklePatriciaTrie St * Hash32) :=
  let? (s, new_root) := delete_recursive key_fuel (store t) (mroot t) (key_to_nibbles key) in
  Ok (MkTrie new_root s, default zero32 new_root).

(** The trie after the collection, and the number of nodes deleted or the failure. *)
Definition gc_since t (old_root : Hash32) : MerklePatriciaTrie St * mres Z :=
  match mroot t with
  | None => (t, Ok 0)
  | Some current_root =>
      match collect_reachable key_fuel (store t) ∅ (Some current_root) with
      | Err e => (t, Err e)
      | Ok live =>
          let '(s, deleted, r) := delete_unreachable key_fuel live (store t, 0) (Some old_root) in
          (MkTrie (mroot t) s, match r with Ok _ => Ok deleted | Err e => Err e end)
      end
  end.

Definition prove t (key : bytes) : mres MerkleProof :=
  let? (value, sibs, path) :=
    get_with_proof key_fuel (store t) (mroot t) (key_to_nibbles key) [] [] in
  Ok (MkProof key value (default zero32 (mroot t)) sibs path).
End methods.

(** ** Proof verification *)
Section verify.
Context {HA : Hashes} {NC : NodeCodec}.

(** Nibbles consumed by the steps of a path. *)
Definition step_len (st : PathStep) : Z :=
  match st with
  | PBranch nibble => if nibble <? 16 then 1 else 0
  | PExtension n => n
  | PLeaf => 0
  end.
Definition steps_len (p : list PathStep) : Z := foldl (λ acc st, acc + step_len st) 0 p.

#[export] Instance PathStep_eq_dec : EqDecision PathStep.
Proof. solve_decision. Defined.

(** The steps in front of the first one equal to [step]. *)
Fixpoint steps_before (step : PathStep) (p : list PathStep) : list PathStep :=
  match p with
  | [] => []
  | s :: p => if decide (s = step) then [] else s :: steps_before step p
  end.

(** The hash of the terminal node, and the siblings left (the last ones go first). *)
Definition terminal_hash (nibbles : bytes) (pr : MerkleProof) (rev_sibs : list Hash32)
    : option (Hash32 * list Hash32) :=
  match last (path pr) with
  | None => None
  | Some PLeaf =>
      match value pr with
      | Some v =>
          let suffix_start := steps_len (path pr) in
          if len nibbles <? suffix_start then None
          else Some (node_hash (Leaf (drop (Z.to_nat suffix_start) nibbles) v), rev_sibs)
      | None =>
          match rev_sibs with
          | [] => None
          | sib :: rest => Some (sib, rest)
          end
      end
  | Some (PExtension _) =>
      match value pr, rev_sibs with
      | None, sib :: rest => Some (sib, rest)
      | _, _ => None
      end
  | Some (PBranch nibble) =>
      match rev_sibs with
      | [] => None
      | sibling_xor :: rest =>
          if nibble =? 16 then Some (branch_digest (xor_value sibling_xor (value pr)), rest)
          else match value pr with
               | Some _ => None
               | None => Some (branch_digest sibling_xor, rest)
               end
      end
  end.

(** One step of the walk from the terminal node up to the root. *)
Definition walk_step (nibbles : bytes) (full : list PathStep)
    (st : option (Hash32 * list Hash32)) (step : PathStep) : option (Hash32 * list Hash32) :=
  match st with
  | None => None
  | Some (current_hash, rev_sibs) =>
      match step with
      | PBranch _ =>
          match rev_sibs with
          | [] => None
          | sibling :: rest => Some (branch_digest (xor_bytes sibling current_hash), rest)
          end
      | PExtension n =>
          let prefix_start := steps_len (steps_before step full) in
          if len nibbles <? prefix_start + n then None
          else
            let prefix := take (Z.to_nat n) (drop (Z.to_nat prefix_start) nibbles) in
            Some (node_hash (Extension prefix current_hash), rev_sibs)
      | PLeaf => None
      end
  end.

Definition verify_proof (pr : MerkleProof) : bool :=
  match path pr with
  | [] => bool_decide (root pr = zero32) && bool_decide (value pr = None)
  | _ :: _ =>
      let nibbles := key_to_nibbles (trie_key pr) in
      let start := terminal_hash nibbles pr (reverse (siblings pr)) in
      match foldl (walk_step nibbles (path pr)) start (drop 1 (reverse (path pr))) with
      | Some (current_hash, _) => bool_decide (current_hash = root pr)
      | None => false
      end
  end.
End verify.

(** ** mpt_store.rs: the store over a sled tree (a map from byte strings to byte
    strings, crate sled) with bincode values. *)
Abbreviation SledTree := (gmap bytes bytes).
Record SledMptStore := MkSledMptStore { sled_tree : SledTree }.

#[export] Instance sled_mpt_store `{Hashes, NodeCodec} : MptStore SledMptStore := {|
  get_node s h :=
    match sled_tree s !! h with
    | Some b => let? n := ok_or (de_node b) StoreError in Ok (Some n)
    | None => Ok None
    end;
  put_node s node :=
    let hash := node_hash node in
    Ok (MkSledMptStore (<[hash := ser_node node]> (sled_tree s)), hash);
  delete_node s h := Ok (MkSledMptStore (delete h (sled_tree s)));
|}.
