(* ===== verification/MptTree.v ===== *)
(** The abstract trie: trees instead of hashes and a store.

    A [tree] is what a root hash denotes; [t_get], [t_insert] and [t_delete] are the
    specifications of the operations of Mpt, [canon] is the shape the program keeps,
    and [canon_unique] shows that the shape, hence the root hash, is a function of the
    contents alone. *)
From S2P Require Import Prelude Floats Types Mpt.
Open Scope Z_scope.

(** Children are given by a function on nibbles; [TEmpty] is an absent child. *)
Inductive tree :=
| TEmpty
| TLeaf (sfx v : bytes)
| TExt (p : bytes) (c : tree)
| TBranch (cs : Z → tree) (v : option bytes).

Definition is_empty (t : tree) : bool := match t with TEmpty => true | _ => false end.
Definition is_branch (t : tree) : bool := match t with TBranch _ _ => true | _ => false end.

Definition nibble_ok (n : Z) : Prop := 0 ≤ n < 16.
Definition nibbles_ok (k : bytes) : Prop := Forall nibble_ok k.
Definition all_nibbles : list Z := [0;1;2;3;4;5;6;7;8;9;10;11;12;13;14;15].

(** The occupied slots of a branch, in order. *)
Definition occupied (cs : Z → tree) : list Z := filter (λ i, is_empty (cs i) = false) all_nibbles.

Definition t_update (cs : Z → tree) (n : Z) (c : tree) : Z → tree :=
  λ i, if decide (i = n) then c else cs i.

Fixpoint t_get (t : tree) (k : bytes) : option bytes :=
  match t with
  | TEmpty => None
  | TLeaf sfx v => if decide (sfx = k) then Some v else None
  | TExt p c => if starts_with k p then t_get c (drop (length p) k) else None
  | TBranch cs v => match k with [] => v | n :: k => t_get (cs n) k end
  end.

Definition t_ext (p : bytes) (c : tree) : tree :=
  match c with
  | TEmpty => TEmpty
  | TLeaf sfx v => TLeaf (p ++ sfx) v
  | TExt q c => TExt (p ++ q) c
  | TBranch _ _ => TExt p c
  end.

Definition t_under (p : bytes) (c : tree) : tree :=
  match p with [] => c | _ :: _ => TExt p c end.

(** The branch of a split: each key contributes its value or a leaf. *)
Definition t_slot (sfx v : bytes) (b : (Z → tree) * option bytes) : (Z → tree) * option bytes :=
  match sfx with
  | [] => (b.1, Some v)
  | n :: rest => (t_update b.1 n (TLeaf rest v), b.2)
  end.
Definition t_branch (b : (Z → tree) * option bytes) : tree := TBranch b.1 b.2.
Definition t_none : (Z → tree) * option bytes := (λ _, TEmpty, None).

Fixpoint t_insert (t : tree) (k v : bytes) : tree :=
  match t with
  | TEmpty => TLeaf k v
  | TLeaf sfx old =>
      let m := common_prefix sfx k in
      if (m =? length sfx)%nat && (m =? length k)%nat then TLeaf sfx v
      else t_under (take m k) (t_branch (t_slot (drop m k) v (t_slot (drop m sfx) old t_none)))
  | TExt p c =>
      let m := common_prefix p k in
      if (m =? length p)%nat then TExt p (t_insert c (drop m k) v)
      else match drop m p with
           | [] => TEmpty
           | n :: rest =>
               t_under (take m k)
                 (t_branch (t_slot (drop m k) v (t_update (λ _, TEmpty) n (t_under rest c), None)))
           end
  | TBranch cs old =>
      match k with
      | [] => TBranch cs (Some v)
      | n :: k => TBranch (t_update cs n (t_insert (cs n) k v)) old
      end
  end.

Definition t_norm (cs : Z → tree) (v : option bytes) : tree :=
  match occupied cs, v with
  | [], None => TEmpty
  | [], Some v => TLeaf [] v
  | [n], None => t_ext [n] (cs n)
  | _, _ => TBranch cs v
  end.

Fixpoint t_delete (t : tree) (k : bytes) : tree :=
  match t with
  | TEmpty => TEmpty
  | TLeaf sfx v => if decide (sfx = k) then TEmpty else TLeaf sfx v
  | TExt p c =>
      if starts_with k p then t_ext p (t_delete c (drop (length p) k)) else TExt p c
  | TBranch cs v =>
      match k with
      | [] => t_norm cs None
      | n :: k => t_norm (t_update cs n (t_delete (cs n) k)) v
      end
  end.

(** At least two of the contents of a branch are there. *)
Definition two_contents (cs : Z → tree) (v : option bytes) : Prop :=
  match occupied cs, v with
  | [], _ | [_], None => False
  | _, _ => True
  end.

Fixpoint canon (t : tree) : Prop :=
  match t with
  | TEmpty => True
  | TLeaf sfx _ => nibbles_ok sfx
  | TExt p c => p ≠ [] ∧ nibbles_ok p ∧ is_branch c = true ∧ canon c
  | TBranch cs v => (∀ n, nibble_ok n → canon (cs n)) ∧ two_contents cs v
  end.

(** ** Lists of nibbles *)
Lemma starts_with_iff k p : starts_with k p = true ↔ ∃ r, k = p ++ r.
Proof.
  revert k; induction p as [|x p IH]; intros [|y k]; simpl; [naive_solver..|].
  rewrite andb_true_iff, Z.eqb_eq, IH; naive_solver.
Qed.
Lemma starts_with_app p r : starts_with (p ++ r) p = true.
Proof. apply starts_with_iff. eauto. Qed.

Lemma common_prefix_spec a b :
  ∃ p ra rb, a = p ++ ra ∧ b = p ++ rb ∧ common_prefix a b = length p ∧
    match ra, rb with x :: _, y :: _ => x ≠ y | _, _ => True end.
Proof.
  revert b; induction a as [|x a IH]; intros [|y b]; simpl.
  1: by exists [], [], []. 1: by exists [], [], (y :: b). 1: by exists [], (x :: a), [].
  destruct (Z.eqb_spec x y) as [->|Hne].
  - destruct (IH b) as (p & ra & rb & -> & -> & Hl & Hm). exists (y :: p), ra, rb.
    simpl. by rewrite Hl.
  - by exists [], (x :: a), (y :: b).
Qed.

Lemma all_nibbles_iff n : n ∈ all_nibbles ↔ nibble_ok n.
Proof.
  unfold all_nibbles, nibble_ok. rewrite !elem_of_cons, elem_of_nil. lia.
Qed.
Lemma elem_of_occupied cs n : n ∈ occupied cs ↔ nibble_ok n ∧ cs n ≠ TEmpty.
Proof.
  unfold occupied. rewrite list_elem_of_filter, all_nibbles_iff.
  destruct (cs n); simpl; naive_solver.
Qed.
Lemma NoDup_occupied cs : NoDup (occupied cs).
Proof. apply NoDup_filter. by apply (bool_decide_unpack _). Qed.

(** ** Two contents *)
Lemma two_contents_children cs v i j :
  nibble_ok i → nibble_ok j → i ≠ j → cs i ≠ TEmpty → cs j ≠ TEmpty → two_contents cs v.
Proof.
  intros Hi Hj Hij Hci Hcj. unfold two_contents.
  pose proof (proj2 (elem_of_occupied cs i) (conj Hi Hci)) as Hoi.
  pose proof (proj2 (elem_of_occupied cs j) (conj Hj Hcj)) as Hoj.
  destruct (occupied cs) as [|a [|b l]].
  - by apply not_elem_of_nil in Hoi.
  - apply list_elem_of_singleton in Hoi, Hoj. congruence.
  - done.
Qed.

Lemma two_contents_value cs v i :
  nibble_ok i → cs i ≠ TEmpty → two_contents cs (Some v).
Proof.
  intros Hi Hci. unfold two_contents.
  pose proof (proj2 (elem_of_occupied cs i) (conj Hi Hci)) as Hoi.
  destruct (occupied cs) as [|a [|b l]]; [by apply not_elem_of_nil in Hoi|done|done].
Qed.

Lemma two_contents_inv cs v :
  two_contents cs v →
  (∃ i j, nibble_ok i ∧ nibble_ok j ∧ i ≠ j ∧ cs i ≠ TEmpty ∧ cs j ≠ TEmpty) ∨
  (∃ i x, nibble_ok i ∧ cs i ≠ TEmpty ∧ v = Some x).
Proof.
  unfold two_contents. intros H. pose proof (NoDup_occupied cs) as Hnd.
  pose proof (λ n, proj1 (elem_of_occupied cs n)) as Hocc.
  destruct (occupied cs) as [|a [|b l]]; [done| |].
  - destruct v as [x|]; [|done]. right. exists a, x.
    destruct (Hocc a); [left|]. naive_solver.
  - left. exists a, b. apply NoDup_cons in Hnd as [Hab _].
    destruct (Hocc a); [left|]. destruct (Hocc b); [right; left|].
    repeat split; try done; try (destruct H0, H2; lia). intros ->. apply Hab. left.
Qed.

(** ** Lookup in constructed trees *)
Lemma t_get_ext p c k :
  t_get (t_ext p c) k = if starts_with k p then t_get c (drop (length p) k) else None.
Proof.
  destruct c as [|sfx v|q c|cs v]; simpl; [by destruct (starts_with k p)| | |done].
  - destruct (starts_with k p) eqn:Hs.
    + apply starts_with_iff in Hs as [r ->]. rewrite drop_app_length.
      destruct (decide (sfx = r)) as [->|Hn]; [by rewrite decide_True|].
      rewrite decide_False; [done|]. intros ?%(inj (app p)). done.
    + rewrite decide_False; [done|]. intros <-. by rewrite starts_with_app in Hs.
  - destruct (starts_with k p) eqn:Hs.
    + apply starts_with_iff in Hs as [r ->]. rewrite drop_app_length.
      replace (starts_with (p ++ r) (p ++ q)) with (starts_with r q).
      { by rewrite length_app, <-drop_drop, drop_app_length. }
      clear. induction p as [|x p IH]; simpl; [done|]. by rewrite Z.eqb_refl.
    + destruct (starts_with k (p ++ q)) eqn:Hs'; [|done].
      apply starts_with_iff in Hs' as [r ->]. rewrite <-app_assoc, starts_with_app in Hs. done.
Qed.

Lemma t_get_under p c k :
  t_get (t_under p c) k = if starts_with k p then t_get c (drop (length p) k) else None.
Proof. by destruct p. Qed.

Lemma t_get_branch_update cs n c v k :
  t_get (TBranch (t_update cs n c) v) k =
  match k with [] => v | i :: k => if decide (i = n) then t_get c k else t_get (cs i) k end.
Proof. destruct k as [|i k]; simpl; [done|]. unfold t_update. by destruct (decide (i = n)). Qed.

(** Two distinct continuations of a shared prefix. *)
Definition diverge (ra rb : bytes) : Prop :=
  match ra, rb with x :: _, y :: _ => x ≠ y | [], [] => False | _, _ => True end.

Lemma t_get_slot sfx v b k :
  (sfx = [] ∨ match sfx with n :: _ => b.1 n = TEmpty | [] => True end) →
  t_get (t_branch (t_slot sfx v b)) k
  = if decide (k = sfx) then Some v else t_get (t_branch b) k.
Proof.
  intros Hb. destruct sfx as [|n rest].
  - destruct k; [by rewrite decide_True|by rewrite decide_False].
  - destruct Hb as [|Hb]; [done|]. unfold t_slot, t_branch; cbn [fst snd].
    rewrite t_get_branch_update. destruct k as [|i k]; [by rewrite decide_False|].
    destruct (decide (i = n)) as [->|Hn].
    + simpl. rewrite Hb. destruct (decide (rest = k)) as [->|Hk]; [by rewrite decide_True|].
      rewrite decide_False; [done|congruence].
    + rewrite decide_False by congruence. done.
Qed.

Lemma split_keys p ra rb k {A} (x y z : A) :
  (if starts_with k p then if decide (drop (length p) k = ra) then x
                           else if decide (drop (length p) k = rb) then y else z else z)
  = if decide (k = p ++ ra) then x else if decide (k = p ++ rb) then y else z.
Proof.
  destruct (starts_with k p) eqn:Hs.
  - apply starts_with_iff in Hs as [r ->]. rewrite drop_app_length.
    destruct (decide (r = ra)) as [->|H1]; [by rewrite decide_True|].
    rewrite (decide_False (P := p ++ r = p ++ ra)) by (by intros ?%(inj (app p))).
    destruct (decide (r = rb)) as [->|H2]; [by rewrite decide_True|].
    by rewrite decide_False by (by intros ?%(inj (app p))).
  - rewrite !decide_False; [done| |]; intros ->; by rewrite starts_with_app in Hs.
Qed.

Lemma t_get_split p ra va rb vb k :
  diverge ra rb →
  t_get (t_under p (t_branch (t_slot rb vb (t_slot ra va t_none)))) k
  = if decide (k = p ++ rb) then Some vb else if decide (k = p ++ ra) then Some va else None.
Proof.
  intros Hd. rewrite t_get_under, !t_get_slot; [|right; by destruct ra|].
  - rewrite <-split_keys. case_match; [|done]. do 2 (case_match; [done|]). by destruct (drop _ k).
  - destruct rb as [|y rb]; [by left|right].
    destruct ra as [|x ra]; [done|]. simpl in *. unfold t_update. by rewrite decide_False by congruence.
Qed.

Lemma starts_with_prepend p r q : starts_with (p ++ r) (p ++ q) = starts_with r q.
Proof. induction p as [|x p IH]; simpl; [done|]. by rewrite Z.eqb_refl. Qed.

Lemma t_get_ext_split p x ra c rb vb k :
  match rb with y :: _ => x ≠ y | [] => True end →
  t_get (t_under p (t_branch (t_slot rb vb (t_update (λ _, TEmpty) x (t_under ra c), None)))) k
  = if decide (k = p ++ rb) then Some vb else t_get (TExt (p ++ x :: ra) c) k.
Proof.
  intros Hd. rewrite t_get_under, t_get_slot.
  2:{ right. destruct rb as [|y rb]; [done|]. simpl. unfold t_update. by rewrite decide_False. }
  unfold t_branch; cbn [fst snd t_get]. destruct (starts_with k p) eqn:Hs.
  - apply starts_with_iff in Hs as [r ->].
    rewrite starts_with_prepend, drop_app_length, length_app, <-drop_drop, drop_app_length.
    destruct (decide (r = rb)) as [->|Hr]; [by rewrite decide_True|].
    rewrite (decide_False (P := p ++ r = p ++ rb)) by (by intros ?%(inj (app p))).
    destruct r as [|i r]; [done|]. cbn [starts_with length drop]. unfold t_update.
    destruct (decide (i = x)) as [->|Hi]; [by rewrite Z.eqb_refl, t_get_under|].
    by rewrite (proj2 (Z.eqb_neq _ _)) by congruence.
  - rewrite decide_False by (intros ->; by rewrite starts_with_app in Hs).
    destruct (starts_with k (p ++ x :: ra)) eqn:Hs'; [|done].
    apply starts_with_iff in Hs' as [r ->]. by rewrite <-app_assoc, starts_with_app in Hs.
Qed.

(** What an insertion at a leaf and at an extension build, by how the keys split. *)
Lemma t_insert_leaf p ra rb old v :
  diverge ra rb →
  common_prefix (p ++ ra) (p ++ rb) = length p →
  t_insert (TLeaf (p ++ ra) old) (p ++ rb) v
  = t_under p (t_branch (t_slot rb v (t_slot ra old t_none))).
Proof.
  intros Hd Hc. simpl. rewrite Hc, !length_app, take_app_length, !drop_app_length.
  destruct ra, rb; try done; simpl;
    by rewrite ?(proj2 (Nat.eqb_neq (length p) (length p + S _)%nat)), ?andb_false_r by lia.
Qed.

Lemma t_insert_ext_split p x ra c rb v :
  common_prefix (p ++ x :: ra) (p ++ rb) = length p →
  t_insert (TExt (p ++ x :: ra) c) (p ++ rb) v
  = t_under p (t_branch (t_slot rb v (t_update (λ _, TEmpty) x (t_under ra c), None))).
Proof.
  intros Hc. simpl. rewrite Hc, length_app, take_app_length, !drop_app_length. simpl.
  by rewrite (proj2 (Nat.eqb_neq _ _)) by lia.
Qed.

Lemma t_insert_ext_down p c r v : t_insert (TExt p c) (p ++ r) v = TExt p (t_insert c r v).
Proof.
  simpl. assert (common_prefix p (p ++ r) = length p) as ->.
  { induction p as [|x p IH]; simpl; [done|]. by rewrite Z.eqb_refl, IH. }
  by rewrite Nat.eqb_refl, drop_app_length.
Qed.

(** Looking up after an insertion: the key has the new value, the others are kept. *)
Lemma t_get_insert t k v k' :
  t_get (t_insert t k v) k' = if decide (k' = k) then Some v else t_get t k'.
Proof.
  revert k k'; induction t as [|sfx old|p c IH|cs IH old]; intros k k'.
  - simpl. destruct (decide (k = k')), (decide (k' = k)); congruence.
  - destruct (common_prefix_spec sfx k) as (p & ra & rb & -> & -> & Hc & Hd).
    destruct (decide (ra = [] ∧ rb = [])) as [[-> ->]|Hne].
    + simpl in *. rewrite Hc, app_nil_r, Nat.eqb_refl. simpl.
      destruct (decide (p = k')), (decide (k' = p)); congruence.
    + rewrite t_insert_leaf, t_get_split; [|destruct ra, rb; naive_solver..].
      destruct (decide (k' = p ++ rb)); [done|]. simpl. destruct (decide (k' = p ++ ra)), (decide (p ++ ra = k')); congruence.
  - destruct (common_prefix_spec p k) as (q & ra & rb & -> & -> & Hc & Hd).
    destruct ra as [|x ra].
    + rewrite app_nil_r, t_insert_ext_down. simpl. destruct (starts_with k' q) eqn:Hs.
      * apply starts_with_iff in Hs as [r ->]. rewrite drop_app_length, IH.
        destruct (decide (r = rb)) as [->|]; [by rewrite decide_True|].
        by rewrite decide_False by (by intros ?%(inj (app q))).
      * rewrite decide_False; [done|]. intros ->. by rewrite starts_with_app in Hs.
    + rewrite t_insert_ext_split by done. by apply t_get_ext_split.
  - destruct k as [|n k]; simpl.
    + destruct k'; [by rewrite decide_True|by rewrite decide_False].
    + destruct k' as [|i k']; [by rewrite decide_False|]. unfold t_update.
      destruct (decide (i = n)) as [->|]; [rewrite IH|by rewrite decide_False by congruence].
      destruct (decide (k' = k)) as [->|]; [by rewrite decide_True|].
      by rewrite decide_False by congruence.
Qed.

(** ** Insertion keeps the shape *)
Lemma canon_update cs n c :
  (∀ i, nibble_ok i → canon (cs i)) → canon c →
  ∀ i, nibble_ok i → canon (t_update cs n c i).
Proof. intros Hcs Hc i Hi. unfold t_update. destruct (decide (i = n)); auto. Qed.

Lemma canon_slot sfx v b :
  (∀ i, nibble_ok i → canon (b.1 i)) → nibbles_ok sfx →
  ∀ i, nibble_ok i → canon ((t_slot sfx v b).1 i).
Proof.
  intros Hb Hs. destruct sfx as [|n rest]; [done|]. apply canon_update; [done|].
  by apply Forall_cons in Hs as [_ ?].
Qed.

Lemma two_contents_slot sfx v b :
  nibbles_ok sfx →
  (sfx ≠ [] ∧ is_Some b.2) ∨
  (∃ x, nibble_ok x ∧ b.1 x ≠ TEmpty ∧ match sfx with y :: _ => x ≠ y | [] => True end) →
  two_contents (t_slot sfx v b).1 (t_slot sfx v b).2.
Proof.
  intros Hs Hb. destruct sfx as [|y rest]; simpl.
  - destruct Hb as [[? _]|(x & Hx & Hne & _)]; [done|]. by apply (two_contents_value _ _ x).
  - apply Forall_cons in Hs as [Hy _].
    assert (t_update b.1 y (TLeaf rest v) y ≠ TEmpty) by (unfold t_update; by rewrite decide_True).
    destruct Hb as [[_ [u ->]]|(x & Hx & Hne & Hxy)]; [by apply (two_contents_value _ _ y)|].
    apply (two_contents_children _ _ x y); try done.
    unfold t_update. by rewrite decide_False.
Qed.

Lemma canon_under p b :
  nibbles_ok p → (∀ i, nibble_ok i → canon (b.1 i)) → two_contents b.1 b.2 →
  canon (t_under p (t_branch b)).
Proof. intros Hp Hb H2. destruct p; simpl; naive_solver. Qed.

Lemma canon_under_ext p c : nibbles_ok p → is_branch c = true → canon c → canon (t_under p c).
Proof. destruct p; simpl; naive_solver. Qed.

Lemma under_not_empty p c : c ≠ TEmpty → t_under p c ≠ TEmpty.
Proof. by destruct p. Qed.

Lemma nibbles_ok_app a b : nibbles_ok (a ++ b) ↔ nibbles_ok a ∧ nibbles_ok b.
Proof. apply Forall_app. Qed.

Lemma canon_split_leaf p ra va rb vb :
  nibbles_ok (p ++ ra) → nibbles_ok (p ++ rb) → diverge ra rb →
  canon (t_under p (t_branch (t_slot rb vb (t_slot ra va t_none)))).
Proof.
  rewrite !nibbles_ok_app. intros [Hp Ha] [_ Hb] Hd. apply canon_under; [done| |].
  - apply canon_slot; [|done]. by apply canon_slot.
  - apply two_contents_slot; [done|]. destruct ra as [|x ra]; simpl.
    + left. by destruct rb.
    + right. exists x. apply Forall_cons in Ha as [Hx _]. unfold t_update.
      rewrite decide_True by done. by destruct rb.
Qed.

Lemma canon_split_ext p x ra c rb vb :
  nibbles_ok (p ++ x :: ra) → nibbles_ok (p ++ rb) → is_branch c = true → canon c →
  match rb with y :: _ => x ≠ y | [] => True end →
  canon (t_under p (t_branch (t_slot rb vb (t_update (λ _, TEmpty) x (t_under ra c), None)))).
Proof.
  rewrite !nibbles_ok_app. intros [Hp [Hx Ha]%Forall_cons] [_ Hb] Hbr Hc Hd.
  apply canon_under; [done| |].
  - apply canon_slot; [|done]. apply canon_update; [done|]. by apply canon_under_ext.
  - apply two_contents_slot; [done|]. right. exists x. simpl. unfold t_update.
    rewrite decide_True by done. repeat split; [apply Hx..| |done].
    apply under_not_empty. by destruct c.
Qed.

Lemma t_insert_not_empty t k v : canon t → t_insert t k v ≠ TEmpty.
Proof.
  destruct t as [|sfx old|p c|cs old]; simpl; [done| | |by destruct k].
  - intros _. case_match; [done|]. by apply under_not_empty.
  - intros _. destruct (common_prefix_spec p k) as (q & ra & rb & -> & -> & -> & _).
    case_match; [done|]. rewrite !drop_app_length. destruct ra as [|x ra].
    + rewrite app_nil_r, Nat.eqb_refl in H. done.
    + by apply under_not_empty.
Qed.

Lemma two_contents_update_some cs v n c :
  nibble_ok n → c ≠ TEmpty → two_contents cs v → two_contents (t_update cs n c) v.
Proof.
  intros Hn Hc H2. assert (Hu : t_update cs n c n ≠ TEmpty) by (unfold t_update; by rewrite decide_True).
  assert (Ho : ∀ i, cs i ≠ TEmpty → t_update cs n c i ≠ TEmpty).
  { intros i Hi. unfold t_update. by destruct (decide (i = n)). }
  apply two_contents_inv in H2 as [(i & j & ? & ? & ? & ? & ?)|(i & x & ? & ? & ->)].
  - apply (two_contents_children _ _ i j); auto.
  - apply (two_contents_value _ _ i); auto.
Qed.

Lemma two_contents_some cs v x : two_contents cs v → two_contents cs (Some x).
Proof. unfold two_contents. by destruct (occupied cs) as [|? [|]]. Qed.

Lemma canon_insert t k v :
  canon t → nibbles_ok k →
  canon (t_insert t k v) ∧ (is_branch t = true → is_branch (t_insert t k v) = true).
Proof.
  revert k; induction t as [|sfx old|p c IH|cs IH old]; intros k Hc Hk.
  - done.
  - split; [|done]. destruct (common_prefix_spec sfx k) as (p & ra & rb & -> & -> & Hcp & Hd).
    destruct (decide (ra = [] ∧ rb = [])) as [[-> ->]|Hne].
    + simpl. rewrite app_nil_r in *. rewrite Hcp, Nat.eqb_refl. done.
    + assert (diverge ra rb) by (destruct ra, rb; naive_solver).
      rewrite t_insert_leaf by done. by apply canon_split_leaf.
  - destruct Hc as (Hp0 & Hp & Hbr & Hc). split; [|done].
    destruct (common_prefix_spec p k) as (q & ra & rb & -> & -> & Hcp & Hd).
    destruct ra as [|x ra].
    + rewrite app_nil_r, t_insert_ext_down in *. apply nibbles_ok_app in Hk as [_ Hrb].
      destruct (IH rb Hc Hrb) as [? Hb']. simpl. auto.
    + rewrite t_insert_ext_split by done. by apply canon_split_ext.
  - destruct Hc as [Hcs H2]. split; [|by destruct k]. destruct k as [|n k]; simpl.
    + split; [done|]. by eapply two_contents_some.
    + apply Forall_cons in Hk as [Hn Hk]. split.
      * apply canon_update; [done|]. by apply IH; auto.
      * apply two_contents_update_some; [done| |done]. apply t_insert_not_empty; auto.
Qed.

(** ** Deletion *)
Lemma occupied_nil cs n : occupied cs = [] → nibble_ok n → cs n = TEmpty.
Proof.
  intros H Hn. destruct (cs n) eqn:E; [done|..]; exfalso;
    (assert (n ∈ occupied cs) as Hin by (apply elem_of_occupied; by rewrite E));
    rewrite H in Hin; by apply not_elem_of_nil in Hin.
Qed.

Lemma occupied_single cs n i : occupied cs = [n] → nibble_ok i → i ≠ n → cs i = TEmpty.
Proof.
  intros H Hn Hi. destruct (cs i) eqn:E; [done|..]; exfalso;
    (assert (i ∈ occupied cs) as Hin by (apply elem_of_occupied; by rewrite E));
    rewrite H in Hin; by apply list_elem_of_singleton in Hin.
Qed.

Lemma occupied_single_ok cs n : occupied cs = [n] → nibble_ok n ∧ cs n ≠ TEmpty.
Proof. intros H. apply elem_of_occupied. rewrite H. left. Qed.

Lemma t_get_norm cs v k :
  nibbles_ok k → t_get (t_norm cs v) k = match k with [] => v | n :: k => t_get (cs n) k end.
Proof.
  intros Hk. unfold t_norm. destruct (occupied cs) as [|n [|]] eqn:Ho.
  - destruct k as [|i k]; [by destruct v|]. apply Forall_cons in Hk as [Hi _].
    rewrite (occupied_nil cs i Ho Hi). by destruct v.
  - destruct v; [done|]. rewrite t_get_ext. destruct k as [|i k]; [done|]. cbn [starts_with length].
    apply Forall_cons in Hk as [Hi _]. destruct (Z.eqb_spec n i) as [->|Hne]; [done|].
    cbn [andb]. by rewrite (occupied_single cs n i Ho Hi) by congruence.
  - done.
Qed.

(** Looking up after a deletion: the key is gone, the others are kept. *)
Lemma t_get_delete t k k' :
  nibbles_ok k' → t_get (t_delete t k) k' = if decide (k' = k) then None else t_get t k'.
Proof.
  revert k k'; induction t as [|sfx old|p c IH|cs IH old]; intros k k' Hk'; simpl.
  - by destruct (decide (k' = k)).
  - destruct (decide (sfx = k)) as [->|]; simpl;
      destruct (decide (k' = k)) as [->|]; rewrite ?decide_False by congruence; done.
  - destruct (starts_with k p) eqn:Hs.
    + apply starts_with_iff in Hs as [r ->]. rewrite drop_app_length, t_get_ext.
      destruct (starts_with k' p) eqn:Hs'.
      * apply starts_with_iff in Hs' as [r' ->]. apply nibbles_ok_app in Hk' as [_ Hr'].
        rewrite drop_app_length, IH by done.
        destruct (decide (r' = r)) as [->|]; [by rewrite decide_True|].
        by rewrite decide_False by (by intros ?%(inj (app p))).
      * rewrite decide_False; [done|]. intros ->. by rewrite starts_with_app in Hs'.
    + simpl. destruct (decide (k' = k)) as [->|]; [by rewrite Hs|done].
  - destruct k as [|n k].
    + rewrite t_get_norm by done. destruct k'; [by rewrite decide_True|by rewrite decide_False].
    + rewrite t_get_norm by done. destruct k' as [|i k']; [by rewrite decide_False|].
      apply Forall_cons in Hk' as [Hi Hk']. unfold t_update.
      destruct (decide (i = n)) as [->|]; [rewrite IH by done|by rewrite decide_False by congruence].
      destruct (decide (k' = k)) as [->|]; [by rewrite decide_True|].
      by rewrite decide_False by congruence.
Qed.

Lemma canon_t_ext p c : p ≠ [] → nibbles_ok p → canon c → canon (t_ext p c).
Proof.
  intros Hp0 Hp Hc. destruct c as [|sfx v|q c|cs v]; simpl in *; [done| | |done].
  - by apply nibbles_ok_app.
  - destruct Hc as (Hq0 & Hq & Hbr & Hc). rewrite nibbles_ok_app. repeat split; try done.
    by destruct p.
Qed.

Lemma canon_norm cs v : (∀ i, nibble_ok i → canon (cs i)) → canon (t_norm cs v).
Proof.
  intros Hcs. unfold t_norm. destruct (occupied cs) as [|n [|m l]] eqn:Ho.
  - destruct v; [|done]. by constructor.
  - destruct v; simpl; [split; [done|]; unfold two_contents; by rewrite Ho|].
    destruct (occupied_single_ok cs n Ho) as [Hn _].
    apply canon_t_ext; [done| |by apply Hcs]. by constructor.
  - simpl. split; [done|]. unfold two_contents. by rewrite Ho.
Qed.

Lemma canon_delete t k : canon t → canon (t_delete t k).
Proof.
  revert k; induction t as [|sfx old|p c IH|cs IH old]; intros k Hc; simpl.
  - done.
  - by case_match.
  - case_match; [|done]. destruct Hc as (Hp0 & Hp & Hbr & Hc). apply canon_t_ext; auto.
  - destruct Hc as [Hcs _]. destruct k as [|n k]; apply canon_norm; [done|].
    intros i Hi. unfold t_update. destruct (decide (i = n)) as [->|]; auto.
Qed.

(** ** A canonical tree is determined by its contents *)
Definition has_key (t : tree) (k : bytes) : Prop := nibbles_ok k ∧ is_Some (t_get t k).

Lemma has_key_ext p c k : nibbles_ok p → has_key c k → has_key (TExt p c) (p ++ k).
Proof.
  intros Hp [Hk Hg]. split; [by apply nibbles_ok_app|].
  simpl. by rewrite starts_with_app, drop_app_length.
Qed.

Lemma has_key_ext_inv p c k : has_key (TExt p c) k → ∃ r, k = p ++ r ∧ has_key c r.
Proof.
  intros [Hk [v Hg]]. simpl in Hg. destruct (starts_with k p) eqn:Hs; [|done].
  apply starts_with_iff in Hs as [r ->]. rewrite drop_app_length in Hg.
  apply nibbles_ok_app in Hk as [_ ?]. exists r. split; [done|]. split; [done|]. by exists v.
Qed.

Lemma has_key_branch cs v n k : nibble_ok n → has_key (cs n) k → has_key (TBranch cs v) (n :: k).
Proof. intros Hn [Hk Hg]. split; [by constructor|done]. Qed.

(** A non-empty canonical tree has a key, and a branch has one not starting with [n]. *)
Lemma canon_has_key t :
  canon t → t ≠ TEmpty →
  (∃ k, has_key t k) ∧
  (is_branch t = true → ∀ n, ∃ k, has_key t k ∧ head k ≠ Some n).
Proof.
  induction t as [|sfx v|p c IH|cs IH v]; intros Hc Hne; [done| | |].
  - split; [|done]. exists sfx. split; [done|]. simpl. by rewrite decide_True.
  - split; [|done]. destruct Hc as (? & Hp & Hbr & Hc).
    destruct (IH Hc) as [[k Hk] _]; [by destruct c|]. exists (p ++ k). by apply has_key_ext.
  - destruct Hc as [Hcs H2].
    assert (Hchild : ∀ i, nibble_ok i → cs i ≠ TEmpty → ∃ k, has_key (TBranch cs v) (i :: k)).
    { intros i Hi Hci. destruct (IH i (Hcs i Hi) Hci) as [[k Hk] _].
      exists k. by apply has_key_branch. }
    assert (Hall : ∀ n, ∃ k, has_key (TBranch cs v) k ∧ head k ≠ Some n).
    { intros n. apply two_contents_inv in H2 as
        [(i & j & Hi & Hj & Hij & Hci & Hcj)|(i & x & Hi & Hci & ->)].
      - destruct (Hchild i Hi Hci) as [ki ?], (Hchild j Hj Hcj) as [kj ?].
        destruct (decide (i = n)) as [->|].
        + exists (j :: kj). split; [done|]. simpl. congruence.
        + exists (i :: ki). split; [done|]. simpl. congruence.
      - exists []. split; [|done]. split; [constructor|]. by exists x. }
    split; [|done]. destruct (Hall 0) as (k & Hk & _). by exists k.
Qed.

Definition same_contents (t1 t2 : tree) : Prop :=
  ∀ k, nibbles_ok k → t_get t1 k = t_get t2 k.

Lemma same_contents_has_key t1 t2 k : same_contents t1 t2 → has_key t1 k → has_key t2 k.
Proof. intros H [Hk Hg]. split; [done|]. by rewrite <-H. Qed.
Lemma same_contents_sym t1 t2 : same_contents t1 t2 → same_contents t2 t1.
Proof. intros H k Hk. by rewrite H. Qed.

(** Equality of trees up to the values of the child functions outside the nibbles. *)
Fixpoint t_eq (t1 t2 : tree) : Prop :=
  match t1, t2 with
  | TEmpty, TEmpty => True
  | TLeaf s1 v1, TLeaf s2 v2 => s1 = s2 ∧ v1 = v2
  | TExt p1 c1, TExt p2 c2 => p1 = p2 ∧ t_eq c1 c2
  | TBranch cs1 v1, TBranch cs2 v2 => v1 = v2 ∧ ∀ n, nibble_ok n → t_eq (cs1 n) (cs2 n)
  | _, _ => False
  end.

Lemma same_contents_empty t : canon t → same_contents TEmpty t → t = TEmpty.
Proof.
  intros Hc Hs. destruct t; [done|..]; exfalso;
    (edestruct (canon_has_key _ Hc) as [(k & Hk & [x Hx]) _]; [done|]);
    rewrite <-Hs in Hx by done; done.
Qed.

Lemma branch_two_keys cs v :
  canon (TBranch cs v) →
  ∃ k1 k2, k1 ≠ k2 ∧ has_key (TBranch cs v) k1 ∧ has_key (TBranch cs v) k2.
Proof.
  intros Hc. destruct (canon_has_key _ Hc) as [(k & Hk) Hb]; [done|].
  destruct k as [|n k].
  - assert (∃ i, nibble_ok i ∧ cs i ≠ TEmpty) as (i & Hi & Hci).
    { destruct (two_contents_inv _ _ (proj2 Hc)) as [(i & _ & ? & _ & _ & ? & _)|(i & _ & ? & ? & _)]; eauto. }
    destruct (canon_has_key (cs i)) as [(k & Hki) _]; [by apply Hc|done|].
    exists [], (i :: k). split; [done|]. split; [done|]. by apply has_key_branch.
  - destruct (Hb eq_refl n) as (k' & Hk' & Hh). exists (n :: k), k'. split; [|done].
    intros <-. done.
Qed.

(** A leaf has one key. *)
Lemma leaf_one_key sfx v t k1 k2 :
  same_contents (TLeaf sfx v) t → has_key t k1 → has_key t k2 → k1 = k2.
Proof.
  intros Hs%same_contents_sym H1 H2.
  apply (same_contents_has_key _ _ _ Hs) in H1 as [_ [x Hx]], H2 as [_ [y Hy]].
  simpl in Hx, Hy. repeat case_decide; congruence.
Qed.

Lemma leaf_not_branch sfx v cs w :
  canon (TBranch cs w) → same_contents (TLeaf sfx v) (TBranch cs w) → False.
Proof.
  intros Hc Hs. destruct (branch_two_keys _ _ Hc) as (k1 & k2 & Hne & H1 & H2).
  by eapply Hne, leaf_one_key.
Qed.

Lemma leaf_not_ext sfx v p c :
  canon (TExt p c) → same_contents (TLeaf sfx v) (TExt p c) → False.
Proof.
  intros (Hp0 & Hp & Hbr & Hc) Hs. destruct c as [| | |cs w]; try done.
  destruct (branch_two_keys _ _ Hc) as (k1 & k2 & Hne & H1 & H2).
  apply Hne, (inj (app p)). eapply leaf_one_key; [done|by apply has_key_ext..].
Qed.

(** All keys of an extension start with its first nibble. *)
Lemma ext_not_branch p c cs w :
  canon (TExt p c) → canon (TBranch cs w) → same_contents (TExt p c) (TBranch cs w) → False.
Proof.
  intros (Hp0 & _) Hb Hs. destruct p as [|n p]; [done|].
  destruct (canon_has_key _ Hb) as [_ Hk]; [done|]. destruct (Hk eq_refl n) as (k & Hkk & Hh).
  apply (same_contents_has_key _ _ _ (same_contents_sym _ _ Hs)) in Hkk.
  apply has_key_ext_inv in Hkk as (r & -> & _). done.
Qed.

(** Extensions with the same contents have the same prefix. *)
Lemma ext_prefix_of p c q d :
  canon (TExt p c) → canon (TExt q d) → same_contents (TExt p c) (TExt q d) →
  ∃ r, p = q ++ r.
Proof.
  intros (Hp0 & Hp & Hbc & Hc) (Hq0 & Hq & Hbd & Hd) Hs.
  destruct (canon_has_key c Hc) as [[k Hk] _]; [by destruct c|].
  pose proof (same_contents_has_key _ _ _ Hs (has_key_ext p c k Hp Hk)) as Hk2.
  apply has_key_ext_inv in Hk2 as (r & Heq & _).
  destruct (prefix_weak_total p q (p ++ k)) as [[x ->]|[x ->]]; [by exists k|by exists r| |eauto].
  destruct x as [|n x]; [exists []; by rewrite !app_nil_r|]. exfalso.
  (* all keys of [TExt q d] start with [p ++ [n]], but [c] has one not starting with [n] *)
  destruct (canon_has_key c Hc) as [_ Hb]; [by destruct c|].
  destruct (Hb Hbc n) as (k' & Hk' & Hh).
  pose proof (same_contents_has_key _ _ _ Hs (has_key_ext p c k' Hp Hk')) as Hk3.
  apply has_key_ext_inv in Hk3 as (r' & Heq' & _). rewrite <-app_assoc in Heq'.
  apply (inj (app p)) in Heq' as ->. done.
Qed.

Lemma ext_same_prefix p c q d :
  canon (TExt p c) → canon (TExt q d) → same_contents (TExt p c) (TExt q d) →
  p = q ∧ same_contents c d.
Proof.
  intros Hc Hd Hs.
  destruct (ext_prefix_of _ _ _ _ Hc Hd Hs) as [r ->].
  destruct (ext_prefix_of _ _ _ _ Hd Hc (same_contents_sym _ _ Hs)) as [r' Hr].
  assert (r = []) as ->.
  { apply (f_equal length) in Hr. rewrite !length_app in Hr. destruct r; [done|simpl in Hr; lia]. }
  rewrite app_nil_r in *. split; [done|]. intros k Hk.
  specialize (Hs (q ++ k)). simpl in Hs. rewrite starts_with_app, drop_app_length in Hs.
  apply Hs. apply nibbles_ok_app. split; [|done]. apply Hd.
Qed.

(** Two canonical trees with the same contents are the same tree. *)
Lemma canon_unique t1 t2 : canon t1 → canon t2 → same_contents t1 t2 → t_eq t1 t2.
Proof.
  revert t2; induction t1 as [|s1 v1|p1 c1 IH|cs1 IH v1]; intros t2 H1 H2 Hs.
  - by rewrite (same_contents_empty t2).
  - destruct t2 as [|s2 v2|p2 c2|cs2 v2].
    + by apply same_contents_sym, same_contents_empty in Hs.
    + specialize (Hs s1 H1). simpl in Hs. rewrite decide_True in Hs by done.
      case_decide; [|done]. simpl. split; congruence.
    + by eapply leaf_not_ext.
    + by eapply leaf_not_branch.
  - destruct t2 as [|s2 v2|p2 c2|cs2 v2].
    + by apply same_contents_sym, same_contents_empty in Hs.
    + apply same_contents_sym in Hs. by eapply leaf_not_ext.
    + destruct (ext_same_prefix _ _ _ _ H1 H2 Hs) as [-> Hs']. split; [done|].
      apply IH; [apply H1|apply H2|done].
    + by eapply ext_not_branch.
  - destruct t2 as [|s2 v2|p2 c2|cs2 v2].
    + by apply same_contents_sym, same_contents_empty in Hs.
    + apply same_contents_sym in Hs. by eapply leaf_not_branch.
    + apply same_contents_sym in Hs. by eapply ext_not_branch.
    + split; [apply (Hs []); constructor|]. intros n Hn.
      apply IH; [by apply H1|by apply H2|]. intros k Hk. apply (Hs (n :: k)). by constructor.
Qed.
