(* ===== verification/MptFacts.v ===== *)
(** The operations of Mpt refine the abstract trie of MptTree.

    The contract of a store is the class [MptStoreSpec]: the store represents a finite
    map from hashes to nodes.  [trie_inv] relates a trie of the program (root hash and
    store) to an abstract tree and to the finite map of its keys and values.  The hash
    is only assumed injective on a set [G] of nodes that holds the nodes in play. *)
From S2P Require Import Prelude Floats Types Mpt MptTree.
Open Scope Z_scope.

(** ** The contract of the trait MptStore *)
Class MptStoreSpec (St : Type) `{Hashes, NodeCodec, MptStore St} := {
  store_rep : St → gmap Hash32 MptNode → Prop;
  get_node_spec s m h : store_rep s m → get_node s h = Ok (m !! h);
  put_node_spec s m n :
    store_rep s m →
    ∃ s', put_node s n = Ok (s', node_hash n) ∧ store_rep s' (<[node_hash n := n]> m);
  delete_node_spec s m h :
    store_rep s m → ∃ s', delete_node s h = Ok s' ∧ store_rep s' (delete h m);
}.

(** The sled store meets it: its tree holds the encodings of the nodes. *)
#[export] Program Instance sled_mpt_store_spec `{HA : Hashes} `{NC : NodeCodec}
    : MptStoreSpec SledMptStore := {|
  store_rep s m := sled_tree s = ser_node <$> m;
|}.
Next Obligation.
  intros HA NC s m h Hs. simpl in *. rewrite Hs, lookup_fmap.
  destruct (m !! h) as [n|]; simpl; [|done]. by rewrite de_ser_node.
Qed.
Next Obligation.
  intros HA NC s m n Hs. eexists. split; [reflexivity|]. simpl in *. by rewrite Hs, fmap_insert.
Qed.
Next Obligation.
  intros HA NC s m h Hs. eexists. split; [reflexivity|]. simpl in *. by rewrite Hs, fmap_delete.
Qed.

Section hashes.
Context {HA : Hashes} {NC : NodeCodec}.

#[local] Arguments node_hash : simpl never.
#[local] Arguments all_nibbles : simpl never.

(** ** The node and the hash of a tree *)
Fixpoint thash (t : tree) : option Hash32 :=
  match t with
  | TEmpty => None
  | TLeaf sfx v => Some (node_hash (Leaf sfx v))
  | TExt p c => Some (node_hash (Extension p (default zero32 (thash c))))
  | TBranch cs v => Some (node_hash (Branch ((λ n, thash (cs n)) <$> all_nibbles) v))
  end.

Definition child_list (cs : Z → tree) : list (option Hash32) :=
  (λ n, thash (cs n)) <$> all_nibbles.

Definition tnode (t : tree) : option MptNode :=
  match t with
  | TEmpty => None
  | TLeaf sfx v => Some (Leaf sfx v)
  | TExt p c => Some (Extension p (default zero32 (thash c)))
  | TBranch cs v => Some (Branch (child_list cs) v)
  end.

(** Every node of the tree satisfies [G]. *)
Fixpoint nodes_in (G : MptNode → Prop) (t : tree) : Prop :=
  match t with
  | TEmpty => True
  | TLeaf sfx v => G (Leaf sfx v)
  | TExt p c => G (Extension p (default zero32 (thash c))) ∧ nodes_in G c
  | TBranch cs v => G (Branch (child_list cs) v) ∧ ∀ n, nibble_ok n → nodes_in G (cs n)
  end.

(** The nodes of the tree are stored under their hashes. *)
Definition in_store (m : gmap Hash32 MptNode) (t : tree) : Prop :=
  nodes_in (λ n, m !! node_hash n = Some n) t.

(** The nodes that a deletion may write: those of the shrunk subtrees on the path. *)
Fixpoint delete_nodes_in (G : MptNode → Prop) (t : tree) (k : bytes) : Prop :=
  nodes_in G (t_delete t k) ∧
  match t with
  | TExt p c => if starts_with k p then delete_nodes_in G c (drop (length p) k) else True
  | TBranch cs v => match k with n :: k => delete_nodes_in G (cs n) k | [] => True end
  | _ => True
  end.

Definition hash_injective_on (G : MptNode → Prop) : Prop :=
  ∀ n n', G n → G n' → node_hash n = node_hash n' → n = n'.

Lemma thash_tnode t : thash t = node_hash <$> tnode t.
Proof. by destruct t. Qed.

Lemma thash_empty t : thash t = None ↔ t = TEmpty.
Proof. by destruct t. Qed.

Lemma nodes_in_mono (G G' : MptNode → Prop) t :
  (∀ n, G n → G' n) → nodes_in G t → nodes_in G' t.
Proof. intros HG. induction t; simpl; naive_solver. Qed.

Lemma in_store_mono m m' t : m ⊆ m' → in_store m t → in_store m' t.
Proof. intros Hm. apply nodes_in_mono. intros n Hn. by eapply lookup_weaken. Qed.

Lemma in_store_node m t n : in_store m t → tnode t = Some n → m !! node_hash n = Some n.
Proof. destruct t; simpl; unfold in_store; simpl; naive_solver. Qed.

Lemma child_list_ext cs cs' :
  (∀ n, nibble_ok n → thash (cs n) = thash (cs' n)) → child_list cs = child_list cs'.
Proof.
  intros H. apply list_fmap_ext. intros i n Hin.
  apply H, all_nibbles_iff. by eapply list_elem_of_lookup_2.
Qed.

(** Equal trees have equal hashes. *)
Lemma t_eq_thash t1 t2 : t_eq t1 t2 → thash t1 = thash t2.
Proof.
  rewrite !thash_tnode.
  revert t2; induction t1 as [|s v|p c IH|cs IH v]; intros [|s' v'|p' c'|cs' v'];
    cbn [t_eq tnode]; try done.
  - by intros [-> ->].
  - intros [-> Hc]. by rewrite (thash_tnode c), (IH _ Hc), <-thash_tnode.
  - intros [-> Hc]. erewrite child_list_ext; [done|].
    intros n Hn. rewrite !thash_tnode. by apply IH, Hc.
Qed.

(** ** The children array of a branch *)
Lemma all_nibbles_lookup n : nibble_ok n → all_nibbles !! Z.to_nat n = Some n.
Proof.
  intros Hn. apply all_nibbles_iff in Hn. unfold all_nibbles in Hn.
  repeat (apply elem_of_cons in Hn as [->|Hn]; [done|]). by apply not_elem_of_nil in Hn.
Qed.

Lemma child_at_list cs n : nibble_ok n → child_at (child_list cs) n = Ok (thash (cs n)).
Proof.
  intros Hn. unfold child_at, child_list. by rewrite list_lookup_fmap, all_nibbles_lookup.
Qed.

Lemma set_child_list cs n c :
  nibble_ok n → set_child (child_list cs) n (thash c) = child_list (t_update cs n c).
Proof.
  intros Hn. apply list_eq. intros i. unfold set_child, child_list.
  destruct (decide (i = Z.to_nat n)) as [->|Hi].
  - rewrite list_lookup_insert_eq, list_lookup_fmap, all_nibbles_lookup; [|done|].
    + simpl. unfold t_update. by rewrite decide_True.
    + unfold nibble_ok in Hn. simpl. lia.
  - rewrite list_lookup_insert_ne, !list_lookup_fmap by done.
    destruct (all_nibbles !! i) as [j|] eqn:Hj; [|done]. simpl.
    unfold t_update. rewrite decide_False; [done|]. intros ->. apply Hi.
    assert (i < 16)%nat by (by apply lookup_lt_Some in Hj).
    pose proof (NoDup_lookup all_nibbles i (Z.to_nat n) n) as Heq. apply Heq; [|done|].
    + by apply (bool_decide_unpack _).
    + by apply all_nibbles_lookup.
Qed.

Lemma set_child_none cs n :
  nibble_ok n → set_child (child_list cs) n None = child_list (t_update cs n TEmpty).
Proof. intros Hn. by rewrite <-(set_child_list cs n TEmpty). Qed.

Lemma no_children_list : no_children = child_list (λ _, TEmpty).
Proof. done. Qed.

Lemma remaining_from cs k n :
  omap (λ '(i, c), (λ h : Hash32, (Z.of_nat i, h)) <$> c)
    (imap (λ i c, (k + i, c)%nat) ((λ n, thash (cs n)) <$> (Z.of_nat <$> seq k n)))
  = (λ i, (i, default zero32 (thash (cs i)))) <$>
      filter (λ i, is_empty (cs i) = false) (Z.of_nat <$> seq k n).
Proof.
  revert k; induction n as [|n IH]; intros k; [done|].
  cbn [seq fmap list_fmap]. rewrite imap_cons. cbn [omap list_omap].
  rewrite Nat.add_0_r, filter_cons.
  replace (imap _ _) with (imap (λ i c, (S k + i, c)%nat)
    ((λ n, thash (cs n)) <$> (Z.of_nat <$> seq (S k) n))).
  2:{ apply imap_ext. intros i x _. simpl. f_equal. lia. }
  fold (@omap list list_omap). rewrite IH.
  destruct (cs (Z.of_nat k)) eqn:E; simpl; rewrite ?E; simpl; done.
Qed.

Lemma remaining_list cs :
  remaining (child_list cs)
  = (λ i, (i, default zero32 (thash (cs i)))) <$> occupied cs.
Proof. apply (remaining_from cs 0 16). Qed.
End hashes.

Section refinement.
Context {HA : Hashes} {NC : NodeCodec} {St : Type} `{MS : !MptStore St} `{SP : !MptStoreSpec St}.
Context (G : MptNode → Prop) (Ginj : hash_injective_on G).
Implicit Types (s : St) (m : gmap Hash32 MptNode) (t : tree).

#[local] Arguments node_hash : simpl never.
#[local] Arguments child_list : simpl never.

(** ** Stores whose nodes are in [G] and filed under their hashes *)
Definition store_inv s m : Prop :=
  store_rep s m ∧ ∀ h n, m !! h = Some n → node_hash n = h ∧ G n.

(** [r] succeeds, stores [t] and keeps everything stored before. *)
Definition builds m (r : mres (St * Hash32)) t : Prop :=
  ∃ s' m' h, r = Ok (s', h) ∧ thash t = Some h ∧ store_inv s' m' ∧ m ⊆ m' ∧ in_store m' t.
Definition builds_opt m (r : mres (St * option Hash32)) t : Prop :=
  ∃ s' m', r = Ok (s', thash t) ∧ store_inv s' m' ∧ m ⊆ m' ∧ in_store m' t.

Lemma put_node_inv s m n :
  store_inv s m → G n →
  ∃ s' m', put_node s n = Ok (s', node_hash n) ∧ store_inv s' m' ∧ m ⊆ m'
           ∧ m' !! node_hash n = Some n.
Proof.
  intros [Hr Hm] Hn. destruct (put_node_spec s m n Hr) as (s' & Hp & Hr').
  exists s', (<[node_hash n := n]> m). split; [done|]. split; [split; [done|]|split].
  - intros h n'. rewrite lookup_insert_Some. intros [[<- <-]|[_ H]]; [done|]. by apply Hm.
  - destruct (m !! node_hash n) as [n'|] eqn:E; [|by apply insert_subseteq].
    destruct (Hm _ _ E) as [Hh Hg]. assert (n' = n) as -> by (by apply Ginj).
    by rewrite insert_id.
  - apply lookup_insert_eq.
Qed.

Definition children_in (P : MptNode → Prop) t : Prop :=
  match t with
  | TExt _ c => nodes_in P c
  | TBranch cs _ => ∀ n, nibble_ok n → nodes_in P (cs n)
  | _ => True
  end.

Lemma nodes_in_split P t n : tnode t = Some n → nodes_in P t ↔ P n ∧ children_in P t.
Proof. destruct t; simpl; intros; simplify_eq; naive_solver. Qed.

Abbreviation kids_in m t := (children_in (λ n, m !! node_hash n = Some n) t).

Lemma kids_in_mono m m' t : m ⊆ m' → kids_in m t → kids_in m' t.
Proof.
  intros Hm. destruct t; simpl; [done|done| |].
  - by apply in_store_mono.
  - intros H n Hn. by apply (in_store_mono m), H.
Qed.

Lemma builds_put s m t n :
  store_inv s m → tnode t = Some n → G n → kids_in m t → builds m (put_node s n) t.
Proof.
  intros Hs Hn HG Hk. destruct (put_node_inv s m n Hs HG) as (s' & m' & Hp & Hs' & Hm & Hl).
  exists s', m', (node_hash n). rewrite thash_tnode, Hn. split_and!; try done.
  apply (nodes_in_split _ _ _ Hn). split; [done|]. by apply (kids_in_mono m).
Qed.

Lemma builds_opt_of m r t :
  builds m r t → builds_opt m (let? (s, h) := r in Ok (s, Some h)) t.
Proof.
  intros (s' & m' & h & -> & Ht & H). exists s', m'. simpl. by rewrite Ht.
Qed.

Lemma builds_weaken m0 m r t : m0 ⊆ m → builds m r t → builds m0 r t.
Proof.
  intros Hm (s' & m' & h & ? & ? & ? & ? & ?). exists s', m', h. split_and!; try done. by transitivity m.
Qed.
Lemma builds_opt_weaken m0 m r t : m0 ⊆ m → builds_opt m r t → builds_opt m0 r t.
Proof.
  intros Hm (s' & m' & ? & ? & ? & ?). exists s', m'. split_and!; try done. by transitivity m.
Qed.

(** The node of a stored tree is what the program loads. *)
Lemma load_node_spec s m t n h :
  store_inv s m → in_store m t → tnode t = Some n → thash t = Some h → load_node s h = Ok n.
Proof.
  intros [Hr _] Hi Hn Hh. unfold load_node. rewrite (get_node_spec s m h Hr). simpl.
  rewrite thash_tnode, Hn in Hh. injection Hh as <-. by rewrite (in_store_node _ _ _ Hi Hn).
Qed.

(** ** Lookup *)
Lemma get_recursive_spec fuel s m t k :
  store_inv s m → in_store m t → canon t → nibbles_ok k → (length k < fuel)%nat →
  get_recursive fuel s (thash t) k = Ok (t_get t k).
Proof.
  intros Hs. revert fuel k; induction t as [|sfx v|p c IH|cs IH v];
    intros [|fuel] k Hi Hc Hk Hf; try lia; cbn [get_recursive thash]; [done| | |];
    rewrite (load_node_spec s m _ _ _ Hs Hi) by done; simpl.
  - by rewrite <-decide_bool_decide.
  - destruct Hc as (Hp0 & Hp & Hbr & Hc). destruct (starts_with k p) eqn:Hsw; [|done].
    apply starts_with_iff in Hsw as [r ->]. rewrite drop_app_length.
    rewrite length_app in Hf. apply nibbles_ok_app in Hk as [_ Hr].
    assert (thash c = Some (default zero32 (thash c))) as <- by (by destruct c).
    apply IH; [apply Hi|done|done|]. destruct p; [done|simpl in Hf; lia].
  - destruct k as [|n k]; [done|]. apply Forall_cons in Hk as [Hn Hk].
    fold (child_list cs).
    rewrite child_at_list by done. simpl. apply IH; [by apply Hi|by apply Hc|done|simpl in Hf; lia].
Qed.

(** ** Insertion *)
Lemma split_slot_spec s m sfx v b :
  store_inv s m → nibbles_ok sfx →
  (∀ i, nibble_ok i → in_store m (b.1 i)) →
  (∀ i, nibble_ok i → nodes_in G ((t_slot sfx v b).1 i)) →
  ∃ s' m', split_slot s sfx v (child_list b.1) b.2
             = Ok (s', child_list (t_slot sfx v b).1, (t_slot sfx v b).2)
           ∧ store_inv s' m' ∧ m ⊆ m'
           ∧ ∀ i, nibble_ok i → in_store m' ((t_slot sfx v b).1 i).
Proof.
  intros Hs Hok Hb HG. destruct sfx as [|n rest]; [by exists s, m|].
  apply Forall_cons in Hok as [Hn _]. specialize (HG n Hn) as HGn.
  unfold t_slot in *; cbn [fst snd split_slot] in *.
  unfold t_update in HGn. rewrite decide_True in HGn by done. simpl in HGn.
  destruct (put_node_inv s m (Leaf rest v) Hs HGn) as (s' & m' & -> & Hs' & Hm & Hl).
  exists s', m'. simpl. change (Some (node_hash (Leaf rest v))) with (thash (TLeaf rest v)).
  rewrite set_child_list by done. split_and!; try done. intros i Hi. unfold t_update.
  destruct (decide (i = n)); [done|]. by apply (in_store_mono m), Hb.
Qed.

Lemma put_split_spec s m p b :
  store_inv s m → (∀ i, nibble_ok i → in_store m (b.1 i)) →
  nodes_in G (t_under p (t_branch b)) →
  builds m (put_split s p (child_list b.1) b.2) (t_under p (t_branch b)).
Proof.
  intros Hs Hb HG. unfold put_split.
  assert (HGb : nodes_in G (t_branch b)) by (destruct p; [done|apply HG]).
  assert (H1 : builds m (put_node s (Branch (child_list b.1) b.2)) (t_branch b)).
  { apply builds_put; [done|done|apply HGb|done]. }
  destruct H1 as (s1 & m1 & h & -> & Hh & Hs1 & Hm1 & Hi1). simpl.
  destruct p as [|x p]; [by exists s1, m1, h|].
  apply (builds_weaken m m1); [done|]. apply builds_put; [done| |..|done].
  - cbn [t_under tnode]. by rewrite Hh.
  - cbn [t_under nodes_in] in HG. rewrite Hh in HG. apply HG.
Qed.

Lemma nodes_in_under P p t : nodes_in P (t_under p t) → nodes_in P t.
Proof. destruct p; [done|]. by intros [_ ?]. Qed.

Lemma in_store_none m i : in_store m (t_none.1 i).
Proof. done. Qed.

Lemma insert_at_leaf_spec s m sfx old k v :
  store_inv s m → nibbles_ok sfx → nibbles_ok k → nodes_in G (t_insert (TLeaf sfx old) k v) →
  builds m (insert_at_leaf s sfx old k v) (t_insert (TLeaf sfx old) k v).
Proof.
  intros Hs Hsfx Hk HG. unfold insert_at_leaf.
  destruct (common_prefix_spec sfx k) as (p & ra & rb & -> & -> & Hc & Hd).
  destruct (decide (ra = [] ∧ rb = [])) as [[-> ->]|Hne].
  - rewrite app_nil_r in *. simpl in *. rewrite Hc, Nat.eqb_refl in *. by apply builds_put.
  - assert (Hdiv : diverge ra rb) by (destruct ra, rb; naive_solver).
    rewrite t_insert_leaf in * by done.
    rewrite Hc, !length_app, take_app_length, !drop_app_length.
    replace ((length p =? length p + length ra)%nat && (length p =? length p + length rb)%nat) with false
      by (destruct ra, rb; try done; simpl; rewrite ?(proj2 (Nat.eqb_neq (length p) (length p + S _))),
            ?andb_false_r by lia; done).
    apply nibbles_ok_app in Hsfx as [_ Hra], Hk as [_ Hrb].
    apply nodes_in_under in HG as HGb. destruct HGb as [_ HGc].
    destruct (split_slot_spec s m ra old t_none Hs Hra) as (s1 & m1 & E1 & Hs1 & Hm1 & Hi1); [done| |].
    { intros i Hi. destruct ra as [|x ra]; [done|]. simpl. unfold t_update.
      destruct (decide (i = x)) as [->|]; [|done]. specialize (HGc x Hi).
      destruct rb as [|y rb]; simpl in HGc; unfold t_update in HGc;
        rewrite ?(decide_True (P := x = x)) in HGc by done; [done|].
      by rewrite decide_False in HGc by (by simpl in Hdiv). }
    change no_children with (child_list t_none.1). change (@None bytes) with t_none.2 at 1.
    rewrite E1. cbn [rbind].
    destruct (split_slot_spec s1 m1 rb v (t_slot ra old t_none) Hs1 Hrb Hi1 HGc)
      as (s2 & m2 & E2 & Hs2 & Hm2 & Hi2).
    rewrite E2. cbn [rbind]. apply (builds_weaken m m2); [by transitivity m1|].
    by apply put_split_spec.
Qed.

Lemma insert_at_extension_split_spec s m p x ra c rb v :
  store_inv s m → nibbles_ok (p ++ x :: ra) → nibbles_ok rb → is_branch c = true → in_store m c →
  common_prefix (p ++ x :: ra) (p ++ rb) = length p →
  nodes_in G (t_insert (TExt (p ++ x :: ra) c) (p ++ rb) v) →
  match rb with y :: _ => x ≠ y | [] => True end →
  builds m (insert_at_extension_split s (length p) (p ++ x :: ra) (default zero32 (thash c)) (p ++ rb) v)
    (t_insert (TExt (p ++ x :: ra) c) (p ++ rb) v).
Proof.
  intros Hs Hok Hrb Hbr Hi Hc HG Hd. rewrite t_insert_ext_split in * by done.
  apply nibbles_ok_app in Hok as [_ [Hx Hra]%Forall_cons].
  unfold insert_at_extension_split. rewrite take_app_length, !drop_app_length.
  apply nodes_in_under in HG as HGb. destruct HGb as [_ HGc].
  assert (HGu : nodes_in G (t_under ra c)).
  { specialize (HGc x Hx). destruct rb as [|y rb]; simpl in HGc; unfold t_update in HGc.
    - by rewrite decide_True in HGc.
    - by rewrite decide_False, decide_True in HGc. }
  assert (H1 : builds m (match ra with
                         | [] => Ok (s, default zero32 (thash c))
                         | _ :: _ => put_node s (Extension ra (default zero32 (thash c)))
                         end) (t_under ra c)).
  { destruct ra as [|z ra].
    - exists s, m, (default zero32 (thash c)). split_and!; try done. by destruct c.
    - apply builds_put; [done|done|apply HGu|done]. }
  destruct H1 as (s1 & m1 & h & -> & Hh & Hs1 & Hm1 & Hi1). cbn [rbind].
  rewrite <-Hh, no_children_list, set_child_list by done.
  destruct (split_slot_spec s1 m1 rb v (t_update (λ _, TEmpty) x (t_under ra c), None) Hs1 Hrb)
    as (s2 & m2 & E2 & Hs2 & Hm2 & Hi2); [|done|].
  { intros i _. simpl. unfold t_update. by destruct (decide (i = x)). }
  cbn [fst snd] in E2. rewrite E2. cbn [rbind].
  apply (builds_weaken m m2); [by transitivity m1|]. by apply put_split_spec.
Qed.

Lemma insert_recursive_spec fuel s m t k v :
  store_inv s m → in_store m t → canon t → nibbles_ok k → (length k < fuel)%nat →
  nodes_in G (t_insert t k v) →
  builds m (insert_recursive fuel s (thash t) k v) (t_insert t k v).
Proof.
  intros Hs. revert fuel k; induction t as [|sfx old|p c IH|cs IH old];
    intros [|fuel] k Hi Hc Hk Hf HG; try lia; cbn [insert_recursive thash]; [by apply builds_put| | |];
    rewrite (load_node_spec s m _ _ _ Hs Hi) by done; cbn [rbind].
  - by apply insert_at_leaf_spec.
  - destruct Hc as (Hp0 & Hp & Hbr & Hc).
    destruct (common_prefix_spec p k) as (q & ra & rb & -> & -> & Hcp & Hd).
    rewrite Hcp. destruct ra as [|x ra].
    + rewrite app_nil_r in *. rewrite Nat.eqb_refl, drop_app_length. rewrite t_insert_ext_down in *.
      apply nibbles_ok_app in Hk as [_ Hrb]. rewrite length_app in Hf.
      assert (thash c = Some (default zero32 (thash c))) as <- by (by destruct c).
      destruct (IH fuel rb) as (s1 & m1 & h & -> & Hh & Hs1 & Hm1 & Hi1);
        [apply Hi|done|done|destruct q; [done|simpl in Hf; lia]|apply HG|]. cbn [rbind].
      apply (builds_weaken m m1); [done|]. apply builds_put; [done| | |done].
      * simpl. by rewrite Hh.
      * destruct HG as [HG _]. by rewrite Hh in HG.
    + rewrite length_app, (proj2 (Nat.eqb_neq _ _)) by (simpl; lia).
      apply nibbles_ok_app in Hk as [_ Hrb].
      apply insert_at_extension_split_spec; try done. apply Hi.
  - destruct k as [|n k].
    + simpl in HG. apply builds_put; [done|done|apply HG|exact (proj2 Hi)].
    + apply Forall_cons in Hk as [Hn Hk]. fold (child_list cs). rewrite child_at_list by done.
      cbn [rbind]. destruct HG as [HG HGk].
      destruct (IH n fuel k) as (s1 & m1 & h & -> & Hh & Hs1 & Hm1 & Hi1);
        [by apply Hi|by apply Hc|done|simpl in Hf; lia| |].
      { specialize (HGk n Hn). unfold t_update in HGk. by rewrite decide_True in HGk. }
      cbn [rbind]. rewrite <-Hh, set_child_list by done.
      apply (builds_weaken m m1); [done|]. apply builds_put; [done|done|done|].
      intros i Hin. simpl. unfold t_update. destruct (decide (i = n)); [done|].
      apply (in_store_mono m m1); [done|]. by apply Hi.
Qed.

(** ** Deletion *)
Lemma put_merged_spec s m p c h :
  store_inv s m → in_store m c → thash c = Some h → nodes_in G (t_ext p c) →
  builds_opt m (put_merged s p h) (t_ext p c).
Proof.
  intros Hs Hi Hh HG. unfold put_merged. rewrite (get_node_spec s m h (proj1 Hs)). cbn [rbind].
  rewrite thash_tnode in Hh. destruct (tnode c) as [n|] eqn:Hn; [|done].
  injection Hh as <-. rewrite (in_store_node _ _ _ Hi Hn).
  apply builds_opt_of. destruct c as [|sfx v|q d|cs v]; simpl in Hn; simplify_eq.
  - by apply builds_put.
  - apply builds_put; [done|done|apply HG|apply Hi].
  - apply builds_put; [done|done|apply HG|exact Hi].
Qed.

Lemma put_canonical_spec s m cs v :
  store_inv s m → (∀ i, nibble_ok i → in_store m (cs i)) → nodes_in G (t_norm cs v) →
  builds_opt m (put_canonical s (child_list cs) v) (t_norm cs v).
Proof.
  intros Hs Hi HG. unfold put_canonical, t_norm in *. rewrite remaining_list.
  destruct (occupied cs) as [|n [|n' l]] eqn:Ho; cbn [fmap list_fmap].
  - destruct v as [v|]; [|by exists s, m]. apply builds_opt_of. by apply builds_put.
  - destruct v as [v|].
    + apply builds_opt_of. apply builds_put; [done|done|apply HG|exact Hi].
    + destruct (occupied_single_ok cs n Ho) as [Hn Hne].
      apply (put_merged_spec s m [n] (cs n)); [done|by apply Hi| |done].
      by destruct (cs n).
  - apply builds_opt_of. apply builds_put; [done|done|apply HG|exact Hi].
Qed.

Lemma delete_recursive_spec fuel s m t k :
  store_inv s m → in_store m t → canon t → nibbles_ok k → (length k < fuel)%nat →
  delete_nodes_in G t k →
  builds_opt m (delete_recursive fuel s (thash t) k) (t_delete t k).
Proof.
  intros Hs. revert fuel k; induction t as [|sfx old|p c IH|cs IH old];
    intros [|fuel] k Hi Hc Hk Hf [HG HGd]; try lia; cbn [delete_recursive thash]; [by exists s, m| | |];
    rewrite (load_node_spec s m _ _ _ Hs Hi) by done; cbn [rbind].
  - exists s, m. simpl. rewrite <-decide_bool_decide. by destruct (decide (sfx = k)).
  - destruct Hc as (Hp0 & Hp & Hbr & Hc). cbn [t_delete] in *.
    destruct (starts_with k p) eqn:Hsw; [|by exists s, m].
    apply starts_with_iff in Hsw as [r ->]. rewrite drop_app_length in *.
    apply nibbles_ok_app in Hk as [_ Hr]. rewrite length_app in Hf.
    assert (thash c = Some (default zero32 (thash c))) as <- by (by destruct c).
    destruct (IH fuel r) as (s1 & m1 & -> & Hs1 & Hm1 & Hi1);
      [apply Hi|done|done|destruct p; [done|simpl in Hf; lia]|done|]. cbn [rbind].
    apply (builds_opt_weaken m m1); [done|].
    destruct (thash (t_delete c r)) as [h|] eqn:Hh; [by apply put_merged_spec|].
    apply thash_empty in Hh as ->. by exists s1, m1.
  - destruct Hc as [Hcs H2]. destruct k as [|n k]; cbn [t_delete] in *.
    + apply put_canonical_spec; [done|exact (proj2 Hi)|done].
    + apply Forall_cons in Hk as [Hn Hk]. fold (child_list cs). rewrite child_at_list by done.
      cbn [rbind].
      destruct (IH n fuel k) as (s1 & m1 & -> & Hs1 & Hm1 & Hi1);
        [by apply Hi|by apply Hcs|done|simpl in Hf; lia|done|]. cbn [rbind].
      rewrite set_child_list by done. apply (builds_opt_weaken m m1); [done|].
      apply put_canonical_spec; [done| |done]. intros i Hin. unfold t_update.
      destruct (decide (i = n)); [done|]. apply (in_store_mono m m1); [done|]. by apply Hi.
Qed.
End refinement.

(** ** Keys *)
Definition is_key (key : bytes) : Prop := length key = 32%nat ∧ Forall is_byte key.

#[export] Instance is_byte_dec b : Decision (is_byte b).
Proof. unfold is_byte. apply _. Defined.
#[export] Instance is_key_dec key : Decision (is_key key).
Proof. unfold is_key. apply _. Defined.

Lemma byte_nibbles_ok b : is_byte b → nibbles_ok [Z.shiftr b 4; Z.land b 0x0F].
Proof.
  intros [H1 H2]. unfold nibble_ok.
  rewrite Z.shiftr_div_pow2 by lia. change 0x0F with (Z.ones 4). rewrite Z.land_ones by lia.
  repeat constructor.
  - by apply Z.div_pos.
  - apply Z.div_lt_upper_bound; lia.
  - by apply Z.mod_pos_bound.
  - by apply Z.mod_pos_bound.
Qed.

Lemma key_to_nibbles_ok key : Forall is_byte key → nibbles_ok (key_to_nibbles key).
Proof.
  induction 1 as [|b key Hb _ IH]; [constructor|].
  apply (nibbles_ok_app [_; _]). split; [by apply byte_nibbles_ok|done].
Qed.

Lemma length_key_to_nibbles key : length (key_to_nibbles key) = (2 * length key)%nat.
Proof. induction key as [|b key IH]; simpl in *; [done|]. rewrite IH. lia. Qed.

Lemma byte_of_nibbles b : 16 * Z.shiftr b 4 + Z.land b 0x0F = b.
Proof.
  rewrite Z.shiftr_div_pow2 by lia. change 0x0F with (Z.ones 4). rewrite Z.land_ones by lia.
  change (2 ^ 4) with 16. pose proof (Z.div_mod b 16). lia.
Qed.

Lemma key_to_nibbles_inj : Inj (=) (=) key_to_nibbles.
Proof.
  intros a b. revert b; induction a as [|x a IH]; intros [|y b]; simpl; try done.
  intros [= H1 H2 H]. rewrite <-(byte_of_nibbles x), <-(byte_of_nibbles y), H1, H2.
  f_equal. by apply IH.
Qed.

Lemma is_key_fuel key : is_key key → (length (key_to_nibbles key) < key_fuel)%nat.
Proof. intros [Hl _]. rewrite length_key_to_nibbles, Hl. unfold key_fuel. lia. Qed.

(** ** The trie as a finite map *)
Section theorems.
Context {HA : Hashes} {NC : NodeCodec} {St : Type} `{MS : !MptStore St} `{SP : !MptStoreSpec St}.
Implicit Types (T : MerklePatriciaTrie St) (t : tree) (M : gmap bytes bytes).

Record trie_inv (G : MptNode → Prop) T t M : Prop := {
  ti_store : ∃ m, store_inv G (store T) m ∧ in_store m t;
  ti_root : mroot T = thash t;
  ti_canon : canon t;
  ti_keys k : has_key t k → ∃ key, is_key key ∧ k = key_to_nibbles key;
  ti_dom key : is_Some (M !! key) → is_key key;
  ti_map key : is_key key → t_get t (key_to_nibbles key) = M !! key;
}.

Lemma trie_inv_empty G (s : St) : store_rep s ∅ → trie_inv G (trie_new s) TEmpty ∅.
Proof.
  intros Hs. constructor; try done.
  - exists ∅. split; [|done]. split; [done|]. intros h n. by rewrite lookup_empty.
  - intros k [_ [x Hx]]. done.
  - intros key [x Hx]. by rewrite lookup_empty in Hx.
Qed.

Lemma trie_inv_update G T t M T' t' M' key o :
  trie_inv G T t M → is_key key →
  (∃ m, store_inv G (store T') m ∧ in_store m t') → mroot T' = thash t' → canon t' →
  (∀ k, nibbles_ok k → t_get t' k = if decide (k = key_to_nibbles key) then o else t_get t k) →
  M' = partial_alter (λ _, o) key M → trie_inv G T' t' M'.
Proof.
  intros HI Hkey Hs Hr Hc Hg ->. constructor; try done.
  - intros k [Hk Hsome]. rewrite Hg in Hsome by done.
    destruct (decide (k = key_to_nibbles key)); [by exists key|].
    by apply (ti_keys _ _ _ _ HI k).
  - intros key' Hsome. destruct (decide (key = key')) as [<-|]; [done|].
    rewrite lookup_partial_alter_ne in Hsome by done. by apply (ti_dom _ _ _ _ HI).
  - intros key' Hkey'. rewrite Hg by (by apply key_to_nibbles_ok, Hkey').
    destruct (decide (key_to_nibbles key' = key_to_nibbles key)) as [Heq|Hne].
    + apply key_to_nibbles_inj in Heq as ->. by rewrite lookup_partial_alter_eq.
    + rewrite lookup_partial_alter_ne by congruence. by apply (ti_map _ _ _ _ HI).
Qed.

(** Lookup in a trie that represents [M] returns what [M] holds, never an error: the
    fuel suffices and no node is missing. *)
Lemma mpt_get_inv G T t M key :
  trie_inv G T t M → is_key key → mpt_get T key = Ok (M !! key).
Proof.
  intros HI Hkey. destruct (ti_store _ _ _ _ HI) as (m & Hs & Hi). unfold mpt_get.
  rewrite (ti_root _ _ _ _ HI), (get_recursive_spec G _ _ m t); try done.
  - by rewrite (ti_map _ _ _ _ HI).
  - apply HI.
  - by apply key_to_nibbles_ok, Hkey.
  - by apply is_key_fuel.
Qed.

(** A store represents one map. *)
Lemma store_rep_unique (s : St) m m' : store_rep s m → store_rep s m' → m = m'.
Proof.
  intros H1 H2. apply map_eq. intros h.
  pose proof (get_node_spec s m h H1). pose proof (get_node_spec s m' h H2). congruence.
Qed.

(** A root that was readable in the store [s] stays readable in [s']. *)
Definition keeps_roots (G : MptNode → Prop) (s s' : St) : Prop :=
  ∀ r told Mold, trie_inv G (with_root_opt s r) told Mold → trie_inv G (with_root_opt s' r) told Mold.

Lemma keeps_roots_extend G (s s' : St) m m' :
  store_inv G s m → store_inv G s' m' → m ⊆ m' → keeps_roots G s s'.
Proof.
  intros [Hs _] Hs' Hm r told Mold [(m0 & [Hs0 _] & Hi) H2 H3 H4 H5 H6]. constructor; try done.
  exists m'. split; [done|]. apply (in_store_mono m); [done|].
  by rewrite (store_rep_unique s m m0).
Qed.

Lemma mpt_insert_inv G T t M key value :
  hash_injective_on G → trie_inv G T t M → is_key key →
  nodes_in G (t_insert t (key_to_nibbles key) value) →
  ∃ T' r, mpt_insert T key value = Ok (T', r) ∧ mroot T' = Some r ∧
    trie_inv G T' (t_insert t (key_to_nibbles key) value) (<[key := value]> M) ∧
    keeps_roots G (store T) (store T').
Proof.
  intros Ginj HI Hkey HG. destruct (ti_store _ _ _ _ HI) as (m & Hs & Hi).
  pose proof (key_to_nibbles_ok key (proj2 Hkey)) as Hnib.
  destruct (insert_recursive_spec G Ginj key_fuel (store T) m t (key_to_nibbles key) value)
    as (s' & m' & h & Hins & Hh & Hs' & Hm & Hi'); try done; [apply HI|by apply is_key_fuel|].
  unfold mpt_insert. rewrite (ti_root _ _ _ _ HI), Hins. simpl.
  eexists _, _. split_and!; [done|done| |by eapply keeps_roots_extend].
  eapply trie_inv_update; [done|done|by exists m'|done| |intros k _; apply t_get_insert|done].
  apply canon_insert; [apply HI|done].
Qed.

Lemma mpt_delete_inv G T t M key :
  hash_injective_on G → trie_inv G T t M → is_key key →
  delete_nodes_in G t (key_to_nibbles key) →
  ∃ T' r, mpt_delete T key = Ok (T', r) ∧ r = default zero32 (mroot T') ∧
    trie_inv G T' (t_delete t (key_to_nibbles key)) (delete key M) ∧
    keeps_roots G (store T) (store T').
Proof.
  intros Ginj HI Hkey HG. destruct (ti_store _ _ _ _ HI) as (m & Hs & Hi).
  pose proof (key_to_nibbles_ok key (proj2 Hkey)) as Hnib.
  destruct (delete_recursive_spec G Ginj key_fuel (store T) m t (key_to_nibbles key))
    as (s' & m' & Hdel & Hs' & Hm & Hi'); try done; [apply HI|by apply is_key_fuel|].
  unfold mpt_delete. rewrite (ti_root _ _ _ _ HI), Hdel. simpl.
  eexists _, _. split_and!; [done|done| |by eapply keeps_roots_extend].
  eapply trie_inv_update; [done|done|by exists m'|done| |intros k Hk; by apply t_get_delete|done].
  apply canon_delete, HI.
Qed.

(** C5. Insertion into a trie that represents the map [M] succeeds; the new trie
    represents [<[key := value]> M], every lookup in it returns what that map holds, and
    every root readable before stays readable.  The hash must have no collision among
    the nodes stored and those of the new tree. *)
Theorem mpt_insert_correct G T t M key value :
  hash_injective_on G → trie_inv G T t M → is_key key →
  nodes_in G (t_insert t (key_to_nibbles key) value) →
  ∃ T' r, mpt_insert T key value = Ok (T', r) ∧ mroot T' = Some r ∧
    trie_inv G T' (t_insert t (key_to_nibbles key) value) (<[key := value]> M) ∧
    (∀ key', is_key key' →
       mpt_get T' key' = Ok (if decide (key = key') then Some value else M !! key')) ∧
    keeps_roots G (store T) (store T').
Proof.
  intros Ginj HI Hkey HG.
  destruct (mpt_insert_inv G T t M key value) as (T' & r & Hins & Hr & HI' & Hk); try done.
  exists T', r. split_and!; try done. intros key' Hkey'.
  by rewrite (mpt_get_inv _ _ _ _ _ HI' Hkey'), lookup_insert.
Qed.

(** C6. Deletion succeeds; the new trie represents [delete key M], every lookup in it
    returns what that map holds, and every root readable before stays readable, under
    the same condition on the nodes written. *)
Theorem mpt_delete_correct G T t M key :
  hash_injective_on G → trie_inv G T t M → is_key key →
  delete_nodes_in G t (key_to_nibbles key) →
  ∃ T' r, mpt_delete T key = Ok (T', r) ∧ r = default zero32 (mroot T') ∧
    trie_inv G T' (t_delete t (key_to_nibbles key)) (delete key M) ∧
    (∀ key', is_key key' →
       mpt_get T' key' = Ok (if decide (key = key') then None else M !! key')) ∧
    keeps_roots G (store T) (store T').
Proof.
  intros Ginj HI Hkey HG.
  destruct (mpt_delete_inv G T t M key) as (T' & r & Hdel & Hr & HI' & Hk); try done.
  exists T', r. split_and!; try done. intros key' Hkey'.
  by rewrite (mpt_get_inv _ _ _ _ _ HI' Hkey'), lookup_delete.
Qed.

Lemma trie_inv_same_contents G1 G2 T1 T2 t1 t2 M :
  trie_inv G1 T1 t1 M → trie_inv G2 T2 t2 M → same_contents t1 t2.
Proof.
  assert (∀ G1 G2 T1 T2 t1 t2, trie_inv G1 T1 t1 M → trie_inv G2 T2 t2 M →
            ∀ k, nibbles_ok k → is_Some (t_get t1 k) → t_get t2 k = t_get t1 k) as Haux.
  { intros ?????? H1 H2 k Hk Hs. destruct (ti_keys _ _ _ _ H1 k) as (key & Hkey & ->); [done|].
    by rewrite (ti_map _ _ _ _ H1), (ti_map _ _ _ _ H2). }
  intros H1 H2 k Hk. destruct (t_get t1 k) eqn:E1, (t_get t2 k) eqn:E2; try done.
  - by rewrite <-E1, <-E2, (Haux _ _ _ _ _ _ H1 H2) by (rewrite ?E1; done).
  - rewrite <-E1, <-E2. symmetry. apply (Haux _ _ _ _ _ _ H1 H2); [done|by rewrite E1].
  - rewrite <-E1, <-E2. apply (Haux _ _ _ _ _ _ H2 H1); [done|by rewrite E2].
Qed.

Lemma roots_agree G1 G2 T1 T2 t1 t2 M :
  trie_inv G1 T1 t1 M → trie_inv G2 T2 t2 M → mroot T1 = mroot T2.
Proof.
  intros H1 H2. rewrite (ti_root _ _ _ _ H1), (ti_root _ _ _ _ H2).
  apply t_eq_thash, canon_unique; [apply H1|apply H2|by eapply trie_inv_same_contents].
Qed.

(** C16. The state root is a function of the map alone: whatever the histories of
    insertions and deletions, two tries with the same contents have the same root. *)
Theorem mpt_root_determined G1 G2 T1 T2 t1 t2 M :
  trie_inv G1 T1 t1 M → trie_inv G2 T2 t2 M → mroot T1 = mroot T2.
Proof. apply roots_agree. Qed.

Lemma in_store_nodes_in G (s : St) m t : store_inv G s m → in_store m t → nodes_in G t.
Proof. intros [_ Hm]. apply nodes_in_mono. intros n Hn. by apply (Hm (node_hash n)). Qed.

Lemma nodes_in_node G t n : nodes_in G t → tnode t = Some n → G n.
Proof. intros H Hn. by apply (nodes_in_split _ _ _ Hn) in H as [? _]. Qed.

Lemma thash_tnode_inj G t1 t2 :
  hash_injective_on G → nodes_in G t1 → nodes_in G t2 → thash t1 = thash t2 → tnode t1 = tnode t2.
Proof.
  intros Ginj H1 H2. rewrite !thash_tnode. destruct (tnode t1) as [n1|] eqn:E1, (tnode t2) as [n2|] eqn:E2;
    try done. cbn [fmap option_fmap option_map]. intros Heq%(inj Some). f_equal.
  apply Ginj; [by apply (nodes_in_node G t1)|by apply (nodes_in_node G t2)|exact Heq].
Qed.

Lemma thash_inj G t1 t2 :
  hash_injective_on G → nodes_in G t1 → nodes_in G t2 → canon t1 → canon t2 →
  thash t1 = thash t2 → t_eq t1 t2.
Proof.
  intros Ginj. revert t2; induction t1 as [|s v|p c IH|cs IH v]; intros t2 H1 H2 C1 C2 Hh;
    apply (thash_tnode_inj G) in Hh as Hn; try done;
    destruct t2 as [|s' v'|p' c'|cs' v']; try done; cbn [tnode] in Hn.
  - by injection Hn as -> ->.
  - injection Hn as -> Hc. split; [done|].
    destruct C1 as (_ & _ & Hb1 & C1), C2 as (_ & _ & Hb2 & C2), H1 as [_ H1], H2 as [_ H2].
    apply IH; try done. destruct (thash_empty c) as [E1 _], (thash_empty c') as [E2 _].
    destruct (thash c); [|by rewrite E1 in Hb1]. destruct (thash c'); [|by rewrite E2 in Hb2].
    simpl in Hc. by rewrite Hc.
  - assert (Hl : child_list cs = child_list cs') by congruence.
    assert (v = v') as -> by congruence. split; [done|].
    intros n Hok. apply IH; [by apply H1|by apply H2|by apply C1|by apply C2|].
    apply (f_equal (λ l, child_at l n)) in Hl. rewrite !child_at_list in Hl by done. congruence.
Qed.

Lemma t_eq_get t1 t2 k : t_eq t1 t2 → nibbles_ok k → t_get t1 k = t_get t2 k.
Proof.
  revert t2 k; induction t1 as [|s v|p c IH|cs IH v]; intros [|s' v'|p' c'|cs' v'] k; simpl; try done.
  - by intros [-> ->].
  - intros [-> Hc] Hk. destruct (starts_with k p') eqn:Hs; [|done]. apply IH; [done|].
    apply starts_with_iff in Hs as [r ->]. rewrite drop_app_length. by apply nibbles_ok_app in Hk as [_ ?].
  - intros [-> Hc] Hk. destruct k as [|n k]; [done|]. apply Forall_cons in Hk as [Hn Hk]. auto.
Qed.

Lemma trie_inv_root_inj G T1 T2 t1 t2 M1 M2 :
  hash_injective_on G → trie_inv G T1 t1 M1 → trie_inv G T2 t2 M2 →
  mroot T1 = mroot T2 → M1 = M2.
Proof.
  intros Ginj H1 H2 Hr.
  destruct (ti_store _ _ _ _ H1) as (m1 & Hs1 & Hi1), (ti_store _ _ _ _ H2) as (m2 & Hs2 & Hi2).
  rewrite (ti_root _ _ _ _ H1), (ti_root _ _ _ _ H2) in Hr.
  apply (thash_inj G) in Hr; [|done|exact (in_store_nodes_in _ _ _ _ Hs1 Hi1)
    |exact (in_store_nodes_in _ _ _ _ Hs2 Hi2)|apply H1|apply H2].
  apply map_eq. intros key. destruct (decide (is_key key)) as [Hk|Hk].
  - rewrite <-(ti_map _ _ _ _ H1), <-(ti_map _ _ _ _ H2) by done.
    apply t_eq_get; [done|]. by apply key_to_nibbles_ok, Hk.
  - assert (Hnone : ∀ G T t M, trie_inv G T t M → M !! key = None).
    { intros G' T t M H. apply eq_None_not_Some. intros Hs. by apply Hk, (ti_dom _ _ _ _ H). }
    by rewrite (Hnone _ _ _ _ H1), (Hnone _ _ _ _ H2).
Qed.
End theorems.
