(* ===== verification/MptGc.v ===== *)
(** Garbage collection of the trie (gc_since of mpt.rs): the nodes of the current trie
    survive, the nodes that only the old trie has are gone. *)
From S2P Require Import Prelude Floats Types Mpt MptTree MptFacts.
Open Scope Z_scope.

#[local] Arguments node_hash : simpl never.
#[local] Arguments child_list : simpl never.
#[local] Opaque all_nibbles.

Section gc.
Context {HA : Hashes} {NC : NodeCodec}.
Implicit Types (m : gmap Hash32 MptNode) (t u : tree) (L live : gset Hash32).

(** The hashes of the nodes of a tree, and its height. *)
Fixpoint thashes t : gset Hash32 :=
  match t with
  | TEmpty => ∅
  | TLeaf sfx v => {[ node_hash (Leaf sfx v) ]}
  | TExt p c => {[ node_hash (Extension p (default zero32 (thash c))) ]} ∪ thashes c
  | TBranch cs v => {[ node_hash (Branch (child_list cs) v) ]}
                    ∪ ⋃ ((λ n, thashes (cs n)) <$> all_nibbles)
  end.

Fixpoint height t : nat :=
  match t with
  | TEmpty => 0
  | TLeaf _ _ => 1
  | TExt _ c => S (height c)
  | TBranch cs _ => S (max_list ((λ n, height (cs n)) <$> all_nibbles))
  end.

(** Stored canonical trees, the trees the collector walks. *)
Definition stored m t : Prop := in_store m t ∧ canon t.

Lemma elem_of_child_hashes cs (l : list Z) (h : Hash32) :
  h ∈ ⋃ ((λ n, thashes (cs n)) <$> l) ↔ ∃ n, n ∈ l ∧ h ∈ thashes (cs n).
Proof.
  rewrite elem_of_union_list. split.
  - intros (X & HX & Hh). apply list_elem_of_fmap in HX as (n & -> & Hn). eauto.
  - intros (n & Hn & Hh). eexists. split; [|done]. apply list_elem_of_fmap. eauto.
Qed.

Lemma height_child cs v n : nibble_ok n → (height (cs n) < height (TBranch cs v))%nat.
Proof.
  intros Hn. simpl. apply Nat.lt_succ_r. apply max_list_elem_of_le.
  apply list_elem_of_fmap. exists n. split; [done|]. by apply all_nibbles_iff.
Qed.

Lemma height_branch_le cs v d :
  (∀ n, nibble_ok n → height (cs n) ≤ d)%nat → (height (TBranch cs v) ≤ S d)%nat.
Proof.
  intros H. simpl. apply le_n_S.
  assert (Hl : ∀ n, n ∈ all_nibbles → (height (cs n) ≤ d)%nat) by (intros n; rewrite all_nibbles_iff; auto).
  revert Hl. generalize all_nibbles as l. induction l as [|n l IH]; intros Hl; simpl; [lia|].
  apply Nat.max_lub; [apply Hl; left|]. apply IH. intros i Hi. apply Hl. by right.
Qed.

(** Subtrees. *)
Lemma stored_child m cs v n : nibble_ok n → stored m (TBranch cs v) → stored m (cs n).
Proof. intros Hn [Hi Hc]. split; [by apply Hi|by apply Hc]. Qed.
Lemma stored_ext m p c : stored m (TExt p c) → stored m c ∧ is_branch c = true.
Proof. intros [Hi Hc]. split; [|apply Hc]. split; [apply Hi|apply Hc]. Qed.

Lemma t_eq_height t1 t2 : t_eq t1 t2 → height t1 = height t2.
Proof.
  revert t2; induction t1 as [|s v|p c IH|cs IH v]; intros [|s' v'|p' c'|cs' v']; simpl; try done.
  - intros [-> Hc]. by rewrite (IH _ Hc).
  - intros [-> Hc]. f_equal. f_equal. apply list_fmap_ext. intros i n Hin.
    apply IH, Hc, all_nibbles_iff. by eapply list_elem_of_lookup_2.
Qed.

Lemma t_eq_thashes t1 t2 : t_eq t1 t2 → thashes t1 = thashes t2.
Proof.
  intros Heq. pose proof (t_eq_thash _ _ Heq) as Hh. revert t2 Heq Hh.
  induction t1 as [|s v|p c IH|cs IH v]; intros [|s' v'|p' c'|cs' v']; simpl; try done.
  - by intros [-> ->].
  - intros [-> Hc] _. by rewrite (IH _ Hc (t_eq_thash _ _ Hc)), (t_eq_thash _ _ Hc).
  - intros [-> Hc] _. f_equal.
    + by rewrite (child_list_ext cs cs') by (intros n Hn; by apply t_eq_thash, Hc).
    + f_equal. apply list_fmap_ext. intros i n Hin.
      assert (nibble_ok n) by (apply all_nibbles_iff; by eapply list_elem_of_lookup_2).
      apply IH; [by apply Hc|by apply t_eq_thash, Hc].
Qed.

(** In a store, the hash determines the tree. *)
Lemma stored_same_hash m t u : stored m t → stored m u → thash t = thash u → t_eq t u.
Proof.
  intros [Hit Hct] [Hiu Hcu]. apply (thash_inj (λ n, m !! node_hash n = Some n)); try done.
  intros n n' Hn Hn' Heq. rewrite Heq, Hn' in Hn. congruence.
Qed.

Lemma thash_in_thashes t h : thash t = Some h → h ∈ thashes t.
Proof. destruct t; cbn [thash thashes]; intros; simplify_eq; set_solver. Qed.

Lemma sub_thashes m t u h :
  stored m t → stored m u → thash u = Some h → h ∈ thashes t →
  thashes u ⊆ thashes t ∧ (height u ≤ height t)%nat.
Proof.
  intros Ht Hu Hh. revert Ht. induction t as [|s v|p c IH|cs IH v]; intros Ht Hin; [set_solver|..].
  all: pose proof (stored_same_hash m _ u Ht Hu) as Hsame.
  all: cbn [thashes] in Hin.
  - apply elem_of_singleton in Hin as ->. specialize (Hsame (eq_sym Hh)).
    by rewrite (t_eq_thashes _ _ Hsame), (t_eq_height _ _ Hsame).
  - apply elem_of_union in Hin as [->%elem_of_singleton|Hin].
    + specialize (Hsame (eq_sym Hh)). by rewrite (t_eq_thashes _ _ Hsame), (t_eq_height _ _ Hsame).
    + destruct (IH (proj1 (stored_ext _ _ _ Ht)) Hin). cbn [thashes height]. split; [set_solver|lia].
  - apply elem_of_union in Hin as [->%elem_of_singleton|Hin].
    + specialize (Hsame (eq_sym Hh)). by rewrite (t_eq_thashes _ _ Hsame), (t_eq_height _ _ Hsame).
    + apply elem_of_child_hashes in Hin as (n & Hn & Hin).
      assert (Hok : nibble_ok n) by (by apply all_nibbles_iff).
      destruct (IH n (stored_child _ _ _ _ Hok Ht) Hin) as [Hsub Hle].
      pose proof (height_child cs v n Hok). split; [|lia].
      cbn [thashes]. intros x Hx. apply elem_of_union_r, elem_of_child_hashes. eauto.
Qed.

(** [L] holds every stored tree of height at most [d] whose root it holds. *)
Definition closed_upto m (d : nat) L : Prop :=
  ∀ u h, stored m u → thash u = Some h → h ∈ L → (height u ≤ d)%nat → thashes u ⊆ L.

Lemma closed_mono m d d' L : (d' ≤ d)%nat → closed_upto m d L → closed_upto m d' L.
Proof. intros Hd H u h Hu Hh Hin Hle. apply (H u h); try done. lia. Qed.

Lemma closed_union m d L t : stored m t → closed_upto m d L → closed_upto m d (L ∪ thashes t).
Proof.
  intros Ht H u h Hu Hh [Hin|Hin]%elem_of_union Hle.
  - transitivity L; [by eapply H|set_solver].
  - destruct (sub_thashes m t u h); try done. set_solver.
Qed.

Lemma closed_insert m d L t h :
  stored m t → thash t = Some h → (d < height t)%nat → closed_upto m d L →
  closed_upto m d ({[h]} ∪ L).
Proof.
  intros Ht Hth Hd H u h' Hu Hh [->%elem_of_singleton|Hin]%elem_of_union Hle.
  - assert (Heq : t_eq t u) by (apply (stored_same_hash m); congruence).
    rewrite (t_eq_height _ _ Heq) in Hd. lia.
  - transitivity L; [by eapply H|set_solver].
Qed.

(** ** Marking *)
Context {St : Type} `{MS : !MptStore St} `{SP : !MptStoreSpec St}.

Lemma for_children_cons {A} (f : A → option Hash32 → mres A) (a : A) cs (n : Z) (l : list Z) :
  for_children f a (some_children ((λ n, thash (cs n)) <$> n :: l)) =
  match thash (cs n) with
  | Some h => let? a := f a (Some h) in for_children f a (some_children ((λ n, thash (cs n)) <$> l))
  | None => for_children f a (some_children ((λ n, thash (cs n)) <$> l))
  end.
Proof. unfold some_children. cbn [fmap list_fmap omap list_omap]. by destruct (thash (cs n)). Qed.

Lemma get_node_stored (s : St) m t n :
  store_rep s m → in_store m t → tnode t = Some n → get_node s (node_hash n) = Ok (Some n).
Proof. intros Hs Hi Hn. rewrite (get_node_spec s m) by done. by rewrite (in_store_node _ _ _ Hi Hn). Qed.

Lemma collect_children fuel (s : St) m cs v d L (l : list Z) :
  (∀ n, n ∈ l → nibble_ok n) → stored m (TBranch cs v) →
  (∀ n, n ∈ l → height (cs n) ≤ d)%nat → closed_upto m d L →
  (∀ n L, nibble_ok n → cs n ≠ TEmpty → closed_upto m (height (cs n)) L →
     collect_reachable fuel s L (thash (cs n)) = Ok (L ∪ thashes (cs n))) →
  for_children (collect_reachable fuel s) L (some_children ((λ n, thash (cs n)) <$> l))
  = Ok (L ∪ ⋃ ((λ n, thashes (cs n)) <$> l)).
Proof.
  intros Hl Ht Hd Hc IH. revert L Hc. induction l as [|n l IHl]; intros L Hc.
  { simpl. by rewrite (right_id_L ∅ (∪)). }
  assert (Hn : nibble_ok n) by (apply Hl; left).
  assert (Hrest : ∀ L, closed_upto m d L →
    for_children (collect_reachable fuel s) L (some_children ((λ n, thash (cs n)) <$> l))
    = Ok (L ∪ ⋃ ((λ n, thashes (cs n)) <$> l))).
  { apply IHl; intros i Hi; [apply Hl|apply Hd]; by right. }
  rewrite for_children_cons, fmap_cons, union_list_cons.
  destruct (thash (cs n)) as [h|] eqn:Hh.
  - rewrite <-Hh, IH; [|done|by intros E; rewrite E in Hh|].
    2:{ apply (closed_mono m d); [|done]. apply Hd. left. }
    cbn [rbind]. rewrite Hrest.
    + by rewrite (assoc_L (∪)).
    + apply closed_union; [|done]. by eapply stored_child.
  - apply thash_empty in Hh as He. rewrite He. cbn [thashes].
    rewrite Hrest by done. by rewrite (left_id_L ∅ (∪)).
Qed.

Lemma collect_reachable_step fuel (s : St) m t n L :
  store_rep s m → in_store m t → tnode t = Some n →
  collect_reachable (S fuel) s L (thash t) =
  if decide (node_hash n ∈ L) then Ok L
  else for_children (collect_reachable fuel s) ({[node_hash n]} ∪ L) (node_children n).
Proof.
  intros Hs Hi Hn. rewrite thash_tnode, Hn. cbn [collect_reachable fmap option_fmap option_map].
  case_decide; [done|]. by rewrite (get_node_stored s m t n).
Qed.

(** Marking from [t] adds exactly the hashes of [t]. *)
Lemma collect_reachable_spec fuel (s : St) m t L :
  store_rep s m → stored m t → t ≠ TEmpty → (height t ≤ fuel)%nat → closed_upto m (height t) L →
  collect_reachable fuel s L (thash t) = Ok (L ∪ thashes t).
Proof.
  intros Hs. revert fuel L; induction t as [|sfx v|p c IH|cs IH v];
    intros [|fuel] L Ht Hne Hf Hc; try done; try (cbn [height] in Hf; lia).
  all: erewrite (collect_reachable_step fuel s m); [|done|apply Ht|done].
  all: case_decide as Hin;
    [f_equal; symmetry; rewrite (comm_L (∪)); apply (subseteq_union_1_L _ _); by eapply Hc|].
  - cbn [node_children for_children thashes]. f_equal. set_solver.
  - destruct (stored_ext _ _ _ Ht) as [Htc Hbr]. cbn [node_children for_children thashes].
    assert (thash c = Some (default zero32 (thash c))) as <- by (by destruct c).
    rewrite IH; [|done|by destruct c|cbn [height] in Hf; lia|].
    + cbn [rbind]. f_equal. set_solver.
    + eapply closed_insert; [exact Ht|done|cbn [height]; lia|].
      eapply closed_mono; [|exact Hc]. cbn [height]; lia.
  - cbn [node_children thashes]. unfold child_list at 2.
    set (d := max_list ((λ n, height (cs n)) <$> all_nibbles)).
    rewrite (collect_children fuel s m cs v d).
    + f_equal. set_solver.
    + intros n. apply all_nibbles_iff.
    + done.
    + intros n Hn%all_nibbles_iff. pose proof (height_child cs v n Hn). cbn [height] in *. lia.
    + eapply closed_insert; [exact Ht|done|cbn [height]; lia|].
      eapply closed_mono; [|exact Hc]. cbn [height]; lia.
    + intros n L' Hn Hnn Hc'. apply IH; [by eapply stored_child|done| |done].
      pose proof (height_child cs v n Hn). lia.
Qed.

(** ** Sweeping *)
(** Every stored tree whose root is live is live as a whole. *)
Definition live_closed m live : Prop :=
  ∀ u h, stored m u → thash u = Some h → h ∈ live → thashes u ⊆ live.
(** What is left of the store [m]: a stored tree whose root is gone has only live nodes left. *)
Definition swept m live m' : Prop :=
  m' ⊆ m ∧
  ∀ u h, stored m u → thash u = Some h → m' !! h = None →
    ∀ h', h' ∈ thashes u → h' ∈ live ∨ m' !! h' = None.
(** [m2] is [m1] without the dead nodes of [D]. *)
Definition removed (D live : gset Hash32) (m1 m2 : gmap Hash32 MptNode) : Prop :=
  ∀ h, m2 !! h = if decide (h ∈ D ∧ h ∉ live) then None else m1 !! h.

Lemma removed_union D1 D2 live m1 m2 m3 :
  removed D1 live m1 m2 → removed D2 live m2 m3 → removed (D1 ∪ D2) live m1 m3.
Proof. intros H1 H2 h. rewrite H2, H1. repeat case_decide; set_solver. Qed.

Lemma removed_swept m live m1 m2 t :
  stored m t → swept m live m1 → removed (thashes t) live m1 m2 → swept m live m2.
Proof.
  intros Ht [Hsub H1] Hr. split.
  - apply map_subseteq_spec. intros h n. rewrite Hr. case_decide; [done|].
    intros Hn. by eapply lookup_weaken.
  - intros u h Hu Hh Hn h' Hh'. rewrite Hr in Hn. rewrite (Hr h').
    destruct (decide (h' ∈ live)); [by left|right].
    destruct (decide (h ∈ thashes t ∧ h ∉ live)) as [[Hin _]|].
    + destruct (sub_thashes m t u h) as [Hs _]; try done.
      by rewrite decide_True by set_solver.
    + destruct (H1 u h Hu Hh Hn h' Hh') as [?|Hnone]; [done|]. rewrite Hnone. by case_decide.
Qed.

Lemma visit_all_cons {A} (f : A → option Hash32 → A * result unit MptError) (a : A) cs (n : Z) (l : list Z) :
  visit_all f a (some_children ((λ n, thash (cs n)) <$> n :: l)) =
  match thash (cs n) with
  | Some h =>
      match f a (Some h) with
      | (a, Ok _) => visit_all f a (some_children ((λ n, thash (cs n)) <$> l))
      | (a, Err e) => (a, Err e)
      end
  | None => visit_all f a (some_children ((λ n, thash (cs n)) <$> l))
  end.
Proof. unfold some_children. cbn [fmap list_fmap omap list_omap]. by destruct (thash (cs n)). Qed.

Definition sweeps m live fuel t : Prop :=
  ∀ (s : St) m1 (d : Z), store_rep s m1 → swept m live m1 →
  ∃ s2 m2 d2, delete_unreachable fuel live (s, d) (thash t) = ((s2, d2), Ok tt) ∧
    store_rep s2 m2 ∧ removed (thashes t) live m1 m2.

Lemma sweep_children fuel m live cs v (l : list Z) s m1 (d : Z) :
  (∀ n, n ∈ l → nibble_ok n) → stored m (TBranch cs v) →
  (∀ n, nibble_ok n → cs n ≠ TEmpty → sweeps m live fuel (cs n)) →
  store_rep s m1 → swept m live m1 →
  ∃ s2 m2 d2,
    visit_all (delete_unreachable fuel live) (s, d) (some_children ((λ n, thash (cs n)) <$> l))
      = ((s2, d2), Ok tt) ∧
    store_rep s2 m2 ∧ removed (⋃ ((λ n, thashes (cs n)) <$> l)) live m1 m2.
Proof.
  intros Hl Ht IH. revert s m1 d. induction l as [|n l IHl]; intros s m1 d Hs Hsw.
  { exists s, m1, d. split_and!; [done|done|]. intros h. by rewrite decide_False by set_solver. }
  assert (Hn : nibble_ok n) by (apply Hl; left).
  rewrite visit_all_cons, fmap_cons, union_list_cons.
  assert (Hl' : ∀ i, i ∈ l → nibble_ok i) by (intros i Hi; apply Hl; by right).
  destruct (thash (cs n)) as [h|] eqn:Hh.
  - rewrite <-Hh. destruct (IH n Hn) with s m1 d as (s1 & m2 & d1 & -> & Hs1 & Hr1);
      [by intros E; rewrite E in Hh|done|done|]. cbn [rbind].
    destruct (IHl Hl' s1 m2 d1 Hs1) as (s2 & m3 & d2 & Hf & Hs2 & Hr2).
    { eapply removed_swept; [|exact Hsw|exact Hr1]. by eapply stored_child. }
    exists s2, m3, d2. split_and!; [done|done|]. by eapply removed_union.
  - apply thash_empty in Hh as ->. destruct (IHl Hl' s m1 d Hs Hsw) as (s2 & m2 & d2 & Hf & Hs2 & Hr2).
    exists s2, m2, d2. split_and!; [done|done|]. cbn [thashes]. by rewrite (left_id_L ∅ (∪)).
Qed.

(** The last step: the node itself goes when its children have been swept. *)
Lemma removed_root (D live : gset Hash32) h m1 m2 :
  h ∉ live → removed D live m1 m2 → removed ({[h]} ∪ D) live m1 (delete h m2).
Proof.
  intros Hl Hr h'. destruct (decide (h' = h)) as [->|].
  - rewrite lookup_delete_eq, decide_True by set_solver. done.
  - rewrite lookup_delete_ne, Hr by done. repeat case_decide; set_solver.
Qed.

Lemma delete_unreachable_step fuel live (s : St) (d : Z) m m1 t n :
  store_rep s m1 → m1 ⊆ m → in_store m t → tnode t = Some n →
  delete_unreachable (S fuel) live (s, d) (thash t) =
  if decide (node_hash n ∈ live) then ((s, d), Ok tt)
  else match m1 !! node_hash n with
       | None => ((s, d), Ok tt)
       | Some _ =>
           match visit_all (delete_unreachable fuel live) (s, d) (node_children n) with
           | (st, Err e) => (st, Err e)
           | (st, Ok _) =>
               match delete_node st.1 (node_hash n) with
               | Err e => (st, Err e)
               | Ok s => ((s, st.2 + 1), Ok tt)
               end
           end
       end.
Proof.
  intros Hs Hsub Hi Hn. rewrite thash_tnode, Hn.
  cbn [delete_unreachable fmap option_fmap option_map fst]. case_decide; [done|].
  rewrite (get_node_spec s m1 _ Hs). cbn [rbind].
  destruct (m1 !! node_hash n) as [n'|] eqn:E; [|done].
  apply (lookup_weaken _ m) in E; [|done]. rewrite (in_store_node _ _ _ Hi Hn) in E. by simplify_eq.
Qed.

Lemma sweeps_of_children fuel m live t n D :
  live_closed m live → stored m t → tnode t = Some n → thashes t = {[node_hash n]} ∪ D →
  (∀ s m1 (d : Z), store_rep s m1 → swept m live m1 →
   ∃ s2 m2 d2, visit_all (delete_unreachable fuel live) (s, d) (node_children n) = ((s2, d2), Ok tt) ∧
     store_rep s2 m2 ∧ removed D live m1 m2) →
  sweeps m live (S fuel) t.
Proof.
  intros Hlive Ht Hn HD Hch s m1 d Hs Hsw.
  assert (Hth : thash t = Some (node_hash n)) by (by rewrite thash_tnode, Hn).
  rewrite (delete_unreachable_step fuel live s d m m1 t n Hs (proj1 Hsw) (proj1 Ht) Hn).
  case_decide as Hin.
  { exists s, m1, d. split_and!; [done|done|]. intros h.
    rewrite decide_False; [done|]. intros [Hd Hl]. by apply Hl, (Hlive _ _ Ht Hth Hin). }
  destruct (m1 !! node_hash n) as [n'|] eqn:Hlk.
  - destruct (Hch s m1 d Hs Hsw) as (s2 & m2 & d2 & -> & Hs2 & Hr). cbn [rbind fst snd].
    destruct (delete_node_spec s2 m2 (node_hash n) Hs2) as (s3 & -> & Hs3). cbn [rbind].
    exists s3, (delete (node_hash n) m2), (d2 + 1). split_and!; [done|done|].
    rewrite HD. by apply removed_root.
  - exists s, m1, d. split_and!; [done|done|]. intros h. case_decide as Hd; [|done].
    destruct (proj2 Hsw _ _ Ht Hth Hlk h (proj1 Hd)); [by destruct Hd|done].
Qed.

(** Sweeping from [t] removes exactly the hashes of [t] that are not live. *)
Lemma delete_unreachable_spec fuel m live t :
  live_closed m live → stored m t → t ≠ TEmpty → (height t ≤ fuel)%nat → sweeps m live fuel t.
Proof.
  intros Hlive. revert fuel; induction t as [|sfx v|p c IH|cs IH v];
    intros [|fuel] Ht Hne Hf; try done; try (cbn [height] in Hf; lia).
  - eapply (sweeps_of_children _ _ _ _ _ ∅); [done|done|done| |].
    { cbn [thashes]. by rewrite (right_id_L ∅ (∪)). }
    intros s m1 d Hs Hsw. exists s, m1, d. split_and!; [done|done|].
    intros h. by rewrite decide_False by set_solver.
  - destruct (stored_ext _ _ _ Ht) as [Htc Hbr].
    eapply sweeps_of_children; [done|done|done|done|]. intros s m1 d Hs Hsw.
    cbn [node_children visit_all].
    assert (thash c = Some (default zero32 (thash c))) as <- by (by destruct c).
    destruct (IH fuel) with s m1 d as (s2 & m2 & d2 & -> & Hs2 & Hr);
      [done|by destruct c|cbn [height] in Hf; lia|done|done|]. by exists s2, m2, d2.
  - eapply sweeps_of_children; [done|done|done|done|]. intros s m1 d Hs Hsw.
    apply (sweep_children fuel m live cs v); [intros n; apply all_nibbles_iff|done| |done|done].
    intros n Hn Hnn. apply IH; [by eapply stored_child|done|].
    pose proof (height_child cs v n Hn). lia.
Qed.

(** ** The whole collection *)
Lemma height_bound t d :
  canon t → (∀ k, has_key t k → (length k ≤ d)%nat) → (height t ≤ S d)%nat.
Proof.
  revert d; induction t as [|sfx v|p c IH|cs IH v]; intros d Hc Hk; cbn [height]; [lia|lia| |].
  - destruct Hc as (Hp0 & Hp & Hbr & Hc). apply le_n_S.
    destruct (canon_has_key c Hc) as [[k Hkk] _]; [by destruct c|].
    destruct d as [|d].
    { pose proof (Hk _ (has_key_ext p c k Hp Hkk)) as Hl. rewrite length_app in Hl.
      destruct p; [done|simpl in Hl; lia]. }
    apply IH; [done|]. intros k' Hk'. pose proof (Hk _ (has_key_ext p c k' Hp Hk')) as Hl.
    rewrite length_app in Hl. destruct p; [done|simpl in Hl; lia].
  - apply (height_branch_le cs v). intros n Hn.
    destruct (cs n) as [| | |] eqn:E; [cbn [height]; lia|..]; rewrite <-E;
      (assert (cs n ≠ TEmpty) as Hne by (by rewrite E));
      (destruct (canon_has_key (cs n)) as [[k Hkk] _]; [by apply Hc|done|]);
      pose proof (Hk _ (has_key_branch cs v n k Hn Hkk)) as Hl; simpl in Hl;
      (destruct d as [|d]; [lia|]);
      (apply IH; [by apply Hc|]); intros k' Hk';
      pose proof (Hk _ (has_key_branch cs v n k' Hn Hk')) as Hl'; simpl in Hl'; lia.
Qed.

Lemma trie_inv_height G (T : MerklePatriciaTrie St) t M :
  trie_inv G T t M → (height t ≤ key_fuel)%nat.
Proof.
  intros HI. transitivity (S 64); [|unfold key_fuel; lia].
  apply height_bound; [apply HI|]. intros k Hk.
  destruct (ti_keys _ _ _ _ HI k Hk) as (key & [Hl _] & ->).
  rewrite length_key_to_nibbles, Hl. lia.
Qed.

Lemma in_store_agree m m2 t :
  in_store m t → (∀ h, h ∈ thashes t → m2 !! h = m !! h) → in_store m2 t.
Proof.
  unfold in_store. induction t as [|sfx v|p c IH|cs IH v]; cbn [nodes_in thashes].
  - done.
  - intros H Ha. rewrite Ha by set_solver. done.
  - intros [H Hc] Ha. split; [rewrite Ha by set_solver; done|]. apply IH; [done|set_solver].
  - intros [H Hc] Ha. split; [rewrite Ha by set_solver; done|]. intros n Hn.
    apply IH; [by apply Hc|]. intros h Hh. apply Ha, elem_of_union_r, elem_of_child_hashes.
    exists n. split; [by apply all_nibbles_iff|done].
Qed.

(** *** A sweep from any root *)
(** Whatever the swept root leads to, and wherever the sweep fails, it deletes no live node. *)
Definition spares (live : gset Hash32) (m m' : gmap Hash32 MptNode) : Prop :=
  m' ⊆ m ∧ ∀ h, h ∈ live → m' !! h = m !! h.

Lemma spares_trans live m1 m2 m3 : spares live m1 m2 → spares live m2 m3 → spares live m1 m3.
Proof. intros [? H1] [? H2]. split; [by etrans|]. intros h Hh. by rewrite H2, H1. Qed.

Definition left_spared live m (st : St * Z) : Prop := ∃ m', store_rep st.1 m' ∧ spares live m m'.
Lemma left_spared_refl live m (st : St * Z) : store_rep st.1 m → left_spared live m st.
Proof. intros Hs. exists m. by split; [|split]. Qed.
Lemma left_spared_trans live m m1 (st : St * Z) : spares live m m1 → left_spared live m1 st → left_spared live m st.
Proof. intros H1 (m2 & Hs & H2). exists m2. split; [done|by eapply spares_trans]. Qed.

Lemma visit_all_spares (f : St * Z → option Hash32 → (St * Z) * result unit MptError) live hs st m :
  (∀ r st m, store_rep st.1 m → left_spared live m (f st r).1) →
  store_rep st.1 m → left_spared live m (visit_all f st hs).1.
Proof.
  intros Hf. revert st m; induction hs as [|h hs IH]; intros st m Hs; cbn [visit_all]; [by apply left_spared_refl|].
  destruct (Hf (Some h) st m Hs) as (m1 & Hs1 & Hm1). destruct (f st (Some h)) as [st1 [[]|e]]; cbn [fst] in *.
  - eapply left_spared_trans; [exact Hm1|by apply IH].
  - by exists m1.
Qed.

Lemma delete_unreachable_spares fuel live r (st : St * Z) m :
  store_rep st.1 m → left_spared live m (delete_unreachable fuel live st r).1.
Proof.
  revert r st m; induction fuel as [|fuel IH]; intros r st m Hs; cbn [delete_unreachable];
    [by apply left_spared_refl|].
  destruct r as [h|]; [|by apply left_spared_refl]. case_decide as Hh; [by apply left_spared_refl|].
  destruct (get_node st.1 h) as [[node|]|e]; try by apply left_spared_refl.
  destruct (visit_all_spares (delete_unreachable fuel live) live (node_children node) st m IH Hs) as (m1 & Hs1 & Hm1).
  destruct (visit_all _ _ _) as [st1 [[]|e]]; cbn [fst] in *; [|by exists m1].
  destruct (delete_node_spec st1.1 m1 h Hs1) as (s3 & -> & Hs3). exists (delete h m1). split; [done|].
  apply (spares_trans _ _ _ _ Hm1). split; [apply delete_subseteq|].
  intros h' Hh'. apply lookup_delete_ne. congruence.
Qed.

(** A collection, even one that fails, keeps the current trie, whatever the old root is. *)
Lemma gc_since_safe G (T : MerklePatriciaTrie St) t M old_root :
  trie_inv G T t M → let T' := (gc_since T old_root).1 in trie_inv G T' t M ∧ mroot T' = mroot T.
Proof.
  intros HI. unfold gc_since. destruct (mroot T) as [r|] eqn:Hroot; [|done].
  pose proof (ti_root _ _ _ _ HI) as Hr. rewrite Hroot in Hr.
  destruct (ti_store _ _ _ _ HI) as (m & [Hs Hm] & Hi).
  assert (Ht : stored m t) by (split; [done|apply HI]).
  rewrite Hr, (collect_reachable_spec key_fuel (store T) m t ∅ Hs Ht);
    [|by intros ->|by eapply trie_inv_height|by intros u h _ _ ?%not_elem_of_empty].
  rewrite (left_id_L ∅ (∪)).
  destruct (delete_unreachable_spares key_fuel (thashes t) (Some old_root) (store T, 0) m Hs)
    as (m2 & Hs2 & Hsub & Hl).
  destruct (delete_unreachable _ _ _ _) as [[s2 d2] q]. cbn [fst mroot] in *.
  split; [|by rewrite <-Hr]. destruct HI. constructor; cbn [store mroot]; rewrite <-?Hroot, <-?Hr; try done.
  exists m2. split; [|by apply (in_store_agree m)].
  split; [done|]. intros h n Hn. apply Hm. by eapply lookup_weaken.
Qed.

(** C21. Garbage collection against an old root succeeds and leaves the current trie, its
    root and its map.  When the current trie is not empty it removes exactly the nodes that
    the old root leads to and the current one does not: every other node of the store stays
    as it was.  (A node that the old root shares only with a third one is thus removed.)  When
    the current trie is empty nothing is collected at all. *)
Theorem gc_since_correct G (T : MerklePatriciaTrie St) t M told Mold old_root :
  trie_inv G T t M → trie_inv G (with_root (store T) old_root) told Mold →
  ∃ T' d, gc_since T old_root = (T', Ok d) ∧ trie_inv G T' t M ∧ mroot T' = mroot T ∧
    (mroot T = None → T' = T ∧ d = 0) ∧
    (mroot T ≠ None → ∀ h, get_node (store T') h =
       if decide (h ∈ thashes told ∧ h ∉ thashes t) then Ok None else get_node (store T) h).
Proof.
  intros HI HO. unfold gc_since. destruct (mroot T) as [r|] eqn:Hroot; [|exists T, 0; split_and!; done].
  pose proof (ti_root _ _ _ _ HI) as Hr. rewrite Hroot in Hr.
  pose proof (ti_root _ _ _ _ HO) as Hro. cbn [mroot with_root] in Hro.
  destruct (ti_store _ _ _ _ HI) as (m & [Hs Hm] & Hi), (ti_store _ _ _ _ HO) as (m' & [Hs' _] & Hi').
  assert (m' = m) as ->.
  { by apply (store_rep_unique (store T)). }
  assert (Ht : stored m t) by (split; [done|apply HI]).
  assert (Hto : stored m told) by (split; [done|apply HO]).
  rewrite Hr, (collect_reachable_spec key_fuel (store T) m t ∅ Hs Ht);
    [|by intros ->|by eapply trie_inv_height|by intros u h _ _ ?%not_elem_of_empty].
  rewrite (left_id_L ∅ (∪)), Hro.
  destruct (delete_unreachable_spec key_fuel m (thashes t) told) with (store T) m 0
    as (s2 & m2 & d2 & -> & Hs2 & Hrm); [|done|by intros ->|by eapply trie_inv_height|done| |].
  { intros u h Hu Hh Hin. by apply (sub_thashes m t u h Ht Hu Hh Hin). }
  { split; [done|]. intros u h [Hiu _] Hh Hn. rewrite thash_tnode in Hh.
    destruct (tnode u) as [n|] eqn:E; [|done]. injection Hh as <-.
    by rewrite (in_store_node _ _ _ Hiu E) in Hn. }
  eexists _, _. split; [done|]. split; [|split; [done|split; [by rewrite <-Hr|]]].
  - destruct HI. constructor; cbn [store mroot]; try done.
    exists m2. split.
    + split; [done|]. intros h n. rewrite Hrm. case_decide; [done|]. apply Hm.
    + apply (in_store_agree m); [done|]. intros h Hh. rewrite Hrm.
      by rewrite decide_False by tauto.
  - intros _ h. cbn [store]. rewrite (get_node_spec _ m2), (get_node_spec _ m), Hrm by done. by case_decide.
Qed.
End gc.
