(* ===== verification/MptProof.v ===== *)
(** Inclusion and exclusion proofs: what [prove] returns is accepted by [verify_proof]. *)
From S2P Require Import Prelude Floats Types Mpt MptTree MptFacts.
Open Scope Z_scope.

#[local] Opaque all_nibbles.
#[local] Arguments node_hash : simpl never.
#[local] Arguments child_list : simpl never.
#[local] Arguments branch_sibling_hash : simpl never.

Section proofs.
Context {HA : Hashes} {NC : NodeCodec}.
Implicit Types (t : tree).

(** ** Path and siblings of a key in a tree *)
Fixpoint p_path t (k : bytes) : list PathStep :=
  match t with
  | TEmpty => []
  | TLeaf _ _ => [PLeaf]
  | TExt p c =>
      PExtension (len p mod 256) :: if starts_with k p then p_path c (drop (length p) k) else []
  | TBranch cs _ =>
      match k with
      | [] => [PBranch 16]
      | n :: k => PBranch (n mod 256) :: p_path (cs n) k
      end
  end.

Fixpoint p_sibs t (k : bytes) : list Hash32 :=
  match t with
  | TEmpty => []
  | TLeaf sfx v => if decide (sfx = k) then [] else [node_hash (Leaf sfx v)]
  | TExt p c =>
      if starts_with k p then p_sibs c (drop (length p) k)
      else [node_hash (Extension p (default zero32 (thash c)))]
  | TBranch cs v =>
      match k with
      | [] => [xor_all zero32 (some_children (child_list cs))]
      | n :: k => branch_sibling_hash (Branch (child_list cs) v) n :: p_sibs (cs n) k
      end
  end.

(** ** The exclusive or of the children *)
Lemma xor_bytes_right_comm a x y : xor_bytes (xor_bytes a x) y = xor_bytes (xor_bytes a y) x.
Proof. by rewrite <-!xor_bytes_assoc, (xor_bytes_comm x y). Qed.

Lemma xor_all_perm acc hs hs' : hs ≡ₚ hs' → xor_all acc hs = xor_all acc hs'.
Proof.
  intros H. revert acc; induction H as [|h hs hs' _ IH|x y hs|hs1 hs2 hs3 _ IH1 _ IH2]; intros acc; simpl.
  - done.
  - by apply IH.
  - by rewrite xor_bytes_right_comm.
  - by rewrite IH1.
Qed.

Lemma xor_all_cons acc h hs : xor_all acc (h :: hs) = xor_bytes (xor_all acc hs) h.
Proof.
  rewrite (xor_all_perm acc (h :: hs) (hs ++ [h])) by (by rewrite Permutation_app_comm).
  unfold xor_all. by rewrite foldl_app.
Qed.

Lemma some_children_without l i (h : Hash32) :
  l !! i = Some (Some h) → some_children l ≡ₚ h :: some_children (<[i := None]> l).
Proof.
  intros Hl. rewrite <-(take_drop_middle _ _ _ Hl) at 1.
  assert (Hi : (i < length l)%nat) by (by apply lookup_lt_Some in Hl).
  rewrite insert_take_drop by done. unfold some_children. rewrite !omap_app. simpl.
  by rewrite Permutation_middle.
Qed.

(** A branch's hash from a child and the proof's sibling. *)
Lemma branch_hash_of_child cs v n h :
  nibble_ok n → thash (cs n) = Some h →
  branch_digest (xor_bytes (branch_sibling_hash (Branch (child_list cs) v) n) h)
  = node_hash (Branch (child_list cs) v).
Proof.
  intros Hn Hh. unfold node_hash, branch_sibling_hash, set_child. f_equal.
  rewrite (xor_all_perm _ (some_children (child_list cs))
    (h :: some_children (<[Z.to_nat n := None]> (child_list cs)))).
  2:{ apply some_children_without. pose proof (child_at_list cs n Hn) as Hc.
      unfold child_at in Hc. rewrite Hh in Hc. by apply ok_or_Ok in Hc. }
  rewrite xor_all_cons. destruct v; simpl; [|done]. by rewrite xor_bytes_right_comm.
Qed.

Lemma branch_hash_no_child cs v n :
  nibble_ok n → cs n = TEmpty →
  branch_digest (branch_sibling_hash (Branch (child_list cs) v) n)
  = node_hash (Branch (child_list cs) v).
Proof.
  intros Hn He. unfold node_hash, branch_sibling_hash. f_equal. f_equal. f_equal. f_equal.
  pose proof (child_at_list cs n Hn) as Hc. rewrite He in Hc. apply ok_or_Ok in Hc.
  by apply list_insert_id.
Qed.

(** ** Lengths along a path *)
Lemma steps_len_app p q : steps_len (p ++ q) = steps_len p + steps_len q.
Proof.
  unfold steps_len. rewrite foldl_app.
  assert (∀ z l, foldl (λ acc st, acc + step_len st) z l
                 = z + foldl (λ acc st, acc + step_len st) 0 l) as Hz.
  { intros z l. revert z; induction l as [|s l IH]; intros z; simpl; [lia|].
    rewrite IH. rewrite (IH (0 + step_len s)). lia. }
  by rewrite Hz.
Qed.

Lemma steps_before_app st p q : st ∉ p → steps_before st (p ++ st :: q) = p.
Proof.
  induction p as [|s p IH]; simpl; intros Hn; [by rewrite decide_True|].
  rewrite decide_False by (intros ->; apply Hn; left). f_equal. apply IH. set_solver.
Qed.

(** The walk over a longer path. *)
Lemma drop_reverse_cons {A} (x : A) (l : list A) :
  l ≠ [] → drop 1 (reverse (x :: l)) = drop 1 (reverse l) ++ [x].
Proof.
  intros Hl. rewrite reverse_cons, drop_app_le; [done|].
  rewrite length_reverse. destruct l; [done|simpl; lia].
Qed.

Lemma p_path_nonempty t k : t ≠ TEmpty → p_path t k ≠ [].
Proof. destruct t; simpl; [done|done|done|]. by destruct k. Qed.

Lemma last_app_nonempty {A} (l1 l2 : list A) : l2 ≠ [] → last (l1 ++ l2) = last l2.
Proof.
  intros H. destruct (exists_last H) as (l & x & ->). by rewrite app_assoc, !last_snoc.
Qed.

Definition is_extension_step (st : PathStep) : Prop :=
  match st with PExtension _ => True | _ => False end.
#[export] Instance is_extension_step_dec st : Decision (is_extension_step st).
Proof. destruct st; simpl; apply _. Defined.

(** No two extension steps of a path are equal. *)
Definition distinct_extensions (p : list PathStep) : Prop := NoDup (filter is_extension_step p).

Lemma distinct_extension_before n p q :
  distinct_extensions (p ++ PExtension n :: q) → PExtension n ∉ p.
Proof.
  unfold distinct_extensions. rewrite filter_app, filter_cons_True by done.
  intros (_ & Hd & _)%NoDup_app Hin. apply (Hd (PExtension n)); [|left].
  by apply list_elem_of_filter.
Qed.

(** ** The walk recomputes the hash of the tree *)
Definition walk (K : bytes) (pr : MerkleProof) (steps : list PathStep) (rev_sibs : list Hash32) :=
  foldl (walk_step K (path pr)) (terminal_hash K pr rev_sibs) (drop 1 (reverse steps)).

Lemma walk_leaf sfx v k pre Fpre pr rest :
  path pr = Fpre ++ [PLeaf] → steps_len Fpre = len pre → value pr = t_get (TLeaf sfx v) k →
  walk (pre ++ k) pr [PLeaf] (reverse (p_sibs (TLeaf sfx v) k) ++ rest)
  = Some (node_hash (Leaf sfx v), rest).
Proof.
  intros HF Hl Hv. unfold walk. cbn [p_sibs]. simpl. unfold terminal_hash. rewrite HF, last_snoc, Hv.
  simpl. case_decide as Hd; simpl; [|done].
  rewrite steps_len_app, Hl. change (steps_len [PLeaf]) with 0. rewrite Z.add_0_r.
  rewrite (proj2 (Z.ltb_ge _ _)) by (unfold len; rewrite length_app; lia).
  unfold len. by rewrite Nat2Z.id, drop_app_length, Hd.
Qed.

(** A longer path takes one more step. *)
Lemma walk_cons K pr st steps ss :
  steps ≠ [] → walk K pr (st :: steps) ss = walk_step K (path pr) (walk K pr steps ss) st.
Proof. intros Hne. unfold walk. by rewrite drop_reverse_cons, foldl_app. Qed.

Lemma walk_ext_step p c h r pre Fpre q pr rest :
  path pr = Fpre ++ PExtension (len p) :: q → steps_len Fpre = len pre →
  distinct_extensions (path pr) → thash c = Some h →
  walk_step (pre ++ p ++ r) (path pr) (Some (h, rest)) (PExtension (len p))
  = Some (node_hash (Extension p h), rest).
Proof.
  intros HF Hl Hd Hh. cbn [walk_step]. rewrite HF in Hd |- *. rewrite steps_before_app, Hl by (by eapply distinct_extension_before).
  rewrite (proj2 (Z.ltb_ge _ _)) by (unfold len; rewrite !length_app; lia).
  unfold len. by rewrite !Nat2Z.id, drop_app_length, take_app_length.
Qed.

(** The key ends at a branch, or leaves the tree there. *)
Lemma walk_branch_end cs v k pre Fpre pr rest :
  match k with [] => True | n :: _ => nibble_ok n ∧ cs n = TEmpty end →
  path pr = Fpre ++ p_path (TBranch cs v) k → value pr = t_get (TBranch cs v) k →
  walk (pre ++ k) pr (p_path (TBranch cs v) k) (reverse (p_sibs (TBranch cs v) k) ++ rest)
  = Some (node_hash (Branch (child_list cs) v), rest).
Proof.
  destruct k as [|n k]; [intros _|intros [Hn He]; assert (Hn256 : n mod 256 = n) by (apply Z.mod_small; unfold nibble_ok in Hn; lia)];
    cbn [p_path p_sibs]; intros HF Hv.
  - unfold walk. simpl. unfold terminal_hash. by rewrite HF, last_snoc, Hv.
  - rewrite Hn256, He in *. cbn [p_path p_sibs] in *. fold (child_list cs). unfold walk. simpl. unfold terminal_hash.
    rewrite HF, last_snoc, Hv. simpl. rewrite He.
    rewrite (proj2 (Z.eqb_neq _ _)) by (unfold nibble_ok in Hn; lia). simpl.
    by rewrite (branch_hash_no_child cs v n).
Qed.

Lemma walk_correct t k pre Fpre pr rest :
  canon t → t ≠ TEmpty → nibbles_ok k → (length (pre ++ k) < 256)%nat →
  path pr = Fpre ++ p_path t k → steps_len Fpre = len pre → value pr = t_get t k →
  distinct_extensions (path pr) →
  (λ h, (h, rest)) <$> thash t = walk (pre ++ k) pr (p_path t k) (reverse (p_sibs t k) ++ rest).
Proof.
  revert k pre Fpre rest; induction t as [|sfx v|p c IH|cs IH v];
    intros k pre Fpre rest Hc Hne Hk Hlen HF Hl Hv Hd; [done|..].
  - symmetry. by apply (walk_leaf sfx v k pre Fpre).
  - destruct Hc as (Hp0 & Hp & Hbr & Hc). cbn [thash p_path p_sibs fmap option_fmap option_map] in *.
    destruct (starts_with k p) eqn:Hs.
    + apply starts_with_iff in Hs as [r ->]. rewrite drop_app_length in *.
      apply nibbles_ok_app in Hk as [_ Hr].
      assert (Hp256 : len p mod 256 = len p).
      { apply Z.mod_small. unfold len. rewrite !length_app in Hlen. lia. }
      rewrite Hp256 in *. assert (Hcne : c ≠ TEmpty) by (by destruct c).
      rewrite walk_cons by (by apply p_path_nonempty). rewrite (app_assoc pre).
      rewrite <-(IH r (pre ++ p) (Fpre ++ [PExtension (len p)]) rest); try done.
      * destruct (thash c) as [h|] eqn:Hh; [|by apply thash_empty in Hh]. rewrite <-app_assoc. symmetry.
        by eapply walk_ext_step.
      * by rewrite <-app_assoc.
      * by rewrite HF, <-app_assoc.
      * rewrite steps_len_app, Hl. unfold len, steps_len. simpl. rewrite length_app. lia.
      * rewrite Hv. simpl. by rewrite starts_with_app, drop_app_length.
    + unfold walk. simpl. unfold terminal_hash. rewrite HF, last_snoc, Hv. simpl. by rewrite Hs.
  - destruct Hc as [Hcs H2]. destruct k as [|n k]; [by rewrite (walk_branch_end cs v [] pre Fpre)|].
    apply Forall_cons in Hk as [Hn Hk].
    destruct (thash (cs n)) as [h|] eqn:Hh; [|apply thash_empty in Hh; by rewrite (walk_branch_end cs v (n :: k) pre Fpre)].
    assert (Hcne : cs n ≠ TEmpty) by (intros E; by rewrite E in Hh). cbn [p_path p_sibs thash] in *.
    assert (Hn256 : n mod 256 = n) by (apply Z.mod_small; unfold nibble_ok in Hn; lia).
    rewrite Hn256 in *. fold (child_list cs). rewrite reverse_cons, <-app_assoc.
    rewrite walk_cons by (by apply p_path_nonempty). rewrite (app_assoc pre [n] k : pre ++ n :: k = _).
    rewrite <-(IH n k (pre ++ [n]) (Fpre ++ [PBranch n])); try done; [|by apply Hcs|by rewrite <-app_assoc|by rewrite HF, <-app_assoc|].
    + rewrite Hh. cbn [fmap option_fmap option_map walk_step app]. by rewrite (branch_hash_of_child cs v n h).
    + rewrite steps_len_app, Hl. unfold len, steps_len. simpl.
      rewrite (proj2 (Z.ltb_lt _ _)), length_app by (unfold nibble_ok in Hn; lia). simpl. lia.
Qed.

(** ** What the program computes *)
Context {St : Type} `{MS : !MptStore St} `{SP : !MptStoreSpec St}.

Lemma get_with_proof_spec G fuel (s : St) m t k sibs path :
  store_inv G s m → in_store m t → canon t → nibbles_ok k → (length k < fuel)%nat →
  get_with_proof fuel s (thash t) k sibs path
  = Ok (t_get t k, sibs ++ p_sibs t k, path ++ p_path t k).
Proof.
  intros Hs. revert fuel k sibs path; induction t as [|sfx v|p c IH|cs IH v];
    intros [|fuel] k sibs path Hi Hc Hk Hf; try lia; cbn [get_with_proof thash p_sibs p_path];
    [by rewrite !app_nil_r| | |];
    rewrite (load_node_spec G s m _ _ _ Hs Hi) by done; cbn [rbind].
  - cbn [t_get]. case_bool_decide; [rewrite !decide_True by done; by rewrite app_nil_r|].
    by rewrite !decide_False.
  - destruct Hc as (Hp0 & Hp & Hbr & Hc). cbn [t_get].
    destruct (starts_with k p) eqn:Hsw; [|done].
    apply starts_with_iff in Hsw as [r ->]. rewrite drop_app_length.
    rewrite length_app in Hf. apply nibbles_ok_app in Hk as [_ Hr].
    assert (thash c = Some (default zero32 (thash c))) as <- by (by destruct c).
    rewrite IH; [by rewrite <-app_assoc|apply Hi|done|done|]. destruct p; [done|simpl in Hf; lia].
  - destruct k as [|n k]; [done|]. apply Forall_cons in Hk as [Hn Hk].
    fold (child_list cs). rewrite child_at_list by done. cbn [rbind t_get].
    rewrite IH; [by rewrite <-!app_assoc|by apply Hi|by apply Hc|done|simpl in Hf; lia].
Qed.

Lemma prove_inv G (T : MerklePatriciaTrie St) t M key :
  trie_inv G T t M → is_key key →
  ∃ pr, prove T key = Ok pr ∧ value pr = M !! key ∧ root pr = default zero32 (mroot T) ∧
    (distinct_extensions (path pr) → verify_proof pr = true).
Proof.
  intros HI Hkey. destruct (ti_store _ _ _ _ HI) as (m & Hs & Hi). unfold prove.
  pose proof (key_to_nibbles_ok key (proj2 Hkey)) as Hnib.
  rewrite (ti_root _ _ _ _ HI), (get_with_proof_spec G _ _ m t); [|done..|apply HI|done|by apply is_key_fuel].
  cbn [rbind app]. eexists. split_and!; [done|apply (ti_map _ _ _ _ HI _ Hkey)|done|].
  intros Hd. unfold verify_proof. cbn [path value root trie_key siblings].
  destruct (thash t) as [h|] eqn:Hh.
  - assert (Hne : t ≠ TEmpty) by (intros ->; done).
    destruct (p_path t (key_to_nibbles key)) as [|st p] eqn:Hp; [by apply p_path_nonempty in Hp|].
    rewrite <-Hp. pose proof (walk_correct t (key_to_nibbles key) [] []
      (MkProof key (t_get t (key_to_nibbles key)) h (p_sibs t (key_to_nibbles key))
         (p_path t (key_to_nibbles key))) []) as Hw.
    rewrite Hh, app_nil_r in Hw. unfold walk in Hw. cbn [app path] in Hw.
    change (default zero32 (Some h)) with h. rewrite <-Hw; [|apply HI|done|done| |done|done|done|by cbn [path]; rewrite Hp].
    + cbn [fmap option_fmap option_map]. by apply bool_decide_eq_true.
    + rewrite length_key_to_nibbles, (proj1 Hkey). lia.
  - apply thash_empty in Hh as ->. done.
Qed.

(** C20. [prove] succeeds on every key, returns the value stored under it (or its
    absence), and [verify_proof] accepts the proof, whenever the extension steps of its
    path have pairwise different lengths. *)
Theorem prove_verifies G (T : MerklePatriciaTrie St) t M key :
  trie_inv G T t M → is_key key →
  ∃ pr, prove T key = Ok pr ∧ value pr = M !! key ∧ root pr = default zero32 (mroot T) ∧
    (distinct_extensions (path pr) → verify_proof pr = true).
Proof. apply prove_inv. Qed.

(** ** What a proof does not bind *)
Definition relabel (key : bytes) (pr : MerkleProof) : MerkleProof :=
  MkProof key (value pr) (root pr) (siblings pr) (path pr).

Lemma walk_step_branches K K' F st ns :
  foldl (walk_step K F) st (PBranch <$> ns) = foldl (walk_step K' F) st (PBranch <$> ns).
Proof. revert st; induction ns as [|n ns IH]; intros st; [done|]. simpl. apply IH. Qed.

(** The branch steps of a proof do not bind the nibbles they stand for: a proof
    through branches to a leaf is accepted for every key with the same nibbles after
    the branches, whatever its nibbles at the branches are. *)
Theorem verify_proof_ignores_branch_nibbles pr ns key :
  path pr = (PBranch <$> ns) ++ [PLeaf] → Forall nibble_ok ns →
  length key = length (trie_key pr) →
  drop (length ns) (key_to_nibbles key) = drop (length ns) (key_to_nibbles (trie_key pr)) →
  verify_proof (relabel key pr) = verify_proof pr.
Proof.
  intros Hp Hns Hlen Hdrop. unfold verify_proof. cbn [path relabel trie_key siblings root].
  assert (Hsteps : steps_len (path pr) = len ns).
  { rewrite Hp, steps_len_app. change (steps_len [PLeaf]) with 0. clear Hp Hdrop.
    induction Hns as [|n ns Hn _ IH]; [done|].
    change (PBranch <$> n :: ns) with ([PBranch n] ++ (PBranch <$> ns)).
    rewrite steps_len_app. unfold len, steps_len in *. simpl in *.
    rewrite (proj2 (Z.ltb_lt _ _)) by apply Hn. lia. }
  assert (Hlk : len (key_to_nibbles key) = len (key_to_nibbles (trie_key pr))).
  { unfold len. by rewrite !length_key_to_nibbles, Hlen. }
  assert (Hterm : terminal_hash (key_to_nibbles key) (relabel key pr) (reverse (siblings pr))
                  = terminal_hash (key_to_nibbles (trie_key pr)) pr (reverse (siblings pr))).
  { unfold terminal_hash. cbn [path relabel value]. rewrite Hsteps, Hlk, Hp, last_snoc.
    unfold len. by rewrite Nat2Z.id, Hdrop. }
  rewrite Hterm, Hp. destruct ((PBranch <$> ns) ++ [PLeaf]) eqn:E; [done|]. rewrite <-E.
  rewrite reverse_app. cbn [reverse]. change (reverse [PLeaf]) with [PLeaf]. cbn [app drop].
  rewrite skipn_O, <-fmap_reverse. by rewrite (walk_step_branches _ (key_to_nibbles (trie_key pr))).
Qed.

(** ** What the root does not bind *)
(** The hash of a branch combines the hashes of its children by exclusive or, without their
    positions: exchanging two of them leaves it as it is. *)
Definition swap_nibble (a b n : Z) : Z := if decide (n = a) then b else if decide (n = b) then a else n.
Definition swap_nibbles (a b : Z) (k : bytes) : bytes := match k with n :: k => swap_nibble a b n :: k | [] => [] end.
(** The key with its first half-byte exchanged. *)
Definition swap_key (a b : Z) (key : bytes) : bytes :=
  match key with
  | x :: rest => 16 * swap_nibble a b (Z.shiftr x 4) + Z.land x 0x0F :: rest
  | [] => []
  end.
Definition first_nibble (key : bytes) : option Z := head (key_to_nibbles key).
Definition swap_children (a b : Z) (cs : Z → tree) : Z → tree := λ n, cs (swap_nibble a b n).

Section exchange.
Context (a b : Z) (Ha : nibble_ok a) (Hb : nibble_ok b).

Lemma swap_nibble_involutive n : swap_nibble a b (swap_nibble a b n) = n.
Proof. unfold swap_nibble. repeat case_decide; congruence. Qed.
Lemma swap_nibble_ok n : nibble_ok n → nibble_ok (swap_nibble a b n).
Proof using Ha Hb. unfold swap_nibble. by repeat case_decide. Qed.
Lemma swap_all_nibbles : swap_nibble a b <$> all_nibbles ≡ₚ all_nibbles.
Proof using Ha Hb.
  apply NoDup_Permutation.
  - apply NoDup_fmap_2; [|by apply (bool_decide_unpack _)].
    intros m n E. by rewrite <-(swap_nibble_involutive m), E, swap_nibble_involutive.
  - by apply (bool_decide_unpack _).
  - intros n. rewrite list_elem_of_fmap, all_nibbles_iff. split.
    + intros (m & -> & Hm%all_nibbles_iff). by apply swap_nibble_ok.
    + intros Hn. exists (swap_nibble a b n). rewrite swap_nibble_involutive, all_nibbles_iff.
      split; [done|by apply swap_nibble_ok].
Qed.

Lemma swap_children_hash cs v :
  node_hash (Branch (child_list (swap_children a b cs)) v) = node_hash (Branch (child_list cs) v).
Proof using Ha Hb.
  unfold node_hash. do 2 f_equal. apply xor_all_perm. unfold child_list, swap_children, some_children.
  transitivity (omap id ((λ n, thash (cs n)) <$> (swap_nibble a b <$> all_nibbles))).
  - by rewrite <-list_fmap_compose.
  - by rewrite swap_all_nibbles.
Qed.

Lemma swap_children_canon cs v : canon (TBranch cs v) → canon (TBranch (swap_children a b cs) v).
Proof using Ha Hb.
  assert (Hs : ∀ n, cs n ≠ TEmpty → swap_children a b cs (swap_nibble a b n) ≠ TEmpty)
    by (intros n; unfold swap_children; by rewrite swap_nibble_involutive).
  intros [Hc H2]. split; [intros n Hn; by apply Hc, swap_nibble_ok|].
  apply two_contents_inv in H2 as [(i & j & Hi & Hj & Hij & Hci & Hcj)|(i & x & Hi & Hci & ->)].
  - apply (two_contents_children _ _ (swap_nibble a b i) (swap_nibble a b j)); auto using swap_nibble_ok.
    intros E. apply Hij. by rewrite <-(swap_nibble_involutive i), E, swap_nibble_involutive.
  - apply (two_contents_value _ _ (swap_nibble a b i)); auto using swap_nibble_ok.
Qed.

Lemma swap_children_get cs v k :
  t_get (TBranch (swap_children a b cs) v) k = t_get (TBranch cs v) (swap_nibbles a b k).
Proof. by destruct k. Qed.

Lemma swap_nibbles_involutive k : swap_nibbles a b (swap_nibbles a b k) = k.
Proof. destruct k; simpl; [done|]. by rewrite swap_nibble_involutive. Qed.
Lemma swap_key_nibbles key : is_key key → key_to_nibbles (swap_key a b key) = swap_nibbles a b (key_to_nibbles key).
Proof using Ha Hb.
  destruct key as [|x rest]; [by intros [? _]|]. intros [_ [Hx _]%Forall_cons].
  unfold key_to_nibbles. cbn [swap_key mbind list_bind app swap_nibbles].
  destruct (proj1 (Forall_cons _ _ _) (byte_nibbles_ok x Hx)) as [Hn Hl%Forall_inv].
  pose proof (swap_nibble_ok _ Hn) as Hm. set (m := swap_nibble a b (Z.shiftr x 4)) in *.
  set (l := Z.land x 15) in *. unfold nibble_ok in Hl, Hm. f_equal; [|f_equal].
  - rewrite Z.shiftr_div_pow2 by done. change (2 ^ 4) with 16. rewrite Z.mul_comm, Z.div_add_l, Z.div_small by lia. lia.
  - change 15 with (Z.ones 4). rewrite Z.land_ones by done. change (2 ^ 4) with 16.
    rewrite Z.mul_comm, Z.add_comm, Z.mod_add, Z.mod_small by lia. done.
Qed.
Lemma swap_key_is_key key : is_key key → is_key (swap_key a b key).
Proof using Ha Hb.
  destruct key as [|x rest]; [done|]. intros [Hlen [Hx Hr]%Forall_cons]. split; [exact Hlen|].
  cbn [swap_key]. apply Forall_cons. split; [|done].
  destruct (proj1 (Forall_cons _ _ _) (byte_nibbles_ok x Hx)) as [Hn Hl%Forall_inv].
  pose proof (swap_nibble_ok _ Hn) as Hm. unfold is_byte, nibble_ok in *. lia.
Qed.
Lemma swap_key_involutive key : is_key key → swap_key a b (swap_key a b key) = key.
Proof using Ha Hb.
  intros Hk. apply key_to_nibbles_inj. rewrite !swap_key_nibbles; [|done|by apply swap_key_is_key].
  apply swap_nibbles_involutive.
Qed.
End exchange.

(** Two keys with different first half-bytes put a branch at the root. *)
Lemma root_branch G (T : MerklePatriciaTrie St) t M k1 k2 :
  trie_inv G T t M → is_Some (M !! k1) → is_Some (M !! k2) → first_nibble k1 ≠ first_nibble k2 → is_branch t = true.
Proof.
  intros HI H1 H2 Hne. pose proof (ti_dom _ _ _ _ HI k1 H1) as K1. pose proof (ti_dom _ _ _ _ HI k2 H2) as K2.
  rewrite <-(ti_map _ _ _ _ HI k1 K1) in H1. rewrite <-(ti_map _ _ _ _ HI k2 K2) in H2.
  pose proof (ti_canon _ _ _ _ HI) as Hc. unfold first_nibble in Hne.
  destruct t as [|s v|p c|cs v]; cbn [t_get] in H1, H2; [by destruct H1| | |done].
  - case_decide; [|by destruct H1]. case_decide; [|by destruct H2]. congruence.
  - destruct Hc as (Hp & _). destruct (starts_with _ p) eqn:S1 in H1; [|by destruct H1].
    destruct (starts_with _ p) eqn:S2 in H2; [|by destruct H2].
    apply starts_with_iff in S1 as [r1 E1], S2 as [r2 E2]. rewrite E1, E2 in Hne. by destruct p.
Qed.

(** C17. The state root does not bind the contents, whatever the hash functions: if the
    accounts do not all share the first half-byte of their hashed keys, then exchanging two of
    these half-bytes, in all keys at once, leaves the root as it was. *)
Theorem mpt_root_exchange a b G G' (T T' : MerklePatriciaTrie St) t t' M M' k1 k2 :
  nibble_ok a → nibble_ok b → trie_inv G T t M → trie_inv G' T' t' M' →
  is_Some (M !! k1) → is_Some (M !! k2) → first_nibble k1 ≠ first_nibble k2 →
  (∀ key, is_key key → M' !! swap_key a b key = M !! key) →
  mroot T' = mroot T.
Proof.
  intros Ha Hb HI HI' H1 H2 Hne HM. pose proof (root_branch _ _ _ _ _ _ HI H1 H2 Hne) as Hbr.
  rewrite (ti_root _ _ _ _ HI), (ti_root _ _ _ _ HI').
  destruct t as [| | |cs v]; try done. pose proof (ti_canon _ _ _ _ HI) as Hc.
  transitivity (thash (TBranch (swap_children a b cs) v)).
  2:{ rewrite !thash_tnode. cbn [tnode fmap option_fmap option_map]. by rewrite swap_children_hash. }
  apply t_eq_thash, canon_unique; [apply HI'|by apply swap_children_canon|].
  intros k Hk. rewrite swap_children_get.
  assert (HT : ∀ key, is_key key → t_get t' (key_to_nibbles key) = t_get (TBranch cs v) (swap_nibbles a b (key_to_nibbles key))).
  { intros key Hkey. rewrite <-swap_key_nibbles by done.
    rewrite (ti_map _ _ _ _ HI') by done. rewrite (ti_map _ _ _ _ HI) by (by apply swap_key_is_key).
    rewrite <-HM by (by apply swap_key_is_key). by rewrite swap_key_involutive. }
  destruct (t_get t' k) as [x|] eqn:E.
  { destruct (ti_keys _ _ _ _ HI' k) as (key & Hkey & ->); [split; [done|by eexists]|]. by rewrite <-HT, E. }
  destruct (t_get (TBranch cs v) (swap_nibbles a b k)) as [x|] eqn:E2; [|done].
  destruct (ti_keys _ _ _ _ HI (swap_nibbles a b k)) as (key & Hkey & Hk').
  { split; [|by eexists]. destruct k as [|n k]; [done|]. apply Forall_cons in Hk as [? ?].
    apply Forall_cons. split; [by apply swap_nibble_ok|done]. }
  assert (Hkk : k = key_to_nibbles (swap_key a b key))
    by (by rewrite swap_key_nibbles, <-Hk', swap_nibbles_involutive).
  rewrite Hkk, HT in E by (by apply swap_key_is_key). rewrite <-Hkk in E. congruence.
Qed.
End proofs.
