(* ===== verification/MptExamples.v ===== *)
(** Concrete tries: the theorems on Mpt applied to a store with two keys, with a toy
    hash and a toy codec.  Nothing else depends on this file. *)
From S2P Require Import Prelude Floats Types Mpt MptTree MptFacts MptGc MptProof.
Open Scope Z_scope.

(** ** A codec *)
Definition put_bytes (b : bytes) : bytes := len b :: b.
Definition take_bytes (b : bytes) : option (bytes * bytes) :=
  match b with
  | n :: r => Some (take (Z.to_nat n) r, drop (Z.to_nat n) r)
  | [] => None
  end.
Definition put_opt (o : option bytes) : bytes :=
  match o with None => [0] | Some b => 1 :: put_bytes b end.
Definition take_opt (b : bytes) : option (option bytes * bytes) :=
  match b with
  | 0 :: r => Some (None, r)
  | 1 :: r => '(x, r) ← take_bytes r; Some (Some x, r)
  | _ => None
  end.
Fixpoint take_opts (n : nat) (b : bytes) : option (list (option bytes) * bytes) :=
  match n with
  | O => Some ([], b)
  | S n => '(x, r) ← take_opt b; '(xs, r) ← take_opts n r; Some (x :: xs, r)
  end.

Definition toy_ser (n : MptNode) : bytes :=
  match n with
  | Leaf s v => 0 :: put_bytes s ++ put_bytes v
  | Extension p c => 1 :: put_bytes p ++ put_bytes c
  | Branch cs v => 2 :: len cs :: (cs ≫= put_opt) ++ put_opt v
  end.
Definition toy_de (b : bytes) : option MptNode :=
  match b with
  | 0 :: r => '(s, r) ← take_bytes r; '(v, r) ← take_bytes r; Some (Leaf s v)
  | 1 :: r => '(p, r) ← take_bytes r; '(c, r) ← take_bytes r; Some (Extension p c)
  | 2 :: n :: r => '(cs, r) ← take_opts (Z.to_nat n) r; '(v, r) ← take_opt r; Some (Branch cs v)
  | _ => None
  end.

Lemma take_node_bytes_put b r : take_bytes (put_bytes b ++ r) = Some (b, r).
Proof.
  unfold put_bytes, take_bytes, len; simpl. by rewrite Nat2Z.id, take_app_length, drop_app_length.
Qed.
Lemma take_opt_put o r : take_opt (put_opt o ++ r) = Some (o, r).
Proof. destruct o as [b|]; [|done]. cbn [put_opt app take_opt]. by rewrite take_node_bytes_put. Qed.
Lemma take_opts_put cs r : take_opts (length cs) ((cs ≫= put_opt) ++ r) = Some (cs, r).
Proof.
  induction cs as [|o cs IH]; [done|]. cbn [length take_opts mbind list_bind].
  rewrite <-app_assoc, take_opt_put. cbn [mbind option_bind]. fold (mbind (M := list) put_opt cs).
  by rewrite IH.
Qed.
Lemma toy_de_ser n : toy_de (toy_ser n) = Some n.
Proof.
  destruct n as [s v|p c|cs v]; cbn [toy_ser toy_de app].
  - rewrite take_node_bytes_put. cbn [mbind option_bind].
    rewrite <-(app_nil_r (put_bytes v)), take_node_bytes_put. done.
  - rewrite take_node_bytes_put. cbn [mbind option_bind].
    rewrite <-(app_nil_r (put_bytes c)), take_node_bytes_put. done.
  - unfold len. rewrite Nat2Z.id, take_opts_put. cbn [mbind option_bind].
    rewrite <-(app_nil_r (put_opt v)), take_opt_put. done.
Qed.

Definition toy_codec : NodeCodec :=
  {| ser_node := toy_ser; de_node := toy_de; de_ser_node := toy_de_ser |}.

(** ** Nodes of a concrete tree *)
Section nodes.
Context {HA : Hashes} {NC : NodeCodec}.

Fixpoint tree_nodes (t : tree) : list MptNode :=
  match t with
  | TEmpty => []
  | TLeaf s v => [Leaf s v]
  | TExt p c => Extension p (default zero32 (thash c)) :: tree_nodes c
  | TBranch cs v => Branch (child_list cs) v :: (all_nibbles ≫= λ n, tree_nodes (cs n))
  end.

Lemma nodes_in_list (l : list MptNode) t :
  tree_nodes t ⊆ l → nodes_in (λ n, n ∈ l) t.
Proof.
  induction t as [|s v|p c IH|cs IH v]; cbn [tree_nodes nodes_in]; intros Hl; [done| | |].
  - apply Hl. left.
  - split; [apply Hl; left|]. apply IH. intros n Hn. apply Hl. by right.
  - split; [apply Hl; left|]. intros n Hn. apply IH. intros x Hx. apply Hl. right.
    apply list_elem_of_bind. exists n. split; [done|]. by apply all_nibbles_iff.
Qed.

Definition subset_b (l1 l2 : list MptNode) : bool :=
  forallb (λ n, bool_decide (n ∈ l2)) l1.
Lemma subset_b_sound l1 l2 : subset_b l1 l2 = true → l1 ⊆ l2.
Proof.
  unfold subset_b. rewrite forallb_forall. intros H n Hn.
  specialize (H n). rewrite bool_decide_eq_true in H. apply H. by apply list_elem_of_In.
Qed.
Lemma nodes_in_compute l t : subset_b (tree_nodes t) l = true → nodes_in (λ n, n ∈ l) t.
Proof. intros H. by apply nodes_in_list, subset_b_sound. Qed.

Definition injective_b (hs : list (MptNode * bytes)) : bool :=
  forallb (λ x, forallb (λ y, bool_decide (x.2 = y.2 → x.1 = y.1)) hs) hs.
Lemma injective_compute l :
  injective_b ((λ n, (n, node_hash n)) <$> l) = true → hash_injective_on (λ n, n ∈ l).
Proof.
  unfold injective_b. rewrite forallb_forall. intros H n n' Hn Hn'.
  specialize (H (n, node_hash n)). rewrite <-list_elem_of_In, forallb_forall in H.
  assert (Hin : ∀ n, n ∈ l → (n, node_hash n) ∈ (λ n, (n, node_hash n)) <$> l).
  { intros x Hx. apply list_elem_of_fmap. by exists x. }
  specialize (H (Hin n Hn) (n', node_hash n')).
  rewrite <-list_elem_of_In, bool_decide_eq_true in H. by apply H, Hin.
Qed.
End nodes.

#[local] Existing Instance toy_hashes.
#[local] Existing Instance toy_codec.

(** ** Two keys, inserted in both orders *)
Definition k1 : bytes := 0x12 :: replicate 31 0.
Definition k2 : bytes := 0x1F :: replicate 31 7.
Definition v1 : bytes := [1; 2; 3].
Definition v2 : bytes := [4; 5].
Definition t1 : tree := t_insert TEmpty (key_to_nibbles k1) v1.
Definition t2 : tree := t_insert TEmpty (key_to_nibbles k2) v2.
Definition t12 : tree := t_insert t1 (key_to_nibbles k2) v2.
Definition t21 : tree := t_insert t2 (key_to_nibbles k1) v1.

(** The nodes in play, those of the intermediate trees of a deletion included. *)
Definition toy_nodes : list MptNode :=
  tree_nodes t1 ++ tree_nodes t2 ++ tree_nodes t12 ++ tree_nodes t21
  ++ [Leaf (drop 1 (key_to_nibbles k1)) v1].
Definition toy_G (n : MptNode) : Prop := n ∈ toy_nodes.

Definition empty_trie : MerklePatriciaTrie SledMptStore := trie_new (MkSledMptStore ∅).
Definition after {A} (r : mres (MerklePatriciaTrie SledMptStore * A)) : MerklePatriciaTrie SledMptStore :=
  match r with Ok (T, _) => T | Err _ => empty_trie end.
Definition T1 := after (mpt_insert empty_trie k1 v1).
Definition T2 := after (mpt_insert empty_trie k2 v2).
Definition T12 := after (mpt_insert T1 k2 v2).
Definition T21 := after (mpt_insert T2 k1 v1).

Lemma toy_injective : hash_injective_on toy_G.
Proof. apply injective_compute. vm_compute. reflexivity. Qed.

Lemma is_key_compute k : bool_decide (is_key k) = true → is_key k.
Proof. apply bool_decide_eq_true. Qed.
Lemma k1_key : is_key k1.
Proof. apply is_key_compute. vm_compute. reflexivity. Qed.
Lemma k2_key : is_key k2.
Proof. apply is_key_compute. vm_compute. reflexivity. Qed.

Lemma empty_inv : trie_inv toy_G empty_trie TEmpty ∅.
Proof. apply trie_inv_empty. simpl. by rewrite fmap_empty. Qed.

Lemma after_insert T t M k v :
  trie_inv toy_G T t M → is_key k →
  subset_b (tree_nodes (t_insert t (key_to_nibbles k) v)) toy_nodes = true →
  trie_inv toy_G (after (mpt_insert T k v)) (t_insert t (key_to_nibbles k) v) (<[k := v]> M) ∧
  keeps_roots toy_G (store T) (store (after (mpt_insert T k v))).
Proof.
  intros HI Hk HG. destruct (mpt_insert_inv toy_G T t M k v) as (T' & r & -> & _ & HI');
    [apply toy_injective|done|done|by apply nodes_in_compute|done].
Qed.

Definition M1 : gmap bytes bytes := <[k1 := v1]> ∅.
Definition M12 : gmap bytes bytes := <[k2 := v2]> M1.

Lemma T1_inv : trie_inv toy_G T1 t1 M1.
Proof.
  unfold T1, t1, M1. refine (proj1 (after_insert _ _ _ _ _ empty_inv k1_key _)).
  vm_compute. reflexivity.
Qed.
Lemma T2_inv : trie_inv toy_G T2 t2 (<[k2 := v2]> ∅).
Proof.
  unfold T2, t2. refine (proj1 (after_insert _ _ _ _ _ empty_inv k2_key _)).
  vm_compute. reflexivity.
Qed.
Lemma T12_inv : trie_inv toy_G T12 t12 M12 ∧ keeps_roots toy_G (store T1) (store T12).
Proof.
  unfold T12, t12, M12. refine (after_insert _ _ _ _ _ T1_inv k2_key _).
  vm_compute. reflexivity.
Qed.
Lemma T21_inv : trie_inv toy_G T21 t21 M12.
Proof.
  unfold T21, t21, M12, M1. rewrite insert_insert_ne by (intros [=]).
  refine (proj1 (after_insert _ _ _ _ _ T2_inv k1_key _)).
  vm_compute. reflexivity.
Qed.

(** The nodes a deletion may write. *)
Fixpoint delete_nodes (t : tree) (k : bytes) : list MptNode :=
  tree_nodes (t_delete t k) ++
  match t with
  | TExt p c => if starts_with k p then delete_nodes c (drop (length p) k) else []
  | TBranch cs v => match k with n :: k => delete_nodes (cs n) k | [] => [] end
  | _ => []
  end.

Lemma delete_nodes_compute l t k :
  subset_b (delete_nodes t k) l = true → delete_nodes_in (λ n, n ∈ l) t k.
Proof.
  intros H%subset_b_sound. revert k H; induction t as [|s v|p c IH|cs IH v]; intros k H;
    cbn [delete_nodes delete_nodes_in] in *;
    (split; [apply nodes_in_list; intros n Hn; apply H, elem_of_app; by left|]); try done.
  - destruct (starts_with k p); [|done]. apply IH. intros n Hn. apply H, elem_of_app. by right.
  - destruct k; [done|]. apply IH. intros n Hn. apply H, elem_of_app. by right.
Qed.

(** ** The theorems applied *)
Lemma mpt_insert_correct_witness :
  ∃ T' r, mpt_insert T1 k2 v2 = Ok (T', r) ∧ mpt_get T' k1 = Ok (Some v1)
          ∧ mpt_get T' k2 = Ok (Some v2).
Proof.
  destruct (mpt_insert_correct toy_G T1 t1 M1 k2 v2 toy_injective T1_inv k2_key)
    as (T' & r & Hins & _ & _ & Hget & _).
  { apply nodes_in_compute. vm_compute. reflexivity. }
  exists T', r. split; [exact Hins|]. split; [exact (Hget k1 k1_key)|exact (Hget k2 k2_key)].
Defined.

Lemma mpt_delete_correct_witness :
  ∃ T' r, mpt_delete T12 k2 = Ok (T', r) ∧ mpt_get T' k1 = Ok (Some v1)
          ∧ mpt_get T' k2 = Ok None.
Proof.
  destruct (mpt_delete_correct toy_G T12 t12 M12 k2 toy_injective (proj1 T12_inv) k2_key)
    as (T' & r & Hdel & _ & _ & Hget & _).
  { apply delete_nodes_compute. vm_compute. reflexivity. }
  exists T', r. split; [exact Hdel|]. split; [exact (Hget k1 k1_key)|exact (Hget k2 k2_key)].
Defined.

Lemma mpt_root_determined_witness : mroot T12 = mroot T21.
Proof. exact (mpt_root_determined _ _ _ _ _ _ _ (proj1 T12_inv) T21_inv). Defined.

(** A trie of two keys, over its own nodes. *)
Section two_keys.
Context (ka va kb vb : bytes).
Definition two_first : tree := t_insert TEmpty (key_to_nibbles ka) va.
Definition two_tree : tree := t_insert two_first (key_to_nibbles kb) vb.
Definition two_nodes : list MptNode := tree_nodes two_first ++ tree_nodes two_tree.
Definition two_keys : MerklePatriciaTrie SledMptStore := after (mpt_insert (after (mpt_insert empty_trie ka va)) kb vb).
Lemma two_keys_inv :
  injective_b ((λ n, (n, node_hash n)) <$> two_nodes) = true → is_key ka → is_key kb →
  trie_inv (λ n, n ∈ two_nodes) two_keys two_tree (<[kb := vb]> (<[ka := va]> ∅)).
Proof.
  intros Hinj%injective_compute Ha Hb. set (G := λ n, n ∈ two_nodes).
  assert (H0 : trie_inv G empty_trie TEmpty ∅) by (apply trie_inv_empty; simpl; by rewrite fmap_empty).
  destruct (mpt_insert_inv G empty_trie TEmpty ∅ ka va Hinj H0 Ha) as (T & r & HT & _ & H1 & _).
  { apply (nodes_in_mono (λ n, n ∈ tree_nodes two_first)); [|by apply nodes_in_list].
    intros n Hn. apply elem_of_app. by left. }
  destruct (mpt_insert_inv G T _ _ kb vb Hinj H1 Hb) as (T' & r' & HT' & _ & H2 & _).
  { apply (nodes_in_mono (λ n, n ∈ tree_nodes two_tree)); [|by apply nodes_in_list].
    intros n Hn. apply elem_of_app. by right. }
  unfold two_keys. rewrite HT. cbn [after]. by rewrite HT'.
Qed.
End two_keys.

(** Two accounts whose hashed keys differ in the first half-byte exchange what they hold, and
    the root stays. *)
Definition kx : bytes := 0x12 :: replicate 31 0.
Definition ky : bytes := 0x32 :: replicate 31 0.
Lemma mpt_root_exchange_witness :
  mroot (two_keys kx v2 ky v1) = mroot (two_keys kx v1 ky v2) ∧
  mpt_get (two_keys kx v1 ky v2) kx = Ok (Some v1) ∧ mpt_get (two_keys kx v2 ky v1) kx = Ok (Some v2).
Proof.
  assert (Hx : is_key kx) by (apply is_key_compute; vm_compute; reflexivity).
  assert (Hy : is_key ky) by (apply is_key_compute; vm_compute; reflexivity).
  split; [|split; vm_compute; reflexivity].
  refine (mpt_root_exchange 1 3 (λ n, n ∈ two_nodes kx v1 ky v2) (λ n, n ∈ two_nodes kx v2 ky v1) _ _
    (two_tree kx v1 ky v2) (two_tree kx v2 ky v1) (<[ky := v2]> (<[kx := v1]> ∅)) (<[ky := v1]> (<[kx := v2]> ∅)) kx ky
    _ _ _ _ _ _ _ _).
  - unfold nibble_ok. lia.
  - unfold nibble_ok. lia.
  - apply two_keys_inv; [vm_compute; reflexivity|exact Hx|exact Hy].
  - apply two_keys_inv; [vm_compute; reflexivity|exact Hx|exact Hy].
  - vm_compute. eexists. reflexivity.
  - vm_compute. eexists. reflexivity.
  - vm_compute. discriminate.
  - intros key Hk.
    assert (E : ∀ k, is_key k → swap_key 1 3 key = k ↔ key = swap_key 1 3 k).
    { intros k Hk'. split; [intros <-; symmetry|intros ->]; apply swap_key_involutive; done || unfold nibble_ok; lia. }
    assert (Exy : swap_key 1 3 kx = ky) by (vm_compute; reflexivity).
    assert (Eyx : swap_key 1 3 ky = kx) by (vm_compute; reflexivity).
    assert (Hne : kx ≠ ky) by (vm_compute; discriminate).
    rewrite !lookup_insert. repeat case_decide; try done; exfalso;
      repeat match goal with
      | H : kx = swap_key _ _ _ |- _ => symmetry in H; apply (E kx Hx) in H
      | H : ky = swap_key _ _ _ |- _ => symmetry in H; apply (E ky Hy) in H
      end; subst; congruence.
Defined.

Lemma gc_since_correct_witness :
  ∃ T' d, gc_since T12 (default zero32 (mroot T1)) = (T', Ok d) ∧ trie_inv toy_G T' t12 M12 ∧
    ∀ h, get_node (store T') h = if decide (h ∈ thashes t1 ∧ h ∉ thashes t12) then Ok None else get_node (store T12) h.
Proof.
  destruct (gc_since_correct toy_G T12 t12 M12 t1 M1 (default zero32 (mroot T1)) (proj1 T12_inv))
    as (T' & d & Hgc & HI & _ & _ & Hd).
  { apply (proj2 T12_inv (Some _)). destruct T1_inv as [? Hr ? ? ? ?]. constructor; assumption. }
  exists T', d. split; [exact Hgc|]. split; [exact HI|]. apply Hd. vm_compute. discriminate.
Defined.

Lemma prove_verifies_witness :
  ∃ pr, prove T12 k1 = Ok pr ∧ value pr = Some v1 ∧ verify_proof pr = true.
Proof.
  destruct (prove_verifies toy_G T12 t12 M12 k1 (proj1 T12_inv) k1_key) as (pr & Hp & Hv & _ & Hver).
  exists pr. split; [exact Hp|]. split; [exact Hv|]. apply Hver.
  vm_compute in Hp. injection Hp as <-. vm_compute. apply (bool_decide_unpack _). exact I.
Defined.

(** Two leaves under one branch at the root: the proof of the first key also proves the
    first value for a third key. *)
Definition k3 : bytes := 0x2F :: replicate 31 7.
Definition k4 : bytes := 0x32 :: replicate 31 0.
Definition T13 := after (mpt_insert T1 k3 v2).

Definition proof_of (T : MerklePatriciaTrie SledMptStore) (k : bytes) : MerkleProof :=
  match prove T k with Ok pr => pr | Err _ => MkProof [] None [] [] [] end.

Lemma verify_proof_ignores_branch_nibbles_witness :
  verify_proof (relabel k4 (proof_of T13 k1)) = true ∧ value (proof_of T13 k1) = Some v1
  ∧ mpt_get T13 k4 = Ok None.
Proof.
  split; [|split; vm_compute; reflexivity].
  rewrite (verify_proof_ignores_branch_nibbles (proof_of T13 k1) [1] k4).
  - vm_compute. reflexivity.
  - vm_compute. reflexivity.
  - repeat constructor; discriminate.
  - vm_compute. reflexivity.
  - vm_compute. reflexivity.
Defined.
