(* ===== verification/State.v ===== *)
(** The write set of a crystal, the undo log and the global metrics (primus-storage
    changeset.rs and types.rs) and the in-memory state tree (primus-core state.rs). *)
From S2P Require Import Prelude Floats Types.
Open Scope Z_scope.

(** bincode's encoding of an atom (crate bincode), with its round trip. *)
Class AtomCodec := {
  ser_atom : Atom → bytes;
  de_atom : bytes → option Atom;
  de_ser_atom a : de_atom (ser_atom a) = Some a;
}.

(** ** changeset.rs *)
Record Changeset := MkChangeset {
  inner : gmap bytes Atom;
  contracts : gmap bytes bytes;
}.

Definition cs_new : Changeset := MkChangeset ∅ ∅.
Definition cs_insert (pk : bytes) (a : Atom) (cs : Changeset) : Changeset :=
  MkChangeset (<[pk := a]> (inner cs)) (contracts cs).
Definition insert_contract (hash code : bytes) (cs : Changeset) : Changeset :=
  MkChangeset (inner cs) (<[hash := code]> (contracts cs)).
Definition cs_get (cs : Changeset) (pk : bytes) : option Atom := inner cs !! pk.
(** `inner.keys()`: in the key order of the BTreeMap. *)
Definition sorted_keys (cs : Changeset) : list bytes := (btree_to_list (inner cs)).*1.
Definition cs_is_empty (cs : Changeset) : bool :=
  bool_decide (inner cs = ∅) && bool_decide (contracts cs = ∅).
Definition cs_len (cs : Changeset) : Z := Z.of_nat (size (inner cs)).

(** ** types.rs *)
Record GlobalMetrics := MkMetrics { temperature : f32; entropy : f32 }.
Definition metrics_default : GlobalMetrics := MkMetrics (f32_of_Z 0) (f32_of_Z 0).
Definition canonical (m : GlobalMetrics) : Z * Z := (encode (temperature m), encode (entropy m)).

Record UndoLog := MkUndoLog {
  undo_crystal_index : Z;
  pre_state_root : bytes;
  pre_images : gmap bytes (option Atom);
}.
Definition undo_new (i : Z) (root : bytes) : UndoLog := MkUndoLog i root ∅.
(** `pre_images.entry(pk).or_insert(before)`: the first image recorded stays. *)
Definition undo_record (pk : bytes) (before : option Atom) (u : UndoLog) : UndoLog :=
  MkUndoLog (undo_crystal_index u) (pre_state_root u)
    (match pre_images u !! pk with
     | Some _ => pre_images u
     | None => <[pk := before]> (pre_images u)
     end).

(** ** state.rs *)
Record StateTree := MkStateTree {
  atoms : gmap bytes Atom;
  current_crystal_index : Z;
  global_metrics : GlobalMetrics;
}.

Definition state_new : StateTree := MkStateTree ∅ 0 metrics_default.
Definition state_load (st : StateTree) (from_storage : gmap bytes Atom) (m : GlobalMetrics)
    : StateTree := MkStateTree from_storage (current_crystal_index st) m.
Definition state_get_atom (st : StateTree) (pk : bytes) : option Atom := atoms st !! pk.

(** `for (pk, atom) in changeset.inner { atoms.insert(pk, atom) }` *)
Definition apply_changeset (st : StateTree) (cs : Changeset) : StateTree :=
  MkStateTree (foldl (λ m p, <[p.1 := p.2]> m) (atoms st) (btree_to_list (inner cs)))
    (current_crystal_index st) (global_metrics st).

Definition increment_index (st : StateTree) : StateTree :=
  MkStateTree (atoms st) (current_crystal_index st + 1) (global_metrics st).

Section root.
Context {HA : Hashes} {AC : AtomCodec}.

(** What [calculate_root_hash] feeds to the hasher, in order. *)
Definition root_preimage (st : StateTree) : bytes :=
  let '(temp_fixed, entropy_fixed) := canonical (global_metrics st) in
  to_le 8 (current_crystal_index st) ++ to_le 8 temp_fixed ++ to_le 8 entropy_fixed
  ++ (btree_to_list (atoms st) ≫= λ '(pk, atom), pk ++ ser_atom atom).

Definition calculate_root_hash (st : StateTree) : bytes := blake3 (root_preimage st).

(** The per-atom comparison line: its fields, before formatting as text. *)
Definition atom_canonical_line (pk : bytes) (a : Atom) : bytes * Z * Element * Z * bytes :=
  (pk, mass a, element a, encode (charge a), take 8 (last_reaction_hash a)).

(** [state_diff]: the keys it reports, first those of A against B, then those only in B. *)
Definition diff_keys (a b : StateTree) : list bytes :=
  omap (λ '(pk, atom_a),
    match atoms b !! pk with
    | None => Some pk
    | Some atom_b =>
        if bool_decide (atom_canonical_line pk atom_a = atom_canonical_line pk atom_b)
        then None else Some pk
    end) (btree_to_list (atoms a))
  ++ omap (λ '(pk, _), if bool_decide (is_Some (atoms a !! pk)) then None else Some pk)
       (btree_to_list (atoms b)).

(** What is printed: the two roots, the metrics if they differ in fixed point (of A and of
    B, each temperature and entropy), and the keys; [at_index] is printed as it is. *)
Record StateDiff := MkStateDiff {
  diff_roots : bytes * bytes;
  diff_metrics : option ((Z * Z) * (Z * Z));
  diff_atoms : list bytes;
}.
Definition state_diff (a b : StateTree) : StateDiff :=
  let a_metrics := canonical (global_metrics a) in
  let b_metrics := canonical (global_metrics b) in
  MkStateDiff (calculate_root_hash a, calculate_root_hash b)
    (if bool_decide (a_metrics = b_metrics) then None else Some (a_metrics, b_metrics)) (diff_keys a b).

(** The keys reported are those whose lines differ, one missing or not the same. *)
Theorem diff_keys_spec a b pk :
  pk ∈ diff_keys a b ↔
  atom_canonical_line pk <$> atoms a !! pk ≠ atom_canonical_line pk <$> atoms b !! pk.
Proof.
  unfold diff_keys. rewrite elem_of_app, !list_elem_of_omap. split.
  - intros [([k x] & Hin & Hk)|([k y] & Hin & Hk)]; apply elem_of_btree_to_list in Hin; cbn in Hk.
    + destruct (atoms b !! k) as [y|] eqn:Eb.
      * case_bool_decide as Hline; [done|]. injection Hk as ->. rewrite Hin, Eb. cbn. congruence.
      * injection Hk as ->. by rewrite Hin, Eb.
    + case_bool_decide as Ha; [done|]. injection Hk as ->. apply eq_None_not_Some in Ha. by rewrite Ha, Hin.
  - destruct (atoms a !! pk) as [x|] eqn:Ea; [left|right].
    + exists (pk, x). split; [by apply elem_of_btree_to_list|]. cbn.
      destruct (atoms b !! pk) as [y|]; [|done]. rewrite bool_decide_false; [done|]. intros He. cbn in *. congruence.
    + destruct (atoms b !! pk) as [y|] eqn:Eb; [|done]. exists (pk, y).
      split; [by apply elem_of_btree_to_list|]. cbn. rewrite bool_decide_false; [done|]. rewrite Ea. by intros [].
Qed.

(** Two states that differ in the nonce of an account have roots of different data, but the
    comparison finds nothing. *)
Theorem state_diff_misses_nonce pk (x y : Atom) i g :
  atom_canonical_line pk x = atom_canonical_line pk y → x ≠ y →
  let a := MkStateTree {[pk := x]} i g in let b := MkStateTree {[pk := y]} i g in
  diff_atoms (state_diff a b) = [] ∧ diff_metrics (state_diff a b) = None ∧ root_preimage a ≠ root_preimage b.
Proof.
  intros Hl Hne. cbv zeta. split; [|split].
  - cbn [diff_atoms state_diff]. destruct (diff_keys _ _) as [|k l] eqn:Ek; [done|]. exfalso.
    assert (Hk : k ∈ diff_keys (MkStateTree {[pk := x]} i g) (MkStateTree {[pk := y]} i g)) by (rewrite Ek; by left).
    apply diff_keys_spec in Hk. cbn [atoms] in Hk. destruct (decide (k = pk)) as [->|Hn].
    + rewrite !lookup_singleton_eq in Hk. cbn in Hk. by rewrite Hl in Hk.
    + by rewrite !lookup_singleton_ne in Hk.
  - cbn [diff_metrics state_diff global_metrics]. by rewrite bool_decide_true.
  - unfold root_preimage. cbn [global_metrics current_crystal_index atoms]. destruct (canonical g) as [temp ent].
    assert (Hb : ∀ z : Atom, btree_to_list {[pk := z]} = [(pk, z)]).
    { intros z. pose proof (btree_to_list_perm {[pk := z]}) as Hp. rewrite map_to_list_singleton in Hp.
      by apply Permutation_singleton_r in Hp. }
    rewrite !Hb. cbn [mbind list_bind]. rewrite !app_nil_r. intros H. do 4 apply app_inv_head in H.
    apply (f_equal de_atom) in H. rewrite !de_ser_atom in H. by injection H.
Qed.
End root.

(** ** Lemmas *)
Lemma foldl_insert_union {A} (l : list (bytes * A)) (m : gmap bytes A) :
  NoDup l.*1 → foldl (λ m p, <[p.1 := p.2]> m) m l = list_to_map l ∪ m.
Proof.
  revert m; induction l as [|[k x] l IH]; intros m Hnd; simpl; [by rewrite (left_id_L ∅ (∪))|].
  apply NoDup_cons in Hnd as [Hk Hnd]. rewrite IH by done.
  apply map_eq. intros i. rewrite !lookup_union.
  destruct (decide (k = i)) as [<-|Hne].
  - rewrite !lookup_insert_eq, not_elem_of_list_to_map_1 by done. by destruct (m !! k).
  - by rewrite !lookup_insert_ne.
Qed.

Lemma foldl_btree_union {A} (m m' : gmap bytes A) :
  foldl (λ m p, <[p.1 := p.2]> m) m' (btree_to_list m) = m ∪ m'.
Proof. rewrite foldl_insert_union by apply btree_to_list_NoDup_keys. by rewrite btree_to_list_to_map. Qed.

(** Applying a changeset is the left-biased union of the maps. *)
Lemma apply_changeset_union st cs : atoms (apply_changeset st cs) = inner cs ∪ atoms st.
Proof.
  apply foldl_btree_union.
Qed.

Lemma lookup_apply_changeset st cs pk :
  atoms (apply_changeset st cs) !! pk
  = match inner cs !! pk with Some a => Some a | None => atoms st !! pk end.
Proof. rewrite apply_changeset_union, lookup_union. by destruct (inner cs !! pk), (atoms st !! pk). Qed.
