(* ===== verification/Physics.v ===== *)
(** The physics of the virtual machine (primus-vm physics.rs), the evolution of atoms
    (primus-vm pvm.rs, primus-core atom.rs) and the unit shim (primus-core physics_shim.rs). *)
From S2P Require Import Prelude Floats Types.
Open Scope Z_scope.

(** ** primus-vm/src/physics.rs *)
Definition THERMAL_CAPACITY : f32 := f32_of_Z 1000.
Definition GRAVITY_SHIELD_GATE : f32 := f32_of_Z 150.
Definition MACRO_SHIFT_CRITICAL : f32 := f32_of_Z 250.
Definition MAX_GRAVITY_PULL : f32 := f32_of_Z 25.

Definition get_galactic_drift (crystal_index : Z) : Z := crystal_index mod 256.

Definition calculate_orbital_resonance (atom_id : bytes) (drift : Z) : f32 :=
  match atom_id with
  | b :: _ => if b =? drift then f32_of_Z 30 else f32_of_Z 0
  | [] => f32_of_Z 0
  end.

(** The loop of [calculate_gravity_assist_from_iter] over the atoms in key order. *)
Definition gravity_step (atom_id : bytes) (pull : f64) (p : bytes * Atom) : f64 :=
  if 45000 <? mass p.2 then
    match p.1, atom_id with
    | b :: _, b' :: _ =>
        if b =? b' then
          fp_min (f64_add pull (f64_div (f64_of_Z (mass p.2)) (f64_of_Z 12000)))
            (f64_of_f32 MAX_GRAVITY_PULL)
        else pull
    | _, _ => pull
    end
  else pull.

Definition calculate_gravity_assist_from_iter (atoms : list (bytes * Atom)) (atom_id : bytes) : f32 :=
  f32_of_f64 (foldl (gravity_step atom_id) (f64_of_Z 0) atoms).

Definition get_spacetime_curvature (rx_hash : bytes) (base_temp : f32) : f32 :=
  let first := from_option id 0 (head rx_hash) in
  f32_of_f64 (f64_add (f64_mul (f64_div (f64_of_Z first) (f64_of_Z 255)) (f64_of_Z 15))
    (f64_of_f32 base_temp)).

Definition calculate_macro_shift (temp : f32) : f32 :=
  if fp_gt temp MACRO_SHIFT_CRITICAL
  then f32_div (f32_sub temp MACRO_SHIFT_CRITICAL) (f32_of_Z 100)
  else f32_of_Z 0.

Definition calculate_entropy_tax (complexity : Z) (local_temp : f32) : Z :=
  let heat := fp_max (f64_div (f64_of_f32 local_temp) (f64_of_Z 50)) (f64_of_Z 1) in
  fp_to_u64 (f64_mul (f64_of_Z complexity) heat).

(** ** Evolution of atoms *)
Definition decay_amount (a : Atom) : Z :=
  let decay_rate :=
    f32_add (f32_lit 1 1000) (f32_mul (f32_of_Z (neutron_count a)) (f32_lit 5 10000)) in
  fp_to_u64 (f32_mul (f32_of_Z (mass a)) decay_rate).

(** Returns the atom and the mass it lost. *)
Definition apply_decay (a : Atom) (current_index : Z) : Atom * Z :=
  let age := u64_saturating_sub current_index (last_active_index a) in
  let stability_threshold := u64_saturating_sub 100 (neutron_count a * 5) in
  if stability_threshold <? age then
    let d := decay_amount a in
    if 0 <? d then (set_mass (u64_saturating_sub (mass a) d) a, d) else (a, 0)
  else (a, 0).

Definition evolve (a : Atom) : Atom :=
  match element a with
  | Hydrogen => if 4000 <=? mass a then set_element Oxygen (f32_lit 344 100) a else a
  | Oxygen => if 6000 <=? mass a then set_element Carbon (f32_lit 255 100) a else a
  | Carbon => if 50000 <=? mass a then set_element Gold (f32_lit 254 100) a else a
  | Gold => a
  end.

(** ** primus-core/src/atom.rs *)
(** The atom and the evolution that is printed: from which element to which. *)
Definition core_evolve (a : Atom) : Atom * option (Element * Element) :=
  let old_element := element a in
  let evolved :=
    match old_element with
    | Hydrogen => if 4000 <=? mass a then Some (Oxygen, f32_lit 344 100) else None
    | Oxygen => if 6000 <=? mass a then Some (Carbon, f32_lit 255 100) else None
    | Carbon => if 50000 <=? mass a then Some (Gold, f32_lit 254 100) else None
    | Gold => None
    end in
  match evolved with
  | Some (el, charge) => (set_element el charge a, if bool_decide (old_element = el) then None else Some (old_element, el))
  | None => (a, None)
  end.
(** The atom and the mass it lost, which is printed when it is not zero. *)
Definition core_apply_decay (a : Atom) (current_index : Z) : Atom * Z :=
  let age := u64_saturating_sub current_index (last_active_index a) in
  let stability_threshold := u64_saturating_sub 100 (neutron_count a * 5) in
  let decay_rate := f32_add (f32_lit 1 1000) (f32_mul (f32_of_Z (neutron_count a)) (f32_lit 5 10000)) in
  let lost := fp_to_u64 (f32_mul (f32_of_Z (mass a)) decay_rate) in
  if (stability_threshold <? age) && (0 <? lost) then (set_mass (u64_saturating_sub (mass a) lost) a, lost)
  else (a, 0).
(** The virtual machine's copies do the same. *)
Lemma core_evolution_same a i : (core_evolve a).1 = evolve a ∧ core_apply_decay a i = apply_decay a i.
Proof.
  split; [unfold core_evolve, evolve; destruct (4000 <=? mass a), (6000 <=? mass a), (50000 <=? mass a); by destruct (element a)|].
  unfold core_apply_decay, apply_decay, decay_amount. by destruct (_ <? _).
Qed.
(** `self.mass += gained`: a sum out of range panics or wraps with the build profile. *)
Definition absorb_decay (a : Atom) (scattered_mass : Z) : option Atom :=
  if scattered_mass =? 0 then Some a
  else
    let efficiency :=
      match element a with
      | Hydrogen => f32_lit 95 100
      | Carbon => f32_lit 80 100
      | Oxygen => f32_lit 70 100
      | Gold => f32_lit 40 100
      end in
    let gained_mass := fp_to_u64 (f32_mul (f32_of_Z scattered_mass) efficiency) in
    m ← u64_checked_add (mass a) gained_mass;
    Some (core_evolve (set_mass m a)).1.

Definition get_binding_potential (a : Atom) : f32 :=
  let base :=
    match element a with
    | Hydrogen => f32_of_Z 1
    | Carbon => f32_lit 45 10
    | Oxygen => f32_of_Z 6
    | Gold => f32_of_Z 25
    end in
  f32_add base (f32_mul (f32_of_Z (neutron_count a)) (f32_lit 18 10)).

Definition get_viscosity_factor (a : Atom) : f32 :=
  match element a with
  | Hydrogen => f32_of_Z 1
  | Carbon => f32_lit 25 10
  | Oxygen => f32_lit 18 10
  | Gold => f32_add (f32_of_Z 10) (f32_mul (f32_of_Z (neutron_count a)) (f32_lit 5 10))
  end.

(** ** primus-core/src/physics_shim.rs *)
Definition SPEC_THERMAL_CAPACITY : f64 := f64_of_Z 1500.
Definition SPEC_GRAVITY_GATE : f64 := f64_of_Z 150.
Definition VM_THERMAL_CAPACITY : f64 := f64_of_Z 1000.

Definition to_vm_thermal (spec_kelvin : f64) : f64 :=
  f64_mul spec_kelvin (f64_div VM_THERMAL_CAPACITY SPEC_THERMAL_CAPACITY).

Definition should_engage_gravity_shield (spec_kelvin : f64) : bool :=
  fp_ge spec_kelvin SPEC_GRAVITY_GATE.

(** ** Lemmas *)
(** The shim maps the specified limit to the machine's own limit. *)
Example thermal_capacity_boundary : to_vm_thermal SPEC_THERMAL_CAPACITY = VM_THERMAL_CAPACITY.
Proof. vm_compute. reflexivity. Qed.

Lemma apply_decay_key a i : public_key (apply_decay a i).1 = public_key a.
Proof. unfold apply_decay. by repeat case_match. Qed.
Lemma evolve_key a : public_key (evolve a) = public_key a.
Proof. unfold evolve. by repeat case_match. Qed.
Lemma apply_decay_nonce a i : nonce (apply_decay a i).1 = nonce a.
Proof. unfold apply_decay. by repeat case_match. Qed.
Lemma evolve_nonce a : nonce (evolve a) = nonce a.
Proof. unfold evolve. by repeat case_match. Qed.
Lemma evolve_mass a : mass (evolve a) = mass a.
Proof. unfold evolve. by repeat case_match. Qed.

Lemma fp_to_u64_nonneg x : 0 ≤ fp_to_u64 x.
Proof.
  unfold fp_to_u64, fp_trunc, U64_MAX. destruct x as [| [|] | | [|] m e]; try lia. case_match.
  - apply Z.leb_le in H. assert (0 < 2 ^ e) by (apply Z.pow_pos_nonneg; lia). lia.
  - apply Z.leb_gt in H. assert (0 < 2 ^ (- e)) by (apply Z.pow_pos_nonneg; lia).
    assert (0 ≤ Z.pos m / 2 ^ (- e)) by (apply Z.div_pos; lia). lia.
Qed.
Lemma fp_to_u64_max x : fp_to_u64 x ≤ U64_MAX.
Proof. unfold fp_to_u64, U64_MAX. destruct x as [| [|] | | [|] m e]; lia. Qed.
#[export] Hint Resolve fp_to_u64_nonneg fp_to_u64_max : primus.

(** Decay never adds mass and never takes more than there is. *)
Lemma apply_decay_mass a i : 0 ≤ mass a → 0 ≤ mass (apply_decay a i).1 ≤ mass a.
Proof.
  intros Ha. unfold apply_decay, u64_saturating_sub. repeat case_match; simpl; lia.
Qed.
