(* ===== verification/Pvm.v ===== *)
(** The native execution path of the virtual machine (primus-vm error.rs, context.rs,
    pvm.rs). *)
From S2P Require Import Prelude Floats Types State Physics.
Open Scope Z_scope.

(** ** error.rs *)
Inductive PvmError :=
| SignatureRejected (sender_prefix digest_prefix : bytes)
| NonceMismatch (on_chain tx_nonce : Z)
| InsufficientMass (has needs : Z)
| ThermalLimitExceeded
| QuantumCollapse
| InvalidRewardRecipient
| UnknownPayload
| NegativeEnergy
| AtomNotFound
| ArithmeticOverflow
| OutOfGas (limit consumed : Z)
| WasmTrap (reason : string)
| ContractNotFound (code_hash : bytes)
| CompilationFailed (reason : string)
| InvalidModule (reason : string)
| HostViolation (reason : string)
| GasOverflow
| WasmBackendError (reason : string)
| Other.

Abbreviation pvm_result A := (result A PvmError).

(** ** context.rs *)
(** The trait CryptoVerifier: ML-DSA-87 verification of the crate ml_dsa. *)
Class CryptoVerifier := { crypto_verify : bytes → bytes → bytes → bool }.

(** The trait StateView. *)
Record StateView := MkStateView {
  get_atom : bytes → option Atom;
  view_crystal_index : Z;
  load_contract : bytes → option bytes;
}.

Record ExecutionContext := MkContext {
  state : StateView;
  architect_pk : bytes;
  current_temp : f32;
  crystal_index : Z;
}.

(** limits.rs, as far as the native path uses it. *)
Definition MAX_MODULE_SIZE_BYTES : Z := 4 * 1024 * 1024.
Definition MAX_SAFE_COMPLEXITY : Z := Z.shiftl 1 53.

(** ** pvm.rs *)
Definition lookup_atom (cs : Changeset) (view : StateView) (pk : bytes) : option Atom :=
  match cs_get cs pk with
  | Some a => Some a
  | None => get_atom view pk
  end.

(** The mutable arguments of [execute_single]. *)
Record Accumulator := MkAcc {
  changeset : Changeset;
  total_crystal_heat : f32;
  total_consumed_entropy : f32;
}.
Definition with_changeset (cs : Changeset) (acc : Accumulator) : Accumulator :=
  MkAcc cs (total_crystal_heat acc) (total_consumed_entropy acc).

Section pvm.
Context {HA : Hashes} {CV : CryptoVerifier}.

(** The MiningReward fast path. *)
Definition execute_mining_reward (ctx : ExecutionContext) (rx : SignedReaction) (amount : Z)
    (cs : Changeset) : pvm_result Changeset :=
  guard? bool_decide (public_key (receiver rx) = architect_pk ctx) else InvalidRewardRecipient;
  match lookup_atom cs (state ctx) (architect_pk ctx) with
  | Some arch =>
      let a := set_mass (u64_saturating_add (mass arch) amount) arch in
      let a := set_last_reaction_hash (reaction_hash rx) a in
      Ok (cs_insert (architect_pk ctx) a cs)
  | None => Err AtomNotFound
  end.

(** 1. The signature of the sender, or of the Architect. *)
Definition check_signature (ctx : ExecutionContext) (rx : SignedReaction) : pvm_result unit :=
  let digest := signing_digest rx in
  let is_owner := crypto_verify (public_key (sender rx)) digest (signature rx) in
  let is_architect := crypto_verify (architect_pk ctx) digest (signature rx) in
  if negb is_owner && negb is_architect
  then Err (SignatureRejected (take 4 (public_key (sender rx))) (take 4 digest))
  else Ok tt.

(** 2. The local curvature of a reaction. *)
Definition local_curvature (ctx : ExecutionContext) (rx : SignedReaction)
    (atoms_iter : gmap bytes Atom) (galactic_drift : Z) : f32 :=
  let resonance := calculate_orbital_resonance (public_key (sender rx)) galactic_drift in
  let gravity_assist :=
    calculate_gravity_assist_from_iter (btree_to_list atoms_iter) (public_key (sender rx)) in
  fp_max (f32_sub (f32_sub (get_spacetime_curvature (reaction_hash rx) (current_temp ctx))
                     gravity_assist) resonance) (f32_of_Z 0).

(** 3. The complexity of the operation, by the quantum state of the on-chain sender. *)
Definition quantum_complexity (ctx : ExecutionContext) (rx : SignedReaction)
    (reactions : list SignedReaction) : pvm_result Z :=
  match get_atom (state ctx) (public_key (sender rx)) with
  | Some on_chain_sender =>
      match quantum_state on_chain_sender with
      | Entangled partner_id =>
          let partner_active :=
            existsb (λ r, bool_decide (public_key (sender r) = partner_id)
                          || bool_decide (public_key (receiver r) = partner_id)) reactions in
          if partner_active then Ok (100 + 500) else Err QuantumCollapse
      | Superposition _ => Ok (100 + 250)
      | Stable => Ok 100
      end
  | None => Ok 100
  end.

Definition scale_complexity (operation_complexity : Z) (local_macro_shift : f32) : Z :=
  if fp_gt local_macro_shift (f32_of_Z 0)
  then fp_to_u64 (f32_mul (f32_of_Z operation_complexity) (f32_add (f32_of_Z 1) local_macro_shift))
  else operation_complexity.

(** 4. The nonce of the sender, when it is on chain. *)
Definition check_nonce (on_chain_sender : option Atom) (rx : SignedReaction) : pvm_result unit :=
  match on_chain_sender with
  | Some on_chain =>
      if nonce on_chain =? nonce (sender rx) then Ok tt
      else Err (NonceMismatch (nonce on_chain) (nonce (sender rx)))
  | None => Ok tt
  end.

(** 5. The payloads. *)
Definition execute_transfer (ctx : ExecutionContext) (rx : SignedReaction) (amount : Z)
    (on_chain_sender : option Atom) (cs : Changeset) : pvm_result Changeset :=
  let fee := fp_to_u64 (energy rx) in
  let? total_cost := ok_or (u64_checked_add amount fee) ArithmeticOverflow in
  let? s := ok_or on_chain_sender AtomNotFound in
  guard? negb (mass s <? total_cost) else InsufficientMass (mass s) total_cost;
  let s := set_mass (mass s - total_cost) s in
  let s := set_last_reaction_hash (reaction_hash rx) s in
  let s := set_nonce (u64_saturating_add (nonce s) 1) s in
  let s := (apply_decay s (crystal_index ctx)).1 in
  let s := evolve s in
  let cs := cs_insert (public_key s) s cs in
  let r := default (set_mass 0 (receiver rx))
             (lookup_atom cs (state ctx) (public_key (receiver rx))) in
  let r := (apply_decay r (crystal_index ctx)).1 in
  let r := set_mass (u64_saturating_add (mass r) amount) r in
  let r := evolve r in
  Ok (cs_insert (public_key r) r cs).

Definition execute_generic (ctx : ExecutionContext) (rx : SignedReaction) (tax : Z)
    (on_chain_sender : option Atom) (cs : Changeset) : pvm_result Changeset :=
  let? cs :=
    match on_chain_sender with
    | Some on_chain =>
        let? total_cost :=
          ok_or (u64_checked_add (fp_to_u64 (energy rx)) tax) ArithmeticOverflow in
        let? m := ok_or (u64_checked_sub (mass on_chain) total_cost)
                    (InsufficientMass (mass on_chain) total_cost) in
        let s := set_mass m on_chain in
        let s := set_last_reaction_hash (reaction_hash rx) s in
        let s := set_nonce (u64_saturating_add (nonce s) 1) s in
        Ok (cs_insert (public_key s) s cs)
    | None =>
        if bool_decide (public_key (sender rx) = architect_pk ctx) then
          let genesis := set_mass 1000000000 (sender rx) in
          let genesis := set_last_reaction_hash (reaction_hash rx) genesis in
          Ok (cs_insert (public_key (sender rx)) genesis cs)
        else Err AtomNotFound
    end in
  let r := default (receiver rx) (lookup_atom cs (state ctx) (public_key (receiver rx))) in
  let r := set_mass (u64_saturating_add (mass r) (fp_to_u64 (energy rx))) r in
  let cs := cs_insert (public_key r) r cs in
  if 0 <? tax then
    match lookup_atom cs (state ctx) (architect_pk ctx) with
    | Some arch =>
        Ok (cs_insert (architect_pk ctx) (set_mass (u64_saturating_add (mass arch) tax) arch) cs)
    | None => Ok cs
    end
  else Ok cs.

Definition execute_contract (rx : SignedReaction) (code : bytes)
    (on_chain_sender : option Atom) (cs : Changeset) : pvm_result Changeset :=
  guard? negb (MAX_MODULE_SIZE_BYTES <? len code) else WasmBackendError "Module too large";
  let? s := ok_or on_chain_sender AtomNotFound in
  let storage_cost := len code * 100 in
  guard? negb (mass s <? storage_cost) else InsufficientMass (mass s) storage_cost;
  let s := set_mass (mass s - storage_cost) s in
  let s := set_nonce (u64_saturating_add (nonce s) 1) s in
  let s := set_last_reaction_hash (reaction_hash rx) s in
  let code_hash := sha3_256 code in
  Ok (insert_contract code_hash code (cs_insert (public_key s) s cs)).

(** [PVM::execute_single]. *)
Definition execute_single (ctx : ExecutionContext) (rx : SignedReaction)
    (atoms_iter : gmap bytes Atom) (galactic_drift : Z) (reactions : list SignedReaction)
    (acc : Accumulator) : pvm_result Accumulator :=
  guard? negb (fp_lt (energy rx) (f32_of_Z 0)) else NegativeEnergy;
  match payload rx with
  | MiningReward amount =>
      let? cs := execute_mining_reward ctx rx amount (changeset acc) in
      Ok (with_changeset cs acc)
  | p =>
      let? _ := check_signature ctx rx in
      let curvature := local_curvature ctx rx atoms_iter galactic_drift in
      let heat := f32_add (total_crystal_heat acc) curvature in
      guard? negb (fp_gt heat THERMAL_CAPACITY) else ThermalLimitExceeded;
      let? operation_complexity := quantum_complexity ctx rx reactions in
      let complexity_scaled :=
        scale_complexity operation_complexity (calculate_macro_shift curvature) in
      guard? negb (MAX_SAFE_COMPLEXITY <? complexity_scaled) else ArithmeticOverflow;
      let tax := calculate_entropy_tax complexity_scaled curvature in
      let entropy :=
        f32_add (total_consumed_entropy acc) (f32_mul (f32_of_Z tax) (f32_lit 1 100)) in
      let on_chain_sender := lookup_atom (changeset acc) (state ctx) (public_key (sender rx)) in
      let? _ := check_nonce on_chain_sender rx in
      let? cs :=
        match p with
        | Transfer amount => execute_transfer ctx rx amount on_chain_sender (changeset acc)
        | Generic => execute_generic ctx rx tax on_chain_sender (changeset acc)
        | Contract code => execute_contract rx code on_chain_sender (changeset acc)
        | ContractCall _ _ =>
            Err (WasmBackendError "ContractCall must be handled by PayloadDispatcher")
        | MiningReward _ => Err Other
        | Unknown => Err UnknownPayload
        end in
      Ok (MkAcc cs heat entropy)
  end.

(** The loop of [execute_payload] over the reactions still to execute. *)
Fixpoint execute_all (ctx : ExecutionContext) (atoms_iter : gmap bytes Atom) (drift : Z)
    (reactions todo : list SignedReaction) (acc : Accumulator) : pvm_result Accumulator :=
  match todo with
  | [] => Ok acc
  | rx :: todo =>
      let? acc := execute_single ctx rx atoms_iter drift reactions acc in
      execute_all ctx atoms_iter drift reactions todo acc
  end.

Definition acc_new : Accumulator := MkAcc cs_new (f32_of_Z 0) (f32_of_Z 0).

(** [PVM::execute_payload]. *)
Definition execute_payload (ctx : ExecutionContext) (payload : list SignedReaction)
    (atoms_iter : gmap bytes Atom) : pvm_result (Changeset * f32) :=
  let galactic_drift := get_galactic_drift (crystal_index ctx) in
  let? acc := execute_all ctx atoms_iter galactic_drift payload payload acc_new in
  Ok (changeset acc, total_consumed_entropy acc).
End pvm.

(** ** primus-core/src/pvm.rs: the context the node builds *)
Definition core_state_view (st : StateTree) (contract_store : gmap bytes bytes) : StateView :=
  MkStateView (λ pk, atoms st !! pk) (current_crystal_index st) (λ h, contract_store !! h).

Definition make_execution_context (st : StateTree) (contract_store : gmap bytes bytes)
    (temp : f32) (architect : bytes) : ExecutionContext :=
  MkContext (core_state_view st contract_store) architect
    (f32_of_f64 (to_vm_thermal (f64_of_f32 temp))) (current_crystal_index st).

Definition core_execute_payload `{Hashes, CryptoVerifier} (st : StateTree)
    (contract_store : gmap bytes bytes) (payload : list SignedReaction) (temp : f32)
    (architect : bytes) : pvm_result (Changeset * f32) :=
  execute_payload (make_execution_context st contract_store temp architect) payload (atoms st).
