(* ===== verification/PvmFacts.v ===== *)
(** Correctness of the native execution path: what an accepted batch does to the state.

    The state a batch sees is [view_map]: its write set over the atoms of the tree. *)
From S2P Require Import Prelude Floats Types State Physics Pvm.
Open Scope Z_scope.

Lemma calculate_entropy_tax_nonneg c t : 0 ≤ calculate_entropy_tax c t.
Proof. apply fp_to_u64_nonneg. Qed.

(** Floating-point terms stay folded in this file. *)
#[local] Opaque f32_of_Z f32_add f32_sub f32_mul f32_div local_curvature calculate_macro_shift
  calculate_entropy_tax scale_complexity fp_gt fp_lt fp_to_u64 THERMAL_CAPACITY.

(** ** Well-formed states and reactions *)
(** Every atom is filed under its own key and holds a 64-bit mass. *)
Definition atoms_ok (m : gmap bytes Atom) : Prop :=
  ∀ k a, m !! k = Some a → public_key a = k ∧ 0 ≤ mass a ∧ 0 ≤ nonce a ≤ U64_MAX.
Definition atom_ok (a : Atom) : Prop := 0 ≤ mass a ∧ 0 ≤ nonce a ≤ U64_MAX.

(** The unsigned fields of a reaction are not negative (their Rust types are u64). *)
Definition reaction_ok (rx : SignedReaction) : Prop :=
  atom_ok (sender rx) ∧ atom_ok (receiver rx) ∧ 0 ≤ default 0 (transfer_amount (payload rx)).

Definition is_user (rx : SignedReaction) : Prop :=
  match payload rx with MiningReward _ => False | _ => True end.

Definition total_mass (m : gmap bytes Atom) : Z := map_fold (λ _ a acc, mass a + acc) 0 m.

Definition view_map (base : gmap bytes Atom) (cs : Changeset) : gmap bytes Atom := inner cs ∪ base.

Definition context_over (base : gmap bytes Atom) (ctx : ExecutionContext) : Prop :=
  ∀ pk, get_atom (state ctx) pk = base !! pk.

(** The mass a reaction of a known sender may create: a reward, or the snapshot of the
    receiver that a Generic reaction brings on chain. *)
Definition minted (rx : SignedReaction) : Z :=
  match payload rx with
  | MiningReward amount => amount
  | Generic => mass (receiver rx)
  | _ => 0
  end.

(** The genesis of the Architect: a Generic reaction of an Architect that is not on chain
    brings it there with a billion, and its fee and tax are paid by nobody.  The sender being
    unknown, its complexity is that of a stable atom. *)
Definition genesis_tax `{Hashes} (ctx : ExecutionContext) (atoms_iter : gmap bytes Atom) (drift : Z)
    (rx : SignedReaction) : Z :=
  let curvature := local_curvature ctx rx atoms_iter drift in
  calculate_entropy_tax (scale_complexity 100 (calculate_macro_shift curvature)) curvature.
Definition genesis_mint `{Hashes} (ctx : ExecutionContext) (atoms_iter : gmap bytes Atom) (drift : Z)
    (rx : SignedReaction) : Z :=
  1000000000 + fp_to_u64 (energy rx) + genesis_tax ctx atoms_iter drift rx.
Definition is_architect_generic (ctx : ExecutionContext) (rx : SignedReaction) : bool :=
  match payload rx with Generic => bool_decide (public_key (sender rx) = architect_pk ctx) | _ => false end.
(** It happens at most once in a batch, at the first such reaction, and never once the
    Architect is on chain. *)
Definition genesis_total `{Hashes} (ctx : ExecutionContext) (atoms_iter : gmap bytes Atom) (drift : Z)
    (m : gmap bytes Atom) (rxs : list SignedReaction) : Z :=
  match m !! architect_pk ctx with
  | Some _ => 0
  | None => from_option (genesis_mint ctx atoms_iter drift) 0 (List.find (is_architect_generic ctx) rxs)
  end.

(** Every user reaction of the batch has its sender on chain. *)
Definition senders_known (base : gmap bytes Atom) (rxs : list SignedReaction) : Prop :=
  Forall (λ rx, is_user rx → is_Some (base !! public_key (sender rx))) rxs.

(** ** Sums of masses *)
Lemma total_mass_empty : total_mass ∅ = 0.
Proof. apply map_fold_empty. Qed.

Lemma total_mass_insert_fresh m k a : m !! k = None → total_mass (<[k := a]> m) = mass a + total_mass m.
Proof.
  intros Hk. unfold total_mass. rewrite map_fold_insert_L; [done| |done].
  intros. lia.
Qed.

Lemma total_mass_delete m k a : m !! k = Some a → total_mass m = mass a + total_mass (delete k m).
Proof.
  intros Hk. rewrite <-(insert_delete_id m k a Hk) at 1. apply total_mass_insert_fresh.
  apply lookup_delete_eq.
Qed.

Lemma total_mass_insert m k a :
  total_mass (<[k := a]> m)
  = total_mass m - from_option mass 0 (m !! k) + mass a.
Proof.
  destruct (m !! k) as [b|] eqn:E; simpl.
  - rewrite (total_mass_delete m k b E), <-insert_delete_eq, total_mass_insert_fresh;
      [lia|apply lookup_delete_eq].
  - rewrite total_mass_insert_fresh by done. lia.
Qed.

Lemma total_mass_nonneg m : atoms_ok m → 0 ≤ total_mass m.
Proof.
  induction m as [|k a m Hk IH] using map_ind; intros Hok; [by rewrite total_mass_empty|].
  rewrite total_mass_insert_fresh by done.
  destruct (Hok k a) as (_ & ? & _); [apply lookup_insert_eq|].
  assert (0 ≤ total_mass m); [|lia]. apply IH. intros k' a' Hk'. apply Hok.
  rewrite lookup_insert_ne; [done|]. intros ->. congruence.
Qed.

Lemma atoms_ok_insert m k a :
  atoms_ok m → public_key a = k → atom_ok a → atoms_ok (<[k := a]> m).
Proof.
  intros Hm Hk [? ?] k' a'. rewrite lookup_insert_Some. intros [[<- <-]|[_ ?]]; [done|by apply Hm].
Qed.

(** ** The view through a write set *)
Lemma lookup_atom_view base ctx cs pk :
  context_over base ctx → lookup_atom cs (state ctx) pk = view_map base cs !! pk.
Proof.
  intros Hc. unfold lookup_atom, cs_get, view_map. rewrite lookup_union, Hc.
  by destruct (inner cs !! pk), (base !! pk).
Qed.

Lemma view_map_insert base pk a cs : view_map base (cs_insert pk a cs) = <[pk := a]> (view_map base cs).
Proof. unfold view_map. simpl. by rewrite insert_union_l. Qed.

Lemma view_map_insert_contract base h c cs :
  view_map base (insert_contract h c cs) = view_map base cs.
Proof. done. Qed.

Lemma core_context_over st cst temp arch :
  context_over (atoms st) (make_execution_context st cst temp arch).
Proof. done. Qed.

Lemma saturating_add_le a b : u64_saturating_add a b ≤ a + b.
Proof. unfold u64_saturating_add. lia. Qed.
Lemma saturating_add_nonneg a b : 0 ≤ a → 0 ≤ b → 0 ≤ u64_saturating_add a b.
Proof. unfold u64_saturating_add, U64_MAX. lia. Qed.

(** ** Nonces never decrease *)
Definition nonces_le (m m' : gmap bytes Atom) : Prop :=
  ∀ k a, m !! k = Some a → ∃ a', m' !! k = Some a' ∧ nonce a ≤ nonce a'.

#[export] Instance nonces_le_preorder : PreOrder nonces_le.
Proof.
  split.
  - intros m k a H. exists a. split; [done|lia].
  - intros m1 m2 m3 H1 H2 k a H. destruct (H1 k a H) as (b & Hb & ?).
    destruct (H2 k b Hb) as (c & Hc & ?). exists c. split; [done|lia].
Qed.

Lemma nonces_le_insert m k a :
  (∀ b, m !! k = Some b → nonce b ≤ nonce a) → nonces_le m (<[k := a]> m).
Proof.
  intros H k' b Hb. destruct (decide (k = k')) as [<-|Hne].
  - exists a. rewrite lookup_insert_eq. split; [done|by apply H].
  - exists b. rewrite lookup_insert_ne by done. split; [done|lia].
Qed.

(** What one accepted reaction does: it keeps states well formed, never lowers a nonce,
    and creates at most [minted]. *)
Record step_ok (bound : Z) (m m' : gmap bytes Atom) : Prop := {
  so_ok : atoms_ok m';
  so_nonces : nonces_le m m';
  so_mass : total_mass m' ≤ total_mass m + bound;
}.

Lemma step_ok_insert m k a bound :
  atoms_ok m → public_key a = k → atom_ok a →
  (∀ b, m !! k = Some b → nonce b ≤ nonce a) →
  mass a ≤ from_option mass 0 (m !! k) + bound →
  step_ok bound m (<[k := a]> m).
Proof.
  intros Hm Hk Ha Hn Hb. split.
  - by apply atoms_ok_insert.
  - by apply nonces_le_insert.
  - rewrite total_mass_insert. lia.
Qed.

Lemma step_ok_trans b1 b2 b m1 m2 m3 :
  step_ok b1 m1 m2 → step_ok b2 m2 m3 → b1 + b2 ≤ b → step_ok b m1 m3.
Proof. intros [] [] ?. split; [done|by etrans|lia]. Qed.

Lemma step_ok_le b b' m m' : step_ok b m m' → b ≤ b' → step_ok b' m m'.
Proof. intros [] ?. split; [done|done|lia]. Qed.

Section steps.
Context {HA : Hashes} {CV : CryptoVerifier}.
Context (base : gmap bytes Atom) (ctx : ExecutionContext) (Hctx : context_over base ctx).
Implicit Types (cs : Changeset) (rx : SignedReaction) (acc : Accumulator).

#[local] Abbreviation view := (view_map base).

Lemma nonce_bump_le n : 0 ≤ n ≤ U64_MAX → n ≤ u64_saturating_add n 1 ≤ U64_MAX.
Proof. unfold u64_saturating_add, U64_MAX. lia. Qed.

Definition bumped (m m' : gmap bytes Atom) (k : bytes) : Prop :=
  ∀ a, m !! k = Some a → ∃ a', m' !! k = Some a' ∧ u64_saturating_add (nonce a) 1 ≤ nonce a'.

Lemma bumped_then m1 m2 m3 k : bumped m1 m2 k → nonces_le m2 m3 → bumped m1 m3 k.
Proof.
  intros H1 H2 a Ha. destruct (H1 a Ha) as (b & Hb & ?), (H2 k b Hb) as (c & ? & ?).
  exists c. split; [done|lia].
Qed.

(** Charging a known sender [s]: mass goes down by at least [cost], the nonce up by one. *)
Lemma debit_step m k s s2 cost :
  atoms_ok m → m !! k = Some s → public_key s2 = k →
  nonce s2 = u64_saturating_add (nonce s) 1 → 0 ≤ mass s2 ≤ mass s - cost →
  step_ok (- cost) m (<[k := s2]> m) ∧ bumped m (<[k := s2]> m) k.
Proof.
  intros Hm Hs Hk Hn Hmass. destruct (Hm _ _ Hs) as (_ & _ & Hns).
  pose proof (nonce_bump_le (nonce s) Hns). split.
  - apply step_ok_insert; [done|done|split; lia| |].
    + intros b. rewrite Hs. intros [= <-]. lia.
    + rewrite Hs. simpl. lia.
  - intros b. rewrite Hs. intros [= <-]. exists s2. rewrite lookup_insert_eq. split; [done|lia].
Qed.

(** Crediting the atom at [k], or [r0] when there is none. *)
Lemma credit_step m k r0 r2 amount :
  atoms_ok m → atom_ok r0 → public_key r0 = k → public_key r2 = k → 0 ≤ mass r2 →
  (let r := default r0 (m !! k) in nonce r2 = nonce r ∧ mass r2 ≤ mass r + amount) →
  step_ok (mass r0 + amount) m (<[k := r2]> m).
Proof.
  intros Hm [? ?] Hk0 Hk Hm2 Hr. destruct (m !! k) as [b|] eqn:E; simpl in Hr.
  - destruct (Hm _ _ E) as (_ & ? & ?). apply step_ok_insert; [done|done|split; lia| |].
    + intros b'. rewrite E. intros [= <-]. lia.
    + rewrite E. simpl. lia.
  - apply step_ok_insert; [done|done|split; lia| |].
    + intros b. by rewrite E.
    + rewrite E. simpl. lia.
Qed.

Lemma default_ok m k r0 :
  atoms_ok m → atom_ok r0 → public_key r0 = k →
  public_key (default r0 (m !! k)) = k ∧ atom_ok (default r0 (m !! k)).
Proof.
  intros Hm Hr0 Hk. destruct (m !! k) as [b|] eqn:E; [|done].
  by destruct (Hm _ _ E) as (? & ? & ?).
Qed.

(** The sender's and the receiver's atom after a transfer. *)
Definition transfer_sender (ctx : ExecutionContext) (rx : SignedReaction) (cost : Z) (s : Atom) : Atom :=
  evolve (apply_decay (set_nonce (u64_saturating_add (nonce s) 1)
    (set_last_reaction_hash (reaction_hash rx) (set_mass (mass s - cost) s))) (crystal_index ctx)).1.
Definition transfer_receiver (ctx : ExecutionContext) (amount : Z) (r : Atom) : Atom :=
  let r := (apply_decay r (crystal_index ctx)).1 in
  evolve (set_mass (u64_saturating_add (mass r) amount) r).

Lemma transfer_sender_spec rx cost s :
  cost ≤ mass s →
  let s2 := transfer_sender ctx rx cost s in
  public_key s2 = public_key s ∧ nonce s2 = u64_saturating_add (nonce s) 1 ∧
  0 ≤ mass s2 ≤ mass s - cost.
Proof.
  intros Hc s2. subst s2. unfold transfer_sender.
  rewrite evolve_key, evolve_nonce, evolve_mass, apply_decay_key, apply_decay_nonce.
  split_and!; [done|done|apply apply_decay_mass; simpl; lia..].
Qed.

Lemma transfer_receiver_spec amount r :
  0 ≤ amount → 0 ≤ mass r →
  let r2 := transfer_receiver ctx amount r in
  public_key r2 = public_key r ∧ nonce r2 = nonce r ∧ 0 ≤ mass r2 ≤ mass r + amount.
Proof.
  intros Ha Hr r2. subst r2. unfold transfer_receiver. rewrite evolve_key, evolve_nonce, evolve_mass.
  destruct (apply_decay_mass r (crystal_index ctx) Hr). simpl.
  rewrite apply_decay_key, apply_decay_nonce. split_and!; [done|done| |].
  - by apply saturating_add_nonneg.
  - etrans; [apply saturating_add_le|lia].
Qed.

(** A transfer succeeds exactly when the sender is known and can pay amount and fee;
    the write set then gets the two atoms. *)
Lemma execute_transfer_iff rx amount cs cs' :
  0 ≤ amount → 
  execute_transfer ctx rx amount (view cs !! public_key (sender rx)) cs = Ok cs' ↔
  let cost := amount + fp_to_u64 (energy rx) in
  cost ≤ U64_MAX ∧ ∃ s, view cs !! public_key (sender rx) = Some s ∧ cost ≤ mass s ∧
    let s2 := transfer_sender ctx rx cost s in
    let cs1 := cs_insert (public_key s2) s2 cs in
    let r2 := transfer_receiver ctx amount
      (default (set_mass 0 (receiver rx)) (view cs1 !! public_key (receiver rx))) in
    cs' = cs_insert (public_key r2) r2 cs1.
Proof.
  intros Ha. unfold execute_transfer, u64_checked_add. cbv zeta.
  destruct (Z.leb_spec (amount + fp_to_u64 (energy rx)) U64_MAX) as [Hle|Hgt]; simpl.
  2:{ split; [done|]. intros [? _]. lia. }
  destruct (view cs !! public_key (sender rx)) as [s|]; simpl; [|naive_solver].
  rewrite guard_Ok, negb_true_iff, Z.ltb_ge. rewrite (lookup_atom_view base) by done.
  fold (transfer_sender ctx rx (amount + fp_to_u64 (energy rx)) s). split.
  - intros [? [= <-]]. split; [done|]. by exists s.
  - intros [_ (s' & [= <-] & ? & ->)]. done.
Qed.

Lemma execute_transfer_step rx amount cs cs' :
  atoms_ok (view cs) → reaction_ok rx → 0 ≤ amount →
  execute_transfer ctx rx amount (view cs !! public_key (sender rx)) cs = Ok cs' →
  step_ok 0 (view cs) (view cs') ∧ bumped (view cs) (view cs') (public_key (sender rx)).
Proof.
  intros Hm (_ & Hr & _) Ha. rewrite execute_transfer_iff by done.
  intros (_ & s & Hs & Hc & ->). pose proof (fp_to_u64_nonneg (energy rx)).
  destruct (transfer_sender_spec rx _ s Hc) as (Hk2 & Hn2 & Hm2).
  set (s2 := transfer_sender _ _ _ _) in *. rewrite !view_map_insert.
  destruct (Hm _ _ Hs) as (Hks & _ & _). rewrite Hk2, Hks.
  destruct (debit_step (view cs) _ s s2 (amount + fp_to_u64 (energy rx)) Hm Hs) as [S1 B1];
    [by rewrite Hk2|done|exact Hm2|].
  set (m1 := <[_ := s2]> _) in *.
  destruct (default_ok m1 (public_key (receiver rx)) (set_mass 0 (receiver rx)) (so_ok _ _ _ S1))
    as (Hkr & Hrm & Hrn); [split; [done|apply Hr]|done|].
  destruct (transfer_receiver_spec amount _ Ha Hrm) as (Hk3 & Hn3 & Hm3).
  set (r2 := transfer_receiver _ _ _) in *. rewrite Hk3, Hkr.
  assert (S2 : step_ok (0 + amount) m1 (<[public_key (receiver rx) := r2]> m1)).
  { apply (credit_step m1 _ (set_mass 0 (receiver rx))); [apply S1|split; [done|apply Hr]|done| |lia|].
    - by rewrite Hk3.
    - split; [done|lia]. }
  split; [eapply step_ok_trans; [exact S1|exact S2|lia]|].
  eapply bumped_then; [exact B1|apply S2].
Qed.

Definition charged (cost : Z) (rx : SignedReaction) (s : Atom) : Atom :=
  set_nonce (u64_saturating_add (nonce s) 1)
    (set_last_reaction_hash (reaction_hash rx) (set_mass (mass s - cost) s)).

(** The last step of a Generic reaction: the tax goes to the Architect. *)
Definition pay_tax (tax : Z) (cs : Changeset) : Changeset :=
  if 0 <? tax then
    match lookup_atom cs (state ctx) (architect_pk ctx) with
    | Some arch => cs_insert (architect_pk ctx) (set_mass (u64_saturating_add (mass arch) tax) arch) cs
    | None => cs
    end
  else cs.

Lemma pay_tax_step tax cs :
  atoms_ok (view cs) → 0 ≤ tax → step_ok tax (view cs) (view (pay_tax tax cs)).
Proof.
  intros Hm Ht. unfold pay_tax. rewrite (lookup_atom_view base) by done.
  assert (Hid : step_ok tax (view cs) (view cs)) by (split; [done|done|lia]).
  case_match; [|done]. destruct (view cs !! architect_pk ctx) as [arch|] eqn:E; [|done].
  rewrite view_map_insert. destruct (Hm _ _ E) as (Hk & Hma & Hn).
  replace tax with (mass (set_mass 0 arch) + tax) at 1 by (simpl; lia).
  apply (credit_step (view cs) _ (set_mass 0 arch)); [done|split; [done|apply Hn]|done|done| |].
  - simpl. by apply saturating_add_nonneg.
  - rewrite E. simpl. split; [done|apply saturating_add_le].
Qed.

Lemma execute_generic_known rx tax cs cs' s :
  view cs !! public_key (sender rx) = Some s →
  execute_generic ctx rx tax (view cs !! public_key (sender rx)) cs = Ok cs' →
  let fee := fp_to_u64 (energy rx) in
  fee + tax ≤ mass s ∧
  let s2 := charged (fee + tax) rx s in
  let cs1 := cs_insert (public_key s2) s2 cs in
  let r := default (receiver rx) (view cs1 !! public_key (receiver rx)) in
  let r2 := set_mass (u64_saturating_add (mass r) fee) r in
  cs' = pay_tax tax (cs_insert (public_key r2) r2 cs1).
Proof.
  intros Hs. rewrite Hs. unfold execute_generic, u64_checked_add, u64_checked_sub. cbn [rbind].
  case_match; [|done]. cbn [ok_or rbind].
  destruct (Z.leb_spec (fp_to_u64 (energy rx) + tax) (mass s)); [|done]. cbn [ok_or rbind].
  cbv zeta. rewrite (lookup_atom_view base _ _ (public_key (receiver rx))) by done.
  intros Heq. split; [done|]. unfold pay_tax. unfold charged.
  cbn [nonce set_nonce set_last_reaction_hash set_mass public_key] in *.
  destruct (0 <? tax); [|by injection Heq as <-].
  destruct (lookup_atom _ _ (architect_pk ctx)); by injection Heq as <-.
Qed.

Lemma execute_generic_step rx tax cs cs' :
  atoms_ok (view cs) → reaction_ok rx → 0 ≤ tax →
  is_Some (view cs !! public_key (sender rx)) →
  execute_generic ctx rx tax (view cs !! public_key (sender rx)) cs = Ok cs' →
  step_ok (mass (receiver rx)) (view cs) (view cs') ∧
  bumped (view cs) (view cs') (public_key (sender rx)).
Proof.
  intros Hm (_ & Hr & _) Ht [s Hs] H. pose proof (fp_to_u64_nonneg (energy rx)).
  destruct (execute_generic_known rx tax cs cs' s Hs H) as (Hc & Heq). clear H. cbv zeta in Heq.
  destruct (Hm _ _ Hs) as (Hks & _ & _). set (fee := fp_to_u64 (energy rx)) in *.
  set (s2 := charged (fee + tax) rx s) in *. change (public_key s2) with (public_key s) in Heq.
  rewrite Hks in Heq.
  destruct (debit_step (view cs) _ s s2 (fee + tax) Hm Hs) as [S1 B1]; [exact Hks|done|simpl; lia|].
  rewrite <-view_map_insert in S1, B1.
  set (cs1 := cs_insert _ s2 cs) in *.
  destruct (default_ok (view cs1) (public_key (receiver rx)) (receiver rx) (so_ok _ _ _ S1))
    as (Hkr & Hrm & Hrn); [done|done|].
  set (r := default _ _) in *. set (r2 := set_mass _ r) in *.
  change (public_key r2) with (public_key r) in Heq. rewrite Hkr in Heq. subst cs'.
  assert (S2 : step_ok (mass (receiver rx) + fee) (view cs1)
                 (view (cs_insert (public_key (receiver rx)) r2 cs1))).
  { rewrite view_map_insert. apply credit_step; [apply S1|done|done|done| |].
    - by apply saturating_add_nonneg.
    - split; [done|apply saturating_add_le]. }
  pose proof (pay_tax_step tax _ (so_ok _ _ _ S2) Ht) as S3.
  split.
  - eapply step_ok_trans; [eapply step_ok_trans; [exact S1|exact S2|reflexivity]|exact S3|lia].
  - eapply bumped_then; [exact B1|]. etrans; [apply S2|apply S3].
Qed.

Lemma execute_contract_step rx code cs cs' :
  atoms_ok (view cs) →
  execute_contract rx code (view cs !! public_key (sender rx)) cs = Ok cs' →
  step_ok 0 (view cs) (view cs') ∧ bumped (view cs) (view cs') (public_key (sender rx)).
Proof.
  intros Hm H. unfold execute_contract in H. inv_ok H. rename x into s.
  apply negb_true_iff, Z.ltb_ge in H2. rewrite view_map_insert_contract, view_map_insert.
  destruct (Hm _ _ H1) as (Hks & _ & _). assert (0 ≤ len code * 100) by (unfold len; lia).
  set (s2 := set_last_reaction_hash _ _). change (public_key s2) with (public_key s). rewrite Hks.
  destruct (debit_step (view cs) (public_key (sender rx)) s s2 (len code * 100)) as [S1 B1];
    [done|done|done|done|simpl; lia|].
  split; [eapply step_ok_le; [exact S1|lia]|exact B1].
Qed.

Lemma execute_mining_reward_iff rx amount cs cs' :
  execute_mining_reward ctx rx amount cs = Ok cs' ↔
  public_key (receiver rx) = architect_pk ctx ∧
  ∃ a, view cs !! architect_pk ctx = Some a ∧
    cs' = cs_insert (architect_pk ctx)
            (set_last_reaction_hash (reaction_hash rx)
               (set_mass (u64_saturating_add (mass a) amount) a)) cs.
Proof.
  unfold execute_mining_reward. rewrite guard_Ok, bool_decide_eq_true, (lookup_atom_view base) by done.
  destruct (view cs !! architect_pk ctx); naive_solver.
Qed.

Lemma execute_mining_reward_step rx amount cs cs' :
  atoms_ok (view cs) → 0 ≤ amount → execute_mining_reward ctx rx amount cs = Ok cs' →
  step_ok amount (view cs) (view cs').
Proof.
  intros Hm Ha. rewrite execute_mining_reward_iff. intros (_ & a & Hl & ->).
  rewrite view_map_insert. destruct (Hm _ _ Hl) as (Hk & Hma & Hn).
  replace amount with (mass (set_mass 0 a) + amount) at 1 by (simpl; lia).
  apply (credit_step (view cs) _ (set_mass 0 a)); [done|split; [done|apply Hn]|done|done| |].
  - simpl. by apply saturating_add_nonneg.
  - rewrite Hl. simpl. split; [done|apply saturating_add_le].
Qed.

(** What acceptance of a user reaction implies before its payload is executed. *)
Lemma execute_single_user_inv rx atoms_iter drift reactions acc acc' :
  is_user rx → execute_single ctx rx atoms_iter drift reactions acc = Ok acc' →
  check_signature ctx rx = Ok tt ∧
  (∃ c, quantum_complexity ctx rx reactions = Ok c) ∧
  check_nonce (view (changeset acc) !! public_key (sender rx)) rx = Ok tt ∧
  total_crystal_heat acc' = f32_add (total_crystal_heat acc) (local_curvature ctx rx atoms_iter drift) ∧
  fp_gt (total_crystal_heat acc') THERMAL_CAPACITY = false ∧
  ∃ tax cs', 0 ≤ tax ∧ changeset acc' = cs' ∧
    match payload rx with
    | Transfer amount =>
        execute_transfer ctx rx amount (view (changeset acc) !! public_key (sender rx)) (changeset acc) = Ok cs'
    | Generic =>
        execute_generic ctx rx tax (view (changeset acc) !! public_key (sender rx)) (changeset acc) = Ok cs'
    | Contract code =>
        execute_contract rx code (view (changeset acc) !! public_key (sender rx)) (changeset acc) = Ok cs'
    | _ => False
    end.
Proof.
  unfold is_user, execute_single. intros Hu H. rewrite guard_Ok in H. destruct H as [_ H].
  destruct (payload rx) eqn:Hp; try done.
  all: rewrite (lookup_atom_view base) in H by done; inv_ok H; try done.
  all: repeat match goal with x : unit |- _ => destruct x end.
  all: split_and!; try done; [eauto|by apply negb_true_iff|].
  all: match goal with Hq : quantum_complexity _ _ _ = Ok ?c |- _ =>
         exists (calculate_entropy_tax (scale_complexity c (calculate_macro_shift
           (local_curvature ctx rx atoms_iter drift))) (local_curvature ctx rx atoms_iter drift)) end.
  all: eexists; split_and!; [apply calculate_entropy_tax_nonneg|reflexivity|done].
Qed.

(** One accepted reaction. *)
Lemma execute_single_step rx atoms_iter drift reactions acc acc' :
  atoms_ok (view (changeset acc)) → reaction_ok rx →
  (is_user rx → is_Some (view (changeset acc) !! public_key (sender rx))) →
  execute_single ctx rx atoms_iter drift reactions acc = Ok acc' →
  step_ok (minted rx) (view (changeset acc)) (view (changeset acc')) ∧
  (is_user rx → bumped (view (changeset acc)) (view (changeset acc')) (public_key (sender rx))).
Proof.
  intros Hm Hrx Hknown H. destruct (payload rx) eqn:Hp.
  2:{ destruct (execute_single_user_inv rx _ _ _ _ _ ltac:(by unfold is_user; rewrite Hp) H)
        as (_ & _ & _ & _ & _ & tax & cs' & Ht & -> & He).
      rewrite Hp in He. unfold minted. rewrite Hp.
      assert (Ha : 0 ≤ amount) by (destruct Hrx as (_ & _ & Ha); by rewrite Hp in Ha).
      by destruct (execute_transfer_step rx amount _ _ Hm Hrx Ha He). }
  2:{ unfold execute_single in H. rewrite guard_Ok, Hp in H. destruct H as [_ H]. inv_ok H.
      unfold minted, is_user. rewrite Hp. split; [|done]. simpl.
      eapply execute_mining_reward_step; [done| |done].
      destruct Hrx as (_ & _ & Ha). by rewrite Hp in Ha. }
  all: assert (Hu : is_user rx) by (unfold is_user; by rewrite Hp).
  all: destruct (execute_single_user_inv rx _ _ _ _ _ Hu H)
        as (_ & _ & _ & _ & _ & tax & cs' & Ht & -> & He); rewrite Hp in He; try done.
  all: unfold minted; rewrite Hp.
  - destruct (execute_generic_step rx tax _ _ Hm Hrx Ht (Hknown Hu) He); done.
  - destruct (execute_contract_step rx code _ _ Hm He); done.
Qed.

(** A reaction whose sender is not in the view is accepted only as the genesis of the
    Architect, or as a reward. *)
Lemma execute_single_unknown rx atoms_iter drift reactions acc acc' :
  is_user rx → view (changeset acc) !! public_key (sender rx) = None →
  execute_single ctx rx atoms_iter drift reactions acc = Ok acc' →
  is_architect_generic ctx rx = true ∧
  execute_generic ctx rx (genesis_tax ctx atoms_iter drift rx) None (changeset acc) = Ok (changeset acc').
Proof.
  intros Hu Hnone H. assert (Hb : get_atom (state ctx) (public_key (sender rx)) = None).
  { rewrite Hctx. unfold view_map in Hnone. by apply lookup_union_None in Hnone as [_ ?]. }
  unfold execute_single, quantum_complexity in H. rewrite Hb, (lookup_atom_view base), Hnone in H by done.
  rewrite guard_Ok in H. destruct H as [_ H]. unfold is_user, is_architect_generic in *.
  destruct (payload rx); try done; inv_ok H; try done.
  all: repeat match goal with x : unit |- _ => destruct x end.
  all: match goal with
       | He : execute_generic _ _ _ _ _ = _ |- _ =>
           split; [|exact He]; unfold execute_generic in He; by case_bool_decide
       | He : execute_transfer _ _ _ _ _ = _ |- _ => clear -He; unfold execute_transfer in He; by inv_ok He
       | He : execute_contract _ _ _ _ = _ |- _ => clear -He; unfold execute_contract in He; by inv_ok He
       end.
Qed.

Lemma genesis_step rx atoms_iter drift cs cs' :
  atoms_ok (view cs) → reaction_ok rx → view cs !! public_key (sender rx) = None →
  is_architect_generic ctx rx = true →
  execute_generic ctx rx (genesis_tax ctx atoms_iter drift rx) None cs = Ok cs' →
  step_ok (minted rx + genesis_mint ctx atoms_iter drift rx) (view cs) (view cs') ∧
  is_Some (view cs' !! architect_pk ctx).
Proof.
  intros Hm (Hs & Hr & _) Hnone Harch H. unfold genesis_mint, minted. unfold is_architect_generic in Harch.
  destruct (payload rx); try done. apply bool_decide_eq_true in Harch.
  assert (Ht : 0 ≤ genesis_tax ctx atoms_iter drift rx) by apply calculate_entropy_tax_nonneg.
  revert H Ht. generalize (genesis_tax ctx atoms_iter drift rx). intros tax H Ht.
  pose proof (fp_to_u64_nonneg (energy rx)) as Hf.
  unfold execute_generic in H. rewrite bool_decide_true in H by done. cbn [rbind] in H.
  rewrite (lookup_atom_view base _ _ (public_key (receiver rx))) in H by done.
  set (g := set_last_reaction_hash _ _) in H. set (cs1 := cs_insert _ g cs) in H.
  assert (S1 : step_ok 1000000000 (view cs) (view cs1)).
  { unfold cs1. rewrite view_map_insert. apply step_ok_insert; [done|done|split; [done|apply Hs]| |].
    - intros b. by rewrite Hnone.
    - by rewrite Hnone. }
  destruct (default_ok (view cs1) (public_key (receiver rx)) (receiver rx) (so_ok _ _ _ S1))
    as (Hkr & Hrm & Hrn); [done|done|].
  set (r := default _ _) in *. set (r2 := set_mass _ r) in *.
  change (public_key r2) with (public_key r) in H. rewrite Hkr in H.
  assert (S2 : step_ok (mass (receiver rx) + fp_to_u64 (energy rx)) (view cs1)
                 (view (cs_insert (public_key (receiver rx)) r2 cs1))).
  { rewrite view_map_insert. apply credit_step; [apply S1|done|done|done| |].
    - by apply saturating_add_nonneg.
    - split; [done|apply saturating_add_le]. }
  assert (cs' = pay_tax tax (cs_insert (public_key (receiver rx)) r2 cs1)) as ->.
  { unfold pay_tax. destruct (0 <? tax); [|by injection H as <-].
    by destruct (lookup_atom _ _ (architect_pk ctx)); injection H as <-. }
  pose proof (pay_tax_step tax _ (so_ok _ _ _ S2) Ht) as S3. split.
  - eapply step_ok_trans; [exact S1|eapply step_ok_trans; [exact S2|exact S3|reflexivity]|lia].
  - destruct (so_nonces _ _ _ S2 (architect_pk ctx) g) as (b & Hb & _).
    { unfold cs1. rewrite view_map_insert, Harch. apply lookup_insert_eq. }
    destruct (so_nonces _ _ _ S3 _ _ Hb) as (c & Hc & _). by exists c.
Qed.

(** One accepted reaction of any sender, before the reactions [todo]. *)
Lemma execute_single_total rx todo atoms_iter drift reactions acc acc' :
  atoms_ok (view (changeset acc)) → reaction_ok rx →
  execute_single ctx rx atoms_iter drift reactions acc = Ok acc' →
  step_ok (minted rx + (genesis_total ctx atoms_iter drift (view (changeset acc)) (rx :: todo)
                        - genesis_total ctx atoms_iter drift (view (changeset acc')) todo))
    (view (changeset acc)) (view (changeset acc')).
Proof.
  intros Hm Hrx H.
  assert (Hg : ∀ r, 0 ≤ genesis_mint ctx atoms_iter drift r).
  { intros r. unfold genesis_mint, genesis_tax. pose proof (fp_to_u64_nonneg (energy r)).
    match goal with |- context [calculate_entropy_tax ?a ?b] => pose proof (calculate_entropy_tax_nonneg a b) end. lia. }
  assert (Hle : nonces_le (view (changeset acc)) (view (changeset acc')) →
                (is_architect_generic ctx rx = true → view (changeset acc) !! architect_pk ctx = None →
                 is_Some (view (changeset acc') !! architect_pk ctx)) →
                genesis_total ctx atoms_iter drift (view (changeset acc')) todo
                ≤ genesis_total ctx atoms_iter drift (view (changeset acc)) (rx :: todo)).
  { intros Hn Ha. unfold genesis_total. cbn [List.find].
    destruct (view (changeset acc) !! architect_pk ctx) as [a|] eqn:E.
    - destruct (Hn _ _ E) as (b & -> & _). done.
    - destruct (view (changeset acc') !! architect_pk ctx) eqn:E'.
      + destruct (is_architect_generic ctx rx); [apply Hg|]. destruct (List.find _ _); [apply Hg|done].
      + destruct (is_architect_generic ctx rx); [|done]. by destruct (Ha eq_refl eq_refl). }
  assert (Hdec : (is_user rx ∧ view (changeset acc) !! public_key (sender rx) = None) ∨
                 (is_user rx → is_Some (view (changeset acc) !! public_key (sender rx)))).
  { destruct (view (changeset acc) !! public_key (sender rx)) eqn:E; [right; by eexists|].
    unfold is_user. destruct (payload rx); auto; by right. }
  destruct Hdec as [[Hu Hnone]|Hk].
  - destruct (execute_single_unknown rx _ _ _ _ _ Hu Hnone H) as [Harch He].
    destruct (genesis_step rx _ _ _ _ Hm Hrx Hnone Harch He) as [S1 [b Hb]].
    eapply step_ok_le; [exact S1|]. unfold genesis_total. cbn [List.find]. rewrite Harch, Hb. cbn [from_option].
    assert (view (changeset acc) !! architect_pk ctx = None) as ->; [|lia].
    unfold is_architect_generic in Harch. destruct (payload rx); try done.
    apply bool_decide_eq_true in Harch. by rewrite <-Harch.
  - destruct (execute_single_step rx _ _ _ _ _ Hm Hrx Hk H) as [S1 _].
    eapply step_ok_le; [exact S1|]. enough (genesis_total ctx atoms_iter drift (view (changeset acc')) todo
                ≤ genesis_total ctx atoms_iter drift (view (changeset acc)) (rx :: todo)) by lia.
    apply Hle; [apply S1|]. unfold is_architect_generic. intros Ha Hnone. exfalso.
    assert (Hu : is_user rx) by (unfold is_user; by destruct (payload rx)).
    destruct (payload rx); try done. apply bool_decide_eq_true in Ha. rewrite <-Ha in Hnone.
    destruct (Hk Hu). congruence.
Qed.
End steps.

(** ** Batches *)
Section batch.
Context {HA : Hashes} {CV : CryptoVerifier}.
Implicit Types (rx : SignedReaction) (rxs : list SignedReaction) (st : StateTree).

Definition minted_total rxs : Z := foldr (λ rx n, minted rx + n) 0 rxs.

Lemma is_user_dec rx : is_user rx ∨ ¬ is_user rx.
Proof. unfold is_user. destruct (payload rx); auto. Qed.

Lemma nonces_le_dom m m' k : nonces_le m m' → is_Some (m !! k) → is_Some (m' !! k).
Proof. intros H [a Ha]. destruct (H k a Ha) as (b & ? & _). by exists b. Qed.

Lemma execute_all_step base ctx atoms_iter drift reactions todo acc acc' :
  context_over base ctx →
  atoms_ok (view_map base (changeset acc)) → Forall reaction_ok todo →
  senders_known (view_map base (changeset acc)) todo →
  execute_all ctx atoms_iter drift reactions todo acc = Ok acc' →
  step_ok (minted_total todo) (view_map base (changeset acc)) (view_map base (changeset acc')).
Proof.
  intros Hc. revert acc; induction todo as [|rx todo IH]; intros acc Hm Hok Hk H; simpl in H.
  { injection H as <-. split; [done|done|simpl; lia]. }
  apply rbind_Ok in H as (acc1 & H1 & H). apply Forall_cons in Hok as [Hrx Hok].
  apply Forall_cons in Hk as [Hknown Hk].
  destruct (execute_single_step base ctx Hc rx _ _ _ _ _ Hm Hrx Hknown H1) as [S1 _].
  eapply step_ok_trans; [exact S1|apply (IH acc1); try done; [apply S1|]|simpl; lia].
  eapply Forall_impl; [exact Hk|]. intros rx' Hrx' Hu. eapply nonces_le_dom; [apply S1|auto].
Qed.

Lemma execute_all_total base ctx atoms_iter drift reactions todo acc acc' :
  context_over base ctx → atoms_ok (view_map base (changeset acc)) → Forall reaction_ok todo →
  execute_all ctx atoms_iter drift reactions todo acc = Ok acc' →
  step_ok (minted_total todo + genesis_total ctx atoms_iter drift (view_map base (changeset acc)) todo)
    (view_map base (changeset acc)) (view_map base (changeset acc')).
Proof.
  intros Hc. revert acc; induction todo as [|rx todo IH]; intros acc Hm Hok H; simpl in H.
  { injection H as <-. split; [done|done|]. unfold genesis_total. simpl. by destruct (_ !! _); simpl; lia. }
  apply rbind_Ok in H as (acc1 & H1 & H). apply Forall_cons in Hok as [Hrx Hok].
  pose proof (execute_single_total base ctx Hc rx todo _ _ _ _ _ Hm Hrx H1) as S1.
  eapply step_ok_trans; [exact S1|apply (IH acc1); try done; apply S1|]. cbn [minted_total foldr].
  unfold minted_total. lia.
Qed.

Lemma execute_all_app ctx atoms_iter drift reactions l1 l2 acc :
  execute_all ctx atoms_iter drift reactions (l1 ++ l2) acc
  = let? acc := execute_all ctx atoms_iter drift reactions l1 acc in
    execute_all ctx atoms_iter drift reactions l2 acc.
Proof.
  revert acc; induction l1 as [|rx l1 IH]; intros acc; simpl; [done|].
  destruct (execute_single _ _ _ _ _ _); simpl; [apply IH|done].
Qed.

Lemma core_execute_payload_inv st cst rxs temp arch cs e :
  core_execute_payload st cst rxs temp arch = Ok (cs, e) →
  let ctx := make_execution_context st cst temp arch in
  ∃ acc, execute_all ctx (atoms st) (get_galactic_drift (crystal_index ctx)) rxs rxs acc_new = Ok acc ∧
    changeset acc = cs.
Proof.
  unfold core_execute_payload, execute_payload. intros H. inv_ok H. eauto.
Qed.

Lemma view_map_new base : view_map base cs_new = base.
Proof. unfold view_map. simpl. by rewrite (left_id_L ∅ (∪)). Qed.

Lemma batch_step st cst rxs temp arch cs e :
  atoms_ok (atoms st) → Forall reaction_ok rxs → senders_known (atoms st) rxs →
  core_execute_payload st cst rxs temp arch = Ok (cs, e) →
  step_ok (minted_total rxs) (atoms st) (atoms (apply_changeset st cs)).
Proof.
  intros Hm Hok Hk H. destruct (core_execute_payload_inv _ _ _ _ _ _ _ H) as (acc & Hall & <-).
  rewrite apply_changeset_union. rewrite <-(view_map_new (atoms st)) at 1.
  apply (execute_all_step (atoms st)) in Hall; try done; by rewrite view_map_new.
Qed.

(** C1. An accepted batch, whoever its senders, creates no mass beyond its rewards, the
    snapshots of Generic receivers and the genesis of the Architect (once, and only while the
    Architect is not on chain: a billion, with the fee and the tax of that reaction); it keeps
    every atom under its own key, and lowers no nonce. *)
Theorem batch_supply_bound st cst rxs temp arch cs e :
  atoms_ok (atoms st) → Forall reaction_ok rxs →
  core_execute_payload st cst rxs temp arch = Ok (cs, e) →
  let ctx := make_execution_context st cst temp arch in
  let drift := get_galactic_drift (crystal_index ctx) in
  total_mass (atoms (apply_changeset st cs))
  ≤ total_mass (atoms st) + minted_total rxs + genesis_total ctx (atoms st) drift (atoms st) rxs ∧
  atoms_ok (atoms (apply_changeset st cs)) ∧
  nonces_le (atoms st) (atoms (apply_changeset st cs)).
Proof.
  intros Hm Hok H. destruct (core_execute_payload_inv _ _ _ _ _ _ _ H) as (acc & Hall & <-). cbv zeta.
  rewrite apply_changeset_union. apply (execute_all_total (atoms st)) in Hall; try done; [|by rewrite view_map_new].
  rewrite view_map_new in Hall. destruct Hall as [? ? Hmass]. split; [|done]. rewrite <-Z.add_assoc. exact Hmass.
Qed.

Definition is_transfer_or_deploy rx : Prop :=
  match payload rx with Transfer _ | Contract _ => True | _ => False end.

(** A batch of transfers and deployments never increases the total mass. *)
Theorem transfers_never_mint st cst rxs temp arch cs e :
  atoms_ok (atoms st) → Forall reaction_ok rxs → senders_known (atoms st) rxs →
  Forall is_transfer_or_deploy rxs →
  core_execute_payload st cst rxs temp arch = Ok (cs, e) →
  0 ≤ total_mass (atoms (apply_changeset st cs)) ≤ total_mass (atoms st).
Proof.
  intros Hm Hok Hk Ht H. destruct (batch_step _ _ _ _ _ _ _ Hm Hok Hk H) as [Hok' _ Hmass].
  split; [by apply total_mass_nonneg|].
  assert (minted_total rxs = 0); [|lia]. clear -Ht.
  induction Ht as [|rx rxs Hrx _ IH]; [done|]. simpl. rewrite IH.
  unfold is_transfer_or_deploy, minted in *. by destruct (payload rx).
Qed.

(** What was accepted inside a batch. *)
Lemma batch_split st cst pre rx post temp arch cs e :
  core_execute_payload st cst (pre ++ rx :: post) temp arch = Ok (cs, e) →
  let ctx := make_execution_context st cst temp arch in
  let drift := get_galactic_drift (crystal_index ctx) in
  let all := pre ++ rx :: post in
  ∃ acc1 acc2 acc3,
    execute_all ctx (atoms st) drift all pre acc_new = Ok acc1 ∧
    execute_single ctx rx (atoms st) drift all acc1 = Ok acc2 ∧
    execute_all ctx (atoms st) drift all post acc2 = Ok acc3 ∧ changeset acc3 = cs.
Proof.
  intros H. destruct (core_execute_payload_inv _ _ _ _ _ _ _ H) as (acc & Hall & <-).
  rewrite execute_all_app in Hall. apply rbind_Ok in Hall as (acc1 & H1 & Hall).
  simpl in Hall. apply rbind_Ok in Hall as (acc2 & H2 & H3). naive_solver.
Qed.

(** Accepting a user reaction: the sender's nonce is the one it was signed for, and the
    batch leaves a larger one. *)
Lemma batch_user_nonce st cst pre rx post temp arch cs e :
  atoms_ok (atoms st) → Forall reaction_ok (pre ++ rx :: post) →
  senders_known (atoms st) (pre ++ rx :: post) → is_user rx →
  core_execute_payload st cst (pre ++ rx :: post) temp arch = Ok (cs, e) →
  ∃ a, atoms (apply_changeset st cs) !! public_key (sender rx) = Some a ∧
    u64_saturating_add (nonce (sender rx)) 1 ≤ nonce a.
Proof.
  intros Hm Hok Hk Hu H. destruct (batch_split _ _ _ _ _ _ _ _ _ H) as (a1 & a2 & a3 & H1 & H2 & H3 & <-).
  set (ctx := make_execution_context st cst temp arch) in *.
  apply Forall_app in Hok as [Hok1 [Hrx Hok2]%Forall_cons].
  apply Forall_app in Hk as [Hk1 [Hkn Hk2]%Forall_cons].
  pose proof (core_context_over st cst temp arch) as Hc. fold ctx in Hc.
  assert (S1 : step_ok (minted_total pre) (view_map (atoms st) (changeset acc_new))
                 (view_map (atoms st) (changeset a1)))
    by (eapply execute_all_step; try done; by rewrite view_map_new).
  rewrite view_map_new in S1.
  assert (Hkn1 : is_user rx → is_Some (view_map (atoms st) (changeset a1) !! public_key (sender rx)))
    by (intros _; eapply nonces_le_dom; [apply S1|auto]).
  destruct (execute_single_step _ _ Hc rx _ _ _ _ _ (so_ok _ _ _ S1) Hrx Hkn1 H2) as [S2 B2].
  assert (S3 : step_ok (minted_total post) (view_map (atoms st) (changeset a2))
                 (view_map (atoms st) (changeset a3))).
  { eapply execute_all_step; try done; [apply S2|]. eapply Forall_impl; [exact Hk2|].
    intros rx' Hrx' Hu'. eapply nonces_le_dom; [|by apply Hrx']. etrans; [apply S1|apply S2]. }
  destruct (execute_single_user_inv _ _ Hc rx _ _ _ _ _ Hu H2) as (_ & _ & Hn & _).
  destruct (Hkn1 Hu) as [s Hs]. unfold check_nonce in Hn. rewrite Hs in Hn.
  destruct (Z.eqb_spec (nonce s) (nonce (sender rx))) as [Heq|]; [|done].
  destruct (bumped_then _ _ _ _ (B2 Hu) (so_nonces _ _ _ S3) s Hs) as (a & Ha & Hle).
  exists a. rewrite apply_changeset_union, <-Heq. done.
Qed.


(** C3. No reaction enters an accepted batch without a signature: each one that is not
    a mining reward carries a valid signature of its sender or of the Architect over its
    signing digest. *)
Theorem batch_signatures_valid st cst rxs temp arch cs e rx :
  core_execute_payload st cst rxs temp arch = Ok (cs, e) → rx ∈ rxs → is_user rx →
  crypto_verify (public_key (sender rx)) (signing_digest rx) (signature rx) = true ∨
  crypto_verify arch (signing_digest rx) (signature rx) = true.
Proof.
  intros H (pre & post & ->)%list_elem_of_split Hu.
  destruct (batch_split _ _ _ _ _ _ _ _ _ H) as (a1 & a2 & a3 & _ & H2 & _).
  pose proof (core_context_over st cst temp arch) as Hc.
  destruct (execute_single_user_inv _ _ Hc rx _ _ _ _ _ Hu H2) as (Hs & _).
  unfold check_signature in Hs. cbn [architect_pk make_execution_context] in Hs.
  destruct (crypto_verify (public_key (sender rx)) _ _); [by left|].
  destruct (crypto_verify arch _ _); [by right|done].
Qed.
End batch.

(** ** Single payloads *)
Section payloads.
Context {HA : Hashes} {CV : CryptoVerifier}.
Implicit Types (rx : SignedReaction).

Lemma transfer_confirms base ctx rx amount atoms_iter drift rxs acc cs' :
  context_over base ctx → payload rx = Transfer amount → 0 ≤ amount →
  (∃ acc', execute_single ctx rx atoms_iter drift rxs acc = Ok acc' ∧ changeset acc' = cs') ↔
  let cost := amount + fp_to_u64 (energy rx) in
  let curvature := local_curvature ctx rx atoms_iter drift in
  fp_lt (energy rx) (f32_of_Z 0) = false ∧
  (crypto_verify (public_key (sender rx)) (signing_digest rx) (signature rx) = true ∨
   crypto_verify (architect_pk ctx) (signing_digest rx) (signature rx) = true) ∧
  fp_gt (f32_add (total_crystal_heat acc) curvature) THERMAL_CAPACITY = false ∧
  (∃ c, quantum_complexity ctx rx rxs = Ok c ∧
        scale_complexity c (calculate_macro_shift curvature) ≤ MAX_SAFE_COMPLEXITY) ∧
  cost ≤ U64_MAX ∧
  ∃ s, view_map base (changeset acc) !! public_key (sender rx) = Some s ∧
    nonce s = nonce (sender rx) ∧ cost ≤ mass s ∧
    let s2 := transfer_sender ctx rx cost s in
    let cs1 := cs_insert (public_key s2) s2 (changeset acc) in
    let r2 := transfer_receiver ctx amount
      (default (set_mass 0 (receiver rx)) (view_map base cs1 !! public_key (receiver rx))) in
    cs' = cs_insert (public_key r2) r2 cs1.
Proof.
  intros Hc Hp Ha. unfold execute_single. rewrite Hp. cbv zeta.
  rewrite (lookup_atom_view base) by done.
  assert (Hsig : check_signature ctx rx = Ok tt ↔
    (crypto_verify (public_key (sender rx)) (signing_digest rx) (signature rx) = true ∨
     crypto_verify (architect_pk ctx) (signing_digest rx) (signature rx) = true)).
  { unfold check_signature. destruct (crypto_verify _ _ _), (crypto_verify _ _ _); naive_solver. }
  assert (Hn : ∀ s, check_nonce (Some s) rx = Ok tt ↔ nonce s = nonce (sender rx)).
  { intros s. unfold check_nonce. destruct (Z.eqb_spec (nonce s) (nonce (sender rx))); naive_solver. }
  split.
  - intros (acc' & H & <-). inv_ok H. rename x0 into c.
    repeat match goal with u : unit |- _ => destruct u end.
    match goal with He : execute_transfer _ _ _ _ _ = Ok _ |- _ =>
      apply (execute_transfer_iff base ctx Hc rx amount _ _ Ha) in He as (Hmax & s & Hs & Hcost & Heq) end.
    rewrite Hs in *. rewrite negb_true_iff in *. rewrite Z.ltb_ge in *.
    split_and!; try done; [by apply Hsig|by exists c|]. exists s. split_and!; try done. by apply Hn.
  - intros (He & Hs & Hh & (c & Hq & Hsc) & Hmax & s & Hl & Hnn & Hcost & ->).
    rewrite He, (proj2 Hsig Hs). cbn [negb rbind]. rewrite Hh, Hq. cbn [negb rbind].
    rewrite (proj2 (Z.ltb_ge _ _) Hsc). cbn [negb]. rewrite Hl, (proj2 (Hn s) Hnn). cbn [rbind].
    rewrite <-Hl. erewrite (proj2 (execute_transfer_iff base ctx Hc rx amount (changeset acc) _ Ha));
      [|split; [done|]; exists s; split_and!; [done|done|reflexivity]].
    cbn [rbind]. eexists. split; [reflexivity|done].
Qed.

(** C4. A transfer is confirmed exactly when: the fee is not negative, the sender or the
    Architect signed it, the crystal stays below the thermal capacity, the sender's
    partner (if entangled) is active, the complexity is in range, the nonce is the
    on-chain one, and the sender can pay amount and fee.  The write set then gets the
    charged sender and the credited receiver, and nothing else. *)
Theorem transfer_confirms_iff base ctx rx amount atoms_iter drift rxs acc cs' :
  context_over base ctx → payload rx = Transfer amount → 0 ≤ amount →
  (∃ acc', execute_single ctx rx atoms_iter drift rxs acc = Ok acc' ∧ changeset acc' = cs') ↔
  let cost := amount + fp_to_u64 (energy rx) in
  let curvature := local_curvature ctx rx atoms_iter drift in
  fp_lt (energy rx) (f32_of_Z 0) = false ∧
  (crypto_verify (public_key (sender rx)) (signing_digest rx) (signature rx) = true ∨
   crypto_verify (architect_pk ctx) (signing_digest rx) (signature rx) = true) ∧
  fp_gt (f32_add (total_crystal_heat acc) curvature) THERMAL_CAPACITY = false ∧
  (∃ c, quantum_complexity ctx rx rxs = Ok c ∧
        scale_complexity c (calculate_macro_shift curvature) ≤ MAX_SAFE_COMPLEXITY) ∧
  cost ≤ U64_MAX ∧
  ∃ s, view_map base (changeset acc) !! public_key (sender rx) = Some s ∧
    nonce s = nonce (sender rx) ∧ cost ≤ mass s ∧
    let s2 := transfer_sender ctx rx cost s in
    let cs1 := cs_insert (public_key s2) s2 (changeset acc) in
    let r2 := transfer_receiver ctx amount
      (default (set_mass 0 (receiver rx)) (view_map base cs1 !! public_key (receiver rx))) in
    cs' = cs_insert (public_key r2) r2 cs1.
Proof. apply transfer_confirms. Qed.

(** A mining reward names any amount: whatever its hash, signature and amount, it is
    accepted when its receiver is the Architect and the Architect is on chain. *)
Theorem mining_reward_unchecked base ctx rx amount arch atoms_iter drift rxs acc :
  context_over base ctx → payload rx = MiningReward amount →
  fp_lt (energy rx) (f32_of_Z 0) = false →
  public_key (receiver rx) = architect_pk ctx →
  view_map base (changeset acc) !! architect_pk ctx = Some arch →
  execute_single ctx rx atoms_iter drift rxs acc =
  Ok (with_changeset
        (cs_insert (architect_pk ctx)
           (set_last_reaction_hash (reaction_hash rx)
              (set_mass (u64_saturating_add (mass arch) amount) arch)) (changeset acc)) acc).
Proof.
  intros Hc Hp He Hr Ha. unfold execute_single. rewrite He, Hp. cbn [negb].
  erewrite (proj2 (execute_mining_reward_iff base ctx Hc rx amount (changeset acc) _)); [done|].
  split; [done|]. exists arch. split; [done|reflexivity].
Qed.

(** An entangled sender can never act: partner identifiers have 32 bytes and the
    keys of valid reactions 2592, so no reaction of the batch counts as the partner. *)
Theorem entangled_sender_never_confirms base ctx rx partner s atoms_iter drift rxs acc acc' :
  context_over base ctx → is_user rx →
  base !! public_key (sender rx) = Some s → quantum_state s = Entangled partner →
  len partner = 32 → Forall structurally_valid rxs →
  execute_single ctx rx atoms_iter drift rxs acc ≠ Ok acc'.
Proof.
  intros Hc Hu Hs Hq Hlen Hval H.
  destruct (execute_single_user_inv _ _ Hc rx _ _ _ _ _ Hu H) as (_ & (c & Hqc) & _).
  unfold quantum_complexity in Hqc. rewrite Hc, Hs, Hq in Hqc.
  destruct (existsb _ _) eqn:E; [|done]. apply existsb_exists in E as (r & Hr & Hor).
  apply list_elem_of_In in Hr. rewrite Forall_forall in Hval. destruct (Hval r Hr) as (H1 & H2 & _).
  unfold PK_BYTES in *. apply orb_true_iff in Hor as [Heq|Heq];
    apply bool_decide_eq_true in Heq; rewrite Heq in *; lia.
Qed.
End payloads.
