(* ===== verification/PvmExamples.v ===== *)
(** Concrete batches: the theorems on the virtual machine applied to a small chain, with
    a toy signature scheme.  Nothing else depends on this file. *)
From S2P Require Import Prelude Floats Types State Physics Pvm PvmFacts.
Open Scope Z_scope.

#[local] Existing Instance checksum_hashes.
(** A signature is valid when it starts with the first byte of the key. *)
#[local] Instance toy_crypto : CryptoVerifier :=
  {| crypto_verify pk _ sig := bool_decide (head pk = head sig ∧ pk ≠ []) |}.

Definition atom_at (k m n : Z) : Atom := set_nonce n (set_mass m (new_receiver [k])).
Definition chain : StateTree :=
  MkStateTree (<[[1] := atom_at 1 1000000 7]> (<[[2] := atom_at 2 5000 0]>
    (<[[9] := atom_at 9 10 0]> ∅))) 3 metrics_default.

Definition tx (from to n fee : Z) (p : Payload) : SignedReaction :=
  MkReaction (atom_at from 0 n) (atom_at to 0 0) (replicate 32 1) (f32_of_Z fee) 0 [from] p.

(** A transfer to a known atom, one to a new atom, a deployment and a reward. *)
Definition batch : list SignedReaction :=
  [tx 1 2 7 10 (Transfer 300); tx 1 3 8 10 (Transfer 50); tx 2 2 0 10 (Contract [1; 2])].
Definition reward : SignedReaction := tx 5 9 0 0 (MiningReward 10).

Definition run (st : StateTree) (rxs : list SignedReaction) : pvm_result (Changeset * f32) :=
  core_execute_payload st ∅ rxs (f32_of_Z 300) [9].
Definition result_of (st : StateTree) (rxs : list SignedReaction) : Changeset * f32 :=
  match run st rxs with Ok r => r | Err _ => (cs_new, f32_of_Z 0) end.

(** Masses afterwards: the amounts and the fees have left the first atom. *)
Example batch_masses :
  (λ k, mass <$> inner (result_of chain (batch ++ [reward])).1 !! k) <$> [[1]; [2]; [3]; [9]]
  = [Some 999630; Some 5100; Some 50; Some 20].
Proof. vm_compute. reflexivity. Qed.

Lemma run_ok st rxs :
  is_ok (run st rxs) = true →
  core_execute_payload st ∅ rxs (f32_of_Z 300) [9] = Ok ((result_of st rxs).1, (result_of st rxs).2).
Proof. unfold result_of, run, is_ok. by destruct (core_execute_payload _ _ _ _ _) as [[]|]. Qed.

(** ** The hypotheses, by computation *)
Definition atom_ok_b (a : Atom) : bool := (0 <=? mass a) && (0 <=? nonce a) && (nonce a <=? U64_MAX).
Lemma atom_ok_compute a : atom_ok_b a = true → atom_ok a.
Proof. unfold atom_ok_b, atom_ok. rewrite !andb_true_iff, !Z.leb_le. lia. Qed.

Definition atoms_ok_b (m : gmap bytes Atom) : bool :=
  forallb (λ p, bool_decide (public_key p.2 = p.1) && atom_ok_b p.2) (map_to_list m).
Lemma atoms_ok_compute m : atoms_ok_b m = true → atoms_ok m.
Proof.
  unfold atoms_ok_b. rewrite forallb_forall. intros H k a Hk.
  specialize (H (k, a)). rewrite <-list_elem_of_In, elem_of_map_to_list, andb_true_iff,
    bool_decide_eq_true in H. destruct (H Hk) as [? Ha]. split; [done|by apply atom_ok_compute].
Qed.

Definition reaction_ok_b (rx : SignedReaction) : bool :=
  atom_ok_b (sender rx) && atom_ok_b (receiver rx) && (0 <=? default 0 (transfer_amount (payload rx))).
Lemma reactions_ok_compute rxs : forallb reaction_ok_b rxs = true → Forall reaction_ok rxs.
Proof.
  rewrite forallb_forall, Forall_forall. intros H rx Hrx%list_elem_of_In. specialize (H rx Hrx).
  unfold reaction_ok_b in H. rewrite !andb_true_iff, Z.leb_le in H.
  destruct H as [[? ?] ?]. split_and!; [by apply atom_ok_compute..|done].
Qed.

Definition senders_known_b (m : gmap bytes Atom) (rxs : list SignedReaction) : bool :=
  forallb (λ rx, match payload rx with
                 | MiningReward _ => true
                 | _ => bool_decide (is_Some (m !! public_key (sender rx)))
                 end) rxs.
Lemma senders_known_compute m rxs : senders_known_b m rxs = true → senders_known m rxs.
Proof.
  unfold senders_known_b, senders_known. rewrite forallb_forall, Forall_forall.
  intros H rx Hrx%list_elem_of_In. specialize (H rx Hrx). unfold is_user.
  destruct (payload rx); try done; intros _; by apply bool_decide_eq_true in H.
Qed.

Definition after_batch : StateTree := apply_changeset chain (result_of chain batch).1.

(** ** The theorems applied *)
(** The reward is all that a batch on this chain may create; on the chain without the
    Architect, a Generic reaction of its may create a billion more, with fee and tax. *)
Definition genesis_batch : list SignedReaction := [tx 9 3 0 10 Generic].
Definition bare_chain : StateTree := MkStateTree (<[[1] := atom_at 1 1000000 7]> ∅) 3 metrics_default.
Lemma batch_supply_bound_witness :
  total_mass (atoms (apply_changeset chain (result_of chain (batch ++ [reward])).1))
  ≤ total_mass (atoms chain) + 10 ∧
  is_ok (run bare_chain genesis_batch) = true ∧
  total_mass (atoms (apply_changeset bare_chain (result_of bare_chain genesis_batch).1))
  ≤ total_mass (atoms bare_chain) + 1000000410.
Proof.
  split; [|split].
  - refine (proj1 (batch_supply_bound chain ∅ (batch ++ [reward]) (f32_of_Z 300) [9]
      (result_of chain (batch ++ [reward])).1 (result_of chain (batch ++ [reward])).2 _ _ _)).
    + apply atoms_ok_compute. vm_compute. reflexivity.
    + apply reactions_ok_compute. vm_compute. reflexivity.
    + apply run_ok. vm_compute. reflexivity.
  - vm_compute. reflexivity.
  - etrans; [refine (proj1 (batch_supply_bound bare_chain ∅ genesis_batch (f32_of_Z 300) [9]
      (result_of bare_chain genesis_batch).1 (result_of bare_chain genesis_batch).2 _ _ _))|].
    + apply atoms_ok_compute. vm_compute. reflexivity.
    + apply reactions_ok_compute. vm_compute. reflexivity.
    + apply run_ok. vm_compute. reflexivity.
    + apply Z.leb_le. vm_compute. reflexivity.
Defined.

Lemma transfers_never_mint_witness :
  0 ≤ total_mass (atoms after_batch) ≤ total_mass (atoms chain).
Proof.
  refine (transfers_never_mint chain ∅ batch (f32_of_Z 300) [9]
    (result_of chain batch).1 (result_of chain batch).2 _ _ _ _ _).
  - apply atoms_ok_compute. vm_compute. reflexivity.
  - apply reactions_ok_compute. vm_compute. reflexivity.
  - apply senders_known_compute. vm_compute. reflexivity.
  - repeat constructor.
  - apply run_ok. vm_compute. reflexivity.
Defined.


Lemma batch_signatures_valid_witness :
  crypto_verify [1] (signing_digest (tx 1 3 8 10 (Transfer 50))) [1] = true ∨
  crypto_verify [9] (signing_digest (tx 1 3 8 10 (Transfer 50))) [1] = true.
Proof.
  refine (batch_signatures_valid chain ∅ batch (f32_of_Z 300) [9]
    (result_of chain batch).1 (result_of chain batch).2 (tx 1 3 8 10 (Transfer 50)) _ _ I).
  - apply run_ok. vm_compute. reflexivity.
  - right. left.
Defined.

Definition ctx0 : ExecutionContext := make_execution_context chain ∅ (f32_of_Z 300) [9].

Definition single (rx : SignedReaction) : pvm_result Accumulator :=
  execute_single ctx0 rx (atoms chain) 3 [rx] acc_new.
Definition single_of (rx : SignedReaction) : Accumulator :=
  match single rx with Ok acc => acc | Err _ => acc_new end.

Lemma transfer_confirms_iff_witness :
  ∃ s, view_map (atoms chain) cs_new !! [1] = Some s ∧ nonce s = 7 ∧ 310 ≤ mass s.
Proof.
  destruct (proj1 (transfer_confirms_iff (atoms chain) ctx0 (tx 1 2 7 10 (Transfer 300)) 300
    (atoms chain) 3 [tx 1 2 7 10 (Transfer 300)] acc_new
    (changeset (single_of (tx 1 2 7 10 (Transfer 300))))
    (λ _, eq_refl) eq_refl ltac:(discriminate))) as (_ & _ & _ & _ & _ & s & Hs & Hn & Hc & _).
  - exists (single_of (tx 1 2 7 10 (Transfer 300))). split; [vm_compute; reflexivity|reflexivity].
  - exists s. split; [exact Hs|]. split; [exact Hn|].
    replace 310 with (300 + fp_to_u64 (energy (tx 1 2 7 10 (Transfer 300)))) by (vm_compute; reflexivity).
    exact Hc.
Defined.

(** A reward with no signature, a foreign hash and a huge amount. *)
Definition forged : SignedReaction :=
  MkReaction (atom_at 77 0 0) (atom_at 9 0 0) (replicate 32 66) (f32_of_Z 0) 0 []
    (MiningReward (2 ^ 40)).

Lemma mining_reward_unchecked_witness :
  from_option mass 0 (inner (changeset (single_of forged)) !! [9]) = 10 + 2 ^ 40.
Proof.
  unfold single_of, single.
  rewrite (mining_reward_unchecked (atoms chain) ctx0 forged (2 ^ 40) (atom_at 9 10 0)
    (atoms chain) 3 [forged] acc_new (λ _, eq_refl) eq_refl); vm_compute; reflexivity.
Defined.

(** An entangled atom and its (structurally valid) transfer. *)
Definition entangled : Atom :=
  MkAtom (toy_key 1) Hydrogen 0 1000000 (f32_of_Z 0) zero32 0 0 (Entangled (replicate 32 7)).
Definition entangled_chain : StateTree := MkStateTree {[ toy_key 1 := entangled ]} 3 metrics_default.

Lemma entangled_sender_never_confirms_witness :
  is_ok (execute_single (make_execution_context entangled_chain ∅ (f32_of_Z 300) [9])
    (toy_resign 1 toy_transfer) (atoms entangled_chain) 3 [toy_resign 1 toy_transfer] acc_new) = false.
Proof.
  destruct (execute_single _ _ _ _ _ _) as [acc'|] eqn:E; [exfalso|reflexivity].
  revert E. apply (entangled_sender_never_confirms (atoms entangled_chain)
    (make_execution_context entangled_chain ∅ (f32_of_Z 300) [9])
    (toy_resign 1 toy_transfer) (replicate 32 7) entangled).
  - intros pk. reflexivity.
  - exact I.
  - apply lookup_singleton_eq.
  - reflexivity.
  - reflexivity.
  - constructor; [apply toy_transfer_valid|constructor].
Defined.

(** ** A Generic reaction brings a receiver on chain with the mass its sender claims. *)
Definition claim_receiver : SignedReaction :=
  MkReaction (atom_at 1 0 7) (atom_at 4 123456789 0) (replicate 32 1) (f32_of_Z 10) 0 [1] Generic.

(** A Generic reaction to an unknown receiver creates the mass that the sender
    claims in the receiver's snapshot: the total grows by 123456789 here. *)
Theorem generic_mints_claimed_mass :
  ∃ cs e, core_execute_payload chain ∅ [claim_receiver] (f32_of_Z 300) [9] = Ok (cs, e) ∧
    total_mass (atoms (apply_changeset chain cs)) = total_mass (atoms chain) + 123456789.
Proof.
  exists (result_of chain [claim_receiver]).1, (result_of chain [claim_receiver]).2.
  split; [apply run_ok; vm_compute; reflexivity|vm_compute; reflexivity].
Qed.
