(* ===== verification/Wasm.v ===== *)
(** Gas metering and the host functions of contracts (primus-vm wasm/gas.rs,
    wasm/host.rs, wasm/limits.rs and the linker of wasm/wasmtime_backend.rs).

    A host function takes the host state, the linear memory of the instance ([None] when
    it exports none) and its integer arguments, and returns the new host state, the new
    memory and the integer result.  The WebAssembly code between two host calls is any
    code: it may set the memory to anything. *)
From S2P Require Import Prelude Floats Types State Physics Pvm.
Open Scope Z_scope.

(** ** gas.rs *)
Definition GET_ATOM_MASS : Z := 100.
Definition GET_ATOM_NONCE : Z := 100.
Definition GET_CRYSTAL_INDEX : Z := 10.
Definition GET_CALLER_PK : Z := 50.
Definition TRANSFER_MASS : Z := 500.
Definition EMIT_EVENT : Z := 200.
Definition VERIFY_SIGNATURE : Z := 5000.

Definition BASE_CONTRACT_GAS : Z := 10000.
Definition GAS_PER_ENERGY : Z := 100.
Definition MAX_GAS_PER_REACTION : Z := 1000000.

Record GasMeter := MkGas { limit : Z; consumed : Z }.

Definition from_energy (energy : f32) : GasMeter :=
  let limit :=
    Z.max (Z.min (u64_saturating_mul (fp_to_u64 energy) GAS_PER_ENERGY) MAX_GAS_PER_REACTION)
      BASE_CONTRACT_GAS in
  MkGas limit 0.

(** The meter after the charge, and whether it is within the limit. *)
Definition charge (g : GasMeter) (amount : Z) : GasMeter * pvm_result unit :=
  match u64_checked_add (consumed g) amount with
  | None => (g, Err GasOverflow)
  | Some c =>
      let g := MkGas (limit g) c in
      (g, if limit g <? c then Err (OutOfGas (limit g) c) else Ok tt)
  end.

Definition gas_remaining (g : GasMeter) : Z := u64_saturating_sub (limit g) (consumed g).

(** ** limits.rs *)
Definition MAX_WASM_MEMORY_PAGES : Z := 256.
Definition MAX_CONTRACT_EVENTS : Z := 64.
Definition MAX_EVENT_SIZE_BYTES : Z := 1024.
Definition GAS_HEAT_DIVISOR : f32 := f32_of_Z 1000.

(** ** host.rs *)
Record ContractEvent := MkEvent { topic : bytes; event_data : bytes }.
Record ContractDelta := MkDelta {
  transfers : list (bytes * bytes * Z);
  events : list ContractEvent;
}.
Definition delta_default : ContractDelta := MkDelta [] [].

Record HostState := MkHost {
  host_atoms : StateView;
  caller_pk : bytes;
  host_crystal_index : Z;
  delta : ContractDelta;
  gas : GasMeter;
  host_architect_pk : bytes;
  verify_fn : bytes → bytes → bytes → bool;
}.

Definition set_gas (g : GasMeter) (hs : HostState) : HostState :=
  MkHost (host_atoms hs) (caller_pk hs) (host_crystal_index hs) (delta hs) g
    (host_architect_pk hs) (verify_fn hs).
Definition set_delta (d : ContractDelta) (hs : HostState) : HostState :=
  MkHost (host_atoms hs) (caller_pk hs) (host_crystal_index hs) d (gas hs)
    (host_architect_pk hs) (verify_fn hs).

Definition charge_gas (hs : HostState) (amount : Z) : HostState * pvm_result unit :=
  let '(g, r) := charge (gas hs) amount in (set_gas g hs, r).

Definition memory_growing (desired : Z) : bool :=
  let max_bytes := MAX_WASM_MEMORY_PAGES * 65536 in negb (max_bytes <? desired).
Definition table_growing (desired : Z) : bool := negb (1024 <? desired).

(** ** wasmtime_backend.rs *)
(** `x as i64` of a u64, `x as u64` of an i64. *)
Definition as_i64 (n : Z) : Z := if n <? 2 ^ 63 then n else n - 2 ^ 64.

Definition read_wasm_bytes (mem : bytes) (ptr n : Z) : option bytes :=
  if (ptr <? 0) || (n <? 0) then None
  else
    let start := Z.to_nat ptr in
    let fin := (start + Z.to_nat n)%nat in
    if (fin <=? length mem)%nat then Some (take (Z.to_nat n) (drop start mem)) else None.

Definition write_wasm_bytes (mem : bytes) (ptr : Z) (b : bytes) : option bytes :=
  if ptr <? 0 then None
  else
    let start := Z.to_nat ptr in
    let fin := (start + length b)%nat in
    if (fin <=? length mem)%nat then Some (take start mem ++ b ++ drop fin mem) else None.

Definition host_result : Type := HostState * option bytes * Z.

(** The charge that opens a host function; [k] is the rest of its body. *)
Definition metered (hs : HostState) (mem : option bytes) (cost refused : Z)
    (k : HostState → host_result) : host_result :=
  match charge_gas hs cost with
  | (hs, Err _) => (hs, mem, refused)
  | (hs, Ok _) => k hs
  end.

(** `read_wasm_bytes(&mem, ..)` of the exported memory, or the error code. *)
Definition with_bytes (hs : HostState) (mem : option bytes) (ptr n err : Z)
    (k : bytes → host_result) : host_result :=
  match mem with
  | None => (hs, mem, err)
  | Some m => match read_wasm_bytes m ptr n with None => (hs, mem, err) | Some b => k b end
  end.

Definition host_get_atom_mass hs mem (pk_ptr pk_len : Z) : host_result :=
  metered hs mem GET_ATOM_MASS (-1) (λ hs,
  with_bytes hs mem pk_ptr pk_len (-1) (λ pk,
  (hs, mem, from_option (λ a, as_i64 (mass a)) (-1) (get_atom (host_atoms hs) pk)))).

Definition host_get_atom_nonce hs mem (pk_ptr pk_len : Z) : host_result :=
  metered hs mem GET_ATOM_NONCE (-1) (λ hs,
  with_bytes hs mem pk_ptr pk_len (-1) (λ pk,
  (hs, mem, from_option (λ a, as_i64 (nonce a)) (-1) (get_atom (host_atoms hs) pk)))).

Definition host_get_crystal_index hs mem : host_result :=
  metered hs mem GET_CRYSTAL_INDEX (-1) (λ hs, (hs, mem, as_i64 (host_crystal_index hs))).

Definition host_get_caller_pk hs mem (out_ptr : Z) : host_result :=
  metered hs mem GET_CALLER_PK (-1) (λ hs,
  match mem with
  | None => (hs, mem, -1)
  | Some m =>
      match write_wasm_bytes m out_ptr (caller_pk hs) with
      | Some m' => (hs, Some m', len (caller_pk hs))
      | None => (hs, mem, -1)
      end
  end).

(** The mass already promised by the caller's queued transfers. *)
Definition pending_out (from_pk : bytes) (ts : list (bytes * bytes * Z)) : Z :=
  foldl u64_saturating_add 0
    (snd <$> filter (λ t : bytes * bytes * Z, t.1.1 = from_pk) ts).

Definition host_transfer_mass hs mem (from_ptr from_len to_ptr to_len amount : Z) : host_result :=
  metered hs mem TRANSFER_MASS 4 (λ hs,
  if amount <=? 0 then (hs, mem, 3)
  else
  with_bytes hs mem from_ptr from_len 3 (λ from_pk,
  with_bytes hs mem to_ptr to_len 3 (λ to_pk,
  if bool_decide (from_pk = caller_pk hs) then
    let base := from_option mass 0 (get_atom (host_atoms hs) from_pk) in
    let current_mass := u64_saturating_sub base (pending_out from_pk (transfers (delta hs))) in
    if current_mass <? amount then (hs, mem, 1)
    else
      let d := MkDelta (transfers (delta hs) ++ [(from_pk, to_pk, amount)]) (events (delta hs)) in
      (set_delta d hs, mem, 0)
  else (hs, mem, 2)))).

Definition host_emit_event hs mem (topic_ptr topic_len data_ptr data_len : Z) : host_result :=
  metered hs mem EMIT_EVENT 1 (λ hs,
  if MAX_CONTRACT_EVENTS <=? len (events (delta hs)) then (hs, mem, 2)
  else
  with_bytes hs mem topic_ptr topic_len 3 (λ t,
  with_bytes hs mem data_ptr data_len 3 (λ d,
  if MAX_EVENT_SIZE_BYTES <? len t + len d then (hs, mem, 2)
  else
    (set_delta (MkDelta (transfers (delta hs)) (events (delta hs) ++ [MkEvent t d])) hs, mem, 0)))).

Definition host_verify_signature hs mem (pk_ptr pk_len msg_ptr msg_len sig_ptr sig_len : Z)
    : host_result :=
  metered hs mem VERIFY_SIGNATURE (-1) (λ hs,
  with_bytes hs mem pk_ptr pk_len (-1) (λ pk,
  with_bytes hs mem msg_ptr msg_len (-1) (λ msg,
  with_bytes hs mem sig_ptr sig_len (-1) (λ sig,
  (hs, mem, if verify_fn hs pk msg sig then 1 else 0))))).

Definition host_remaining_gas (hs : HostState) (mem : option bytes) : host_result :=
  (hs, mem, as_i64 (gas_remaining (gas hs))).

(** A call of the contract to the linked namespace. *)
Inductive HostCall :=
| CallGetAtomMass (ptr n : Z)
| CallGetAtomNonce (ptr n : Z)
| CallGetCrystalIndex
| CallGetCallerPk (out : Z)
| CallTransferMass (fp fl tp tl amount : Z)
| CallEmitEvent (tp tl dp dl : Z)
| CallVerifySignature (pp pl mp ml sp sl : Z)
| CallRemainingGas.

(** [create_linker]: the function behind each import. *)
Definition host_call (hs : HostState) (mem : option bytes) (c : HostCall) : host_result :=
  match c with
  | CallGetAtomMass p n => host_get_atom_mass hs mem p n
  | CallGetAtomNonce p n => host_get_atom_nonce hs mem p n
  | CallGetCrystalIndex => host_get_crystal_index hs mem
  | CallGetCallerPk o => host_get_caller_pk hs mem o
  | CallTransferMass fp fl tp tl a => host_transfer_mass hs mem fp fl tp tl a
  | CallEmitEvent tp tl dp dl => host_emit_event hs mem tp tl dp dl
  | CallVerifySignature pp pl mp ml sp sl => host_verify_signature hs mem pp pl mp ml sp sl
  | CallRemainingGas => host_remaining_gas hs mem
  end.

(** A run of a contract: its host calls, each with the memory it finds. *)
Definition run_calls (hs : HostState) (calls : list (option bytes * HostCall)) : HostState :=
  foldl (λ hs c, (host_call hs c.1 c.2).1.1) hs calls.

(** ** wasm/mod.rs: the trait WasmRuntime

    [RT] is the state behind the shared reference (the module cache). *)
Record ContractOutput := MkOutput {
  return_data : bytes;
  gas_used : Z;
  state_delta : ContractDelta;
}.
Class WasmRuntime (RT : Type) := {
  load_module : RT → bytes → bytes → RT * pvm_result unit;
  rt_execute : RT → bytes → bytes → HostState → Z → RT * pvm_result ContractOutput;
}.

(** What the dispatcher relies on: the transfers a contract returns were queued by host
    calls made on the host state it was given. *)
Class WasmRuntimeLaws (RT : Type) `{!WasmRuntime RT} : Prop := {
  rt_delta_queued rt h calldata hs g rt' out :
    rt_execute rt h calldata hs g = (rt', Ok out) →
    ∃ calls, state_delta out = delta (run_calls hs calls);
}.

(** ** wasmtime_backend.rs: WasmtimeRuntime

    The crates wasmtime and lru: compilation, one run of the export `call` on a host state
    and an amount of fuel (with the final host state and the fuel left; the error stands
    for a failed instantiation, a missing export or a trap), and the cache. *)
Class Wasmtime (Module_ Cache : Type) := {
  module_new : bytes → result Module_ string;
  call_export : Module_ → HostState → Z → result (HostState * Z) string;
  cache_contains : Cache → bytes → bool;
  cache_get : Cache → bytes → Cache * option Module_;
  cache_put : Cache → bytes → Module_ → Cache;
}.
(** A module changes its host state only through the linked functions. *)
Class WasmtimeLaws (Module_ Cache : Type) `{!Wasmtime Module_ Cache} : Prop := {
  call_export_hosted m hs fuel hs' left :
    call_export m hs fuel = Ok (hs', left) → ∃ calls, hs' = run_calls hs calls;
}.

Section wasmtime.
Context {Module_ Cache : Type} {WT : Wasmtime Module_ Cache}.

Definition wasmtime_load_module (rt : Cache) (code_hash wasm_bytes : bytes) : Cache * pvm_result unit :=
  if cache_contains rt code_hash then (rt, Ok tt)
  else
    match module_new wasm_bytes with
    | Err e => (rt, Err (WasmBackendError e))
    | Ok m => (cache_put rt code_hash m, Ok tt)
    end.

Definition wasmtime_execute (rt : Cache) (code_hash calldata : bytes) (host_state : HostState)
    (gas_limit : Z) : Cache * pvm_result ContractOutput :=
  match cache_get rt code_hash with
  | (rt, None) => (rt, Err (WasmBackendError "Module not found in cache"))
  | (rt, Some m) =>
      (rt, match call_export m host_state gas_limit with
           | Err e => Err (WasmBackendError e)
           | Ok (final_host_state, fuel) =>
               Ok (MkOutput [] (u64_saturating_sub gas_limit fuel) (delta final_host_state))
           end)
  end.

#[export] Instance wasmtime_runtime : WasmRuntime Cache :=
  {| load_module := wasmtime_load_module; rt_execute := wasmtime_execute |}.

#[export] Instance wasmtime_runtime_laws `{!WasmtimeLaws Module_ Cache} : WasmRuntimeLaws Cache.
Proof.
  constructor. intros rt h cd hs g rt' out H. simpl in H. unfold wasmtime_execute in H.
  destruct (cache_get rt h) as [rt2 [m|]]; [|done].
  destruct (call_export m hs g) as [[hs' fuel]|] eqn:E; [|done]. simplify_eq. simpl.
  destruct (call_export_hosted m hs g hs' fuel E) as [calls ->]. by exists calls.
Qed.
End wasmtime.

(** ** Gas *)
(** The gas limit of a reaction is always between the base allowance and the cap,
    whatever the energy, and [remaining] plus [consumed] is the limit until it is hit. *)
Theorem gas_limit_bounds energy :
  BASE_CONTRACT_GAS ≤ limit (from_energy energy) ≤ MAX_GAS_PER_REACTION ∧
  ∀ n, 0 ≤ n → let '(g, r) := charge (from_energy energy) n in
    (r = Ok tt ↔ n ≤ limit (from_energy energy)) ∧
    (r = Ok tt → gas_remaining g + consumed g = limit (from_energy energy)).
Proof.
  pose proof (fp_to_u64_nonneg energy) as He.
  assert (Hl : BASE_CONTRACT_GAS ≤ limit (from_energy energy) ≤ MAX_GAS_PER_REACTION).
  { unfold from_energy, BASE_CONTRACT_GAS, MAX_GAS_PER_REACTION. simpl. lia. }
  split; [done|]. intros n Hn. unfold charge. change (consumed (from_energy energy)) with 0.
  set (l := limit (from_energy energy)) in *. clearbody l. unfold u64_checked_add.
  destruct (Z.leb_spec (0 + n) U64_MAX) as [?|Hbig].
  - cbv zeta. cbn [limit]. destruct (Z.ltb_spec l (0 + n)).
    + split; [|done]. split; [done|intros; lia].
    + split; [split; [intros; lia|done]|]. intros _. unfold gas_remaining, u64_saturating_sub.
      cbn [limit consumed]. lia.
  - unfold U64_MAX, MAX_GAS_PER_REACTION in *. split; [split; [done|intros; lia]|done].
Qed.

(** ** Host functions *)
Record host_ok (base_mass : Z) (hs : HostState) : Prop := {
  ho_from : Forall (λ t : bytes * bytes * Z, t.1.1 = caller_pk hs ∧ 0 < t.2) (transfers (delta hs));
  ho_total : foldr (λ (t : bytes * bytes * Z) n, t.2 + n) 0 (transfers (delta hs)) ≤ base_mass;
  ho_events : len (events (delta hs)) ≤ MAX_CONTRACT_EVENTS;
  ho_event_size : Forall (λ e, len (topic e) + len (event_data e) ≤ MAX_EVENT_SIZE_BYTES) (events (delta hs));
}.

(** The parts of the host state that no call changes. *)
Definition same_host (hs hs' : HostState) : Prop :=
  host_atoms hs' = host_atoms hs ∧ caller_pk hs' = caller_pk hs ∧
  host_crystal_index hs' = host_crystal_index hs ∧ limit (gas hs') = limit (gas hs).

Lemma charge_gas_same hs n hs' r :
  charge_gas hs n = (hs', r) → same_host hs hs' ∧ delta hs' = delta hs.
Proof.
  unfold charge_gas, charge. intros H. repeat case_match; simplify_eq; done.
Qed.

Lemma metered_elim hs mem cost refused k (P : host_result → Prop) :
  (∀ hs', same_host hs hs' → delta hs' = delta hs →
     P (hs', mem, refused) ∧ P (k hs')) → P (metered hs mem cost refused k).
Proof.
  intros H. unfold metered. destruct (charge_gas hs cost) as [hs' r] eqn:E.
  destruct (charge_gas_same _ _ _ _ E) as [Hs Hd]. destruct (H hs' Hs Hd). by destruct r.
Qed.

Lemma with_bytes_elim hs mem ptr n err k (P : host_result → Prop) :
  P (hs, mem, err) → (∀ b, P (k b)) → P (with_bytes hs mem ptr n err k).
Proof. intros H1 H2. unfold with_bytes. repeat case_match; auto. Qed.

Lemma foldl_saturating_add l acc :
  0 ≤ acc → Forall (λ x, 0 ≤ x) l → acc + foldr Z.add 0 l ≤ U64_MAX →
  foldl u64_saturating_add acc l = acc + foldr Z.add 0 l.
Proof.
  intros Ha Hl. revert acc Ha. induction Hl as [|x l Hx Hl IH]; intros acc Ha Hle; simpl in *; [lia|].
  assert (0 ≤ foldr Z.add 0 l) by (clear -Hl; induction Hl; simpl; lia).
  rewrite IH; unfold u64_saturating_add; lia.
Qed.

(** All queued transfers come from the caller, so [pending_out] is their exact sum. *)
Lemma pending_out_total hs base_mass :
  host_ok base_mass hs → base_mass ≤ U64_MAX →
  pending_out (caller_pk hs) (transfers (delta hs))
  = foldr (λ (t : bytes * bytes * Z) n, t.2 + n) 0 (transfers (delta hs)).
Proof.
  intros [Hf Ht _ _] Hb. unfold pending_out.
  assert (Hfilter : filter (λ t : bytes * bytes * Z, t.1.1 = caller_pk hs) (transfers (delta hs))
                    = transfers (delta hs)).
  { clear -Hf. induction Hf as [|t l [Ht _] _ IH]; [done|].
    by rewrite filter_cons_True, IH by done. }
  rewrite Hfilter.
  assert (Hsum : foldr Z.add 0 (snd <$> transfers (delta hs))
                 = foldr (λ (t : bytes * bytes * Z) n, t.2 + n) 0 (transfers (delta hs))).
  { clear. induction (transfers (delta hs)) as [|t l IH]; [done|].
    rewrite fmap_cons. cbn [foldr]. by rewrite IH. }
  rewrite foldl_saturating_add; [by rewrite Hsum|done| |rewrite Hsum; lia].
  apply Forall_fmap. eapply Forall_impl; [exact Hf|]. intros t [_ ?]. simpl. lia.
Qed.

Lemma same_host_trans a b c : same_host a b → same_host b c → same_host a c.
Proof. unfold same_host. intuition congruence. Qed.

Lemma host_ok_same base_mass hs hs' :
  same_host hs hs' → delta hs' = delta hs → host_ok base_mass hs → host_ok base_mass hs'.
Proof. intros (_ & Hc & _) Hd [????]. constructor; by rewrite ?Hc, ?Hd. Qed.

(** The mass of the caller in the state the contract sees. *)
Definition caller_mass (hs : HostState) : Z :=
  from_option mass 0 (get_atom (host_atoms hs) (caller_pk hs)).

Lemma caller_mass_same hs hs' : same_host hs hs' → caller_mass hs' = caller_mass hs.
Proof. intros (Ha & Hc & _). unfold caller_mass. by rewrite Ha, Hc. Qed.

(** What every host function preserves. *)
Definition call_inv (base_mass : Z) (hs hs' : HostState) : Prop :=
  same_host hs hs' ∧ host_ok base_mass hs'.

Lemma transfer_queued hs from_pk to_pk amount :
  host_ok (caller_mass hs) hs → caller_mass hs ≤ U64_MAX → 0 < amount → from_pk = caller_pk hs →
  amount ≤ u64_saturating_sub (caller_mass hs) (pending_out from_pk (transfers (delta hs))) →
  host_ok (caller_mass hs)
    (set_delta (MkDelta (transfers (delta hs) ++ [(from_pk, to_pk, amount)]) (events (delta hs))) hs).
Proof.
  intros Hok Hb Ha -> Hle. rewrite (pending_out_total _ _ Hok Hb) in Hle.
  unfold u64_saturating_sub in Hle. destruct Hok as [Hf Ht He Hs].
  constructor; [| |done|done].
  - simpl. apply Forall_app. split; [done|]. by repeat constructor.
  - simpl. rewrite foldr_app. simpl.
    assert (∀ l x, foldr (λ (t : bytes * bytes * Z) n, t.2 + n) x l
                   = foldr (λ (t : bytes * bytes * Z) n, t.2 + n) 0 l + x) as ->.
    { intros l x. induction l as [|t l IH]; simpl; [done|]. rewrite IH. lia. }
    lia.
Qed.

Lemma event_queued base_mass hs t d :
  host_ok base_mass hs → len (events (delta hs)) < MAX_CONTRACT_EVENTS →
  len t + len d ≤ MAX_EVENT_SIZE_BYTES →
  host_ok base_mass
    (set_delta (MkDelta (transfers (delta hs)) (events (delta hs) ++ [MkEvent t d])) hs).
Proof.
  intros [Hf Ht He Hs] Hn Hsz. constructor; [done|done| |].
  - simpl. unfold len in *. rewrite length_app. simpl. lia.
  - simpl. apply Forall_app. split; [done|]. by repeat constructor.
Qed.

Lemma host_call_inv hs mem c :
  caller_mass hs ≤ U64_MAX → host_ok (caller_mass hs) hs →
  call_inv (caller_mass hs) hs (host_call hs mem c).1.1.
Proof.
  intros Hb Hok. unfold call_inv.
  assert (Hrefused : ∀ hs', same_host hs hs' → delta hs' = delta hs →
            same_host hs hs' ∧ host_ok (caller_mass hs) hs').
  { intros hs' Hs Hd. split; [done|]. by apply (host_ok_same _ hs). }
  destruct c; simpl;
    try (apply (metered_elim _ _ _ _ _ (λ r, same_host hs r.1.1 ∧ host_ok (caller_mass hs) r.1.1));
         intros hs' Hs Hd; split; [by apply Hrefused|]);
    try (repeat first [ by apply Hrefused | case_match
                      | apply (with_bytes_elim _ _ _ _ _ _
                          (λ r, same_host hs r.1.1 ∧ host_ok (caller_mass hs) r.1.1));
                        [by apply Hrefused|intros ?] ]; fail).
  - destruct (Z.leb_spec amount 0); [by apply Hrefused|].
    do 2 (apply (with_bytes_elim _ _ _ _ _ _
            (λ r, same_host hs r.1.1 ∧ host_ok (caller_mass hs) r.1.1));
          [by apply Hrefused|intros ?]).
    case_bool_decide as Hpk; [|by apply Hrefused]. cbv zeta.
    match goal with |- context [?m <? amount] => destruct (Z.ltb_spec m amount) as [?|Hle] end;
      [by apply Hrefused|].
    destruct (Hrefused hs' Hs Hd) as [_ Hok']. cbn [fst]. split; [exact Hs|].
    rewrite <-(caller_mass_same hs hs' Hs) in Hok', Hb |- *.
    apply transfer_queued; try done. unfold caller_mass. by rewrite <-Hpk.
  - destruct (Z.leb_spec MAX_CONTRACT_EVENTS (len (events (delta hs')))); [by apply Hrefused|].
    do 2 (apply (with_bytes_elim _ _ _ _ _ _
            (λ r, same_host hs r.1.1 ∧ host_ok (caller_mass hs) r.1.1));
          [by apply Hrefused|intros ?]).
    match goal with |- context [_ <? ?m] => destruct (Z.ltb_spec MAX_EVENT_SIZE_BYTES m) end;
      [by apply Hrefused|].
    cbn [fst]. split; [exact Hs|]. apply event_queued; try lia. by apply Hrefused.
Qed.

Lemma run_calls_inv hs calls :
  caller_mass hs ≤ U64_MAX → host_ok (caller_mass hs) hs →
  call_inv (caller_mass hs) hs (run_calls hs calls).
Proof.
  revert hs. induction calls as [|[mem c] calls IH]; intros hs Hb Hok; [done|]. simpl.
  destruct (host_call_inv hs mem c Hb Hok) as [Hs Hok'].
  pose proof (caller_mass_same _ _ Hs) as Hm. rewrite <-Hm in Hb, Hok'.
  destruct (IH _ Hb Hok') as [Hs' Hok'']. rewrite Hm in Hok''.
  split; [by eapply same_host_trans|done].
Qed.

(** C23. Whatever a contract calls, and whatever it does to its memory in between: the
    transfers it queues all leave the caller, are positive and add up to no more than the
    caller's mass; there are at most 64 events, each of at most 1024 bytes; and the state
    it sees, its caller and its gas limit do not change. *)
Theorem contract_calls_bounded hs calls :
  delta hs = delta_default → 0 ≤ caller_mass hs ≤ U64_MAX →
  let hs' := run_calls hs calls in
  same_host hs hs' ∧
  Forall (λ t : bytes * bytes * Z, t.1.1 = caller_pk hs ∧ 0 < t.2) (transfers (delta hs')) ∧
  foldr (λ (t : bytes * bytes * Z) n, t.2 + n) 0 (transfers (delta hs')) ≤ caller_mass hs ∧
  len (events (delta hs')) ≤ MAX_CONTRACT_EVENTS ∧
  Forall (λ e, len (topic e) + len (event_data e) ≤ MAX_EVENT_SIZE_BYTES) (events (delta hs')).
Proof.
  intros Hd Hm hs'.
  assert (Hok : host_ok (caller_mass hs) hs).
  { constructor; rewrite Hd; simpl; [constructor|lia|done|constructor]. }
  destruct (run_calls_inv hs calls (proj2 Hm) Hok) as [Hs [H1 H2 H3 H4]].
  destruct Hs as (? & Hc & ? & ?). rewrite Hc in H1. done.
Qed.

(** ** Linear memory *)
Lemma read_wasm_bytes_Some mem ptr n b :
  read_wasm_bytes mem ptr n = Some b ↔
  0 ≤ ptr ∧ 0 ≤ n ∧ ptr + n ≤ len mem ∧ b = take (Z.to_nat n) (drop (Z.to_nat ptr) mem).
Proof.
  unfold read_wasm_bytes, len. cbv zeta.
  destruct (Z.ltb_spec ptr 0), (Z.ltb_spec n 0); simpl; try (split; [done|lia]).
  destruct (Nat.leb_spec (Z.to_nat ptr + Z.to_nat n) (length mem)); split.
  - intros [= <-]. split_and!; [lia..|done].
  - by intros (_ & _ & _ & ->).
  - done.
  - lia.
Qed.

(** C40. Memory accesses stay inside the memory: a write fails exactly when it would
    leave it, keeps its size, and a read of the same range returns what was written while
    every disjoint range is untouched. *)
Theorem wasm_write_read mem ptr b :
  (is_Some (write_wasm_bytes mem ptr b) ↔ 0 ≤ ptr ∧ ptr + len b ≤ len mem) ∧
  ∀ mem', write_wasm_bytes mem ptr b = Some mem' →
    len mem' = len mem ∧ read_wasm_bytes mem' ptr (len b) = Some b ∧
    ∀ q n, q + n ≤ ptr ∨ ptr + len b ≤ q → read_wasm_bytes mem' q n = read_wasm_bytes mem q n.
Proof.
  unfold write_wasm_bytes, len. cbv zeta. destruct (Z.ltb_spec ptr 0) as [Hp|Hp].
  { split; [|done]. split; [by intros []|lia]. }
  destruct (Nat.leb_spec (Z.to_nat ptr + length b) (length mem)) as [Hle|Hgt].
  2:{ split; [|done]. split; [by intros []|lia]. }
  split; [split; [lia|by eexists]|]. intros mem' [= <-].
  assert (Hlen : length (take (Z.to_nat ptr) mem ++ b ++ drop (Z.to_nat ptr + length b) mem) = length mem).
  { rewrite !length_app, length_take, length_drop. lia. }
  split; [by rewrite Hlen|]. split.
  - apply read_wasm_bytes_Some. unfold len. rewrite Hlen, Nat2Z.id. split_and!; [lia..|].
    rewrite drop_app_length' by (rewrite length_take; lia). by rewrite take_app_length.
  - intros q n Hqn. apply option_eq. intros r. rewrite !read_wasm_bytes_Some. unfold len. rewrite Hlen.
    assert (Hsame : 0 ≤ q → 0 ≤ n → q + n ≤ Z.of_nat (length mem) →
      take (Z.to_nat n) (drop (Z.to_nat q)
        (take (Z.to_nat ptr) mem ++ b ++ drop (Z.to_nat ptr + length b) mem))
      = take (Z.to_nat n) (drop (Z.to_nat q) mem)).
    { intros. apply list_eq. intros i. destruct (decide (i < Z.to_nat n)%nat).
      - rewrite !lookup_take_lt, !lookup_drop by lia. destruct Hqn.
        + rewrite lookup_app_l, lookup_take_lt by (rewrite ?length_take; lia). done.
        + rewrite lookup_app_r, length_take by (rewrite length_take; lia).
          rewrite lookup_app_r, lookup_drop by lia. f_equal. lia.
      - rewrite !lookup_take_ge by lia. done. }
    split; intros (?&?&?&->); (split_and!; [done..|]); by rewrite Hsame.
Qed.

(** ** A contract, run *)
(** A caller with 500 units and 64 bytes of memory that start with its key [7] and [8]. *)
Definition demo_host : HostState :=
  MkHost (MkStateView (λ pk, if bool_decide (pk = [7]) then Some (set_mass 500 (new_receiver [7])) else None)
            0 (λ _, None))
    [7] 3 delta_default (from_energy (f32_of_Z 1)) [9] (λ _ _ _, true).
Definition demo_memory : bytes := [7; 8] ++ replicate 62 0.
Definition pay (amount : Z) : option bytes * HostCall :=
  (Some demo_memory, CallTransferMass 0 1 1 1 amount).
Definition verify : option bytes * HostCall :=
  (Some demo_memory, CallVerifySignature 0 1 1 1 0 1).

(** The second payment would exceed the mass, and is refused. *)
Example demo_payments : transfers (delta (run_calls demo_host [pay 300; pay 201; pay 200]))
  = [([7], [8], 300); ([7], [8], 200)].
Proof. vm_compute. reflexivity. Qed.

(** Running out of gas in a host function neither traps nor undoes anything: the
    call reports an error code, the contract goes on, and its earlier transfers stay. *)
Theorem exhausted_gas_keeps_transfers :
  let hs := run_calls demo_host [pay 300; verify; verify] in
  gas_remaining (gas hs) = 0 ∧ limit (gas hs) < consumed (gas hs) ∧
  (host_call hs (Some demo_memory) CallRemainingGas).2 = 0 ∧
  transfers (delta hs) = [([7], [8], 300)].
Proof. vm_compute. split_and!; reflexivity. Qed.

Lemma contract_calls_bounded_witness :
  foldr (λ (t : bytes * bytes * Z) n, t.2 + n) 0
    (transfers (delta (run_calls demo_host [pay 300; pay 201; pay 200]))) ≤ 500.
Proof.
  refine (proj1 (proj2 (proj2 (contract_calls_bounded demo_host [pay 300; pay 201; pay 200] eq_refl _)))).
  vm_compute. split; discriminate.
Defined.

Lemma gas_limit_bounds_witness :
  gas_remaining (charge (from_energy (f32_of_Z 1)) 10000).1 + 10000 = 10000.
Proof.
  exact (proj2 (proj2 (gas_limit_bounds (f32_of_Z 1)) 10000 ltac:(discriminate)) eq_refl).
Defined.

Lemma wasm_write_read_witness :
  read_wasm_bytes ([7; 8; 5; 6] ++ replicate 60 0) 2 2 = Some [5; 6].
Proof.
  exact (proj1 (proj2 (proj2 (wasm_write_read demo_memory 2 [5; 6])
    ([7; 8; 5; 6] ++ replicate 60 0) eq_refl))).
Defined.
