(* ===== verification/Dispatch.v ===== *)
(** The payload dispatcher (primus-vm dispatch.rs): contract calls go to the WebAssembly
    runtime, and what they queued is applied to the running write set; every other
    payload takes the native path of Pvm.v. *)
From S2P Require Import Prelude Floats Types State Physics Pvm PvmFacts Wasm.
Open Scope Z_scope.

Section dispatch.
Context {HA : Hashes} {CV : CryptoVerifier} {RT : Type} {WR : WasmRuntime RT}.

(** One queued transfer on the running write set. *)
Definition apply_transfer (view : StateView) (t : bytes * bytes * Z) (cs : Changeset)
    : pvm_result Changeset :=
  let '(from_pk, to_pk, amount) := t in
  let? sender := ok_or (lookup_atom cs view from_pk) AtomNotFound in
  let? m := ok_or (u64_checked_sub (mass sender) amount) (InsufficientMass (mass sender) amount) in
  let cs := cs_insert from_pk (set_mass m sender) cs in
  let receiver := default (new_receiver to_pk) (lookup_atom cs view to_pk) in
  Ok (cs_insert to_pk (set_mass (u64_saturating_add (mass receiver) amount) receiver) cs).

Fixpoint apply_transfers (view : StateView) (ts : list (bytes * bytes * Z)) (cs : Changeset)
    : pvm_result Changeset :=
  match ts with
  | [] => Ok cs
  | t :: ts => let? cs := apply_transfer view t cs in apply_transfers view ts cs
  end.

(** 2. The host state of a call. *)
Definition contract_host (ctx : ExecutionContext) (rx : SignedReaction) : HostState :=
  MkHost (state ctx) (public_key (sender rx)) (crystal_index ctx) delta_default
    (from_energy (energy rx)) (architect_pk ctx) crypto_verify.

(** 4. to 6.: what is done with the output of the contract. *)
Definition settle_contract (ctx : ExecutionContext) (rx : SignedReaction) (out : ContractOutput)
    (cs : Changeset) : pvm_result (Changeset * f32) :=
  let? cs := apply_transfers (state ctx) (transfers (state_delta out)) cs in
  let? s := ok_or (lookup_atom cs (state ctx) (public_key (sender rx))) AtomNotFound in
  let s := set_nonce (u64_saturating_add (nonce s) 1) s in
  let s := set_last_reaction_hash (reaction_hash rx) s in
  Ok (cs_insert (public_key (sender rx)) s cs,
      f32_div (f32_of_Z (gas_used out)) GAS_HEAT_DIVISOR).

(** The runtime is [None] when the dispatcher has none configured; its state is threaded. *)
Definition dispatch_contract (rt : option RT) (ctx : ExecutionContext) (rx : SignedReaction)
    (code_hash calldata : bytes) (cs : Changeset) : option RT * pvm_result (Changeset * f32) :=
  match load_contract (state ctx) code_hash with
  | None => (rt, Err (ContractNotFound code_hash))
  | Some wasm_bytes =>
      match rt with
      | None => (rt, Err (WasmTrap "No WASM runtime configured"))
      | Some rt =>
          match load_module rt code_hash wasm_bytes with
          | (rt, Err e) => (Some rt, Err e)
          | (rt, Ok _) =>
              let hs := contract_host ctx rx in
              match rt_execute rt code_hash calldata hs (limit (gas hs)) with
              | (rt, Err e) => (Some rt, Err e)
              | (rt, Ok out) => (Some rt, settle_contract ctx rx out cs)
              end
          end
      end
  end.

(** One iteration of the loop of [execute]. *)
Definition dispatch_single (rt : option RT) (ctx : ExecutionContext) (rx : SignedReaction)
    (atoms_iter : gmap bytes Atom) (drift : Z) (reactions : list SignedReaction)
    (acc : Accumulator) : option RT * pvm_result Accumulator :=
  match payload rx with
  | ContractCall address data =>
      if len address =? 32 then
        match dispatch_contract rt ctx rx address data (changeset acc) with
        | (rt, Err e) => (rt, Err e)
        | (rt, Ok (cs, contract_heat)) =>
            let heat := f32_add (total_crystal_heat acc) contract_heat in
            (rt, if fp_gt heat THERMAL_CAPACITY then Err ThermalLimitExceeded
                 else Ok (MkAcc cs heat (total_consumed_entropy acc)))
        end
      else (rt, Err (WasmBackendError "Invalid contract address"))
  | _ => (rt, execute_single ctx rx atoms_iter drift reactions acc)
  end.

Fixpoint dispatch_all (rt : option RT) (ctx : ExecutionContext) (atoms_iter : gmap bytes Atom)
    (drift : Z) (reactions todo : list SignedReaction) (acc : Accumulator)
    : option RT * pvm_result Accumulator :=
  match todo with
  | [] => (rt, Ok acc)
  | rx :: todo =>
      match dispatch_single rt ctx rx atoms_iter drift reactions acc with
      | (rt, Err e) => (rt, Err e)
      | (rt, Ok acc) => dispatch_all rt ctx atoms_iter drift reactions todo acc
      end
  end.

(** [PayloadDispatcher::execute]. *)
Definition dispatch_execute (rt : option RT) (ctx : ExecutionContext)
    (reactions : list SignedReaction) (atoms_iter : gmap bytes Atom)
    : option RT * pvm_result (Changeset * f32) :=
  let drift := get_galactic_drift (crystal_index ctx) in
  match dispatch_all rt ctx atoms_iter drift reactions reactions acc_new with
  | (rt, Err e) => (rt, Err e)
  | (rt, Ok acc) => (rt, Ok (changeset acc, total_consumed_entropy acc))
  end.
End dispatch.

(** ** Settling a contract *)
(** Masses are 64-bit values, so that crediting does not lower one. *)
Definition masses_u64 (m : gmap bytes Atom) : Prop := ∀ k a, m !! k = Some a → mass a ≤ U64_MAX.

(** No atom other than [caller]'s loses mass. *)
Definition only_debits (caller : bytes) (m m' : gmap bytes Atom) : Prop :=
  ∀ k a, m !! k = Some a → k ≠ caller → ∃ a', m' !! k = Some a' ∧ mass a ≤ mass a'.

Lemma only_debits_refl caller m : only_debits caller m m.
Proof. intros k a Ha _. by exists a. Qed.

Lemma only_debits_trans caller m1 m2 m3 :
  only_debits caller m1 m2 → only_debits caller m2 m3 → only_debits caller m1 m3.
Proof.
  intros H1 H2 k a Ha Hk. destruct (H1 k a Ha Hk) as (b & Hb & ?).
  destruct (H2 k b Hb Hk) as (c & Hc & ?). exists c. split; [done|lia].
Qed.

Lemma only_debits_insert caller m k a :
  (k ≠ caller → ∀ b, m !! k = Some b → mass b ≤ mass a) → only_debits caller m (<[k := a]> m).
Proof.
  intros H k' b Hb Hk'. destruct (decide (k = k')) as [<-|Hne].
  - exists a. rewrite lookup_insert_eq. split; [done|by apply H].
  - exists b. rewrite lookup_insert_ne by done. done.
Qed.

Lemma masses_u64_insert m k a : masses_u64 m → mass a ≤ U64_MAX → masses_u64 (<[k := a]> m).
Proof. intros Hm Ha k' b. rewrite lookup_insert_Some. intros [[_ <-]|[_ ?]]; [done|by eapply Hm]. Qed.

Section settle.
Context {HA : Hashes} {CV : CryptoVerifier} {RT : Type} {WR : WasmRuntime RT}.
Context (base : gmap bytes Atom) (ctx : ExecutionContext) (Hctx : context_over base ctx).
#[local] Abbreviation view := (view_map base).

(** What settling does to the state, when all transfers leave [caller]. *)
Definition settled (caller : bytes) (m m' : gmap bytes Atom) : Prop :=
  step_ok 0 m m' ∧ masses_u64 m' ∧ only_debits caller m m'.

Lemma settled_trans caller m1 m2 m3 : settled caller m1 m2 → settled caller m2 m3 → settled caller m1 m3.
Proof.
  intros (? & _ & ?) (? & ? & ?). split_and!; [by eapply step_ok_trans; try done|done|].
  by eapply only_debits_trans.
Qed.

Lemma apply_transfer_settled caller to_pk amount cs cs' :
  atoms_ok (view cs) → masses_u64 (view cs) → 0 ≤ amount →
  apply_transfer (state ctx) (caller, to_pk, amount) cs = Ok cs' →
  settled caller (view cs) (view cs').
Proof.
  intros Hm Hu Ha H. unfold apply_transfer in H. inv_ok H.
  rewrite (lookup_atom_view base) in H0 by done. rename x into s, H0 into Hs.
  unfold u64_checked_sub in H1. destruct (Z.leb_spec amount (mass s)); [|done]. injection H1 as <-.
  rewrite (lookup_atom_view base), !view_map_insert by done.
  destruct (Hm _ _ Hs) as (Hk & Hms & Hns). set (s2 := set_mass (mass s - amount) s).
  assert (S1 : step_ok (- amount) (view cs) (<[caller := s2]> (view cs))).
  { apply step_ok_insert; [done|done|split; simpl; lia| |].
    - intros b. rewrite Hs. intros [= <-]. simpl. lia.
    - rewrite Hs. simpl. lia. }
  set (m1 := <[caller := s2]> (view cs)) in *.
  destruct (default_ok m1 to_pk (new_receiver to_pk) (so_ok _ _ _ S1)) as (Hkr & Hrm & Hrn);
    [by split|done|].
  set (r := default _ _) in *.
  assert (S2 : step_ok (0 + amount) m1
    (<[to_pk := set_mass (u64_saturating_add (mass r) amount) r]> m1)).
  { apply (credit_step m1 to_pk (new_receiver to_pk)); [apply S1|by split|done|done| |].
    - simpl. by apply saturating_add_nonneg.
    - split; [done|apply saturating_add_le]. }
  split_and!.
  - eapply step_ok_trans; [exact S1|exact S2|lia].
  - repeat apply masses_u64_insert; [done| |simpl; unfold u64_saturating_add; lia].
    simpl. specialize (Hu _ _ Hs). lia.
  - eapply only_debits_trans; [by apply only_debits_insert|].
    apply only_debits_insert. intros Hne b Hb. subst r. rewrite Hb. simpl.
    unfold m1 in Hb. rewrite lookup_insert_ne in Hb by done. specialize (Hu _ _ Hb).
    unfold u64_saturating_add. lia.
Qed.

Lemma apply_transfers_settled caller ts cs cs' :
  atoms_ok (view cs) → masses_u64 (view cs) →
  Forall (λ t : bytes * bytes * Z, t.1.1 = caller ∧ 0 < t.2) ts →
  apply_transfers (state ctx) ts cs = Ok cs' → settled caller (view cs) (view cs').
Proof.
  revert cs. induction ts as [|[[f t] amount] ts IH]; intros cs Hm Hu Hts H; simpl in H.
  { injection H as <-. split_and!; [split; [done|done|lia]|done|apply only_debits_refl]. }
  apply Forall_cons in Hts as [[Hf Ha] Hts]. simpl in Hf, Ha. subst f.
  apply rbind_Ok in H as (cs1 & H1 & H).
  pose proof (apply_transfer_settled _ _ _ _ _ Hm Hu (Z.lt_le_incl _ _ Ha) H1) as S1.
  eapply settled_trans; [exact S1|]. destruct S1 as (S1 & Hu1 & _).
  apply IH; [apply S1|done|done|done].
Qed.

Lemma settle_contract_settled rx out cs cs' heat :
  atoms_ok (view cs) → masses_u64 (view cs) →
  Forall (λ t : bytes * bytes * Z, t.1.1 = public_key (sender rx) ∧ 0 < t.2)
    (transfers (state_delta out)) →
  settle_contract ctx rx out cs = Ok (cs', heat) →
  settled (public_key (sender rx)) (view cs) (view cs') ∧
  bumped (view cs) (view cs') (public_key (sender rx)) ∧
  ∃ s, view cs' !! public_key (sender rx) = Some s ∧ last_reaction_hash s = reaction_hash rx.
Proof.
  intros Hm Hu Hts H. unfold settle_contract in H. inv_ok H.
  rename x into cs1, x0 into s.
  match goal with Hl : lookup_atom _ _ _ = Some _ |- _ =>
    rewrite (lookup_atom_view base) in Hl by done; rename Hl into Hs end.
  match goal with Ht : apply_transfers _ _ _ = Ok _ |- _ =>
    pose proof (apply_transfers_settled _ _ _ _ Hm Hu Hts Ht) as S1 end.
  rewrite view_map_insert. set (k := public_key (sender rx)) in *.
  set (s2 := set_last_reaction_hash _ _).
  destruct S1 as (S1 & Hu1 & O1). destruct (so_ok _ _ _ S1 _ _ Hs) as (Hk & Hms & Hns).
  destruct (debit_step (view cs1) k s s2 0 (so_ok _ _ _ S1) Hs Hk) as [S2 B2];
    [done|simpl; lia|].
  split_and!.
  - apply settled_trans with (view cs1); [done|]. split_and!; [done| |].
    + apply masses_u64_insert; [done|]. exact (Hu1 k s Hs).
    + by apply only_debits_insert.
  - intros a Ha. destruct (so_nonces _ _ _ S1 k a Ha) as (b & Hb & Hle).
    destruct (B2 b Hb) as (c & Hc & ?). exists c. split; [done|]. unfold u64_saturating_add in *. lia.
  - exists s2. by rewrite lookup_insert_eq.
Qed.

Context {RL : WasmRuntimeLaws RT}.

Lemma dispatch_contract_settled rt rt' rx h cd cs cs' heat :
  atoms_ok (view cs) → masses_u64 (view cs) → atoms_ok base → masses_u64 base →
  dispatch_contract rt ctx rx h cd cs = (rt', Ok (cs', heat)) →
  settled (public_key (sender rx)) (view cs) (view cs') ∧
  bumped (view cs) (view cs') (public_key (sender rx)) ∧
  ∃ s, view cs' !! public_key (sender rx) = Some s ∧ last_reaction_hash s = reaction_hash rx.
Proof.
  intros Hm Hu Hb Hbu H. unfold dispatch_contract in H.
  destruct (load_contract _ _) as [code|]; [|done]. destruct rt as [rt|]; [|done].
  destruct (load_module rt h code) as [rt1 [[]|]]; [|done]. cbv zeta in H.
  destruct (rt_execute _ _ _ _ _) as [rt2 [out|]] eqn:E; [|done].
  injection H as _ H. eapply settle_contract_settled; [done|done| |exact H].
  apply rt_delta_queued in E as [calls ->].
  assert (Hcm : caller_mass (contract_host ctx rx) ≤ U64_MAX ∧ 0 ≤ caller_mass (contract_host ctx rx)).
  { unfold caller_mass. simpl. rewrite Hctx.
    destruct (base !! public_key (sender rx)) as [a|] eqn:Ea; simpl; [|by unfold U64_MAX].
    destruct (Hb _ _ Ea) as (_ & ? & _). split; [by eapply Hbu|done]. }
  destruct (run_calls_inv (contract_host ctx rx) calls) as [(_ & Hc & _) [Hf _ _ _]]; [apply Hcm| |].
  - constructor; simpl; [constructor|apply Hcm|done|constructor].
  - by rewrite Hc in Hf.
Qed.
End settle.

(** ** Theorems *)
Section theorems.
Context {HA : Hashes} {CV : CryptoVerifier} {RT : Type} {WR : WasmRuntime RT} {RL : WasmRuntimeLaws RT}.

(** C22. An accepted contract call takes mass from its caller alone, creates none, and
    advances the caller's nonce and its last reaction hash, whatever the contract does. *)
Theorem contract_call_safe base ctx rt rt' rx h cd cs cs' heat :
  context_over base ctx → atoms_ok base → masses_u64 base →
  atoms_ok (view_map base cs) → masses_u64 (view_map base cs) →
  dispatch_contract rt ctx rx h cd cs = (rt', Ok (cs', heat)) →
  let caller := public_key (sender rx) in
  total_mass (view_map base cs') ≤ total_mass (view_map base cs) ∧
  only_debits caller (view_map base cs) (view_map base cs') ∧
  atoms_ok (view_map base cs') ∧
  ∃ s, view_map base cs' !! caller = Some s ∧ last_reaction_hash s = reaction_hash rx ∧
    ∀ s0, view_map base cs !! caller = Some s0 → u64_saturating_add (nonce s0) 1 ≤ nonce s.
Proof.
  intros Hc Hb Hbu Hm Hu H caller.
  destruct (dispatch_contract_settled base ctx Hc rt rt' rx h cd cs cs' heat Hm Hu Hb Hbu H)
    as (([Hok _ Hmass] & _ & Ho) & Hbump & s & Hs & Hl).
  split_and!; [lia|done|done|]. exists s. split_and!; [done|done|].
  intros s0 Hs0. destruct (Hbump s0 Hs0) as (s' & Hs' & Hle). fold caller in Hs', Hs. congruence.
Qed.

(** Contract calls that may differ in their signatures, nonces and timestamps. *)
Definition same_call (r1 r2 : SignedReaction) : Prop :=
  payload r1 = payload r2 ∧ (∃ a d, payload r1 = ContractCall a d) ∧
  public_key (sender r1) = public_key (sender r2) ∧ energy r1 = energy r2 ∧
  reaction_hash r1 = reaction_hash r2.

(** The signature and the nonce of a contract call are never checked: batches of
    contract calls that agree on callers, energies, hashes and payloads have the same
    outcome, whatever their signatures and nonces are. *)
Theorem contract_calls_unauthenticated (rt : option RT) ctx rxs1 rxs2 atoms_iter :
  Forall2 same_call rxs1 rxs2 →
  dispatch_execute rt ctx rxs1 atoms_iter = dispatch_execute rt ctx rxs2 atoms_iter.
Proof.
  intros H. unfold dispatch_execute. cbv zeta.
  assert (Hall : ∀ rs1 rs2 rt acc,
    dispatch_all rt ctx atoms_iter (get_galactic_drift (crystal_index ctx)) rs1 rxs1 acc
    = dispatch_all rt ctx atoms_iter (get_galactic_drift (crystal_index ctx)) rs2 rxs2 acc).
  { intros rs1 rs2. induction H as [|r1 r2 l1 l2 (Hp & (a & d & Ha) & Hk & He & Hh) _ IH];
      intros rt' acc; [done|]. simpl.
    assert (dispatch_single rt' ctx r1 atoms_iter (get_galactic_drift (crystal_index ctx)) rs1 acc
      = dispatch_single rt' ctx r2 atoms_iter (get_galactic_drift (crystal_index ctx)) rs2 acc) as ->.
    { unfold dispatch_single, dispatch_contract, contract_host, settle_contract.
      rewrite <-Hp, Ha, <-Hk, <-He, <-Hh. done. }
    destruct (dispatch_single _ _ _ _ _ _ _) as [rt2 [acc2|]]; [apply IH|done]. }
  by rewrite (Hall rxs1 rxs2).
Qed.
End theorems.

(** ** A runtime whose only module pays 300 units from its caller to [8] *)
#[local] Existing Instance toy_hashes.
Inductive DemoModule := PayModule.
Definition demo_calls : list (option bytes * HostCall) := [pay 300].

#[export] Instance demo_wasmtime : Wasmtime DemoModule (list bytes) := {|
  module_new code := if bool_decide (code = []) then Err "empty"%string else Ok PayModule;
  call_export m hs fuel := Ok (run_calls hs demo_calls, fuel - 100);
  cache_contains c h := bool_decide (h ∈ c);
  cache_get c h := (c, if bool_decide (h ∈ c) then Some PayModule else None);
  cache_put c h m := h :: c;
|}.
#[export] Instance demo_wasmtime_laws : WasmtimeLaws DemoModule (list bytes).
Proof. constructor. intros m hs fuel hs' left [= <- _]. by exists demo_calls. Qed.

#[local] Instance demo_crypto : CryptoVerifier := {| crypto_verify _ _ _ := false |}.
Definition demo_base : gmap bytes Atom := {[ [7] := set_mass 500 (new_receiver [7]) ]}.
Definition demo_ctx : ExecutionContext :=
  MkContext (MkStateView (λ pk, demo_base !! pk) 3
    (λ h, if bool_decide (h = zero32) then Some [1; 2; 3] else None)) [9] (f32_of_Z 300) 3.
Definition demo_call (n : Z) (sig : bytes) : SignedReaction :=
  MkReaction (set_nonce n (new_receiver [7])) (new_receiver [7]) zero32 (f32_of_Z 1) 0 sig
    (ContractCall zero32 []).
Definition demo_dispatch (cs : Changeset) : option (list bytes) * pvm_result (Changeset * f32) :=
  dispatch_contract (Some []) demo_ctx (demo_call 0 []) zero32 [] cs.
Definition demo_result (cs : Changeset) : Changeset * f32 :=
  match (demo_dispatch cs).2 with Ok r => r | Err _ => (cs_new, f32_of_Z 0) end.

Example demo_dispatch_masses :
  (λ k, mass <$> inner (demo_result cs_new).1 !! k) <$> [[7]; [8]] = [Some 200; Some 300].
Proof. vm_compute. reflexivity. Qed.

Lemma demo_base_lookup k a : demo_base !! k = Some a → k = [7] ∧ a = set_mass 500 (new_receiver [7]).
Proof. unfold demo_base. by rewrite lookup_singleton_Some => -[<- <-]. Qed.
Lemma demo_base_ok : atoms_ok demo_base.
Proof. intros k a [-> ->]%demo_base_lookup. vm_compute. split; [done|]. split; [|split]; discriminate. Qed.
Lemma demo_base_u64 : masses_u64 demo_base.
Proof. intros k a [-> ->]%demo_base_lookup. vm_compute. discriminate. Qed.

Lemma contract_call_safe_witness :
  total_mass (view_map demo_base (demo_result cs_new).1) ≤ total_mass demo_base.
Proof.
  rewrite <-(view_map_new demo_base) at 2.
  refine (proj1 (contract_call_safe demo_base demo_ctx (Some [])
    (demo_dispatch cs_new).1 (demo_call 0 []) zero32 [] cs_new (demo_result cs_new).1
    (demo_result cs_new).2 (λ _, eq_refl) demo_base_ok demo_base_u64 _ _ _)).
  - rewrite view_map_new. exact demo_base_ok.
  - rewrite view_map_new. exact demo_base_u64.
  - vm_compute. reflexivity.
Defined.

(** An unsigned call and its replay, both with nonce 0, in one batch. *)
Lemma contract_calls_unauthenticated_witness :
  is_ok (dispatch_execute (Some []) demo_ctx [demo_call 0 []] demo_base).2 = true ∧
  dispatch_execute (Some []) demo_ctx [demo_call 0 []] demo_base
  = dispatch_execute (Some []) demo_ctx [demo_call 99 [1; 2]] demo_base.
Proof.
  split; [vm_compute; reflexivity|].
  apply (contract_calls_unauthenticated (Some []) demo_ctx
    [demo_call 0 []] [demo_call 99 [1; 2]] demo_base).
  constructor; [|constructor]. split; [reflexivity|]. split; [exists zero32, []; reflexivity|].
  split; [reflexivity|]. split; reflexivity.
Defined.
