(* ===== verification/Mempool.v ===== *)
(** The sectoral mempool (primus-storage mempool_v2.rs): 256 sectors, each with a tree of
    reactions by hash and an index of those hashes by weight.

    A sled tree is an ordered map of byte strings; its errors (I/O) are not modelled. *)
From S2P Require Import Prelude Floats Types.
Open Scope Z_scope.

(** bincode's encoding of a reaction (crate bincode), with its round trip. *)
Class ReactionCodec := {
  ser_rx : SignedReaction → bytes;
  de_rx : bytes → option SignedReaction;
  de_ser_rx rx : de_rx (ser_rx rx) = Some rx;
}.

Record Sector := MkSector { data_tree : gmap bytes bytes; weight_tree : gmap bytes bytes }.
Record SectoralMempool := MkMempool { sectors : gmap Z Sector; max_sector_capacity : Z }.

Inductive MempoolError :=
| ZeroCopyInvalid (e : PrimusError)
| StructuralInvalid (e : PrimusError)
| DeserializeFailed
| SectorOutOfRange (sector_id : Z)
| SectorFull (sector_id capacity : Z).

(** `new`: opens the two trees of every sector. *)
Definition mempool_new (open_sector : Z → Sector) : SectoralMempool :=
  MkMempool (list_to_map ((λ i, (i, open_sector i)) <$> seqZ 0 256)) 1000000.

Definition sector_of (rx : SignedReaction) : Z := default 0 (head (public_key (sender rx))).

(** energy (4 bytes, big endian) then [u64::MAX - now] (8 bytes). *)
Definition weight_key (energy : f32) (now : Z) : bytes :=
  to_be 4 (f32_to_bits energy) ++ to_be 8 (U64_MAX - now).

Section mempool.
Context {HA : Hashes} {RC : ReactionCodec}.

(** [now] is the system time in seconds. *)
Definition push (now : Z) (mp : SectoralMempool) (rx : SignedReaction)
    : result (SectoralMempool * bool) MempoolError :=
  match validate_structure rx with
  | Err e => Err (StructuralInvalid e)
  | Ok _ =>
      let sector_id := sector_of rx in
      let? s := ok_or (sectors mp !! sector_id) (SectorOutOfRange sector_id) in
      guard? negb (max_sector_capacity mp <=? Z.of_nat (size (data_tree s)))
        else SectorFull sector_id (max_sector_capacity mp);
      let rx_hash := reaction_hash rx in
      if bool_decide (is_Some (data_tree s !! rx_hash)) then Ok (mp, false)
      else
        let s := MkSector (<[rx_hash := ser_rx rx]> (data_tree s))
                   (<[weight_key (energy rx) now := rx_hash]> (weight_tree s)) in
        Ok (MkMempool (<[sector_id := s]> (sectors mp)) (max_sector_capacity mp), true)
  end.

(** The zero-copy entry: rkyv's checked access and its deserializer are parameters. *)
Definition push_bytes (check_archived_root : bytes → option ArchivedSignedReaction)
    (deserialize : ArchivedSignedReaction → option SignedReaction)
    (now : Z) (mp : SectoralMempool) (b : bytes) : result (SectoralMempool * bool) MempoolError :=
  match from_bytes_zero_copy check_archived_root b with
  | Err e => Err (ZeroCopyInvalid e)
  | Ok archived =>
      match archived_validate_structure archived with
      | Err e => Err (StructuralInvalid e)
      | Ok _ =>
          match deserialize archived with
          | None => Err DeserializeFailed
          | Some rx => push now mp rx
          end
      end
  end.

(** The loop of [drain_resonant] over the entries collected from the weight index. *)
Fixpoint drain_loop (entries : list (bytes * bytes)) (s : Sector) : Sector * list SignedReaction :=
  match entries with
  | [] => (s, [])
  | (weight_key, hash) :: entries =>
      let removed := data_tree s !! hash in
      let s := MkSector (delete hash (data_tree s)) (delete weight_key (weight_tree s)) in
      let '(s', results) := drain_loop entries s in
      (s', match removed ≫= de_rx with Some rx => rx :: results | None => results end)
  end.

Definition drain_entries (s : Sector) (limit : nat) : list (bytes * bytes) :=
  take limit (reverse (btree_to_list (weight_tree s))).

Definition drain_resonant (mp : SectoralMempool) (drift : Z) (limit : nat)
    : SectoralMempool * list SignedReaction :=
  match sectors mp !! drift with
  | Some s =>
      let '(s', results) := drain_loop (drain_entries s limit) s in
      (MkMempool (<[drift := s']> (sectors mp)) (max_sector_capacity mp), results)
  | None => (mp, [])
  end.

(** The calls the node makes on its pool, and what they return. *)
Inductive MempoolOp := OpPush (now : Z) (rx : SignedReaction) | OpDrain (drift : Z) (limit : nat).

(** The pool after a sequence of calls, the reactions accepted and those drained. *)
Fixpoint run_ops (ops : list MempoolOp) (mp : SectoralMempool)
    : SectoralMempool * list SignedReaction * list SignedReaction :=
  match ops with
  | [] => (mp, [], [])
  | OpPush now rx :: ops =>
      match push now mp rx with
      | Ok (mp, true) => let '(mp, acc, out) := run_ops ops mp in (mp, rx :: acc, out)
      | _ => run_ops ops mp
      end
  | OpDrain drift limit :: ops =>
      let '(mp, rxs) := drain_resonant mp drift limit in
      let '(mp, acc, out) := run_ops ops mp in (mp, acc, rxs ++ out)
  end.

(** ** The invariant of a sector *)
Record sector_ok (i : Z) (s : Sector) : Prop := {
  so_data : ∀ h d, data_tree s !! h = Some d →
    ∃ rx, d = ser_rx rx ∧ reaction_hash rx = h ∧ structurally_valid rx ∧ sector_of rx = i;
  so_weight : ∀ k h, weight_tree s !! k = Some h →
    ∃ rx now, is_u64 now ∧ data_tree s !! h = Some (ser_rx rx) ∧ k = weight_key (energy rx) now;
  so_inj : ∀ k1 k2 h, weight_tree s !! k1 = Some h → weight_tree s !! k2 = Some h → k1 = k2;
}.
Definition mempool_ok (mp : SectoralMempool) : Prop :=
  ∀ i s, sectors mp !! i = Some s →
    sector_ok i s ∧ Z.of_nat (size (data_tree s)) ≤ Z.max 0 (max_sector_capacity mp).

Lemma ser_rx_inj rx rx' : ser_rx rx = ser_rx rx' → rx = rx'.
Proof. intros H. apply (f_equal de_rx) in H. rewrite !de_ser_rx in H. congruence. Qed.

(** What a push did. *)
Lemma push_Ok now mp rx mp' b :
  push now mp rx = Ok (mp', b) →
  structurally_valid rx ∧ ∃ s, sectors mp !! sector_of rx = Some s ∧
    Z.of_nat (size (data_tree s)) < max_sector_capacity mp ∧
    if b then
      data_tree s !! reaction_hash rx = None ∧
      mp' = MkMempool (<[sector_of rx :=
              MkSector (<[reaction_hash rx := ser_rx rx]> (data_tree s))
                (<[weight_key (energy rx) now := reaction_hash rx]> (weight_tree s))]> (sectors mp))
              (max_sector_capacity mp)
    else is_Some (data_tree s !! reaction_hash rx) ∧ mp' = mp.
Proof.
  unfold push. intros H. destruct (validate_structure rx) as [[]|] eqn:E; [|done].
  apply validate_structure_Ok in E.
  split; [done|]. cbv zeta in H. inv_ok H. exists x. rewrite negb_true_iff, Z.leb_gt in *.
  split_and!; [done..|]. case_bool_decide as Hb; injection H as <- <-; [done|].
  split; [by apply eq_None_not_Some|done].
Qed.

Lemma sector_ok_push i s rx now :
  sector_ok i s → structurally_valid rx → is_u64 now → sector_of rx = i →
  data_tree s !! reaction_hash rx = None →
  sector_ok i (MkSector (<[reaction_hash rx := ser_rx rx]> (data_tree s))
                (<[weight_key (energy rx) now := reaction_hash rx]> (weight_tree s))).
Proof.
  intros [Hd Hw Hi] Hv Hnow Hs Hn.
  assert (Hfresh : ∀ k, weight_tree s !! k ≠ Some (reaction_hash rx)).
  { intros k Hk. destruct (Hw k _ Hk) as (? & ? & _ & ? & _). congruence. }
  constructor; simpl.
  - intros h d. rewrite lookup_insert_Some. intros [[<- <-]|[_ ?]]; [by exists rx|by apply Hd].
  - intros k h. rewrite lookup_insert_Some. intros [[<- <-]|[_ Hk]].
    + exists rx, now. by rewrite lookup_insert_eq.
    + destruct (Hw k h Hk) as (rx' & now' & ? & ? & ->). exists rx', now'.
      rewrite lookup_insert_ne; [done|]. intros <-. by destruct (Hfresh _ Hk).
  - intros k1 k2 h. rewrite !lookup_insert_Some.
    intros [[<- <-]|[? H1]] [[<- ?]|[? H2]]; [done| | |by eapply Hi].
    + by destruct (Hfresh _ H2).
    + subst. by destruct (Hfresh _ H1).
Qed.

Lemma sector_ok_drain_one i s k h :
  sector_ok i s → weight_tree s !! k = Some h →
  sector_ok i (MkSector (delete h (data_tree s)) (delete k (weight_tree s))).
Proof.
  intros [Hd Hw Hi] Hk. constructor; simpl.
  - intros h' d. rewrite lookup_delete_Some. intros [_ ?]. by apply Hd.
  - intros k' h'. rewrite lookup_delete_Some. intros [Hne Hk'].
    destruct (Hw k' h' Hk') as (rx & now & ? & ? & ?). exists rx, now. split; [done|]. split; [|done].
    rewrite lookup_delete_ne; [done|]. intros <-. apply Hne. by eapply Hi.
  - intros k1 k2 h'. rewrite !lookup_delete_Some. intros [_ ?] [_ ?]. by eapply Hi.
Qed.

(** ** Draining *)
(** The reactions held by a sector. *)
Definition resident (s : Sector) : list SignedReaction :=
  omap de_rx (map_to_list (data_tree s)).*2.

Lemma resident_remove s h rx w :
  data_tree s !! h = Some (ser_rx rx) →
  resident s ≡ₚ rx :: resident (MkSector (delete h (data_tree s)) w).
Proof.
  intros Hh. unfold resident. simpl. rewrite <-(map_to_list_delete _ _ _ Hh). simpl.
  by rewrite de_ser_rx.
Qed.

Lemma resident_add s h rx w :
  data_tree s !! h = None →
  resident (MkSector (<[h := ser_rx rx]> (data_tree s)) w) ≡ₚ rx :: resident s.
Proof. intros Hh. unfold resident. simpl. rewrite map_to_list_insert by done. simpl. by rewrite de_ser_rx. Qed.

Lemma elem_of_resident i s rx :
  sector_ok i s → rx ∈ resident s ↔ data_tree s !! reaction_hash rx = Some (ser_rx rx).
Proof.
  intros Hok. unfold resident. rewrite list_elem_of_omap. split.
  - intros (d & ([h d'] & -> & Hd%elem_of_map_to_list)%list_elem_of_fmap & Hde). simpl in Hde.
    destruct (so_data _ _ Hok h d' Hd) as (rx' & -> & Hh & _).
    rewrite de_ser_rx in Hde. by simplify_eq.
  - intros Hd. exists (ser_rx rx). split; [|apply de_ser_rx].
    apply list_elem_of_fmap. exists (reaction_hash rx, ser_rx rx).
    split; [done|by apply elem_of_map_to_list].
Qed.

(** Draining entries of the index returns the reaction of every one of them. *)
Lemma drain_loop_spec i entries s s' out :
  sector_ok i s → NoDup entries.*1 →
  (∀ k h, (k, h) ∈ entries → weight_tree s !! k = Some h) →
  drain_loop entries s = (s', out) →
  sector_ok i s' ∧ Forall2 (λ e rx, data_tree s !! e.2 = Some (ser_rx rx)) entries out ∧
  resident s ≡ₚ out ++ resident s' ∧ (size (data_tree s') ≤ size (data_tree s))%nat ∧
  (∀ k h, weight_tree s' !! k = Some h ↔ (k ∉ entries.*1) ∧ weight_tree s !! k = Some h).
Proof.
  revert s out; induction entries as [|[k h] entries IH]; intros s out Hok Hnd Hin H; simpl in H.
  { injection H as <- <-. split_and!; [done|constructor|done|done|].
    intros; split; [|by intros [_ ?]]. intros; split; [apply not_elem_of_nil|done]. }
  destruct (drain_loop entries _) as [s1 out1] eqn:E. injection H as <- <-.
  rewrite fmap_cons in Hnd. apply NoDup_cons in Hnd as [Hk Hnd].
  assert (Hw : weight_tree s !! k = Some h) by (apply Hin; left).
  destruct (so_weight _ _ Hok k h Hw) as (rx & now & _ & Hd & _). rewrite Hd. cbn [mbind option_bind].
  rewrite de_ser_rx.
  pose proof (sector_ok_drain_one _ _ _ _ Hok Hw) as Hok1.
  edestruct (λ Hin', IH _ _ Hok1 Hnd Hin' E) as (Hok' & Hf & Hp & Hsz & Hwt).
  { intros k' h' Hin'. cbn [weight_tree]. rewrite lookup_delete_Some. split; [|apply Hin; by right].
    intros <-. apply Hk. apply list_elem_of_fmap. by exists (k, h'). }
  split_and!; [done| | | |].
  - constructor; [done|]. eapply Forall2_impl; [exact Hf|]. intros e rx'. simpl.
    rewrite lookup_delete_Some. by intros [_ ?].
  - rewrite (resident_remove s h rx (delete k (weight_tree s)) Hd), Hp. done.
  - simpl in Hsz. rewrite map_size_delete in Hsz. etrans; [exact Hsz|]. case_match; simpl; lia.
  - intros k' h'. rewrite Hwt. cbn [weight_tree].
    rewrite fmap_cons, lookup_delete_Some, not_elem_of_cons. naive_solver.
Qed.

(** The index from its end: the entries taken, then those that stay. *)
Lemma drain_entries_spec s limit :
  let entries := drain_entries s limit in
  ∃ rest, reverse (btree_to_list (weight_tree s)) = entries ++ rest ∧
    NoDup (entries.*1 ++ rest.*1) ∧ StronglySorted (flip key_le) (entries ++ rest) ∧
    (∀ k h, (k, h) ∈ entries ++ rest ↔ weight_tree s !! k = Some h) ∧
    length entries = Nat.min limit (size (weight_tree s)).
Proof.
  cbv zeta. unfold drain_entries. set (l := reverse (btree_to_list (weight_tree s))).
  assert (Hp : l ≡ₚ btree_to_list (weight_tree s)) by apply reverse_Permutation.
  exists (drop limit l). rewrite <-fmap_app, take_drop. split_and!; [done| | | |].
  - rewrite Hp. apply btree_to_list_NoDup_keys.
  - apply Sorted_StronglySorted; [intros x y z H1 H2; exact (key_le_trans _ _ _ H2 H1)|].
    by apply Sorted_reverse, StronglySorted_Sorted, btree_to_list_sorted.
  - intros k h. rewrite Hp. apply elem_of_btree_to_list.
  - rewrite length_take, Hp, btree_to_list_perm, length_map_to_list. done.
Qed.

(** The order of the index is by energy. *)
Lemma weight_key_order i s k1 h1 k2 h2 rx1 rx2 :
  sector_ok i s → weight_tree s !! k1 = Some h1 → weight_tree s !! k2 = Some h2 →
  data_tree s !! h1 = Some (ser_rx rx1) → data_tree s !! h2 = Some (ser_rx rx2) →
  f32_valid (energy rx1) → f32_valid (energy rx2) →
  bytes_le k1 k2 → fp_lt (energy rx2) (energy rx1) = false.
Proof.
  intros Hok Hw1 Hw2 Hd1 Hd2 F1 F2 Hle. apply not_true_iff_false. intros Hlt.
  destruct (so_weight _ _ Hok _ _ Hw1) as (rx1' & n1 & Hn1 & Hd1' & ->).
  destruct (so_weight _ _ Hok _ _ Hw2) as (rx2' & n2 & Hn2 & Hd2' & ->).
  assert (rx1' = rx1) as -> by (apply ser_rx_inj; congruence).
  assert (rx2' = rx2) as -> by (apply ser_rx_inj; congruence).
  destruct (so_data _ _ Hok _ _ Hd1) as (? & <-%ser_rx_inj & _ & V1 & _).
  destruct (so_data _ _ Hok _ _ Hd2) as (? & <-%ser_rx_inj & _ & V2 & _).
  assert (P1 := structurally_valid_energy _ V1). assert (P2 := structurally_valid_energy _ V2).
  pose proof (f32_bits_lt _ _ F2 F1 P2 P1 Hlt) as Hbits.
  pose proof (f32_bits_bounds _ F1 P1). pose proof (f32_bits_bounds _ F2 P2).
  unfold weight_key in Hle. rewrite bytes_le_app in Hle by (by rewrite !length_to_be).
  destruct Hle as [[_ Hle]|[Heq _]].
  - apply bytes_le_to_be in Hle; lia.
  - assert (bytes_le (to_be 4 (f32_to_bits (energy rx1))) (to_be 4 (f32_to_bits (energy rx2)))) as Hle
      by (rewrite Heq; apply bytes_leb_refl).
    apply bytes_le_to_be in Hle; lia.
Qed.

(** One drain of a well-formed pool. *)
Lemma drain_resonant_inv mp i s limit mp' out :
  mempool_ok mp → sectors mp !! i = Some s → drain_resonant mp i limit = (mp', out) →
  ∃ s', mp' = MkMempool (<[i := s']> (sectors mp)) (max_sector_capacity mp) ∧
    drain_loop (drain_entries s limit) s = (s', out).
Proof.
  intros Hok Hs H. unfold drain_resonant in H. rewrite Hs in H.
  destruct (drain_loop _ _) as [s' out'] eqn:E. simplify_eq. by exists s'.
Qed.

Lemma drain_loop_entries i s limit s' out :
  sector_ok i s → drain_loop (drain_entries s limit) s = (s', out) →
  sector_ok i s' ∧
  Forall2 (λ e rx, data_tree s !! e.2 = Some (ser_rx rx)) (drain_entries s limit) out ∧
  resident s ≡ₚ out ++ resident s' ∧ (size (data_tree s') ≤ size (data_tree s))%nat ∧
  (∀ k h, weight_tree s' !! k = Some h ↔ (k ∉ (drain_entries s limit).*1) ∧ weight_tree s !! k = Some h).
Proof.
  intros Hok. destruct (drain_entries_spec s limit) as (rest & _ & Hnd & _ & Hin & _).
  apply NoDup_app in Hnd as (Hnd & _ & _).
  apply (drain_loop_spec i); [done|done|]. intros k h Hkh. apply Hin, elem_of_app. by left.
Qed.

Lemma mempool_ok_insert mp i s s' :
  mempool_ok mp → sectors mp !! i = Some s → sector_ok i s' →
  Z.of_nat (size (data_tree s')) ≤ Z.max 0 (max_sector_capacity mp) →
  mempool_ok (MkMempool (<[i := s']> (sectors mp)) (max_sector_capacity mp)).
Proof.
  intros Hok Hs Hs' Hsz j t. simpl. rewrite lookup_insert_Some.
  intros [[<- <-]|[_ ?]]; [done|by apply Hok].
Qed.

Lemma drain_ok mp i limit mp' out :
  mempool_ok mp → drain_resonant mp i limit = (mp', out) → mempool_ok mp'.
Proof.
  intros Hok H. destruct (sectors mp !! i) as [s|] eqn:Hs.
  - destruct (drain_resonant_inv _ _ _ _ _ _ Hok Hs H) as (s' & -> & Hd).
    destruct (Hok _ _ Hs) as [Hsok Hsz].
    destruct (drain_loop_entries _ _ _ _ _ Hsok Hd) as (Hsok' & _ & _ & Hle & _).
    apply (mempool_ok_insert _ _ s); [done|done|done|lia].
  - unfold drain_resonant in H. rewrite Hs in H. by injection H as <- <-.
Qed.

(** Calls as the node can make them: the clock is a u64. *)
Definition op_ok (op : MempoolOp) : Prop :=
  match op with OpPush now rx => is_u64 now | OpDrain _ _ => True end.

Lemma push_ok now mp rx mp' b :
  mempool_ok mp → is_u64 now → push now mp rx = Ok (mp', b) → mempool_ok mp'.
Proof.
  intros Hok Hn H. destruct (push_Ok _ _ _ _ _ H) as (Hv & s & Hs & Hcap & Hb).
  destruct b; destruct Hb as [Hh ->]; [|done]. destruct (Hok _ _ Hs) as [Hsok Hsz].
  apply (mempool_ok_insert _ _ s); [done|done|by apply sector_ok_push|].
  simpl. rewrite map_size_insert_None by done. lia.
Qed.

Lemma run_ops_ok ops mp mp' acc out :
  Forall op_ok ops → mempool_ok mp → run_ops ops mp = (mp', acc, out) → mempool_ok mp'.
Proof.
  intros Hops. revert mp acc out. induction Hops as [|op ops Hop _ IH]; intros mp acc out Hok H; simpl in H.
  { by simplify_eq. }
  destruct op as [now rx|i limit].
  - destruct (push now mp rx) as [[mp1 [|]]|] eqn:E; [| |by eapply IH].
    + destruct (run_ops ops mp1) as [[mp2 acc2] out2] eqn:E2. simplify_eq.
      eapply IH; [|exact E2]. by eapply push_ok.
    + by eapply IH.
  - destruct (drain_resonant mp i limit) as [mp1 rxs] eqn:E.
    destruct (run_ops ops mp1) as [[mp2 acc2] out2] eqn:E2. simplify_eq.
    eapply IH; [|exact E2]. by eapply drain_ok.
Qed.

(** ** Accounting *)
Definition residents (m : gmap Z Sector) : list SignedReaction :=
  map_to_list m ≫= λ p, resident p.2.

Lemma residents_insert m i s s' :
  m !! i = Some s → ∃ rest, residents m ≡ₚ resident s ++ rest ∧
    residents (<[i := s']> m) ≡ₚ resident s' ++ rest.
Proof.
  intros Hs. exists (residents (delete i m)). unfold residents. split.
  - rewrite <-(map_to_list_delete _ _ _ Hs). done.
  - rewrite <-insert_delete_eq, map_to_list_insert by apply lookup_delete_eq. done.
Qed.

Lemma run_ops_accounting ops mp mp' acc out :
  Forall op_ok ops → mempool_ok mp → run_ops ops mp = (mp', acc, out) →
  acc ++ residents (sectors mp) ≡ₚ out ++ residents (sectors mp').
Proof.
  intros Hops. revert mp acc out. induction Hops as [|op ops Hop _ IH]; intros mp acc out Hok H; simpl in H.
  { by simplify_eq. }
  destruct op as [now rx|i limit].
  - destruct (push now mp rx) as [[mp1 [|]]|] eqn:E; [| |by eapply IH].
    + destruct (run_ops ops mp1) as [[mp2 acc2] out2] eqn:E2. simplify_eq.
      rewrite <-(IH _ _ _ (push_ok _ _ _ _ _ Hok Hop E) E2).
      destruct (push_Ok _ _ _ _ _ E) as (_ & s & Hs & _ & Hh & ->). simpl.
      destruct (residents_insert _ _ _ (MkSector (<[reaction_hash rx := ser_rx rx]> (data_tree s))
        (<[weight_key (energy rx) now := reaction_hash rx]> (weight_tree s))) Hs) as (rest & -> & ->).
      rewrite resident_add by done. simpl. by rewrite Permutation_middle.
    + destruct (push_Ok _ _ _ _ _ E) as (_ & s & _ & _ & _ & ->). by apply IH.
  - destruct (drain_resonant mp i limit) as [mp1 rxs] eqn:E.
    destruct (run_ops ops mp1) as [[mp2 acc2] out2] eqn:E2. simplify_eq.
    rewrite <-app_assoc, <-(IH _ _ _ (drain_ok _ _ _ _ _ Hok E) E2).
    destruct (sectors mp !! i) as [s|] eqn:Hs.
    + destruct (drain_resonant_inv _ _ _ _ _ _ Hok Hs E) as (s' & -> & Hd). simpl.
      destruct (Hok _ _ Hs) as [Hsok _].
      destruct (drain_loop_entries _ _ _ _ _ Hsok Hd) as (_ & _ & Hp & _ & _).
      destruct (residents_insert _ _ _ s' Hs) as (rest & -> & ->).
      rewrite Hp. solve_Permutation.
    + unfold drain_resonant in E. rewrite Hs in E. by simplify_eq.
Qed.

Lemma drained_sorted i s entries out :
  sector_ok i s → StronglySorted (flip key_le) entries →
  Forall2 (λ e rx, data_tree s !! e.2 = Some (ser_rx rx)) entries out →
  (∀ k h, (k, h) ∈ entries → weight_tree s !! k = Some h) → Forall (λ rx, f32_valid (energy rx)) out →
  StronglySorted (λ rx1 rx2, fp_lt (energy rx1) (energy rx2) = false) out.
Proof.
  intros Hok Hsort Hf. induction Hf as [|[k h] rx entries out Hd Hf IH]; intros Hin Hv; [constructor|].
  apply Forall_cons in Hv as [Hv0 Hv].
  apply StronglySorted_inv in Hsort as [Hsort Hall]. constructor.
  - apply IH; [done| |done]. intros. apply Hin. by right.
  - apply Forall_forall. intros rx2 Hrx2. apply list_elem_of_lookup in Hrx2 as [n Hn].
    destruct (Forall2_lookup_r _ _ _ _ _ Hf Hn) as ([k2 h2] & He & Hd2).
    apply list_elem_of_lookup_2 in He. rewrite Forall_forall in Hall.
    eapply (weight_key_order i s k2 h2 k h); [done| | |done|done|..].
    + apply Hin. by right.
    + apply Hin. left.
    + by eapply Forall_lookup_1 in Hv.
    + done.
    + exact (Hall _ He).
Qed.

(** ** A pool opened again *)
(** The pool has its 256 sectors and its capacity, whatever is done with it. *)
Definition pool_whole (mp : SectoralMempool) : Prop :=
  max_sector_capacity mp = 1000000 ∧ ∀ i, is_Some (sectors mp !! i) ↔ 0 ≤ i < 256.
(** What a pool leaves on disk. *)
Definition sectors_on_disk (mp : SectoralMempool) (i : Z) : Sector := default (MkSector ∅ ∅) (sectors mp !! i).

Lemma mempool_new_lookup open_sector i :
  sectors (mempool_new open_sector) !! i = if decide (0 ≤ i < 256) then Some (open_sector i) else None.
Proof.
  unfold mempool_new. cbn [sectors]. case_decide as Hi.
  - apply elem_of_list_to_map_1; [|apply list_elem_of_fmap; exists i; split; [done|by apply elem_of_seqZ; lia]].
    rewrite <-list_fmap_compose. apply NoDup_fmap_2; [intros a b E; exact E|apply NoDup_seqZ].
  - apply not_elem_of_list_to_map_1. rewrite <-list_fmap_compose, list_elem_of_fmap.
    intros (j & -> & Hj%elem_of_seqZ). simpl in Hi. lia.
Qed.
Lemma pool_whole_new open_sector : pool_whole (mempool_new open_sector).
Proof.
  split; [done|]. intros i. rewrite mempool_new_lookup. case_decide; split; try done; by intros [].
Qed.
Lemma pool_whole_insert mp i s s' :
  pool_whole mp → sectors mp !! i = Some s → pool_whole (MkMempool (<[i := s']> (sectors mp)) (max_sector_capacity mp)).
Proof.
  intros [Hc Hs] Hi. split; [exact Hc|]. intros j. cbn [sectors]. rewrite lookup_insert_is_Some', <-Hs.
  split; [intros [<-|H]; [by exists s|exact H]|by right].
Qed.
Lemma run_ops_whole ops mp mp' acc out : pool_whole mp → run_ops ops mp = (mp', acc, out) → pool_whole mp'.
Proof.
  revert mp mp' acc out; induction ops as [|[now rx|i limit] ops IH]; intros mp mp' acc out Hw H; simpl in H.
  - by simplify_eq.
  - destruct (push now mp rx) as [[mp1 [|]]|] eqn:E; [| |by eapply IH].
    all: destruct (push_Ok _ _ _ _ _ E) as (_ & s & Hs & _ & _ & ->).
    + destruct (run_ops ops _) as [[mp2 acc2] out2] eqn:E2. simplify_eq. apply IH in E2; [done|by eapply pool_whole_insert].
    + by eapply IH.
  - unfold drain_resonant in H. destruct (sectors mp !! i) as [s|] eqn:Hs.
    + destruct (drain_loop _ _) as [s' rxs].
      destruct (run_ops ops _) as [[mp2 acc2] out2] eqn:E2. simplify_eq. apply IH in E2; [done|by eapply pool_whole_insert].
    + destruct (run_ops ops _) as [[mp2 acc2] out2] eqn:E2. simplify_eq. by apply IH in E2.
Qed.
Lemma reopen_pool mp : pool_whole mp → mempool_new (sectors_on_disk mp) = mp.
Proof.
  intros [Hc Hs]. destruct mp as [m cap]. cbn [max_sector_capacity sectors] in *. subst cap.
  unfold mempool_new at 1. f_equal. apply map_eq. intros i.
  change (list_to_map ((λ i0 : Z, (i0, sectors_on_disk (MkMempool m 1000000) i0)) <$> seqZ 0 256) !! i)
    with (sectors (mempool_new (sectors_on_disk (MkMempool m 1000000))) !! i).
  rewrite mempool_new_lookup. unfold sectors_on_disk. cbn [sectors]. case_decide as Hi.
  - apply Hs in Hi as [s ->]. done.
  - symmetry. apply eq_None_not_Some. by rewrite Hs.
Qed.

(** ** Theorems *)
Definition empty_pool : SectoralMempool := mempool_new (λ _, MkSector ∅ ∅).

Lemma empty_pool_sector i s : sectors empty_pool !! i = Some s → s = MkSector ∅ ∅.
Proof.
  unfold empty_pool, mempool_new. cbn [sectors]. intros H.
  apply elem_of_list_to_map_2, list_elem_of_fmap in H as (j & [= _ ->] & _). done.
Qed.

Lemma empty_pool_ok : mempool_ok empty_pool.
Proof.
  intros i s ->%empty_pool_sector. cbn [data_tree max_sector_capacity empty_pool mempool_new].
  split; [|rewrite map_size_empty; lia].
  constructor; simpl; intros *; by rewrite lookup_empty.
Qed.

Lemma residents_empty : residents (sectors empty_pool) = [].
Proof.
  unfold residents. assert (∀ p, p ∈ map_to_list (sectors empty_pool) → resident p.2 = []) as Hn.
  { intros [i s] Hp%elem_of_map_to_list. apply empty_pool_sector in Hp as ->. done. }
  induction (map_to_list (sectors empty_pool)) as [|p l IH]; [done|].
  rewrite bind_cons, (Hn p), IH; [done| |left]. intros q Hq. apply Hn. by right.
Qed.

(** C24. Exactly once: whatever the calls, the reactions accepted are those drained
    together with those still held, each as often as it was accepted; and no sector holds
    more than its capacity. *)
Theorem mempool_accounting ops mp acc out :
  Forall op_ok ops → run_ops ops empty_pool = (mp, acc, out) →
  acc ≡ₚ out ++ residents (sectors mp) ∧
  ∀ i s, sectors mp !! i = Some s → Z.of_nat (size (data_tree s)) ≤ max_sector_capacity mp.
Proof.
  intros Hops H. split.
  - rewrite <-(run_ops_accounting _ _ _ _ _ Hops empty_pool_ok H), residents_empty. by rewrite app_nil_r.
  - intros i s Hs. destruct (run_ops_ok _ _ _ _ _ Hops empty_pool_ok H i s Hs) as [_ Hsz].
    destruct (run_ops_whole _ _ _ _ _ (pool_whole_new _) H) as [Hcap _]. lia.
Qed.

(** C25. A drain returns as many reactions of the sector as it may, each one held
    before, by decreasing energy, and none of lower energy than an indexed one it leaves. *)
Theorem drain_order mp i s limit mp' out :
  mempool_ok mp → sectors mp !! i = Some s → Forall (λ rx, f32_valid (energy rx)) (resident s) →
  drain_resonant mp i limit = (mp', out) →
  length out = Nat.min limit (size (weight_tree s)) ∧
  Forall (λ rx, structurally_valid rx ∧ sector_of rx = i ∧ rx ∈ resident s) out ∧
  StronglySorted (λ rx1 rx2, fp_lt (energy rx1) (energy rx2) = false) out ∧
  ∃ s', sectors mp' !! i = Some s' ∧ resident s ≡ₚ out ++ resident s' ∧
    ∀ k rx', weight_tree s' !! k = Some (reaction_hash rx') → rx' ∈ resident s' →
      Forall (λ rx, fp_lt (energy rx) (energy rx') = false) out.
Proof.
  intros Hok Hs Hfl H. destruct (drain_resonant_inv _ _ _ _ _ _ Hok Hs H) as (s' & -> & Hd).
  destruct (Hok _ _ Hs) as [Hsok _].
  rewrite Forall_forall in Hfl.
  destruct (drain_loop_entries _ _ _ _ _ Hsok Hd) as (Hsok' & Hf & Hp & _ & Hw).
  destruct (drain_entries_spec s limit) as (rest & Hl & Hnd & Hsort & Hin & Hlen).
  assert (Hmem : ∀ rx, rx ∈ out → rx ∈ resident s) by (intros; rewrite Hp; set_solver).
  split_and!.
  - rewrite <-(Forall2_length _ _ _ Hf). exact Hlen.
  - apply Forall_forall. intros rx Hrx. pose proof (Hmem _ Hrx) as Hr.
    apply (elem_of_resident _ _ _ Hsok) in Hr as Hdata.
    destruct (so_data _ _ Hsok _ _ Hdata) as (? & <-%ser_rx_inj & _ & ? & ?). done.
  - apply (drained_sorted i s) with (drain_entries s limit); [done| |done|..].
    + by apply StronglySorted_app_1_l in Hsort.
    + intros k h Hk. apply Hin, elem_of_app. by left.
    + apply Forall_forall. intros rx Hrx. by apply Hfl, Hmem.
  - exists s'. split; [apply lookup_insert_eq|]. split; [done|].
    intros k rx' Hk Hr'. apply Hw in Hk as [Hk Hks].
    assert (Hd' : data_tree s !! reaction_hash rx' = Some (ser_rx rx')).
    { apply (elem_of_resident i); [done|]. rewrite Hp. set_solver. }
    assert (Hrest : (k, reaction_hash rx') ∈ rest).
    { apply Hin, elem_of_app in Hks as [Hks|]; [|done]. destruct Hk.
      apply list_elem_of_fmap. by exists (k, reaction_hash rx'). }
    apply Forall_forall. intros rx Hrx. pose proof (Hfl _ (Hmem _ Hrx)) as Hv.
    apply list_elem_of_lookup in Hrx as [n Hn].
    destruct (Forall2_lookup_r _ _ _ _ _ Hf Hn) as ([k1 h1] & He & Hdata). simpl in Hdata.
    apply list_elem_of_lookup_2 in He.
    assert (Hv' : f32_valid (energy rx')) by (apply Hfl; rewrite Hp; set_solver).
    eapply (weight_key_order i s k); [done|exact Hks| |exact Hd'|exact Hdata|done|done|].
    + apply Hin, elem_of_app. by left.
    + exact (StronglySorted_app_1_elem_of _ _ _ _ _ Hsort He Hrest).
Qed.

(** The zero-copy entry does what [push] does on the reaction it decodes, when
    rkyv's checked access and its deserializer invert its serializer on these bytes. *)
Lemma push_bytes_agrees check deserialize now mp b rx :
  check b = Some (archive rx) → deserialize (archive rx) = Some rx →
  push_bytes check deserialize now mp b = push now mp rx.
Proof.
  intros Hc Hd. unfold push_bytes, from_bytes_zero_copy. rewrite Hc. simpl.
  rewrite archived_validate_structure_archive, Hd. unfold push.
  by destruct (validate_structure rx).
Qed.

(** ** Reactions that lose their index entry *)
(** Held, but no entry of the index leads to it. *)
Definition orphaned (mp : SectoralMempool) (rx : SignedReaction) : Prop :=
  ∃ s, sectors mp !! sector_of rx = Some s ∧ data_tree s !! reaction_hash rx = Some (ser_rx rx) ∧
    ∀ k, weight_tree s !! k ≠ Some (reaction_hash rx).

Lemma orphaned_push now mp rx0 mp' b rx :
  orphaned mp rx → push now mp rx0 = Ok (mp', b) → orphaned mp' rx.
Proof.
  intros (s & Hs & Hd & Hw) H. destruct (push_Ok _ _ _ _ _ H) as (_ & s0 & Hs0 & _ & Hb).
  destruct b; destruct Hb as [Hh ->]; [|by exists s]. unfold orphaned. cbn [sectors].
  destruct (decide (sector_of rx0 = sector_of rx)) as [He|Hne].
  - rewrite He in *. rewrite Hs in Hs0. injection Hs0 as <-. rewrite lookup_insert_eq.
    eexists. split; [done|]. simpl.
    assert (reaction_hash rx0 ≠ reaction_hash rx) by congruence.
    rewrite lookup_insert_ne by done. split; [done|]. intros k.
    rewrite lookup_insert_Some. intros [[_ ?]|[_ ?]]; [done|by eapply Hw].
  - rewrite lookup_insert_ne by done. by exists s.
Qed.

Lemma drain_loop_keeps entries s s' out h :
  (∀ k h', (k, h') ∈ entries → h' ≠ h) → drain_loop entries s = (s', out) →
  data_tree s' !! h = data_tree s !! h.
Proof.
  revert s out; induction entries as [|[k h'] entries IH]; intros s out Hn H; simpl in H; [by simplify_eq|].
  destruct (drain_loop entries _) as [s1 out1] eqn:E. injection H as <- _.
  rewrite (IH _ _ (λ k1 h1 H1, Hn k1 h1 (list_elem_of_further _ _ _ H1)) E). simpl.
  apply lookup_delete_ne. apply (Hn k). left.
Qed.

Lemma orphaned_drain mp i limit mp' out rx :
  mempool_ok mp → orphaned mp rx → drain_resonant mp i limit = (mp', out) →
  orphaned mp' rx ∧ rx ∉ out.
Proof.
  intros Hok (s & Hs & Hd & Hw) H. destruct (sectors mp !! i) as [t|] eqn:Ht.
  2:{ unfold drain_resonant in H. rewrite Ht in H. simplify_eq. split; [by exists s|apply not_elem_of_nil]. }
  destruct (drain_resonant_inv _ _ _ _ _ _ Hok Ht H) as (t' & -> & Hl).
  destruct (Hok _ _ Ht) as [Htok _].
  destruct (drain_loop_entries _ _ _ _ _ Htok Hl) as (_ & Hf & _ & _ & Hwt).
  destruct (drain_entries_spec t limit) as (rest & _ & _ & _ & Hin & _).
  assert (Hent : ∀ k h, (k, h) ∈ drain_entries t limit → weight_tree t !! k = Some h)
    by (intros k h Hk; apply Hin, elem_of_app; by left).
  destruct (decide (i = sector_of rx)) as [->|Hne].
  - rewrite Hs in Ht. injection Ht as <-. split.
    + exists t'. cbn [sectors]. rewrite lookup_insert_eq. split; [done|]. split.
      * rewrite (drain_loop_keeps _ _ _ _ (reaction_hash rx)) with (2 := Hl); [done|].
        intros k h Hk ->. by apply (Hw k), Hent.
      * intros k [_ Hk]%Hwt. by apply (Hw k).
    + intros [n Hn]%list_elem_of_lookup.
      destruct (Forall2_lookup_r _ _ _ _ _ Hf Hn) as ([k h] & He & Hdata).
      apply list_elem_of_lookup_2, Hent in He. simpl in Hdata.
      destruct (so_data _ _ Htok _ _ Hdata) as (? & <-%ser_rx_inj & <- & _). by apply (Hw k).
  - split.
    + exists s. cbn [sectors]. by rewrite lookup_insert_ne.
    + intros [n Hn]%list_elem_of_lookup.
      destruct (Forall2_lookup_r _ _ _ _ _ Hf Hn) as ([k h] & He & Hdata). simpl in Hdata.
      destruct (so_data _ _ Htok _ _ Hdata) as (? & <-%ser_rx_inj & _ & _ & Hsec). congruence.
Qed.

Lemma orphaned_run ops mp mp' acc out rx :
  Forall op_ok ops → mempool_ok mp → orphaned mp rx → run_ops ops mp = (mp', acc, out) →
  orphaned mp' rx ∧ rx ∉ out.
Proof.
  intros Hops. revert mp acc out. induction Hops as [|op ops Hop _ IH]; intros mp acc out Hok Ho H; simpl in H.
  { simplify_eq. split; [done|apply not_elem_of_nil]. }
  destruct op as [now rx0|i limit].
  - destruct (push now mp rx0) as [[mp1 [|]]|] eqn:E; [| |by eapply IH].
    all: pose proof (push_ok _ _ _ _ _ Hok Hop E) as Hok1.
    all: pose proof (orphaned_push _ _ _ _ _ _ Ho E) as Ho1.
    + destruct (run_ops ops mp1) as [[mp2 acc2] out2] eqn:E2. simplify_eq. by eapply IH.
    + exact (IH _ _ _ Hok Ho H).
  - destruct (drain_resonant mp i limit) as [mp1 rxs] eqn:E.
    destruct (run_ops ops mp1) as [[mp2 acc2] out2] eqn:E2. simplify_eq.
    destruct (orphaned_drain _ _ _ _ _ _ Hok Ho E) as [Ho1 Hn1].
    destruct (IH _ _ _ (drain_ok _ _ _ _ _ Hok E) Ho1 E2) as [Ho2 Hn2].
    split; [done|]. rewrite elem_of_app. tauto.
Qed.

(** Two reactions of one sector with equal energies accepted in the same second get
    the same index key: the first is held for ever, and no later calls drain it or accept
    it again. *)
Theorem weight_collision_orphans mp now rx1 rx2 mp1 mp2 :
  mempool_ok mp → is_u64 now →
  energy rx1 = energy rx2 → sector_of rx1 = sector_of rx2 → 
  push now mp rx1 = Ok (mp1, true) → push now mp1 rx2 = Ok (mp2, true) →
  ∀ ops mp' acc out, Forall op_ok ops → run_ops ops mp2 = (mp', acc, out) →
    (rx1 ∉ out) ∧ rx1 ∈ residents (sectors mp') ∧
    ∀ now' mp'', push now' mp' rx1 ≠ Ok (mp'', true).
Proof.
  intros Hok Hn He Hsec H1 H2 ops mp' acc out Hops H.
  pose proof (push_ok _ _ _ _ _ Hok Hn H1) as Hok1.
  assert (Hok2 : mempool_ok mp2) by by eapply push_ok.
  assert (Ho : orphaned mp2 rx1).
  { destruct (push_Ok _ _ _ _ _ H1) as (_ & s & Hs & _ & Hh & ->).
    destruct (push_Ok _ _ _ _ _ H2) as (_ & s1 & Hs1 & _ & Hh2 & ->).
    rewrite <-Hsec in *. cbn [sectors] in *. rewrite lookup_insert_eq in Hs1. injection Hs1 as <-.
    cbn [data_tree] in Hh2. apply lookup_insert_None in Hh2 as [Hh2 Hne].
    exists (MkSector (<[reaction_hash rx2 := ser_rx rx2]> (<[reaction_hash rx1 := ser_rx rx1]> (data_tree s)))
        (<[weight_key (energy rx2) now := reaction_hash rx2]>
           (<[weight_key (energy rx1) now := reaction_hash rx1]> (weight_tree s)))).
    cbn [sectors data_tree weight_tree].
    rewrite lookup_insert_eq, lookup_insert_ne, lookup_insert_eq by done. split_and!; [done|done|].
    rewrite He, insert_insert_eq. intros k. rewrite lookup_insert_Some. intros [[_ ?]|[_ Hk]]; [congruence|].
    destruct (Hok _ _ Hs) as [Hsok _].
    destruct (so_weight _ _ Hsok _ _ Hk) as (? & ? & _ & Hd & _). congruence. }
  destruct (orphaned_run _ _ _ _ _ _ Hops Hok2 Ho H) as [Ho' Hout].
  pose proof Ho' as (s & Hs & Hd & Hw).
  destruct (run_ops_ok _ _ _ _ _ Hops Hok2 H _ _ Hs) as [Hsok _].
  split_and!; [done| |].
  - unfold residents. apply list_elem_of_bind. exists (sector_of rx1, s).
    split; [by apply (elem_of_resident (sector_of rx1))|by apply elem_of_map_to_list].
  - intros now' mp'' Hp. destruct (push_Ok _ _ _ _ _ Hp) as (_ & s' & Hs' & _ & Hh & _). congruence.
Qed.
End mempool.
