(* ===== verification/Toy.v ===== *)
(** Fixtures for the witnesses: a self-delimiting encoding of atoms and reactions that
    instantiates the codec interfaces.  No theorem on the program depends on it. *)
From S2P Require Import Prelude Floats Types State Mempool.
Open Scope Z_scope.

Definition put_bytes (b : bytes) : bytes := len b :: b.
Definition take_bytes (b : bytes) : option (bytes * bytes) :=
  match b with
  | n :: r => Some (take (Z.to_nat n) r, drop (Z.to_nat n) r)
  | [] => None
  end.
Lemma take_bytes_put b r : take_bytes (put_bytes b ++ r) = Some (b, r).
Proof.
  unfold put_bytes, take_bytes, len; simpl. by rewrite Nat2Z.id, take_app_length, drop_app_length.
Qed.

Definition put_bool (b : bool) : Z := if b then 1 else 0.
Definition put_f32 (x : f32) : bytes :=
  match x with
  | S754_zero s => [0; put_bool s]
  | S754_infinity s => [1; put_bool s]
  | S754_nan => [2]
  | S754_finite s m e => [3; put_bool s; Z.pos m; e]
  end.
Definition take_f32 (b : bytes) : option (f32 * bytes) :=
  match b with
  | 0 :: s :: r => Some (S754_zero (s =? 1), r)
  | 1 :: s :: r => Some (S754_infinity (s =? 1), r)
  | 2 :: r => Some (S754_nan, r)
  | 3 :: s :: m :: e :: r => Some (S754_finite (s =? 1) (Z.to_pos m) e, r)
  | _ => None
  end.
Lemma take_f32_put x r : take_f32 (put_f32 x ++ r) = Some (x, r).
Proof. by destruct x as [[]|[]| |[] m e]. Qed.

Definition put_element (e : Element) : Z :=
  match e with Hydrogen => 0 | Carbon => 1 | Oxygen => 2 | Gold => 3 end.
Definition get_element (z : Z) : Element :=
  match z with 0 => Hydrogen | 1 => Carbon | 2 => Oxygen | _ => Gold end.
Lemma get_element_put e : get_element (put_element e) = e.
Proof. by destruct e. Qed.

Definition put_quantum (q : QuantumState) : bytes :=
  match q with
  | Stable => [0]
  | Entangled p => 1 :: put_bytes p
  | Superposition s => [2; s]
  end.
Definition take_quantum (b : bytes) : option (QuantumState * bytes) :=
  match b with
  | 0 :: r => Some (Stable, r)
  | 1 :: r => '(p, r) ← take_bytes r; Some (Entangled p, r)
  | 2 :: s :: r => Some (Superposition s, r)
  | _ => None
  end.
Lemma take_quantum_put q r : take_quantum (put_quantum q ++ r) = Some (q, r).
Proof. destruct q as [|p|s]; [done| |done]. cbn [put_quantum app take_quantum]. by rewrite take_bytes_put. Qed.

Definition put_payload (p : Payload) : bytes :=
  match p with
  | Generic => [0]
  | Transfer n => [1; n]
  | MiningReward n => [2; n]
  | Contract c => 3 :: put_bytes c
  | ContractCall a d => 4 :: put_bytes a ++ put_bytes d
  | Unknown => [5]
  end.
Definition take_payload (b : bytes) : option (Payload * bytes) :=
  match b with
  | 0 :: r => Some (Generic, r)
  | 1 :: n :: r => Some (Transfer n, r)
  | 2 :: n :: r => Some (MiningReward n, r)
  | 3 :: r => '(c, r) ← take_bytes r; Some (Contract c, r)
  | 4 :: r => '(a, r) ← take_bytes r; '(d, r) ← take_bytes r; Some (ContractCall a d, r)
  | 5 :: r => Some (Unknown, r)
  | _ => None
  end.
Lemma take_payload_put p r : take_payload (put_payload p ++ r) = Some (p, r).
Proof.
  destruct p as [| | |c|a d|]; try done; cbn [put_payload app take_payload];
    rewrite <-?app_assoc, take_bytes_put; [done|]. cbn [mbind option_bind]. by rewrite take_bytes_put.
Qed.

#[local] Opaque put_bytes take_bytes put_f32 take_f32 put_quantum take_quantum put_payload take_payload.
Definition put_atom (a : Atom) : bytes :=
  put_element (element a) :: neutron_count a :: mass a :: last_active_index a :: nonce a ::
  put_bytes (public_key a) ++ put_bytes (last_reaction_hash a) ++ put_f32 (charge a)
  ++ put_quantum (quantum_state a).
Definition take_atom (b : bytes) : option (Atom * bytes) :=
  match b with
  | e :: nc :: m :: la :: n :: r =>
      '(pk, r) ← take_bytes r; '(h, r) ← take_bytes r; '(c, r) ← take_f32 r;
      '(q, r) ← take_quantum r; Some (MkAtom pk (get_element e) nc m c h la n q, r)
  | _ => None
  end.
Lemma take_atom_put a r : take_atom (put_atom a ++ r) = Some (a, r).
Proof.
  destruct a. unfold put_atom. simpl. rewrite <-!app_assoc. rewrite take_bytes_put. cbn [mbind option_bind].
  rewrite take_bytes_put. cbn [mbind option_bind]. rewrite take_f32_put. cbn [mbind option_bind].
  rewrite take_quantum_put. cbn [mbind option_bind]. by rewrite get_element_put.
Qed.

#[local] Opaque put_atom take_atom.
Definition put_rx (rx : SignedReaction) : bytes :=
  rx_timestamp rx :: put_atom (sender rx) ++ put_atom (receiver rx) ++ put_bytes (reaction_hash rx)
  ++ put_f32 (energy rx) ++ put_bytes (signature rx) ++ put_payload (payload rx).
Definition take_rx (b : bytes) : option (SignedReaction * bytes) :=
  match b with
  | t :: r =>
      '(s, r) ← take_atom r; '(v, r) ← take_atom r; '(h, r) ← take_bytes r; '(e, r) ← take_f32 r;
      '(sig, r) ← take_bytes r; '(p, r) ← take_payload r; Some (MkReaction s v h e t sig p, r)
  | _ => None
  end.
Lemma take_rx_put rx r : take_rx (put_rx rx ++ r) = Some (rx, r).
Proof.
  destruct rx. unfold put_rx. simpl. rewrite <-!app_assoc, take_atom_put. cbn [mbind option_bind].
  rewrite take_atom_put. cbn [mbind option_bind]. rewrite take_bytes_put. cbn [mbind option_bind].
  rewrite take_f32_put. cbn [mbind option_bind]. rewrite take_bytes_put. cbn [mbind option_bind].
  by rewrite take_payload_put.
Qed.

(** A value followed by nothing. *)
Lemma take_all {A} (take_ : bytes → option (A * bytes)) (put : A → bytes) :
  (∀ x r, take_ (put x ++ r) = Some (x, r)) → ∀ x, (fst <$> take_ (put x)) = Some x.
Proof. intros H x. by rewrite <-(app_nil_r (put x)), H. Qed.

Definition toy_atom_codec : AtomCodec :=
  {| ser_atom := put_atom; de_atom b := fst <$> take_atom b;
     de_ser_atom := take_all _ _ take_atom_put |}.
Definition toy_reaction_codec : ReactionCodec :=
  {| ser_rx := put_rx; de_rx b := fst <$> take_rx b; de_ser_rx := take_all _ _ take_rx_put |}.
