(* ===== verification/MempoolExamples.v ===== *)
(** A small mempool: the theorems of Mempool.v applied to concrete calls, and what those
    calls compute.  Nothing else depends on this file. *)
From S2P Require Import Prelude Floats Types State Mempool Toy.
Open Scope Z_scope.

#[local] Existing Instance checksum_hashes.
#[local] Existing Instance toy_reaction_codec.

(** Reactions of sector 1 with a fee and an amount. *)
Definition rx (fee amount : Z) : SignedReaction :=
  toy_rx (new_receiver (toy_key 1)) (new_receiver (toy_key 2)) fee (Transfer amount).

Definition calls : list MempoolOp :=
  [OpPush 100 (rx 10 1); OpPush 101 (rx 30 2); OpPush 101 (rx 30 2); OpPush 102 (rx 20 3); OpDrain 1 2].
Definition pool : SectoralMempool := (run_ops (take 4 calls) empty_pool).1.1.
Definition drained : SectoralMempool * list SignedReaction := drain_resonant pool 1 2.

(** What a reaction pays, to read the results. *)
Definition fees (l : list SignedReaction) : list Z := (λ r, fp_to_u64 (energy r)) <$> l.

(** The duplicate is refused, and the drain returns the two best. *)
Example calls_accept : fees (run_ops calls empty_pool).1.2 = [10; 30; 20].
Proof. vm_compute. reflexivity. Qed.
Example calls_drain : fees (run_ops calls empty_pool).2 = [30; 20].
Proof. vm_compute. reflexivity. Qed.

Definition op_ok_b (op : MempoolOp) : bool :=
  match op with
  | OpPush now rx => (0 <=? now) && (now <=? U64_MAX)
  | OpDrain _ _ => true
  end.
Lemma ops_ok_compute ops : forallb op_ok_b ops = true → Forall op_ok ops.
Proof.
  rewrite forallb_forall, Forall_forall. intros H op Hop%list_elem_of_In. specialize (H op Hop).
  destruct op; [|done]. simpl in H. rewrite andb_true_iff, !Z.leb_le in H. exact H.
Qed.

Lemma run_ops_eta ops mp :
  run_ops ops mp = ((run_ops ops mp).1.1, (run_ops ops mp).1.2, (run_ops ops mp).2).
Proof. by destruct (run_ops ops mp) as [[]]. Qed.

Lemma pool_ok : mempool_ok pool.
Proof.
  apply (run_ops_ok (take 4 calls) empty_pool _ (run_ops (take 4 calls) empty_pool).1.2
    (run_ops (take 4 calls) empty_pool).2); [|apply empty_pool_ok|apply run_ops_eta].
  apply ops_ok_compute. vm_compute. reflexivity.
Qed.

Lemma mempool_accounting_witness :
  (run_ops calls empty_pool).1.2
  ≡ₚ (run_ops calls empty_pool).2 ++ residents (sectors (run_ops calls empty_pool).1.1).
Proof.
  refine (proj1 (mempool_accounting calls (run_ops calls empty_pool).1.1
    (run_ops calls empty_pool).1.2 (run_ops calls empty_pool).2 _ (run_ops_eta _ _))).
  apply ops_ok_compute. vm_compute. reflexivity.
Defined.

Definition sector_1 : Sector := default (MkSector ∅ ∅) (sectors pool !! 1).
Lemma drain_order_witness :
  StronglySorted (λ rx1 rx2, fp_lt (energy rx1) (energy rx2) = false) drained.2.
Proof.
  refine (proj1 (proj2 (proj2 (drain_order pool 1 sector_1 2 drained.1 drained.2 pool_ok _ _ _)))).
  - vm_compute. reflexivity.
  - apply Forall_forall. intros r Hr%list_elem_of_In.
    apply (proj1 (forallb_forall (λ r, valid_binary 24 128 (energy r)) (resident sector_1))); [vm_compute; reflexivity|exact Hr].
  - unfold drained. apply surjective_pairing.
Defined.

(** Equal fees in the same second. *)
Definition mp1 : SectoralMempool := (run_ops [OpPush 7 (rx 10 1)] empty_pool).1.1.
Definition mp2 : SectoralMempool := (run_ops [OpPush 7 (rx 10 2)] mp1).1.1.
Lemma weight_collision_orphans_witness :
  rx 10 1 ∉ (run_ops [OpDrain 1 50; OpPush 8 (rx 10 1); OpDrain 1 50] mp2).2.
Proof.
  refine (proj1 (weight_collision_orphans empty_pool 7 (rx 10 1) (rx 10 2) mp1 mp2
    empty_pool_ok _ eq_refl eq_refl _ _ _ _ _ _ _ (run_ops_eta _ _))).
  - split; vm_compute; discriminate.
  - vm_compute. reflexivity.
  - vm_compute. reflexivity.
  - apply ops_ok_compute. vm_compute. reflexivity.
Defined.
