(* ===== verification/Framing.v ===== *)
(** Chunking of large messages (primus-core framing.rs).

    [now] arguments are readings of the monotonic clock, in nanoseconds: [feed] reads it
    once to evict and once more when it opens a stream. *)
From S2P Require Import Prelude Floats Types.
Open Scope Z_scope.

Definition NOISE_MAX_PAYLOAD : nat := Z.to_nat 65519.
Definition APP_MAX_MESSAGE : Z := 16 * 1024 * 1024.
Definition CHUNK_STREAM_TTL_SECS : Z := 30.

Record ChunkEnvelope := MkEnvelope {
  stream_id : bytes;
  chunk_index : Z;
  total_chunks : Z;
  payload_hash : bytes;
  chunk_data : bytes;
}.

Inductive FrameError :=
| MessageTooLarge (size limit : Z)
| HashMismatch (expected got : bytes)
| StreamExpired.

(** `slice::chunks`: pieces of [n] elements, the last one possibly shorter; the first
    argument bounds their number. *)
Fixpoint chunks_upto (fuel n : nat) (l : bytes) : list bytes :=
  match fuel, l with
  | S fuel, _ :: _ => take n l :: chunks_upto fuel n (drop n l)
  | _, _ => []
  end.
Definition chunks (n : nat) (l : bytes) : list bytes := chunks_upto (length l) n l.

(** `as u32` *)
Definition as_u32 (n : Z) : Z := n mod 2 ^ 32.

Section framing.
Context {HA : Hashes}.

Definition chunk_message (data stream_id : bytes) : result (list ChunkEnvelope) FrameError :=
  if APP_MAX_MESSAGE <? len data then Err (MessageTooLarge (len data) APP_MAX_MESSAGE)
  else
    let payload_hash := blake3 data in
    let raw_chunks := chunks NOISE_MAX_PAYLOAD data in
    let total_chunks := as_u32 (len raw_chunks) in
    Ok (imap (λ i chunk, MkEnvelope stream_id (as_u32 (Z.of_nat i)) total_chunks payload_hash chunk)
          raw_chunks).

Record PartialStream := MkPartial {
  ps_total : Z;
  expected_hash : bytes;
  received : gmap Z bytes;
  first_seen : Z;
}.
Abbreviation ChunkReassembler := (gmap bytes PartialStream).
Definition reassembler_new : ChunkReassembler := ∅.

Definition evict_expired (now : Z) (streams : ChunkReassembler) : ChunkReassembler :=
  filter (λ p, now - first_seen p.2 < CHUNK_STREAM_TTL_SECS * 1000000000) streams.

(** `(0..total).flat_map(|i| received.remove(&i).unwrap_or_default())` *)
Definition reassemble (total : Z) (received : gmap Z bytes) : bytes :=
  seqZ 0 total ≫= λ i, default [] (received !! i).

Definition feed (now now' : Z) (env : ChunkEnvelope) (streams : ChunkReassembler)
    : ChunkReassembler * result (option bytes) FrameError :=
  let streams := evict_expired now streams in
  let stream := default (MkPartial (total_chunks env) (payload_hash env) ∅ now')
                  (streams !! stream_id env) in
  let stream := MkPartial (ps_total stream) (expected_hash stream)
                  (<[chunk_index env := chunk_data env]> (received stream)) (first_seen stream) in
  if as_u32 (Z.of_nat (size (received stream))) =? ps_total stream then
    let reassembled := reassemble (ps_total stream) (received stream) in
    let got_hash := blake3 reassembled in
    (delete (stream_id env) streams,
     if bool_decide (got_hash = expected_hash stream) then Ok (Some reassembled)
     else Err (HashMismatch (expected_hash stream) got_hash))
  else (<[stream_id env := stream]> streams, Ok None).

(** A sequence of arrivals, each with its two clock readings, and the results. *)
Fixpoint feed_all (arrivals : list (Z * Z * ChunkEnvelope)) (streams : ChunkReassembler)
    : ChunkReassembler * list (bytes * result (option bytes) FrameError) :=
  match arrivals with
  | [] => (streams, [])
  | (now, now', env) :: arrivals =>
      let '(streams, r) := feed now now' env streams in
      let '(streams, rs) := feed_all arrivals streams in
      (streams, (stream_id env, r) :: rs)
  end.

(** ** Chunks *)
Lemma chunks_upto_concat fuel n l : (0 < n)%nat → (length l ≤ fuel)%nat → concat (chunks_upto fuel n l) = l.
Proof.
  intros Hn. revert l; induction fuel as [|fuel IH]; intros [|x l] Hl; simpl in *; try done; [lia|].
  rewrite IH; [|rewrite length_drop; simpl; lia]. apply (take_drop n (x :: l)).
Qed.

Lemma chunks_concat n l : (0 < n)%nat → concat (chunks n l) = l.
Proof. intros. by apply chunks_upto_concat. Qed.

Lemma chunks_upto_bounds fuel n l :
  (0 < n)%nat → Forall (λ c, (0 < length c ≤ n)%nat) (chunks_upto fuel n l) ∧
  (n * length (chunks_upto fuel n l) < n + length l)%nat.
Proof.
  intros Hn. revert l; induction fuel as [|fuel IH]; intros [|x l]; simpl; try (split; [constructor|lia]).
  destruct (IH (drop n (x :: l))) as [Hf Hlen]. rewrite length_drop in Hlen. simpl in Hlen. split.
  - constructor; [|done]. rewrite length_take. simpl. lia.
  - destruct (decide (length (x :: l) ≤ n)%nat) as [Hs|]; simpl in *; [|lia].
    rewrite drop_ge in Hlen |- * by (simpl; lia). destruct fuel; simpl in *; lia.
Qed.

(** An accepted message has at most 257 chunks, each within the transport's limit. *)
Lemma chunk_message_inv data sid envs :
  chunk_message data sid = Ok envs →
  let cs := chunks NOISE_MAX_PAYLOAD data in
  len cs ≤ 257 ∧ (data ≠ [] → cs ≠ []) ∧ concat cs = data ∧
  Forall (λ c, 0 < len c ≤ 65519) cs ∧
  envs = imap (λ i chunk, MkEnvelope sid (Z.of_nat i) (len cs) (blake3 data) chunk) cs.
Proof.
  unfold chunk_message. destruct (Z.ltb_spec APP_MAX_MESSAGE (len data)) as [|Hle]; [done|].
  intros [= <-]. cbv zeta. set (cs := chunks NOISE_MAX_PAYLOAD data).
  assert (Hn : (0 < NOISE_MAX_PAYLOAD)%nat) by (unfold NOISE_MAX_PAYLOAD; lia).
  assert (Hc : concat cs = data) by by apply chunks_concat.
  destruct (chunks_upto_bounds (length data) NOISE_MAX_PAYLOAD data Hn) as [Hf Hlen].
  fold (chunks NOISE_MAX_PAYLOAD data) in Hf, Hlen. fold cs in Hf, Hlen.
  assert (H257 : len cs ≤ 257).
  { unfold len, APP_MAX_MESSAGE, NOISE_MAX_PAYLOAD in *. lia. }
  split_and!; [done|by intros Hd ->|done| |].
  - eapply Forall_impl; [exact Hf|]. intros c. unfold len, NOISE_MAX_PAYLOAD. lia.
  - unfold as_u32. rewrite (Z.mod_small (len cs)) by (unfold len in *; lia).
    apply list_eq. intros i. rewrite !list_lookup_imap. destruct (cs !! i) as [c|] eqn:Hi; [|done].
    simpl. apply lookup_lt_Some in Hi. unfold len in *. by rewrite Z.mod_small by lia.
Qed.

(** ** Reassembly *)
Lemma reassemble_concat cs k (m : gmap Z bytes) :
  (∀ i c, cs !! i = Some c → m !! (k + Z.of_nat i) = Some c) →
  seqZ k (len cs) ≫= (λ i, default [] (m !! i)) = concat cs.
Proof.
  revert k; induction cs as [|c cs IH]; intros k Hm; [done|].
  rewrite seqZ_cons by (unfold len; simpl; lia). rewrite bind_cons.
  replace (Z.pred (len (c :: cs))) with (len cs) by (unfold len; simpl; lia).
  rewrite IH.
  - specialize (Hm O c eq_refl). replace (k + Z.of_nat 0) with k in Hm by lia. by rewrite Hm.
  - intros i c' Hc. specialize (Hm (S i) c' Hc). by replace (Z.succ k + Z.of_nat i) with (k + Z.of_nat (S i)) by lia.
Qed.

Definition pieces (es : list ChunkEnvelope) : list (Z * bytes) :=
  (λ e, (chunk_index e, chunk_data e)) <$> es.

Section stream.
Context (data sid : bytes) (envs : list ChunkEnvelope) (t0 : Z).
Context (Henvs : chunk_message data sid = Ok envs).

Definition of_stream (arrivals : list (Z * Z * ChunkEnvelope)) : list ChunkEnvelope :=
  filter (λ e, stream_id e = sid) arrivals.*2.
Definition results_of {A} (out : list (bytes * A)) : list A := (filter (λ r, r.1 = sid) out).*2.
Definition in_window (a : Z * Z * ChunkEnvelope) : Prop :=
  t0 ≤ a.1.2 ∧ a.1.1 - t0 < CHUNK_STREAM_TTL_SECS * 1000000000.

(** What the reassembler holds once the chunks [seen] of the stream have arrived. *)
Definition partial (streams : ChunkReassembler) (seen : list ChunkEnvelope) : Prop :=
  match seen with
  | [] => streams !! sid = None
  | _ => ∃ t, t0 ≤ t ∧ streams !! sid =
           Some (MkPartial (len envs) (blake3 data) (list_to_map (pieces seen)) t)
  end.

Lemma envs_lookup i e :
  envs !! i = Some e → ∃ c, chunks NOISE_MAX_PAYLOAD data !! i = Some c ∧
    e = MkEnvelope sid (Z.of_nat i) (len envs) (blake3 data) c.
Proof.
  destruct (chunk_message_inv _ _ _ Henvs) as (_ & _ & _ & _ & He).
  assert (Hl : len envs = len (chunks NOISE_MAX_PAYLOAD data))
    by (rewrite He; unfold len; by rewrite length_imap).
  rewrite Hl. rewrite He at 1. rewrite list_lookup_imap.
  destruct (chunks _ _ !! i) as [c|]; [|done]. intros [= <-]. by exists c.
Qed.

Lemma envs_in e : e ∈ envs → stream_id e = sid ∧ total_chunks e = len envs ∧ payload_hash e = blake3 data.
Proof. intros [i (c & _ & ->)%envs_lookup]%list_elem_of_lookup. done. Qed.

Lemma envs_NoDup : NoDup (pieces envs).*1.
Proof.
  apply NoDup_alt. intros i j z. unfold pieces. rewrite <-list_fmap_compose, !list_lookup_fmap.
  destruct (envs !! i) as [e1|] eqn:E1; [|done]. destruct (envs !! j) as [e2|] eqn:E2; [|done].
  apply envs_lookup in E1 as (c1 & _ & ->). apply envs_lookup in E2 as (c2 & _ & ->).
  simpl. intros [= <-] [= ?]. lia.
Qed.

Lemma length_envs : as_u32 (len envs) = len envs ∧ len envs ≤ 257.
Proof.
  destruct (chunk_message_inv _ _ _ Henvs) as (H257 & _ & _ & _ & He).
  assert (Hl : len envs = len (chunks NOISE_MAX_PAYLOAD data))
    by (rewrite He; unfold len; by rewrite length_imap).
  rewrite Hl. unfold as_u32, len in *. rewrite Z.mod_small by lia. split; [done|lia].
Qed.

(** All chunks, in any order, give the message back. *)
Lemma reassemble_envs es :
  es ≡ₚ envs → reassemble (len envs) (list_to_map (pieces es)) = data.
Proof.
  intros Hp. destruct (chunk_message_inv _ _ _ Henvs) as (_ & _ & Hc & _ & He).
  assert (Hl : len envs = len (chunks NOISE_MAX_PAYLOAD data))
    by (rewrite He; unfold len; by rewrite length_imap).
  unfold reassemble. rewrite Hl. etrans; [|exact Hc]. apply reassemble_concat. intros i c Hi.
  rewrite (list_to_map_proper (pieces es) (pieces envs)).
  - apply elem_of_list_to_map_1; [apply envs_NoDup|]. unfold pieces. apply list_elem_of_fmap.
    exists (MkEnvelope sid (Z.of_nat i) (len (chunks NOISE_MAX_PAYLOAD data)) (blake3 data) c).
    split; [done|]. rewrite He. apply list_elem_of_lookup. exists i. by rewrite list_lookup_imap, Hi.
  - unfold pieces. rewrite Hp. apply envs_NoDup.
  - unfold pieces. by rewrite Hp.
Qed.

Lemma evict_partial streams seen a :
  in_window a → partial streams seen → partial (evict_expired a.1.1 streams) seen.
Proof.
  intros [_ Hw]. unfold partial, evict_expired. destruct seen as [|e seen].
  - intros Hn. rewrite map_lookup_filter, Hn. done.
  - intros (t & Ht & Hs). exists t. split; [done|].
    apply map_lookup_filter_Some_2; [done|]. simpl. lia.
Qed.

(** A chunk of another stream leaves this one alone. *)
Lemma feed_other streams seen a :
  stream_id a.2 ≠ sid → in_window a → partial streams seen →
  partial (feed a.1.1 a.1.2 a.2 streams).1 seen.
Proof.
  intros Hne Hw Hp. apply (evict_partial _ _ _ Hw) in Hp. unfold feed. cbv zeta.
  assert (Hk : ∀ f : ChunkReassembler → ChunkReassembler, (∀ m, f m !! sid = m !! sid) →
    partial (f (evict_expired a.1.1 streams)) seen).
  { intros f Hf. unfold partial in *. destruct seen; by rewrite Hf. }
  case_match; simpl.
  - apply (Hk (delete _)). intros m. by rewrite lookup_delete_ne.
  - apply (Hk (<[_ := _]>)). intros m. by rewrite lookup_insert_ne.
Qed.

(** A chunk of this stream: it is stored, or it completes the message. *)
Lemma feed_own streams seen a rest :
  in_window a → partial streams seen → seen ++ a.2 :: rest ≡ₚ envs →
  let '(streams', r) := feed a.1.1 a.1.2 a.2 streams in
  if rest is [] then r = Ok (Some data) ∧ streams' !! sid = None
  else r = Ok None ∧ partial streams' (a.2 :: seen).
Proof.
  intros Hw Hp Hperm. pose proof (evict_partial _ _ _ Hw Hp) as Hp'.
  assert (He : a.2 ∈ envs) by (rewrite <-Hperm; set_solver).
  destruct (envs_in _ He) as (Hid & Htot & Hhash). unfold feed. cbv zeta.
  set (es := evict_expired a.1.1 streams) in *.
  assert (Hst : ∃ t, t0 ≤ t ∧ default (MkPartial (total_chunks a.2) (payload_hash a.2) ∅ a.1.2) (es !! stream_id a.2)
           = MkPartial (len envs) (blake3 data) (list_to_map (pieces seen)) t).
  { rewrite Hid, Htot, Hhash. unfold partial in Hp'. destruct seen as [|e seen].
    - rewrite Hp'. exists a.1.2. split; [apply Hw|done].
    - destruct Hp' as (t & Ht & ->). by exists t. }
  destruct Hst as (t & Ht & ->). cbn [ps_total expected_hash received first_seen].
  change (<[chunk_index a.2 := chunk_data a.2]> (list_to_map (pieces seen)))
    with (list_to_map (pieces (a.2 :: seen)) : gmap Z bytes).
  assert (Hnd : NoDup (pieces (a.2 :: seen)).*1).
  { assert (NoDup (pieces (a.2 :: seen ++ rest)).*1) as Hnd.
    { unfold pieces. rewrite Permutation_middle, Hperm. apply envs_NoDup. }
    unfold pieces in *. rewrite !fmap_cons, fmap_app, fmap_app in Hnd.
    rewrite app_comm_cons in Hnd. by apply NoDup_app in Hnd as (? & _). }
  assert (Hsz : Z.of_nat (size (list_to_map (pieces (a.2 :: seen)) : gmap Z bytes))
                = Z.of_nat (length seen) + 1).
  { rewrite map_size_list_to_map by done. unfold pieces. rewrite length_fmap. simpl. lia. }
  assert (Hlen : len envs = Z.of_nat (length seen) + 1 + Z.of_nat (length rest)).
  { unfold len. rewrite <-Hperm, length_app. simpl. lia. }
  destruct length_envs as [Hu32 H257].
  rewrite Hsz. destruct rest as [|e rest].
  - simpl in Hlen. rewrite Z.add_0_r in Hlen. rewrite <-Hlen, Hu32, Z.eqb_refl.
    rewrite reassemble_envs by (rewrite <-Hperm; solve_Permutation).
    rewrite bool_decide_true by done. split; [done|]. rewrite Hid. apply lookup_delete_eq.
  - assert (as_u32 (Z.of_nat (length seen) + 1) = Z.of_nat (length seen) + 1) as ->.
    { unfold as_u32. apply Z.mod_small. lia. }
    simpl in Hlen. destruct (Z.eqb_spec (Z.of_nat (length seen) + 1) (len envs)); [lia|].
    split; [done|]. exists t. split; [done|]. rewrite Hid. apply lookup_insert_eq.
Qed.

Lemma feed_all_foreign arrivals streams streams' out :
  Forall in_window arrivals → partial streams [] → of_stream arrivals = [] →
  feed_all arrivals streams = (streams', out) → results_of out = [] ∧ streams' !! sid = None.
Proof.
  intros Hw. revert streams streams' out; induction Hw as [|[[now now'] e] arrivals Ha _ IH];
    intros streams streams' out Hp Hf H; simpl in H; [by simplify_eq|].
  destruct (feed now now' e streams) as [s1 r] eqn:E1.
  destruct (feed_all arrivals s1) as [s2 out2] eqn:E2. simplify_eq.
  unfold of_stream in Hf. rewrite fmap_cons in Hf. cbn [snd] in Hf.
  destruct (decide (stream_id e = sid)); [by rewrite filter_cons_True in Hf|].
  rewrite filter_cons_False in Hf by done.
  unfold results_of. rewrite filter_cons_False by done. eapply (IH s1); [|exact Hf|exact E2].
  pose proof (feed_other streams [] (now, now', e) n Ha Hp) as H1. simpl in H1. by rewrite E1 in H1.
Qed.

Lemma feed_all_own arrivals streams seen streams' out :
  Forall in_window arrivals → partial streams seen → of_stream arrivals ≠ [] →
  seen ++ of_stream arrivals ≡ₚ envs → feed_all arrivals streams = (streams', out) →
  results_of out = replicate (length (of_stream arrivals) - 1) (Ok None) ++ [Ok (Some data)] ∧
  streams' !! sid = None.
Proof.
  intros Hw. revert streams seen streams' out; induction Hw as [|[[now now'] e] arrivals Ha Hw IH];
    intros streams seen streams' out Hp Hne Hperm H; [done|]. simpl in H.
  destruct (feed now now' e streams) as [s1 r] eqn:E1.
  destruct (feed_all arrivals s1) as [s2 out2] eqn:E2. simplify_eq.
  unfold of_stream in *. rewrite fmap_cons in *. cbn [snd] in *.
  destruct (decide (stream_id e = sid)) as [He|He].
  - rewrite filter_cons_True in * by done. unfold results_of. rewrite filter_cons_True by done.
    pose proof (feed_own streams seen (now, now', e) (filter (λ e, stream_id e = sid) arrivals.*2)
      Ha Hp Hperm) as Hown. cbn [fst snd] in Hown. rewrite E1 in Hown.
    destruct (filter (λ e, stream_id e = sid) arrivals.*2) as [|e2 rest] eqn:Er.
    + destruct Hown as [-> Hs]. destruct (feed_all_foreign arrivals s1 streams' out2 Hw Hs Er E2) as [Hr ?].
      split; [|done]. rewrite fmap_cons. unfold results_of in Hr. by rewrite Hr.
    + destruct Hown as [-> Hs]. destruct (IH s1 (e :: seen) streams' out2 Hs) as [Hr ?]; [done| |done|].
      { rewrite <-Hperm. solve_Permutation. }
      split; [|done]. rewrite fmap_cons. unfold results_of in Hr. rewrite Hr. simpl.
      by rewrite Nat.sub_0_r.
  - rewrite filter_cons_False in * by done. unfold results_of. rewrite filter_cons_False by done.
    eapply (IH s1 seen); [|done|done|exact E2].
    pose proof (feed_other streams seen (now, now', e) He Ha Hp) as H1. simpl in H1. by rewrite E1 in H1.
Qed.
End stream.

(** C26. The chunks of a message, in any order and interleaved with any chunks of other
    streams, give the message back exactly when the last of them arrives, if all arrive
    within the time to live; before that nothing is returned, and nothing is kept after. *)
Theorem chunks_reassemble data sid envs arrivals streams streams' out t0 :
  chunk_message data sid = Ok envs → data ≠ [] → streams !! sid = None →
  Forall (in_window t0) arrivals → of_stream sid arrivals ≡ₚ envs →
  feed_all arrivals streams = (streams', out) →
  results_of sid out = replicate (length envs - 1) (Ok None) ++ [Ok (Some data)] ∧
  streams' !! sid = None.
Proof.
  intros Henvs Hd Hs Hw Hperm H. rewrite <-Hperm.
  eapply (feed_all_own data sid envs t0 Henvs arrivals streams []); [done|done| |done|exact H].
  destruct (chunk_message_inv _ _ _ Henvs) as (_ & Hne & _ & _ & He).
  intros Hnil. rewrite Hnil in Hperm.
  assert (Hl : length envs = O) by by rewrite <-Hperm. rewrite He, length_imap in Hl.
  by apply length_zero_iff_nil in Hl; apply (Hne Hd).
Qed.

(** Every open stream expects the hash that some arrival of it announced, and holds only
    data that arrived for it. *)
Definition announced (past : list ChunkEnvelope) (streams : ChunkReassembler) : Prop :=
  ∀ sid st, streams !! sid = Some st →
    (∃ e, e ∈ past ∧ stream_id e = sid ∧ payload_hash e = expected_hash st) ∧
    ∀ i d, received st !! i = Some d → ∃ e, e ∈ past ∧ stream_id e = sid ∧ chunk_index e = i ∧ chunk_data e = d.

Lemma announced_evict past now streams : announced past streams → announced past (evict_expired now streams).
Proof. intros H sid st [Hs _]%map_lookup_filter_Some. by apply H. Qed.

Lemma announced_feed past now now' env streams streams' r :
  announced past streams → feed now now' env streams = (streams', r) →
  announced (env :: past) streams' ∧
  ∀ d, r = Ok (Some d) → 
    (∃ e, e ∈ env :: past ∧ stream_id e = stream_id env ∧ payload_hash e = blake3 d) ∧
    ∃ ps, d = concat ps ∧ Forall (λ p, p = [] ∨ ∃ e, e ∈ env :: past ∧ stream_id e = stream_id env ∧ chunk_data e = p) ps.
Proof.
  intros Ha H. apply (announced_evict _ now) in Ha. unfold feed in H. cbv zeta in H.
  set (es := evict_expired now streams) in *.
  set (st := default _ (es !! stream_id env)) in *.
  assert (Hst : (∃ e, e ∈ env :: past ∧ stream_id e = stream_id env ∧ payload_hash e = expected_hash st) ∧
    ∀ i d, <[chunk_index env := chunk_data env]> (received st) !! i = Some d →
      ∃ e, e ∈ env :: past ∧ stream_id e = stream_id env ∧ chunk_index e = i ∧ chunk_data e = d).
  { destruct (es !! stream_id env) as [st0|] eqn:E; simpl in st; subst st.
    - destruct (Ha _ _ E) as ((e & He & ? & ?) & Hr). split; [exists e; by split; [right|]|].
      intros i d. rewrite lookup_insert_Some. intros [[<- <-]|[_ Hi]]; [exists env; by split; [left|]|].
      destruct (Hr i d Hi) as (e' & ? & ?). exists e'. by split; [right|].
    - split; [exists env; by split; [left|]|]. intros i d. simpl.
      rewrite lookup_insert_Some, lookup_empty. intros [[<- <-]|[_ ?]]; [exists env; by split; [left|]|done]. }
  destruct Hst as [He Hr].
  assert (Hold : announced (env :: past) es).
  { intros sid st' Hs. destruct (Ha _ _ Hs) as ((e & ? & ?) & Hr'). split; [exists e; by split; [right|]|].
    intros i d Hi. destruct (Hr' i d Hi) as (e' & ? & ?). exists e'. by split; [right|]. }
  case_match; simplify_eq; split; try done.
  - intros sid st' [_ Hs]%lookup_delete_Some. by apply Hold.
  - intros d Hd. case_bool_decide as Hb; [|done]. injection Hd as <-.
    destruct He as (e & ? & ? & Heq).
    split; [exists e; split_and!; [done|done|by rewrite Heq]|].
    exists ((λ i, default [] (<[chunk_index env := chunk_data env]> (received st) !! i)) <$> seqZ 0 (ps_total st)).
    split; [unfold reassemble; apply flat_map_concat_map|].
    apply Forall_fmap, Forall_forall. intros i _. simpl.
    destruct (<[_ := _]> (received st) !! i) as [d|] eqn:Ei; [|by left].
    right. destruct (Hr i d Ei) as (e' & ? & ? & _ & ?). by exists e'.
  - intros sid st'. rewrite lookup_insert_Some. intros [[<- <-]|[_ Hs]]; [by split|by apply Hold].
Qed.

Lemma announced_feed_all past arrivals streams streams' out sid d :
  announced past streams → feed_all arrivals streams = (streams', out) → (sid, Ok (Some d)) ∈ out →
  (∃ e, e ∈ past ++ arrivals.*2 ∧ stream_id e = sid ∧ payload_hash e = blake3 d) ∧
  ∃ ps, d = concat ps ∧ Forall (λ p, p = [] ∨ ∃ e, e ∈ past ++ arrivals.*2 ∧ stream_id e = sid ∧ chunk_data e = p) ps.
Proof.
  revert past streams out. induction arrivals as [|[[now now'] env] arrivals IH];
    intros past streams out Ha H Hin; simpl in H; [by simplify_eq; apply not_elem_of_nil in Hin|].
  destruct (feed now now' env streams) as [s1 r] eqn:E1.
  destruct (feed_all arrivals s1) as [s2 out2] eqn:E2. simplify_eq.
  destruct (announced_feed _ _ _ _ _ _ _ Ha E1) as [Ha1 Hr].
  rewrite fmap_cons. cbn [snd].
  assert (Hsub : ∀ e, e ∈ env :: past → e ∈ past ++ env :: arrivals.*2) by set_solver.
  apply elem_of_cons in Hin as [[= -> Hd]|Hin].
  - destruct (Hr d (eq_sym Hd)) as ((e & He & ? & ?) & ps & -> & Hps).
    split; [exists e; by split; [apply Hsub|]|]. exists ps. split; [done|].
    eapply Forall_impl; [exact Hps|]. intros p [?|(e' & ? & ?)]; [by left|right].
    exists e'. by split; [apply Hsub|].
  - assert (Hsame : ∀ e, e ∈ (env :: past) ++ arrivals.*2 → e ∈ past ++ env :: arrivals.*2) by set_solver.
    destruct (IH (env :: past) s1 out2 Ha1 E2 Hin) as ((e & He & ? & ?) & ps & -> & Hps).
    split; [exists e; by split; [apply Hsame|]|]. exists ps. split; [done|].
    eapply Forall_impl; [exact Hps|]. intros p [?|(e' & ? & ?)]; [by left|right].
    exists e'. by split; [apply Hsame|].
Qed.

(** Integrity: whatever arrives, a delivered message has the hash that a chunk of
    its stream announced, and consists of data that arrived under that stream. *)
Theorem delivered_hash_checked arrivals streams' out sid d :
  feed_all arrivals reassembler_new = (streams', out) → (sid, Ok (Some d)) ∈ out →
  (∃ e, e ∈ arrivals.*2 ∧ stream_id e = sid ∧ payload_hash e = blake3 d) ∧
  ∃ ps, d = concat ps ∧
    Forall (λ p, p = [] ∨ ∃ e, e ∈ arrivals.*2 ∧ stream_id e = sid ∧ chunk_data e = p) ps.
Proof.
  apply (announced_feed_all []). intros s st. unfold reassembler_new. by rewrite lookup_empty.
Qed.

(** *** The background task that evicts (primus-core main.rs, every 30 seconds) *)
Inductive ReassemblerEvent := FeedChunk (now now' : Z) (env : ChunkEnvelope) | GcTick (now : Z).
Definition reassembler_step (streams : ChunkReassembler) (ev : ReassemblerEvent) : ChunkReassembler :=
  match ev with
  | FeedChunk now now' env => (feed now now' env streams).1
  | GcTick now => evict_expired now streams
  end.
(** The streams that arrivals have opened less than thirty seconds before [now]. *)
Definition recent_arrivals (now : Z) (evs : list ReassemblerEvent) : list bytes :=
  omap (λ ev, match ev with
              | FeedChunk _ now' env =>
                  if now - now' <? CHUNK_STREAM_TTL_SECS * 1000000000 then Some (stream_id env) else None
              | GcTick _ => None
              end) evs.

Lemma feed_opened now now' env streams sid ps :
  (feed now now' env streams).1 !! sid = Some ps →
  (sid = stream_id env ∧ first_seen ps = now') ∨ ∃ ps0, streams !! sid = Some ps0 ∧ first_seen ps0 = first_seen ps.
Proof.
  unfold feed. cbv zeta. set (es := evict_expired now streams).
  assert (Hes : ∀ s q, es !! s = Some q → streams !! s = Some q) by by intros s q [? _]%map_lookup_filter_Some.
  destruct (_ =? _); cbn [fst].
  - intros [_ H%Hes]%lookup_delete_Some. right. by exists ps.
  - rewrite lookup_insert_Some. intros [[<- <-]|[_ H%Hes]]; [|right; by exists ps]. cbn [first_seen].
    destruct (es !! stream_id env) as [st0|] eqn:E; [right|by left]. exists st0. by split; [apply Hes|].
Qed.

(** However many first chunks a peer sends, after a tick at [now] there are no more streams
    open than chunks that came in the last thirty seconds. *)
Theorem gc_bounds_streams evs now :
  (size (evict_expired now (foldl reassembler_step reassembler_new evs)) ≤ length (recent_arrivals now evs))%nat.
Proof.
  set (streams := foldl _ _ _).
  assert (Hopen : ∀ sid ps, streams !! sid = Some ps →
            now - first_seen ps < CHUNK_STREAM_TTL_SECS * 1000000000 → sid ∈ recent_arrivals now evs).
  { unfold streams. clear streams. induction evs as [|ev evs IH] using rev_ind; [done|].
    intros sid ps Hs Hn. rewrite foldl_snoc in Hs. unfold recent_arrivals. rewrite omap_app, elem_of_app.
    fold (recent_arrivals now evs). destruct ev as [n n' env|n]; cbn [reassembler_step] in Hs.
    - apply feed_opened in Hs as [[-> Hf]|(ps0 & Hs & Hf)]; [right|left; apply (IH sid ps0); [done|by rewrite Hf]].
      rewrite Hf in Hn. cbn. rewrite (proj2 (Z.ltb_lt _ _) Hn). by left.
    - apply map_lookup_filter_Some in Hs as [Hs _]. left. by apply (IH sid ps). }
  rewrite <-(size_dom (D:=gset bytes)). apply (submseteq_length (elements _)), NoDup_submseteq; [apply NoDup_elements|].
  intros sid. rewrite elem_of_elements. intros (ps & [Hs Hn]%map_lookup_filter_Some)%elem_of_dom.
  by apply (Hopen sid ps).
Qed.
End framing.

(** ** A message of three chunks, reversed and interleaved with another stream *)
#[local] Existing Instance checksum_hashes.
Definition demo_message : bytes := replicate (Z.to_nat 140000) 7.
Definition demo_envs (data sid : bytes) : list ChunkEnvelope :=
  match chunk_message data sid with Ok es => es | Err _ => [] end.
Definition demo_arrivals : list (Z * Z * ChunkEnvelope) :=
  (λ e, (5, 5, e)) <$>
    reverse (demo_envs demo_message [1]) ++ demo_envs [9] [2].

Example demo_chunks : (λ e, len (chunk_data e)) <$> demo_envs demo_message [1] = [65519; 65519; 8962].
Proof. vm_compute. reflexivity. Qed.

Lemma demo_envs_ok data sid :
  is_ok (chunk_message data sid) = true → chunk_message data sid = Ok (demo_envs data sid).
Proof. unfold demo_envs. by destruct (chunk_message data sid). Qed.

Lemma demo_chunks_ok : is_ok (chunk_message demo_message [1]) = true.
Proof. vm_compute. reflexivity. Qed.

Lemma demo_of_stream : of_stream [1] demo_arrivals ≡ₚ demo_envs demo_message [1].
Proof.
  unfold of_stream, demo_arrivals. rewrite <-list_fmap_compose.
  change (snd ∘ (λ e, (5, 5, e))) with (λ e : ChunkEnvelope, e). rewrite list_fmap_id, filter_app.
  assert (filter (λ e, stream_id e = [1]) (demo_envs [9] [2]) = []) as -> by (vm_compute; reflexivity).
  rewrite app_nil_r, reverse_Permutation.
  assert (Hall : ∀ e, e ∈ demo_envs demo_message [1] → stream_id e = [1]).
  { intros e He. by apply (envs_in demo_message [1] (demo_envs demo_message [1])
      (demo_envs_ok demo_message [1] demo_chunks_ok)) in He as (? & _). }
  induction (demo_envs demo_message [1]) as [|e es IH]; [done|].
  rewrite filter_cons_True, IH by (intros; apply Hall; set_solver). done.
Qed.

Lemma chunks_reassemble_witness :
  results_of [1] (feed_all demo_arrivals ∅).2
  = replicate (length (demo_envs demo_message [1]) - 1) (Ok None) ++ [Ok (Some demo_message)].
Proof.
  refine (proj1 (chunks_reassemble demo_message [1] (demo_envs demo_message [1]) demo_arrivals ∅
    (feed_all demo_arrivals ∅).1 (feed_all demo_arrivals ∅).2 0 _ _ _ _ demo_of_stream _)).
  - exact (demo_envs_ok _ _ demo_chunks_ok).
  - unfold demo_message. intros H%(f_equal (length (A := Z))). rewrite length_replicate in H. discriminate.
  - reflexivity.
  - unfold demo_arrivals. apply Forall_fmap, Forall_forall. intros e _.
    split; [discriminate|reflexivity].
  - apply surjective_pairing.
Defined.

Lemma delivered_hash_checked_witness :
  ∃ e, e ∈ [(0, 0, MkEnvelope [2] 0 1 (blake3 [9]) [9])].*2 ∧ stream_id e = [2] ∧ payload_hash e = blake3 [9].
Proof.
  refine (proj1 (delivered_hash_checked [(0, 0, MkEnvelope [2] 0 1 (blake3 [9]) [9])] ∅
    [([2], Ok (Some [9]))] [2] [9] _ _)).
  - vm_compute. reflexivity.
  - left.
Defined.
