(* ===== verification/Crystal.v ===== *)
(** Crystals: the hash of a header, the proof of work and its search (primus-core
    crystal.rs and the nonce loop of engine.rs mine_block). *)
From S2P Require Import Prelude Floats Types Physics.
Open Scope Z_scope.

Section crystal.
Context {HA : Hashes}.
Implicit Types c : Crystal.

(** What [calculate_density] feeds to the hasher, in order. *)
Definition density_input c : bytes :=
  to_le 8 (index c) ++ prev_hash c ++ to_le 8 (cr_timestamp c) ++ to_le 8 (cr_nonce c)
  ++ state_root c ++ concat (reactions c)
  ++ to_le 8 (encode (cumulative_energy c)) ++ to_le 8 (encode (final_temp c))
  ++ to_le 8 (encode (final_entropy c)).
Definition calculate_density c : bytes := blake3 (density_input c).

Definition base_difficulty (temp diff : f32) : f32 :=
  fp_max (f32_mul diff (f32_add (f32_of_Z 1) (f32_div temp (f32_of_Z 500)))) (f32_of_Z 1).
Definition target_zeros (temp diff : f32) : Z := Z.min (fp_to_u64 (base_difficulty temp diff)) 4.

(** `as u8` of an f32 saturates. *)
Definition fp_to_u8 (x : f32) : Z := Z.min 255 (fp_to_u64 x).

Definition calculate_target (temp diff : f32) : bytes :=
  let zeros := target_zeros temp diff in
  let z := Z.to_nat zeros in
  let target := replicate z 0 ++ replicate (32 - z) 0xFF in
  <[z := fp_to_u8 (f32_div (f32_of_Z 0xFF)
           (f32_add (f32_sub (base_difficulty temp diff) (f32_of_Z zeros)) (f32_of_Z 1)))]> target.

(** The comparison loop over the 32 positions. *)
Fixpoint below_target (hash target : bytes) : bool :=
  match hash, target with
  | h :: hash, t :: target => if h <? t then true else if t <? h then false else below_target hash target
  | _, _ => true
  end.
Definition check_proof_of_work c (chamber_temp difficulty : f32) : bool :=
  below_target (calculate_density c) (calculate_target chamber_temp difficulty).

Definition set_cr_nonce (n : Z) c : Crystal :=
  MkCrystal (index c) (prev_hash c) (cr_timestamp c) n (reactions c) (reactions_data c)
    (cumulative_energy c) (state_root c) (final_temp c) (final_entropy c).
Definition set_state_root (r : bytes) c : Crystal :=
  MkCrystal (index c) (prev_hash c) (cr_timestamp c) (cr_nonce c) (reactions c) (reactions_data c)
    (cumulative_energy c) r (final_temp c) (final_entropy c).

Definition MAX_NONCE_ATTEMPTS : nat := Z.to_nat 100000.

(** `(0..MAX).any(|_| ..)`: whether it is solved, and the crystal with the last nonce. *)
Fixpoint solve (attempts : nat) (temp diff : f32) c : bool * Crystal :=
  match attempts with
  | O => (false, c)
  | S attempts =>
      if check_proof_of_work c temp diff then (true, c)
      else solve attempts temp diff (set_cr_nonce (u64_wrapping_add (cr_nonce c) 1) c)
  end.

(** ** The target *)
Lemma length_calculate_target temp diff : length (calculate_target temp diff) = 32%nat.
Proof.
  unfold calculate_target. cbv zeta. rewrite length_insert, length_app, !length_replicate.
  unfold target_zeros. pose proof (fp_to_u64_nonneg (base_difficulty temp diff)). lia.
Qed.

Lemma below_target_iff hash target :
  length hash = length target → below_target hash target = bytes_leb hash target.
Proof.
  revert target; induction hash as [|h hash IH]; intros [|t target]; simpl; try done.
  intros [= Hl]. rewrite IH by done.
  destruct (Z.ltb_spec h t), (Z.ltb_spec t h), (Z.eqb_spec h t); simpl; try done; lia.
Qed.

Lemma bytes_le_zeros n a b :
  Forall is_byte a → (n ≤ length a)%nat → take n b = replicate n 0 → bytes_le a b → take n a = replicate n 0.
Proof.
  revert a b; induction n as [|n IH]; intros a b Hb Hl Ht Hle; [done|].
  destruct a as [|x a]; [simpl in Hl; lia|]. destruct b as [|y b]; [done|]. simpl in *.
  injection Ht as -> Ht. apply Forall_cons in Hb as [Hx Hb]. unfold bytes_le in Hle. simpl in Hle.
  apply orb_true_iff in Hle as [Hlt|Hle].
  - apply Z.ltb_lt in Hlt. unfold is_byte in Hx. lia.
  - apply andb_true_iff in Hle as [->%Z.eqb_eq Hle]. f_equal. eapply IH; [done|lia|done|done].
Qed.

(** Every f32 at least one has integral part at least one. *)
Lemma fp_to_u64_ge_1 x :
  f32_valid x → fp_is_nan x = false → fp_lt x (f32_of_Z 1) = false → 1 ≤ fp_to_u64 x.
Proof.
  intros Hv Hn Hlt. destruct x as [s|[|]| |[|] m e]; try done.
  destruct (f32_valid_finite _ _ _ Hv) as (He & Hm & Hnorm & _).
  assert (∃ p : positive, Z.pos p = 2 ^ 23 ∧ f32_of_Z 1 = S754_finite false p (-23)) as (one & Hone & Heq)
    by (eexists; split; [|reflexivity]; reflexivity).
  rewrite Heq in Hlt. unfold fp_lt, SFltb in Hlt. cbn [SFcompare] in Hlt.
  assert (Hge : -23 ≤ e ∧ 2 ^ 23 ≤ Z.pos m).
  { destruct (Z.compare_spec e (-23)); [subst e|done|lia].
    change (Pos.compare_cont Eq m one) with (m ?= one)%positive in Hlt.
    destruct (Pos.compare_spec m one); [subst m; lia|done|lia]. }
  destruct Hge as [He23 Hm23]. cbn [fp_to_u64 fp_trunc]. unfold U64_MAX.
  enough (1 ≤ (if 0 <=? e then Z.pos m * 2 ^ e else Z.pos m / 2 ^ (- e))) by lia.
  destruct (Z.leb_spec 0 e).
  - assert (0 < 2 ^ e) by (apply Z.pow_pos_nonneg; lia). nia.
  - assert (2 ^ (- e) ≤ 2 ^ 23) by (apply Z.pow_le_mono_r; lia).
    assert (0 < 2 ^ (- e)) by (apply Z.pow_pos_nonneg; lia).
    apply Z.div_le_lower_bound; lia.
Qed.

(** The difficulty is never below one, so that at least one byte must be zero. *)
Lemma target_zeros_bounds temp diff :
  f32_valid (base_difficulty temp diff) → 1 ≤ target_zeros temp diff ≤ 4.
Proof.
  intros Hv. unfold target_zeros. enough (1 ≤ fp_to_u64 (base_difficulty temp diff)) by lia.
  assert (Hb : ∀ x, f32_valid (fp_max x (f32_of_Z 1)) → 1 ≤ fp_to_u64 (fp_max x (f32_of_Z 1))).
  { intros x. unfold fp_max. destruct (fp_is_nan x) eqn:Hn; [done|].
    change (fp_is_nan (f32_of_Z 1)) with false. cbv iota.
    destruct (fp_lt x (f32_of_Z 1)) eqn:Hlt; [done|]. intros. by apply fp_to_u64_ge_1. }
  by apply Hb.
Qed.

Lemma take_target temp diff :
  take (Z.to_nat (target_zeros temp diff)) (calculate_target temp diff)
  = replicate (Z.to_nat (target_zeros temp diff)) 0.
Proof.
  unfold calculate_target. cbv zeta. set (z := Z.to_nat (target_zeros temp diff)).
  rewrite take_insert_ge by lia. rewrite take_app_length'; [done|]. by rewrite length_replicate.
Qed.

(** The proof of work of a header holds exactly when its hash is at most the target
    as a big-endian number; the target starts with one to four zero bytes, so an accepted
    hash does too. *)
Theorem proof_of_work_iff c temp diff :
  (∀ b, Forall is_byte (blake3 b)) → f32_valid (base_difficulty temp diff) →
  (check_proof_of_work c temp diff = true ↔
     bytes_le (calculate_density c) (calculate_target temp diff)) ∧
  1 ≤ target_zeros temp diff ≤ 4 ∧
  (check_proof_of_work c temp diff = true →
     take (Z.to_nat (target_zeros temp diff)) (calculate_density c)
     = replicate (Z.to_nat (target_zeros temp diff)) 0).
Proof.
  intros Hbytes Hv. pose proof (target_zeros_bounds temp diff Hv) as Hz.
  assert (Hlen : length (calculate_density c) = length (calculate_target temp diff))
    by by rewrite length_calculate_target; apply length_blake3.
  assert (Hiff : check_proof_of_work c temp diff = true ↔
                 bytes_le (calculate_density c) (calculate_target temp diff))
    by (unfold check_proof_of_work, bytes_le; by rewrite below_target_iff).
  split_and!; [done|lia|lia|]. intros Hc%Hiff.
  eapply bytes_le_zeros; [apply Hbytes| |apply take_target|exact Hc].
  rewrite Hlen, length_calculate_target. lia.
Qed.

(** *** The search *)
Definition try_nonce c (j : nat) : Crystal := set_cr_nonce ((cr_nonce c + Z.of_nat j) mod 2 ^ 64) c.

Lemma try_nonce_0 c : is_u64 (cr_nonce c) → try_nonce c 0 = c.
Proof.
  intros Hn. unfold try_nonce. rewrite Z.add_0_r, Z.mod_small by (unfold is_u64, U64_MAX in Hn; lia).
  by destruct c.
Qed.

Definition next_nonce c : Crystal := set_cr_nonce (u64_wrapping_add (cr_nonce c) 1) c.
Lemma try_nonce_next c j : try_nonce (next_nonce c) j = try_nonce c (S j).
Proof.
  unfold try_nonce, next_nonce, u64_wrapping_add. cbn [cr_nonce set_cr_nonce].
  rewrite Zplus_mod_idemp_l. by replace (cr_nonce c + 1 + Z.of_nat j) with (cr_nonce c + Z.of_nat (S j)) by lia.
Qed.
Lemma next_nonce_u64 c : is_u64 (cr_nonce (next_nonce c)).
Proof.
  unfold next_nonce, u64_wrapping_add, is_u64, U64_MAX. cbn [cr_nonce set_cr_nonce].
  pose proof (Z.mod_pos_bound (cr_nonce c + 1) (2 ^ 64)). lia.
Qed.

Lemma solve_spec attempts temp diff c :
  is_u64 (cr_nonce c) →
  let '(found, c') := solve attempts temp diff c in
  if found then
    ∃ k, (k < attempts)%nat ∧ c' = try_nonce c k ∧ check_proof_of_work c' temp diff = true ∧
      ∀ j, (j < k)%nat → check_proof_of_work (try_nonce c j) temp diff = false
  else c' = try_nonce c attempts ∧
    ∀ j, (j < attempts)%nat → check_proof_of_work (try_nonce c j) temp diff = false.
Proof.
  revert c; induction attempts as [|n IH]; intros c Hn; cbn [solve].
  { rewrite try_nonce_0 by done. split; [done|lia]. }
  pose proof (try_nonce_0 c Hn) as H0.
  destruct (check_proof_of_work c temp diff) eqn:E.
  { exists O. split_and!; [lia|done|done|lia]. }
  specialize (IH (next_nonce c) (next_nonce_u64 c)). fold (next_nonce c).
  destruct (solve n temp diff (next_nonce c)) as [[] c'].
  - destruct IH as (k & Hk & -> & Hc & Hf). exists (S k). rewrite try_nonce_next in *.
    split_and!; [lia|done|done|]. intros [|j] Hj; [by rewrite H0|].
    rewrite <-try_nonce_next. apply Hf. lia.
  - destruct IH as [-> Hf]. rewrite try_nonce_next. split; [done|].
    intros [|j] Hj; [by rewrite H0|]. rewrite <-try_nonce_next. apply Hf. lia.
Qed.

(** The nonce search changes nothing but the nonce: it finds a solution exactly when
    one of the nonces it tries is one, and then it returns the first of them. *)
Theorem solve_first_nonce attempts temp diff c found c' :
  is_u64 (cr_nonce c) → solve attempts temp diff c = (found, c') →
  (found = true ↔ ∃ j, (j < attempts)%nat ∧ check_proof_of_work (try_nonce c j) temp diff = true) ∧
  (found = true → ∃ k, c' = try_nonce c k ∧ check_proof_of_work c' temp diff = true ∧
     ∀ j, (j < k)%nat → check_proof_of_work (try_nonce c j) temp diff = false).
Proof.
  intros Hn Hs. pose proof (solve_spec attempts temp diff c Hn) as H. rewrite Hs in H. destruct found.
  - destruct H as (k & Hk & Hc' & Hc & Hf). split; [|intros _; by exists k].
    split; [intros _; exists k; by subst|done].
  - destruct H as [_ Hf]. split; [|done]. split; [done|]. intros (j & Hj & Hc). by rewrite Hf in Hc.
Qed.

(** ** The hash of a header *)
Lemma concat_inj_32 (l l' : list bytes) :
  Forall (λ h, length h = 32%nat) l → Forall (λ h, length h = 32%nat) l' → concat l = concat l' → l = l'.
Proof.
  intros Hl. revert l'; induction Hl as [|h l Hh _ IH]; intros l' Hl' He.
  - destruct Hl' as [|h' l' Hh' _]; [done|]. simpl in He. by destruct h'.
  - destruct Hl' as [|h' l' Hh' Hl']; simpl in He; [by destruct h|].
    apply app_inj_1 in He as [-> He]; [|congruence]. f_equal. by apply IH.
Qed.

(** The fields the Rust types bound. *)
Record header_ok c : Prop := {
  ho_index : is_u64 (index c);
  ho_time : is_u64 (cr_timestamp c);
  ho_nonce : is_u64 (cr_nonce c);
  ho_prev : length (prev_hash c) = 32%nat;
  ho_root : length (state_root c) = 32%nat;
  ho_reactions : Forall (λ h, length h = 32%nat) (reactions c);
}.

Lemma to_le_8_inj a b : is_u64 a → is_u64 b → to_le 8 a = to_le 8 b → a = b.
Proof. unfold is_u64, U64_MAX. intros ??. apply (to_le_inj 8); simpl; lia. Qed.

Lemma density_input_inj c c' :
  header_ok c → header_ok c' → density_input c = density_input c' →
  index c = index c' ∧ prev_hash c = prev_hash c' ∧ cr_timestamp c = cr_timestamp c' ∧
  cr_nonce c = cr_nonce c' ∧ state_root c = state_root c' ∧ reactions c = reactions c' ∧
  encode (cumulative_energy c) = encode (cumulative_energy c') ∧
  encode (final_temp c) = encode (final_temp c') ∧ encode (final_entropy c) = encode (final_entropy c').
Proof.
  intros [? ? ? ? ? ?] [? ? ? ? ? ?] H. unfold density_input in H.
  pose proof (length_to_le 8) as Hlen8.
  repeat match type of H with
  | to_le 8 ?a ++ _ = to_le 8 ?b ++ _ =>
      let H' := fresh in apply app_inj_1 in H as [H' H]; [|by rewrite !Hlen8];
      apply to_le_8_inj in H'; [|assumption..]
  | prev_hash _ ++ _ = _ => let H' := fresh in apply app_inj_1 in H as [H' H]; [|congruence]
  | state_root _ ++ _ = _ => let H' := fresh in apply app_inj_1 in H as [H' H]; [|congruence]
  end.
  apply app_inj_2 in H as [Hr H]; [|by rewrite !length_app, !Hlen8].
  apply concat_inj_32 in Hr; [|done|done].
  apply app_inj_1 in H as [E1 H]; [|by rewrite !Hlen8]. apply app_inj_1 in H as [E2 E3]; [|by rewrite !Hlen8].
  apply to_le_8_inj in E1, E2, E3; [|apply encode_bounds..]. done.
Qed.

(** The hash of a crystal commits to its height, parent, time, nonce, state root,
    reaction hashes and encoded energies, up to a collision of BLAKE3. *)
Theorem density_binds c c' :
  header_ok c → header_ok c' → calculate_density c = calculate_density c' →
  (index c = index c' ∧ prev_hash c = prev_hash c' ∧ cr_timestamp c = cr_timestamp c' ∧
   cr_nonce c = cr_nonce c' ∧ state_root c = state_root c' ∧ reactions c = reactions c' ∧
   encode (cumulative_energy c) = encode (cumulative_energy c') ∧
   encode (final_temp c) = encode (final_temp c') ∧ encode (final_entropy c) = encode (final_entropy c')) ∨
  (density_input c ≠ density_input c' ∧ blake3 (density_input c) = blake3 (density_input c')).
Proof.
  intros Hc Hc' H. destruct (decide (density_input c = density_input c')) as [He|Hne]; [left|by right].
  by apply density_input_inj.
Qed.
End crystal.

(** ** A header, mined with a checksum in the place of the hash *)
#[local] Existing Instance checksum_hashes.
Definition demo_header : Crystal := Crystal_new 1 (replicate 32 3).
Definition demo_mined : bool * Crystal := solve 300 (f32_of_Z 0) (f32_of_Z 1) demo_header.

Lemma checksum_bytes b : Forall is_byte (checksum b).
Proof. apply to_le_bytes. Qed.
Lemma demo_difficulty_valid : f32_valid (base_difficulty (f32_of_Z 0) (f32_of_Z 1)).
Proof. vm_compute. reflexivity. Qed.

Lemma proof_of_work_iff_witness : take 1 (calculate_density demo_mined.2) = [0].
Proof.
  refine (proj2 (proj2 (proof_of_work_iff demo_mined.2 (f32_of_Z 0) (f32_of_Z 1) checksum_bytes
    demo_difficulty_valid)) _).
  vm_compute. reflexivity.
Defined.

Lemma solve_first_nonce_witness :
  ∃ k, demo_mined.2 = try_nonce demo_header k ∧
    ∀ j, (j < k)%nat → check_proof_of_work (try_nonce demo_header j) (f32_of_Z 0) (f32_of_Z 1) = false.
Proof.
  destruct (proj2 (solve_first_nonce 300 (f32_of_Z 0) (f32_of_Z 1) demo_header true demo_mined.2
    ltac:(split; vm_compute; discriminate) ltac:(vm_compute; reflexivity)) eq_refl) as (k & H1 & _ & H2).
  exists k. exact (conj H1 H2).
Defined.

Lemma density_binds_witness :
  density_input (set_cr_nonce 1 demo_header) ≠ density_input (set_cr_nonce 256 demo_header) ∧
  blake3 (density_input (set_cr_nonce 1 demo_header)) = blake3 (density_input (set_cr_nonce 256 demo_header)).
Proof.
  destruct (density_binds (set_cr_nonce 1 demo_header) (set_cr_nonce 256 demo_header)) as [H|H].
  - constructor; try (split; vm_compute; discriminate); try reflexivity. constructor.
  - constructor; try (split; vm_compute; discriminate); try reflexivity. constructor.
  - vm_compute. reflexivity.
  - exfalso. destruct H as (_ & _ & _ & H & _). discriminate.
  - exact H.
Defined.
