(* ===== verification/Chamber.v ===== *)
(** The reaction chamber and its deterministic rolls (primus-core chamber.rs and
    gravity.rs): the pending reactions of a block, its thermodynamics, and the choice of
    the reactions of the next block. *)
From S2P Require Import Prelude Floats Types Physics.
Open Scope Z_scope.

(** `f32::ln_1p`, of the platform's mathematical library. *)
Class Libm := { ln_1p : f32 → f32 }.

(** ** gravity.rs *)
Record GravityEngine := MkGravity { server_seed : bytes; rtp : f32 }.

Definition generate_roll `{Hashes} (g : GravityEngine) (user_id : bytes) (n : Z) (prev : bytes)
    (crystal_index : Z) : Z :=
  let data := server_seed g ++ prev ++ to_le 8 crystal_index ++ user_id ++ to_le 8 n in
  of_be (take 8 (sha3_256 data)).

(** ** chamber.rs *)
Record ReactionChamber := MkChamber {
  volatile_reactions : list SignedReaction;
  ch_temperature : f32;
  ch_entropy : f32;
  expansion_factor : f32;
  total_binding_energy : f32;
  ch_base_difficulty : f32;
}.

Definition chamber_new : ReactionChamber :=
  MkChamber [] (f32_of_Z 0) (f32_of_Z 0) (f32_of_Z 1) (f32_of_Z 0) (f32_of_Z 1).

Definition inherit_history (last : Crystal) (ch : ReactionChamber) : ReactionChamber :=
  let temperature := f32_mul (final_temp last) (f32_lit 7 10) in
  let entropy := f32_mul (final_entropy last) (f32_lit 4 10) in
  let expansion :=
    if fp_gt (cumulative_energy last) (f32_of_Z 50) then
      let compression := fp_min (f32_mul (cumulative_energy last) (f32_lit 1 10000)) (f32_lit 5 100) in
      fp_max (f32_sub (f32_lit 110 100) compression) (f32_of_Z 1)
    else expansion_factor ch in
  MkChamber (volatile_reactions ch) temperature entropy expansion (total_binding_energy ch)
    (f32_add (f32_of_Z 1) (f32_mul temperature (f32_lit 1 100))).

Definition inject_reaction (rx : SignedReaction) (ch : ReactionChamber) : ReactionChamber :=
  MkChamber (volatile_reactions ch ++ [rx]) (ch_temperature ch) (ch_entropy ch) (expansion_factor ch)
    (total_binding_energy ch) (ch_base_difficulty ch).

Definition f32_sqrt : f32 → f32 := SFsqrt 24 128.

Definition calculate_surface_tension (ch : ReactionChamber) (cluster : list SignedReaction) : f32 :=
  match cluster with
  | [] => f32_of_Z 0
  | _ =>
      let total_viscosity :=
        foldl (λ acc rx, f32_add acc (get_viscosity_factor (sender rx))) (f32_of_Z 0) cluster in
      let avg_viscosity := f32_div total_viscosity (f32_of_Z (len cluster)) in
      f32_div (f32_mul (f32_sqrt (f32_of_Z (len cluster))) avg_viscosity)
        (f32_add (ch_temperature ch) (f32_of_Z 1))
  end.

Definition calibrate_thermodynamics `{Libm} (ch : ReactionChamber) : ReactionChamber :=
  let reaction_count := f32_of_Z (len (volatile_reactions ch)) in
  let incremental_temp := f32_mul (f32_mul reaction_count (f32_lit 15 100)) (ch_base_difficulty ch) in
  let temperature := f32_add (ch_temperature ch) incremental_temp in
  let entropy := ln_1p (f32_mul (f32_mul temperature (f32_lit 15 10)) (expansion_factor ch)) in
  MkChamber (volatile_reactions ch) temperature entropy (expansion_factor ch)
    (total_binding_energy ch) (ch_base_difficulty ch).

(** `sort_by(|a, b| b.sender.mass.cmp(&a.sender.mass))`: stable, by decreasing mass. *)
Fixpoint insert_by_mass (rx : SignedReaction) (l : list SignedReaction) : list SignedReaction :=
  match l with
  | [] => [rx]
  | y :: l' => if mass (sender y) <=? mass (sender rx) then rx :: l else y :: insert_by_mass rx l'
  end.
Definition sort_by_mass (l : list SignedReaction) : list SignedReaction := foldr insert_by_mass [] l.

Abbreviation sender_keys l := ((λ rx, public_key (sender rx)) <$> l).

Section synthesize.
Context {HA : Hashes} {LM : Libm}.

(** The reaction at position [i] of [total] is lost to heat. *)
Definition evaporates (ch : ReactionChamber) (g : GravityEngine) (prev : bytes) (crystal_index : Z)
    (tension : f32) (total i : Z) (rx : SignedReaction) : bool :=
  let relative_radius := f32_div (f32_of_Z i) (f32_of_Z total) in
  let roll := generate_roll g (public_key (sender rx)) (nonce (sender rx)) prev crystal_index in
  let roll_factor := f32_div (f32_of_Z (roll mod 1000)) (f32_of_Z 1000) in
  let radius_penalty := f32_mul (f32_add (f32_of_Z 1) relative_radius) (ch_base_difficulty ch) in
  let stability_threshold :=
    f32_mul (f32_div (f32_lit 1 10) (f32_add tension (f32_lit 1 10))) radius_penalty in
  fp_gt (ch_entropy ch) (f32_lit 12 10) && fp_lt roll_factor stability_threshold.

(** The loop over the drained reactions: the senders locked, the energy bound so far. *)
Fixpoint synthesis_loop (lost : Z → SignedReaction → bool) (i : Z) (todo : list SignedReaction)
    (locks : gset bytes) (energy : f32) : list SignedReaction * f32 :=
  match todo with
  | [] => ([], energy)
  | rx :: todo =>
      let key := public_key (sender rx) in
      if bool_decide (key ∈ locks) then synthesis_loop lost (i + 1) todo locks energy
      else if lost i rx then synthesis_loop lost (i + 1) todo locks energy
      else
        let '(cluster, energy) :=
          synthesis_loop lost (i + 1) todo ({[key]} ∪ locks)
            (f32_add energy (get_binding_potential (sender rx))) in
        (rx :: cluster, energy)
  end.

Definition synthesize_with_gravity (g : GravityEngine) (prev : bytes) (crystal_index : Z)
    (ch : ReactionChamber) : ReactionChamber * list SignedReaction :=
  let ch := calibrate_thermodynamics ch in
  let sorted := sort_by_mass (volatile_reactions ch) in
  let tension := calculate_surface_tension ch sorted in
  let total_count := len sorted in
  let '(final_cluster, energy) :=
    synthesis_loop (evaporates ch g prev crystal_index tension total_count) 0 sorted ∅ (f32_of_Z 0) in
  let compression := fp_min (f32_mul energy (f32_lit 1 1000)) (f32_lit 8 100) in
  let expansion := fp_max (f32_sub (expansion_factor ch) compression) (f32_of_Z 1) in
  (MkChamber [] (f32_add (ch_temperature ch) (f32_mul energy (f32_lit 3 100)))
     (f32_add (ch_entropy ch) (f32_mul energy (f32_lit 1 100))) expansion energy (ch_base_difficulty ch),
   final_cluster).

Definition update_expansion (new_factor : f32) (ch : ReactionChamber) : ReactionChamber :=
  MkChamber (volatile_reactions ch) (ch_temperature ch) (ch_entropy ch) new_factor
    (total_binding_energy ch) (ch_base_difficulty ch).

(** ** The sort *)
Definition heavier (a b : SignedReaction) : Prop := mass (sender b) ≤ mass (sender a).

Lemma insert_by_mass_perm rx l : insert_by_mass rx l ≡ₚ rx :: l.
Proof. induction l as [|y l IH]; simpl; [done|]. case_match; [done|]. rewrite IH. apply Permutation_swap. Qed.

Lemma sort_by_mass_perm l : sort_by_mass l ≡ₚ l.
Proof. induction l as [|x l IH]; simpl; [done|]. by rewrite insert_by_mass_perm, IH. Qed.

Lemma insert_by_mass_sorted rx l :
  StronglySorted heavier l → StronglySorted heavier (insert_by_mass rx l).
Proof.
  induction 1 as [|y l Hs IH Hall]; simpl; [repeat constructor|]. destruct (Z.leb_spec (mass (sender y)) (mass (sender rx))).
  - constructor; [by constructor|]. constructor; [done|].
    eapply Forall_impl; [exact Hall|]. unfold heavier. intros z. lia.
  - constructor; [done|]. rewrite insert_by_mass_perm. constructor; [unfold heavier; lia|done].
Qed.

Lemma sort_by_mass_sorted l : StronglySorted heavier (sort_by_mass l).
Proof. induction l as [|x l IH]; simpl; [constructor|]. by apply insert_by_mass_sorted. Qed.

(** ** The loop *)
Lemma synthesis_loop_spec lost i todo locks energy :
  let '(out, _) := synthesis_loop lost i todo locks energy in
  out `sublist_of` todo ∧ NoDup (sender_keys out) ∧ Forall (λ rx, public_key (sender rx) ∉ locks) out ∧
  ((∀ j rx, rx ∈ todo → lost j rx = false) →
   ∀ rx, rx ∈ todo → public_key (sender rx) ∉ locks → public_key (sender rx) ∈ sender_keys out).
Proof.
  revert i locks energy; induction todo as [|rx todo IH]; intros i locks energy; simpl.
  { split_and!; [constructor|constructor|constructor|]. intros _ rx []%not_elem_of_nil. }
  case_bool_decide as Hlock; [|destruct (lost i rx) eqn:El].
  - specialize (IH (i + 1) locks energy). destruct (synthesis_loop _ _ _ _ _) as [out e].
    destruct IH as (Hsub & Hnd & Hf & Hall). split_and!; [by constructor|done|done|].
    intros Hl rx' [->|Hin]%elem_of_cons Hn; [done|]. apply Hall; [set_solver|done|done].
  - specialize (IH (i + 1) locks energy). destruct (synthesis_loop _ _ _ _ _) as [out e].
    destruct IH as (Hsub & Hnd & Hf & Hall). split_and!; [by constructor|done|done|].
    intros Hl. rewrite Hl in El by left. done.
  - specialize (IH (i + 1) ({[public_key (sender rx)]} ∪ locks) (f32_add energy (get_binding_potential (sender rx)))).
    destruct (synthesis_loop _ _ _ _ _) as [out e].
    destruct IH as (Hsub & Hnd & Hf & Hall). rewrite Forall_forall in Hf. split_and!.
    + by constructor.
    + rewrite fmap_cons. constructor; [|done]. intros (rx' & He & Hin)%list_elem_of_fmap.
      apply (Hf rx' Hin). set_solver.
    + constructor; [done|]. apply Forall_forall. intros rx' Hin. specialize (Hf rx' Hin). set_solver.
    + intros Hl rx' [->|Hin]%elem_of_cons Hn; rewrite fmap_cons; [left|].
      destruct (decide (public_key (sender rx') = public_key (sender rx))) as [->|Hne]; [left|right].
      apply Hall; [set_solver|done|set_solver].
Qed.

(** The choice for the next block empties the chamber and takes at most one reaction
    of each sender, by decreasing claimed mass; in a chamber of low entropy every sender
    that waits is served. *)
Theorem synthesize_one_per_sender g prev i ch ch' out :
  synthesize_with_gravity g prev i ch = (ch', out) →
  volatile_reactions ch' = [] ∧
  out `sublist_of` sort_by_mass (volatile_reactions ch) ∧
  StronglySorted heavier out ∧
  NoDup (sender_keys out) ∧
  (fp_gt (ch_entropy (calibrate_thermodynamics ch)) (f32_lit 12 10) = false →
   ∀ rx, rx ∈ volatile_reactions ch → public_key (sender rx) ∈ sender_keys out).
Proof.
  unfold synthesize_with_gravity. cbv zeta. set (c := calibrate_thermodynamics ch).
  change (volatile_reactions c) with (volatile_reactions ch).
  set (sorted := sort_by_mass (volatile_reactions ch)).
  set (lost := evaporates _ _ _ _ _ _).
  pose proof (synthesis_loop_spec lost 0 sorted ∅ (f32_of_Z 0)) as H.
  destruct (synthesis_loop lost 0 sorted ∅ (f32_of_Z 0)) as [cluster e]. intros [= <- <-].
  destruct H as (Hsub & Hnd & _ & Hall). split_and!; [done|done| |done|].
  - eapply StronglySorted_sublist; [exact Hsub|apply sort_by_mass_sorted].
  - intros Hcold rx Hrx. apply Hall; [|by unfold sorted; rewrite sort_by_mass_perm|set_solver].
    intros j rx' _. unfold lost, evaporates. by rewrite Hcold.
Qed.
End synthesize.

(** ** A cold chamber with three reactions of two senders *)
#[local] Existing Instance toy_hashes.
#[local] Instance flat_libm : Libm := {| ln_1p x := f32_of_Z 1 |}.
Definition demo_rx (k m n : Z) : SignedReaction :=
  MkReaction (set_nonce n (set_mass m (new_receiver [k]))) (new_receiver [9]) [n] (f32_of_Z 10) 0 [] Generic.
Definition demo_chamber : ReactionChamber :=
  foldr inject_reaction chamber_new [demo_rx 1 500 2; demo_rx 2 900 1; demo_rx 1 500 1].
Definition demo_block : ReactionChamber * list SignedReaction :=
  synthesize_with_gravity (MkGravity [] (f32_of_Z 1)) zero32 5 demo_chamber.

(** The sort is stable: of the two reactions of [1] the one injected first wins. *)
Example demo_block_order :
  (λ rx, (public_key (sender rx), nonce (sender rx))) <$> demo_block.2 = [([2], 1); ([1], 1)].
Proof. vm_compute. reflexivity. Qed.

Lemma synthesize_one_per_sender_witness : [1] ∈ sender_keys demo_block.2.
Proof.
  refine (proj2 (proj2 (proj2 (proj2 (synthesize_one_per_sender (MkGravity [] (f32_of_Z 1)) zero32 5
    demo_chamber demo_block.1 demo_block.2 (surjective_pairing _))))) _ (demo_rx 1 500 2) _).
  - vm_compute. reflexivity.
  - simpl. right. right. left.
Defined.
