(* ===== verification/Storage.v ===== *)
(** The storage of a node (primus-core storage.rs, primus-storage storage.rs): the sled
    database, the Merkle-Patricia trie over it, and the log of old roots.

    The keys of the database have disjoint prefixes ("atom_", "contract_", "crystal_",
    "undo_", "mpt_root_", ...), so that it is a record of maps here; values are kept
    decoded (bincode round-trips), except in the trie, which stores encoded atoms.  sled's
    own I/O errors are not modelled. *)
From S2P Require Import Prelude Floats Types Mpt MptTree MptFacts MptGc MptProof State.
Open Scope Z_scope.

Definition FINALITY_DEPTH : Z := 6.
Definition UNDO_WINDOW : Z := 8.

Inductive StorageError :=
| ProofTooOld (i tip window : Z)
| CrystalNotFound (i : Z)
| StorageOther (e : MptError).

Record Db := MkDb {
  db_atoms : gmap bytes Atom;
  db_contracts : gmap bytes bytes;
  db_mpt_root : option bytes;
  db_root_at : gmap Z bytes;
  db_crystals : gmap Z Crystal;
  db_latest : option Z;
  db_undo : gmap Z UndoLog;
  db_metrics : option GlobalMetrics;
}.
Definition db_empty : Db := MkDb ∅ ∅ None ∅ ∅ None ∅ None.

Definition db_set_atoms (m : gmap bytes Atom) (d : Db) : Db :=
  MkDb m (db_contracts d) (db_mpt_root d) (db_root_at d) (db_crystals d) (db_latest d) (db_undo d) (db_metrics d).
Definition db_set_contracts (m : gmap bytes bytes) (d : Db) : Db :=
  MkDb (db_atoms d) m (db_mpt_root d) (db_root_at d) (db_crystals d) (db_latest d) (db_undo d) (db_metrics d).
Definition db_set_root (i : Z) (r : bytes) (d : Db) : Db :=
  MkDb (db_atoms d) (db_contracts d) (Some r) (<[i := r]> (db_root_at d)) (db_crystals d) (db_latest d)
    (db_undo d) (db_metrics d).
Definition db_set_crystals (m : gmap Z Crystal) (l : option Z) (d : Db) : Db :=
  MkDb (db_atoms d) (db_contracts d) (db_mpt_root d) (db_root_at d) m l (db_undo d) (db_metrics d).
Definition db_set_undo (m : gmap Z UndoLog) (d : Db) : Db :=
  MkDb (db_atoms d) (db_contracts d) (db_mpt_root d) (db_root_at d) (db_crystals d) (db_latest d) m (db_metrics d).
Definition db_set_metrics (g : GlobalMetrics) (d : Db) : Db :=
  MkDb (db_atoms d) (db_contracts d) (db_mpt_root d) (db_root_at d) (db_crystals d) (db_latest d)
    (db_undo d) (Some g).

Abbreviation Trie := (MerklePatriciaTrie SledMptStore).
Record PrimusStorage := MkStorage {
  db : Db;
  mpt : Trie;
  st_root : option bytes;
  gc_log : gmap Z bytes;
}.
Definition set_db (d : Db) (st : PrimusStorage) : PrimusStorage :=
  MkStorage d (mpt st) (st_root st) (gc_log st).
Definition upd_db (f : Db → Db) (st : PrimusStorage) : PrimusStorage := set_db (f (db st)) st.

(** `new` and `open_readonly`: the database, the node tree and the log as they are on disk. *)
Definition storage_open (d : Db) (nodes : SledMptStore) (log : gmap Z bytes) : PrimusStorage :=
  let root := db_mpt_root d in
  let trie := match root with Some r => with_root nodes r | None => trie_new nodes end in
  MkStorage d trie root log.

(** `clone_db` shares the database; the storage opened on it reads the root on disk. *)
Definition clone_db (st : PrimusStorage) : Db * SledMptStore * gmap Z bytes := (db st, store (mpt st), gc_log st).
Definition open_readonly (d : Db * SledMptStore * gmap Z bytes) : PrimusStorage :=
  let '(d, nodes, log) := d in
  let root := db_mpt_root d in
  let trie := match root with Some r => with_root nodes r | None => trie_new nodes end in
  MkStorage d trie root log.

Definition storage_get_atom (st : PrimusStorage) (pk : bytes) : option Atom := db_atoms (db st) !! pk.
Definition save_contract (code_hash code : bytes) (st : PrimusStorage) : PrimusStorage :=
  upd_db (λ d, db_set_contracts (<[code_hash := code]> (db_contracts d)) d) st.
Definition storage_load_contract (st : PrimusStorage) (code_hash : bytes) : option bytes :=
  db_contracts (db st) !! code_hash.
(** The scan of the prefix "atom_" skips the bare prefix, i.e. the empty key. *)
Definition get_all_atoms (st : PrimusStorage) : gmap bytes Atom :=
  filter (λ p, p.1 ≠ []) (db_atoms (db st)).

Section storage.
Context {HA : Hashes} {NC : NodeCodec} {AC : AtomCodec}.
Implicit Types (st : PrimusStorage) (cs : Changeset) (T : Trie).

(** The keys and values that a write set puts in the trie, in key order. *)
Definition trie_updates cs : list (bytes * bytes) :=
  (λ p, (sha3_256 p.1, ser_atom p.2)) <$> btree_to_list (inner cs).

(** The loop of insertions; on an error the trie stays as the last success left it. *)
Fixpoint insert_all T (updates : list (bytes * bytes)) : Trie * result unit MptError :=
  match updates with
  | [] => (T, Ok tt)
  | (k, v) :: updates =>
      match mpt_insert T k v with
      | Ok (T, _) => insert_all T updates
      | Err e => (T, Err e)
      end
  end.

Definition commit_changeset st cs (crystal_index : Z) : PrimusStorage * result bytes StorageError :=
  let old_root := mroot (mpt st) in
  match insert_all (mpt st) (trie_updates cs) with
  | (T, Err e) => (MkStorage (db st) T (st_root st) (gc_log st), Err (StorageOther e))
  | (T, Ok _) =>
      let new_root := default zero32 (mroot T) in
      let log := match old_root with
                 | Some old => <[crystal_index := old]> (gc_log st)
                 | None => gc_log st
                 end in
      let d := db_set_atoms (foldl (λ m p, <[p.1 := p.2]> m) (db_atoms (db st)) (btree_to_list (inner cs)))
                 (db st) in
      let d := db_set_contracts
                 (foldl (λ m p, <[p.1 := p.2]> m) (db_contracts d) (btree_to_list (contracts cs))) d in
      let d := db_set_root crystal_index new_root d in
      (MkStorage d T (Some new_root) log, Ok new_root)
  end.

Definition get_proof st (pk : bytes) : mres MerkleProof :=
  prove (with_root_opt (store (mpt st)) (st_root st)) (sha3_256 pk).

Definition current_root st : bytes := default zero32 (st_root st).

Definition root_at st (crystal_index : Z) : result (option bytes) StorageError :=
  let tip := default 0 (db_latest (db st)) in
  if (UNDO_WINDOW <? tip) && (crystal_index <? tip - UNDO_WINDOW)
  then Err (ProofTooOld crystal_index tip UNDO_WINDOW)
  else Ok (db_root_at (db st) !! crystal_index).

Definition get_crystal st (i : Z) : option Crystal := db_crystals (db st) !! i.
Definition get_crystal_latest st : option Crystal :=
  match db_latest (db st) with Some i => get_crystal st i | None => None end.
Definition save_crystal (c : Crystal) st : PrimusStorage :=
  upd_db (λ d, db_set_crystals (<[index c := c]> (db_crystals d)) (Some (index c)) d) st.
Definition delete_crystal (i : Z) st : PrimusStorage :=
  upd_db (λ d, db_set_crystals (delete i (db_crystals d)) (db_latest d) d) st.

Definition save_undo_log (u : UndoLog) st : PrimusStorage :=
  upd_db (λ d, db_set_undo (<[undo_crystal_index u := u]> (db_undo d)) d) st.
Definition get_undo_log st (i : Z) : option UndoLog := db_undo (db st) !! i.
Definition delete_undo_log (i : Z) st : PrimusStorage :=
  upd_db (λ d, db_set_undo (delete i (db_undo d)) d) st.

(** One iteration of the loop of [prune_undo_window]; a failed collection is only logged, and
    what it has deleted by then stays deleted. *)
Definition prune_one (st : PrimusStorage) (idx : Z) : PrimusStorage :=
  let st := delete_undo_log idx st in
  match gc_log st !! idx with
  | Some old_root =>
      let T := if bool_decide (length old_root = 32%nat) then (gc_since (mpt st) old_root).1 else mpt st in
      MkStorage (db st) T (st_root st) (delete idx (gc_log st))
  | None => st
  end.
Definition prune_undo_window st (current_height : Z) : PrimusStorage :=
  if current_height <=? UNDO_WINDOW then st
  else foldl prune_one st (seqZ 0 (current_height - UNDO_WINDOW)).

(** The write-back of a set of pre-images. *)
Definition restore_map (m : gmap bytes Atom) (pre : gmap bytes (option Atom)) : gmap bytes Atom :=
  foldl (λ m p, match p.2 with Some a => <[p.1 := a]> m | None => delete p.1 m end) m (btree_to_list pre).
Definition restore_atoms (pre : gmap bytes (option Atom)) st : PrimusStorage :=
  upd_db (λ d, db_set_atoms (restore_map (db_atoms d) pre) d) st.

Definition save_global_metrics (g : GlobalMetrics) st : PrimusStorage := upd_db (db_set_metrics g) st.
Definition get_global_metrics st : option GlobalMetrics := db_metrics (db st).
Definition storage_flush (g : option GlobalMetrics) st : PrimusStorage :=
  match g with Some g => save_global_metrics g st | None => st end.
End storage.

(** ** Undo logs *)
(** The log of a write set over the atoms it is applied to (the loop of
    processor.rs finalize_solidification). *)
Definition make_undo (i : Z) (root : bytes) (before : gmap bytes Atom) (cs : Changeset) : UndoLog :=
  foldl (λ u pk, undo_record pk (before !! pk) u) (undo_new i root) (sorted_keys cs).

Lemma restore_map_lookup m pre k :
  restore_map m pre !! k = match pre !! k with Some o => o | None => m !! k end.
Proof.
  unfold restore_map.
  assert (Hg : ∀ (l : list (bytes * option Atom)) (m : gmap bytes Atom), NoDup l.*1 →
    foldl (λ m p, match p.2 with Some a => <[p.1 := a]> m | None => delete p.1 m end) m l !! k
    = match (list_to_map l : gmap bytes (option Atom)) !! k with Some o => o | None => m !! k end).
  { clear. induction l as [|[i o] l IH]; intros m Hnd; [done|]. rewrite fmap_cons in Hnd.
    apply NoDup_cons in Hnd as [Hi Hnd]. cbn [foldl fst snd]. rewrite IH by done.
    rewrite list_to_map_cons. destruct (decide (i = k)) as [<-|Hne].
    - rewrite lookup_insert_eq, not_elem_of_list_to_map_1 by done.
      destruct o; [apply lookup_insert_eq|apply lookup_delete_eq].
    - rewrite lookup_insert_ne by done. destruct (list_to_map l !! k); [done|].
      destruct o; [by apply lookup_insert_ne|by apply lookup_delete_ne]. }
  rewrite Hg by apply btree_to_list_NoDup_keys. by rewrite btree_to_list_to_map.
Qed.

Lemma make_undo_lookup i root before cs k :
  pre_images (make_undo i root before cs) !! k =
  if decide (is_Some (inner cs !! k)) then Some (before !! k) else None.
Proof.
  unfold make_undo.
  assert (Hg : ∀ (l : list bytes) u,
    pre_images (foldl (λ u pk, undo_record pk (before !! pk) u) u l) !! k
    = match pre_images u !! k with
      | Some o => Some o
      | None => if decide (k ∈ l) then Some (before !! k) else None
      end).
  { induction l as [|pk l IH]; intros u; [cbn [foldl]; by destruct (pre_images u !! k)|].
    cbn [foldl]. rewrite IH. unfold undo_record. simpl.
    destruct (decide (pk = k)) as [<-|Hne].
    - destruct (pre_images u !! pk) as [o|] eqn:E; [by rewrite E|].
      rewrite lookup_insert_eq. rewrite decide_True by left. done.
    - assert (pre_images (undo_record pk (before !! pk) u) !! k = pre_images u !! k) as Hk.
      { unfold undo_record. simpl. destruct (pre_images u !! pk); [done|]. by rewrite lookup_insert_ne. }
      unfold undo_record in Hk. simpl in Hk. rewrite Hk.
      destruct (pre_images u !! k); [done|]. apply decide_ext. set_solver. }
  rewrite Hg. simpl. rewrite lookup_empty. apply decide_ext. unfold sorted_keys.
  rewrite list_elem_of_fmap. split.
  - intros ([k' a] & -> & Hin%elem_of_btree_to_list). by exists a.
  - intros [a Ha]. exists (k, a). split; [done|by apply elem_of_btree_to_list].
Qed.

Lemma make_undo_index i root before cs :
  undo_crystal_index (make_undo i root before cs) = i ∧ pre_state_root (make_undo i root before cs) = root.
Proof.
  unfold make_undo.
  assert (Hg : ∀ (l : list bytes) u, undo_crystal_index (foldl (λ u pk, undo_record pk (before !! pk) u) u l)
    = undo_crystal_index u ∧ pre_state_root (foldl (λ u pk, undo_record pk (before !! pk) u) u l) = pre_state_root u).
  { induction l as [|pk l IH]; intros u; [done|]. cbn [foldl]. by destruct (IH (undo_record pk (before !! pk) u)). }
  apply (Hg _ (undo_new i root)).
Qed.

(** Undoing a write set restores the atoms it was applied to. *)
Lemma undo_restores i root before cs :
  restore_map (inner cs ∪ before) (pre_images (make_undo i root before cs)) = before.
Proof.
  apply map_eq. intros k. rewrite restore_map_lookup, make_undo_lookup.
  destruct (decide (is_Some (inner cs !! k))) as [_|Hn]; [done|].
  rewrite lookup_union. apply eq_None_not_Some in Hn. rewrite Hn. by destruct (before !! k).
Qed.

(** ** The trie commits to the atoms *)
Section correctness.
Context {HA : Hashes} {NC : NodeCodec} {AC : AtomCodec}.
Context (G : MptNode → Prop) (Ginj : hash_injective_on G).
(** SHA3-256 yields bytes, and has no collision among the account keys in play. *)
Context (K : bytes → Prop) (sha3_bytes : ∀ b, Forall is_byte (sha3_256 b)).
Context (sha3_inj : ∀ a b, K a → K b → sha3_256 a = sha3_256 b → a = b).
Implicit Types (st : PrimusStorage) (cs : Changeset) (T : Trie) (t : tree) (m : gmap bytes Atom).

(** The trie map that stands for the atoms [m]. *)
Record image (M : gmap bytes bytes) m : Prop := {
  im_keys pk : is_Some (m !! pk) → K pk;
  im_fwd pk : K pk → M !! sha3_256 pk = ser_atom <$> m !! pk;
  im_bwd k : is_Some (M !! k) → ∃ pk, K pk ∧ k = sha3_256 pk;
}.

Definition commits_to T t m : Prop := ∃ M, trie_inv G T t M ∧ image M m.

(** A trie commits to one set of atoms. *)
Lemma commits_to_inj T t t' m m' : commits_to T t m → commits_to T t' m' → m = m'.
Proof using Ginj.
  intros (M & HI & HM) (M' & HI' & HM').
  assert (M = M') as <- by (by apply (trie_inv_root_inj G T T t t' M M')).
  assert (Hsub : ∀ m m', image M m → image M m' → m ⊆ m').
  { intros m1 m2 H1 H2. apply map_subseteq_spec. intros pk a Ha.
    assert (Hpk : K pk) by (by eapply im_keys; [exact H1|exists a]).
    pose proof (im_fwd _ _ H1 pk Hpk) as E. rewrite (im_fwd _ _ H2 pk Hpk), Ha in E.
    destruct (m2 !! pk) as [b|]; [|done]. simpl in E. injection E as E.
    apply (f_equal de_atom) in E. rewrite !de_ser_atom in E. congruence. }
  apply (anti_symm (⊆)); by apply Hsub.
Qed.

Definition tree_after t (updates : list (bytes * bytes)) : tree :=
  foldl (λ t p, t_insert t (key_to_nibbles p.1) p.2) t updates.
(** The nodes the insertions write are in [G]. *)
Fixpoint inserts_in t (updates : list (bytes * bytes)) : Prop :=
  match updates with
  | [] => True
  | p :: updates =>
      nodes_in G (t_insert t (key_to_nibbles p.1) p.2) ∧
      inserts_in (t_insert t (key_to_nibbles p.1) p.2) updates
  end.

Lemma sha3_key pk : is_key (sha3_256 pk).
Proof. split; [apply length_sha3_256|apply sha3_bytes]. Qed.

Lemma image_insert M m pk a : image M m → K pk → image (<[sha3_256 pk := ser_atom a]> M) (<[pk := a]> m).
Proof using sha3_inj.
  intros [H1 H2 H3] Hpk. split.
  - intros pk'. destruct (decide (pk = pk')) as [<-|]; [done|]. rewrite lookup_insert_ne by done. apply H1.
  - intros pk' Hpk'. destruct (decide (pk = pk')) as [<-|Hne]; [by rewrite !lookup_insert_eq|].
    rewrite !lookup_insert_ne; [by apply H2|done|]. intros E. by apply Hne, sha3_inj.
  - intros k. destruct (decide (k = sha3_256 pk)) as [->|Hne]; [by exists pk|].
    rewrite lookup_insert_ne by done. apply H3.
Qed.

Lemma image_empty : image ∅ ∅.
Proof.
  split; [intros pk [? H]; by rewrite lookup_empty in H|intros; by rewrite !lookup_empty|].
  intros k [? H]. by rewrite lookup_empty in H.
Qed.

Lemma keeps_roots_refl (s : SledMptStore) : keeps_roots G s s.
Proof. by intros r told Mold. Qed.
Lemma keeps_roots_trans (s1 s2 s3 : SledMptStore) :
  keeps_roots G s1 s2 → keeps_roots G s2 s3 → keeps_roots G s1 s3.
Proof. intros H1 H2 r told Mold H. by apply H2, H1. Qed.

(** The keys of the write set, with their encodings: the loop inserts them one by one. *)
Definition encode_updates (l : list (bytes * Atom)) : list (bytes * bytes) :=
  (λ p, (sha3_256 p.1, ser_atom p.2)) <$> l.

Lemma insert_all_inv T t m l :
  commits_to T t m → Forall K l.*1 → inserts_in t (encode_updates l) →
  ∃ T', insert_all T (encode_updates l) = (T', Ok tt) ∧
    commits_to T' (tree_after t (encode_updates l)) (foldl (λ m p, <[p.1 := p.2]> m) m l) ∧
    keeps_roots G (store T) (store T') ∧ (l ≠ [] → mroot T' ≠ None).
Proof using Ginj sha3_bytes sha3_inj.
  revert T t m; induction l as [|[pk a] l IH]; intros T t m HT HK HG.
  { exists T. split_and!; [done|done|apply keeps_roots_refl|done]. }
  rewrite fmap_cons in HK. apply Forall_cons in HK as [Hpk HK].
  destruct HG as [Hn HG]. destruct HT as (M & HI & HM).
  destruct (mpt_insert_inv G T t M (sha3_256 pk) (ser_atom a) Ginj HI (sha3_key pk) Hn)
    as (T1 & r & Hins & Hr & HI1 & Hk1).
  destruct (IH T1 (t_insert t (key_to_nibbles (sha3_256 pk)) (ser_atom a)) (<[pk := a]> m))
    as (T' & Hall & Hc & Hk & Hne).
  { eexists. split; [exact HI1|by apply image_insert]. }
  { done. }
  { exact HG. }
  exists T'. unfold encode_updates. rewrite fmap_cons. cbn [insert_all fst snd]. rewrite Hins.
  split_and!; [exact Hall|exact Hc|by eapply keeps_roots_trans|].
  intros _. destruct l as [|p l]; [|by apply Hne]. cbn in Hall. injection Hall as <-. by rewrite Hr.
Qed.

Lemma trie_updates_encode cs : trie_updates cs = encode_updates (btree_to_list (inner cs)).
Proof. done. Qed.

(** The storage after the commit of [cs] at height [i], with the new trie [T]. *)
Definition committed st cs (i : Z) T (r : bytes) : PrimusStorage :=
  MkStorage
    (db_set_root i r (db_set_contracts (contracts cs ∪ db_contracts (db st))
       (db_set_atoms (inner cs ∪ db_atoms (db st)) (db st))))
    T (Some r)
    (match mroot (mpt st) with Some old => <[i := old]> (gc_log st) | None => gc_log st end).

Lemma commit_changeset_inv st t m cs i :
  commits_to (mpt st) t m → Forall K (sorted_keys cs) → inserts_in t (trie_updates cs) →
  (inner cs = ∅ → mroot (mpt st) ≠ None) →
  ∃ T' r, commit_changeset st cs i = (committed st cs i T' r, Ok r) ∧ mroot T' = Some r ∧
    commits_to T' (tree_after t (trie_updates cs)) (inner cs ∪ m) ∧
    keeps_roots G (store (mpt st)) (store T').
Proof using Ginj sha3_bytes sha3_inj.
  intros HT HK HG Hne. rewrite trie_updates_encode in *.
  destruct (insert_all_inv _ _ _ _ HT HK HG) as (T' & Hall & Hc & Hk & Hr).
  rewrite foldl_btree_union in Hc. assert (is_Some (mroot T')) as [r Hroot].
  { destruct (btree_to_list (inner cs)) as [|p l] eqn:E.
    - cbn in Hall. injection Hall as <-. destruct (mroot (mpt st)) eqn:Em; [done|].
      exfalso. apply (Hne ltac:(rewrite <-(btree_to_list_to_map (inner cs)), E; done) eq_refl).
    - destruct (mroot T') as [r|]; [by exists r|]. by destruct (Hr ltac:(done)). }
  exists T', r. split_and!; try done. unfold commit_changeset. rewrite trie_updates_encode, Hall.
  cbv zeta. rewrite !foldl_btree_union, Hroot. done.
Qed.

(** What [commit_changeset] promises: the trie, the root on disk and the atoms on disk agree. *)
Record storage_ok t st : Prop := {
  sk_commits : commits_to (mpt st) t (db_atoms (db st));
  sk_root : st_root st = mroot (mpt st);
  sk_disk : db_mpt_root (db st) = st_root st;
}.

Lemma storage_ok_empty : storage_ok TEmpty (storage_open db_empty (MkSledMptStore ∅) ∅).
Proof.
  split; [|done|done]. exists ∅. split; [|apply image_empty]. apply trie_inv_empty. simpl. by rewrite fmap_empty.
Qed.

Lemma committed_ok st t cs i T' r :
  mroot T' = Some r → commits_to T' t (inner cs ∪ db_atoms (db st)) → storage_ok t (committed st cs i T' r).
Proof. by split. Qed.

(** A commit that writes no atom while the trie is empty. *)
Lemma commit_empty st cs i :
  inner cs = ∅ → mroot (mpt st) = None →
  commit_changeset st cs i =
    (MkStorage
       (db_set_root i zero32 (db_set_contracts (contracts cs ∪ db_contracts (db st)) (db st)))
       (mpt st) (Some zero32) (gc_log st), Ok zero32).
Proof.
  intros Hcs Hm. unfold commit_changeset, trie_updates. rewrite !foldl_btree_union.
  assert (btree_to_list (inner cs) = []) as ->.
  { apply Permutation_nil. by rewrite btree_to_list_perm, Hcs, map_to_list_empty. }
  cbn [fmap list_fmap insert_all foldl]. rewrite Hm, Hcs, (left_id_L ∅ (∪)). by destruct (db st).
Qed.

(** C15. On a storage whose trie commits to the atoms on disk, and when SHA3-256 and the node
    hash do not collide among the keys and the nodes in play, a commit never fails.  When it
    writes an atom or the trie is not empty it leaves such a storage: the new root is recorded
    for its height, the old one for the collector, and every root that was readable stays so.
    When it writes no atom and the trie is empty it records 32 zeros as the root, of which
    there is no trie: it still succeeds, but the storage it leaves, in which the trie in memory
    has no root, no longer agrees with itself. *)
Theorem commit_changeset_correct st t cs i :
  storage_ok t st → Forall K (sorted_keys cs) → inserts_in t (trie_updates cs) →
  ∃ st' r, commit_changeset st cs i = (st', Ok r) ∧
    db_atoms (db st') = inner cs ∪ db_atoms (db st) ∧
    db_contracts (db st') = contracts cs ∪ db_contracts (db st) ∧
    current_root st' = r ∧ db_root_at (db st') = <[i := r]> (db_root_at (db st)) ∧
    (∀ old, mroot (mpt st) = Some old → gc_log st' !! i = Some old) ∧
    keeps_roots G (store (mpt st)) (store (mpt st')) ∧
    (inner cs ≠ ∅ ∨ mroot (mpt st) ≠ None → storage_ok (tree_after t (trie_updates cs)) st') ∧
    (inner cs = ∅ → mroot (mpt st) = None → r = zero32 ∧ mpt st' = mpt st ∧ ∀ t', ¬ storage_ok t' st').
Proof using Ginj sha3_bytes sha3_inj.
  intros [HT _ _] HK HG. destruct (decide (inner cs = ∅ ∧ mroot (mpt st) = None)) as [[Hcs Hm]|Hd].
  - rewrite commit_empty by done. eexists _, _. split; [done|]. cbn. rewrite Hcs.
    split_and!; [by rewrite (left_id_L ∅ (∪))|done|done|done|by rewrite Hm|apply keeps_roots_refl|
                 by intros [?|?]|].
    intros _ _. split_and!; [done|done|]. intros t' [_ Hr _]. cbn in Hr. congruence.
  - assert (Hne : inner cs = ∅ → mroot (mpt st) ≠ None) by (intros H1 H2; by apply Hd).
    destruct (commit_changeset_inv _ _ _ cs i HT HK HG Hne) as (T' & r & Hc & Hr & HT' & Hk).
    eexists _, r. split_and!; [exact Hc|done..| |done|by intros _; apply committed_ok|by intros H1 H2; destruct Hd].
    intros old Hold. simpl. rewrite Hold. apply lookup_insert_eq.
Qed.

(** Proofs are served from the root and the nodes on disk. *)
Theorem get_proof_correct st t pk :
  storage_ok t st → K pk →
  ∃ pr, get_proof st pk = Ok pr ∧ root pr = current_root st ∧
    value pr = ser_atom <$> storage_get_atom st pk ∧
    (distinct_extensions (path pr) → verify_proof pr = true).
Proof using Ginj sha3_bytes sha3_inj.
  intros [(M & HI & HM) Hr _] Hpk. unfold get_proof. rewrite Hr.
  assert (with_root_opt (store (mpt st)) (mroot (mpt st)) = mpt st) as -> by (by destruct (mpt st)).
  destruct (prove_inv G (mpt st) t M (sha3_256 pk) HI (sha3_key pk)) as (pr & Hp & Hv & Hroot & Hver).
  exists pr. split_and!; [done| |by rewrite Hv, (im_fwd _ _ HM)|done].
  unfold current_root. by rewrite Hr.
Qed.

(** *** Operations that do not touch the atoms *)
Lemma prune_one_ok t st idx : storage_ok t st → storage_ok t (prune_one st idx).
Proof.
  intros [(M & HI & HM) Hr Hd]. unfold prune_one. cbv zeta.
  destruct (gc_log (delete_undo_log idx st) !! idx) as [old|]; [|by split; [exists M| |]].
  case_bool_decide; [|by split; [exists M| |]].
  destruct (gc_since_safe G (mpt st) t M old HI) as [HI' Hroot].
  split; [by exists M|simpl; by rewrite Hroot|done].
Qed.

Lemma prune_ok t st h : storage_ok t st → storage_ok t (prune_undo_window st h).
Proof.
  unfold prune_undo_window. case_match; [done|]. generalize (seqZ 0 (h - UNDO_WINDOW)).
  intros l. revert st; induction l as [|i l IH]; intros st Hst; [done|]. cbn [foldl]. by apply IH, prune_one_ok.
Qed.
End correctness.

(** Pruning and the side tables leave the atoms alone. *)
Lemma prune_one_db st idx `{HA : Hashes} `{NC : NodeCodec} :
  db (prune_one st idx) = db_set_undo (delete idx (db_undo (db st))) (db st).
Proof. unfold prune_one. cbv zeta. by destruct (gc_log _ !! idx). Qed.
