(* ===== verification/Engine.v ===== *)
(** The engine of a node (primus-core engine.rs): the genesis file, the engine's state,
    the preparation of a block and the difficulty of an epoch.

    Arithmetic on u64 wraps as in a release build.  The wall clock, the contents of
    genesis.toml and the seed of the environment are arguments. *)
From S2P Require Import Prelude Floats Types Mpt State Physics Pvm Crystal Chamber Storage Text.
Open Scope Z_scope.

Definition DIFFICULTY_EPOCH : Z := 100.
Definition DIFFICULTY_CLAMP : f32 * f32 := (f32_lit 1 4, f32_of_Z 64).

(** ** GenesisConfig *)
Record GenesisConfig := MkGenesis {
  initial_supply : Z;
  genesis_timestamp : Z;
  server_seed_env : bytes;
}.

Definition genesis_line (config : GenesisConfig) (line : bytes) : GenesisConfig :=
  let line := trim_by is_space line in
  let config :=
    match strip_prefix (bytes_of_string "initial_supply = ") line ≫= parse_u64 with
    | Some v => MkGenesis v (genesis_timestamp config) (server_seed_env config)
    | None => config
    end in
  let config :=
    match strip_prefix (bytes_of_string "timestamp = ") line ≫= parse_u64 with
    | Some v => MkGenesis (initial_supply config) v (server_seed_env config)
    | None => config
    end in
  match strip_prefix (bytes_of_string "server_seed_env = ") line with
  | Some val => MkGenesis (initial_supply config) (genesis_timestamp config) (trim_by (λ b, b =? 34) val)
  | None => config
  end.

Definition genesis_base : GenesisConfig :=
  MkGenesis 1000000000 1735689600 (bytes_of_string "PRIMUS_SERVER_SEED").
(** `GenesisConfig::default`, on the contents of genesis.toml. *)
Definition genesis_config (content : bytes) : GenesisConfig :=
  foldl genesis_line genesis_base (split_lines content).

(** ** PrimusEngine *)
Record PrimusEngine := MkEngine {
  storage : PrimusStorage;
  eng_state : StateTree;
  chamber : ReactionChamber;
  target_block_time : Z;
  eng_architect_pk : bytes;
  is_syncing : bool;
  sync_target : Z;
  epoch_difficulty : f32;
}.

Definition set_storage (st : PrimusStorage) (e : PrimusEngine) : PrimusEngine :=
  MkEngine st (eng_state e) (chamber e) (target_block_time e) (eng_architect_pk e) (is_syncing e)
    (sync_target e) (epoch_difficulty e).
Definition set_state (s : StateTree) (e : PrimusEngine) : PrimusEngine :=
  MkEngine (storage e) s (chamber e) (target_block_time e) (eng_architect_pk e) (is_syncing e)
    (sync_target e) (epoch_difficulty e).
Definition set_chamber (c : ReactionChamber) (e : PrimusEngine) : PrimusEngine :=
  MkEngine (storage e) (eng_state e) c (target_block_time e) (eng_architect_pk e) (is_syncing e)
    (sync_target e) (epoch_difficulty e).
Definition set_epoch_difficulty (d : f32) (e : PrimusEngine) : PrimusEngine :=
  MkEngine (storage e) (eng_state e) (chamber e) (target_block_time e) (eng_architect_pk e) (is_syncing e)
    (sync_target e) d.

(** Assignments to fields of the state and the chamber. *)
Definition set_index (i : Z) (s : StateTree) : StateTree := MkStateTree (atoms s) i (global_metrics s).
Definition set_atoms (m : gmap bytes Atom) (s : StateTree) : StateTree :=
  MkStateTree m (current_crystal_index s) (global_metrics s).
Definition set_metrics (g : GlobalMetrics) (s : StateTree) : StateTree :=
  MkStateTree (atoms s) (current_crystal_index s) g.
Definition set_thermo (t en : f32) (c : ReactionChamber) : ReactionChamber :=
  MkChamber (volatile_reactions c) t en (expansion_factor c) (total_binding_energy c) (ch_base_difficulty c).
Definition set_volatile (l : list SignedReaction) (c : ReactionChamber) : ReactionChamber :=
  MkChamber l (ch_temperature c) (ch_entropy c) (expansion_factor c) (total_binding_energy c)
    (ch_base_difficulty c).

(** The temperature the proof of work is measured against. *)
Definition pow_temp (raw_temp : f32) : f32 := f32_of_f64 (to_vm_thermal (f64_of_f32 raw_temp)).

Section engine.
Context {HA : Hashes} {NC : NodeCodec} {AC : AtomCodec}.
Implicit Types e : PrimusEngine.

(** *** Genesis *)
Definition genesis_crystal (config : GenesisConfig) (root : bytes) : Crystal :=
  MkCrystal 0 zero32 (genesis_timestamp config) 0 [] [] (f32_of_Z 0) root (f32_of_Z 1000) (f32_lit 1 2).

Definition genesis_atom (config : GenesisConfig) (architect : bytes) : Atom :=
  set_mass (initial_supply config) (new_materialized architect Hydrogen).

Definition try_auto_genesis (content : bytes) e : PrimusEngine * result unit StorageError :=
  if negb (bool_decide (atoms (eng_state e) = ∅)) then (e, Ok tt)
  else
    let config := genesis_config content in
    let cs := cs_insert (eng_architect_pk e) (genesis_atom config (eng_architect_pk e)) cs_new in
    let e := set_state (apply_changeset (eng_state e) cs) e in
    match commit_changeset (storage e) cs (current_crystal_index (eng_state e)) with
    | (st, Err err) => (set_storage st e, Err err)
    | (st, Ok _) => (set_storage (save_crystal (genesis_crystal config (current_root st)) st) e, Ok tt)
    end.

Definition engine_new (content : bytes) (st : PrimusStorage) (architect : bytes) (s : StateTree)
    : PrimusEngine * result unit StorageError :=
  let c := set_thermo (temperature (global_metrics s)) (entropy (global_metrics s)) chamber_new in
  try_auto_genesis content (MkEngine st s c 10 architect false 0 (f32_of_Z 1)).

(** *** Block preparation *)
Record Prepared := MkPrepared {
  last_index : Z;
  parent_hash : bytes;
  inherited_energy : f32;
  deterministic_timestamp : Z;
  prepared_gravity : GravityEngine;
}.

Definition prepare_difficulty e (now parent_timestamp : Z) : f32 :=
  let time_diff := if 0 <? parent_timestamp then u64_saturating_sub now parent_timestamp
                   else target_block_time e in
  let difficulty := if time_diff <? target_block_time e then f32_lit 12 10 else f32_lit 95 100 in
  let difficulty := f32_add difficulty (f32_mul (ch_entropy (chamber e)) (f32_lit 5 1000)) in
  if fp_gt (ch_temperature (chamber e)) (f32_of_Z 100) then f32_mul difficulty (f32_lit 15 10) else difficulty.

(** [seed] is the seed of the environment or the default one. *)
Definition prepare_next_physical_state (now : Z) (seed : bytes) e : PrimusEngine * Prepared :=
  let last_block := get_crystal_latest (storage e) in
  let '(e, last_index, prev_hash, energy, parent_timestamp) :=
    match last_block with
    | Some block =>
        (set_chamber (inherit_history block (chamber e)) e, index block, calculate_density block,
         cumulative_energy block, cr_timestamp block)
    | None => (set_chamber (update_expansion (f32_lit 110 100) (chamber e)) e, 0, zero32, f32_of_Z 0, 0)
    end in
  let ts := if 0 <? parent_timestamp then u64_wrapping_add parent_timestamp (target_block_time e) else now in
  let difficulty := prepare_difficulty e now parent_timestamp in
  (e, MkPrepared last_index prev_hash energy ts (MkGravity seed (f32_mul (f32_lit 92 100) difficulty))).

(** *** Epoch difficulty *)
Definition calculate_epoch_difficulty e : f32 :=
  let current_height := current_crystal_index (eng_state e) in
  if current_height <? DIFFICULTY_EPOCH then epoch_difficulty e
  else
    let epoch_start := u64_saturating_sub current_height DIFFICULTY_EPOCH in
    let start_ts := from_option cr_timestamp 0 (get_crystal (storage e) epoch_start) in
    let end_ts := from_option cr_timestamp 0 (get_crystal_latest (storage e)) in
    if (start_ts =? 0) || (end_ts <=? start_ts) then epoch_difficulty e
    else
      let elapsed := f32_of_Z (end_ts - start_ts) in
      let ideal := f32_mul (f32_of_Z DIFFICULTY_EPOCH) (f32_of_Z (target_block_time e)) in
      let ratio := f32_div ideal elapsed in
      fp_clamp (f32_mul (epoch_difficulty e) ratio) DIFFICULTY_CLAMP.1 DIFFICULTY_CLAMP.2.

(** *** The mining reward *)
Definition build_mining_reward_rx e (crystal_index : Z) : option SignedReaction :=
  architect ← state_get_atom (eng_state e) (eng_architect_pk e);
  Some (MkReaction architect architect (mining_reward_hash crystal_index (eng_architect_pk e))
          (f32_of_Z 0) 0 [] (MiningReward 10)).
End engine.
