(* ===== verification/Processor.v ===== *)
(** The block processor (primus-core processor.rs): reactions and crystals from the
    network, solidification, and chain reorganisation.

    A function on `&mut PrimusEngine` returns the engine as it leaves it, also when it
    fails.  A sled transaction is one update of the database. *)
From S2P Require Import Prelude Floats Types Mpt State Physics Pvm Crystal Chamber Storage Engine.
Open Scope Z_scope.

Inductive ProcessorError :=
| PhantomSender
| ChamberOverheat
| ParentMismatch
| GapDetected (tip received : Z)
| PowInvalid (i : Z)
| PvmFailed (err : PvmError)
| CommitFailed (err : StorageError)
| StateRootMismatch (i : Z)
| EmptyChain
| FinalityExceeded (depth : Z)
| UndoLogMissing (i : Z).

(** The process: the state loaded from disk, and the engine over it. *)
Definition load_state (st : PrimusStorage) : StateTree :=
  let s := state_load state_new (get_all_atoms st) (default metrics_default (get_global_metrics st)) in
  match get_crystal_latest st with
  | Some last_block => set_index (index last_block) s
  | None => s
  end.

Section processor.
Context {HA : Hashes} {NC : NodeCodec} {AC : AtomCodec} {CV : CryptoVerifier}.
Implicit Types (e : PrimusEngine) (c : Crystal).

Definition processor_new (content : bytes) (d : Db) (nodes : SledMptStore) (log : gmap Z bytes)
    (architect : bytes) : PrimusEngine * result unit StorageError :=
  let st := storage_open d nodes log in engine_new content st architect (load_state st).

Definition process_network_reaction e (rx : SignedReaction) : PrimusEngine * result unit ProcessorError :=
  if bool_decide (state_get_atom (eng_state e) (public_key (sender rx)) = None)
     && negb (bool_decide (public_key (sender rx) = eng_architect_pk e))
  then (e, Err PhantomSender)
  else if should_engage_gravity_shield (f64_of_f32 (ch_temperature (chamber e)))
  then (e, Err ChamberOverheat)
  else (set_chamber (inject_reaction rx (chamber e)) e, Ok tt).

Definition verify_pow e c : result unit ProcessorError :=
  if check_proof_of_work c (pow_temp (ch_temperature (chamber e))) (epoch_difficulty e) then Ok tt
  else Err (PowInvalid (index c)).

(** `engine.storage`'s contracts are what the machine's state view loads. *)
Definition engine_execute e (rxs : list SignedReaction) : pvm_result (Changeset * f32) :=
  core_execute_payload (eng_state e) (db_contracts (db (storage e))) rxs (ch_temperature (chamber e))
    (eng_architect_pk e).

(** The writes that follow a matching state root. *)
Definition solidify e (cs : Changeset) (consumed : f32) (pre_state_root : bytes) c : PrimusEngine :=
  let undo := make_undo (index c) pre_state_root (atoms (eng_state e)) cs in
  let st := save_undo_log undo (storage e) in
  let ch := chamber e in
  let ch := set_thermo (ch_temperature ch) (f32_add (ch_entropy ch) consumed) ch in
  let metrics := MkMetrics (ch_temperature ch) (ch_entropy ch) in
  let s := set_metrics metrics (eng_state e) in
  let st := save_global_metrics metrics st in
  let st := save_crystal c st in
  let s := apply_changeset s cs in
  let ch := set_volatile
      (filter (λ r, reaction_hash r ∉ reactions c) (volatile_reactions ch)) ch in
  let ch := inherit_history c ch in
  let st := prune_undo_window st (current_crystal_index s) in
  set_chamber ch (set_state s (set_storage st e)).

(** Returns the crystal too: its root is filled in when it is zero. *)
Definition finalize_solidification e c : PrimusEngine * result Crystal ProcessorError :=
  let old_index := current_crystal_index (eng_state e) in
  let pre_state_root := current_root (storage e) in
  let e := set_state (set_index (index c) (eng_state e)) e in
  let rewind e := set_state (set_index old_index (eng_state e)) e in
  match engine_execute e (reactions_data c) with
  | Err err => (rewind e, Err (PvmFailed err))
  | Ok (cs, consumed) =>
      match commit_changeset (storage e) cs (index c) with
      | (st, Err err) => (set_storage st e, Err (CommitFailed err))
      | (st, Ok calculated_root) =>
          let e := set_storage st e in
          if bool_decide (state_root c = zero32) then
            let c := set_state_root calculated_root c in
            (solidify e cs consumed pre_state_root c, Ok c)
          else if bool_decide (state_root c = calculated_root) then
            (solidify e cs consumed pre_state_root c, Ok c)
          else (rewind e, Err (StateRootMismatch (index c)))
      end
  end.

(** ** Reorganisation *)
(** `sort_by_key(|c| c.index)`: stable, by increasing height. *)
Fixpoint insert_by_index c (l : list Crystal) : list Crystal :=
  match l with
  | [] => [c]
  | y :: l' => if index c <=? index y then c :: l else y :: insert_by_index c l'
  end.
Definition sort_by_index (l : list Crystal) : list Crystal := foldr insert_by_index [] l.

(** Step 1: the loop down from [candidate]. *)
Fixpoint find_ancestor (st : PrimusStorage) (prev : bytes) (candidate : nat) : Z :=
  let found := match get_crystal st (Z.of_nat candidate) with
               | Some local_block => bool_decide (prev = calculate_density local_block)
               | None => false
               end in
  if found then Z.of_nat candidate
  else match candidate with
       | O => 0
       | S candidate => find_ancestor st prev candidate
       end.

(** Step 2: the undo logs of the heights [ancestor + n] down to [ancestor + 1]. *)
Fixpoint collect_undo (st : PrimusStorage) (ancestor : Z) (n : nat) : result (list (Z * UndoLog)) ProcessorError :=
  match n with
  | O => Ok []
  | S n' =>
      let h := ancestor + Z.of_nat n in
      let? undo := ok_or (get_undo_log st h) (UndoLogMissing h) in
      let? rest := collect_undo st ancestor n' in
      Ok ((h, undo) :: rest)
  end.

(** Steps 3 and 4, in memory and in one transaction on disk. *)
Definition rollback_atoms (m : gmap bytes Atom) (logs : list (Z * UndoLog)) : gmap bytes Atom :=
  foldl (λ m p, restore_map m (pre_images p.2)) m logs.
Definition rollback_db (d : Db) (logs : list (Z * UndoLog)) : Db :=
  let d := db_set_atoms (rollback_atoms (db_atoms d) logs) d in
  let d := db_set_crystals (foldl (λ m p, delete p.1 m) (db_crystals d) logs) (db_latest d) d in
  db_set_undo (foldl (λ m p, delete p.1 m) (db_undo d) logs) d.
Definition rollback e (logs : list (Z * UndoLog)) (ancestor : Z) : PrimusEngine :=
  let s := set_atoms (rollback_atoms (atoms (eng_state e)) logs) (eng_state e) in
  set_state (set_index ancestor s) (set_storage (upd_db (λ d, rollback_db d logs) (storage e)) e).

(** Step 5. *)
Fixpoint apply_chain e (new_chain : list Crystal) : PrimusEngine * result unit ProcessorError :=
  match new_chain with
  | [] => (e, Ok tt)
  | c :: new_chain =>
      match verify_pow e c with
      | Err err => (e, Err err)
      | Ok _ =>
          match finalize_solidification e c with
          | (e, Err err) => (e, Err err)
          | (e, Ok _) => apply_chain e new_chain
          end
      end
  end.

Definition rollback_depth (local_tip fork_base : Z) : Z :=
  u64_saturating_sub local_tip (u64_saturating_sub fork_base 1).

Definition perform_reorg e (new_chain : list Crystal) : PrimusEngine * result unit ProcessorError :=
  match sort_by_index new_chain with
  | [] => (e, Err EmptyChain)
  | (fork_base :: _) as new_chain =>
      let local_tip := current_crystal_index (eng_state e) in
      let depth := rollback_depth local_tip (index fork_base) in
      if FINALITY_DEPTH <? depth then (e, Err (FinalityExceeded depth))
      else
        let ancestor := find_ancestor (storage e) (prev_hash fork_base)
                          (Z.to_nat (u64_saturating_sub (index fork_base) 1)) in
        match collect_undo (storage e) ancestor (Z.to_nat (local_tip - ancestor)) with
        | Err err => (e, Err err)
        | Ok logs =>
            match apply_chain (rollback e logs ancestor) new_chain with
            | (e, Err err) => (e, Err err)
            | (e, Ok _) =>
                let ch := chamber e in
                (set_chamber (set_thermo (f32_mul (ch_temperature ch) (f32_lit 85 100))
                                (f32_mul (ch_entropy ch) (f32_lit 90 100)) ch) e, Ok tt)
            end
        end
  end.

(** *** Crystals from the network *)
Definition accept_crystal e c : PrimusEngine * result unit ProcessorError :=
  match verify_pow e c with
  | Err err => (e, Err err)
  | Ok _ => let '(e, r) := finalize_solidification e c in (e, let? _ := r in Ok tt)
  end.

Definition process_network_crystal e (incoming : Crystal) : PrimusEngine * result unit ProcessorError :=
  match get_crystal_latest (storage e) with
  | Some last_local =>
      let next := u64_wrapping_add (index last_local) 1 in
      if index incoming =? next then
        if bool_decide (prev_hash incoming = calculate_density last_local) then accept_crystal e incoming
        else if fp_gt (cumulative_energy incoming) (f32_add (cumulative_energy last_local) (f32_of_Z 1))
        then perform_reorg e [incoming]
        else (e, Err ParentMismatch)
      else if (index incoming =? index last_local)
              && fp_gt (cumulative_energy incoming) (cumulative_energy last_local)
      then perform_reorg e [incoming]
      else if next <? index incoming then (e, Err (GapDetected (index last_local) (index incoming)))
      else (e, Ok tt)
  | None => accept_crystal e incoming
  end.
End processor.
