(* ===== verification/ProcessorFacts.v ===== *)
(** Correctness of the block processor: the invariant of a node, what solidification does
    on every path, restart, and the rollback of a reorganisation. *)
From S2P Require Import Prelude Floats Types Mpt MptTree MptFacts MptGc State Physics Pvm Crystal Chamber.
From S2P Require Import Storage Engine Processor.
Open Scope Z_scope.

#[local] Arguments prune_undo_window : simpl never.

(** ** What a write set and its bookkeeping do to the tables *)
Section tables.
Context {HA : Hashes} {NC : NodeCodec} {AC : AtomCodec} {CV : CryptoVerifier}.
Implicit Types (st : PrimusStorage) (cs : Changeset) (e : PrimusEngine) (c : Crystal).

Lemma prune_db st h :
  ∃ u, db (prune_undo_window st h) = db_set_undo u (db st) ∧
    ∀ i, h - UNDO_WINDOW ≤ i → u !! i = db_undo (db st) !! i.
Proof.
  unfold prune_undo_window. destruct (Z.leb_spec h UNDO_WINDOW).
  { exists (db_undo (db st)). split; [by destruct (db st)|done]. }
  assert (Hl : Forall (λ i, i < h - UNDO_WINDOW) (seqZ 0 (h - UNDO_WINDOW)))
    by (apply Forall_forall; intros i Hi%elem_of_seqZ; lia).
  induction Hl as [|i l Hi _ IH] in st |- *; cbn [foldl].
  { exists (db_undo (db st)). split; [by destruct (db st)|done]. }
  destruct (IH (prune_one st i)) as (u & Hu & Hv). exists u. rewrite Hu, prune_one_db. split; [done|].
  intros j Hj. rewrite Hv, prune_one_db by done. simpl. apply lookup_delete_ne. lia.
Qed.

Lemma prune_root st h : st_root (prune_undo_window st h) = st_root st.
Proof.
  unfold prune_undo_window. case_match; [done|]. generalize (seqZ 0 (h - UNDO_WINDOW)). intros l.
  revert st; induction l as [|i l IH]; intros st; [done|]. cbn [foldl]. rewrite IH.
  unfold prune_one. cbv zeta. by case_match.
Qed.

Lemma commit_Ok_inv st cs i st' r :
  commit_changeset st cs i = (st', Ok r) → ∃ T', st' = committed st cs i T' r ∧ r = default zero32 (mroot T').
Proof.
  unfold commit_changeset. destruct (insert_all (mpt st) (trie_updates cs)) as [T' [[]|]]; [|done].
  cbv zeta. rewrite !foldl_btree_union. intros [= <- <-]. by exists T'.
Qed.

(** The success of [finalize_solidification]. *)
Lemma finalize_Ok_inv e c e' c' :
  finalize_solidification e c = (e', Ok c') →
  ∃ cs ce st r, engine_execute (set_state (set_index (index c) (eng_state e)) e) (reactions_data c) = Ok (cs, ce) ∧
    commit_changeset (storage e) cs (index c) = (st, Ok r) ∧ c' = set_state_root r c ∧
    e' = solidify (set_storage st (set_state (set_index (index c) (eng_state e)) e)) cs ce
           (current_root (storage e)) c'.
Proof.
  unfold finalize_solidification. destruct (engine_execute _ _) as [[cs ce]|]; [|done].
  cbn [storage set_state]. destruct (commit_changeset (storage e) cs (index c)) as [st [r|]] eqn:Hc; [|done].
  case_bool_decide as Hz; [|case_bool_decide as Hr; [|done]]; intros [= <- <-]; exists cs, ce, st, r;
    split_and!; try done; subst r; by destruct c.
Qed.

Lemma solidify_state e cs ce root c :
  atoms (eng_state (solidify e cs ce root c)) = inner cs ∪ atoms (eng_state e) ∧
  current_crystal_index (eng_state (solidify e cs ce root c)) = current_crystal_index (eng_state e) .
Proof. split; [|done]. unfold solidify. cbn [eng_state set_chamber set_state]. by rewrite apply_changeset_union. Qed.

(** The tables on disk after a solidification. *)
Lemma solidify_db e cs ce root c :
  let d := db (storage e) in
  let d' := db (storage (solidify e cs ce root c)) in
  db_atoms d' = db_atoms d ∧ db_contracts d' = db_contracts d ∧ db_mpt_root d' = db_mpt_root d ∧
  db_root_at d' = db_root_at d ∧
  db_crystals d' = <[index c := c]> (db_crystals d) ∧ db_latest d' = Some (index c) ∧
  db_metrics d' = Some (global_metrics (eng_state (solidify e cs ce root c))) ∧
  ∀ i, current_crystal_index (eng_state e) - UNDO_WINDOW ≤ i →
    db_undo d' !! i = <[index c := make_undo (index c) root (atoms (eng_state e)) cs]> (db_undo d) !! i.
Proof.
  cbv zeta. unfold solidify. cbn [storage set_chamber set_state set_storage].
  match goal with |- context [prune_undo_window ?st ?h] => destruct (prune_db st h) as (u & -> & Hu) end.
  split_and!; try done. intros i Hi. cbn [db_undo db_set_undo]. rewrite Hu by done. simpl.
  by destruct (make_undo_index (index c) root (atoms (eng_state e)) cs) as [-> _].
Qed.
End tables.

(** ** The invariant of a node *)
Section node.
Context {HA : Hashes} {NC : NodeCodec} {AC : AtomCodec} {CV : CryptoVerifier}.
Context (G : MptNode → Prop) (Ginj : hash_injective_on G).
Context (K : bytes → Prop) (sha3_bytes : ∀ b, Forall is_byte (sha3_256 b)).
Context (sha3_inj : ∀ a b, K a → K b → sha3_256 a = sha3_256 b → a = b).
Implicit Types (e : PrimusEngine) (c : Crystal) (t : tree).

Abbreviation node_storage_ok := (storage_ok G K).

(** Memory, disk and trie agree: the trie commits to the atoms on disk, which are the ones
    in memory, as are the metrics; the last crystal on disk is at the height in memory. *)
Record node_ok t e : Prop := {
  no_storage : node_storage_ok t (storage e);
  no_atoms : atoms (eng_state e) = db_atoms (db (storage e));
  no_metrics : default metrics_default (get_global_metrics (storage e)) = global_metrics (eng_state e);
  no_tip : ∃ c, get_crystal_latest (storage e) = Some c ∧ index c = current_crystal_index (eng_state e);
}.

(** The write set a crystal leads to: it touches accounts of [K], the nodes it writes are
    in [G], and the trie is not empty (it holds the Architect since genesis). *)
Definition writes_ok t e (cs : Changeset) : Prop :=
  Forall K (sorted_keys cs) ∧ inserts_in G t (trie_updates cs) ∧
  (inner cs = ∅ → mroot (mpt (storage e)) ≠ None).

(** The engine at the height of [c], as the machine sees it. *)
Definition at_height e c : PrimusEngine := set_state (set_index (index c) (eng_state e)) e.

Lemma solidify_node_ok t e cs ce root c T' r :
  atoms (eng_state e) = db_atoms (db (storage e)) → current_crystal_index (eng_state e) = index c →
  mroot T' = Some r → commits_to G K T' t (inner cs ∪ db_atoms (db (storage e))) →
  node_ok t (solidify (set_storage (committed (storage e) cs (index c) T' r) e) cs ce root c).
Proof.
  intros Ha Hi Hr HT. set (e1 := set_storage _ e).
  destruct (solidify_db e1 cs ce root c) as (D1 & _ & D3 & _ & D5 & D6 & D7 & _).
  destruct (solidify_state e1 cs ce root c) as (S1 & S2). split.
  - unfold solidify. cbn [storage set_chamber set_state set_storage]. apply prune_ok.
    destruct (committed_ok G K (storage e) t cs (index c) T' r Hr HT). by split.
  - rewrite S1, D1. simpl. by rewrite Ha.
  - unfold get_global_metrics. by rewrite D7.
  - exists c. rewrite S2. split; [|done]. unfold get_crystal_latest, get_crystal. rewrite D6, D5.
    apply lookup_insert_eq.
Qed.

(** The commit inside [finalize_solidification]. *)
Lemma finalize_commit t e c cs :
  node_ok t e → writes_ok t e cs →
  ∃ T' r, commit_changeset (storage (at_height e c)) cs (index c)
          = (committed (storage e) cs (index c) T' r, Ok r) ∧
    mroot T' = Some r ∧ commits_to G K T' (tree_after t (trie_updates cs)) (inner cs ∪ db_atoms (db (storage e))).
Proof using Ginj sha3_bytes sha3_inj.
  intros [[HT _ _] _ _ _] (HK & HG & Hne).
  destruct (commit_changeset_inv G Ginj K sha3_bytes sha3_inj (storage e) t _ cs (index c) HT HK HG Hne)
    as (T' & r & ? & ? & ? & _). by exists T', r.
Qed.

Lemma finalize_inv t e c :
  node_ok t e →
  (∀ err, engine_execute (at_height e c) (reactions_data c) = Err err →
     finalize_solidification e c = (e, Err (PvmFailed err))) ∧
  (∀ cs ce, engine_execute (at_height e c) (reactions_data c) = Ok (cs, ce) → writes_ok t e cs →
     ∃ st root, commit_changeset (storage e) cs (index c) = (st, Ok root) ∧
      (state_root c = zero32 ∨ state_root c = root →
       ∃ e', finalize_solidification e c = (e', Ok (set_state_root root c)) ∧
         node_ok (tree_after t (trie_updates cs)) e' ∧
         current_root (storage e') = root ∧
         atoms (eng_state e') = inner cs ∪ atoms (eng_state e) ∧
         current_crystal_index (eng_state e') = index c)).
Proof using Ginj sha3_bytes sha3_inj.
  intros Hok. unfold finalize_solidification. fold (at_height e c). split.
  { intros err ->. f_equal. by destruct e as [? [] ? ? ? ? ? ?]. }
  intros cs ce -> Hw. destruct (finalize_commit t e c cs Hok Hw) as (T' & r & Hcommit & Hr & HT).
  rewrite Hcommit. eexists _, r. split; [exact Hcommit|]. intros Hroot.
  set (e1 := set_storage (committed (storage e) cs (index c) T' r) (at_height e c)).
  exists (solidify e1 cs ce (current_root (storage e)) (set_state_root r c)). split.
  { case_bool_decide; [done|]. destruct Hroot as [|Hroot]; [done|].
    assert (set_state_root r c = c) as -> by (subst r; by destruct c). by rewrite bool_decide_true. }
  destruct (solidify_state e1 cs ce (current_root (storage e)) (set_state_root r c)) as [S1 S2].
  assert (Hn : node_ok (tree_after t (trie_updates cs))
                 (solidify e1 cs ce (current_root (storage e)) (set_state_root r c))).
  { apply (solidify_node_ok _ (at_height e c) cs ce _ (set_state_root r c) T' r); [apply Hok|done..]. }
  split_and!; [done| |by rewrite S1|by rewrite S2].
  unfold current_root, solidify. cbn [storage set_chamber set_state set_storage]. by rewrite prune_root.
Qed.


(** A crystal with a wrong state root is refused only after its write set has been
    committed: memory keeps the old atoms, the trie and the atoms on disk hold the new
    ones, so that the node no longer agrees unless the write set changed nothing. *)
Theorem root_mismatch_diverges t e c cs ce :
  node_ok t e → engine_execute (at_height e c) (reactions_data c) = Ok (cs, ce) → writes_ok t e cs →
  ∃ st root, commit_changeset (storage e) cs (index c) = (st, Ok root) ∧
    (state_root c ≠ zero32 → state_root c ≠ root →
    ∃ e', finalize_solidification e c = (e', Err (StateRootMismatch (index c))) ∧
      eng_state e' = eng_state e ∧
      current_root (storage e') = root ∧
      db_atoms (db (storage e')) = inner cs ∪ atoms (eng_state e) ∧
      (¬ inner cs ⊆ atoms (eng_state e) → ¬ ∃ t', node_ok t' e')).
Proof using Ginj sha3_bytes sha3_inj.
  intros Hok Hx Hw. unfold finalize_solidification. fold (at_height e c). rewrite Hx.
  destruct (finalize_commit t e c cs Hok Hw) as (T' & r & Hcommit & Hr & HT). rewrite Hcommit.
  eexists _, r. split; [exact Hcommit|]. intros Hz Hroot.
  rewrite !bool_decide_false by done. eexists. split; [done|].
  assert (Hs : set_index (current_crystal_index (eng_state e)) (set_index (index c) (eng_state e)) = eng_state e)
    by (by destruct (eng_state e)).
  split_and!; [exact Hs|done|simpl; by rewrite (no_atoms _ _ Hok)|].
  intros Hnot [t' [_ Ha _ _]]. apply Hnot. revert Ha. cbn -[set_index]. rewrite Hs, <-(no_atoms _ _ Hok).
  intros ->. apply map_union_subseteq_l.
Qed.

(** *** Start and restart *)
Lemma restart_inv t e content pk :
  node_ok t e → atoms (eng_state e) ≠ ∅ → (∀ k, K k → k ≠ []) →
  let st := storage e in
  ∃ e', processor_new content (db st) (store (mpt st)) (gc_log st) pk = (e', Ok tt) ∧
    storage e' = st ∧ eng_state e' = eng_state e ∧ eng_architect_pk e' = pk.
Proof.
  intros [[(M & HI & HM) Hr Hd] Ha Hm (c & Hc & Hi)] Hne HK. cbv zeta.
  assert (Hopen : storage_open (db (storage e)) (store (mpt (storage e))) (gc_log (storage e)) = storage e).
  { unfold storage_open. rewrite Hd, Hr. destruct (storage e) as [d [r s] sr lg]. simpl in *. subst sr. by destruct r. }
  assert (Hatoms : get_all_atoms (storage e) = atoms (eng_state e)).
  { unfold get_all_atoms. rewrite Ha. apply map_filter_id. intros k a Hk. simpl. apply HK, (im_keys _ _ _ HM).
    by exists a. }
  assert (Hload : load_state (storage e) = eng_state e).
  { unfold load_state. rewrite Hc, Hi, Hatoms, Hm. by destruct (eng_state e). }
  unfold processor_new, engine_new, try_auto_genesis. cbv zeta. rewrite Hopen, Hload. cbn [eng_state].
  rewrite bool_decide_false by done. eexists. by split.
Qed.

(** Restarting a node from its disk gives back its storage and its state. *)
Theorem restart_restores t e content :
  node_ok t e → atoms (eng_state e) ≠ ∅ → (∀ pk, K pk → pk ≠ []) →
  let st := storage e in
  ∃ e', processor_new content (db st) (store (mpt st)) (gc_log st) (eng_architect_pk e) = (e', Ok tt) ∧
    storage e' = st ∧ eng_state e' = eng_state e.
Proof. intros Hok Hne HK. destruct (restart_inv t e content (eng_architect_pk e) Hok Hne HK) as (e' & H1 & H2 & H3 & _). by exists e'. Qed.

Lemma genesis_inv content architect :
  let config := genesis_config content in
  let cs := cs_insert architect (genesis_atom config architect) cs_new in
  K architect → inserts_in G TEmpty (trie_updates cs) →
  ∃ e, processor_new content db_empty (MkSledMptStore ∅) ∅ architect = (e, Ok tt) ∧
    node_ok (tree_after TEmpty (trie_updates cs)) e ∧
    atoms (eng_state e) = {[ architect := genesis_atom config architect ]} ∧
    get_crystal_latest (storage e) = Some (genesis_crystal config (current_root (storage e))).
Proof using Ginj sha3_bytes sha3_inj.
  cbv zeta. set (config := genesis_config content).
  set (cs := cs_insert architect (genesis_atom config architect) cs_new). intros HK HG.
  set (st := storage_open db_empty (MkSledMptStore ∅) ∅).
  assert (Hst : node_storage_ok TEmpty st) by apply storage_ok_empty.
  assert (HKs : Forall K (sorted_keys cs)).
  { apply Forall_forall. intros pk ([pk' a] & -> & Hin%elem_of_btree_to_list)%list_elem_of_fmap.
    simpl in Hin. by apply lookup_singleton_Some in Hin as [<- _]. }
  destruct (commit_changeset_inv G Ginj K sha3_bytes sha3_inj st TEmpty _ cs 0 (sk_commits _ _ _ _ Hst) HKs HG)
    as (T' & r & Hc & Hr & HT & _).
  { intros H. exfalso. apply (f_equal (lookup architect)) in H. simpl in H.
    by rewrite lookup_insert_eq, lookup_empty in H. }
  assert (Hempty : get_all_atoms st = ∅) by (apply map_filter_empty).
  unfold processor_new, engine_new, try_auto_genesis. cbv zeta. fold st.
  cbn [eng_state storage eng_architect_pk set_state]. fold config. fold cs.
  rewrite bool_decide_true by exact Hempty. cbn [negb].
  change (current_crystal_index (apply_changeset (load_state st) cs)) with 0. rewrite Hc.
  assert (Hat : atoms (apply_changeset (load_state st) cs) = inner cs).
  { rewrite apply_changeset_union. change (atoms (load_state st)) with (get_all_atoms st).
    rewrite Hempty. apply (right_id_L ∅ (∪)). }
  eexists. split; [done|]. split; [split|split].
  - destruct (committed_ok G K st _ cs 0 T' r Hr HT) as [H1 H2 H3]. split; [exact H1|exact H2|exact H3].
  - cbn [eng_state set_storage set_state storage]. rewrite Hat. simpl. symmetry. apply (right_id_L ∅ (∪)).
  - done.
  - eexists. unfold get_crystal_latest, get_crystal. split; [apply lookup_insert_eq|done].
  - cbn [eng_state set_storage set_state]. by rewrite Hat.
  - unfold get_crystal_latest, get_crystal. apply lookup_insert_eq.
Qed.

(** A node started on an empty disk creates the genesis crystal and an Architect that
    holds the whole supply, and its memory, disk and trie agree. *)
Theorem genesis_correct content architect :
  let config := genesis_config content in
  let cs := cs_insert architect (genesis_atom config architect) cs_new in
  K architect → inserts_in G TEmpty (trie_updates cs) →
  ∃ e, processor_new content db_empty (MkSledMptStore ∅) ∅ architect = (e, Ok tt) ∧
    node_ok (tree_after TEmpty (trie_updates cs)) e ∧
    atoms (eng_state e) = {[ architect := genesis_atom config architect ]} ∧
    get_crystal_latest (storage e) = Some (genesis_crystal config (current_root (storage e))).
Proof using Ginj sha3_bytes sha3_inj. apply genesis_inv. Qed.
End node.

(** ** Reorganisation *)
Section reorg.
Context {HA : Hashes} {NC : NodeCodec} {AC : AtomCodec} {CV : CryptoVerifier}.
Implicit Types (e : PrimusEngine) (c : Crystal).

(** A run of crystals of consecutive heights, solidified one after the other. *)
Inductive solidified e : list Crystal → PrimusEngine → Prop :=
| solidified_nil : solidified e [] e
| solidified_snoc cs e1 c e2 c' :
    solidified e cs e1 → index c = current_crystal_index (eng_state e1) + 1 →
    finalize_solidification e1 c = (e2, Ok c') → solidified e (cs ++ [c]) e2.

Abbreviation height e := (current_crystal_index (eng_state e)).

(** What one solidification leaves behind. *)
Lemma finalize_step e c e' c' :
  finalize_solidification e c = (e', Ok c') →
  ∃ cs root, height e' = index c ∧
    atoms (eng_state e') = inner cs ∪ atoms (eng_state e) ∧
    db_atoms (db (storage e')) = inner cs ∪ db_atoms (db (storage e)) ∧
    get_undo_log (storage e') (index c) = Some (make_undo (index c) root (atoms (eng_state e)) cs) ∧
    (∀ i, index c - UNDO_WINDOW ≤ i → i ≠ index c → get_undo_log (storage e') i = get_undo_log (storage e) i) ∧
    db_crystals (db (storage e')) = <[index c := c']> (db_crystals (db (storage e))) ∧
    db_latest (db (storage e')) = Some (index c).
Proof.
  intros (cs & ce & st & r & _ & Hc & -> & ->)%finalize_Ok_inv.
  apply commit_Ok_inv in Hc as (T' & -> & _). set (e1 := set_storage _ _).
  destruct (solidify_state e1 cs ce (current_root (storage e)) (set_state_root r c)) as [S1 S2].
  destruct (solidify_db e1 cs ce (current_root (storage e)) (set_state_root r c))
    as (D1 & _ & _ & _ & D5 & D6 & _ & D8).
  exists cs, (current_root (storage e)). unfold get_undo_log.
  split_and!; [done|done|done| |intros i Hi Hne|done|done].
  - rewrite D8 by (simpl; unfold UNDO_WINDOW; lia). apply lookup_insert_eq.
  - rewrite D8 by (simpl; lia). simpl. by rewrite lookup_insert_ne.
Qed.

Lemma collect_undo_ext st st' a n :
  (∀ h, a < h ≤ a + Z.of_nat n → get_undo_log st h = get_undo_log st' h) →
  collect_undo st a n = collect_undo st' a n.
Proof.
  induction n as [|n IH]; intros H; [done|]. cbn [collect_undo]. rewrite H by lia.
  rewrite IH; [done|]. intros h Hh. apply H. lia.
Qed.

Lemma collect_undo_heights st a n logs :
  collect_undo st a n = Ok logs → ∀ h, h ∈ logs.*1 ↔ a < h ≤ a + Z.of_nat n.
Proof.
  revert logs; induction n as [|n IH]; intros logs H h; cbn [collect_undo] in H.
  - injection H as <-. simpl. split; [by intros ?%elem_of_nil|lia].
  - apply rbind_Ok in H as (u & _ & H). apply rbind_Ok in H as (rest & Hr & [= <-]).
    rewrite fmap_cons, elem_of_cons, (IH _ Hr). simpl. lia.
Qed.

Lemma foldl_delete_lookup {A} (m : gmap Z A) (logs : list (Z * UndoLog)) h :
  foldl (λ m p, delete p.1 m) m logs !! h = if decide (h ∈ logs.*1) then None else m !! h.
Proof.
  revert m; induction logs as [|[i u] logs IH]; intros m; cbn [foldl].
  - by rewrite decide_False by (apply not_elem_of_nil).
  - rewrite IH, fmap_cons. cbn [fst]. destruct (decide (i = h)) as [->|Hne].
    + rewrite lookup_delete_eq. rewrite (decide_True (P := h ∈ h :: _)) by left. by case_decide.
    + rewrite lookup_delete_ne by done. apply decide_ext. set_solver.
Qed.

(** The undo logs of a run lead back to where it started. *)
Lemma solidified_undo e cs e' :
  solidified e cs e' → (length cs ≤ 9)%nat → atoms (eng_state e) = db_atoms (db (storage e)) →
  height e' = height e + Z.of_nat (length cs) ∧
  atoms (eng_state e') = db_atoms (db (storage e')) ∧
  (∀ h, h ≤ height e → get_crystal (storage e') h = get_crystal (storage e) h) ∧
  (∀ h, height e + Z.of_nat (length cs) < h → get_crystal (storage e') h = get_crystal (storage e) h) ∧
  (cs ≠ [] → db_latest (db (storage e')) = Some (height e')) ∧
  ∃ logs, collect_undo (storage e') (height e) (length cs) = Ok logs ∧
    rollback_atoms (atoms (eng_state e')) logs = atoms (eng_state e).
Proof.
  intros Hs. induction Hs as [|cs e1 c e2 c' Hs IH Hi Hf]; intros Hl Ha.
  { split_and!; [simpl; lia|done|done|done|done|]. by exists []. }
  rewrite length_app in *. cbn [length] in *. destruct IH as (Hh & Ha1 & Hlow & Hhigh & _ & logs & Hc & Hr); [lia|done|].
  destruct (finalize_step _ _ _ _ Hf) as (w & root & F1 & F2 & F3 & F4 & F5 & F6 & F7).
  split_and!.
  - lia.
  - by rewrite F2, F3, Ha1.
  - intros h Hle. rewrite <-Hlow by done. unfold get_crystal. rewrite F6. apply lookup_insert_ne. lia.
  - intros h Hlt. rewrite <-Hhigh by lia. unfold get_crystal. rewrite F6. apply lookup_insert_ne. lia.
  - intros _. by rewrite F7, F1.
  - exists ((index c, make_undo (index c) root (atoms (eng_state e1)) w) :: logs).
    replace (length cs + 1)%nat with (S (length cs)) by lia. cbn [collect_undo].
    replace (height e + Z.of_nat (S (length cs))) with (index c) by lia. rewrite F4. cbn [rbind ok_or].
    rewrite (collect_undo_ext _ (storage e1)), Hc.
    + cbn [rbind]. split; [done|]. unfold rollback_atoms. cbn [foldl snd]. by rewrite F2, undo_restores.
    + intros h Hh'. apply F5; [unfold UNDO_WINDOW; lia|lia].
Qed.

(** C30. Rolling back the last crystals (up to nine, so that their undo logs are still
    kept) restores the atoms in memory and on disk and the height they were built on, and
    removes those crystals and no other. *)
Theorem rollback_restores e cs e' :
  solidified e cs e' → (length cs ≤ 9)%nat → atoms (eng_state e) = db_atoms (db (storage e)) →
  ∃ logs, collect_undo (storage e') (height e) (length cs) = Ok logs ∧
    let r := rollback e' logs (height e) in
    atoms (eng_state r) = atoms (eng_state e) ∧
    db_atoms (db (storage r)) = db_atoms (db (storage e)) ∧
    height r = height e ∧
    (∀ h, get_crystal (storage r) h =
       if decide (height e < h ≤ height e + Z.of_nat (length cs)) then None else get_crystal (storage e) h).
Proof.
  intros Hs Hl Ha. destruct (solidified_undo e cs e' Hs Hl Ha) as (Hh & Ha' & Hlow & Hhigh & _ & logs & Hc & Hr).
  exists logs. split; [done|]. cbv zeta. split_and!; [done| |done|].
  - simpl. rewrite <-Ha', Hr. done.
  - intros h. unfold get_crystal. simpl. rewrite foldl_delete_lookup.
    rewrite (decide_ext (h ∈ logs.*1) _ None (db_crystals (db (storage e')) !! h) (collect_undo_heights _ _ _ _ Hc h)).
    case_decide; [done|]. destruct (decide (h ≤ height e)); [by apply Hlow|apply Hhigh; lia].
Qed.

Lemma find_ancestor_hit st prev i b :
  0 ≤ i → get_crystal st i = Some b → prev = calculate_density b → find_ancestor st prev (Z.to_nat i) = i.
Proof.
  intros Hi Hb ->. destruct (Z.to_nat i) eqn:E; cbn [find_ancestor];
    replace (Z.of_nat _) with i by lia; by rewrite Hb, bool_decide_true.
Qed.

Lemma rollback_forgets_tip e logs a :
  (∃ h, db_latest (db (storage e)) = Some h ∧ h ∈ logs.*1) → get_crystal_latest (storage (rollback e logs a)) = None.
Proof.
  intros (h & Hl & Hin). unfold get_crystal_latest, get_crystal. simpl. rewrite Hl.
  by rewrite foldl_delete_lookup, decide_True.
Qed.

(** C19. A competing crystal on a block at most six below the tip: the node rolls back to
    that block and then applies the competitor.  When it turns out not to be a solution,
    the rolled-back crystals stay lost, and the node takes any solved crystal of any
    height next, since it no longer finds its tip. *)
Theorem reorg_to_fork e cs e' b inc :
  solidified e cs e' → (1 ≤ length cs ≤ 6)%nat → atoms (eng_state e) = db_atoms (db (storage e)) →
  0 ≤ height e → get_crystal (storage e) (height e) = Some b →
  index inc = height e + 1 → prev_hash inc = calculate_density b →
  ∃ r, atoms (eng_state r) = atoms (eng_state e) ∧ db_atoms (db (storage r)) = db_atoms (db (storage e)) ∧
    height r = height e ∧ mpt (storage r) = mpt (storage e') ∧
    (∀ e2, perform_reorg e' [inc] = (e2, Ok tt) →
       ∃ e3 c3, verify_pow e' inc = Ok tt ∧ finalize_solidification r inc = (e3, Ok c3) ∧
         eng_state e2 = eng_state e3 ∧ storage e2 = storage e3) ∧
    (∀ err, verify_pow e' inc = Err err →
       perform_reorg e' [inc] = (r, Err err) ∧
       ∀ c, process_network_crystal r c = accept_crystal r c).
Proof.
  intros Hs Hl Ha H0 Hb Hi Hp.
  destruct (solidified_undo e cs e' Hs ltac:(lia) Ha) as (Hh & Ha' & Hlow & _ & Hlast & logs & Hc & Hr).
  set (r := rollback e' logs (height e)). exists r.
  assert (Hv : verify_pow r inc = verify_pow e' inc) by done.
  assert (Hreorg : perform_reorg e' [inc] =
    match apply_chain r [inc] with
    | (e, Err err) => (e, Err err)
    | (e, Ok _) => (set_chamber (set_thermo (f32_mul (ch_temperature (chamber e)) (f32_lit 85 100))
                      (f32_mul (ch_entropy (chamber e)) (f32_lit 90 100)) (chamber e)) e, Ok tt)
    end).
  { unfold perform_reorg. change (sort_by_index [inc]) with [inc]. cbv beta iota zeta.
    rewrite (proj2 (Z.ltb_ge _ _)) by (unfold rollback_depth, u64_saturating_sub, FINALITY_DEPTH; lia).
    replace (u64_saturating_sub (index inc) 1) with (height e) by (unfold u64_saturating_sub; lia).
    rewrite (find_ancestor_hit _ _ _ b) by (try done; by rewrite Hlow by lia).
    replace (Z.to_nat (height e' - height e)) with (length cs) by lia. by rewrite Hc. }
  split_and!; [done|simpl; by rewrite <-Ha', Hr|done|done| |].
  - intros e2. rewrite Hreorg. cbn [apply_chain]. rewrite Hv. destruct (verify_pow e' inc) as [[]|]; [|done].
    destruct (finalize_solidification r inc) as [e3 [c3|]]; [|done]. intros [= <-]. by exists e3, c3.
  - intros err Herr. rewrite Hreorg. cbn [apply_chain]. rewrite Hv, Herr. split; [done|]. intros c.
    unfold process_network_crystal, r. rewrite rollback_forgets_tip; [done|]. exists (height e').
    split; [apply Hlast; intros ->; simpl in Hl; lia|]. apply (collect_undo_heights _ _ _ _ Hc). lia.
Qed.

(** *** Refusals *)
(** A crystal on the tip, or the first one. *)
Definition extends e c : Prop :=
  match get_crystal_latest (storage e) with
  | Some l => index c = u64_wrapping_add (index l) 1 ∧ prev_hash c = calculate_density l
  | None => True
  end.
(** A crystal of another chain with enough energy for the node to reorganise. *)
Definition competes e c : Prop :=
  ∃ l, get_crystal_latest (storage e) = Some l ∧ ¬ extends e c ∧
    (index c = u64_wrapping_add (index l) 1 ∧
       fp_gt (cumulative_energy c) (f32_add (cumulative_energy l) (f32_of_Z 1)) = true ∨
     index c = index l ∧ fp_gt (cumulative_energy c) (cumulative_energy l) = true).
(** The block the node finds to go back to, and the node gone back to it: all the crystals
    above it are undone, by their own logs. *)
Definition fork_point e c : Z :=
  find_ancestor (storage e) (prev_hash c) (Z.to_nat (u64_saturating_sub (index c) 1)).
Definition gone_back e c e0 : Prop :=
  rollback_depth (height e) (index c) ≤ FINALITY_DEPTH ∧
  ∃ logs, collect_undo (storage e) (fork_point e c) (Z.to_nat (height e - fork_point e c)) = Ok logs ∧
    e0 = rollback e logs (fork_point e c).
(** What [c] is applied to: the node as it is, or gone back. *)
Definition applied_on e c e0 : Prop := extends e c ∧ e0 = e ∨ competes e c ∧ gone_back e c e0.

(** Why a crystal is not applied to [e0], and what is left of it. *)
Definition not_applied e0 c e' (err : ProcessorError) : Prop :=
  match err with
  | PowInvalid i => i = index c ∧ e' = e0
  | PvmFailed x => engine_execute (at_height e0 c) (reactions_data c) = Err x ∧ e' = e0
  | CommitFailed x =>
      ∃ cs ce st, engine_execute (at_height e0 c) (reactions_data c) = Ok (cs, ce) ∧
        commit_changeset (storage e0) cs (index c) = (st, Err x) ∧ e' = set_storage st (at_height e0 c)
  | StateRootMismatch i =>
      i = index c ∧ ∃ cs ce st r, engine_execute (at_height e0 c) (reactions_data c) = Ok (cs, ce) ∧
        commit_changeset (storage e0) cs (index c) = (st, Ok r) ∧
        state_root c ≠ zero32 ∧ state_root c ≠ r ∧ e' = set_storage st e0
  | _ => False
  end.

Lemma finalize_refusal e c e' err :
  finalize_solidification e c = (e', Err err) →
  match err with PowInvalid _ => False | _ => not_applied e c e' err end.
Proof.
  unfold finalize_solidification. cbv zeta. fold (at_height e c).
  destruct (engine_execute _ _) as [[cs ce]|x] eqn:Hx.
  - change (storage (at_height e c)) with (storage e). destruct (commit_changeset _ _ _) as [st [r|x]] eqn:Hc.
    + case_bool_decide; [done|]. case_bool_decide; [done|]. intros [= <- <-]. split; [done|].
      exists cs, ce, st, r. split_and!; try done. by destruct e as [? [] ? ? ? ? ? ?].
    + intros [= <- <-]. by exists cs, ce, st.
  - intros [= <- <-]. split; [done|]. by destruct e as [? [] ? ? ? ? ? ?].
Qed.

Lemma accept_refusal e c e' err :
  accept_crystal e c = (e', Err err) →
  not_applied e c e' err ∧ (∀ i, err = PowInvalid i → verify_pow e c = Err err).
Proof.
  unfold accept_crystal, verify_pow. destruct (check_proof_of_work _ _ _); [|by intros [= <- <-]].
  destruct (finalize_solidification e c) as [e1 [|x]] eqn:E; [done|]. intros [= <- <-].
  apply finalize_refusal in E. split; [by destruct x|]. by intros i ->.
Qed.

Lemma collect_undo_missing st a n err :
  collect_undo st a n = Err err → ∃ h, err = UndoLogMissing h ∧ a < h ≤ a + Z.of_nat n ∧ get_undo_log st h = None.
Proof.
  induction n as [|n IH]; cbn [collect_undo]; [done|].
  destruct (get_undo_log _ _) eqn:Hg; cbn [ok_or rbind].
  - destruct (collect_undo _ _ n) as [|err']; [done|]. intros [= ->].
    destruct (IH eq_refl) as (h & -> & Hh & Hn). exists h. split_and!; [done|lia..|done].
  - intros [= <-]. exists (a + Z.of_nat (S n)). split_and!; [done|lia..|done].
Qed.

(** How a reorganisation that was begun for [c] fails. *)
Lemma reorg_refusal e c e' err :
  perform_reorg e [c] = (e', Err err) →
  match err with
  | FinalityExceeded depth => e' = e ∧ depth = rollback_depth (height e) (index c) ∧ FINALITY_DEPTH < depth
  | UndoLogMissing h => e' = e ∧ fork_point e c < h ≤ height e ∧ get_undo_log (storage e) h = None
  | _ => ∃ e0, gone_back e c e0 ∧ not_applied e0 c e' err ∧ (∀ i, err = PowInvalid i → verify_pow e c = Err err)
  end.
Proof.
  unfold perform_reorg. change (sort_by_index [c]) with [c]. cbv beta iota zeta. fold (fork_point e c).
  destruct (Z.ltb_spec FINALITY_DEPTH (rollback_depth (current_crystal_index (eng_state e)) (index c))) as [Hd|Hd];
    [by intros [= <- <-]|].
  destruct (collect_undo _ _ _) as [logs|err'] eqn:Hc.
  - assert (Hg : gone_back e c (rollback e logs (fork_point e c))) by (split; [exact Hd|by exists logs]).
    set (e0 := rollback e logs (fork_point e c)) in *. cbn [apply_chain].
    change (verify_pow e0 c) with (verify_pow e c). destruct (verify_pow e c) as [[]|x] eqn:Hv.
    + destruct (finalize_solidification e0 c) as [e1 [|x]] eqn:E; [done|]. intros [= <- <-].
      apply finalize_refusal in E. destruct x; try done; exists e0; by split_and!.
    + unfold verify_pow in Hv. destruct (check_proof_of_work _ _ _); [done|]. injection Hv as <-.
      intros [= <- <-]. exists e0. by split_and!.
  - intros [= <- <-]. destruct (collect_undo_missing _ _ _ _ Hc) as (h & -> & Hh & Hn).
    unfold height in *. split_and!; [done|lia..|done].
Qed.

Lemma index_not_next i : i ≠ u64_wrapping_add i 1.
Proof.
  unfold u64_wrapping_add. intros H. assert (Hi : 0 ≤ i < 2 ^ 64) by (rewrite H; by apply Z.mod_pos_bound).
  destruct (decide (i = 2 ^ 64 - 1)) as [->|]; [by vm_compute in H|]. rewrite Z.mod_small in H; lia.
Qed.

Definition refusal e c e' (err : ProcessorError) : Prop :=
  match err with
  | GapDetected tip received =>
      e' = e ∧ received = index c ∧ ¬ extends e c ∧ ¬ competes e c ∧
      ∃ l, get_crystal_latest (storage e) = Some l ∧ tip = index l ∧ u64_wrapping_add tip 1 < received
  | ParentMismatch =>
      e' = e ∧ ¬ extends e c ∧ ¬ competes e c ∧
      ∃ l, get_crystal_latest (storage e) = Some l ∧ index c = u64_wrapping_add (index l) 1
  | FinalityExceeded depth =>
      e' = e ∧ competes e c ∧ depth = rollback_depth (height e) (index c) ∧ FINALITY_DEPTH < depth
  | UndoLogMissing h =>
      e' = e ∧ competes e c ∧ fork_point e c < h ≤ height e ∧ get_undo_log (storage e) h = None
  | _ => ∃ e0, applied_on e c e0 ∧ not_applied e0 c e' err ∧ (∀ i, err = PowInvalid i → verify_pow e c = Err err)
  end.

(** C31. What a refused crystal of the network leaves.  A gap, a wrong parent of too little
    energy, a depth over the limit and a missing undo log change nothing.  A crystal that is
    no solution, or that the machine rejects, changes nothing when it extends the tip; when it
    competes with the tip, it leaves the node rolled back to the fork point that its parent's
    hash leads to, by the undo logs of exactly the crystals above it.  A crystal with another
    state root than the one computed leaves, besides, the storage with its write set
    committed. *)
Theorem refused_crystal e c e' err :
  process_network_crystal e c = (e', Err err) → refusal e c e' err.
Proof.
  intros H.
  assert (Hacc : extends e c → accept_crystal e c = (e', Err err) → refusal e c e' err).
  { intros Hx [Ha Hv]%accept_refusal. destruct err; try done; exists e; split_and!; try done; by left. }
  assert (Hreo : competes e c → perform_reorg e [c] = (e', Err err) → refusal e c e' err).
  { intros Hx Ha%reorg_refusal. destruct err; cbn [refusal];
      try (destruct Ha as (e0 & Hg & Hn & Hv); exists e0; split_and!; [by right|done..]); naive_solver. }
  unfold process_network_crystal in H.
  destruct (get_crystal_latest (storage e)) as [l|] eqn:Hl; [|apply Hacc; [unfold extends; by rewrite Hl|done]].
  cbv zeta in H.
  assert (Hext : extends e c ↔ index c = u64_wrapping_add (index l) 1 ∧ prev_hash c = calculate_density l)
    by (unfold extends; by rewrite Hl).
  assert (Hcom : competes e c ↔ ¬ extends e c ∧
    (index c = u64_wrapping_add (index l) 1 ∧
       fp_gt (cumulative_energy c) (f32_add (cumulative_energy l) (f32_of_Z 1)) = true ∨
     index c = index l ∧ fp_gt (cumulative_energy c) (cumulative_energy l) = true)).
  { unfold competes. rewrite Hl. naive_solver. }
  destruct (Z.eqb_spec (index c) (u64_wrapping_add (index l) 1)) as [Hi|Hi].
  - case_bool_decide as Hp; [by apply Hacc; [apply Hext|]|].
    assert (Hne : ¬ extends e c) by (rewrite Hext; by intros [_ ?]).
    destruct (fp_gt (cumulative_energy c) (f32_add _ _)) eqn:Hgt; [apply Hreo; [apply Hcom; auto|done]|].
    injection H as <- <-. split_and!; [done|done| |by exists l]. rewrite Hcom. intros [_ [[_ ?]|[Hi' _]]]; [congruence|].
    apply (index_not_next (index l)). congruence.
  - assert (Hne : ¬ extends e c) by (rewrite Hext; by intros [? _]).
    destruct ((index c =? index l) && _) eqn:Hgt.
    + apply andb_true_iff in Hgt as [Hil%Z.eqb_eq Hgt]. apply Hreo; [apply Hcom; auto|done].
    + destruct (Z.ltb_spec (u64_wrapping_add (index l) 1) (index c)) as [Hlt|]; [|done].
      injection H as <- <-. split_and!; [done|done|done| |by exists l].
      rewrite Hcom. intros [_ [[? _]|[Hi' Hg]]]; [done|]. by rewrite Hi', Z.eqb_refl, Hg in Hgt.
Qed.
End reorg.

(** *** The trie of a rolled-back node *)
Section stale_trie.
Context {HA : Hashes} {NC : NodeCodec} {AC : AtomCodec} {CV : CryptoVerifier}.
Context (G : MptNode → Prop) (Ginj : hash_injective_on G) (K : bytes → Prop).

(** A rollback does not touch the trie: its root still commits to the atoms of the
    abandoned crystals, so that a rolled-back node whose atoms changed does not agree with
    its own root. *)
Theorem rollback_leaves_trie t e logs a :
  node_ok G K t e → atoms (eng_state (rollback e logs a)) ≠ atoms (eng_state e) →
  current_root (storage (rollback e logs a)) = current_root (storage e) ∧
  commits_to G K (mpt (storage (rollback e logs a))) t (atoms (eng_state e)) ∧
  ¬ ∃ t', node_ok G K t' (rollback e logs a).
Proof using Ginj.
  intros [[HT Hr Hd] Ha Hm Htip] Hne. split_and!; [done|by rewrite Ha|].
  intros [t' [[HT' _ _] Ha' _ _]]. apply Hne. rewrite Ha', Ha.
  by apply (commits_to_inj G Ginj K (mpt (storage e)) t' t).
Qed.
End stale_trie.

(** *** What crystals of the network leave alone *)
Section settings.
Context {HA : Hashes} {NC : NodeCodec} {AC : AtomCodec} {CV : CryptoVerifier}.
Implicit Types (e : PrimusEngine) (c : Crystal).

Definition same_settings e e' : Prop :=
  epoch_difficulty e' = epoch_difficulty e ∧ is_syncing e' = is_syncing e ∧ sync_target e' = sync_target e.
#[export] Instance same_settings_refl : Reflexive same_settings.
Proof. by intros e. Qed.
#[export] Instance same_settings_trans : Transitive same_settings.
Proof. intros e1 e2 e3 (A1 & A2 & A3) (B1 & B2 & B3). split_and!; congruence. Qed.

Lemma finalize_settings e c : same_settings e (finalize_solidification e c).1.
Proof.
  unfold finalize_solidification. destruct (engine_execute _ _) as [[cs ce]|]; [|done].
  destruct (commit_changeset _ _ _) as [st [r|]]; [|done]. by repeat case_bool_decide.
Qed.
Lemma apply_chain_settings cs e : same_settings e (apply_chain e cs).1.
Proof.
  revert e; induction cs as [|c cs IH]; intros e; [done|]. cbn [apply_chain]. destruct (verify_pow e c); [|done].
  pose proof (finalize_settings e c) as H. destruct (finalize_solidification e c) as [e' [c'|]]; [|done].
  etrans; [exact H|apply IH].
Qed.
Lemma accept_settings e c : same_settings e (accept_crystal e c).1.
Proof.
  unfold accept_crystal. destruct (verify_pow e c); [|done]. pose proof (finalize_settings e c) as H.
  by destruct (finalize_solidification e c).
Qed.
Lemma reorg_settings e l : same_settings e (perform_reorg e l).1.
Proof.
  unfold perform_reorg. destruct (sort_by_index l) as [|b rest]; [done|]. cbv zeta.
  destruct (_ <? _); [done|]. destruct (collect_undo _ _ _) as [logs|]; [|done].
  match goal with |- context [apply_chain ?e0 ?l0] => pose proof (apply_chain_settings l0 e0) as H end.
  by destruct (apply_chain _ _) as [e1 [[]|]].
Qed.
Lemma crystal_settings e c : same_settings e (process_network_crystal e c).1.
Proof.
  unfold process_network_crystal. destruct (get_crystal_latest (storage e)) as [l|]; [|apply accept_settings].
  cbv zeta. repeat case_match; try done; (apply accept_settings || apply reorg_settings).
Qed.
End settings.
