(* ===== verification/Mining.v ===== *)
(** Mining a block (primus-core engine.rs mine_block), and the bounds of the difficulty. *)
From S2P Require Import Prelude Floats Types Mpt MptTree MptFacts State Physics Pvm Crystal Chamber Storage.
From S2P Require Import Engine Processor ProcessorFacts.
Open Scope Z_scope.

Section mining.
Context {HA : Hashes} {NC : NodeCodec} {AC : AtomCodec} {CV : CryptoVerifier} {LM : Libm}.
Implicit Types (e : PrimusEngine) (c : Crystal).

(** The reactions of the block: those the machine accepts one by one, after the reward. *)
Definition confirm e (idx : Z) (candidates : list SignedReaction) : list SignedReaction :=
  let confirmed := List.filter (λ rx, is_ok (engine_execute e [rx])) candidates in
  match build_mining_reward_rx e (u64_wrapping_add idx 1) with
  | Some reward_rx => reward_rx :: confirmed
  | None => confirmed
  end.

(** The header before the search for a nonce; [optimize_lattice] does nothing. *)
Definition block_template (p : Prepared) (confirmed : list SignedReaction) : Crystal :=
  MkCrystal (u64_wrapping_add (last_index p) 1) (parent_hash p) (deterministic_timestamp p) 0
    (reaction_hash <$> confirmed) confirmed (inherited_energy p) zero32 (f32_of_Z 0) (f32_of_Z 0).

Definition update_epoch e c : PrimusEngine :=
  if (index c mod DIFFICULTY_EPOCH =? 0) && (0 <? index c)
  then set_epoch_difficulty (calculate_epoch_difficulty e) e else e.

(** What the nonce search starts from. *)
Definition prepare_block (now : Z) (seed : bytes) (resonant_rxs : list SignedReaction) e
    : PrimusEngine * Crystal :=
  let e := foldl (λ e rx, set_chamber (inject_reaction rx (chamber e)) e) e resonant_rxs in
  let '(e, p) := prepare_next_physical_state now seed e in
  let '(ch, candidates) := synthesize_with_gravity (prepared_gravity p) (parent_hash p)
                             (u64_wrapping_add (last_index p) 1) (chamber e) in
  let e := set_chamber ch e in
  let c := block_template p (confirm e (last_index p) candidates) in
  (update_epoch e c, c).

Definition mine_block (now : Z) (seed : bytes) (resonant_rxs : list SignedReaction) e
    : PrimusEngine * result (option Crystal) ProcessorError :=
  let '(e, c) := prepare_block now seed resonant_rxs e in
  let '(solved, c) := solve MAX_NONCE_ATTEMPTS (pow_temp (ch_temperature (chamber e))) (epoch_difficulty e) c in
  if solved then
    match finalize_solidification e c with
    | (e, Ok c) => (e, Ok (Some c))
    | (e, Err err) => (e, Err err)
    end
  else (e, Ok None).

(** ** What a mined crystal is *)
Lemma inject_all_frame rxs e :
  let e' := foldl (λ e rx, set_chamber (inject_reaction rx (chamber e)) e) e rxs in
  storage e' = storage e ∧ eng_state e' = eng_state e ∧ eng_architect_pk e' = eng_architect_pk e.
Proof. revert e; induction rxs as [|rx rxs IH]; intros e; [done|]. exact (IH (set_chamber (inject_reaction rx (chamber e)) e)). Qed.

Lemma prepare_block_spec now seed rxs e e' c :
  prepare_block now seed rxs e = (e', c) →
  storage e' = storage e ∧ eng_state e' = eng_state e ∧ eng_architect_pk e' = eng_architect_pk e ∧
  volatile_reactions (chamber e') = [] ∧
  state_root c = zero32 ∧ cr_nonce c = 0 ∧ reactions c = reaction_hash <$> reactions_data c ∧
  (∀ b, get_crystal_latest (storage e) = Some b →
     index c = u64_wrapping_add (index b) 1 ∧ prev_hash c = calculate_density b) ∧
  (∀ a, atoms (eng_state e) !! eng_architect_pk e = Some a →
     ∃ rest, reactions_data c =
       MkReaction a a (mining_reward_hash (index c) (eng_architect_pk e)) (f32_of_Z 0) 0 [] (MiningReward 10) :: rest).
Proof.
  unfold prepare_block, prepare_next_physical_state. cbv zeta.
  destruct (inject_all_frame rxs e) as (I1 & I2 & I3).
  set (e1 := foldl _ e rxs) in *. rewrite I1.
  set (p0 := match get_crystal_latest (storage e) with Some b => _ | None => _ end).
  assert (∃ ch last ph en ts, p0 = (set_chamber ch e1, last, ph, en, ts) ∧
    ∀ b, get_crystal_latest (storage e) = Some b → last = index b ∧ ph = calculate_density b)
    as (ch & last & ph & en & ts & -> & Hlast).
  { unfold p0. destruct (get_crystal_latest (storage e)); repeat eexists; by simplify_eq. }
  cbn [last_index parent_hash prepared_gravity deterministic_timestamp inherited_energy chamber set_chamber].
  unfold synthesize_with_gravity. cbv zeta. destruct (synthesis_loop _ _ _ _ _) as [candidates en'].
  match goal with |- (update_epoch ?e _, _) = _ → _ => set (e2 := e) end.
  match goal with |- (update_epoch _ ?c, _) = _ → _ => set (c2 := c) end.
  intros Hpair. assert (e' = update_epoch e2 c2 ∧ c = c2) as [-> ->] by (split; congruence). clear Hpair.
  assert (Hu : ∀ e c, storage (update_epoch e c) = storage e ∧ eng_state (update_epoch e c) = eng_state e ∧
    eng_architect_pk (update_epoch e c) = eng_architect_pk e ∧ chamber (update_epoch e c) = chamber e)
    by (intros e0 c0; unfold update_epoch; by case_match).
  destruct (Hu e2 c2) as (-> & -> & -> & ->). split_and!; try done.
  - intros b Hb. by destruct (Hlast b Hb) as [-> ->].
  - intros a Ha. unfold c2, confirm, build_mining_reward_rx, e2. cbn [reactions_data block_template last_index index].
    cbn [eng_state eng_architect_pk set_chamber]. rewrite I2, I3. unfold state_get_atom. rewrite Ha.
    cbn [mbind option_bind]. by eexists.
Qed.

Lemma solve_frame n temp diff c found c' : solve n temp diff c = (found, c') → ∃ k, c' = set_cr_nonce k c.
Proof.
  revert c; induction n as [|n IH]; intros c; cbn [solve].
  { intros [= _ <-]. exists (cr_nonce c). by destruct c. }
  case_match; [intros [= _ <-]; exists (cr_nonce c); by destruct c|]. intros Hs.
  destruct (IH _ Hs) as [k ->]. by exists k.
Qed.

Lemma solve_found n temp diff c c' : solve n temp diff c = (true, c') → check_proof_of_work c' temp diff = true.
Proof.
  revert c; induction n as [|n IH]; intros c; cbn [solve]; [done|].
  destruct (check_proof_of_work c temp diff) eqn:E; [by intros [= <-]|apply IH].
Qed.

(** C38. A mined crystal extends the crystal the node holds as its last, carries the hashes
    of its reactions with the Architect's reward as the first, and is what solidification
    made of a header that solves the proof of work with a state root of zeros. *)
Theorem mined_crystal now seed rxs e e' c b a :
  mine_block now seed rxs e = (e', Ok (Some c)) →
  get_crystal_latest (storage e) = Some b → atoms (eng_state e) !! eng_architect_pk e = Some a →
  index c = u64_wrapping_add (index b) 1 ∧ prev_hash c = calculate_density b ∧
  reactions c = reaction_hash <$> reactions_data c ∧
  (∃ rest, reactions_data c =
     MkReaction a a (mining_reward_hash (index c) (eng_architect_pk e)) (f32_of_Z 0) 0 [] (MiningReward 10) :: rest) ∧
  ∃ e1, storage e1 = storage e ∧ eng_state e1 = eng_state e ∧ volatile_reactions (chamber e1) = [] ∧
    verify_pow e1 (set_state_root zero32 c) = Ok tt ∧
    finalize_solidification e1 (set_state_root zero32 c) = (e', Ok c).
Proof.
  unfold mine_block. intros H Hb Ha.
  destruct (prepare_block now seed rxs e) as [e1 c1] eqn:Hp.
  destruct (prepare_block_spec _ _ _ _ _ _ Hp) as (P1 & P2 & _ & P4 & P5 & _ & P7 & P8 & P9).
  destruct (P8 b Hb) as [I1 I2]. destruct (P9 a Ha) as [rest Hrest].
  destruct (solve _ _ _ c1) as [found c2] eqn:Hsolve. destruct found; [|done].
  destruct (solve_frame _ _ _ _ _ _ Hsolve) as [k ->]. apply solve_found in Hsolve.
  destruct (finalize_solidification e1 (set_cr_nonce k c1)) as [e2 [c3|]] eqn:Hf; [|done].
  injection H as -> ->.
  destruct (finalize_Ok_inv _ _ _ _ Hf) as (cs & ce & st & r & _ & _ & -> & _).
  split_and!; [done|done|done|by exists rest|]. exists e1.
  assert (set_state_root zero32 (set_state_root r (set_cr_nonce k c1)) = set_cr_nonce k c1) as ->
    by (rewrite <-P5; by destruct c1).
  split_and!; try done. unfold verify_pow. by rewrite Hsolve.
Qed.

(** ** The difficulty *)
Definition in_clamp (d : f32) : Prop := fp_le DIFFICULTY_CLAMP.1 d = true ∧ fp_le d DIFFICULTY_CLAMP.2 = true.

Lemma in_clamp_finite d : in_clamp d → ∃ m ex, d = S754_finite false m ex.
Proof.
  intros [H1 H2]. destruct d as [[]|[]| |[] m ex].
  7: by eexists _, _.
  all: exfalso; revert H1 H2; vm_compute; congruence.
Qed.

(** The epoch difficulty never leaves the interval from 1/4 to 64, and is a number:
    whatever the times of the crystals, its update keeps it there. *)
Theorem epoch_difficulty_bounded e c :
  in_clamp (epoch_difficulty e) → target_block_time e = 10 → in_clamp (epoch_difficulty (update_epoch e c)).
Proof.
  intros Hd Ht. unfold update_epoch. case_match; [|done]. cbn [epoch_difficulty set_epoch_difficulty].
  unfold calculate_epoch_difficulty. cbv zeta. rewrite Ht. case_match; [done|].
  set (s0 := from_option cr_timestamp 0 _). set (s1 := from_option cr_timestamp 0 _).
  destruct ((s0 =? 0) || (s1 <=? s0)) eqn:E; [done|]. apply orb_false_iff in E as [_ E%Z.leb_gt].
  destruct (in_clamp_finite _ Hd) as (m & ex & ->).
  assert (∃ p, f32_mul (f32_of_Z DIFFICULTY_EPOCH) (f32_of_Z 10) = S754_finite false p (-14)) as [p ->]
    by (eexists; vm_compute; reflexivity).
  apply fp_clamp_bounds; try (vm_compute; reflexivity). apply fp_nonneg_not_nan, f32_mul_nonneg, f32_div_nonneg.
  apply f32_of_Z_nonneg. lia.
Qed.
End mining.
