(* ===== verification/ChainExamples.v ===== *)
(** A node with one account, run from genesis through a block and a reorganisation: the
    instances on which the theorems on the storage, the processor and the miner are
    applied. *)
From S2P Require Import Prelude Floats Types Mpt MptTree MptFacts MptGc MptProof MptExamples State Physics.
From S2P Require Import Pvm Crystal Chamber Storage Engine Processor ProcessorFacts Mining Toy.
Open Scope Z_scope.

#[local] Existing Instance checksum_hashes.
#[local] Existing Instance toy_codec.
#[local] Existing Instance toy_atom_codec.
#[local] Instance own_key_crypto : CryptoVerifier := {| crypto_verify pk m s := bool_decide (s = pk) |}.
#[local] Instance flat_ln : Libm := {| ln_1p x := x |}.

(** The genesis file of the repository. *)
Definition nl : bytes := [10].
Definition genesis_toml : bytes :=
  bytes_of_string "[genesis]" ++ nl ++ bytes_of_string "initial_supply = 1000000000" ++ nl
  ++ bytes_of_string "timestamp = 1735689600" ++ nl
  ++ bytes_of_string "server_seed_env = " ++ [34] ++ bytes_of_string "PRIMUS_SERVER_SEED" ++ [34] ++ nl.
Example genesis_toml_parses : genesis_config genesis_toml = genesis_base.
Proof. vm_compute. reflexivity. Qed.
Example genesis_overflow_ignored :
  genesis_config (bytes_of_string "  initial_supply = 18446744073709551616") = genesis_base.
Proof. vm_compute. reflexivity. Qed.

Definition arch : bytes := [7].
Definition first {A} (r : PrimusEngine * A) : PrimusEngine := r.1.
Definition E0 : PrimusEngine := first (processor_new genesis_toml db_empty (MkSledMptStore ∅) ∅ arch).
Definition cs0 : Changeset := cs_insert arch (genesis_atom genesis_base arch) cs_new.
Definition genesis : Crystal := genesis_crystal genesis_base (current_root (storage E0)).

(** A first block with the reward alone. *)
Definition reward : SignedReaction :=
  default (toy_rx (new_receiver arch) (new_receiver arch) 0 Generic) (build_mining_reward_rx E0 1).
Definition c1 : Crystal :=
  MkCrystal 1 (calculate_density genesis) 1735689610 0 [reaction_hash reward] [reward] (f32_of_Z 0) zero32
    (f32_of_Z 0) (f32_of_Z 0).
Definition cs1 : Changeset :=
  cs_insert arch (set_last_reaction_hash (reaction_hash reward) (set_mass 1000000010 (genesis_atom genesis_base arch)))
    cs_new.
Definition E1 : PrimusEngine := first (finalize_solidification E0 c1).

Definition tr0 : tree := tree_after TEmpty (trie_updates cs0).
Definition tr1 : tree := tree_after tr0 (trie_updates cs1).
Definition chain_nodes : list MptNode := tree_nodes tr0 ++ tree_nodes tr1.
Definition chain_G (n : MptNode) : Prop := n ∈ chain_nodes.
Definition chain_K (pk : bytes) : Prop := pk = arch.

Lemma chain_G_inj : hash_injective_on chain_G.
Proof. apply injective_compute. vm_compute. reflexivity. Qed.
Lemma sha3_bytes b : Forall is_byte (sha3_256 b).
Proof. apply to_le_bytes. Qed.
Lemma chain_K_inj a b : chain_K a → chain_K b → sha3_256 a = sha3_256 b → a = b.
Proof. unfold chain_K. congruence. Qed.

Lemma tr0_in : inserts_in chain_G TEmpty (trie_updates cs0).
Proof. split; [|exact I]. apply nodes_in_compute. vm_compute. reflexivity. Qed.

Lemma E0_ok : node_ok chain_G chain_K tr0 E0.
Proof.
  destruct (genesis_inv chain_G chain_G_inj chain_K sha3_bytes chain_K_inj genesis_toml arch eq_refl tr0_in)
    as (e & He & Hok & _).
  assert (e = E0) as <-; [|exact Hok]. unfold E0, first. by rewrite He.
Qed.

Lemma c1_executes : ∃ ce, engine_execute (at_height E0 c1) (reactions_data c1) = Ok (cs1, ce).
Proof. eexists. vm_compute. reflexivity. Qed.

Lemma cs1_writes : writes_ok chain_G chain_K tr0 E0 cs1.
Proof.
  split_and!.
  - apply Forall_forall. intros pk Hpk. vm_compute in Hpk. by apply list_elem_of_singleton in Hpk.
  - split; [|exact I]. apply nodes_in_compute. vm_compute. reflexivity.
  - vm_compute. discriminate.
Qed.

(** *** Solidification *)
Lemma E1_ok : node_ok chain_G chain_K tr1 E1.
Proof.
  destruct c1_executes as [ce Hx].
  destruct (finalize_inv chain_G chain_G_inj chain_K sha3_bytes chain_K_inj tr0 E0 c1 E0_ok) as [_ H].
  destruct (H cs1 ce Hx cs1_writes) as (st & r & _ & Hr). destruct (Hr (or_introl eq_refl)) as (e' & Hf & Hok & _).
  assert (e' = E1) as <-; [|exact Hok]. unfold E1, first. by rewrite Hf.
Qed.

Definition bare_storage : PrimusStorage := storage_open db_empty (MkSledMptStore ∅) ∅.
Lemma commit_changeset_correct_witness :
  (∃ st r, commit_changeset (storage E0) cs1 1 = (st, Ok r) ∧ storage_ok chain_G chain_K tr1 st
    ∧ gc_log st !! 1 = Some (current_root (storage E0))) ∧
  ∃ st, commit_changeset bare_storage cs_new 1 = (st, Ok zero32) ∧ ¬ storage_ok chain_G chain_K TEmpty st.
Proof.
  split.
  - destruct cs1_writes as (H1 & H2 & H3).
    destruct (commit_changeset_correct chain_G chain_G_inj chain_K sha3_bytes chain_K_inj (storage E0) tr0 cs1 1
      (no_storage _ _ _ _ E0_ok) H1 H2) as (st & r & Hc & _ & _ & _ & _ & Hg & _ & Hok & _).
    exists st, r. split; [exact Hc|]. split; [|apply Hg; vm_compute; reflexivity].
    apply Hok. right. vm_compute. discriminate.
  - destruct (commit_changeset_correct chain_G chain_G_inj chain_K sha3_bytes chain_K_inj bare_storage TEmpty cs_new 1
      (storage_ok_empty _ _)) as (st & r & Hc & _ & _ & _ & _ & _ & _ & _ & He).
    { vm_compute. constructor. }
    { vm_compute. exact I. }
    destruct (He eq_refl eq_refl) as (-> & _ & Hno). exists st. split; [exact Hc|apply Hno].
Defined.

Lemma get_proof_correct_witness :
  ∃ pr, get_proof (storage E1) arch = Ok pr ∧ value pr = ser_atom <$> storage_get_atom (storage E1) arch
    ∧ verify_proof pr = true.
Proof.
  destruct (get_proof_correct chain_G chain_G_inj chain_K sha3_bytes chain_K_inj (storage E1) tr1 arch
    (no_storage _ _ _ _ E1_ok) eq_refl) as (pr & Hp & _ & Hv & Hver).
  exists pr. split; [exact Hp|]. split; [exact Hv|]. apply Hver.
  vm_compute in Hp. injection Hp as <-. vm_compute. apply (bool_decide_unpack _). exact I.
Defined.


(** The block, announced with a root that is not the one it leads to. *)
Definition c1_wrong : Crystal := set_state_root (replicate 32 1) c1.
Lemma root_mismatch_diverges_witness :
  ∃ e', finalize_solidification E0 c1_wrong = (e', Err (StateRootMismatch 1)) ∧ eng_state e' = eng_state E0
    ∧ ¬ ∃ t', node_ok chain_G chain_K t' e'.
Proof.
  destruct c1_executes as [ce Hx].
  destruct (root_mismatch_diverges chain_G chain_G_inj chain_K sha3_bytes chain_K_inj tr0 E0 c1_wrong cs1 ce
    E0_ok Hx cs1_writes) as (st & root & Hc & H).
  destruct (H ltac:(discriminate)) as (e' & Hf & Hs & _ & _ & Hnot).
  { intros <-. vm_compute in Hc. discriminate. }
  exists e'. split; [exact Hf|]. split; [exact Hs|]. apply Hnot.
  intros Hsub. pose proof (map_subseteq_spec (inner cs1) (atoms (eng_state E0))) as [Hi _].
  specialize (Hi Hsub arch _ eq_refl). vm_compute in Hi. discriminate.
Defined.

Lemma restart_restores_witness :
  ∃ e', processor_new genesis_toml (db (storage E1)) (store (mpt (storage E1))) (gc_log (storage E1)) arch
        = (e', Ok tt) ∧ storage e' = storage E1 ∧ eng_state e' = eng_state E1.
Proof.
  apply (restart_restores chain_G chain_K tr1 E1 genesis_toml E1_ok).
  - intros H. apply (f_equal (lookup arch)) in H. vm_compute in H. discriminate.
  - intros pk ->. discriminate.
Defined.

Lemma genesis_correct_witness :
  ∃ e, processor_new genesis_toml db_empty (MkSledMptStore ∅) ∅ arch = (e, Ok tt)
    ∧ atoms (eng_state e) = {[ arch := genesis_atom genesis_base arch ]}.
Proof.
  destruct (genesis_correct chain_G chain_G_inj chain_K sha3_bytes chain_K_inj genesis_toml arch eq_refl tr0_in)
    as (e & He & _ & Ha & _). exists e. split; [exact He|exact Ha].
Defined.

(** *** Reorganisation *)
Lemma E1_solidified : solidified E0 [c1] E1.
Proof.
  apply (solidified_snoc E0 [] E0 c1 E1 (set_state_root (current_root (storage E1)) c1)).
  - constructor.
  - reflexivity.
  - vm_compute. reflexivity.
Qed.
Lemma E0_atoms : atoms (eng_state E0) = db_atoms (db (storage E0)).
Proof. apply (no_atoms _ _ _ _ E0_ok). Qed.

Lemma rollback_restores_witness :
  ∃ logs, collect_undo (storage E1) 0 1 = Ok logs ∧
    atoms (eng_state (rollback E1 logs 0)) = atoms (eng_state E0) ∧
    get_crystal (storage (rollback E1 logs 0)) 1 = None.
Proof.
  destruct (rollback_restores E0 [c1] E1 E1_solidified ltac:(simpl; lia) E0_atoms) as (logs & Hc & Ha & _ & _ & Hg).
  exists logs. split; [exact Hc|]. split; [exact Ha|exact (Hg 1)].
Defined.

(** A competitor for the first height that claims more energy and solves nothing. *)
Definition c1_fork : Crystal :=
  MkCrystal 1 (calculate_density genesis) 1735689611 3 [] [] (f32_of_Z 5) zero32 (f32_of_Z 0) (f32_of_Z 0).
Lemma reorg_to_fork_witness :
  ∃ r, perform_reorg E1 [c1_fork] = (r, Err (PowInvalid 1)) ∧
    atoms (eng_state r) = atoms (eng_state E0) ∧
    process_network_crystal r c1_fork = accept_crystal r c1_fork.
Proof.
  destruct (reorg_to_fork E0 [c1] E1 genesis c1_fork E1_solidified ltac:(simpl; lia) E0_atoms
    ltac:(vm_compute; discriminate) ltac:(vm_compute; reflexivity) eq_refl eq_refl)
    as (r & Ha & _ & _ & _ & _ & H).
  destruct (H (PowInvalid 1) ltac:(vm_compute; reflexivity)) as [Hr Hp].
  exists r. split; [exact Hr|]. split; [exact Ha|exact (Hp c1_fork)].
Defined.

(** A crystal that is no solution: on the tip, nothing changes; as a competitor, the node is
    left without its own crystal. *)
Definition c2_bad : Crystal :=
  MkCrystal 2 (match get_crystal_latest (storage E1) with Some b => calculate_density b | None => [] end)
    1735689620 3 [] [] (f32_of_Z 5) zero32 (f32_of_Z 0) (f32_of_Z 0).
Lemma refused_E1 c err :
  (process_network_crystal E1 c).2 = Err err →
  process_network_crystal E1 c = (first (process_network_crystal E1 c), Err err).
Proof. unfold first. destruct (process_network_crystal E1 c) as [e r]. simpl. by intros ->. Qed.
Definition rich_fork : Crystal :=
  MkCrystal 1 (calculate_density genesis) 1735689611 3 [] [] (f32_of_Z 5) zero32 (f32_of_Z 0) (f32_of_Z 5000).
Lemma refused_crystal_witness :
  refusal E1 c2_bad (first (process_network_crystal E1 c2_bad)) (PowInvalid 2) ∧
  refusal E1 rich_fork (first (process_network_crystal E1 rich_fork)) (PowInvalid 1) ∧ competes E1 rich_fork.
Proof.
  split; [|split].
  - apply refused_crystal, refused_E1. vm_compute. reflexivity.
  - apply refused_crystal, refused_E1. vm_compute. reflexivity.
  - destruct (get_crystal_latest (storage E1)) as [l|] eqn:Hl; [|vm_compute in Hl; discriminate].
    exists l. split; [exact Hl|]. unfold extends. rewrite Hl. vm_compute in Hl. injection Hl as <-.
    split; [intros [H _]; vm_compute in H; discriminate|]. right. split; vm_compute; reflexivity.
Defined.

Definition undo1 : list (Z * UndoLog) := match collect_undo (storage E1) 0 1 with Ok l => l | Err _ => [] end.
Lemma rollback_leaves_trie_witness :
  current_root (storage (rollback E1 undo1 0)) = current_root (storage E1) ∧
  ¬ ∃ t, node_ok chain_G chain_K t (rollback E1 undo1 0).
Proof.
  destruct (rollback_leaves_trie chain_G chain_G_inj chain_K tr1 E1 undo1 0 E1_ok) as (H1 & _ & H2).
  { intros H. apply (f_equal (lookup arch)) in H. vm_compute in H. discriminate. }
  split; [exact H1|exact H2].
Defined.

(** *** Mining *)
Definition mined : PrimusEngine * result (option Crystal) ProcessorError := mine_block 1735689700 [] [] E0.
Definition mined_block : Crystal := match mined.2 with Ok (Some c) => c | _ => c1 end.

Lemma mined_crystal_witness :
  index mined_block = 1 ∧ prev_hash mined_block = calculate_density genesis
  ∧ ∃ e1, verify_pow e1 (set_state_root zero32 mined_block) = Ok tt.
Proof.
  assert (Hm : mined.2 = Ok (Some mined_block)) by (vm_compute; reflexivity).
  destruct (mined_crystal 1735689700 [] [] E0 (first mined) mined_block genesis (genesis_atom genesis_base arch))
    as (H1 & H2 & _ & _ & e1 & _ & _ & _ & H3 & _).
  - fold mined. unfold first. destruct mined as [e r]. simpl in *. rewrite Hm. reflexivity.
  - vm_compute. reflexivity.
  - vm_compute. reflexivity.
  - split; [exact H1|]. split; [exact H2|]. exists e1. exact H3.
Defined.

(** The nonce of a mined crystal is searched while its state root is zero and the root
    is filled in afterwards, so that the crystal the miner publishes is in general no
    solution: neither the miner nor a node at the same height accepts its proof of work. *)
Theorem mined_crystal_refused :
  mined.2 = Ok (Some mined_block) ∧
  verify_pow E0 (set_state_root zero32 mined_block) = Ok tt ∧
  verify_pow E0 mined_block = Err (PowInvalid 1) ∧ verify_pow mined.1 mined_block = Err (PowInvalid 1).
Proof. vm_compute. done. Qed.

Lemma epoch_difficulty_bounded_witness : in_clamp (epoch_difficulty (update_epoch E1 c1)).
Proof. apply (epoch_difficulty_bounded E1 c1); [split; vm_compute; reflexivity|vm_compute; reflexivity]. Defined.
