(* ===== verification/Dht.v ===== *)
(** The Kademlia routing table (primus-net-opt dht.rs).

    Records are shared behind Arc and never mutated, so that they are plain values here.  The
    lock of a bucket is taken for one update at a time: an insertion into a full bucket holds
    it twice, and [table_event] runs the tasks that share a table lock by lock; [table_insert]
    is an insertion that nothing comes between.  A ping is an argument. *)
From S2P Require Import Prelude Floats Types.
Open Scope Z_scope.

Definition K : nat := 20.
Definition NBUCKETS : nat := 256.
Abbreviation NodeID := bytes.

Definition xor_distance (a b : NodeID) : NodeID := xor_bytes a b.

(** `u8::leading_zeros`. *)
Definition leading_zeros (b : Z) : nat := if b =? 0 then 8 else Z.to_nat (7 - Z.log2 b).

Fixpoint bucket_index_from (i : nat) (dist : NodeID) : nat :=
  match dist with
  | [] => NBUCKETS - 1
  | byte :: dist => if byte =? 0 then bucket_index_from (S i) dist else i * 8 + leading_zeros byte
  end.
Definition bucket_index (dist : NodeID) : nat := bucket_index_from 0 dist.

#[export] Instance PrimusNR_eq_dec : EqDecision PrimusNR.
Proof. solve_decision. Defined.

Section table.
Context {HA : Hashes}.
Implicit Types (nr : PrimusNR) (b : list PrimusNR) (id : NodeID).

(** ** KBucket: the most recently seen first *)
Definition bucket_position id b : option nat := fst <$> list_find (λ n, node_id n = id) b.
(** The bucket, and the tail to check when it is full. *)
Definition bucket_insert nr b : list PrimusNR * option PrimusNR :=
  match bucket_position (node_id nr) b with
  | Some pos =>
      match b !! pos with
      | Some existing => (existing :: delete pos b, None)
      | None => (b, None)
      end
  | None => if (length b <? K)%nat then (nr :: b, None) else (b, last b)
  end.
Definition replace_tail nr b : list PrimusNR :=
  match b with [] => [] | _ => nr :: take (length b - 1) b end.
Definition bucket_remove id b : list PrimusNR := filter (λ n, node_id n ≠ id) b.

(** ** RoutingTable *)
Record RoutingTable := MkTable { local_id : NodeID; buckets : list (list PrimusNR) }.
Implicit Types t : RoutingTable.

Definition table_new id : RoutingTable := MkTable id (replicate NBUCKETS []).
Definition bucket_of t id : nat := bucket_index (xor_distance (local_id t) id).
Definition bucket_at t (i : nat) : list PrimusNR := default [] (buckets t !! i).
Definition set_bucket (i : nat) b t : RoutingTable := MkTable (local_id t) (<[i := b]> (buckets t)).

(** `insert` holds the lock of the bucket twice: to update it, with the tail to check when it
    is full; and, when the tail has not answered the ping, to put the new peer in the place of
    whatever the tail then is. *)
Definition insert_begin nr t : RoutingTable * option PrimusNR :=
  let id := node_id nr in
  if bool_decide (id = local_id t) then (t, None)
  else
    let idx := bucket_of t id in
    let '(b, candidate) := bucket_insert nr (bucket_at t idx) in
    (set_bucket idx b t, candidate).
Definition insert_end nr t : RoutingTable :=
  let idx := bucket_of t (node_id nr) in set_bucket idx (replace_tail nr (bucket_at t idx)) t.

(** An insertion that nothing interrupts. *)
Definition table_insert (ping : PrimusNR → bool) nr t : RoutingTable :=
  let '(t, candidate) := insert_begin nr t in
  match candidate with
  | Some tail => if ping tail then t else insert_end nr t
  | None => t
  end.

(** `insert_arc`: the same steps on a record that is shared already. *)
Definition table_insert_arc (ping : PrimusNR → bool) nr t : RoutingTable := table_insert ping nr t.

Definition table_remove id t : RoutingTable :=
  set_bucket (bucket_of t id) (bucket_remove id (bucket_at t (bucket_of t id))) t.

(** The table with the insertions that wait for the answer to a ping, each with the tail it
    has pinged; and what the tasks that share it do, one lock at a time. *)
Record SharedTable := MkShared { shared : RoutingTable; waiting : list (PrimusNR * PrimusNR) }.
Inductive TableEvent := InsertBegins (nr : PrimusNR) | PingEnds (k : nat) (alive : bool) | PeerRemoved (id : NodeID).
Definition table_event (s : SharedTable) (ev : TableEvent) : SharedTable :=
  match ev with
  | InsertBegins nr =>
      let '(t, candidate) := insert_begin nr (shared s) in
      MkShared t (waiting s ++ match candidate with Some tail => [(nr, tail)] | None => [] end)
  | PingEnds k alive =>
      match waiting s !! k with
      | Some (nr, _) => MkShared (if alive : bool then shared s else insert_end nr (shared s)) (delete k (waiting s))
      | None => s
      end
  | PeerRemoved id => MkShared (table_remove id (shared s)) (waiting s)
  end.

Definition all_peers t : list PrimusNR := concat (buckets t).
Definition table_len t : nat := sum_list (length <$> buckets t).
Definition table_is_empty t : bool := (table_len t =? 0)%nat.

Definition nearer (target : NodeID) nr nr' : Prop :=
  bytes_le (xor_distance (node_id nr) target) (xor_distance (node_id nr') target).
#[export] Instance nearer_dec target : RelDecision (nearer target).
Proof. intros nr nr'. unfold nearer. apply _. Defined.

(** `sort_unstable_by` on the distance, then `truncate`. *)
Definition sort_by_distance (target : NodeID) (l : list PrimusNR) : list PrimusNR :=
  merge_sort (nearer target) l.
Definition get_closest (target : NodeID) (k : nat) t : list PrimusNR :=
  take k (sort_by_distance target (all_peers t)).

Definition get_closest_arc (target : NodeID) (k : nat) t : list PrimusNR := get_closest target k t.

(** ** PrimusDHT *)
Record PrimusDHT := MkDht { dht_table : RoutingTable; addr_peers : list bytes }.
Context (mldsa_verify : bytes → bytes → bytes → bool).

Definition dht_new nr : PrimusDHT := MkDht (table_new (node_id nr)) [].
Definition dht_insert (ping : PrimusNR → bool) nr (d : PrimusDHT) : PrimusDHT :=
  if nr_verify mldsa_verify nr then MkDht (table_insert ping nr (dht_table d)) (addr_peers d) else d.
Definition dht_remove id (d : PrimusDHT) : PrimusDHT := MkDht (table_remove id (dht_table d)) (addr_peers d).
Definition register_peer_addr (a : bytes) (d : PrimusDHT) : PrimusDHT :=
  if bool_decide (a ∈ addr_peers d) then d else MkDht (dht_table d) (addr_peers d ++ [a]).
Definition remove_peer_addr (a : bytes) (d : PrimusDHT) : PrimusDHT :=
  MkDht (dht_table d) (filter (λ x, x ≠ a) (addr_peers d)).

(** [show] is the text of a socket address (`to_string`). *)
Definition get_peer_list (show : SocketAddr → bytes) (d : PrimusDHT) : list bytes :=
  let from_table := (λ nr, show (addr nr)) <$> all_peers (dht_table d) in
  foldl (λ merged a, if bool_decide (a ∈ merged) then merged else merged ++ [a]) from_table (addr_peers d).
Definition find_closest (target : NodeID) (k : nat) (d : PrimusDHT) : list PrimusNR :=
  get_closest target k (dht_table d).
Definition get_all_records (d : PrimusDHT) : list PrimusNR := all_peers (dht_table d).
Definition peer_count (d : PrimusDHT) : nat := table_len (dht_table d).
End table.
