(* ===== verification/DhtFacts.v ===== *)
(** The routing table keeps its shape and answers lookups with the closest peers. *)
From S2P Require Import Prelude Floats Types Dht.
Open Scope Z_scope.

(** ** Big-endian numbers *)
Lemma of_le_snoc l b : of_le (l ++ [b]) = of_le l + 256 ^ len l * b.
Proof.
  induction l as [|x l IH]; [unfold len; simpl; lia|]. cbn [app of_le]. rewrite IH.
  unfold len. simpl length. rewrite Nat2Z.inj_succ, Z.pow_succ_r by lia. lia.
Qed.
Lemma of_be_cons b l : of_be (b :: l) = b * 256 ^ len l + of_be l.
Proof.
  unfold of_be. rewrite reverse_cons, of_le_snoc. unfold len. rewrite length_reverse. lia.
Qed.
Lemma of_be_bounds l : Forall is_byte l → 0 ≤ of_be l < 256 ^ len l.
Proof.
  induction 1 as [|b l Hb _ IH]; [done|]. rewrite of_be_cons. unfold len, is_byte in *. simpl length.
  rewrite Nat2Z.inj_succ, Z.pow_succ_r by lia. nia.
Qed.

Lemma leading_zeros_spec b :
  is_byte b → b ≠ 0 → (leading_zeros b ≤ 7)%nat ∧
  2 ^ (7 - Z.of_nat (leading_zeros b)) ≤ b < 2 ^ (8 - Z.of_nat (leading_zeros b)).
Proof.
  intros [H1 H2] Hn. unfold leading_zeros. rewrite (proj2 (Z.eqb_neq _ _)) by done.
  pose proof (Z.log2_spec b ltac:(lia)) as [L1 L2]. pose proof (Z.log2_nonneg b).
  assert (Z.log2 b < 8) by (apply Z.log2_lt_pow2; [lia|exact H2]).
  rewrite Z2Nat.id by lia. split; [lia|].
  replace (7 - (7 - Z.log2 b)) with (Z.log2 b) by lia.
  replace (8 - (7 - Z.log2 b)) with (Z.succ (Z.log2 b)) by lia. lia.
Qed.

Lemma bucket_index_from_spec i dist :
  Forall is_byte dist → of_be dist ≠ 0 →
  ∃ j, bucket_index_from i dist = (i * 8 + j)%nat ∧ (j < 8 * length dist)%nat ∧
    2 ^ (8 * len dist - 1 - Z.of_nat j) ≤ of_be dist < 2 ^ (8 * len dist - Z.of_nat j).
Proof.
  intros Hb. revert i; induction Hb as [|b dist Hb Hdist IH]; intros i Hn; [done|].
  cbn [bucket_index_from length]. rewrite of_be_cons in *. unfold len in *. simpl length.
  pose proof (of_be_bounds dist Hdist) as Hd. unfold len in Hd.
  assert (Hpow : 256 ^ Z.of_nat (length dist) = 2 ^ (8 * Z.of_nat (length dist)))
    by (change 256 with (2 ^ 8); by rewrite <-Z.pow_mul_r by lia).
  destruct (Z.eqb_spec b 0) as [->|Hb0].
  - destruct (IH (S i)) as (j & -> & Hj & Hlo & Hhi); [lia|]. exists (8 + j)%nat. split; [lia|]. split; [lia|].
    rewrite Nat2Z.inj_succ, Nat2Z.inj_add.
    replace (8 * Z.succ (Z.of_nat (length dist)) - 1 - (Z.of_nat 8 + Z.of_nat j))
      with (8 * Z.of_nat (length dist) - 1 - Z.of_nat j) by lia.
    replace (8 * Z.succ (Z.of_nat (length dist)) - (Z.of_nat 8 + Z.of_nat j))
      with (8 * Z.of_nat (length dist) - Z.of_nat j) by lia. lia.
  - destruct (leading_zeros_spec b Hb Hb0) as (Hz & L1 & L2). exists (leading_zeros b). split; [done|]. split; [lia|].
    set (z := Z.of_nat (leading_zeros b)) in *. rewrite Hpow in *.
    replace (8 * Z.of_nat (S (length dist)) - 1 - z) with ((7 - z) + 8 * Z.of_nat (length dist)) by lia.
    replace (8 * Z.of_nat (S (length dist)) - z) with ((8 - z) + 8 * Z.of_nat (length dist)) by lia.
    rewrite !Z.pow_add_r by lia. assert (0 < 2 ^ (8 * Z.of_nat (length dist))) by (apply Z.pow_pos_nonneg; lia).
    nia.
Qed.

Lemma of_be_zero l : Forall is_byte l → of_be l = 0 → l = replicate (length l) 0.
Proof.
  induction 1 as [|b l Hb Hl IH]; [done|]. rewrite of_be_cons. intros He.
  pose proof (of_be_bounds l Hl). unfold is_byte in Hb.
  assert (0 < 256 ^ len l) by (apply Z.pow_pos_nonneg; unfold len; lia).
  assert (b = 0) as -> by nia. simpl. f_equal. apply IH. lia.
Qed.

Lemma xor_bytes_bytes a b : Forall is_byte a → Forall is_byte b → Forall is_byte (xor_bytes a b).
Proof.
  intros Ha. revert b; induction Ha as [|x a Hx _ IH]; intros [|y b]; simpl; try done.
  intros [Hy Hb]%Forall_cons. constructor; [|by apply IH]. unfold is_byte in *. split.
  - apply Z.lxor_nonneg. lia.
  - apply Z.log2_lt_cancel. change (Z.log2 256) with 8.
    pose proof (Z.log2_lxor x y ltac:(lia) ltac:(lia)).
    assert (Z.log2 x < 8) by (destruct (decide (x = 0)) as [->|]; [done|apply Z.log2_lt_pow2; [lia|exact (proj2 Hx)]]).
    assert (Z.log2 y < 8) by (destruct (decide (y = 0)) as [->|]; [done|apply Z.log2_lt_pow2; [lia|exact (proj2 Hy)]]).
    lia.
Qed.

Lemma xor_bytes_eq a b n : length a = n → length b = n → xor_bytes a b = replicate n 0 → a = b.
Proof.
  intros Ha Hb H. apply (f_equal (xor_bytes a)) in H.
  rewrite xor_bytes_assoc, xor_bytes_diag, Ha, (xor_bytes_zero a n) in H by done.
  rewrite xor_bytes_comm, (xor_bytes_zero b n) in H by done. done.
Qed.

Definition is_id (id : NodeID) : Prop := length id = 32%nat ∧ Forall is_byte id.

Lemma bucket_index_distance_aux (a b : NodeID) (i : nat) :
  is_id a → is_id b → a ≠ b →
  (bucket_index (xor_distance a b) < NBUCKETS)%nat ∧
  (bucket_index (xor_distance a b) = i ↔
     2 ^ (255 - Z.of_nat i) ≤ of_be (xor_distance a b) < 2 ^ (256 - Z.of_nat i) ∧ (i < 256)%nat).
Proof.
  intros [La Ba] [Lb Bb] Hne. unfold bucket_index, xor_distance.
  assert (Hl : length (xor_bytes a b) = 32%nat) by (rewrite length_xor_bytes; lia).
  pose proof (xor_bytes_bytes a b Ba Bb) as Hx.
  assert (Hn : of_be (xor_bytes a b) ≠ 0).
  { intros H0. apply of_be_zero in H0; [|done]. rewrite Hl in H0. by apply Hne, (xor_bytes_eq a b 32). }
  destruct (bucket_index_from_spec 0 _ Hx Hn) as (j & -> & Hj & Hlo & Hhi). unfold len in *. rewrite Hl in *.
  cbn [Nat.mul Nat.add] in *. split; [unfold NBUCKETS; lia|]. split; [intros <-|].
  - replace (8 * Z.of_nat 32 - 1 - Z.of_nat j) with (255 - Z.of_nat j) in Hlo by lia.
    replace (8 * Z.of_nat 32 - Z.of_nat j) with (256 - Z.of_nat j) in Hhi by lia. split; [done|lia].
  - intros [[H1 H2] Hi]. destruct (Nat.lt_trichotomy j i) as [H|[H|H]]; [|done|]; exfalso.
    + assert (2 ^ (256 - Z.of_nat i) ≤ 2 ^ (8 * Z.of_nat 32 - 1 - Z.of_nat j)) by (apply Z.pow_le_mono_r; lia). lia.
    + assert (2 ^ (8 * Z.of_nat 32 - Z.of_nat j) ≤ 2 ^ (255 - Z.of_nat i)) by (apply Z.pow_le_mono_r; lia). lia.
Qed.

(** The bucket of a peer is the length of the prefix its identifier shares with the
    node's own: bucket [i] holds the identifiers at a distance from 2^(255-i) up to, but
    not including, 2^(256-i), so that every other identifier has exactly one bucket. *)
Theorem bucket_index_distance (a b : NodeID) (i : nat) :
  is_id a → is_id b → a ≠ b →
  (bucket_index (xor_distance a b) < NBUCKETS)%nat ∧
  (bucket_index (xor_distance a b) = i ↔
     2 ^ (255 - Z.of_nat i) ≤ of_be (xor_distance a b) < 2 ^ (256 - Z.of_nat i) ∧ (i < 256)%nat).
Proof. apply bucket_index_distance_aux. Qed.

(** ** The shape of the table *)
Section table.
Context {HA : Hashes} (sha3_bytes : ∀ b, Forall is_byte (sha3_256 b)).
Implicit Types (nr : PrimusNR) (b : list PrimusNR) (t : RoutingTable).

Abbreviation ids b := (node_id <$> b).

Lemma node_id_ok nr : is_id (node_id nr).
Proof using sha3_bytes. split; [apply length_sha3_256|apply sha3_bytes]. Qed.

(** A bucket has at most [K] peers, each once, all of them its own and none the node itself. *)
Record bucket_ok t (i : nat) b : Prop := {
  bo_size : (length b ≤ K)%nat;
  bo_nodup : NoDup (ids b);
  bo_place : Forall (λ nr, node_id nr ≠ local_id t ∧ bucket_of t (node_id nr) = i) b;
}.
Record table_ok t : Prop := {
  to_local : is_id (local_id t);
  to_len : length (buckets t) = NBUCKETS;
  to_buckets i b : buckets t !! i = Some b → bucket_ok t i b;
}.

Lemma bucket_position_Some id b pos :
  bucket_position id b = Some pos ↔ ∃ n, b !! pos = Some n ∧ node_id n = id ∧
    ∀ j m, b !! j = Some m → (j < pos)%nat → node_id m ≠ id.
Proof.
  unfold bucket_position. rewrite fmap_Some. split.
  - intros ([p n] & H & ->). apply list_find_Some in H as (H1 & H2 & H3). by exists n.
  - intros (n & H1 & H2 & H3). exists (pos, n). split; [|done]. by apply list_find_Some.
Qed.
Lemma bucket_position_None id b : bucket_position id b = None ↔ id ∉ ids b.
Proof.
  unfold bucket_position. rewrite fmap_None, list_find_None. rewrite Forall_forall. split.
  - intros H (n & -> & Hn)%list_elem_of_fmap. by apply (H n).
  - intros H n Hn Heq. apply H. apply list_elem_of_fmap. by exists n.
Qed.

(** What [bucket_insert] does, by case: known, room, full. *)
Lemma bucket_insert_spec nr b :
  (node_id nr ∈ ids b ∧ ∃ b', bucket_insert nr b = (b', None) ∧ b' ≡ₚ b) ∨
  ((node_id nr ∉ ids b) ∧ (length b < K)%nat ∧ bucket_insert nr b = (nr :: b, None)) ∨
  ((node_id nr ∉ ids b) ∧ (K ≤ length b)%nat ∧ ∃ tail, last b = Some tail ∧ bucket_insert nr b = (b, Some tail)).
Proof.
  unfold bucket_insert. destruct (bucket_position (node_id nr) b) as [pos|] eqn:E.
  - left. apply bucket_position_Some in E as (n & Hn & Hid & _). rewrite Hn. split.
    + apply list_elem_of_fmap. exists n. split; [done|]. by eapply list_elem_of_lookup_2.
    + eexists. split; [done|]. symmetry. by apply delete_Permutation.
  - right. apply bucket_position_None in E. destruct (Nat.ltb_spec (length b) K); [by left|right].
    split_and!; [done|lia|]. destruct (last b) as [tail|] eqn:El; [by exists tail|].
    apply last_None in El as ->. unfold K in *. simpl in *. lia.
Qed.

Lemma replace_tail_perm nr b tail : last b = Some tail → tail :: replace_tail nr b ≡ₚ nr :: b.
Proof.
  intros (b' & ->)%last_Some. unfold replace_tail. destruct (b' ++ [tail]) eqn:E; [by destruct b'|]. rewrite <-E.
  rewrite length_app. simpl. rewrite Nat.add_sub, take_app_length.
  rewrite perm_swap. constructor. by rewrite (Permutation_app_comm b').
Qed.

Lemma bucket_ok_perm t i b b' : b' ≡ₚ b → bucket_ok t i b → bucket_ok t i b'.
Proof. intros Hp [H1 H2 H3]. split; by rewrite Hp. Qed.

Lemma bucket_ok_cons t i nr b :
  bucket_ok t i b → (length b < K)%nat → node_id nr ∉ ids b → node_id nr ≠ local_id t →
  bucket_of t (node_id nr) = i → bucket_ok t i (nr :: b).
Proof.
  intros [H1 H2 H3] Hl Hn Hloc Hi. split; [simpl; lia| |by constructor].
  rewrite fmap_cons. by constructor.
Qed.

Lemma bucket_ok_sublist t i b b' : b' `sublist_of` b → bucket_ok t i b → bucket_ok t i b'.
Proof.
  intros Hs [H1 H2 H3]. split.
  - apply sublist_length in Hs. lia.
  - eapply sublist_NoDup; [exact H2|by apply fmap_sublist].
  - rewrite Forall_forall in *. intros x Hx. apply H3. by eapply elem_of_sublist.
Qed.

Lemma table_new_ok id : is_id id → table_ok (table_new id).
Proof.
  intros Hid. split; [done|apply length_replicate|]. cbn [buckets table_new]. intros i b [-> _]%lookup_replicate.
  split; [simpl; lia|constructor|constructor].
Qed.

Lemma bucket_of_lt t nr : table_ok t → node_id nr ≠ local_id t → (bucket_of t (node_id nr) < NBUCKETS)%nat.
Proof using sha3_bytes.
  intros [Hid _ _] Hne. destruct (bucket_index_distance_aux (local_id t) (node_id nr) 0 Hid (node_id_ok nr)) as [H _];
    [congruence|exact H].
Qed.

Lemma bucket_at_ok t i : table_ok t → (i < NBUCKETS)%nat → buckets t !! i = Some (bucket_at t i) ∧ bucket_ok t i (bucket_at t i).
Proof.
  intros [_ Hl Hb] Hi. unfold bucket_at. destruct (buckets t !! i) as [b|] eqn:E; simpl; [split; [done|by apply Hb]|].
  apply lookup_ge_None in E. lia.
Qed.

Lemma set_bucket_ok t i b : table_ok t → bucket_ok t i b → table_ok (set_bucket i b t).
Proof.
  intros [H1 H2 H3] Hb. split; [done|simpl; by rewrite length_insert|]. simpl. intros j b'.
  rewrite list_lookup_insert_Some. intros [(<- & <- & _)|[_ Hj]]; [by destruct Hb|by destruct (H3 j b' Hj)].
Qed.

Lemma bucket_at_set i b t : (i < length (buckets t))%nat → bucket_at (set_bucket i b t) i = b.
Proof. intros Hi. unfold bucket_at, set_bucket. cbn [buckets]. by rewrite list_lookup_insert_eq. Qed.
Lemma bucket_at_set_ne i j b t : i ≠ j → bucket_at (set_bucket i b t) j = bucket_at t j.
Proof. intros Hij. unfold bucket_at, set_bucket. cbn [buckets]. by rewrite list_lookup_insert_ne. Qed.

(** An insertion replaces one bucket by a legal one. *)
Lemma table_insert_bucket ping nr t :
  table_ok t → node_id nr ≠ local_id t →
  ∃ b', table_insert ping nr t = set_bucket (bucket_of t (node_id nr)) b' t ∧
    bucket_ok t (bucket_of t (node_id nr)) b' ∧
    let b := bucket_at t (bucket_of t (node_id nr)) in
    ((node_id nr ∈ ids b ∧ b' ≡ₚ b) ∨
     ((node_id nr ∉ ids b) ∧ (length b < K)%nat ∧ b' ≡ₚ nr :: b) ∨
     ((node_id nr ∉ ids b) ∧ length b = K ∧ ∃ tail, last b = Some tail ∧
        if ping tail then b' = b else tail :: b' ≡ₚ nr :: b)).
Proof using sha3_bytes.
  intros Ht Hne. pose proof (bucket_of_lt t nr Ht Hne) as Hi.
  destruct (bucket_at_ok t _ Ht Hi) as [Hlook Hb]. unfold table_insert, insert_begin, insert_end.
  rewrite bool_decide_false by done. cbv zeta.
  set (i := bucket_of t (node_id nr)) in *. set (b := bucket_at t i) in *.
  assert (Hset : ∀ b1 b2, set_bucket i b2 (set_bucket i b1 t) = set_bucket i b2 t)
    by (intros; unfold set_bucket; simpl; by rewrite list_insert_insert_eq).
  destruct (bucket_insert_spec nr b) as [(Hin & b' & -> & Hp)|[(Hn & Hl & ->)|(Hn & Hl & tail & Htail & ->)]].
  - exists b'. split_and!; [done|by eapply bucket_ok_perm|by left].
  - exists (nr :: b). split_and!; [done|by apply bucket_ok_cons|right; by left].
  - assert (length b = K) as Hlen by (destruct Hb; lia). destruct (ping tail) eqn:Ep.
    + exists b. split_and!; [done|done|]. right; right. split_and!; [done|done|]. exists tail. by rewrite Ep.
    + exists (replace_tail nr b). change (bucket_of (set_bucket i b t) (node_id nr)) with i.
      rewrite bucket_at_set by (destruct Ht; lia). rewrite Hset. pose proof (replace_tail_perm nr b tail Htail) as Hp.
      split_and!; [done| |].
      * destruct Hb as [H1 H2 H3]. assert (NoDup (ids (tail :: replace_tail nr b))) as Hnd.
        { rewrite Hp, fmap_cons. by constructor. }
        rewrite fmap_cons in Hnd. apply NoDup_cons in Hnd as [_ Hnd].
        assert (Hall : Forall (λ nr, node_id nr ≠ local_id t ∧ bucket_of t (node_id nr) = i) (tail :: replace_tail nr b))
          by (rewrite Hp; by constructor).
        apply Forall_cons in Hall as [_ Hall]. apply Permutation_length in Hp. simpl in Hp. split; [lia|done|done].
      * right; right. split_and!; [done|done|]. exists tail. by rewrite Ep.
Qed.

Lemma table_insert_ok ping nr t : table_ok t → table_ok (table_insert ping nr t).
Proof using sha3_bytes.
  intros Ht. destruct (decide (node_id nr = local_id t)) as [He|Hne].
  { unfold table_insert, insert_begin. by rewrite bool_decide_true. }
  destruct (table_insert_bucket ping nr t Ht Hne) as (b' & -> & Hb' & _). by apply set_bucket_ok.
Qed.

Lemma table_remove_ok id t : table_ok t → table_ok (table_remove id t).
Proof.
  intros Ht. unfold table_remove. set (i := bucket_of t id). destruct (decide (i < NBUCKETS)%nat) as [Hi|Hi].
  - apply set_bucket_ok; [done|]. eapply bucket_ok_sublist; [apply sublist_filter|]. by apply bucket_at_ok.
  - unfold set_bucket. rewrite list_insert_ge; [by destruct t|]. destruct Ht. lia.
Qed.

(** ** The peers *)
Lemma elem_of_all_peers t nr : nr ∈ all_peers t ↔ ∃ i b, buckets t !! i = Some b ∧ nr ∈ b.
Proof.
  unfold all_peers. rewrite list_elem_of_In, in_concat. split.
  - intros (b & Hb & Hnr). apply list_elem_of_In, list_elem_of_lookup in Hb as [i Hi].
    exists i, b. split; [done|by apply list_elem_of_In].
  - intros (i & b & Hi & Hnr). exists b. split; apply list_elem_of_In; [by eapply list_elem_of_lookup_2|done].
Qed.

Lemma concat_ids_nodup (f : PrimusNR → nat) (l : list (list PrimusNR)) k :
  (∀ i b, l !! i = Some b → NoDup (ids b) ∧ Forall (λ nr, f nr = (k + i)%nat) b) →
  (∀ n n', node_id n = node_id n' → f n = f n') → NoDup (ids (concat l)).
Proof.
  intros Hl Hf. revert k Hl; induction l as [|b l IH]; intros k Hl; [constructor|]. cbn [concat].
  rewrite fmap_app. apply NoDup_app. destruct (Hl 0%nat b eq_refl) as [Hnd Hb]. split_and!; [done| |].
  - intros id (n & -> & Hn)%list_elem_of_fmap (n' & He & Hn')%list_elem_of_fmap.
    apply list_elem_of_In, in_concat in Hn' as (b' & Hb' & Hn').
    apply list_elem_of_In, list_elem_of_lookup in Hb' as [i Hi]. apply list_elem_of_In in Hn'.
    destruct (Hl (S i) b' Hi) as [_ Hb2]. rewrite Forall_forall in Hb, Hb2.
    pose proof (Hb n Hn). pose proof (Hb2 n' Hn'). pose proof (Hf n n' He). lia.
  - apply (IH (S k)). intros i b' Hi. destruct (Hl (S i) b' Hi) as [H1 H2]. split; [done|].
    eapply Forall_impl; [exact H2|]. intros n. simpl. lia.
Qed.

Lemma all_peers_nodup t : table_ok t → NoDup (ids (all_peers t)).
Proof.
  intros [_ _ Hb]. apply (concat_ids_nodup (λ nr, bucket_of t (node_id nr)) _ 0); [|by intros n n' ->].
  intros i b Hi. destruct (Hb i b Hi) as [_ H2 H3]. split; [done|]. eapply Forall_impl; [exact H3|].
  by intros n [_ ?].
Qed.

Lemma peer_place t nr : table_ok t → nr ∈ all_peers t → node_id nr ≠ local_id t ∧ nr ∈ bucket_at t (bucket_of t (node_id nr)).
Proof.
  intros [_ _ Hb] (i & b & Hi & Hnr)%elem_of_all_peers. destruct (Hb i b Hi) as [_ _ H3].
  rewrite Forall_forall in H3. destruct (H3 nr Hnr) as [H1 H2]. split; [done|]. unfold bucket_at. by rewrite H2, Hi.
Qed.

Lemma elem_of_set_bucket t i b nr :
  table_ok t → bucket_ok t i b → (i < NBUCKETS)%nat → bucket_of t (node_id nr) = i →
  nr ∈ all_peers (set_bucket i b t) ↔ nr ∈ b.
Proof.
  intros Ht Hb Hi Hn. split.
  - intros Hin. apply peer_place in Hin as [_ Hin]; [|by apply set_bucket_ok].
    unfold bucket_at in Hin. simpl in Hin. change (bucket_of (set_bucket i b t) (node_id nr)) with (bucket_of t (node_id nr)) in Hin.
    rewrite Hn, list_lookup_insert_eq in Hin; [done|]. destruct Ht. lia.
  - intros Hin. apply elem_of_all_peers. exists i, b. split; [|done]. simpl. apply list_lookup_insert_eq.
    destruct Ht. lia.
Qed.

Lemma elem_of_set_bucket_ne t i b nr :
  table_ok t → bucket_of t (node_id nr) ≠ i → nr ∈ all_peers t → nr ∈ all_peers (set_bucket i b t).
Proof.
  intros [_ _ Hb] Hn (j & b' & Hj & Hin)%elem_of_all_peers. apply elem_of_all_peers. exists j, b'. split; [|done].
  simpl. rewrite list_lookup_insert_ne; [done|]. intros ->. destruct (Hb j b' Hj) as [_ _ H3].
  rewrite Forall_forall in H3. by destruct (H3 nr Hin).
Qed.

(** An insertion never loses a peer that answers its ping, and never duplicates one: a
    peer already known keeps its old record; a new one is added when its bucket has room
    or the oldest peer of the bucket does not answer. *)
Theorem table_insert_correct ping nr t :
  table_ok t → node_id nr ≠ local_id t →
  let b := bucket_at t (bucket_of t (node_id nr)) in
  table_ok (table_insert ping nr t) ∧
  (∀ p, p ∈ all_peers t → ping p = true → p ∈ all_peers (table_insert ping nr t)) ∧
  (node_id nr ∈ ids (all_peers t) → ∀ p, p ∈ all_peers (table_insert ping nr t) ↔ p ∈ all_peers t) ∧
  (node_id nr ∉ ids (all_peers t) →
     nr ∈ all_peers (table_insert ping nr t) ↔
     (length b < K)%nat ∨ ∃ tail, last b = Some tail ∧ ping tail = false).
Proof using sha3_bytes.
  intros Ht Hne. cbv zeta. set (i := bucket_of t (node_id nr)). pose proof (bucket_of_lt t nr Ht Hne) as Hi. fold i in Hi.
  destruct (bucket_at_ok t i Ht Hi) as [Hlook Hb].
  destruct (table_insert_bucket ping nr t Ht Hne) as (b' & Heq & Hb' & Hcase). fold i in Heq, Hb', Hcase.
  cbv zeta in Hcase. set (b := bucket_at t i) in *.
  assert (Hmem : ∀ p, p ∈ all_peers t → bucket_of t (node_id p) = i → p ∈ b)
    by (intros p Hp Hpi; apply peer_place in Hp as [_ Hp]; [by rewrite Hpi in Hp|done]).
  assert (Hpeer : ∀ p, p ∈ b → p ∈ all_peers t) by (intros p Hp; apply elem_of_all_peers; by exists i, b).
  assert (Hid : node_id nr ∈ ids b ↔ node_id nr ∈ ids (all_peers t)).
  { rewrite !list_elem_of_fmap. split; intros (n & He & Hn); exists n; (split; [done|]); [by apply Hpeer|].
    apply Hmem; [done|]. by rewrite <-He. }
  rewrite Heq. split_and!.
  - by apply set_bucket_ok.
  - intros p Hp Hping. destruct (decide (bucket_of t (node_id p) = i)) as [Hpi|Hpi]; [|by apply elem_of_set_bucket_ne].
    apply elem_of_set_bucket; try done. specialize (Hmem p Hp Hpi).
    destruct Hcase as [(_ & ->)|[(_ & _ & ->)|(_ & _ & tail & Htail & Hcase)]]; [done|by right|].
    destruct (ping tail) eqn:Et; [by subst b'|]. assert (Hp' : p ∈ tail :: b') by (rewrite Hcase; by right).
    apply elem_of_cons in Hp' as [->|?]; [congruence|done].
  - rewrite <-Hid. intros Hin p. destruct Hcase as [(_ & Hp)|[(Hn & _)|(Hn & _)]]; [|done|done].
    destruct (decide (bucket_of t (node_id p) = i)) as [Hpi|Hpi].
    + rewrite elem_of_set_bucket by done. rewrite Hp. split; [apply Hpeer|intros; by apply Hmem].
    + split; [|by apply elem_of_set_bucket_ne]. intros (j & b0 & Hj & Hin0)%elem_of_all_peers.
      apply elem_of_all_peers. exists j, b0. split; [|done]. simpl in Hj.
      rewrite list_lookup_insert_Some in Hj. destruct Hj as [(<- & <- & _)|[_ ?]]; [|done].
      destruct Hb' as [_ _ H3]. rewrite Forall_forall in H3. by destruct (H3 p Hin0).
  - rewrite <-Hid. intros Hn. rewrite elem_of_set_bucket by done.
    destruct Hcase as [(? & _)|[(_ & Hl & ->)|(_ & Hl & tail & Htail & Hcase)]]; [done| |].
    + split; [by left|intros _; by left].
    + destruct (ping tail) eqn:Et.
      * subst b'. split; [intros Hin; exfalso; apply Hn; apply list_elem_of_fmap; by exists nr|].
        intros [?|(tl & ? & ?)]; [lia|congruence].
      * split; [intros _; right; by exists tail|]. intros _.
        assert (Hin : nr ∈ tail :: b') by (rewrite Hcase; by left).
        apply elem_of_cons in Hin as [<-|?]; [|done]. exfalso. apply Hn, list_elem_of_fmap. exists nr.
        split; [done|]. by eapply last_Some_elem_of.
Qed.

(** *** Tasks that share the table *)
(** What holds of the table between any two locks, except that no peer is listed twice. *)
Record table_placed t : Prop := {
  tp_local : is_id (local_id t);
  tp_len : length (buckets t) = NBUCKETS;
  tp_buckets i b : buckets t !! i = Some b →
    (length b ≤ K)%nat ∧ Forall (λ nr, node_id nr ≠ local_id t ∧ bucket_of t (node_id nr) = i) b;
}.
Lemma table_ok_placed t : table_ok t → table_placed t.
Proof. intros [H1 H2 H3]. split; [done..|]. intros i b Hi. by destruct (H3 i b Hi). Qed.
Lemma table_placed_ok t : table_placed t → (∀ i b, buckets t !! i = Some b → NoDup (ids b)) → table_ok t.
Proof. intros [H1 H2 H3] Hn. split; [done..|]. intros i b Hi. destruct (H3 i b Hi). split; [done|by apply (Hn i)|done]. Qed.

(** Setting a bucket to peers of its own. *)
Lemma set_bucket_placed t i b :
  table_placed t → (length b ≤ K)%nat → Forall (λ nr, node_id nr ≠ local_id t ∧ bucket_of t (node_id nr) = i) b →
  table_placed (set_bucket i b t).
Proof.
  intros [H1 H2 H3] Hl Hb. split; [done|simpl; by rewrite length_insert|]. simpl. intros j b'.
  rewrite list_lookup_insert_Some. intros [(<- & <- & _)|[_ Hj]]; [by split|exact (H3 j b' Hj)].
Qed.
Lemma bucket_at_placed t i :
  table_placed t → (length (bucket_at t i) ≤ K)%nat ∧
  Forall (λ nr, node_id nr ≠ local_id t ∧ bucket_of t (node_id nr) = i) (bucket_at t i).
Proof.
  intros [_ _ H3]. unfold bucket_at. destruct (buckets t !! i) as [b|] eqn:E; simpl; [by apply H3|].
  split; [lia|constructor].
Qed.

Lemma snoc_cases {A} (l : list A) : l = [] ∨ ∃ l0 x, l = l0 ++ [x].
Proof. destruct l as [|x l _] using rev_ind; [by left|right; by exists l, x]. Qed.
Lemma replace_tail_cases nr b :
  (b = [] ∧ replace_tail nr b = []) ∨ ∃ b0 tail, b = b0 ++ [tail] ∧ replace_tail nr b = nr :: b0.
Proof.
  destruct (snoc_cases b) as [->|(b0 & tail & ->)]; [by left|right]. exists b0, tail. split; [done|].
  unfold replace_tail. destruct (b0 ++ [tail]) eqn:E; [by destruct b0|]. rewrite <-E, length_app. simpl.
  by rewrite Nat.add_sub, take_app_length.
Qed.

Lemma insert_begin_placed nr t : table_placed t → table_placed (insert_begin nr t).1 ∧
  ((insert_begin nr t).2 ≠ None → node_id nr ≠ local_id t).
Proof.
  intros Ht. unfold insert_begin. case_bool_decide as Hne; [done|]. set (i := bucket_of t (node_id nr)).
  destruct (bucket_at_placed t i Ht) as [Hl Hf].
  destruct (bucket_insert_spec nr (bucket_at t i)) as [(_ & b' & -> & Hp)|[(_ & Hlt & ->)|(_ & _ & tail & _ & ->)]];
    cbn [fst snd]; (split; [|done]); apply set_bucket_placed; try done.
  - by rewrite Hp.
  - by rewrite Hp.
  - by constructor.
Qed.
Lemma insert_end_placed nr t : table_placed t → node_id nr ≠ local_id t → table_placed (insert_end nr t).
Proof.
  intros Ht Hne. unfold insert_end. set (i := bucket_of t (node_id nr)).
  destruct (bucket_at_placed t i Ht) as [Hl Hf].
  destruct (replace_tail_cases nr (bucket_at t i)) as [[Hb ->]|(b0 & tail & Hb & ->)]; rewrite Hb in Hl, Hf.
  - by apply set_bucket_placed.
  - rewrite length_app in Hl. simpl in Hl. apply Forall_app in Hf as [Hf _].
    apply set_bucket_placed; [done|simpl; lia|by constructor].
Qed.
Lemma table_remove_placed id t : table_placed t → table_placed (table_remove id t).
Proof.
  intros Ht. unfold table_remove. destruct (bucket_at_placed t (bucket_of t id) Ht) as [Hl Hf].
  pose proof (sublist_filter (λ n, node_id n ≠ id) (bucket_at t (bucket_of t id))) as Hs.
  apply set_bucket_placed; [done| |].
  - apply sublist_length in Hs. unfold bucket_remove. lia.
  - rewrite Forall_forall in Hf |- *. intros n Hn. apply Hf. by eapply elem_of_sublist.
Qed.

Definition shared_new id : SharedTable := MkShared (table_new id) [].
Definition run_events (evs : list TableEvent) (s : SharedTable) : SharedTable := foldl table_event s evs.

(** Whatever the interleaving. *)
Definition shared_placed id (s : SharedTable) : Prop :=
  local_id (shared s) = id ∧ table_placed (shared s) ∧ Forall (λ w, node_id w.1 ≠ id) (waiting s).
Lemma event_placed id s ev : shared_placed id s → shared_placed id (table_event s ev).
Proof.
  intros (Hid & Ht & Hw). destruct ev as [nr|k alive|rid]; cbn [table_event].
  - destruct (insert_begin_placed nr _ Ht) as [Hp Hne].
    assert (Hl : local_id (insert_begin nr (shared s)).1 = id).
    { unfold insert_begin. case_bool_decide; [done|]. by destruct (bucket_insert _ _). }
    destruct (insert_begin nr (shared s)) as [t candidate]. cbn [fst snd] in *. split_and!; [done|done|].
    cbn [waiting]. apply Forall_app. split; [done|]. destruct candidate as [tail|]; [|constructor].
    constructor; [|constructor]. cbn [fst]. rewrite <-Hid. by apply Hne.
  - destruct (waiting s !! k) as [[nr tail]|] eqn:Hk; [|done]. pose proof (Forall_lookup_1 _ _ _ _ Hw Hk) as Hne. cbn [fst] in Hne.
    split_and!; cbn [shared waiting]; [by destruct alive|destruct alive; [done|apply insert_end_placed; [done|by rewrite Hid]]|].
    by apply Forall_delete.
  - split_and!; [done|by apply table_remove_placed|done].
Qed.
Lemma events_placed id evs s : shared_placed id s → shared_placed id (run_events evs s).
Proof. revert s; induction evs as [|ev evs IH]; intros s Hs; [done|]. by apply IH, event_placed. Qed.

(** No insertion begins while another one of the same peer waits for its ping. *)
Fixpoint no_overlap (s : SharedTable) (evs : list TableEvent) : bool :=
  match evs with
  | [] => true
  | ev :: evs =>
      match ev with InsertBegins nr => bool_decide (node_id nr ∉ ids (waiting s).*1) | _ => true end
      && no_overlap (table_event s ev) evs
  end.
(** Then those that wait are not in the table, and are different. *)
Definition shared_ok id (s : SharedTable) : Prop :=
  shared_placed id s ∧ (∀ i b, buckets (shared s) !! i = Some b → NoDup (ids b)) ∧ NoDup (ids (waiting s).*1) ∧
  ∀ w, w ∈ waiting s → node_id w.1 ∉ ids (bucket_at (shared s) (bucket_of (shared s) (node_id w.1))).

Lemma set_bucket_kept t i b b' (P : NodeID → Prop) :
  buckets t !! i = Some b → (∀ j b, buckets t !! j = Some b → NoDup (ids b)) → NoDup (ids b') →
  (∀ id, P id → id ∉ ids b → id ∉ ids b') →
  (∀ j b, buckets (set_bucket i b' t) !! j = Some b → NoDup (ids b)) ∧
  ∀ id, P id → id ∉ ids (bucket_at t (bucket_of t id)) →
    id ∉ ids (bucket_at (set_bucket i b' t) (bucket_of (set_bucket i b' t) id)).
Proof.
  intros Hi Hn Hn' Hsub. split.
  - intros j b0. simpl. rewrite list_lookup_insert_Some. intros [(_ & <- & _)|[_ Hj]]; [done|by apply (Hn j)].
  - intros id Hid. change (bucket_of (set_bucket i b' t) id) with (bucket_of t id). destruct (decide (i = bucket_of t id)) as [->|Hne].
    + rewrite bucket_at_set by (by eapply lookup_lt_Some). unfold bucket_at. rewrite Hi. by apply Hsub.
    + by rewrite bucket_at_set_ne.
Qed.

Lemma event_ok id s ev :
  is_id id → shared_ok id s →
  match ev with InsertBegins nr => node_id nr ∉ ids (waiting s).*1 | _ => True end → shared_ok id (table_event s ev).
Proof using sha3_bytes.
  intros Hid (Hp & Hn & Hw & Hout) Hev. pose proof (event_placed id s ev Hp) as Hp'. destruct Hp as (Hloc & Ht & Hws).
  pose proof (table_placed_ok _ Ht Hn) as Hok.
  assert (Hlook : ∀ nr, node_id nr ≠ id → buckets (shared s) !! bucket_of (shared s) (node_id nr) =
            Some (bucket_at (shared s) (bucket_of (shared s) (node_id nr)))).
  { intros nr Hne. apply bucket_at_ok; [done|]. apply bucket_of_lt; [done|by rewrite Hloc]. }
  split; [exact Hp'|clear Hp']. destruct ev as [nr|k alive|rid]; cbn [table_event].
  - unfold insert_begin. case_bool_decide as Hne; [by rewrite app_nil_r|].
    set (i := bucket_of (shared s) (node_id nr)) in *. set (b := bucket_at (shared s) i) in *.
    assert (Hi : buckets (shared s) !! i = Some b) by (apply Hlook; by rewrite <-Hloc).
    pose proof (Hn i b Hi) as Hnb.
    assert (Hin : ∀ w, w ∈ waiting s → node_id w.1 ≠ node_id nr).
    { intros w Hw' E. apply Hev. rewrite <-E. apply list_elem_of_fmap. exists w.1. split; [done|].
      apply list_elem_of_fmap. by exists w. }
    destruct (bucket_insert_spec nr b) as [(_ & b' & -> & Hperm)|[(Hnin & _ & ->)|(Hnin & _ & tail & _ & ->)]];
      cbn [shared waiting].
    + destruct (set_bucket_kept (shared s) i b b' (λ _, True) Hi Hn) as [A B]; [by rewrite Hperm|by intros ? _; rewrite Hperm|].
      rewrite app_nil_r. split_and!; [done|done|]. intros w Hw'. by apply B, Hout.
    + destruct (set_bucket_kept (shared s) i b (nr :: b) (λ j, j ≠ node_id nr) Hi Hn) as [A B].
      { rewrite fmap_cons. by constructor. }
      { intros j Hj Hjb. rewrite fmap_cons, not_elem_of_cons. done. }
      rewrite app_nil_r. split_and!; [done|done|]. intros w Hw'. apply B; [by apply Hin|by apply Hout].
    + destruct (set_bucket_kept (shared s) i b b (λ _, True) Hi Hn Hnb) as [A B]; [done|].
      split_and!; [done| |].
      * rewrite !fmap_app. apply NoDup_app. split_and!; [done| |apply NoDup_singleton].
        intros j Hj Hj'. apply list_elem_of_singleton in Hj' as ->. by apply Hev.
      * intros w [Hw'| ->%list_elem_of_singleton]%elem_of_app; [by apply B, Hout|]. cbn [fst]. by apply B.
  - destruct (waiting s !! k) as [[nr tail]|] eqn:Hk; [|done]. cbn [shared waiting].
    assert (Hnew : NoDup (ids (delete k (waiting s)).*1)).
    { rewrite !list_fmap_delete. eapply sublist_NoDup; [exact Hw|]. apply sublist_delete. }
    assert (Hrest : ∀ w, w ∈ delete k (waiting s) → w ∈ waiting s ∧ node_id w.1 ≠ node_id nr).
    { intros w Hw'. split; [by eapply elem_of_sublist; [|apply sublist_delete]|]. intros E.
      apply delete_Permutation in Hk. rewrite Hk in Hw. cbn [fmap list_fmap] in Hw. apply NoDup_cons in Hw as [Hw _].
      apply Hw. cbn [fst]. rewrite <-E. apply list_elem_of_fmap. exists w.1. split; [done|]. apply list_elem_of_fmap. by exists w. }
    destruct alive; cbn [shared].
    { split_and!; [done|done|]. intros w Hw'. apply Hout, Hrest, Hw'. }
    pose proof (Forall_lookup_1 _ _ _ _ Hws Hk) as Hne. cbn [fst] in Hne.
    unfold insert_end. set (i := bucket_of (shared s) (node_id nr)). set (b := bucket_at (shared s) i).
    pose proof (Hlook nr Hne) as Hi. fold i b in Hi. pose proof (Hn i b Hi) as Hnb.
    assert (Hnin : node_id nr ∉ ids b) by (apply (Hout (nr, tail)); by eapply list_elem_of_lookup_2).
    destruct (set_bucket_kept (shared s) i b (replace_tail nr b) (λ j, j ≠ node_id nr) Hi Hn) as [A B].
    { destruct (replace_tail_cases nr b) as [[_ ->]|(b0 & tl & Hb & ->)]; [constructor|].
      rewrite Hb, fmap_app in Hnb, Hnin. apply NoDup_app in Hnb as [Hnb _]. rewrite fmap_cons. constructor; [|done].
      intros H. apply Hnin, elem_of_app. by left. }
    { intros j Hj Hjb. destruct (replace_tail_cases nr b) as [[_ ->]|(b0 & tl & Hb & ->)]; [by intros ?%elem_of_nil|].
      rewrite fmap_cons, not_elem_of_cons. split; [done|]. intros H. apply Hjb. rewrite Hb, fmap_app, elem_of_app. by left. }
    split_and!; [done|done|]. intros w Hw'. destruct (Hrest w Hw') as [Hws' Hne']. apply B; [done|by apply Hout].
  - unfold table_remove. set (i := bucket_of (shared s) rid). cbn [shared waiting].
    destruct (buckets (shared s) !! i) as [b|] eqn:Hi.
    + assert (Hb : bucket_at (shared s) i = b) by (unfold bucket_at; by rewrite Hi). rewrite Hb.
      assert (Hsub : ids (bucket_remove rid b) `sublist_of` ids b) by (apply fmap_sublist; apply sublist_filter).
      destruct (set_bucket_kept (shared s) i b (bucket_remove rid b) (λ _, True) Hi Hn) as [A B].
      { eapply sublist_NoDup; [|exact Hsub]. by apply (Hn i). }
      { intros j _ Hj H. apply Hj. by eapply elem_of_sublist. }
      split_and!; [done|done|]. intros w Hw'. by apply B, Hout.
    + assert (Hs : set_bucket i (bucket_remove rid (bucket_at (shared s) i)) (shared s) = shared s).
      { unfold set_bucket. rewrite list_insert_ge; [by destruct (shared s)|]. by apply lookup_ge_None. }
      by rewrite Hs.
Qed.
Lemma events_ok id evs s : is_id id → shared_ok id s → no_overlap s evs = true → shared_ok id (run_events evs s).
Proof using sha3_bytes.
  intros Hid. revert s; induction evs as [|ev evs IH]; intros s Hs Hno; [done|]. cbn [no_overlap] in Hno.
  apply andb_true_iff in Hno as [H1 H2]. apply IH; [|done]. apply event_ok; [done..|].
  destruct ev; [|done..]. by apply bool_decide_eq_true in H1.
Qed.

(** An insertion that nothing interrupts, as events. *)
Lemma table_insert_events ping nr t :
  ∃ evs, run_events evs (MkShared t []) = MkShared (table_insert ping nr t) [].
Proof.
  unfold table_insert. destruct (insert_begin nr t) as [t' [tail|]] eqn:E.
  - exists [InsertBegins nr; PingEnds 0 (ping tail)]. unfold run_events. cbn [foldl table_event shared waiting]. rewrite E.
    cbn. by destruct (ping tail).
  - exists [InsertBegins nr]. unfold run_events. cbn [foldl table_event shared waiting]. by rewrite E.
Qed.

(** C32. However the tasks that insert and remove peers interleave, lock by lock, and
    whichever peers answer their pings: the node itself is not listed, every peer is in the
    bucket of its distance, and no bucket exceeds its capacity of twenty.  And no peer is
    listed twice, unless an insertion of a peer began while another one of the same peer
    waited for its ping. *)
Theorem routing_table_invariant id evs :
  is_id id → let t := shared (run_events evs (shared_new id)) in
  local_id t = id ∧
  (∀ nr, nr ∈ all_peers t → node_id nr ≠ id ∧ nr ∈ bucket_at t (bucket_of t (node_id nr))) ∧
  (∀ i, (length (bucket_at t i) ≤ K)%nat) ∧ (peer_count (MkDht t []) ≤ NBUCKETS * K)%nat ∧
  (no_overlap (shared_new id) evs = true → NoDup (ids (all_peers t))).
Proof using sha3_bytes.
  intros Hid t. assert (H0 : shared_placed id (shared_new id)).
  { split_and!; [done|by apply table_ok_placed, table_new_ok|constructor]. }
  destruct (events_placed id evs _ H0) as (Hloc & Ht & _). fold t in Hloc, Ht.
  split_and!; [done| |by intros i; apply bucket_at_placed| |].
  - intros nr (i & b & Hi & Hnr)%elem_of_all_peers. destruct (tp_buckets _ Ht i b Hi) as [_ Hf].
    rewrite Forall_forall in Hf. destruct (Hf nr Hnr) as [H1 H2]. rewrite <-Hloc. split; [done|].
    unfold bucket_at. by rewrite H2, Hi.
  - unfold peer_count, table_len. cbn [dht_table]. destruct Ht as [_ Hlen Hb]. rewrite <-Hlen.
    assert (Hall : Forall (λ b, (length b ≤ K)%nat) (buckets t)).
    { apply Forall_forall. intros b Hin. apply list_elem_of_lookup in Hin as [i Hi]. by destruct (Hb i b Hi). }
    clear -Hall. induction Hall as [|b l Hb _ IH]; [done|].
    change (sum_list (length <$> b :: l)) with (length b + sum_list (length <$> l))%nat.
    change (length (b :: l) * K)%nat with (K + length l * K)%nat. lia.
  - intros Hno. apply all_peers_nodup. destruct (events_ok id evs (shared_new id) Hid) as ((_ & Ht' & _) & Hn & _); [|done|].
    { split; [exact H0|]. split_and!; [|constructor|by intros w ?%elem_of_nil].
      intros i b Hi. by destruct (to_buckets _ (table_new_ok id Hid) i b Hi). }
    by apply table_placed_ok.
Qed.

(** Two insertions of one peer into a full bucket that overlap list it twice; the second puts
    out a peer that nobody has pinged since. *)
Theorem overlapping_inserts_duplicate nr t :
  table_ok t → node_id nr ≠ local_id t →
  let i := bucket_of t (node_id nr) in
  node_id nr ∉ ids (bucket_at t i) → length (bucket_at t i) = K →
  ∃ rest unpinged tail, bucket_at t i = rest ++ [unpinged; tail] ∧
    let s := run_events [InsertBegins nr; InsertBegins nr; PingEnds 0 false; PingEnds 0 false] (MkShared t []) in
    waiting s = [] ∧ bucket_at (shared s) i = nr :: nr :: rest.
Proof using sha3_bytes.
  intros Ht Hne i Hnin Hlen. pose proof (bucket_of_lt t nr Ht Hne) as Hi. fold i in Hi.
  destruct (bucket_at_ok t i Ht Hi) as [Hlook _]. set (b := bucket_at t i) in *.
  destruct (snoc_cases b) as [E|(b1 & tail & E)]; [by rewrite E in Hlen|].
  destruct (snoc_cases b1) as [E1|(rest & unpinged & E1)]; [by rewrite E, E1 in Hlen|].
  exists rest, unpinged, tail. split; [by rewrite E, E1, <-app_assoc|].
  assert (Hb : insert_begin nr t = (t, Some tail)).
  { unfold insert_begin. rewrite bool_decide_false by done. fold i b.
    destruct (bucket_insert_spec nr b) as [(? & _)|[(_ & ? & _)|(_ & _ & tl & Htl & ->)]]; [done|lia|].
    rewrite E, last_snoc in Htl. injection Htl as <-. f_equal. unfold set_bucket.
    rewrite list_insert_id by done. by destruct t. }
  unfold run_events. cbn [foldl table_event shared waiting]. rewrite Hb. cbn [table_event shared waiting app]. rewrite Hb.
  cbn [table_event shared waiting app lookup list_lookup delete list_delete]. split; [done|].
  assert (Hr : ∀ t b0 tl, (i < length (buckets t))%nat → bucket_of t (node_id nr) = i → bucket_at t i = b0 ++ [tl] →
            insert_end nr t = set_bucket i (nr :: b0) t).
  { intros t0 b0 tl Hl Hbo Hbt. unfold insert_end. rewrite Hbo, Hbt.
    destruct (replace_tail_cases nr (b0 ++ [tl])) as [[H _]|(b2 & tl2 & H & ->)]; [by destruct b0|].
    by apply app_inj_tail in H as [<- _]. }
  assert (Hl : (i < length (buckets t))%nat) by (by eapply lookup_lt_Some).
  rewrite (Hr t (rest ++ [unpinged]) tail) by (done || by rewrite <-E1).
  rewrite (Hr _ (nr :: rest) unpinged); [apply bucket_at_set|..].
  all: cbn [set_bucket buckets]; rewrite ?length_insert; try done. by rewrite bucket_at_set.
Qed.

(** *** Lookup *)
#[local] Instance nearer_trans target : Transitive (nearer target).
Proof. intros a b c. unfold nearer. apply bytes_le_trans. Qed.
#[local] Instance nearer_total target : Total (nearer target).
Proof. intros a b. unfold nearer. apply bytes_le_total. Qed.

Lemma closest_split target t :
  sort_by_distance target (all_peers t) ≡ₚ all_peers t ∧
  StronglySorted (nearer target) (sort_by_distance target (all_peers t)).
Proof. split; [apply merge_sort_Permutation|apply StronglySorted_merge_sort; apply _]. Qed.

Lemma StronglySorted_app_rel {A} (R : relation A) l1 l2 x y :
  StronglySorted R (l1 ++ l2) → x ∈ l1 → y ∈ l2 → R x y.
Proof.
  induction l1 as [|a l1 IH]; intros Hs Hx Hy; [by apply elem_of_nil in Hx|].
  apply StronglySorted_inv in Hs as [Hs Hall]. apply elem_of_cons in Hx as [->|Hx]; [|by apply IH].
  rewrite Forall_forall in Hall. apply Hall. apply elem_of_app. by right.
Qed.

(** A lookup returns as many peers as it may, all different, nearest first, and no
    peer that it leaves out is nearer to the target than one it returns. *)
Theorem get_closest_correct target k t :
  table_ok t →
  let out := get_closest target k t in
  length out = Nat.min k (length (all_peers t)) ∧ NoDup (ids out) ∧ StronglySorted (nearer target) out ∧
  (∀ p, p ∈ out → p ∈ all_peers t) ∧
  (∀ p q, p ∈ out → q ∈ all_peers t → q ∉ out → nearer target p q).
Proof.
  intros Ht. cbv zeta. unfold get_closest. destruct (closest_split target t) as [Hp Hs].
  set (l := sort_by_distance target (all_peers t)) in *.
  assert (Hnd : NoDup (ids l)) by (rewrite Hp; by apply all_peers_nodup).
  rewrite <-(take_drop k l) in Hnd, Hs. split_and!.
  - by rewrite length_take, <-Hp.
  - rewrite fmap_app in Hnd. by apply NoDup_app in Hnd as [? _].
  - eapply StronglySorted_sublist; [|exact Hs]. apply sublist_inserts_r. done.
  - intros p Hin. rewrite <-Hp, <-(take_drop k l). apply elem_of_app. by left.
  - intros p q Hin Hq Hn. apply (StronglySorted_app_rel _ _ _ p q Hs Hin).
    rewrite <-Hp, <-(take_drop k l) in Hq. by apply elem_of_app in Hq as [?|?].
Qed.
End table.
