(* ===== verification/Kademlia.v ===== *)
(** The iterative lookup of the Kademlia engine (primus-net-opt lib.rs find_node).

    The answer of a peer may differ from round to round, so that the RPC is a function of
    the round and the peer; a failed call is [None].  The answers of a batch are processed
    in the order of the batch, after the failed peers are removed. *)
From S2P Require Import Prelude Floats Types Dht DhtFacts.
Open Scope Z_scope.

Definition ALPHA : nat := 3.

Section lookup.
Context {HA : Hashes} (mldsa_verify : bytes → bytes → bytes → bool).
Context (ping : PrimusNR → bool) (send_find_node : nat → PrimusNR → option (list PrimusNR)).
Implicit Types (nr : PrimusNR) (t : RoutingTable) (queue closest : list PrimusNR) (visited : gset NodeID).

Definition handle_new_peer nr t : RoutingTable :=
  if nr_verify mldsa_verify nr then table_insert ping nr t else t.
Definition mark_failed (id : NodeID) t : RoutingTable := table_remove id t.

(** Up to [ALPHA] peers of the queue that are not visited. *)
Definition next_batch queue visited : list PrimusNR :=
  take ALPHA (filter (λ nr, node_id nr ∉ visited) queue).

(** `dedup_by_key(|n| n.node_id())`: runs of one identifier leave their first element. *)
Fixpoint dedup_by_id (prev : option NodeID) (l : list PrimusNR) : list PrimusNR :=
  match l with
  | [] => []
  | nr :: l =>
      if bool_decide (prev = Some (node_id nr)) then dedup_by_id prev l
      else nr :: dedup_by_id (Some (node_id nr)) l
  end.

(** One peer of an answer: the table, the queue, whether something new was found. *)
Definition learn visited (acc : RoutingTable * list PrimusNR * bool) nr : RoutingTable * list PrimusNR * bool :=
  let '(t, queue, found) := acc in
  let t := handle_new_peer nr t in
  if bool_decide (node_id nr ∈ visited) then (t, queue, found) else (t, queue ++ [nr], true).

Record Lookup := MkLookup {
  lk_table : RoutingTable;
  lk_queue : list PrimusNR;
  lk_closest : list PrimusNR;
  lk_visited : gset NodeID;
}.

(** The answers of a batch, flattened. *)
Definition batch_answers (round : nat) (batch : list PrimusNR) : list PrimusNR :=
  concat (omap snd ((λ nr, (nr, send_find_node round nr)) <$> batch)).

(** The body of the loop for a batch: the next state, or the result. *)
Definition lookup_batch (target : NodeID) (round : nat) (s : Lookup) (batch : list PrimusNR)
    : Lookup + (RoutingTable * list PrimusNR) :=
  let visited := foldl (λ v nr, {[node_id nr]} ∪ v) (lk_visited s) batch in
  let t := foldl (λ t nr, match send_find_node round nr with
                          | None => mark_failed (node_id nr) t
                          | Some _ => t
                          end) (lk_table s) batch in
  let '(t, queue, found) := foldl (learn visited) (t, lk_queue s, false) (batch_answers round batch) in
  if negb found then inr (t, lk_closest s)
  else
    let closest := take K (dedup_by_id None (sort_by_distance target (lk_closest s ++ queue))) in
    match filter (λ nr, node_id nr ∉ visited) closest with
    | [] => inr (t, closest)
    | queue => inl (MkLookup t queue closest visited)
    end.
Definition lookup_round (target : NodeID) (round : nat) (s : Lookup) : Lookup + (RoutingTable * list PrimusNR) :=
  match next_batch (lk_queue s) (lk_visited s) with
  | [] => inr (lk_table s, lk_closest s)
  | batch => lookup_batch target round s batch
  end.

Fixpoint lookup_loop (fuel : nat) (target : NodeID) (round : nat) (s : Lookup)
    : option (RoutingTable * list PrimusNR) :=
  match fuel with
  | O => None
  | S fuel =>
      match lookup_round target round s with
      | inr res => Some res
      | inl s => lookup_loop fuel target (S round) s
      end
  end.

Definition lookup_start (target : NodeID) t : Lookup :=
  MkLookup t (get_closest target K t) [] {[local_id t]}.
Definition find_node (fuel : nat) (target : NodeID) t : option (RoutingTable * list PrimusNR) :=
  lookup_loop fuel target 0 (lookup_start target t).

(** ** Every round visits a new peer *)
Definition known_ids (U : gset NodeID) (s : Lookup) : Prop :=
  lk_visited s ⊆ U ∧ Forall (λ nr, node_id nr ∈ U) (lk_queue s) ∧ Forall (λ nr, node_id nr ∈ U) (lk_closest s).

Lemma next_batch_spec queue visited nr : nr ∈ next_batch queue visited → nr ∈ queue ∧ node_id nr ∉ visited.
Proof.
  unfold next_batch. intros H. assert (Hin : nr ∈ filter (λ nr, node_id nr ∉ visited) queue)
    by (rewrite <-(take_drop ALPHA (filter _ _)); apply elem_of_app; by left).
  by apply list_elem_of_filter in Hin as [? ?].
Qed.

Lemma visit_all visited batch id :
  id ∈ foldl (λ v nr, {[node_id nr]} ∪ v) visited batch ↔ id ∈ visited ∨ id ∈ node_id <$> batch.
Proof.
  revert visited; induction batch as [|nr batch IH]; intros visited; cbn [foldl]; [set_solver|].
  rewrite IH, fmap_cons. set_solver.
Qed.

Lemma learn_all visited l t queue found :
  let '(_, queue', found') := foldl (learn visited) (t, queue, found) l in
  queue' = queue ++ filter (λ nr, node_id nr ∉ visited) l ∧
  (found' = true ↔ found = true ∨ ∃ nr, nr ∈ l ∧ node_id nr ∉ visited).
Proof.
  revert t queue found; induction l as [|nr l IH]; intros t queue found.
  { cbn [foldl]. split; [by rewrite app_nil_r|]. split; [by left|]. intros [?|(nr & H & _)]; [done|set_solver]. }
  cbn [foldl]. unfold learn at 2.
  destruct (bool_decide (node_id nr ∈ visited)) eqn:E.
  - apply bool_decide_eq_true in E. specialize (IH (handle_new_peer nr t) queue found).
    destruct (foldl _ _ l) as [[t' queue'] found']. destruct IH as [-> ->].
    rewrite filter_cons_False by auto. split; [done|]. set_solver.
  - apply bool_decide_eq_false in E. specialize (IH (handle_new_peer nr t) (queue ++ [nr]) true).
    destruct (foldl _ _ l) as [[t' queue'] found']. destruct IH as [-> ->].
    rewrite filter_cons_True by done. rewrite <-app_assoc. split; [done|]. split; [|by left].
    intros _. right. exists nr. split; [left|done].
Qed.

Lemma dedup_sublist prev l : dedup_by_id prev l `sublist_of` l.
Proof. revert prev; induction l as [|nr l IH]; intros prev; simpl; [done|]. case_bool_decide; by constructor. Qed.

Lemma elem_of_dedup_sort target l nr :
  nr ∈ take K (dedup_by_id None (sort_by_distance target l)) → nr ∈ l.
Proof.
  intros H. assert (Hin : nr ∈ dedup_by_id None (sort_by_distance target l))
    by (rewrite <-(take_drop K (dedup_by_id _ _)); apply elem_of_app; by left).
  eapply elem_of_sublist in Hin; [|apply dedup_sublist]. unfold sort_by_distance in Hin.
  by rewrite merge_sort_Permutation in Hin.
Qed.

Abbreviation visit v0 batch := (foldl (λ v nr, {[node_id nr]} ∪ v) v0 batch).

Lemma elem_of_batch_answers round batch n :
  n ∈ batch_answers round batch ↔ ∃ nr l, nr ∈ batch ∧ send_find_node round nr = Some l ∧ n ∈ l.
Proof.
  unfold batch_answers. rewrite list_elem_of_In, in_concat. split.
  - intros (l & Hl & Hn). apply list_elem_of_In, list_elem_of_omap in Hl as ([nr o] & Hin & Ho).
    apply list_elem_of_fmap in Hin as (nr' & [= -> ->] & Hnr). exists nr', l.
    split_and!; [done|exact Ho|by apply list_elem_of_In].
  - intros (nr & l & Hnr & Hs & Hn). exists l. split; [|by apply list_elem_of_In]. apply list_elem_of_In.
    apply list_elem_of_omap. exists (nr, send_find_node round nr). split; [|exact Hs].
    apply list_elem_of_fmap. by exists nr.
Qed.

Lemma lookup_batch_inl target round s s' batch :
  lookup_batch target round s batch = inl s' →
  lk_visited s' = visit (lk_visited s) batch ∧
  (∀ nr, nr ∈ lk_closest s' → nr ∈ lk_closest s ∨ nr ∈ lk_queue s ∨ nr ∈ batch_answers round batch) ∧
  (∀ nr, nr ∈ lk_queue s' → nr ∈ lk_closest s').
Proof.
  unfold lookup_batch. cbv zeta. set (t := foldl _ (lk_table s) _).
  pose proof (learn_all (visit (lk_visited s) batch) (batch_answers round batch) t (lk_queue s) false) as H.
  destruct (foldl (learn _) _ _) as [[t' queue] found]. destruct H as [-> _]. destruct found; [|done]. cbn [negb].
  set (closest := take K _). destruct (filter _ closest) as [|q0 q] eqn:Eq; [done|]. intros [= <-].
  cbn [lk_visited lk_closest lk_queue]. split_and!; [done| |].
  - intros nr H. apply elem_of_dedup_sort in H. apply elem_of_app in H as [H|H]; [by left|].
    apply elem_of_app in H as [H|H]; [by right; left|]. apply list_elem_of_filter in H as [_ H]. by right; right.
  - intros nr H. rewrite <-Eq in H. by apply list_elem_of_filter in H as [_ ?].
Qed.

Lemma lookup_round_cases target round s :
  (next_batch (lk_queue s) (lk_visited s) = [] ∧ lookup_round target round s = inr (lk_table s, lk_closest s)) ∨
  (next_batch (lk_queue s) (lk_visited s) ≠ [] ∧
   lookup_round target round s = lookup_batch target round s (next_batch (lk_queue s) (lk_visited s))).
Proof. unfold lookup_round. destruct (next_batch _ _); [by left|by right]. Qed.

Section progress.
Context (U : gset NodeID).
Context (answers_known : ∀ round nr l, send_find_node round nr = Some l → Forall (λ n, node_id n ∈ U) l).

Lemma lookup_progress target round s s' :
  known_ids U s → lookup_round target round s = inl s' →
  known_ids U s' ∧ (size (U ∖ lk_visited s') < size (U ∖ lk_visited s))%nat.
Proof using answers_known.
  intros (Hv & Hq & Hc) H. destruct (lookup_round_cases target round s) as [[_ E]|[Hne E]]; rewrite E in H; [done|].
  set (batch := next_batch (lk_queue s) (lk_visited s)) in *.
  destruct (lookup_batch_inl _ _ _ _ _ H) as (V & C & Q).
  assert (Hbatch : ∀ nr, nr ∈ batch → node_id nr ∈ U ∧ node_id nr ∉ lk_visited s).
  { intros nr [Hin Hn]%next_batch_spec. rewrite Forall_forall in Hq. by split; [apply Hq|]. }
  assert (Hclosest : Forall (λ nr, node_id nr ∈ U) (lk_closest s')).
  { rewrite Forall_forall in *. intros nr [?|[?|Hin]]%C; [by apply Hc|by apply Hq|].
    apply elem_of_batch_answers in Hin as (nr' & l & _ & Hs & Hin). specialize (answers_known _ _ _ Hs).
    rewrite Forall_forall in answers_known. by apply answers_known. }
  split; [split_and!; [|rewrite Forall_forall in *; intros nr Hnr; by apply Hclosest, Q|done]|].
  - rewrite V. intros id [?|(nr & -> & Hin)%list_elem_of_fmap]%visit_all; [by apply Hv|by apply Hbatch].
  - destruct batch as [|b0 batch']; [done|]. destruct (Hbatch b0) as [HU Hn]; [by left|].
    apply subset_size. split.
    + intros id. rewrite !elem_of_difference, V, visit_all. naive_solver.
    + intros Hsub. specialize (Hsub (node_id b0)). rewrite !elem_of_difference, V, visit_all, fmap_cons in Hsub.
      destruct Hsub as [_ Hsub]; [by split|]. apply Hsub. right. left.
Qed.

Lemma lookup_ends target t fuel :
  Forall (λ nr, node_id nr ∈ U) (get_closest target K t) → local_id t ∈ U → (size U < fuel)%nat →
  is_Some (find_node fuel target t).
Proof using answers_known.
  intros Hseed Hloc Hfuel. unfold find_node.
  assert (Hk : known_ids U (lookup_start target t)) by (split_and!; [set_solver|done|constructor]).
  assert (Hsize : (size (U ∖ lk_visited (lookup_start target t)) < fuel)%nat).
  { eapply Nat.le_lt_trans; [|exact Hfuel]. apply subseteq_size. set_solver. }
  revert Hk Hsize. generalize (lookup_start target t) O. revert Hfuel. intros _.
  induction fuel as [|fuel IH]; intros s round Hk Hsize; [lia|]. cbn [lookup_loop].
  destruct (lookup_round target round s) as [s'|res] eqn:E; [|by eexists].
  destruct (lookup_progress target round s s' Hk E) as [Hk' Hlt]. apply IH; [done|lia].
Qed.

(** A lookup ends: every round but the last asks a peer it had not asked, so that a
    network of finitely many identifiers is exhausted after as many rounds. *)
Theorem find_node_terminates target t fuel :
  Forall (λ nr, node_id nr ∈ U) (get_closest target K t) → local_id t ∈ U → (size U < fuel)%nat →
  is_Some (find_node fuel target t).
Proof using answers_known. apply lookup_ends. Qed.
End progress.

(** A lookup whose first peers answer with nothing but themselves and the node, or not
    at all, returns nobody, although the table has the peers it asked: the seeds enter the
    result only after a first round with news. *)
Theorem find_node_forgets_seeds target t fuel :
  let batch := next_batch (get_closest target K t) {[local_id t]} in
  (∀ nr l n, nr ∈ batch → send_find_node 0 nr = Some l → n ∈ l →
     node_id n = local_id t ∨ node_id n ∈ node_id <$> batch) →
  ∃ t', find_node (S fuel) target t = Some (t', []).
Proof.
  cbv zeta. set (batch := next_batch _ _). intros Hans. unfold find_node. cbn [lookup_loop].
  destruct (lookup_round_cases target 0 (lookup_start target t)) as [[_ ->]|[_ ->]]; [by eexists|].
  cbn [lk_queue lk_visited lookup_start]. fold batch. unfold lookup_batch. cbv zeta.
  cbn [lk_queue lk_visited lk_table lk_closest lookup_start]. set (t1 := foldl _ t _).
  pose proof (learn_all (visit {[local_id t]} batch) (batch_answers 0 batch) t1 (get_closest target K t) false) as H.
  destruct (foldl (learn _) _ _) as [[t' queue] found]. destruct H as [_ Hf]. destruct found; [|by eexists].
  exfalso. destruct (proj1 Hf eq_refl) as [?|(n & Hn & Hv)]; [done|].
  apply elem_of_batch_answers in Hn as (nr & l & Hnr & Hs & Hn). apply Hv, visit_all.
  destruct (Hans nr l n Hnr Hs Hn) as [->|?]; [left; set_solver|by right].
Qed.
End lookup.
