(* ===== verification/Maintenance.v ===== *)
(** The maintenance of the routing table (primus-net-opt lib.rs start_maintenance): a lookup
    of a random identifier every hour, each with the network it then finds. *)
From S2P Require Import Prelude Floats Types Dht DhtFacts Kademlia.
Open Scope Z_scope.

(** An hour: the identifier drawn, which peers answer a ping, and the answers of peers. *)
Record Hour := MkHour {
  random_id : NodeID;
  answering : PrimusNR → bool;
  answers : nat → PrimusNR → option (list PrimusNR);
}.

Section maintenance.
Context {HA : Hashes} (sha3_bytes : ∀ b, Forall is_byte (sha3_256 b)) (mldsa_verify : bytes → bytes → bytes → bool).
Implicit Types (nr : PrimusNR) (t : RoutingTable) (U : gset NodeID).

Fixpoint start_maintenance (fuel : nat) (hours : list Hour) t : option RoutingTable :=
  match hours with
  | [] => Some t
  | h :: hours =>
      match find_node mldsa_verify (answering h) (answers h) fuel (random_id h) t with
      | Some (t, _) => start_maintenance fuel hours t
      | None => None
      end
  end.

(** ** Which records a table can come to hold *)
Lemma table_insert_peers ping nr t p :
  table_ok t → p ∈ all_peers (table_insert ping nr t) → p = nr ∨ p ∈ all_peers t.
Proof.
  intros Ht. destruct (decide (node_id nr = local_id t)) as [He|Hne].
  { unfold table_insert, insert_begin. rewrite bool_decide_true by done. by right. }
  destruct (table_insert_bucket sha3_bytes ping nr t Ht Hne) as (b' & -> & _ & Hc). cbv zeta in Hc.
  pose proof (bucket_of_lt sha3_bytes t nr Ht Hne) as Hi. destruct (bucket_at_ok t _ Ht Hi) as [Hlook _].
  set (i := bucket_of t (node_id nr)) in *. set (b := bucket_at t i) in *.
  assert (Hb : ∀ q, q ∈ b' → q = nr ∨ q ∈ b).
  { intros q Hq. destruct Hc as [[_ Hp]|[(_ & _ & Hp)|(_ & _ & tail & _ & Hp)]].
    - right. by rewrite <-Hp.
    - rewrite Hp in Hq. by apply elem_of_cons in Hq.
    - destruct (ping tail); [subst; by right|]. assert (Hin : q ∈ tail :: b') by by right.
      rewrite Hp in Hin. by apply elem_of_cons in Hin. }
  intros (j & b0 & Hj & Hin)%elem_of_all_peers. cbn in Hj.
  apply list_lookup_insert_Some in Hj as [(<- & <- & _)|[_ Hj]].
  - destruct (Hb p Hin) as [->|Hp]; [by left|right]. apply elem_of_all_peers. by exists i, b.
  - right. apply elem_of_all_peers. by exists j, b0.
Qed.

Lemma table_remove_peers id t p : table_ok t → p ∈ all_peers (table_remove id t) → p ∈ all_peers t.
Proof.
  intros Ht (j & b & Hj & Hin)%elem_of_all_peers. unfold table_remove, set_bucket in Hj. cbn in Hj.
  apply elem_of_all_peers. apply list_lookup_insert_Some in Hj as [(<- & <- & Hlt)|[_ Hj]]; [|by exists j, b].
  destruct Ht as [? Hl ?]. rewrite Hl in Hlt. exists (bucket_of t id), (bucket_at t (bucket_of t id)).
  split; [by apply bucket_at_ok|]. by apply list_elem_of_filter in Hin as [_ ?].
Qed.

Lemma table_insert_local ping nr t : local_id (table_insert ping nr t) = local_id t.
Proof.
  unfold table_insert, insert_begin. case_bool_decide; [done|]. cbv zeta.
  by destruct (bucket_insert _ _) as [? [tl|]]; [destruct (ping tl)|].
Qed.

(** ** A lookup changes the table by its two operations only *)
Section lookup.
Context (ping : PrimusNR → bool) (rpc : nat → PrimusNR → option (list PrimusNR)).
Context (Q : RoutingTable → Prop) (known : PrimusNR → Prop).
Context (Q_failed : ∀ id t, Q t → Q (mark_failed id t)).
Context (Q_new : ∀ nr t, known nr → Q t → Q (handle_new_peer mldsa_verify ping nr t)).
Context (answers_known : ∀ round nr l, rpc round nr = Some l → Forall known l).

Lemma learn_inv visited l t queue found :
  Forall known l → Q t → Q (foldl (learn mldsa_verify ping visited) (t, queue, found) l).1.1.
Proof using Q_new.
  intros Hl. revert t queue found; induction Hl as [|nr l Hn Hl IH]; intros t queue found Ht; [done|].
  cbn [foldl]. unfold learn at 2. case_bool_decide; by apply IH, Q_new.
Qed.

Lemma lookup_batch_inv target round s batch :
  Q (lk_table s) →
  match lookup_batch mldsa_verify ping rpc target round s batch with
  | inl s' => Q (lk_table s') | inr (t, _) => Q t
  end.
Proof using Q_new Q_failed answers_known.
  intros Ht. unfold lookup_batch. cbv zeta. set (t0 := foldl _ (lk_table s) batch).
  assert (H0 : Q t0).
  { unfold t0. clear t0. revert Ht. generalize (lk_table s).
    induction batch as [|nr batch IH]; intros t Ht; [done|]. cbn [foldl]. apply IH.
    destruct (rpc round nr); [done|by apply Q_failed]. }
  assert (Ha : Forall known (batch_answers rpc round batch)).
  { apply Forall_forall. intros n (nr & l & _ & Hr & Hin)%elem_of_batch_answers.
    specialize (answers_known _ _ _ Hr). rewrite Forall_forall in answers_known. by apply answers_known. }
  pose proof (learn_inv (foldl (λ v nr, {[node_id nr]} ∪ v) (lk_visited s) batch) _ t0 (lk_queue s) false Ha H0) as H.
  destruct (foldl (learn _ _ _) _ _) as [[t' queue] found]. cbn [fst] in H.
  destruct found; cbn [negb]; [|done]. by destruct (filter _ (take K _)).
Qed.

Lemma find_node_inv fuel target t t' res :
  Q t → find_node mldsa_verify ping rpc fuel target t = Some (t', res) → Q t'.
Proof using Q_new Q_failed answers_known.
  intros Ht. unfold find_node. assert (H0 : Q (lk_table (lookup_start target t))) by done. revert H0.
  generalize (lookup_start target t) O. induction fuel as [|fuel IH]; intros s round Hs; [done|]. cbn [lookup_loop].
  pose proof (lookup_batch_inv target round s (next_batch (lk_queue s) (lk_visited s)) Hs) as H.
  destruct (lookup_round_cases mldsa_verify ping rpc target round s) as [[_ ->]|[_ ->]]; [by intros [= <- <-]|].
  destruct (lookup_batch _ _ _ _ _ _ _) as [s'|[t1 l1]]; [by apply IH|]. by intros [= <- <-].
Qed.
End lookup.

(** ** The invariant *)
Record table_sound U (me : NodeID) t : Prop := {
  ts_ok : table_ok t;
  ts_me : local_id t = me;
  ts_peers p : p ∈ all_peers t → node_id p ∈ U ∧ nr_verify mldsa_verify p = true;
}.
Lemma table_new_sound U me : is_id me → table_sound U me (table_new me).
Proof.
  intros Hme. split; [by apply table_new_ok|done|]. intros p (j & b & Hj & Hin)%elem_of_all_peers.
  apply lookup_replicate in Hj as [-> _]. by apply elem_of_nil in Hin.
Qed.
Lemma sound_failed U me id t : table_sound U me t → table_sound U me (mark_failed id t).
Proof.
  intros [H1 H2 H3]. split; [by apply table_remove_ok|done|]. intros p Hp. apply H3. by eapply table_remove_peers.
Qed.
Lemma sound_new U me ping nr t :
  node_id nr ∈ U → table_sound U me t → table_sound U me (handle_new_peer mldsa_verify ping nr t).
Proof.
  intros Hn [H1 H2 H3]. unfold handle_new_peer. destruct (nr_verify mldsa_verify nr) eqn:Hv; [|done].
  split; [by apply (table_insert_ok sha3_bytes)|by rewrite table_insert_local|].
  intros p [->|Hp]%table_insert_peers; [done|by apply H3|done].
Qed.

End maintenance.
