(* ===== verification/Gossip.v ===== *)
(** The peer-to-peer protocol (primus-net-opt network.rs and gossip.rs): the messages, the
    handler of a session, and the flooding of reactions and crystals.

    An asynchronous function is a program of sections: it waits for a lock, changes the
    state, lets the lock go.  [on_message] and [on_task] are the handlers as such programs;
    [handle_message] and [run_task] are what they do when nothing comes between their
    sections, and System runs them section by section among everything else that happens.
    What a handler spawns is a list of tasks that run later, on the state they then find.
    Sockets are not modelled: what is sent is output. *)
From S2P Require Import Prelude Floats Types Text Dht.
Open Scope Z_scope.

(** ** Asynchronous functions *)
(** The locks: the engine, the mempool, the reassembler and the network of the core, the
    seen messages of the gossip service, the peers of the table. *)
Inductive LockName := LEngine | LMempool | LReassembler | LNetwork | LSeen | LPeers.
#[export] Instance lock_eq_dec : EqDecision LockName.
Proof. solve_decision. Defined.

(** Between two awaits a function changes the state without interruption; it awaits locks,
    and holds a lock from the time it gets it until it drops the guard. *)
Inductive Async (S A : Type) : Type :=
| Return (a : A)
| Atomic {X : Type} (f : S → S * X) (k : X → Async S A)
| Acquire (l : LockName) (p : Async S A)
| Release (l : LockName) (p : Async S A).
Arguments Return {S A} a.
Arguments Atomic {S A X} f k.
Arguments Acquire {S A} l p.
Arguments Release {S A} l p.

Fixpoint async_bind {S A B} (k : A → Async S B) (p : Async S A) : Async S B :=
  match p with
  | Return a => k a
  | Atomic f k' => Atomic f (λ x, async_bind k (k' x))
  | Acquire l p => Acquire l (async_bind k p)
  | Release l p => Release l (async_bind k p)
  end.
#[export] Instance async_mret {S} : MRet (Async S) := λ A, Return.
#[export] Instance async_mbind {S} : MBind (Async S) := λ A B, async_bind.
#[export] Instance async_fmap {S} : FMap (Async S) := λ A B f, async_bind (λ a, Return (f a)).

Definition atomically {S X} (f : S → S * X) : Async S X := Atomic f Return.
(** `self.x.lock().await`, used at once. *)
Definition with_lock {S X} (l : LockName) (f : S → S * X) : Async S X :=
  Acquire l (Atomic f (λ x, Release l (Return x))).

(** A run without interruption, from the locks held.  It gives no result when it is cut,
    having got [cut] locks, or when it waits for a lock that it holds itself.  With the
    result: what is left of [cut], and the locks held. *)
Fixpoint exec {S A} (cut : option nat) (held : list LockName) (p : Async S A) (s : S)
    : S * option (A * option nat * list LockName) :=
  match p with
  | Return a => (s, Some (a, cut, held))
  | Atomic f k => let '(s, x) := f s in exec cut held (k x) s
  | Acquire l p =>
      if bool_decide (l ∈ held) then (s, None)
      else
        match cut with
        | None => exec None (l :: held) p s
        | Some O => (s, None)
        | Some (Datatypes.S k) => exec (Some k) (l :: held) p s
        end
  | Release l p => exec cut (filter (.≠ l) held) p s
  end.
Definition run {S A} (cut : option nat) (p : Async S A) (s : S) : S * option A :=
  let '(s, r) := exec cut [] p s in (s, (λ r, r.1.1) <$> r).

(** ** Messages *)
Inductive PrimusMessage :=
| Ping
| Pong
| MHandshake (version name : bytes) (chain_height : Z) (total_energy : f32) (listener_port : Z)
| GetPeers
| PeersResponse (peers : list bytes)
| NewReaction (data : bytes) (ttl : Z)
| NewCrystal (data : bytes) (ttl : Z)
| GetCrystal (i : Z)
| CrystalResponse (data : bytes)
| MSync (m : SyncMessage)
| FetchState (address : bytes)
| StateResponse (m n : Z) (last_hash el : bytes)
| SubmitReaction (reaction_bytes : bytes)
| ReactionAck (hash : bytes)
| NodeError (reason : bytes)
| GetProof (address : bytes)
| ProofResponse (p : MerkleProof).

(** bincode's encoding and decoding of a message (crate bincode). *)
Class MessageCodec := { ser_msg : PrimusMessage → bytes }.
Class MessageDecoder := { de_msg : bytes → option PrimusMessage }.

(** The trait CoreHandle, over the state of the core.  Two of its functions take several
    locks, one after the other; each of the others holds the engine's lock throughout
    ([on_get_proof] only to get at the disk, which it is taken to read there and then). *)
Class CoreHandle (S : Type) := {
  on_crystal : bytes → Async S bool;
  local_state : S → Z * f32 * f32;
  get_crystal_bytes : Z → S → option bytes;
  set_sync_target : Z → S → S;
  core_is_syncing : S → bool;
  finish_sync : S → S;
  get_atom_state : bytes → S → result (Z * Z * bytes * bytes) bytes;
  push_bytes : bytes → Async S (result unit bytes);
  on_get_proof : bytes → S → result MerkleProof bytes;
}.

Definition MAX_SEEN : nat := Z.to_nat 10000.
Definition EVICT_COUNT : nat := Z.to_nat 1000.

(** What is spawned: to run the core on a message and flood it, to connect, to send. *)
Inductive Task :=
| TConnect (a : bytes)
| TReaction (data : bytes) (m : PrimusMessage)
| TCrystal (data : bytes) (m : PrimusMessage)
| TPush (data : bytes)
| TOnCrystal (data : bytes)
| TSend (a : bytes) (m : PrimusMessage).

Section network.
Context {HA : Hashes} {MC : MessageCodec} {S : Type} {CH : CoreHandle S}.
(** The iteration order of the hash set of seen messages, and the text of an address. *)
Context (iter_seen : gset bytes → list bytes) (show : SocketAddr → bytes).

Record Network := MkNetwork {
  net_port : Z;
  net_core : S;
  net_dht : PrimusDHT;
  has_gossip : bool;
  seen_messages : gset bytes;
  frame_drops : Z;
}.
Implicit Types (n : Network) (m : PrimusMessage).
Definition network_new (port : Z) (core : S) (dht : PrimusDHT) (drops : Z) : Network :=
  MkNetwork port core dht false ∅ drops.
Definition set_gossip n : Network :=
  MkNetwork (net_port n) (net_core n) (net_dht n) true (seen_messages n) (frame_drops n).
Definition set_core (c : S) n : Network :=
  MkNetwork (net_port n) c (net_dht n) (has_gossip n) (seen_messages n) (frame_drops n).
Definition set_dht (d : PrimusDHT) n : Network :=
  MkNetwork (net_port n) (net_core n) d (has_gossip n) (seen_messages n) (frame_drops n).
Definition set_seen (s : gset bytes) n : Network :=
  MkNetwork (net_port n) (net_core n) (net_dht n) (has_gossip n) s (frame_drops n).
Definition add_drop n : Network :=
  MkNetwork (net_port n) (net_core n) (net_dht n) (has_gossip n) (seen_messages n)
    (u64_wrapping_add (frame_drops n) 1).

(** ** gossip.rs *)
Definition message_id m : bytes := sha3_256 (ser_msg m).

(** `seen.insert(id)`, and the eviction of a thousand entries when it is over capacity. *)
Definition remember (id : bytes) (seen : gset bytes) : gset bytes :=
  let seen := {[id]} ∪ seen in
  if (MAX_SEEN <? size seen)%nat
  then foldl (λ s k, s ∖ {[k]}) seen (take EVICT_COUNT (iter_seen seen))
  else seen.

(** The lifetime of a message and whether it decays; the other messages are not flooded. *)
Definition lifetime m : option (Z * bool) :=
  match m with
  | NewReaction _ ttl => Some (ttl, true)
  | NewCrystal _ ttl => Some (ttl, false)
  | MSync _ => Some (1, true)
  | _ => None
  end.
Definition next_ttl (current_ttl : Z) (should_decay : bool) : option Z :=
  if should_decay then (if current_ttl <=? 1 then None else Some (current_ttl - 1)) else Some current_ttl.
Definition with_ttl m (ttl : Z) : option PrimusMessage :=
  match m with
  | NewReaction d _ => Some (NewReaction d ttl)
  | NewCrystal d _ => Some (NewCrystal d ttl)
  | MSync s => Some (MSync s)
  | _ => None
  end.

Definition local_task m : list Task :=
  match m with
  | NewReaction data _ => [TPush data]
  | NewCrystal data _ => [TOnCrystal data]
  | _ => []
  end.

Definition forward m (source_addr : option bytes) (peer_addr : bytes) : list Task :=
  if bool_decide (source_addr = Some peer_addr) then []
  else
    match lifetime m with
    | Some (current_ttl, should_decay) =>
        match next_ttl current_ttl should_decay ≫= with_ttl m with
        | Some m => [TSend peer_addr m]
        | None => []
        end
    | None => []
    end.

(** A message that is not seen is marked under the lock of the seen messages; the peers are
    read later. *)
Definition mark_seen m n : Network * bool :=
  let msg_id := message_id m in
  if bool_decide (msg_id ∈ seen_messages n) then (n, false)
  else (set_seen (remember msg_id (seen_messages n)) n, true).
Definition on_spread m (source_addr : option bytes) : Async Network (list Task) :=
  match lifetime m with
  | None => mret []
  | Some (current_ttl, _) =>
      if current_ttl =? 0 then mret []
      else
        new ← with_lock LSeen (mark_seen m);
        if new : bool
        then with_lock LPeers (λ n, (n, local_task m ++ (get_peer_list show (net_dht n) ≫= forward m source_addr)))
        else mret []
  end.
Definition spread m (source_addr : option bytes) n : Network * list Task :=
  let '(n, r) := run None (on_spread m source_addr) n in (n, default [] r).

(** ** network.rs *)
Definition colon_port (p : Z) : bytes := 58 :: decimal p.

Definition ends_with (l suffix : bytes) : bool := bool_decide (drop (length l - length suffix) l = suffix).

(** What [connect_to_peer] does: nothing, an error, or the messages that open the session. *)
Definition connect_to_peer (reachable : bool) (target_addr : bytes) n : Network * option (list PrimusMessage) :=
  if ends_with target_addr (colon_port (net_port n)) then (n, Some [])
  else if bool_decide (target_addr ∈ get_peer_list show (net_dht n)) then (n, Some [])
  else if negb reachable then (n, None)
  else
    let n := set_dht (register_peer_addr target_addr (net_dht n)) n in
    let '(height, en, cum_energy) := local_state (net_core n) in
    (n, Some [MHandshake (bytes_of_string "0.1.0") (bytes_of_string "Node-" ++ decimal (net_port n)) height en
                (net_port n);
              MSync (Handshake (from_engine height en cum_energy));
              GetPeers]).

(** The heights of `start..=end`. *)
Definition crystal_range (first last : Z) : list Z := seqZ first (last - first + 1).

Definition answer {A} (k : A → PrimusMessage) (r : result A bytes) : list PrimusMessage :=
  match r with Ok a => [k a] | Err reason => [NodeError reason] end.

(** A call of the core, and the calls that hold one lock. *)
Fixpoint in_core {A} (p : Async S A) : Async Network A :=
  match p with
  | Return a => Return a
  | Atomic f k => Atomic (λ n, let '(c, x) := f (net_core n) in (set_core c n, x)) (λ x, in_core (k x))
  | Acquire l p => Acquire l (in_core p)
  | Release l p => Release l (in_core p)
  end.
Definition ask_core {X} (f : S → X) : Async Network X := with_lock LEngine (λ n, (n, f (net_core n))).
Definition tell_core (f : S → S) : Async Network unit := with_lock LEngine (λ n, (set_core (f (net_core n)) n, tt)).

(** GravityShield's filter on raw bytes, the part of [SubmitReaction] before the core. *)
Context (filter_bytes : bytes → result SignedReaction bytes).

Definition on_handshake peer_ip (chain_height : Z) (total_energy : f32) (listener_port : Z)
    : Async Network (list PrimusMessage) :=
  let stable_addr := peer_ip ++ colon_port listener_port in
  with_lock LPeers (λ n, (set_dht (register_peer_addr stable_addr (net_dht n)) n, tt));;
  '(h, e, cum) ← ask_core local_state;
  if fp_gt total_energy e || (h <? chain_height) then
    (if u64_wrapping_add h 5 <? chain_height then tell_core (set_sync_target chain_height) else mret tt);;
    mret [MSync (Handshake (from_engine h e cum)); MSync (RequestCrystals (u64_wrapping_add h 1) chain_height)]
  else mret [].

(** The crystals asked for, each read by itself. *)
Fixpoint fetch_crystals (l : list Z) : Async Network (list PrimusMessage) :=
  match l with
  | [] => mret []
  | i :: l =>
      b ← ask_core (get_crystal_bytes i);
      out ← fetch_crystals l;
      mret (option_list (CrystalResponse <$> b) ++ out)
  end.
Fixpoint take_crystals (l : list bytes) : Async Network unit :=
  match l with
  | [] => mret tt
  | b :: l => in_core (on_crystal b);; take_crystals l
  end.
(** The end of a synchronisation, once the node was seen not to synchronise. *)
Definition finishing : Async Network unit := tell_core finish_sync.

Definition on_sync (m : SyncMessage) : Async Network (list PrimusMessage) :=
  match m with
  | Handshake their_status =>
      '(h, e, cum) ← ask_core local_state;
      if is_more_dominant_than their_status (from_engine h e cum) then
        tell_core (set_sync_target (gs_crystal_index their_status));;
        mret [MSync (RequestCrystals (u64_wrapping_add h 1) (gs_crystal_index their_status))]
      else mret []
  | RequestCrystals first last => fetch_crystals (crystal_range first last)
  | InventoryResponse crystals =>
      take_crystals crystals;;
      syncing ← ask_core core_is_syncing;
      (if syncing : bool then mret tt else finishing);;
      mret []
  end.

Definition on_submit (reaction_bytes : bytes) : Async Network (list PrimusMessage) :=
  match filter_bytes reaction_bytes with
  | Err reason => Atomic (λ n, (add_drop n, tt)) (λ _, mret [NodeError reason])
  | Ok _ =>
      r ← in_core (push_bytes reaction_bytes);
      mret (answer (λ _, ReactionAck (blake3 reaction_bytes)) r)
  end.

(** One message of a session: what is sent back in order, what is spawned. *)
Definition on_message (peer_ip : bytes) m : Async Network (list PrimusMessage * list Task) :=
  match m with
  | Ping => mret ([Pong], [])
  | GetPeers => peers ← with_lock LPeers (λ n, (n, get_peer_list show (net_dht n))); mret ([PeersResponse peers], [])
  | PeersResponse peers => mret ([], TConnect <$> peers)
  | MHandshake _ _ chain_height total_energy listener_port =>
      out ← on_handshake peer_ip chain_height total_energy listener_port; mret (out, [])
  | NewReaction data _ => mret ([], [TReaction data m])
  | NewCrystal data _ => mret ([], [TCrystal data m])
  | GetCrystal i => b ← ask_core (get_crystal_bytes i); mret (option_list (CrystalResponse <$> b), [])
  | CrystalResponse data => in_core (on_crystal data);; mret ([], [])
  | MSync sync_msg => out ← on_sync sync_msg; mret (out, [])
  | FetchState address =>
      r ← ask_core (get_atom_state address);
      mret (answer (λ '(m, k, h, el), StateResponse m k h el) r, [])
  | SubmitReaction reaction_bytes => out ← on_submit reaction_bytes; mret (out, [])
  | GetProof address => r ← ask_core (on_get_proof address); mret (answer ProofResponse r, [])
  | _ => mret ([], [])
  end.

(** What is answered when the time of a call is up; the other calls have no such time. *)
Definition timed_out m : option (list PrimusMessage * list Task) :=
  let text what := Some ([NodeError (bytes_of_string what)], []) in
  match m with
  | FetchState _ => text "FetchState timed out"
  | SubmitReaction _ => text "SubmitReaction timed out"
  | GetProof _ => text "GetProof timed out"
  | _ => None
  end.

(** The handler when nothing comes between its sections.  [late = Some k]: the time is up
    while the call waits for its lock after [k] others, and what it has not done by then it
    does not do.  No result: it never returns. *)
Definition serve (peer_ip : bytes) (late : option nat) m n : Network * option (list PrimusMessage * list Task) :=
  let '(n, r) := run (if timed_out m is Some _ then late else None) (on_message peer_ip m) n in
  (n, match r with Some r => Some r | None => timed_out m end).
Definition handle_message (peer_ip : bytes) (late : option nat) m n : Network * list PrimusMessage * list Task :=
  let '(n, r) := serve peer_ip late m n in
  let '(out, spawned) := default ([], []) r in (n, out, spawned).

(** The end of a session whose peer closed the stream. *)
Definition close_session (peer_ip : bytes) n : Network := set_dht (remove_peer_addr peer_ip (net_dht n)) n.

(** The loop of a session over the frames read from its stream ([None]: the codec's
    error).  A frame that cannot be read ends it without the clean-up; a call that never
    returns stops it for good. *)
Fixpoint peer_session `{MessageDecoder} (peer_ip : bytes) (frames : list (option bytes * option nat)) n
    : Network * list PrimusMessage * list Task * bool :=
  match frames with
  | [] => (close_session peer_ip n, [], [], true)
  | (frame, late) :: frames =>
      match frame ≫= de_msg with
      | None => (n, [], [], false)
      | Some m =>
          match serve peer_ip late m n with
          | (n, None) => (n, [], [], false)
          | (n, Some (out, spawned)) =>
              let '(n, out', spawned', clean) := peer_session peer_ip frames n in
              (n, out ++ out', spawned ++ spawned', clean)
          end
      end
  end.

(** A spawned task; those that send are output. *)
Definition on_task (peer_ip : bytes) (task : Task) : Async Network (list Task) :=
  match task with
  | TReaction data m =>
      r ← in_core (push_bytes data);
      gossip ← atomically (λ n, (n, has_gossip n));
      if is_ok r && gossip then on_spread m (Some peer_ip) else mret []
  | TCrystal data m =>
      ok ← in_core (on_crystal data);
      gossip ← atomically (λ n, (n, has_gossip n));
      if (ok : bool) && gossip then on_spread m (Some peer_ip) else mret []
  | TPush data => in_core (push_bytes data);; mret []
  | TOnCrystal data => in_core (on_crystal data);; mret []
  | TConnect _ | TSend _ _ => mret [task]
  end.
Definition run_task (peer_ip : bytes) (task : Task) n : Network * list Task :=
  let '(n, r) := run None (on_task peer_ip task) n in (n, default [] r).
End network.
Arguments Network : clear implicits.

(** ** Facts on runs *)
Lemma exec_bind {S A B} cut held (p : Async S A) (k : A → Async S B) s :
  exec cut held (p ≫= k) s =
  let '(s, r) := exec cut held p s in
  match r with Some (a, cut, held) => exec cut held (k a) s | None => (s, None) end.
Proof.
  revert cut held s. induction p as [a|X f k' IH|l p IH|l p IH]; intros cut held s; cbn; [done| | |apply IH].
  - destruct (f s) as [s' x]. apply IH.
  - case_bool_decide; [done|]. destruct cut as [[|j]|]; [done|apply IH..].
Qed.

Lemma exec_in_core {S A} cut held (p : Async S A) (n : Network S) :
  exec cut held (in_core p) n = let '(c, r) := exec cut held p (net_core n) in (set_core c n, r).
Proof.
  revert cut held n. induction p as [a|X f k IH|l p IH|l p IH]; intros cut held n; cbn.
  - by destruct n.
  - destruct (f (net_core n)) as [c x]. rewrite IH. cbn. by destruct (exec _ _ _ _).
  - case_bool_decide; [by destruct n|]. destruct cut as [[|j]|]; [by destruct n|apply IH..].
  - apply IH.
Qed.

Lemma exec_lock {S X} (l : LockName) (f : S → S * X) s :
  exec None [] (with_lock l f) s = let '(s, x) := f s in (s, Some (x, None, [])).
Proof. by destruct l; cbn; destruct (f s). Qed.

Section runs.
Context {HA : Hashes} {MC : MessageCodec} {S : Type} {CH : CoreHandle S}.
Context (iter_seen : gset bytes → list bytes) (show : SocketAddr → bytes).
Implicit Types n : Network S.

Lemma exec_ask {X} (f : S → X) n : exec None [] (ask_core f) n = (n, Some (f (net_core n), None, [])).
Proof. done. Qed.
Lemma exec_tell (f : S → S) n : exec None [] (tell_core f) n = (set_core (f (net_core n)) n, Some (tt, None, [])).
Proof. done. Qed.

Lemma exec_fetch l n :
  exec None [] (fetch_crystals l) n =
  (n, Some (omap (λ i, CrystalResponse <$> get_crystal_bytes i (net_core n)) l, None, [])).
Proof.
  induction l as [|i l IH]; [done|]. cbn [fetch_crystals]. rewrite exec_bind, exec_ask, exec_bind, IH. cbn.
  by destruct (get_crystal_bytes i (net_core n)).
Qed.

Lemma exec_spread m src n :
  exec None [] (on_spread iter_seen show m src) n =
  let '(n, out) := spread iter_seen show m src n in (n, Some (out, None, [])).
Proof.
  unfold spread, run, on_spread. destruct (lifetime m) as [[ttl d]|]; [|done]. destruct (ttl =? 0); [done|].
  rewrite exec_bind, exec_lock. destruct (mark_seen iter_seen m n) as [n' []]; [|done]. by rewrite exec_lock.
Qed.
End runs.
