(* ===== verification/GossipFacts.v ===== *)
(** The flooding of messages: what a node forwards, how far one message is relayed, that the set
    of seen messages stays bounded, and what the end of a session leaves registered. *)
From S2P Require Import Prelude Floats Types Dht Gossip.
Open Scope Z_scope.

Section facts.
Context {HA : Hashes} {MC : MessageCodec} {C : Type} {CH : CoreHandle C}.
Context (iter_seen : gset bytes → list bytes) (show : SocketAddr → bytes).
Abbreviation Net := (Network C).
Abbreviation spread := (spread iter_seen show).
Implicit Types (n : Net) (m : PrimusMessage).

Definition peers n : list bytes := get_peer_list show (net_dht n).

(** A message that is flooded here for the first time. *)
Definition fresh m n : Prop :=
  match lifetime m with Some (ttl, _) => ttl ≠ 0 ∧ message_id m ∉ seen_messages n | None => False end.

#[local] Instance fresh_dec m n : Decision (fresh m n).
Proof. unfold fresh. destruct (lifetime m) as [[? ?]|]; apply _. Defined.

Lemma spread_fresh m src n :
  fresh m n →
  spread m src n = (set_seen (remember iter_seen (message_id m) (seen_messages n)) n,
                    local_task m ++ (peers n ≫= forward m src)).
Proof.
  unfold fresh, Gossip.spread, run, on_spread. destruct (lifetime m) as [[ttl d]|]; [|done]. intros [H1 H2].
  rewrite (proj2 (Z.eqb_neq _ _)) by done. rewrite exec_bind, exec_lock. unfold mark_seen.
  by rewrite bool_decide_false by done.
Qed.

Lemma spread_stale m src n : ¬ fresh m n → spread m src n = (n, []).
Proof.
  unfold fresh, Gossip.spread, run, on_spread. destruct (lifetime m) as [[ttl d]|]; [|done]. intros H.
  destruct (Z.eqb_spec ttl 0); [done|]. rewrite exec_bind, exec_lock. unfold mark_seen.
  case_bool_decide; [done|]. by destruct H.
Qed.

Lemma elem_of_forward m src a a' m' :
  TSend a' m' ∈ forward m src a ↔
  a' = a ∧ src ≠ Some a ∧ ∃ ttl d t, lifetime m = Some (ttl, d) ∧ next_ttl ttl d = Some t ∧ with_ttl m t = Some m'.
Proof.
  unfold forward. case_bool_decide as Hsrc; [split; [by intros ?%elem_of_nil|naive_solver]|].
  destruct (lifetime m) as [[ttl d]|]; [|split; [by intros ?%elem_of_nil|naive_solver]].
  destruct (next_ttl ttl d) as [t|] eqn:Et; cbn [mbind option_bind];
    [|split; [by intros ?%elem_of_nil|naive_solver]].
  destruct (with_ttl m t) as [m2|] eqn:Em; [|split; [by intros ?%elem_of_nil|naive_solver]].
  rewrite list_elem_of_singleton. split; [intros [= -> ->]; split_and!; [done|done|by exists ttl, d, t]|].
  intros (-> & _ & ttl' & d' & t' & [= <- <-] & Ht & Hm). congruence.
Qed.

Lemma local_task_no_send m a m' : TSend a m' ∉ local_task m.
Proof. destruct m; simpl; rewrite ?list_elem_of_singleton; (try done); by intros ?%elem_of_nil. Qed.

(** What leaves the node. *)
Lemma spread_sends m src n a m' :
  TSend a m' ∈ (spread m src n).2 ↔
  fresh m n ∧ a ∈ peers n ∧ src ≠ Some a ∧
  ∃ ttl d t, lifetime m = Some (ttl, d) ∧ next_ttl ttl d = Some t ∧ with_ttl m t = Some m'.
Proof.
  split.
  - intros H. assert (Hf : fresh m n).
    { destruct (decide (fresh m n)) as [|Hn]; [done|]. rewrite spread_stale in H by done. by apply elem_of_nil in H. }
    rewrite spread_fresh in H by done. simpl in H. apply elem_of_app in H as [H|H]; [by apply local_task_no_send in H|].
    apply list_elem_of_bind in H as (b & H & Hb). apply elem_of_forward in H as (-> & Hs & Ht). done.
  - intros (Hf & Ha & Hs & Ht). rewrite spread_fresh by done. simpl. apply elem_of_app. right.
    apply list_elem_of_bind. exists a. split; [|done]. by apply elem_of_forward.
Qed.

(** What a node does with a reaction from the network: once per message it hands the
    bytes to its own core and sends them, with a lifetime one less, to every peer but the
    source; it forwards nothing that is seen, expired, or in its last hop. *)
Theorem reaction_forwarding d ttl src n a m' :
  let m := NewReaction d ttl in
  0 ≤ ttl →
  (TSend a m' ∈ (spread m src n).2 ↔
     (message_id m ∉ seen_messages n) ∧ 2 ≤ ttl ∧ a ∈ peers n ∧ src ≠ Some a ∧ m' = NewReaction d (ttl - 1)) ∧
  (TPush d ∈ (spread m src n).2 ↔ (message_id m ∉ seen_messages n) ∧ 1 ≤ ttl).
Proof.
  cbv zeta. intros Ht. split.
  - rewrite spread_sends. unfold fresh. simpl. unfold next_ttl. split.
    + intros ([H0 Hs] & Ha & Hsrc & ttl' & dec & t & [= <- <-] & Hn & [= <-]).
      destruct (Z.leb_spec ttl 1); [done|]. injection Hn as <-. split_and!; [done|lia|done|done|done].
    + intros (Hs & H2 & Ha & Hsrc & ->). split_and!; [lia|done|done|done|]. exists ttl, true, (ttl - 1).
      split; [done|]. destruct (Z.leb_spec ttl 1); [lia|done].
  - destruct (decide (fresh (NewReaction d ttl) n)) as [Hf|Hf].
    + rewrite spread_fresh by done. destruct Hf as [H0 Hs]. simpl. split; [intros _; split; [done|lia]|].
      intros _. left.
    + rewrite spread_stale by done. split; [by intros ?%elem_of_nil|]. intros [Hs H1]. destruct Hf.
      unfold fresh. simpl. split; [lia|done].
Qed.

(** *** Flooding *)
(** [m'] is sent by some node, in some state, that received [m] from some source. *)
Definition relayed m m' : Prop := ∃ n src a, TSend a m' ∈ (spread m src n).2.
Inductive relay_chain m : nat → PrimusMessage → Prop :=
| relay_here : relay_chain m 0 m
| relay_hop k m1 m2 : relay_chain m k m1 → relayed m1 m2 → relay_chain m (S k) m2.

(** The relay of one message by the gossip services: whatever the nodes, their peers and what
    they have seen, a reaction with lifetime [ttl] is relayed fewer than [ttl] times in a row,
    always with the same bytes; a galactic status is never relayed; a crystal keeps its
    lifetime on every hop.  A node that takes the reaction into its pool also broadcasts it
    anew, with the full lifetime: what bounds that is in System. *)
Lemma relay_lifetime m k m' :
  relay_chain m k m' →
  match m with
  | NewReaction d ttl => 0 ≤ ttl → (k = 0%nat ∨ Z.of_nat k < ttl) ∧ m' = NewReaction d (ttl - Z.of_nat k)
  | MSync s => k = 0%nat ∧ m' = m
  | NewCrystal _ _ => m' = m
  | _ => k = 0%nat ∧ m' = m
  end.
Proof.
  induction 1 as [|k m1 m2 Hc IH (n & src & a & (Hf & _ & _ & ttl' & dec & t & Hl & Hn & Hw)%spread_sends)].
  { destruct m; try done. intros _. split; [by left|]. f_equal. lia. }
  destruct m; try (destruct IH as [_ ->]; simpl in Hl; first [done|by (injection Hl as <- <-)]).
  - intros H0. destruct (IH H0) as [Hk ->]. simpl in Hl. injection Hl as <- <-. unfold next_ttl in Hn.
    destruct (Z.leb_spec (ttl - Z.of_nat k) 1); [done|]. injection Hn as <-. simpl in Hw. injection Hw as <-.
    split; [right; lia|]. f_equal. lia.
  - subst m1. simpl in Hl. injection Hl as <- <-. injection Hn as <-. simpl in Hw. by injection Hw as <-.
Qed.

(** *** The set of seen messages *)
Context (iter_perm : ∀ s, iter_seen s ≡ₚ elements s).

Lemma size_removed (seen : gset bytes) (l : list bytes) :
  NoDup l → (∀ k, k ∈ l → k ∈ seen) → (size (foldl (λ s k, s ∖ {[k]}) seen l) + length l = size seen)%nat.
Proof.
  revert seen; induction l as [|k l IH]; intros seen Hnd Hin; [simpl; lia|]. cbn [foldl length].
  apply NoDup_cons in Hnd as [Hk Hnd].
  assert (Hs : (size (seen ∖ {[k]}) + 1 = size seen)%nat).
  { assert (Hk1 : {[k]} ⊆ seen) by (apply singleton_subseteq_l, Hin; left).
    pose proof (size_difference seen {[k]} Hk1) as Hd. rewrite size_singleton in Hd.
    pose proof (subseteq_size _ _ Hk1). rewrite size_singleton in *. lia. }
  specialize (IH (seen ∖ {[k]}) Hnd). rewrite <-Hs, <-IH; [lia|]. intros k' Hk'.
  apply elem_of_difference. split; [apply Hin; by right|]. rewrite elem_of_singleton. by intros ->.
Qed.

(** The set of seen messages never exceeds its capacity, and below it a message that
    was flooded is not flooded again. *)
Theorem seen_bounded m src n :
  (size (seen_messages n) ≤ MAX_SEEN)%nat →
  (size (seen_messages (spread m src n).1) ≤ MAX_SEEN)%nat ∧
  ((size (seen_messages n) < MAX_SEEN)%nat → ∀ src', (spread m src' (spread m src n).1).2 = []).
Proof using iter_perm.
  intros Hs. destruct (decide (fresh m n)) as [Hf|Hf].
  2:{ rewrite !spread_stale by done. split; [done|]. intros _ src'. by rewrite spread_stale. }
  assert (Hid : message_id m ∉ seen_messages n) by (unfold fresh in Hf; destruct (lifetime m) as [[? ?]|]; [tauto|done]).
  rewrite (spread_fresh m src n) by done. cbn [fst set_seen seen_messages]. unfold remember.
  assert (Hsize : size ({[message_id m]} ∪ seen_messages n) = S (size (seen_messages n)))
    by (rewrite size_union by set_solver; by rewrite size_singleton).
  rewrite Hsize. split.
  - destruct (Nat.ltb_spec MAX_SEEN (S (size (seen_messages n)))) as [Hlt|]; [|by rewrite Hsize].
    set (s' := {[message_id m]} ∪ seen_messages n) in *. set (l := take EVICT_COUNT (iter_seen s')).
    assert (Hsub : l `sublist_of` iter_seen s') by (apply sublist_take).
    pose proof (size_removed s' l) as Hr. rewrite Hsize in Hr.
    assert (Hlen : length l = Nat.min EVICT_COUNT (S (size (seen_messages n)))).
    { unfold l. rewrite length_take, iter_perm. change (length (elements s')) with (size s'). by rewrite Hsize. }
    assert (1 ≤ EVICT_COUNT)%nat by (unfold EVICT_COUNT; lia).
    cut (size (foldl (λ s k, s ∖ {[k]}) s' l) + length l = S (size (seen_messages n)))%nat; [lia|]. apply Hr.
    + eapply sublist_NoDup; [|exact Hsub]. rewrite iter_perm. apply NoDup_elements.
    + intros k Hk. apply elem_of_elements. rewrite <-iter_perm. by eapply elem_of_sublist.
  - intros Hlt src'. rewrite (proj2 (Nat.ltb_ge _ _)) by lia. rewrite spread_stale; [done|].
    unfold fresh. destruct (lifetime m) as [[? ?]|]; [|tauto]. intros [_ Hn]. apply Hn. simpl. set_solver.
Qed.

(** *** Addresses of sessions *)
(** A session registers its peer under the address "ip:port" but is known by the
    "ip" alone afterwards: when it ends the address stays registered, and the reactions it
    brings are sent back to it. *)
Theorem session_address_mismatch filter ip late v id h en p n n1 out tasks :
  handle_message show filter ip late (MHandshake v id h en p) n = (n1, out, tasks) →
  ip ++ colon_port p ∈ addr_peers (net_dht (close_session ip n1)) ∧
  (ip ++ colon_port p ∈ peers n1 → ∀ d ttl, 2 ≤ ttl → message_id (NewReaction d ttl) ∉ seen_messages n1 →
     TSend (ip ++ colon_port p) (NewReaction d (ttl - 1)) ∈ (spread (NewReaction d ttl) (Some ip) n1).2).
Proof.
  intros H. set (a := ip ++ colon_port p) in *.
  assert (Hne : ip ≠ a).
  { unfold a, colon_port. intros E. apply (f_equal length) in E. rewrite length_app in E. simpl in E. lia. }
  assert (Hin : a ∈ addr_peers (net_dht n1)).
  { revert H. unfold handle_message, serve, run. cbn [timed_out on_message]. unfold on_handshake. fold a. cbv zeta.
    rewrite exec_bind, exec_bind, exec_lock, exec_bind, exec_ask. cbn [net_core set_dht].
    assert (Hr : a ∈ addr_peers (register_peer_addr a (net_dht n))).
    { unfold register_peer_addr. case_bool_decide; [done|]. simpl. apply elem_of_app. right. left. }
    destruct (local_state (net_core n)) as [[h0 e0] cum]. cbn.
    destruct (fp_gt en e0 || (h0 <? h)); [destruct (u64_wrapping_add h0 5 <? h)|]; cbn; intros [= <- _ _]; exact Hr. }
  split.
  - simpl. apply list_elem_of_filter. by split.
  - intros Hp d ttl Ht Hs. apply spread_sends. split_and!.
    + unfold fresh. simpl. split; [lia|done].
    + done.
    + congruence.
    + exists ttl, true, (ttl - 1). unfold next_ttl. rewrite (proj2 (Z.leb_gt _ _)) by lia. done.
Qed.

(** The identifier of a message covers its lifetime, so that the same bytes with another
    lifetime are flooded again. *)
Lemma ttl_variants_flooded d t1 t2 src n a :
  message_id (NewReaction d t1) ≠ message_id (NewReaction d t2) →
  0 < t1 → 0 < t2 → message_id (NewReaction d t1) ∉ seen_messages n → message_id (NewReaction d t2) ∉ seen_messages n →
  (size (seen_messages n) < MAX_SEEN)%nat →
  a = (spread (NewReaction d t1) src n).1 →
  TPush d ∈ (spread (NewReaction d t1) src n).2 ∧ TPush d ∈ (spread (NewReaction d t2) src a).2.
Proof.
  intros Hne H1 H2 Hs1 Hs2 Hsize ->.
  assert (F1 : fresh (NewReaction d t1) n) by (unfold fresh; simpl; split; [lia|done]).
  rewrite (spread_fresh _ src n F1). cbn [fst snd]. split; [left|].
  rewrite spread_fresh; [left|]. unfold fresh. simpl. split; [lia|]. unfold remember.
  rewrite (proj2 (Nat.ltb_ge _ _)); [set_solver|]. rewrite size_union by set_solver. rewrite size_singleton. lia.
Qed.
End facts.
