(* ===== verification/Noise.v ===== *)
(** The encrypted byte stream of a session after its handshake (primus-net-opt noise.rs):
    frames of at most 64 KiB, written and read piecewise over an unreliable schedule.

    snow's stateless transport is a parameter.  The inner stream is what its polls give, in
    order: some bytes, or not ready yet; its end is the end of the list. *)
From S2P Require Import Prelude.
Open Scope Z_scope.

Definition MAX_FRAME_SIZE : Z := 65535.
Definition TAG_LEN : Z := 16.
Definition MAX_PLAINTEXT : Z := MAX_FRAME_SIZE - TAG_LEN.

(** snow: what one side writes under a nonce the other reads under that nonce; the tag adds
    sixteen bytes.  snow refuses to write more than MAX_FRAME_SIZE bytes, and a piece of more
    than MAX_PLAINTEXT is never handed to it: nothing is said of [write_message] there. *)
Class StatelessTransport := {
  write_message : Z → bytes → bytes;
  read_message : Z → bytes → option bytes;
  read_write_message n p : len p ≤ MAX_PLAINTEXT → read_message n (write_message n p) = Some p;
  len_write_message n p : len p ≤ MAX_PLAINTEXT → len (write_message n p) = len p + TAG_LEN;
}.

Record NoiseStream := MkNoise {
  read_nonce : Z;
  write_nonce : Z;
  read_buf : bytes;
  decrypt_buf : bytes;
  write_buf : bytes;
  write_consumed : nat;
  is_wasm : bool;
}.
Definition noise_new (wasm : bool) : NoiseStream := MkNoise 0 0 [] [] [] 0 wasm.

Definition header_len (s : NoiseStream) : nat := if is_wasm s then 2 + 6 else 2.

(** ** The inner stream *)
Inductive Event := Data (b : bytes) | NotReady.
Abbreviation Inner := (list Event).
(** A poll for at most [needed] bytes; an empty answer is the end of the stream. *)
Definition inner_read (needed : nat) (inner : Inner) : Inner * option bytes :=
  match inner with
  | [] => ([], Some [])
  | NotReady :: inner => (inner, None)
  | Data b :: inner =>
      if (length b <=? needed)%nat then (inner, Some b) else (Data (drop needed b) :: inner, Some (take needed b))
  end.

Inductive Poll := Ready (out : bytes) | Pending | Failed (eof : bool).

Section stream.
Context {ST : StatelessTransport}.
Implicit Types s : NoiseStream.

Definition set_read_buf b s : NoiseStream :=
  MkNoise (read_nonce s) (write_nonce s) b (decrypt_buf s) (write_buf s) (write_consumed s) (is_wasm s).
Definition set_decrypt_buf b s : NoiseStream :=
  MkNoise (read_nonce s) (write_nonce s) (read_buf s) b (write_buf s) (write_consumed s) (is_wasm s).

(** ** poll_read *)
(** The bytes still missing for the frame at hand: of its header, else of its body. *)
Definition frame_len s : nat := Z.to_nat (of_be (take 2 (read_buf s))).
Definition total_len s : nat := (header_len s + frame_len s)%nat.

(** One attempt to complete [target] bytes of the read buffer: the poll ends, or it goes on
    with the bytes that came. *)
Definition fill (target : nat) (at_eof : Poll) s (inner : Inner) : NoiseStream * Inner * option Poll :=
  let '(inner, r) := inner_read (target - length (read_buf s)) inner in
  match r with
  | None => (s, inner, Some Pending)
  | Some [] => (s, inner, Some at_eof)
  | Some b => (set_read_buf (read_buf s ++ b) s, inner, None)
  end.

Definition decrypt_frame s : NoiseStream + Poll :=
  let frame := drop (header_len s) (take (total_len s) (read_buf s)) in
  match read_message (read_nonce s) frame with
  | None => inr (Failed false)
  | Some p =>
      inl (MkNoise (read_nonce s + 1) (write_nonce s) (drop (total_len s) (read_buf s)) (decrypt_buf s ++ p)
             (write_buf s) (write_consumed s) (is_wasm s))
  end.

(** The loop; [room] is what the caller's buffer takes. *)
Fixpoint poll_read (fuel room : nat) s (inner : Inner) : option (NoiseStream * Inner * Poll) :=
  match fuel with
  | O => None
  | S fuel =>
      if bool_decide (decrypt_buf s ≠ []) then
        let n := Nat.min (length (decrypt_buf s)) room in
        Some (set_decrypt_buf (drop n (decrypt_buf s)) s, inner, Ready (take n (decrypt_buf s)))
      else if (length (read_buf s) <? header_len s)%nat then
        match fill (header_len s) (Ready []) s inner with
        | (s, inner, Some p) => Some (s, inner, p)
        | (s, inner, None) => poll_read fuel room s inner
        end
      else if (length (read_buf s) <? total_len s)%nat then
        match fill (total_len s) (Failed true) s inner with
        | (s, inner, Some p) => Some (s, inner, p)
        | (s, inner, None) => poll_read fuel room s inner
        end
      else
        match decrypt_frame s with
        | inl s => poll_read fuel room s inner
        | inr p => Some (s, inner, p)
        end
  end.

(** ** poll_write and poll_flush *)
(** What one poll of the inner writer takes, or that it is not ready. *)
Abbreviation Sink := (list (option nat)).

(** The loop of [poll_flush]: whether it is done, what it wrote, what is left of the sink. *)
Fixpoint flush_loop (s : NoiseStream) (sink : Sink) : NoiseStream * Sink * bytes * bool :=
  if (length (write_buf s) <=? write_consumed s)%nat then
    (MkNoise (read_nonce s) (write_nonce s) (read_buf s) (decrypt_buf s) [] 0 (is_wasm s), sink, [], true)
  else
    match sink with
    | [] | None :: _ => (s, drop 1 sink, [], false)
    | Some n :: sink =>
        let data := drop (write_consumed s) (write_buf s) in
        let n := Nat.min n (length data) in
        let s := MkNoise (read_nonce s) (write_nonce s) (read_buf s) (decrypt_buf s) (write_buf s)
                   (write_consumed s + n) (is_wasm s) in
        let '(s, sink, out, done) := flush_loop s sink in
        (s, sink, take n data ++ out, done)
    end.

Definition frame_header (wasm : bool) (enc_len : Z) : bytes :=
  to_be 2 enc_len ++ (if wasm then replicate 6 0 else []).

(** What is left is flushed; the inner stream is shut down once it is. *)
Definition poll_shutdown s (sink : Sink) (inner_shutdown : bool) : NoiseStream * Sink * bytes * bool :=
  let '(s, sink, out, done) := flush_loop s sink in
  (s, sink, out, done && inner_shutdown).

(** The bytes that go out, and how many bytes of [buf] are taken; [None] is Pending. *)
Definition poll_write (buf : bytes) s (sink : Sink) : NoiseStream * Sink * bytes * option nat :=
  let '(s, sink, out, ready) := if bool_decide (write_buf s ≠ []) then flush_loop s sink else (s, sink, [], true) in
  if negb ready then (s, sink, out, None)
  else
    let n := Nat.min (length buf) (Z.to_nat MAX_PLAINTEXT) in
    let encrypted := write_message (write_nonce s) (take n buf) in
    let s := MkNoise (read_nonce s) (write_nonce s + 1) (read_buf s) (decrypt_buf s)
               (write_buf s ++ frame_header (is_wasm s) (len encrypted) ++ encrypted) 0 (is_wasm s) in
    let '(s, sink, out', _) := flush_loop s sink in
    (s, sink, out ++ out', Some n).
End stream.
