(* ===== verification/NoiseFacts.v ===== *)
(** What goes into one end of an encrypted stream comes out of the other, however the
    bytes are cut and delayed in between. *)
From S2P Require Import Prelude Noise.
Open Scope Z_scope.

Section facts.
Context {ST : StatelessTransport}.
Implicit Types s : NoiseStream.

(** The frames of the plaintexts [ps], the first under nonce [n]. *)
Definition frame (wasm : bool) (n : Z) (p : bytes) : bytes :=
  frame_header wasm (len (write_message n p)) ++ write_message n p.
Fixpoint wire (wasm : bool) (n : Z) (ps : list bytes) : bytes :=
  match ps with
  | [] => []
  | p :: ps => frame wasm n p ++ wire wasm (n + 1) ps
  end.
Definition fits (p : bytes) : Prop := len p ≤ MAX_PLAINTEXT.

Lemma wire_app wasm n ps qs : wire wasm n (ps ++ qs) = wire wasm n ps ++ wire wasm (n + len ps) qs.
Proof.
  revert n; induction ps as [|p ps IH]; intros n; cbn [wire app].
  - unfold len. simpl. by rewrite Z.add_0_r.
  - rewrite IH, <-app_assoc. do 3 f_equal. unfold len. simpl length. lia.
Qed.

(** ** Writing *)
Definition pending s : bytes := drop (write_consumed s) (write_buf s).

Lemma flush_loop_spec s sink s' sink' out ready :
  flush_loop s sink = (s', sink', out, ready) →
  out ++ pending s' = pending s ∧ write_nonce s' = write_nonce s ∧ is_wasm s' = is_wasm s ∧
  (ready = true → write_buf s' = [] ∧ write_consumed s' = 0%nat).
Proof.
  revert s s' sink' out ready; induction sink as [|[n|] sink IH]; intros s s' sink' out ready; cbn [flush_loop];
    (destruct (Nat.leb_spec (length (write_buf s)) (write_consumed s));
     [intros [= <- <- <- <-]; unfold pending; simpl; by rewrite drop_ge by done|]).
  - by intros [= <- <- <- <-].
  - set (data := drop (write_consumed s) (write_buf s)). set (k := Nat.min n (length data)).
    set (s1 := MkNoise _ _ _ _ _ _ _).
    destruct (flush_loop s1 sink) as [[[s2 sink2] out2] ready2] eqn:E. intros [= <- <- <- <-].
    destruct (IH _ _ _ _ _ E) as (H1 & H2 & H3 & H4). split_and!; [|done|done|done].
    rewrite <-app_assoc, H1. unfold pending, s1. cbn [write_consumed write_buf].
    rewrite <-drop_drop. fold data. apply take_drop.
  - by intros [= <- <- <- <-].
Qed.

(** Writing: after any calls of [poll_write], whatever the socket took of them, the
    bytes sent followed by those still buffered are the frames of the pieces taken, in
    order and each under its own nonce; a piece has at most 65519 bytes. *)
Theorem poll_write_frames buf s sink s' sink' out r sent ps :
  sent ++ pending s = wire (is_wasm s) 0 ps → write_nonce s = len ps →
  poll_write buf s sink = (s', sink', out, r) →
  let ps' := match r with Some n => ps ++ [take n buf] | None => ps end in
  (sent ++ out) ++ pending s' = wire (is_wasm s') 0 ps' ∧ write_nonce s' = len ps' ∧
  (∀ n, r = Some n → fits (take n buf) ∧ (n = length buf ∨ Z.of_nat n = MAX_PLAINTEXT)).
Proof.
  intros Hsent Hn. unfold poll_write. cbv zeta.
  set (first := if bool_decide (write_buf s ≠ []) then _ else _).
  destruct first as [[[s1 sink1] out1] ready] eqn:E.
  assert (H1 : out1 ++ pending s1 = pending s ∧ write_nonce s1 = write_nonce s ∧ is_wasm s1 = is_wasm s ∧
               (ready = true → write_buf s1 = [])).
  { unfold first in E. case_bool_decide as Hb.
    - destruct (flush_loop_spec _ _ _ _ _ _ E) as (?&?&?&H4). split_and!; [done|done|done|]. intros; by destruct H4.
    - injection E as <- <- <- <-. split_and!; [done|done|done|]. intros _.
      destruct (write_buf s); [done|]. by destruct Hb. }
  clear first E. destruct H1 as (P1 & N1 & W1 & B1). destruct ready; cbn [negb].
  2:{ intros [= <- <- <- <-]. cbn beta iota. rewrite <-app_assoc, P1, W1, N1. by split_and!. }
  specialize (B1 eq_refl). set (n := Nat.min (length buf) (Z.to_nat MAX_PLAINTEXT)).
  set (s2 := MkNoise _ _ _ _ _ _ _). destruct (flush_loop s2 sink1) as [[[s3 sink3] out3] r3] eqn:E3.
  intros [= <- <- <- <-]. cbn beta iota.
  destruct (flush_loop_spec _ _ _ _ _ _ E3) as (P3 & N3 & W3 & _). split_and!.
  - rewrite <-!app_assoc, P3. rewrite W3. unfold pending at 1, s2. cbn [write_consumed write_buf is_wasm].
    rewrite B1, drop_0, W1, N1, wire_app. cbn [app wire]. rewrite app_nil_r, Z.add_0_l, <-Hn. fold (frame (is_wasm s) (write_nonce s) (take n buf)).
    rewrite <-Hsent, <-P1. unfold pending. rewrite B1, drop_nil, app_nil_r. by rewrite <-app_assoc.
  - rewrite N3. unfold s2. cbn [write_nonce]. rewrite N1, Hn. unfold len. rewrite length_app. simpl. lia.
  - intros n' [= <-]. unfold fits, len. rewrite length_take. unfold n, MAX_PLAINTEXT, MAX_FRAME_SIZE, TAG_LEN. lia.
Qed.

(** ** Reading *)
Fixpoint data (inner : Inner) : bytes :=
  match inner with
  | [] => []
  | Data b :: inner => b ++ data inner
  | NotReady :: inner => data inner
  end.
Definition no_empty (inner : Inner) : Prop := Forall (λ e, e ≠ Data []) inner.

(** The plaintext still to come: what is decrypted, then the frames in the read buffer and
    in the inner stream, numbered from [read_nonce]. *)
Definition represents s (inner : Inner) (P : bytes) : Prop :=
  ∃ ps, read_buf s ++ data inner = wire (is_wasm s) (read_nonce s) ps ∧
        decrypt_buf s ++ concat ps = P ∧ Forall fits ps.

Lemma inner_read_spec needed inner inner' r :
  (0 < needed)%nat → no_empty inner → inner_read needed inner = (inner', r) →
  no_empty inner' ∧
  match r with
  | None => data inner' = data inner ∧ (length inner' < length inner)%nat
  | Some b => data inner = b ++ data inner' ∧ (length b ≤ needed)%nat ∧ (length inner' ≤ length inner)%nat ∧
              (b = [] → inner = [])
  end.
Proof.
  intros Hn Hne. destruct inner as [|[b|] inner]; simpl.
  - intros [= <- <-]. split_and!; simpl; try done; lia.
  - inversion Hne as [|?? Hb Hi]; subst. destruct (Nat.leb_spec (length b) needed); intros [= <- <-].
    + split_and!; [done|done|lia|simpl; lia|]. intros ->. by destruct Hb.
    + split_and!; [|simpl; by rewrite app_assoc, take_drop|rewrite length_take; lia|simpl; lia|].
      * constructor; [|done]. intros [= Hd]. apply (f_equal length) in Hd. rewrite length_drop in Hd. simpl in Hd. lia.
      * intros Ht. apply (f_equal length) in Ht. rewrite length_take in Ht. simpl in Ht. lia.
  - inversion Hne; subst. intros [= <- <-]. split_and!; [done|done|simpl; lia].
Qed.

Lemma of_be_to_be n z : of_be (to_be n z) = z mod 256 ^ Z.of_nat n.
Proof. unfold of_be, to_be. by rewrite reverse_involutive, of_le_to_le. Qed.

Lemma length_frame_header wasm n s : is_wasm s = wasm → length (frame_header wasm n) = header_len s.
Proof. intros <-. unfold frame_header, header_len. rewrite length_app, length_to_be. by destruct (is_wasm s). Qed.

(** Once the header is there, the total length is that of the next frame. *)
Lemma total_len_frame s rest p ps :
  fits p → read_buf s ++ rest = frame (is_wasm s) (read_nonce s) p ++ ps → (header_len s ≤ length (read_buf s))%nat →
  total_len s = length (frame (is_wasm s) (read_nonce s) p).
Proof.
  intros Hp Heq Hh. unfold total_len, frame_len, frame. rewrite length_app, (length_frame_header _ _ s) by done. f_equal.
  assert (H2 : (2 ≤ header_len s)%nat) by (unfold header_len; destruct (is_wasm s); lia).
  rewrite <-(take_app_le (read_buf s) rest) by lia. rewrite Heq. unfold frame, frame_header.
  rewrite <-!app_assoc, (take_app_length' (to_be 2 _)) by (by rewrite length_to_be).
  rewrite of_be_to_be, Z.mod_small; unfold len; [by rewrite Nat2Z.id|].
  pose proof (len_write_message (read_nonce s) p Hp) as Hl. unfold fits, len, MAX_PLAINTEXT, MAX_FRAME_SIZE, TAG_LEN in *. lia.
Qed.

Definition measure s (inner : Inner) : nat := length (read_buf s) + 2 * length (data inner) + length inner.

Definition read_post s (inner : Inner) P (r : option (NoiseStream * Inner * Poll)) : Prop :=
  ∃ s' inner' p, r = Some (s', inner', p) ∧ no_empty inner' ∧
  match p with
  | Ready out => (length inner' ≤ length inner)%nat ∧ (out = [] → P = []) ∧
                 ∃ P', P = out ++ P' ∧ represents s' inner' P'
  | Pending => (length inner' < length inner)%nat ∧ represents s' inner' P
  | Failed _ => False
  end.

(** A [fill] either ends the poll as it should or brings the read nearer to its end. *)
Lemma fill_spec target eof s inner P :
  (length (read_buf s) < target)%nat → no_empty inner → represents s inner P → decrypt_buf s = [] →
  (data inner = [] → P = [] ∧ eof = Ready []) →
  match fill target eof s inner with
  | (s', inner', Some p) => read_post s inner P (Some (s', inner', p))
  | (s', inner', None) => represents s' inner' P ∧ no_empty inner' ∧ decrypt_buf s' = [] ∧
      (measure s' inner' < measure s inner)%nat ∧ (length inner' ≤ length inner)%nat
  end.
Proof.
  intros Ht Hne Hrep Hd Heof. unfold fill. destruct (inner_read _ inner) as [inner' r] eqn:E.
  assert (Hn : (0 < target - length (read_buf s))%nat) by lia.
  destruct (inner_read_spec _ _ _ _ Hn Hne E) as [Hne' Hr]. destruct r as [[|x b]|].
  - destruct Hr as (_ & _ & _ & Hi). specialize (Hi eq_refl) as ->. destruct Heof as [-> ->]; [done|].
    injection E as <-. eexists _, _, _. split; [done|]. split; [done|]. split; [done|]. split; [done|].
    exists []. by split.
  - destruct Hr as (Hdat & Hb & Hl & _). destruct Hrep as (ps & H1 & H2 & H3). split_and!; [|done|done| |done].
    + exists ps. split_and!; [|done|done]. cbn [read_buf set_read_buf is_wasm read_nonce].
      rewrite <-app_assoc, <-Hdat. done.
    + unfold measure. cbn [read_buf set_read_buf]. rewrite Hdat, !length_app. simpl length. lia.
  - destruct Hr as (Hdat & Hl). eexists _, _, _. split; [done|]. split; [done|]. split; [done|].
    destruct Hrep as (ps & H1 & H2 & H3). exists ps. by rewrite Hdat.
Qed.

Lemma decrypt_frame_spec s inner P :
  represents s inner P → decrypt_buf s = [] → (header_len s ≤ length (read_buf s))%nat →
  (total_len s ≤ length (read_buf s))%nat →
  ∃ s', decrypt_frame s = inl s' ∧ represents s' inner P ∧ (measure s' inner < measure s inner)%nat.
Proof.
  intros (ps & Hw & Hp & Hf) Hd Hh Ht.
  assert (H2 : (2 ≤ header_len s)%nat) by (unfold header_len; destruct (is_wasm s); lia).
  destruct ps as [|p ps].
  { apply (f_equal length) in Hw. rewrite length_app in Hw. cbn [wire length] in Hw. lia. }
  inversion Hf as [|?? Hfp Hfps]; subst. cbn [wire] in Hw.
  pose proof (total_len_frame _ _ _ _ Hfp Hw Hh) as Hl. rewrite Hl in Ht.
  assert (Htake : take (total_len s) (read_buf s) = frame (is_wasm s) (read_nonce s) p).
  { rewrite <-(take_app_le _ (data inner)) by (by rewrite Hl). rewrite Hw. by apply take_app_length'. }
  assert (Hdrop : drop (total_len s) (read_buf s) ++ data inner = wire (is_wasm s) (read_nonce s + 1) ps).
  { rewrite <-drop_app_le by (by rewrite Hl). rewrite Hw. by apply drop_app_length'. }
  unfold decrypt_frame. rewrite Htake. unfold frame at 1.
  rewrite (drop_app_length' (frame_header _ _)) by (by rewrite (length_frame_header _ _ s)).
  rewrite read_write_message by exact Hfp. eexists. split; [done|]. split.
  - exists ps. split_and!; [done| |done]. cbn [decrypt_buf]. by rewrite Hd.
  - unfold measure. cbn [read_buf]. rewrite length_drop. unfold total_len in *. lia.
Qed.

Lemma poll_read_spec fuel room s inner P :
  represents s inner P → no_empty inner → (0 < room)%nat → (measure s inner + 1 < fuel)%nat →
  read_post s inner P (poll_read fuel room s inner).
Proof.
  revert s inner; induction fuel as [|fuel IH]; intros s inner Hrep Hne Hroom Hfuel; [lia|]. cbn [poll_read].
  case_bool_decide as Hd.
  { eexists _, _, _. split; [done|]. split; [done|]. split; [done|]. split.
    - intros Ht. destruct Hrep as (ps & _ & <- & _). destruct (decrypt_buf s) as [|x l] eqn:E; [done|].
      destruct room; [lia|]. done.
    - destruct Hrep as (ps & H1 & <- & H3). set (n := Nat.min _ room).
      exists (drop n (decrypt_buf s) ++ concat ps). split; [by rewrite app_assoc, take_drop|].
      exists ps. by split_and!. }
  rename Hd into Hdb.
  assert (Hstep : ∀ s' inner', represents s' inner' P → no_empty inner' → (measure s' inner' < measure s inner)%nat →
            (length inner' ≤ length inner)%nat → read_post s inner P (poll_read fuel room s' inner')).
  { intros s' inner' Hr' Hn' Hm Hl. destruct (IH s' inner' Hr' Hn' Hroom ltac:(lia)) as (s2 & i2 & p & -> & Hn2 & Hp).
    exists s2, i2, p. split; [done|]. split; [done|]. destruct p; [| |done]; (destruct Hp as [Hp1 Hp2]; split; [lia|exact Hp2]). }
  destruct (Nat.ltb_spec (length (read_buf s)) (header_len s)) as [Hh|Hh].
  - assert (He : data inner = [] → P = [] ∧ Ready [] = Ready []).
    { intros Hdat. destruct Hrep as (ps & Hw & <- & Hf). rewrite Hdat, app_nil_r, Hdb in *. split; [|done].
      destruct ps as [|p ps]; [done|]. apply (f_equal length) in Hw. cbn [wire] in Hw. unfold frame in Hw.
      rewrite !length_app, (length_frame_header _ _ s) in Hw by done. lia. }
    pose proof (fill_spec _ _ _ _ _ Hh Hne Hrep Hdb He) as Hfill.
    destruct (fill _ _ s inner) as [[s' inner'] [p|]]; [done|]. destruct Hfill as (?&?&?&?&?). by apply Hstep.
  - destruct (Nat.ltb_spec (length (read_buf s)) (total_len s)) as [Ht|Ht].
    + assert (He : data inner = [] → P = [] ∧ Failed true = Ready []).
      { intros Hdat. exfalso. destruct Hrep as (ps & Hw & <- & Hf). destruct ps as [|p ps].
        - apply (f_equal length) in Hw. rewrite length_app in Hw. cbn [wire length] in Hw.
          revert Hh. unfold header_len. destruct (is_wasm s); lia.
        - cbn [wire] in Hw. inversion Hf; subst. rewrite (total_len_frame _ _ _ _ ltac:(done) Hw Hh) in Ht.
          apply (f_equal length) in Hw. rewrite Hdat, !length_app in Hw. cbn [length] in Hw. lia. }
      pose proof (fill_spec _ _ _ _ _ Ht Hne Hrep Hdb He) as Hfill.
      destruct (fill _ _ s inner) as [[s' inner'] [p|]]; [done|]. destruct Hfill as (?&?&?&?&?). by apply Hstep.
    + destruct (decrypt_frame_spec _ _ _ Hrep Hdb Hh Ht) as (s' & -> & Hr' & Hm). by apply Hstep.
Qed.

(** A caller that polls until the end of the stream, waiting when there is nothing yet. *)
Fixpoint read_to_end (polls room : nat) s (inner : Inner) : option bytes :=
  match polls with
  | O => None
  | S polls =>
      match poll_read (measure s inner + 2) room s inner with
      | Some (_, _, Ready []) => Some []
      | Some (s, inner, Ready out) => app out <$> read_to_end polls room s inner
      | Some (s, inner, Pending) => read_to_end polls room s inner
      | Some (_, _, Failed _) | None => None
      end
  end.

(** C29. What goes in comes out: however the frames of the pieces [ps] are cut and delayed
    by the transport, the reader at the other end ends, without an error, with the
    concatenation of the pieces. *)
Theorem stream_roundtrip wasm ps inner room :
  Forall fits ps → no_empty inner → (0 < room)%nat → data inner = wire wasm 0 ps →
  read_to_end (length (concat ps) + length inner + 1) room (noise_new wasm) inner = Some (concat ps).
Proof.
  intros Hf Hne Hroom Hdat.
  assert (Hrep : represents (noise_new wasm) inner (concat ps)) by (exists ps; by split_and!).
  clear Hf Hdat. revert Hrep. generalize (noise_new wasm), (concat ps). clear ps wasm. intros s P Hrep.
  remember (length P + length inner + 1)%nat as polls eqn:Hpolls.
  assert (Hge : (length P + length inner < polls)%nat) by lia. clear Hpolls.
  revert s inner P Hrep Hne Hge. induction polls as [|polls IH]; intros s inner P Hrep Hne Hge; [lia|].
  cbn [read_to_end].
  destruct (poll_read_spec (measure s inner + 2) room s inner P Hrep Hne Hroom ltac:(lia))
    as (s' & inner' & p & -> & Hne' & Hp).
  destruct p as [out| |]; [|destruct Hp; apply IH; [done|done|lia]|done].
  destruct Hp as (Hl & H0 & P' & -> & Hr'). destruct out as [|x out].
  - by rewrite H0.
  - rewrite (IH s' inner' P'); [done|done|done|]. rewrite length_app in Hge. simpl in Hge. lia.
Qed.
End facts.
