(* ===== verification/Shield.v ===== *)
(** The first filter on raw bytes (primus-net-opt gravity_shield.rs) and the sector helpers
    of gravity_net.rs. *)
From S2P Require Import Prelude Floats Types.
Open Scope Z_scope.

(** rkyv: the archive of a serialized reaction passes its check and is the reaction; what
    deserializes is the reaction that the archive mirrors field by field. *)
Class Rkyv := {
  rkyv_to_bytes : SignedReaction → bytes;
  check_archived_root : bytes → option ArchivedSignedReaction;
  rkyv_deserialize : ArchivedSignedReaction → option SignedReaction;
  check_to_bytes rx : check_archived_root (rkyv_to_bytes rx) = Some (archive rx);
  deserialize_archive rx : rkyv_deserialize (archive rx) = Some rx;
  archive_deserialize a rx : rkyv_deserialize a = Some rx → archive rx = a;
}.

Record GravityShield := MkShield { drops : Z }.
Definition shield_new : GravityShield := MkShield 0.
Definition drop_count (s : GravityShield) : Z := drops s.

Inductive ShieldError :=
| MalformedFrame
| DeserializationFailure
| StructuralFailure (e : PrimusError)
| EmptySenderKey
| NegativeFee.

Section shield.
Context {HA : Hashes} {RK : Rkyv}.

Definition filter_bytes_inner (raw : bytes) : result SignedReaction ShieldError :=
  let? archived := ok_or (check_archived_root raw) MalformedFrame in
  let? rx := ok_or (rkyv_deserialize archived) DeserializationFailure in
  match validate_structure rx with
  | Err e => Err (StructuralFailure e)
  | Ok _ =>
      guard? negb (bool_decide (public_key (sender rx) = [])) else EmptySenderKey;
      guard? negb (fp_lt (energy rx) (f32_of_Z 0)) else NegativeFee;
      Ok rx
  end.

Definition filter_bytes (raw : bytes) (s : GravityShield) : GravityShield * result SignedReaction ShieldError :=
  let result := filter_bytes_inner raw in
  (if is_ok result then s else MkShield (u64_wrapping_add (drops s) 1), result).

(** The frames of a connection, one after the other. *)
Definition filter_all (frames : list bytes) (s : GravityShield) : GravityShield * list SignedReaction :=
  foldl (λ acc raw, let '(s, r) := filter_bytes raw acc.1 in
                    (s, acc.2 ++ match r with Ok rx => [rx] | Err _ => [] end)) (s, []) frames.

(** What the filter lets through is what the mempool's validation accepts: the layers
    after the structural one reject nothing more. *)
Lemma filter_bytes_inner_Ok raw rx :
  filter_bytes_inner raw = Ok rx ↔
  check_archived_root raw = Some (archive rx) ∧ structurally_valid rx.
Proof.
  unfold filter_bytes_inner. split.
  - intros H. destruct (check_archived_root raw) as [a|]; [|done]. cbn [ok_or rbind] in H.
    destruct (rkyv_deserialize a) as [rx'|] eqn:Ed; [|done]. cbn [ok_or rbind] in H.
    destruct (validate_structure rx') as [[]|] eqn:Hv; [|done]. inv_ok H.
    split; [f_equal; symmetry; by apply archive_deserialize|by apply validate_structure_Ok].
  - intros [-> Hv]. cbn [ok_or rbind]. rewrite deserialize_archive. cbn [ok_or rbind].
    pose proof (proj2 (validate_structure_Ok rx) Hv) as ->.
    pose proof (structurally_valid_energy rx Hv) as He. destruct Hv as (Hk & _).
    destruct (public_key (sender rx)) as [|x l]; [done|]. cbn [negb bool_decide].
    rewrite bool_decide_eq_false_2 by done. cbn [negb].
    by destruct (energy rx) as [|[|]| |[|] m e].
Qed.

(** Over any frames, the shield lets through exactly the archives of structurally
    valid reactions, in order, and counts every other frame. *)
Theorem shield_exact frames s :
  let '(s', out) := filter_all frames s in
  let passes raw := ∃ rx, check_archived_root raw = Some (archive rx) ∧ structurally_valid rx in
  ∃ kept dropped, Forall2 (λ raw rx, check_archived_root raw = Some (archive rx) ∧ structurally_valid rx) kept out ∧
    kept ++ dropped ≡ₚ frames ∧ sublist kept frames ∧ Forall (λ raw, ¬ passes raw) dropped ∧
    drops s' = match dropped with [] => drops s | _ => (drops s + len dropped) mod 2 ^ 64 end.
Proof.
  unfold filter_all. cbv zeta. induction frames as [|raw frames IH] using rev_ind.
  { exists [], []. split_and!; [constructor|done|constructor|constructor|done]. }
  rewrite foldl_app. cbn [foldl]. destruct (foldl _ (s, []) frames) as [s1 out1]. cbn [fst snd].
  destruct IH as (kept & dropped & Hk & Hp & Hsub & Hd & Hn). unfold filter_bytes.
  destruct (filter_bytes_inner raw) as [rx|e] eqn:E; cbn [is_ok fst snd].
  - apply filter_bytes_inner_Ok in E. exists (kept ++ [raw]), dropped. split_and!; [|rewrite <-Hp; solve_Permutation| |done|done].
    + by apply Forall2_app; [|constructor].
    + by apply sublist_app.
  - exists kept, (dropped ++ [raw]). rewrite app_nil_r.
    split_and!; [done|rewrite <-Hp; solve_Permutation|by apply sublist_inserts_r| |].
    + apply Forall_app. split; [done|]. constructor; [|done]. intros (rx & Hrx).
      by rewrite (proj2 (filter_bytes_inner_Ok raw rx) Hrx) in E.
    + cbn [drops]. rewrite Hn. unfold u64_wrapping_add, len. destruct dropped as [|d dropped]; [done|].
      rewrite Zplus_mod_idemp_l. cbn [app]. f_equal. simpl length. rewrite length_app. simpl. lia.
Qed.
End shield.

(** ** gravity_net.rs *)
Definition net_galactic_drift (crystal_index : Z) : Z := crystal_index mod 256.
Definition is_resonant (sender_pk_first_byte crystal_index : Z) : bool :=
  sender_pk_first_byte =? net_galactic_drift crystal_index.
