(* ===== verification/Ingress.v ===== *)
(** The bridge between the network and the core (primus-core main.rs, CoreHandleImpl): how
    bytes from a peer become mempool entries, crystals and answers.

    A call takes the locks one after the other.  [push_program] and [crystal_program] are the
    two that take several, section by section; [core_push_bytes] and [core_on_crystal] are
    the same when nothing comes in between (IngressFacts), and every other call holds one
    lock.  The clocks are readings: the monotonic clock twice (see Framing), and the system
    time.  The network, once set, is the list of messages handed to it. *)
From S2P Require Import Prelude Floats Types Mpt State Physics Pvm Crystal Chamber Storage Engine Processor.
From S2P Require Import Mempool Framing Shield Dht Gossip.
Open Scope Z_scope.

(** rkyv's encoding of an envelope, and bincode's of a crystal. *)
Class EnvelopeCodec := {
  ser_envelope : ChunkEnvelope → bytes;
  de_envelope : bytes → option ChunkEnvelope;
  de_ser_envelope e : de_envelope (ser_envelope e) = Some e;
}.
Class CrystalCodec := {
  ser_crystal : Crystal → bytes;
  de_crystal : bytes → option Crystal;
  de_ser_crystal c : de_crystal (ser_crystal c) = Some c;
}.

Record Clocks := MkClocks { mono : Z; mono' : Z; unix_secs : Z }.

Record CoreHandleImpl := MkCore {
  engine : PrimusEngine;
  mempool : SectoralMempool;
  frame_drops : Z;
  network : option (list PrimusMessage);
  chunk_reassembler : gmap bytes PartialStream;
}.
Definition core_new (e : PrimusEngine) (mp : SectoralMempool) : CoreHandleImpl :=
  MkCore e mp 0 None reassembler_new.
Definition set_network (s : CoreHandleImpl) : CoreHandleImpl :=
  MkCore (engine s) (mempool s) (frame_drops s) (Some []) (chunk_reassembler s).

Definition set_engine (e : PrimusEngine) (s : CoreHandleImpl) : CoreHandleImpl :=
  MkCore e (mempool s) (frame_drops s) (network s) (chunk_reassembler s).
Definition set_mempool (mp : SectoralMempool) (s : CoreHandleImpl) : CoreHandleImpl :=
  MkCore (engine s) mp (frame_drops s) (network s) (chunk_reassembler s).
Definition drop_frame (s : CoreHandleImpl) : CoreHandleImpl :=
  MkCore (engine s) (mempool s) (u64_wrapping_add (frame_drops s) 1) (network s) (chunk_reassembler s).
Definition set_reassembler (r : gmap bytes PartialStream) (s : CoreHandleImpl) : CoreHandleImpl :=
  MkCore (engine s) (mempool s) (frame_drops s) (network s) r.
(** The background task of the node, every thirty seconds. *)
Definition reassembler_gc (now : Z) (s : CoreHandleImpl) : CoreHandleImpl :=
  set_reassembler (evict_expired now (chunk_reassembler s)) s.
Definition broadcast (m : PrimusMessage) (s : CoreHandleImpl) : CoreHandleImpl :=
  MkCore (engine s) (mempool s) (frame_drops s) ((λ sent, sent ++ [m]) <$> network s) (chunk_reassembler s).

Inductive IngressError :=
| PayloadTooLarge (size : Z)
| CrystalMalformed
| RxMalformed (e : option PrimusError)
| RxUndecodable
| Rejected (e : MempoolError)
| Processing (e : ProcessorError)
| AtomUnknown
| NoProof (e : MptError).

Section ingress.
Context {HA : Hashes} {NC : NodeCodec} {AC : AtomCodec} {CV : CryptoVerifier} {RC : ReactionCodec}
        {RK : Rkyv} {EC : EnvelopeCodec} {CC : CrystalCodec}.
Implicit Types s : CoreHandleImpl.

Definition on_reaction (rx : SignedReaction) s : CoreHandleImpl * result unit IngressError :=
  let '(e, r) := process_network_reaction (engine s) rx in
  (set_engine e s, match r with Ok _ => Ok tt | Err err => Err (Processing err) end).

(** A crystal that is not in an envelope. *)
Definition take_crystal (crystal_bytes : bytes) s : CoreHandleImpl * result unit IngressError :=
  match de_crystal crystal_bytes with
  | None => (s, Err CrystalMalformed)
  | Some crystal =>
      let '(e, r) := process_network_crystal (engine s) crystal in
      (set_engine e s, match r with Ok _ => Ok tt | Err err => Err (Processing err) end)
  end.

(** A reassembled message is handled as if it had arrived, but with the reassembler still
    locked: if it is an envelope in its turn, the call waits for ever for itself ([None]). *)
Definition core_on_crystal (ck : Clocks) (crystal_bytes : bytes) s
    : CoreHandleImpl * option (result unit IngressError) :=
  match de_envelope crystal_bytes with
  | Some envelope =>
      let '(streams, r) := feed (mono ck) (mono' ck) envelope (chunk_reassembler s) in
      let s := set_reassembler streams s in
      match r with
      | Ok (Some full_message) =>
          match de_envelope full_message with
          | Some _ => (s, None)
          | None => let '(s, r) := take_crystal full_message s in (s, Some r)
          end
      | Ok None => (s, Some (Ok tt))
      | Err _ => (drop_frame s, Some (Ok tt))
      end
  | None => let '(s, r) := take_crystal crystal_bytes s in (s, Some r)
  end.

(** The same by sections; [again] is the call of itself. *)
Definition feed_section (ck : Clocks) (envelope : ChunkEnvelope) s : CoreHandleImpl * result (option bytes) FrameError :=
  let '(streams, r) := feed (mono ck) (mono' ck) envelope (chunk_reassembler s) in (set_reassembler streams s, r).
Definition drop_section {A} (a : A) : Async CoreHandleImpl A := Atomic (λ s, (drop_frame s, tt)) (λ _, Return a).

Definition crystal_body (ck : Clocks) (again : bytes → Async CoreHandleImpl (result unit IngressError))
    (crystal_bytes : bytes) : Async CoreHandleImpl (result unit IngressError) :=
  match de_envelope crystal_bytes with
  | Some envelope =>
      Acquire LReassembler (
        r ← atomically (feed_section ck envelope);
        r ← match r with
            | Ok (Some full_message) => again full_message
            | Ok None => mret (Ok tt)
            | Err _ => drop_section (Ok tt)
            end;
        Release LReassembler (mret r))
  | None =>
      match de_crystal crystal_bytes with
      | None => mret (Err CrystalMalformed)
      | Some _ => with_lock LEngine (take_crystal crystal_bytes)
      end
  end.
Fixpoint crystal_calls (depth : nat) (ck : Clocks) : bytes → Async CoreHandleImpl (result unit IngressError) :=
  match depth with
  | O => λ _, mret (Err CrystalMalformed)
  | S depth => crystal_body ck (crystal_calls depth ck)
  end.
(** The third call within one another is behind a lock that the first holds. *)
Definition crystal_program : Clocks → bytes → Async CoreHandleImpl (result unit IngressError) := crystal_calls 2.

Definition core_get_crystal_bytes (i : Z) s : option bytes :=
  ser_crystal <$> get_crystal (storage (engine s)) i.

Definition core_local_state s : Z * f32 * f32 :=
  let e := engine s in
  let cum_energy := match get_crystal_latest (storage e) with
                    | Some c => cumulative_energy c
                    | None => f32_of_Z 0
                    end in
  (current_crystal_index (eng_state e), entropy (global_metrics (eng_state e)), cum_energy).

Definition set_syncing (b : bool) (target : Z) (e : PrimusEngine) : PrimusEngine :=
  MkEngine (storage e) (eng_state e) (chamber e) (target_block_time e) (eng_architect_pk e) b target
    (epoch_difficulty e).
Definition core_is_syncing s : bool := is_syncing (engine s).
Definition core_set_sync_target (height : Z) s : CoreHandleImpl := set_engine (set_syncing true height (engine s)) s.
Definition core_finish_sync s : CoreHandleImpl :=
  if is_syncing (engine s) then set_engine (set_syncing false (sync_target (engine s)) (engine s)) s else s.

(** The end of [push_bytes], once it has the bytes to process. *)
Definition has_balance s (pk : bytes) : bool :=
  match storage_get_atom (storage (engine s)) pk with Some a => 0 <? mass a | None => false end.

Definition ingest (ck : Clocks) (b : bytes) s : CoreHandleImpl * result unit IngressError :=
  match from_bytes_zero_copy check_archived_root b with
  | Err e => (drop_frame s, Err (RxMalformed (Some e)))
  | Ok rx_archived =>
      match rkyv_deserialize rx_archived with
      | None => (s, Err RxUndecodable)
      | Some rx =>
          let sender_pubkey := public_key (sender rx) in
          let is_architect := bool_decide (sender_pubkey = eng_architect_pk (engine s)) in
          if negb is_architect && negb (has_balance s sender_pubkey) then (drop_frame s, Ok tt)
          else
            match push (unix_secs ck) (mempool s) rx with
            | Err e => (s, Err (Rejected e))
            | Ok (mp, is_new) =>
                let s := set_mempool mp s in
                (if is_new : bool then broadcast (NewReaction b 8) s else s, Ok tt)
            end
      end
  end.

Definition core_push_bytes (ck : Clocks) (b : bytes) s : CoreHandleImpl * result unit IngressError :=
  if APP_MAX_MESSAGE <? len b then (drop_frame s, Err (PayloadTooLarge (len b)))
  else
    match check_archived_root b, de_envelope b with
    | None, Some envelope =>
        let '(streams, r) := feed (mono ck) (mono' ck) envelope (chunk_reassembler s) in
        let s := set_reassembler streams s in
        match r with
        | Ok (Some full_message) => ingest ck full_message s
        | Ok None => (s, Ok tt)
        | Err _ => (drop_frame s, Ok tt)
        end
    | _, _ => ingest ck b s
    end.

(** The same by sections: the reassembler, the engine for the Architect's key and for the
    balance, the mempool for the reaction and for its size, the network. *)
Definition push_section (ck : Clocks) (rx : SignedReaction) s : CoreHandleImpl * result bool MempoolError :=
  match push (unix_secs ck) (mempool s) rx with
  | Err e => (s, Err e)
  | Ok (mp, is_new) => (set_mempool mp s, Ok is_new)
  end.
Definition ask {X} (l : LockName) (f : CoreHandleImpl → X) : Async CoreHandleImpl X := with_lock l (λ s, (s, f s)).
Definition broadcast_section (b : bytes) : Async CoreHandleImpl unit :=
  with_lock LNetwork (λ s, (broadcast (NewReaction b 8) s, tt)).

Definition admit_program (ck : Clocks) (b : bytes) (rx : SignedReaction)
    : Async CoreHandleImpl (result unit IngressError) :=
  is_new ← with_lock LMempool (push_section ck rx);
  match is_new with
  | Err e => mret (Err (Rejected e))
  | Ok true => ask LMempool (λ s, length (residents (sectors (mempool s))));; broadcast_section b;; mret (Ok tt)
  | Ok false => mret (Ok tt)
  end.
Definition ingest_program (ck : Clocks) (b : bytes) : Async CoreHandleImpl (result unit IngressError) :=
  match from_bytes_zero_copy check_archived_root b with
  | Err e => drop_section (Err (RxMalformed (Some e)))
  | Ok rx_archived =>
      match rkyv_deserialize rx_archived with
      | None => mret (Err RxUndecodable)
      | Some rx =>
          let sender_pubkey := public_key (sender rx) in
          is_architect ← ask LEngine (λ s, bool_decide (sender_pubkey = eng_architect_pk (engine s)));
          has_balance ← (if is_architect : bool then mret true else ask LEngine (λ s, has_balance s sender_pubkey));
          if has_balance : bool then admit_program ck b rx else drop_section (Ok tt)
      end
  end.
Definition push_program (ck : Clocks) (b : bytes) : Async CoreHandleImpl (result unit IngressError) :=
  if APP_MAX_MESSAGE <? len b then drop_section (Err (PayloadTooLarge (len b)))
  else
    match check_archived_root b, de_envelope b with
    | None, Some envelope =>
        r ← with_lock LReassembler (feed_section ck envelope);
        match r with
        | Ok (Some full_message) => ingest_program ck full_message
        | Ok None => mret (Ok tt)
        | Err _ => drop_section (Ok tt)
        end
    | _, _ => ingest_program ck b
    end.

Definition core_on_get_proof (addr : bytes) s : result MerkleProof IngressError :=
  let temp_storage := open_readonly (clone_db (storage (engine s))) in
  match get_proof temp_storage addr with Ok p => Ok p | Err e => Err (NoProof e) end.

(** `format!("{:?}", atom.element)` *)
Definition element_name (e : Element) : bytes :=
  bytes_of_string match e with
                  | Hydrogen => "Hydrogen"
                  | Carbon => "Carbon"
                  | Oxygen => "Oxygen"
                  | Gold => "Gold"
                  end.
Definition core_get_atom_state (addr : bytes) s : result (Z * Z * bytes * bytes) IngressError :=
  let? atom := ok_or (state_get_atom (eng_state (engine s)) addr) AtomUnknown in
  Ok (mass atom, nonce atom, last_reaction_hash atom, element_name (element atom)).

(** [MempoolIngress::push_bytes], the entry of gossip streams. *)
Definition ingress_push_bytes (ck : Clocks) (b : bytes) s : CoreHandleImpl * result bool IngressError :=
  if APP_MAX_MESSAGE <? len b then (s, Err (PayloadTooLarge (len b)))
  else
    match from_bytes_zero_copy check_archived_root b with
    | Err e => (s, Err (RxMalformed (Some e)))
    | Ok rx_archived =>
        match rkyv_deserialize rx_archived with
        | None => (s, Err RxUndecodable)
        | Some rx =>
            match push (unix_secs ck) (mempool s) rx with
            | Err e => (s, Err (Rejected e))
            | Ok (mp, is_new) =>
                let s := set_mempool mp s in
                (if is_new : bool then broadcast (NewReaction b 8) s else s, Ok is_new)
            end
        end
    end.
(** The same by sections. *)
Definition ingress_program (ck : Clocks) (b : bytes) : Async CoreHandleImpl (result bool IngressError) :=
  if APP_MAX_MESSAGE <? len b then mret (Err (PayloadTooLarge (len b)))
  else
    match from_bytes_zero_copy check_archived_root b with
    | Err e => mret (Err (RxMalformed (Some e)))
    | Ok rx_archived =>
        match rkyv_deserialize rx_archived with
        | None => mret (Err RxUndecodable)
        | Some rx =>
            is_new ← with_lock LMempool (push_section ck rx);
            match is_new with
            | Err e => mret (Err (Rejected e))
            | Ok is_new => (if is_new : bool then broadcast_section b else mret tt);; mret (Ok is_new)
            end
        end
    end.

(** ** The core as the network sees it *)
(** [error_text] is `to_string` of an error. *)
Definition as_text {A} (error_text : IngressError → bytes) (r : result A IngressError) : result A bytes :=
  match r with Ok a => Ok a | Err e => Err (error_text e) end.
Definition core_handle (ck : Clocks) (error_text : IngressError → bytes) : CoreHandle CoreHandleImpl := {|
  on_crystal b := is_ok <$> crystal_program ck b;
  local_state := core_local_state;
  get_crystal_bytes := core_get_crystal_bytes;
  set_sync_target := core_set_sync_target;
  Gossip.core_is_syncing := core_is_syncing;
  finish_sync := core_finish_sync;
  get_atom_state a s := as_text error_text (core_get_atom_state a s);
  push_bytes b := as_text error_text <$> push_program ck b;
  on_get_proof a s := as_text error_text (core_on_get_proof a s);
|}.
End ingress.
