(* ===== verification/IngressFacts.v ===== *)
(** The bridge admits what it should: its calls are what their sections do without
    interruption, a chunk in a chunk stops the call that takes it for ever, a reaction sent in chunks is treated as one sent whole, and a sender unknown to the
    chain is kept out on one of the two entries only. *)
From S2P Require Import Prelude Floats Types Mpt State Pvm Crystal Storage Engine Processor Mempool Framing.
From S2P Require Import Shield Dht Gossip Ingress.
Open Scope Z_scope.

Section bridge.
Context {HA : Hashes} {NC : NodeCodec} {AC : AtomCodec} {CV : CryptoVerifier} {RC : ReactionCodec}
        {RK : Rkyv} {EC : EnvelopeCodec} {CC : CrystalCodec}.
Implicit Types s : CoreHandleImpl.

(** ** Calls without interruption *)
Lemma ask_exec {X} l (f : CoreHandleImpl → X) s : exec None [] (ask l f) s = (s, Some (f s, None, [])).
Proof. unfold ask. by rewrite exec_lock. Qed.

Lemma admit_exec ck b rx s :
  exec None [] (admit_program ck b rx) s =
  match push (unix_secs ck) (mempool s) rx with
  | Err e => (s, Some (Err (Rejected e), None, []))
  | Ok (mp, is_new) =>
      let s := set_mempool mp s in
      (if is_new : bool then broadcast (NewReaction b 8) s else s, Some (Ok tt, None, []))
  end.
Proof.
  unfold admit_program. rewrite exec_bind, exec_lock. unfold push_section.
  destruct (push _ _ _) as [[mp []]|]; [|done..]. rewrite exec_bind, ask_exec, exec_bind. unfold broadcast_section.
  by rewrite exec_lock.
Qed.

Lemma ingest_exec ck b s :
  exec None [] (ingest_program ck b) s = let '(s, r) := ingest ck b s in (s, Some (r, None, [])).
Proof.
  unfold ingest_program, ingest. destruct (from_bytes_zero_copy _ _) as [a|]; [|done].
  destruct (rkyv_deserialize a) as [rx|]; [|done]. cbv zeta. rewrite exec_bind, ask_exec.
  case_bool_decide; cbn [negb andb].
  - rewrite exec_bind. cbn [exec mret async_mret]. rewrite admit_exec. by destruct (push _ _ _) as [[mp []]|].
  - rewrite exec_bind, ask_exec. destruct (has_balance s _); [|done]. rewrite admit_exec.
    by destruct (push _ _ _) as [[mp []]|].
Qed.

(** [core_push_bytes] is the program, when nothing comes between its sections. *)
Theorem push_exec ck b s :
  exec None [] (push_program ck b) s = let '(s, r) := core_push_bytes ck b s in (s, Some (r, None, [])).
Proof.
  unfold push_program, core_push_bytes. destruct (_ <? _); [done|].
  destruct (check_archived_root b); [by rewrite ingest_exec|]. destruct (de_envelope b) as [env|]; [|by rewrite ingest_exec].
  rewrite exec_bind, exec_lock. unfold feed_section.
  destruct (feed _ _ _ _) as [streams [[full|]|err]]; [by rewrite ingest_exec|done..].
Qed.

Theorem ingress_exec ck b s :
  exec None [] (ingress_program ck b) s = let '(s, r) := ingress_push_bytes ck b s in (s, Some (r, None, [])).
Proof.
  unfold ingress_program, ingress_push_bytes. destruct (_ <? _); [done|].
  destruct (from_bytes_zero_copy _ _) as [a|]; [|done]. destruct (rkyv_deserialize a) as [rx|]; [|done].
  rewrite exec_bind, exec_lock. unfold push_section. destruct (push _ _ _) as [[mp []]|]; [|done..].
  rewrite exec_bind. unfold broadcast_section. by rewrite exec_lock.
Qed.

Definition at_rest {S A} (r : S * option A) : S * option (A * option nat * list LockName) :=
  (r.1, (λ a, (a, None, [])) <$> r.2).

(** [core_on_crystal] is the program, however many calls it may make within one another; an
    envelope in an envelope stops it for ever. *)
Theorem crystal_exec depth ck b s :
  exec None [] (crystal_calls (S (S depth)) ck b) s = at_rest (core_on_crystal ck b s).
Proof.
  cbn [crystal_calls]. unfold crystal_body at 1, core_on_crystal. destruct (de_envelope b) as [env|].
  - cbn. unfold feed_section. destruct (feed _ _ _ _) as [streams [[full|]|err]]; [|done..]. cbn.
    unfold crystal_body. destruct (de_envelope full) as [env2|]; [done|]. unfold take_crystal.
    destruct (de_crystal full) as [c|] eqn:Ec; [|done]. cbn. by destruct (process_network_crystal _ _).
  - unfold take_crystal. destruct (de_crystal b) as [c|] eqn:Ec; [|done]. rewrite exec_lock.
    by destruct (process_network_crystal _ _).
Qed.

(** A message of one chunk, under a new stream, is complete at once. *)
Definition single_chunk (sid data : bytes) : ChunkEnvelope := MkEnvelope sid 0 1 (blake3 data) data.
Lemma feed_single now now' sid data streams :
  streams !! sid = None → ∃ streams', feed now now' (single_chunk sid data) streams = (streams', Ok (Some data)).
Proof.
  intros Hs. unfold feed, single_chunk. cbn [stream_id total_chunks payload_hash chunk_index chunk_data].
  assert (evict_expired now streams !! sid = None) as ->.
  { apply map_lookup_filter_None. by left. }
  cbn [default ps_total received expected_hash]. rewrite map_size_insert_None by done. rewrite map_size_empty. cbn.
  assert (reassemble 1 (<[0 := data]> ∅) = data) as ->
    by (unfold reassemble; change (seqZ 0 1) with [0]; cbn [mbind list_bind]; by rewrite lookup_insert_eq, app_nil_r).
  change (as_u32 (Z.of_nat 1) =? 1) with true. cbn. rewrite bool_decide_true by done. by eexists.
Qed.

(** ** Chunks of a reaction *)
Fixpoint push_chunks (arrivals : list (Clocks * ChunkEnvelope)) s : CoreHandleImpl * list (result unit IngressError) :=
  match arrivals with
  | [] => (s, [])
  | (ck, env) :: arrivals =>
      let '(s, r) := core_push_bytes ck (ser_envelope env) s in
      let '(s, rs) := push_chunks arrivals s in
      (s, r :: rs)
  end.
Definition arrival (a : Clocks * ChunkEnvelope) : Z * Z * ChunkEnvelope := (mono a.1, mono' a.1, a.2).
Definition sendable (env : ChunkEnvelope) : Prop :=
  check_archived_root (ser_envelope env) = None ∧ len (ser_envelope env) ≤ APP_MAX_MESSAGE.

Lemma push_envelope ck env s :
  sendable env →
  core_push_bytes ck (ser_envelope env) s =
  let '(streams, r) := feed (mono ck) (mono' ck) env (chunk_reassembler s) in
  let s := set_reassembler streams s in
  match r with
  | Ok (Some full_message) => ingest ck full_message s
  | Ok None => (s, Ok tt)
  | Err _ => (drop_frame s, Ok tt)
  end.
Proof.
  intros [Hc Hl]. unfold core_push_bytes. rewrite (proj2 (Z.ltb_ge _ _) Hl), Hc, de_ser_envelope. done.
Qed.

(** C14. A reaction that arrives in chunks, in any order within the time to live, is
    treated exactly as if it had arrived whole with the last of them: same mempool, same
    broadcast, same result; the chunks before change nothing but the reassembler. *)
Theorem chunked_reaction data sid envs arrivals ck env s t0 rx :
  chunk_message data sid = Ok envs → data ≠ [] → check_archived_root data = Some rx →
  chunk_reassembler s !! sid = None →
  (arrivals ++ [(ck, env)]).*2 ≡ₚ envs → Forall (in_window t0) (arrival <$> arrivals ++ [(ck, env)]) →
  Forall sendable envs →
  ∃ streams', streams' !! sid = None ∧
    let whole := core_push_bytes ck data (set_reassembler streams' s) in
    push_chunks (arrivals ++ [(ck, env)]) s = (whole.1, replicate (length arrivals) (Ok tt) ++ [whole.2]).
Proof.
  intros Hc Hd Hrx Hs Hp Hw Hsend.
  assert (Hwhole : ∀ s, core_push_bytes ck data s = ingest ck data s).
  { intros s0. unfold core_push_bytes. unfold chunk_message in Hc. destruct (APP_MAX_MESSAGE <? len data); [done|].
    by rewrite Hrx. }
  assert (Hpart : partial data sid envs t0 (chunk_reassembler s) []) by done.
  change ((arrivals ++ [(ck, env)]).*2) with ([] ++ (arrivals ++ [(ck, env)]).*2) in Hp.
  clear Hs. revert s Hpart Hp. generalize ([] : list ChunkEnvelope). induction arrivals as [|[ck1 env1] arrivals IH];
    intros seen s Hpart Hp; cbn [app fmap list_fmap push_chunks length replicate] in *.
  - inversion Hw as [|?? Hw1 _]; subst.
    pose proof (feed_own data sid envs t0 Hc _ _ _ [] Hw1 Hpart Hp) as Hfeed. cbn [arrival fst snd] in Hfeed.
    rewrite push_envelope by (rewrite Forall_forall in Hsend; apply Hsend; rewrite <-Hp; set_solver).
    destruct (feed _ _ _ _) as [streams r]. destruct Hfeed as [-> Hsid]. exists streams. split; [done|].
    rewrite Hwhole. by destruct (ingest ck data _).
  - inversion Hw as [|?? Hw1 Hw2]; subst.
    destruct ((arrivals ++ [(ck, env)]).*2) as [|e2 rest] eqn:Er; [by destruct arrivals|].
    pose proof (feed_own data sid envs t0 Hc _ _ _ (e2 :: rest) Hw1 Hpart Hp) as Hfeed. cbn [arrival fst snd] in Hfeed.
    rewrite push_envelope by (rewrite Forall_forall in Hsend; apply Hsend; rewrite <-Hp; set_solver).
    destruct (feed _ _ _ _) as [streams r]. destruct Hfeed as [-> Hpart'].
    destruct (IH Hw2 (env1 :: seen) (set_reassembler streams s)) as (streams' & Hsid & Heq).
    + done.
    + rewrite <-Hp. solve_Permutation.
    + exists streams'. split; [done|]. cbv zeta in Heq |- *. cbn beta iota. rewrite Heq. done.
Qed.

(** ** Who is let in *)
(** The sender is the Architect, or has mass on chain. *)
Definition known_sender s (rx : SignedReaction) : Prop :=
  public_key (sender rx) = eng_architect_pk (engine s) ∨
  ∃ a, storage_get_atom (storage (engine s)) (public_key (sender rx)) = Some a ∧ 0 < mass a.

Lemma known_sender_test s rx :
  known_sender s rx ↔
  negb (bool_decide (public_key (sender rx) = eng_architect_pk (engine s))) &&
  negb (has_balance s (public_key (sender rx))) = false.
Proof.
  unfold known_sender, has_balance. case_bool_decide; cbn [negb andb]; [naive_solver|].
  destruct (storage_get_atom _ _) as [a|]; cbn [negb]; [|naive_solver].
  rewrite negb_false_iff, Z.ltb_lt. naive_solver.
Qed.

(** The entry for peers admits a reaction exactly when its sender is the Architect or
    has mass on chain and the mempool accepts it; a new one is broadcast unchanged.  A
    phantom sender's reaction is dropped and counted, with no error to the peer. *)
Theorem core_admission ck b rx s :
  len b ≤ APP_MAX_MESSAGE → check_archived_root b = Some (archive rx) →
  (¬ known_sender s rx → core_push_bytes ck b s = (drop_frame s, Ok tt)) ∧
  (known_sender s rx → core_push_bytes ck b s =
     match push (unix_secs ck) (mempool s) rx with
     | Ok (mp, true) => (broadcast (NewReaction b 8) (set_mempool mp s), Ok tt)
     | Ok (mp, false) => (set_mempool mp s, Ok tt)
     | Err e => (s, Err (Rejected e))
     end).
Proof.
  intros Hl Hc. unfold core_push_bytes, ingest, from_bytes_zero_copy.
  rewrite (proj2 (Z.ltb_ge _ _) Hl), Hc. cbn [ok_or]. rewrite deserialize_archive. split; intros Hk.
  - destruct (negb _ && negb _) eqn:E; [done|]. by destruct Hk; apply known_sender_test.
  - apply known_sender_test in Hk. rewrite Hk. by destruct (push _ _ _) as [[mp []]|].
Qed.

(** The entry for gossip streams has no such check: what the other entry drops, it
    stores and broadcasts. *)
Theorem phantom_sender_bypass ck b rx s mp :
  len b ≤ APP_MAX_MESSAGE → check_archived_root b = Some (archive rx) → ¬ known_sender s rx →
  push (unix_secs ck) (mempool s) rx = Ok (mp, true) →
  (core_push_bytes ck b s).1 = drop_frame s ∧
  ingress_push_bytes ck b s = (broadcast (NewReaction b 8) (set_mempool mp s), Ok true).
Proof.
  intros Hl Hc Hk Hp. unfold core_push_bytes, ingest, ingress_push_bytes, from_bytes_zero_copy.
  rewrite (proj2 (Z.ltb_ge _ _) Hl), Hc. cbn [ok_or]. rewrite deserialize_archive, Hp. split; [|done].
  destruct (negb _ && negb _) eqn:E; [done|]. by destruct Hk; apply known_sender_test.
Qed.
End bridge.

(** ** Messages to this core *)
Section handled.
Context {HA : Hashes} {NC : NodeCodec} {AC : AtomCodec} {CV : CryptoVerifier} {RC : ReactionCodec}
        {RK : Rkyv} {EC : EnvelopeCodec} {CC : CrystalCodec} {MC : MessageCodec}.
Context (show : SocketAddr → bytes) (filter : bytes → result SignedReaction bytes) (iter_seen : gset bytes → list bytes).
Context (ck : Clocks) (error_text : IngressError → bytes) (peer_ip : bytes).
Implicit Types (n : Network CoreHandleImpl) (s : CoreHandleImpl).
#[local] Instance this_core : CoreHandle CoreHandleImpl := core_handle ck error_text.

Lemma push_bytes_exec b n :
  exec None [] (in_core (Gossip.push_bytes b)) n =
  let '(s, r) := core_push_bytes ck b (net_core n) in
  (Gossip.set_core s n, Some (as_text error_text r, None, [])).
Proof.
  rewrite exec_in_core. cbn [Gossip.push_bytes this_core core_handle]. unfold fmap, async_fmap.
  change (async_bind ?k ?p) with (p ≫= k). rewrite exec_bind, push_exec. by destruct (core_push_bytes ck b (net_core n)).
Qed.
Lemma on_crystal_exec b n :
  exec None [] (in_core (on_crystal b)) n =
  let '(s, r) := core_on_crystal ck b (net_core n) in
  (Gossip.set_core s n, (λ r, (is_ok r, None, [])) <$> r).
Proof.
  rewrite exec_in_core. cbn [on_crystal this_core core_handle]. unfold fmap at 1, async_fmap.
  change (async_bind ?k ?p) with (p ≫= k). rewrite exec_bind. unfold crystal_program. rewrite crystal_exec.
  by destruct (core_on_crystal ck b (net_core n)) as [s [r|]].
Qed.

Lemma fetch_state_handled addr n :
  handle_message show filter peer_ip None (FetchState addr) n =
  (n, answer (λ '(m, k, h, el), StateResponse m k h el) (as_text error_text (core_get_atom_state addr (net_core n))), []).
Proof.
  unfold handle_message, serve, run. cbn [timed_out on_message]. rewrite exec_bind, exec_ask. done.
Qed.
Lemma submit_handled b rx n :
  filter b = Ok rx →
  handle_message show filter peer_ip None (SubmitReaction b) n =
  let '(s, r) := core_push_bytes ck b (net_core n) in
  (Gossip.set_core s n, answer (λ _, ReactionAck (blake3 b)) (as_text error_text r), []).
Proof.
  intros Hf. unfold handle_message, serve, run. cbn [timed_out on_message]. unfold on_submit. rewrite Hf.
  rewrite !exec_bind, push_bytes_exec. by destruct (core_push_bytes ck b (net_core n)).
Qed.
Lemma crystal_response_handled late b n :
  handle_message show filter peer_ip late (CrystalResponse b) n =
  (Gossip.set_core (core_on_crystal ck b (net_core n)).1 n, [], []).
Proof.
  unfold handle_message, serve, run. cbn [timed_out on_message]. rewrite exec_bind, on_crystal_exec.
  by destruct (core_on_crystal ck b (net_core n)) as [s [r|]].
Qed.
Lemma request_handled late first last n :
  handle_message show filter peer_ip late (MSync (RequestCrystals first last)) n =
  (n, omap (λ i, CrystalResponse <$> core_get_crystal_bytes i (net_core n)) (crystal_range first last), []).
Proof. unfold handle_message, serve, run. cbn [timed_out on_message on_sync]. rewrite exec_bind, exec_fetch. done. Qed.
Lemma status_handled late st n :
  handle_message show filter peer_ip late (MSync (Handshake st)) n =
  let '(h, e, cum) := core_local_state (net_core n) in
  if is_more_dominant_than st (from_engine h e cum) then
    (Gossip.set_core (core_set_sync_target (gs_crystal_index st) (net_core n)) n,
     [MSync (RequestCrystals (u64_wrapping_add h 1) (gs_crystal_index st))], [])
  else (n, [], []).
Proof.
  unfold handle_message, serve, run. cbn [timed_out on_message on_sync]. rewrite !exec_bind, exec_ask.
  cbn [local_state this_core core_handle]. destruct (core_local_state (net_core n)) as [[h e] cum].
  by destruct (is_more_dominant_than _ _).
Qed.
(** The task of a reaction pushes it, and floods it if that worked. *)
Lemma reaction_task_run data m n :
  run_task iter_seen show peer_ip (TReaction data m) n =
  let '(s, r) := core_push_bytes ck data (net_core n) in
  let n := Gossip.set_core s n in
  if is_ok r && has_gossip n then spread iter_seen show m (Some peer_ip) n else (n, []).
Proof.
  unfold run_task, run. cbn [on_task]. rewrite exec_bind, push_bytes_exec.
  destruct (core_push_bytes ck data (net_core n)) as [s r]. rewrite exec_bind. cbn [exec atomically].
  assert (is_ok (as_text error_text r) = is_ok r) as -> by by destruct r.
  destruct (is_ok r && _); [|done]. rewrite exec_spread. by destruct (spread _ _ _ _ _).
Qed.
End handled.
