(* ===== verification/Server.v ===== *)
(** The QUIC/WebTransport server (primus-net-opt server.rs): the nonces of a session and
    the handling of a gossip stream.

    A stream is the bytes the peer wrote before finishing it.  tokio_util's length-delimited
    codec is a parameter, with what its documentation says of a complete frame. *)
From S2P Require Import Prelude Floats Types Framing Dht Gossip.
Open Scope Z_scope.

Definition STREAM_TYPE_GOSSIP : Z := 1.
Definition STREAM_TYPE_CONTROL : Z := 2.
Definition MAX_GOSSIP_PAYLOAD : Z := 16 * 1024 * 1024.

(** The builder's settings; [num_skip] not set is the offset and the length of the field. *)
Record CodecConfig := MkCodec {
  length_field_offset : nat;
  length_field_length : nat;
  length_adjustment : Z;
  max_frame_length : Z;
  num_skip : option nat;
}.
Definition skipped (c : CodecConfig) : nat :=
  default (length_field_offset c + length_field_length c)%nat (num_skip c).
(** The first item of the framed stream and what follows it: none at the end of the stream,
    an error if the length is over the limit or the stream ends within a frame. *)
Class LengthDelimitedCodec := {
  next_frame : CodecConfig → bytes → option (option bytes);
  next_frame_complete c head n rest :
    length head = length_field_offset c → 0 ≤ n < 256 ^ Z.of_nat (length_field_length c) → n ≤ max_frame_length c →
    let input := head ++ to_be (length_field_length c) n ++ rest in
    0 ≤ n + length_adjustment c → Z.of_nat (skipped c) + (n + length_adjustment c) ≤ len input →
    next_frame c input = Some (Some (take (Z.to_nat (n + length_adjustment c)) (drop (skipped c) input)));
  after_frame : CodecConfig → bytes → bytes;
  after_frame_complete c head n rest :
    length head = length_field_offset c → 0 ≤ n < 256 ^ Z.of_nat (length_field_length c) → n ≤ max_frame_length c →
    let input := head ++ to_be (length_field_length c) n ++ rest in
    0 ≤ n + length_adjustment c → Z.of_nat (skipped c) + (n + length_adjustment c) ≤ len input →
    after_frame c input = drop (skipped c + Z.to_nat (n + length_adjustment c)) input;
  next_frame_end c : (0 < skipped c)%nat → next_frame c [] = None;
  after_frame_shorter c input b :
    (0 < skipped c)%nat → next_frame c input = Some (Some b) → (length (after_frame c input) < length input)%nat;
}.
(** A frame as the codec writes it with only the limit set, and reads it back. *)
Definition bounded_codec : CodecConfig := MkCodec 0 4 0 MAX_GOSSIP_PAYLOAD None.
Definition length_frame (b : bytes) : bytes := to_be 4 (as_u32 (len b)) ++ b.
Lemma bounded_frame `{LengthDelimitedCodec} b rest :
  len b ≤ MAX_GOSSIP_PAYLOAD →
  next_frame bounded_codec (length_frame b ++ rest) = Some (Some b) ∧ after_frame bounded_codec (length_frame b ++ rest) = rest.
Proof.
  intros Hb. unfold MAX_GOSSIP_PAYLOAD in Hb. unfold length_frame.
  assert (H0 : 0 ≤ len b) by (unfold len; lia).
  replace (as_u32 (len b)) with (len b) by (unfold as_u32; rewrite Z.mod_small; lia). rewrite <-app_assoc.
  pose proof (next_frame_complete bounded_codec [] (len b) (b ++ rest)) as Hn.
  pose proof (after_frame_complete bounded_codec [] (len b) (b ++ rest)) as Ha.
  cbn -[to_be len] in Hn, Ha. rewrite Z.add_0_r in Hn, Ha.
  assert (Hlen : 4 + len b ≤ len (to_be 4 (len b) ++ b ++ rest)).
  { unfold len. rewrite !length_app, length_to_be. lia. }
  assert (Hpow : len b < 256 ^ Z.of_nat 4) by (change (256 ^ Z.of_nat 4) with (2 ^ 32); lia).
  assert (Hnat : Z.to_nat (len b) = length b) by (unfold len; lia).
  rewrite Hn, Ha, Hnat by done. split.
  - rewrite drop_app_length' by (by rewrite length_to_be). by rewrite take_app_length.
  - rewrite (app_assoc (to_be 4 (len b))). apply drop_app_length'. rewrite length_app, length_to_be. lia.
Qed.
Lemma next_length_frame `{LengthDelimitedCodec} b :
  len b ≤ MAX_GOSSIP_PAYLOAD → next_frame bounded_codec (length_frame b) = Some (Some b).
Proof. intros Hb. rewrite <-(app_nil_r (length_frame b)). by apply bounded_frame. Qed.

(** A session: its transport's two directions, and a nonce counter for each. *)
Record PeerSession := MkSession {
  noise_read : Z → bytes → option bytes;
  noise_write : Z → bytes → option bytes;
  recv_nonce : Z;
  send_nonce : Z;
}.
Definition session_new (rd wr : Z → bytes → option bytes) : PeerSession := MkSession rd wr 0 0.

Definition decrypt (ciphertext : bytes) (p : PeerSession) : PeerSession * option bytes :=
  let nonce := recv_nonce p in
  (MkSession (noise_read p) (noise_write p) (u64_wrapping_add nonce 1) (send_nonce p), noise_read p nonce ciphertext).

(** [type, flags, length (4, big endian), padding (2)]; then the stream: header and ciphertext. *)
Definition gossip_header (n : Z) : bytes := [STREAM_TYPE_GOSSIP; 0] ++ to_be 4 n ++ [0; 0].
Definition send_gossip (payload : bytes) (p : PeerSession) : PeerSession * option bytes :=
  let nonce := send_nonce p in
  (MkSession (noise_read p) (noise_write p) (recv_nonce p) (u64_wrapping_add nonce 1),
   (λ ciphertext, gossip_header (len ciphertext) ++ ciphertext) <$> noise_write p nonce payload).

Inductive GossipError :=
| StreamClosed
| FrameTooLarge
| FrameTooShort
| UnexpectedStreamType (t : Z)
| DecryptionFailed
| NoHandshake
| EnvelopeMalformed
| IngestionFailed.

Record Server (S : Type) := MkServer {
  sessions : gmap bytes PeerSession;
  srv_frame_drops : Z;
  srv_core : S;
  closed : list bytes;
}.
Arguments MkServer {S}.
Arguments sessions {S}.
Arguments srv_frame_drops {S}.
Arguments srv_core {S}.
Arguments closed {S}.

Section server.
Context {LC : LengthDelimitedCodec} {MD : MessageDecoder}.
Context {S : Type} (mempool_push : bytes → S → S * bool).
Implicit Types sv : Server S.

Definition gossip_codec : CodecConfig := MkCodec 2 4 2 (MAX_GOSSIP_PAYLOAD + 8) None.

(** After the handshake of a connection. *)
Definition register_session (remote_addr : bytes) (p : PeerSession) sv : Server S :=
  MkServer (<[remote_addr := p]> (sessions sv)) (srv_frame_drops sv) (srv_core sv) (closed sv).

Definition handle_message_bytes (plaintext : bytes) sv : Server S * result unit GossipError :=
  match de_msg plaintext with
  | None => (sv, Err EnvelopeMalformed)
  | Some (NewReaction data _) =>
      let '(c, ok) := mempool_push data (srv_core sv) in
      (MkServer (sessions sv) (srv_frame_drops sv) c (closed sv), if ok : bool then Ok tt else Err IngestionFailed)
  | Some _ => (sv, Ok tt)
  end.

Definition handle_gossip_stream (recv : bytes) (remote_addr : bytes) sv : Server S * result unit GossipError :=
  match next_frame gossip_codec recv with
  | None => (sv, Err StreamClosed)
  | Some None =>
      (MkServer (sessions sv) (u64_wrapping_add (srv_frame_drops sv) 1) (srv_core sv) (closed sv), Err FrameTooLarge)
  | Some (Some frame) =>
      if len frame <? 8 then (sv, Err FrameTooShort)
      else
        let stream_type := default 0 (head frame) in
        let ciphertext := drop 8 frame in
        if negb (stream_type =? STREAM_TYPE_GOSSIP) then (sv, Err (UnexpectedStreamType stream_type))
        else
          match sessions sv !! remote_addr with
          | None => (sv, Err NoHandshake)
          | Some session =>
              let '(session, r) := decrypt ciphertext session in
              let sv := MkServer (<[remote_addr := session]> (sessions sv)) (srv_frame_drops sv) (srv_core sv) (closed sv) in
              match r with
              | None => (sv, Err DecryptionFailed)
              | Some plaintext => handle_message_bytes plaintext sv
              end
          end
  end.

(** The task of a uni-stream: nothing if there was no session when it was accepted; an
    error closes the connection. *)
Definition gossip_task (recv : bytes) (remote_addr : bytes) sv : Server S :=
  let '(sv, r) := handle_gossip_stream recv remote_addr sv in
  match r with
  | Ok _ => sv
  | Err _ => MkServer (delete remote_addr (sessions sv)) (srv_frame_drops sv) (srv_core sv) (closed sv ++ [remote_addr])
  end.
Definition uni_stream (recv : bytes) (remote_addr : bytes) sv : Server S :=
  match sessions sv !! remote_addr with None => sv | Some _ => gossip_task recv remote_addr sv end.

(** A stream changes a session only by its nonces. *)
Lemma gossip_task_origins (P : bytes → PeerSession → Prop) recv remote_addr sv :
  map_Forall P (sessions sv) → (∀ a session ct, P a session → P a (decrypt ct session).1) →
  map_Forall P (sessions (gossip_task recv remote_addr sv)).
Proof.
  intros HP Hd. unfold gossip_task.
  assert (Hs : map_Forall P (sessions (handle_gossip_stream recv remote_addr sv).1)).
  { unfold handle_gossip_stream. destruct (next_frame gossip_codec recv) as [[frame|]|]; [|done..].
    destruct (len frame <? 8); [done|]. destruct (negb _); [done|].
    destruct (sessions sv !! remote_addr) as [session|] eqn:Hl; [|done]. pose proof (Hd remote_addr session (drop 8 frame)) as Hd'.
    destruct (decrypt (drop 8 frame) session) as [session' r].
    assert (Hins : map_Forall P (<[remote_addr := session']> (sessions sv))).
    { apply map_Forall_insert_2; [|done]. by apply Hd', (HP remote_addr). }
    destruct r as [plaintext|]; [|done]. unfold handle_message_bytes. cbn [sessions srv_core].
    destruct (de_msg plaintext) as [m|]; [|done]. destruct m; try done. by destruct (mempool_push _ _). }
  destruct (handle_gossip_stream recv remote_addr sv) as [sv' [|e]]; [done|]. cbn [sessions fst] in *.
  by apply map_Forall_delete.
Qed.

(** The frame the codec delivers for a stream of [send_gossip]: the header is skipped, but
    for its padding. *)
Lemma gossip_frame ciphertext :
  len ciphertext ≤ MAX_GOSSIP_PAYLOAD →
  next_frame gossip_codec (gossip_header (len ciphertext) ++ ciphertext) = Some (Some ([0; 0] ++ ciphertext)).
Proof.
  intros Hl. unfold MAX_GOSSIP_PAYLOAD in Hl.
  pose proof (next_frame_complete gossip_codec [STREAM_TYPE_GOSSIP; 0] (len ciphertext) ([0; 0] ++ ciphertext)) as Hn.
  cbn [gossip_codec length_field_offset length_field_length length_adjustment max_frame_length] in Hn.
  change (skipped gossip_codec) with 6%nat in Hn. cbv zeta in Hn. unfold gossip_header. rewrite <-!app_assoc.
  rewrite Hn; [|done|unfold len in *; simpl; lia|unfold MAX_GOSSIP_PAYLOAD; lia|unfold len; lia|].
  - do 2 f_equal. rewrite (app_assoc [STREAM_TYPE_GOSSIP; 0]).
    rewrite drop_app_length' by (rewrite length_app, length_to_be; done).
    apply take_ge. unfold len. rewrite length_app. simpl. lia.
  - unfold len. rewrite !length_app, length_to_be. simpl. lia.
Qed.

(** Gossip between two nodes does not work: whatever a session sends with
    [send_gossip], the handler at the other end takes the padding for the stream type,
    refuses it and closes the connection; nothing reaches the mempool. *)
Theorem gossip_always_refused payload sender sender' stream remote_addr session sv :
  send_gossip payload sender = (sender', Some stream) → len stream - 8 ≤ MAX_GOSSIP_PAYLOAD → 14 ≤ len stream →
  sessions sv !! remote_addr = Some session →
  handle_gossip_stream stream remote_addr sv = (sv, Err (UnexpectedStreamType 0)) ∧
  uni_stream stream remote_addr sv
    = MkServer (delete remote_addr (sessions sv)) (srv_frame_drops sv) (srv_core sv) (closed sv ++ [remote_addr]).
Proof.
  unfold send_gossip. intros H Hmax Hmin Hs.
  destruct (noise_write sender (send_nonce sender) payload) as [ciphertext|]; [|done].
  apply (f_equal snd) in H. cbn [snd fmap option_fmap option_map] in H. apply (inj Some) in H. subst stream.
  assert (Hlen : len (gossip_header (len ciphertext) ++ ciphertext) = len ciphertext + 8).
  { unfold len, gossip_header. rewrite !length_app, length_to_be. simpl. lia. }
  rewrite Hlen in Hmax, Hmin.
  assert (Hh : handle_gossip_stream (gossip_header (len ciphertext) ++ ciphertext) remote_addr sv
               = (sv, Err (UnexpectedStreamType 0))).
  { unfold handle_gossip_stream. rewrite gossip_frame by lia.
    rewrite (proj2 (Z.ltb_ge _ _)) by (unfold len in *; simpl; lia). done. }
  split; [done|]. unfold uni_stream, gossip_task. by rewrite Hs, Hh.
Qed.

(** Whatever arrives, the core sees only the data of a reaction that decrypts under the
    session's next nonce, and no nonce is used for two streams. *)
Theorem gossip_stream_authenticated recv remote_addr sv :
  let sv' := (handle_gossip_stream recv remote_addr sv).1 in
  srv_core sv' ≠ srv_core sv →
  ∃ session frame plaintext data ttl,
    sessions sv !! remote_addr = Some session ∧ next_frame gossip_codec recv = Some (Some frame) ∧
    noise_read session (recv_nonce session) (drop 8 frame) = Some plaintext ∧
    de_msg plaintext = Some (NewReaction data ttl) ∧ srv_core sv' = (mempool_push data (srv_core sv)).1 ∧
    recv_nonce <$> sessions sv' !! remote_addr = Some (u64_wrapping_add (recv_nonce session) 1).
Proof.
  cbv zeta. unfold handle_gossip_stream.
  destruct (next_frame gossip_codec recv) as [[frame|]|]; [|done|done].
  destruct (len frame <? 8); [done|]. destruct (negb _); [done|].
  destruct (sessions sv !! remote_addr) as [session|] eqn:Hs; [|done]. unfold decrypt.
  destruct (noise_read session (recv_nonce session) (drop 8 frame)) as [plaintext|] eqn:Hd; [|done].
  unfold handle_message_bytes. destruct (de_msg plaintext) as [m|] eqn:Hm; [|done].
  destruct m; try done. cbn [srv_core]. destruct (mempool_push data (srv_core sv)) as [c ok] eqn:Hp. intros _.
  exists session, frame, plaintext, data, ttl. cbn [fst sessions srv_core]. rewrite lookup_insert_eq, Hp. by split_and!.
Qed.
End server.
