(* ===== verification/Peers.v ===== *)
(** The connections between peers (primus-net-opt network.rs): the cache of outgoing
    connections, sending, broadcasting, the discovery loop, the liveness check and the
    listener.

    The environment says which addresses accept a connection and which connections can be
    written to; a socket is the frames written to it. *)
From S2P Require Import Prelude Floats Types Mpt State Physics Pvm Crystal Chamber Storage Engine Processor Mempool.
From S2P Require Import Framing Shield Dht Gossip GossipFacts Ingress IngressFacts Server Text.
Open Scope Z_scope.

Definition MAX_FRAME_BYTES : Z := 16 * 1024 * 1024.

Inductive SendError := ConnectFailed | TcpSendFailed.

Section peers.
Context {HA : Hashes} {MC : MessageCodec} {MDec : MessageDecoder} {S : Type} {CH : CoreHandle S}.
Context (show : SocketAddr → bytes) (filter : bytes → result SignedReaction bytes).
Context (iter_seen : gset bytes → list bytes).
Implicit Types (n : Network S) (cache : gset bytes) (m : PrimusMessage).

(** Which addresses accept a connection; which connections can be written to. *)
Record World := MkWorld { up : bytes → bool; writable : bytes → bool }.

(** The cache afterwards and the frames written, with their addresses. *)
Definition send_to_peer (wd : World) (target_addr : bytes) m cache : gset bytes * list (bytes * bytes) * result unit SendError :=
  if negb (bool_decide (target_addr ∈ cache)) && negb (up wd target_addr) then (cache, [], Err ConnectFailed)
  else
    let cache := {[target_addr]} ∪ cache in
    let bytes := ser_msg m in
    if (len bytes <=? MAX_FRAME_BYTES) && writable wd target_addr then (cache, [(target_addr, bytes)], Ok tt)
    else (cache ∖ {[target_addr]}, [], Err TcpSendFailed).

(** One after the other; whatever fails is ignored. *)
Fixpoint send_each (wd : World) (peers : list bytes) m cache : gset bytes * list (bytes * bytes) :=
  match peers with
  | [] => (cache, [])
  | addr :: peers =>
      let '(cache, sent, _) := send_to_peer wd addr m cache in
      let '(cache, sent') := send_each wd peers m cache in
      (cache, sent ++ sent')
  end.
Definition broadcast_message (wd : World) m n cache : gset bytes * list (bytes * bytes) :=
  send_each wd (get_peer_list show (net_dht n)) m cache.
(** One tick of [run_discovery_loop]. *)
Definition discovery_tick (wd : World) n cache : gset bytes * list (bytes * bytes) :=
  broadcast_message wd GetPeers n cache.

(** [NodePinger]: over the session of the node if it has one, else over TCP. *)
Definition net_ping (wd : World) (open_uni : bool) (sessions : gmap bytes PeerSession) (nr : PrimusNR) cache
    : gmap bytes PeerSession * gset bytes * bool :=
  let a := show (addr nr) in
  match sessions !! a with
  | Some session =>
      let '(session, stream) := send_gossip (ser_msg Ping) session in
      (<[a := session]> sessions, cache, bool_decide (is_Some stream) && open_uni)
  | None => let '(cache, _, r) := send_to_peer wd a Ping cache in (sessions, cache, is_ok r)
  end.

(** What the listener has accepted, each session with the frames that came. *)
Fixpoint start_listener (conns : list (bytes * list (option bytes * option nat))) n : Network S * list (bytes * PrimusMessage) * list (bytes * Task) :=
  match conns with
  | [] => (n, [], [])
  | (peer_ip, frames) :: conns =>
      let '(n, out, tasks, _) := peer_session show filter peer_ip frames n in
      let '(n, out', tasks') := start_listener conns n in
      (n, map (pair peer_ip) out ++ out', map (pair peer_ip) tasks ++ tasks')
  end.
(** The tasks of the sessions, and those they spawn. *)
Fixpoint run_tasks (tasks : list (bytes * Task)) n : Network S * list Task :=
  match tasks with
  | [] => (n, [])
  | (peer_ip, t) :: tasks =>
      let '(n, spawned) := run_task iter_seen show peer_ip t n in
      let '(n, spawned') := run_tasks tasks n in
      (n, spawned ++ spawned')
  end.

(** ** Facts *)
(** A broken connection is not used again: after a failure the address is not in the cache,
    so that the next send connects anew; after a success it is. *)
Theorem send_to_peer_cache wd a m cache :
  let '(cache', sent, r) := send_to_peer wd a m cache in
  match r with
  | Ok _ => (a ∈ cache') ∧ sent = [(a, ser_msg m)]
  | Err ConnectFailed => cache' = cache ∧ (a ∉ cache) ∧ sent = []
  | Err TcpSendFailed => (a ∉ cache') ∧ sent = [] ∧
      ∀ wd' m', len (ser_msg m') ≤ MAX_FRAME_BYTES → writable wd' a = true →
        ((send_to_peer wd' a m' cache').2 = Ok tt ↔ up wd' a = true)
  end.
Proof.
  unfold send_to_peer. case_bool_decide as Hc; cbn [negb andb].
  - destruct (_ && _); [set_solver|]. split; [set_solver|]. split; [done|]. intros wd' m' Hl Hw.
    rewrite bool_decide_false by set_solver. cbn [negb andb]. destruct (up wd' a); cbn [negb]; [|done].
    by rewrite (proj2 (Z.leb_le _ _) Hl), Hw.
  - destruct (up wd a); cbn [negb]; [|done]. destruct (_ && _); [set_solver|]. split; [set_solver|]. split; [done|].
    intros wd' m' Hl Hw. rewrite bool_decide_false by set_solver. cbn [negb andb]. destruct (up wd' a); cbn [negb]; [|done].
    by rewrite (proj2 (Z.leb_le _ _) Hl), Hw.
Qed.

Lemma send_each_reaches wd m peers b cache :
  b ∈ peers → up wd b = true → writable wd b = true → len (ser_msg m) ≤ MAX_FRAME_BYTES →
  (b, ser_msg m) ∈ (send_each wd peers m cache).2.
Proof.
  intros Hin Hup Hw Hl. revert cache. induction peers as [|a peers IH]; intros cache; [by apply not_elem_of_nil in Hin|].
  cbn [send_each]. apply elem_of_cons in Hin as [->|Hin].
  - destruct (send_to_peer wd a m cache) as [[cache' sent] r] eqn:E. unfold send_to_peer in E.
    rewrite Hup in E. cbn [negb] in E. rewrite andb_false_r, (proj2 (Z.leb_le _ _) Hl), Hw in E. cbn [andb] in E. injection E as <- <- <-.
    destruct (send_each wd peers m _) as [c s]. left.
  - destruct (send_to_peer wd a m cache) as [[cache' sent] r]. specialize (IH Hin cache').
    destruct (send_each wd peers m cache') as [c s]. apply elem_of_app. by right.
Qed.

(** A node connects to no peer whose address ends with its own port, on whatever host. *)
Theorem same_port_never_connects reachable host n :
  connect_to_peer show reachable (host ++ colon_port (net_port n)) n = (n, Some []).
Proof.
  unfold connect_to_peer, ends_with. rewrite length_app, Nat.add_sub, drop_app_length, bool_decide_true by done. done.
Qed.
End peers.

(** ** Two nodes *)
Section two_nodes.
Context {HA : Hashes} {NC : NodeCodec} {AC : AtomCodec} {CV : CryptoVerifier} {RC : ReactionCodec}
        {RK : Rkyv} {EC : EnvelopeCodec} {CC : CrystalCodec} {MC : MessageCodec} {MDec : MessageDecoder}.
Context (show : SocketAddr → bytes) (filter : bytes → result SignedReaction bytes) (iter_seen : gset bytes → list bytes).
Context (error_text : IngressError → bytes).
Implicit Types (n : Network CoreHandleImpl) (s : CoreHandleImpl).

(** The session that carries one frame, and the task it spawns. *)
Definition receive (ck : Clocks) (peer_ip frame : bytes) (late : option nat) n : Network CoreHandleImpl :=
  let '(n, _, tasks) := start_listener (CH := core_handle ck error_text) show filter [(peer_ip, [(Some frame, late)])] n in
  (run_tasks (CH := core_handle ck error_text) show iter_seen tasks n).1.

(** C37. A reaction that one node takes into its pool reaches the pool of every peer it can
    send to, if that peer takes it: the frame is among those it writes, and the session of
    the peer that reads it queues the reaction; the peer floods it in its turn exactly
    when it is new there, again with the full lifetime. *)
Theorem reaction_spreads ck ck' b rx n mp wd cache a n' mp' is_new peer_ip late :
  let m := NewReaction b 8 in
  len b ≤ APP_MAX_MESSAGE → check_archived_root b = Some (archive rx) →
  known_sender (net_core n) rx → push (unix_secs ck) (mempool (net_core n)) rx = Ok (mp, true) →
  a ∈ get_peer_list show (net_dht n) → up wd a = true → writable wd a = true →
  len (ser_msg m) ≤ MAX_FRAME_BYTES → de_msg (ser_msg m) = Some m →
  known_sender (net_core n') rx → push (unix_secs ck') (mempool (net_core n')) rx = Ok (mp', is_new) →
  let '(s, r) := core_push_bytes ck b (net_core n) in
  r = Ok tt ∧ mempool s = mp ∧ network s = (λ sent, sent ++ [m]) <$> network (net_core n) ∧
  (a, ser_msg m) ∈ (broadcast_message show wd m n cache).2 ∧
  let s' := net_core (receive ck' peer_ip (ser_msg m) late n') in
  mempool s' = mp' ∧ engine s' = engine (net_core n') ∧
  network s' = (if is_new : bool then (λ sent, sent ++ [m]) <$> network (net_core n') else network (net_core n')).
Proof.
  cbv zeta. intros Hl Hc Hk Hp Ha Hup Hw Hfit Hde Hk' Hp'.
  rewrite (proj2 (core_admission ck b rx (net_core n) Hl Hc) Hk), Hp. split; [done|]. split; [done|]. split; [done|].
  split; [by apply send_each_reaches|].
  unfold receive. cbn [start_listener peer_session mbind option_bind]. rewrite Hde. 
  change (serve show filter peer_ip late (NewReaction b 8) n') with (n', Some ([] : list PrimusMessage, [TReaction b (NewReaction b 8)])).
  cbn [app map run_tasks]. rewrite reaction_task_run. change (net_core (close_session peer_ip n')) with (net_core n').
  assert (Hpush : core_push_bytes ck' b (net_core n') =
            (if is_new : bool then broadcast (NewReaction b 8) (set_mempool mp' (net_core n')) else set_mempool mp' (net_core n'), Ok tt)).
  { rewrite (proj2 (core_admission ck' b rx (net_core n') Hl Hc) Hk'), Hp'. by destruct is_new. }
  rewrite Hpush. cbn [is_ok andb].
  set (s' := if is_new then _ else _).
  assert (Hs : mempool s' = mp' ∧ engine s' = engine (net_core n') ∧
     network s' = if is_new then (λ sent, sent ++ [NewReaction b 8]) <$> network (net_core n') else network (net_core n'))
    by (unfold s'; by destruct is_new).
  destruct (has_gossip _); [|exact Hs].
  destruct (decide (fresh (NewReaction b 8) (Gossip.set_core s' (close_session peer_ip n')))).
  - by rewrite spread_fresh.
  - by rewrite spread_stale.
Qed.
End two_nodes.
