(* ===== verification/Crypto.v ===== *)
(** Keys and signatures: primus-core/src/crypto.rs and primus-sdk/src/crypto/mod.rs.

    Both derive an ML-DSA-87 key pair from a 32-byte seed through a counter-mode
    generator over SHA3-256; they differ in the byte order of the counter.  The scheme
    itself (crate ml_dsa) and bincode's encoding of the key file are parameters. *)
From S2P Require Import Prelude Types Pvm.
Open Scope Z_scope.

Definition SK_BYTES : Z := 4896.

(** ML-DSA-87 (FIPS 204): key generation draws 32 bytes from its generator and is a
    function of them; a signature made with the signing key of a pair verifies under its
    verifying key.  [mldsa_verify] takes a key and a signature of the right lengths and
    fails on a signature that does not decode. *)
Class MlDsa87 := {
  key_gen_internal : bytes → bytes * bytes;
  mldsa_sign : bytes → bytes → bytes;
  mldsa_verify : bytes → bytes → bytes → bool;
  len_verifying_key xi : len (key_gen_internal xi).1 = PK_BYTES;
  len_signing_key xi : len (key_gen_internal xi).2 = SK_BYTES;
  len_mldsa_sign sk m : len (mldsa_sign sk m) = SIG_BYTES;
  mldsa_verify_sign xi m :
    mldsa_verify (key_gen_internal xi).1 m (mldsa_sign (key_gen_internal xi).2 m) = true;
}.

(** ** The generators *)
Record SeededRng := MkRng { rng_seed : bytes; rng_counter : Z }.
Definition rng_new (seed : bytes) : SeededRng := MkRng seed 0.

(** `dest.chunks_mut(32)`: one hash per chunk of at most 32 bytes.  [counter_bytes] is
    [to_be 8] in the core and [to_le 8] in the SDK; the fuel is the length of [dest]. *)
Fixpoint fill_chunks `{Hashes} (counter_bytes : Z → bytes) (fuel : nat) (r : SeededRng) (dest : nat)
    : bytes * SeededRng :=
  match fuel, dest with
  | S fuel, S _ =>
      let result := sha3_256 (rng_seed r ++ counter_bytes (rng_counter r)) in
      let n := Nat.min 32 dest in
      let (rest, r) := fill_chunks counter_bytes fuel
                         (MkRng (rng_seed r) (rng_counter r + 1)) (dest - n) in
      (take n result ++ rest, r)
  | _, _ => ([], r)
  end.
(** [DeterministicQuantumRng::fill_bytes] and [InternalSeededRng::fill]. *)
Definition fill_bytes `{Hashes} (r : SeededRng) (dest : nat) : bytes * SeededRng :=
  fill_chunks (to_be 8) dest r dest.
Definition fill `{Hashes} (r : SeededRng) (dest : nat) : bytes * SeededRng :=
  fill_chunks (to_le 8) dest r dest.
Definition next_u64 `{Hashes} (r : SeededRng) : Z * SeededRng :=
  let (b, r) := fill r 8 in (of_le b, r).
Definition next_u32 `{Hashes} (r : SeededRng) : Z * SeededRng :=
  let (b, r) := fill r 4 in (of_le b, r).
Definition try_fill_bytes `{Hashes} (r : SeededRng) (dest : nat) : result (bytes * SeededRng) Empty_set := Ok (fill r dest).
Definition core_next_u64 `{Hashes} (r : SeededRng) : Z * SeededRng :=
  let (b, r) := fill_bytes r 8 in (of_le b, r).
Definition core_next_u32 `{Hashes} (r : SeededRng) : Z * SeededRng :=
  let (b, r) := fill_bytes r 4 in (of_le b, r).
Definition core_try_fill_bytes `{Hashes} (r : SeededRng) (dest : nat) : result (bytes * SeededRng) Empty_set :=
  Ok (fill_bytes r dest).
(** The thread with a large stack runs the function it is given. *)
Definition ensure_high_stack {R} (f : unit → R) : R := f tt.

(** ** primus-core: Crypto *)
Record ArchitectKeys := MkKeys { ak_pk : bytes; ak_sk : bytes }.

(** bincode's encoding of the pair of the key file. *)
Class KeyFileCodec := {
  ser_keys : bytes * bytes → bytes;
  de_keys : bytes → option (bytes * bytes);
  de_ser_keys k : de_keys (ser_keys k) = Some k;
}.

Inductive KeyError := KeyFileMissing | KeyFileCorrupt | BadVerifyingKey (n : Z) | BadSigningKey (n : Z).

Section crypto.
Context {HA : Hashes} {MD : MlDsa87}.

Definition generate_architect_key_from_seed (phrase : bytes) : bytes * bytes :=
  let seed := sha3_256 phrase in
  key_gen_internal (fill_bytes (rng_new seed) 32).1.

(** The file that is written, and the keys returned. *)
Definition generate_and_save_key `{KeyFileCodec} (secret_phrase : bytes) : bytes * ArchitectKeys :=
  let seed := sha3_256 secret_phrase in
  let (pk, sk) := key_gen_internal (fill_bytes (rng_new seed) 32).1 in
  (ser_keys (pk, sk), MkKeys pk sk).

Definition load_master_key `{KeyFileCodec} (file : option bytes) : result ArchitectKeys KeyError :=
  let? raw := ok_or file KeyFileMissing in
  let? (pk, sk) := ok_or (de_keys raw) KeyFileCorrupt in
  guard? len pk =? PK_BYTES else BadVerifyingKey (len pk);
  guard? len sk =? SK_BYTES else BadSigningKey (len sk);
  Ok (MkKeys pk sk).

Definition sign (sk_bytes message : bytes) : result bytes KeyError :=
  guard? len sk_bytes =? SK_BYTES else BadSigningKey (len sk_bytes);
  Ok (mldsa_sign sk_bytes message).

(** [Crypto::verify], and [crypto::verify] of the SDK: no error, only [false]. *)
Definition verify (pk_bytes message sig_bytes : bytes) : bool :=
  (len pk_bytes =? PK_BYTES) && (len sig_bytes =? SIG_BYTES) && mldsa_verify pk_bytes message sig_bytes.

(** primus-core/src/crypto_shim.rs, the verifier that the node gives the PVM: the check runs
    on a thread of its own, which sends back what it finds. *)
Definition core_crypto_verify (pubkey message signature : bytes) : bool :=
  let received := Some (verify pubkey message signature) in
  default false received.
#[export] Instance node_verifier : CryptoVerifier := {| crypto_verify := core_crypto_verify |}.

(** ** primus-sdk: crypto *)
Definition derive_seed (master_seed : bytes) (index : Z) : bytes :=
  sha3_256 (master_seed ++ to_le 4 index ++ SEED_DOMAIN_TAG).

Record KeyPairBytes := MkKeyPair { kp_pk : bytes; kp_sk : bytes; kp_seed : bytes }.
Definition keypair_from_seed (seed : bytes) : KeyPairBytes :=
  let (pk, sk) := key_gen_internal (fill (rng_new seed) 32).1 in MkKeyPair pk sk seed.
Definition sign_with_seed (seed payload : bytes) : bytes :=
  mldsa_sign (key_gen_internal (fill (rng_new seed) 32).1).2 payload.

(** ** Facts *)
(** The blocks of a generator's stream, from its counter on. *)
Fixpoint blocks (counter_bytes : Z → bytes) (r : SeededRng) (n : nat) : list bytes :=
  match n with
  | O => []
  | S n => sha3_256 (rng_seed r ++ counter_bytes (rng_counter r))
             :: blocks counter_bytes (MkRng (rng_seed r) (rng_counter r + 1)) n
  end.

Lemma blocks_add counter_bytes r n m :
  blocks counter_bytes r (n + m)
  = blocks counter_bytes r n ++ blocks counter_bytes (MkRng (rng_seed r) (rng_counter r + Z.of_nat n)) m.
Proof.
  revert r; induction n as [|n IH]; intros r; cbn [blocks Nat.add app].
  - by destruct r; rewrite Z.add_0_r.
  - rewrite IH. cbn [rng_seed rng_counter]. do 4 f_equal. lia.
Qed.

Lemma fill_chunks_blocks counter_bytes fuel r n :
  (n ≤ fuel)%nat →
  fill_chunks counter_bytes fuel r n
  = (take n (concat (blocks counter_bytes r n)), MkRng (rng_seed r) (rng_counter r + (Z.of_nat n + 31) / 32)).
Proof.
  revert r n; induction fuel as [|fuel IH]; intros r n Hn.
  { assert (n = 0%nat) as -> by lia. simpl. by rewrite Z.add_0_r; destruct r. }
  destruct n as [|n]; [simpl; by rewrite Z.add_0_r; destruct r|]. cbn [fill_chunks].
  set (b := sha3_256 _). assert (Hb : length b = 32%nat) by apply length_sha3_256.
  rewrite IH by lia. cbn [rng_seed rng_counter]. f_equal.
  - cbn [blocks concat]. fold b. set (r1 := MkRng _ _).
    destruct (Nat.le_gt_cases (S n) 32) as [Hle|Hgt].
    + rewrite Nat.min_r, Nat.sub_diag by lia. rewrite take_app_le by lia. simpl. by rewrite app_nil_r.
    + rewrite Nat.min_l by lia. rewrite take_ge by lia.
      rewrite take_app_ge by lia. rewrite Hb. f_equal.
      pose proof (blocks_add counter_bytes r1 (S n - 32) 31) as Hadd.
      replace (S n - 32 + 31)%nat with n in Hadd by lia. rewrite Hadd, concat_app.
      rewrite take_app_le; [done|].
      assert (Hlen : ∀ k r', (k ≤ length (concat (blocks counter_bytes r' k)))%nat).
      { clear. induction k as [|k IH]; intros r'; cbn [blocks concat]; [simpl; lia|].
        rewrite length_app, length_sha3_256. specialize (IH (MkRng (rng_seed r') (rng_counter r' + 1))). lia. }
      apply Hlen.
  - f_equal. destruct (Nat.le_gt_cases (S n) 32) as [Hle|Hgt].
    + rewrite Nat.min_r, Nat.sub_diag by lia.
      replace ((Z.of_nat (S n) + 31) / 32) with 1 by (apply Z.div_unique with (Z.of_nat n); lia).
      change ((Z.of_nat 0 + 31) / 32) with 0. lia.
    + rewrite Nat.min_l by lia.
      replace (Z.of_nat (S n) + 31) with (Z.of_nat (S n - 32) + 31 + 1 * 32) by lia.
      rewrite Z.div_add by lia. lia.
Qed.

Lemma first_block counter_bytes seed :
  (fill_chunks counter_bytes 32 (rng_new seed) 32).1 = sha3_256 (seed ++ counter_bytes 0).
Proof.
  rewrite fill_chunks_blocks by done. cbn [fst]. replace 32%nat with (1 + 31)%nat at 2 by done.
  rewrite blocks_add, concat_app, take_app_length'; cbn [blocks concat rng_new rng_seed rng_counter];
    rewrite app_nil_r; [done|symmetry; apply length_sha3_256].
Qed.

(** The two generators give the same key pair for a seed, though they encode their
    counters differently: key generation draws one block, of counter zero. *)
Theorem core_and_sdk_keys_agree phrase :
  let kp := keypair_from_seed (sha3_256 phrase) in
  generate_architect_key_from_seed phrase = (kp_pk kp, kp_sk kp).
Proof.
  cbv zeta. unfold generate_architect_key_from_seed, keypair_from_seed, fill, fill_bytes.
  rewrite !first_block. change (to_be 8 0) with (to_le 8 0). by destruct (key_gen_internal _).
Qed.

Lemma keypair_signs seed m : verify (kp_pk (keypair_from_seed seed)) m (sign_with_seed seed m) = true.
Proof.
  unfold keypair_from_seed, sign_with_seed, verify. set (xi := (fill (rng_new seed) 32).1).
  pose proof (len_verifying_key xi) as Hp. pose proof (mldsa_verify_sign xi m) as Hv.
  destruct (key_gen_internal xi) as [pk sk]. cbn [kp_pk fst snd] in *.
  by rewrite Hp, len_mldsa_sign, Hv.
Qed.

Lemma len_kp_pk seed : len (kp_pk (keypair_from_seed seed)) = PK_BYTES.
Proof.
  unfold keypair_from_seed. pose proof (len_verifying_key (fill (rng_new seed) 32).1) as Hp.
  by destruct (key_gen_internal _).
Qed.

(** A key file just written loads, with the keys that were returned; what loads is a pair
    of keys of the right lengths, and its signing key signs. *)
Theorem key_file_roundtrip `{KeyFileCodec} phrase m :
  let (file, keys) := generate_and_save_key phrase in
  load_master_key (Some file) = Ok keys ∧
  ∃ sig, sign (ak_sk keys) m = Ok sig ∧ verify (ak_pk keys) m sig = true.
Proof.
  unfold generate_and_save_key. set (xi := (fill_bytes _ 32).1).
  pose proof (len_verifying_key xi) as Hp. pose proof (len_signing_key xi) as Hs.
  pose proof (mldsa_verify_sign xi m) as Hv. destruct (key_gen_internal xi) as [pk sk]. cbn [fst snd] in *.
  unfold load_master_key, sign, verify. cbn [ok_or rbind ak_sk ak_pk]. rewrite de_ser_keys. cbn [ok_or rbind].
  rewrite Hp, Hs, !Z.eqb_refl. split; [done|]. eexists. split; [done|]. by rewrite len_mldsa_sign, Hv.
Qed.
End crypto.
