(* ===== verification/Handshake.v ===== *)
(** The handshake of a session (primus-net-opt noise.rs, transport.rs): the three messages
    of Noise XX with the node records and their binding to the ephemeral keys.

    snow is the class [NoiseHandshake]: a run of the pattern between two parties delivers
    the payloads and ends in matching transports.  The frames are read by tokio_util's
    framed reader, which belongs to one message: what it has read beyond it is dropped. *)
From S2P Require Import Prelude Floats Types Crypto Noise.
Open Scope Z_scope.

(** The authenticator of a message. *)
Definition TAG : Z := 16.
Class NoiseHandshake := {
  HsState : Type;
  Transport : Type;
  build_initiator : bytes → bytes → HsState;
  build_responder : bytes → bytes → HsState;
  hs_write : HsState → bytes → option (HsState * bytes);
  hs_read : HsState → bytes → option (HsState * bytes);
  into_transport : HsState → option Transport;
  (** Whether it is our turn to write; [None] when the handshake is finished. *)
  hs_turn : HsState → option bool;
  transport_write : Transport → Z → bytes → option bytes;
  transport_read : Transport → Z → bytes → option bytes;
  (** e; then e, ee, s, es; then s, se: 32, 96 and 64 bytes besides the payloads. *)
  noise_xx static_i eph_i static_r eph_r p2 p3 :
    len p2 + 96 ≤ MAX_FRAME_SIZE → len p3 + 64 ≤ MAX_FRAME_SIZE →
    ∃ i1 m1 r1 r2 m2 i2 i3 m3 r3 ti tr,
      hs_write (build_initiator static_i eph_i) [] = Some (i1, m1) ∧ len m1 = 32 ∧
      hs_read (build_responder static_r eph_r) m1 = Some (r1, []) ∧
      hs_write r1 p2 = Some (r2, m2) ∧ len m2 = 96 + len p2 ∧ hs_read i1 m2 = Some (i2, p2) ∧
      hs_write i2 p3 = Some (i3, m3) ∧ len m3 = 64 + len p3 ∧ hs_read r2 m3 = Some (r3, p3) ∧
      into_transport i3 = Some ti ∧ into_transport r3 = Some tr ∧
      (∀ n p, len p + TAG ≤ MAX_FRAME_SIZE → ∃ c, transport_write ti n p = Some c ∧ transport_read tr n c = Some p) ∧
      (∀ n p, len p + TAG ≤ MAX_FRAME_SIZE → ∃ c, transport_write tr n p = Some c ∧ transport_read ti n c = Some p) ∧
      hs_turn (build_initiator static_i eph_i) = Some true ∧ hs_turn i1 = Some false ∧ hs_turn i2 = Some true ∧
      hs_turn i3 = None;
}.

(** bincode of the payload. *)
Record NoiseHandshakePayload := MkPayload { hp_nr : PrimusNR; ephemeral_sig : bytes }.
Class HandshakeCodec := {
  ser_payload : NoiseHandshakePayload → bytes;
  de_payload : bytes → option NoiseHandshakePayload;
  de_ser_payload p : de_payload (ser_payload p) = Some p;
}.

Inductive HandshakeError :=
| SigningKeyLength (n : Z)
| SnowError
| PeerClosed
| PeerFrameError
| PayloadMalformed
| RecordInvalid
| PeerKeyLength
| PeerSignatureLength
| BindingFailed.

(** ** Frames *)
Definition hs_frame (m : bytes) : bytes := to_be 2 (len m) ++ m.
Definition whole_frame (buf : bytes) : option bytes :=
  if (length buf <? 2)%nat then None
  else
    let n := Z.to_nat (of_be (take 2 buf)) in
    if (length buf <? 2 + n)%nat then None else Some (take n (drop 2 buf)).
Definition at_eof (buf : bytes) : result bytes HandshakeError :=
  Err match buf with [] => PeerClosed | _ => PeerFrameError end.
(** The first frame; an empty read is the end of the stream; [buf] is what the reader has. *)
Fixpoint framed_next (buf : bytes) (inner : Inner) : Inner * result bytes HandshakeError :=
  match whole_frame buf with
  | Some frame => (inner, Ok frame)
  | None =>
      match inner with
      | [] => ([], at_eof buf)
      | NotReady :: inner => framed_next buf inner
      | Data [] :: inner => (inner, at_eof buf)
      | Data b :: inner => framed_next (buf ++ b) inner
      end
  end.

Record Party := MkParty {
  static_key : bytes;
  ephemeral : bytes;
  local_nr : PrimusNR;
  ml_dsa_key : bytes;
}.

Section handshake.
Context {NH : NoiseHandshake} {HC : HandshakeCodec} {MD : MlDsa87}.
Implicit Types (p : Party) (h : HsState) (inner : Inner).

Definition check_key p : result unit HandshakeError :=
  if len (ml_dsa_key p) =? SK_BYTES then Ok tt else Err (SigningKeyLength (len (ml_dsa_key p))).
(** The first 32 bytes of the buffer, [before] and after a message is put into it. *)
Definition ephemeral_of (before m : bytes) : bytes := take 32 (m ++ drop (length m) before).
Definition own_payload p (peer_e : bytes) : bytes :=
  ser_payload (MkPayload (local_nr p) (mldsa_sign (ml_dsa_key p) peer_e)).

(** The peer's record signs itself, and the peer has signed our ephemeral key. *)
Definition check_payload (own_e payload : bytes) : result unit HandshakeError :=
  let? pl := ok_or (de_payload payload) PayloadMalformed in
  guard? nr_verify mldsa_verify (hp_nr pl) else RecordInvalid;
  guard? len (nr_public_key (hp_nr pl)) =? PK_BYTES else PeerKeyLength;
  guard? len (ephemeral_sig pl) =? SIG_BYTES else PeerSignatureLength;
  guard? mldsa_verify (nr_public_key (hp_nr pl)) own_e (ephemeral_sig pl) else BindingFailed;
  Ok tt.

(** *** The initiator: message 1, then message 3 for message 2 *)
Definition initiator_start p : result (HsState * bytes * bytes) HandshakeError :=
  let? _ := check_key p in
  let? (h, m1) := ok_or (hs_write (build_initiator (static_key p) (ephemeral p)) []) SnowError in
  Ok (h, ephemeral_of (replicate 32 0) m1, hs_frame m1).
Definition initiator_finish p h (initiator_e : bytes) inner : Inner * result (Transport * bytes) HandshakeError :=
  let '(inner, r) := framed_next [] inner in
  (inner,
   let? m2 := r in
   let? (h, payload) := ok_or (hs_read h m2) SnowError in
   let? _ := check_payload initiator_e payload in
   let? (h, m3) := ok_or (hs_write h (own_payload p (ephemeral_of initiator_e m2))) SnowError in
   let? t := ok_or (into_transport h) SnowError in
   Ok (t, hs_frame m3)).

(** *** The responder: message 2 for message 1, then message 3 *)
Definition responder_start p inner : Inner * result (HsState * bytes * bytes) HandshakeError :=
  match check_key p with
  | Err e => (inner, Err e)
  | Ok _ =>
      let '(inner, r) := framed_next [] inner in
      (inner,
       let? m1 := r in
       let? (h, payload) := ok_or (hs_read (build_responder (static_key p) (ephemeral p)) m1) SnowError in
       guard? bool_decide (payload = []) else SnowError;
       let initiator_e := ephemeral_of (replicate 32 0) m1 in
       let? (h, m2) := ok_or (hs_write h (own_payload p initiator_e)) SnowError in
       Ok (h, ephemeral_of initiator_e m2, hs_frame m2))
  end.
Definition responder_finish h (responder_e : bytes) inner : Inner * result Transport HandshakeError :=
  let '(inner, r) := framed_next [] inner in
  (inner,
   let? m3 := r in
   let? (h, payload) := ok_or (hs_read h m3) SnowError in
   let? _ := check_payload responder_e payload in
   ok_or (into_transport h) SnowError).

(** [handle_inbound]: the session of an accepted connection; browsers pad their frames. *)
Definition inbound_stream (is_wasm : bool) (r : result Transport HandshakeError)
    : result (Transport * NoiseStream) HandshakeError :=
  let? t := r in Ok (t, noise_new is_wasm).
End handshake.

(** ** Facts *)
Lemma whole_frame_frame m : len m ≤ MAX_FRAME_SIZE → whole_frame (hs_frame m) = Some m.
Proof.
  intros Hm. unfold whole_frame, hs_frame, MAX_FRAME_SIZE, len in *.
  rewrite (proj2 (Nat.ltb_ge _ _)) by (rewrite length_app, length_to_be; lia).
  rewrite take_app_length', drop_app_length' by (by rewrite length_to_be).
  assert (Hn : of_be (to_be 2 (Z.of_nat (length m))) = Z.of_nat (length m)).
  { unfold of_be, to_be. rewrite reverse_involutive, of_le_to_le. apply Z.mod_small. simpl. lia. }
  rewrite Hn, Nat2Z.id, (proj2 (Nat.ltb_ge _ _)) by (rewrite length_app, length_to_be; lia). by rewrite take_ge by lia.
Qed.

(** A frame is not whole before its last byte. *)
Lemma whole_frame_part m a b :
  len m ≤ MAX_FRAME_SIZE → hs_frame m = a ++ b → b ≠ [] → whole_frame a = None.
Proof.
  intros Hm Hab Hb. pose proof (whole_frame_frame m Hm) as Hw. rewrite Hab in Hw. unfold whole_frame in *.
  destruct (Nat.ltb_spec (length a) 2) as [|Ha]; [done|].
  destruct (_ <? 2)%nat eqn:E in Hw; [done|]. rewrite take_app_le in Hw by lia.
  set (n := Z.to_nat (of_be (take 2 a))) in *. destruct (_ <? 2 + n)%nat eqn:E2 in Hw; [done|].
  injection Hw as Hw. apply (f_equal length) in Hab, Hw. unfold hs_frame in Hab.
  rewrite !length_app, length_to_be in Hab. apply Nat.ltb_ge in E2.
  rewrite length_take, length_drop, length_app in Hw. rewrite length_app in E2.
  destruct b; [done|]. cbn [length] in *. rewrite (proj2 (Nat.ltb_lt _ _)) by lia. done.
Qed.

Fixpoint arrived (inner : Inner) : bytes :=
  match inner with [] => [] | NotReady :: inner => arrived inner | Data b :: inner => b ++ arrived inner end.
Definition nonempty_reads (inner : Inner) : Prop := Forall (λ e, e ≠ Data []) inner.
(** The frame [f] arrives in pieces, with pauses; [extra] is what the last read holds of
    what the peer sent after it. *)
Definition arrives (f extra : bytes) (inner : Inner) : Prop :=
  ∃ pieces last_piece, inner = pieces ++ [Data (last_piece ++ extra)] ∧
    arrived (pieces ++ [Data last_piece]) = f ∧ nonempty_reads (pieces ++ [Data last_piece]).

Lemma framed_next_data buf b inner :
  whole_frame buf = None → b ≠ [] → framed_next buf (Data b :: inner) = framed_next (buf ++ b) inner.
Proof. intros Hw Hb. destruct b; [done|]. cbn [framed_next]. by rewrite Hw. Qed.

Lemma arrived_nil inner : nonempty_reads inner → last inner ≠ Some NotReady → arrived inner = [] → inner = [].
Proof.
  intros Hn. induction Hn as [|e inner He Hn IH]; intros Hl Ha; [done|]. destruct e as [b|].
  - cbn in Ha. apply app_eq_nil in Ha as [-> _]. done.
  - cbn in Ha. rewrite IH in Hl; [done| |done]. intros Hl'. apply Hl. rewrite last_cons, Hl'. done.
Qed.

(** The reader gets the message, and loses what came with its last piece. *)
Lemma framed_next_arrives m extra inner rest :
  len m ≤ MAX_FRAME_SIZE → arrives (hs_frame m) extra inner → framed_next [] (inner ++ rest) = (rest, Ok m).
Proof.
  intros Hm (pieces & last_piece & -> & Ha & Hn). rewrite <-app_assoc.
  assert (Hgo : ∀ pieces buf, Forall (λ e, e ≠ Data []) (pieces ++ [Data last_piece]) →
            buf ++ arrived (pieces ++ [Data last_piece]) = hs_frame m →
            framed_next buf (pieces ++ [Data (last_piece ++ extra)] ++ rest) = (rest, Ok m)).
  { clear Ha Hn pieces. induction pieces as [|e pieces IH]; intros buf Hn Ha.
    - cbn [app arrived] in *. rewrite app_nil_r in Ha. inversion Hn as [|?? Hne _]; subst.
      assert (Hlast : last_piece ≠ []) by (by intros ->).
      rewrite framed_next_data; [|by apply (whole_frame_part m buf last_piece)|destruct last_piece; done].
      assert (Hw : whole_frame (buf ++ last_piece ++ extra) = Some m).
      { rewrite app_assoc, Ha. clear -Hm. pose proof (whole_frame_frame m Hm) as Hw. unfold whole_frame in *.
        destruct (_ <? 2)%nat eqn:E in Hw; [done|]. apply Nat.ltb_ge in E.
        rewrite (proj2 (Nat.ltb_ge _ _)) by (rewrite length_app; lia). rewrite take_app_le, drop_app_le by done.
        set (n := Z.to_nat _) in *. destruct (_ <? 2 + n)%nat eqn:E2 in Hw; [done|]. apply Nat.ltb_ge in E2.
        rewrite (proj2 (Nat.ltb_ge _ _)) by (rewrite length_app; lia).
        rewrite take_app_le by (rewrite length_drop; lia). done. }
      destruct rest; cbn [framed_next]; by rewrite Hw.
    - inversion Hn as [|?? He Hn']; subst. cbn [app].
      assert (Hne : arrived (e :: pieces ++ [Data last_piece]) ≠ []).
      { intros H0. apply (arrived_nil (e :: pieces ++ [Data last_piece])) in H0; [done|done|].
        change (e :: pieces ++ [Data last_piece]) with ((e :: pieces) ++ [Data last_piece]). by rewrite last_snoc. }
      pose proof (whole_frame_part m buf _ Hm (eq_sym Ha) Hne) as Hw. destruct e as [b|].
      + rewrite framed_next_data by (done || by intros ->). apply IH; [done|]. by rewrite <-app_assoc.
      + cbn [framed_next]. rewrite Hw. by apply IH. }
  apply Hgo; done.
Qed.

Lemma arrives_at_once m : arrives (hs_frame m) [] [Data (hs_frame m)].
Proof.
  pose proof (app_nil_r (hs_frame m)) as Hf. exists [], (hs_frame m). unfold app at 1. rewrite Hf.
  split; [reflexivity|]. split; [exact Hf|].
  constructor; [|constructor]. intros [=].
Qed.

Section facts.
Context {NH : NoiseHandshake} {HC : HandshakeCodec} {MD : MlDsa87}.
Implicit Types (p : Party) (h : HsState) (inner : Inner).

(** What a transport writes, the other one reads. *)
Definition delivers (t t' : Transport) : Prop :=
  ∀ n b, len b + TAG ≤ MAX_FRAME_SIZE → ∃ c, transport_write t n b = Some c ∧ transport_read t' n c = Some b.

(** A node with its own key: its record is signed under it. *)
Definition honest p : Prop :=
  ∃ xi, ml_dsa_key p = (key_gen_internal xi).2 ∧ nr_public_key (local_nr p) = (key_gen_internal xi).1 ∧
    nr_verify mldsa_verify (local_nr p) = true.
Definition payload_fits p : Prop := ∀ e, len (own_payload p e) + 96 ≤ MAX_FRAME_SIZE.

Lemma honest_key p : honest p → check_key p = Ok tt.
Proof. intros (xi & Hk & _). unfold check_key. by rewrite Hk, len_signing_key, Z.eqb_refl. Qed.
Lemma honest_payload p e : honest p → check_payload e (own_payload p e) = Ok tt.
Proof.
  intros (xi & Hk & Hpk & Hnr). unfold check_payload, own_payload. rewrite de_ser_payload. cbn [ok_or rbind hp_nr ephemeral_sig].
  by rewrite Hnr, Hpk, len_verifying_key, Hk, len_mldsa_sign, !Z.eqb_refl, mldsa_verify_sign.
Qed.

(** Two honest nodes complete the handshake, however their messages are cut and delayed,
    and end with transports that read what the other writes.  What a peer sends after a
    message and that arrives in the same read is lost, after the last message too. *)
Theorem handshake_completes pi pr :
  honest pi → honest pr → payload_fits pi → payload_fits pr →
  ∃ hi ei m1 hr er m2 ti m3 tr, let f1 := hs_frame m1 in let f2 := hs_frame m2 in let f3 := hs_frame m3 in
    initiator_start pi = Ok (hi, ei, f1) ∧
    (∀ x a rest, arrives f1 x a → responder_start pr (a ++ rest) = (rest, Ok (hr, er, f2))) ∧
    (∀ x a rest, arrives f2 x a → initiator_finish pi hi ei (a ++ rest) = (rest, Ok (ti, f3))) ∧
    (∀ x a rest, arrives f3 x a → responder_finish hr er (a ++ rest) = (rest, Ok tr)) ∧
    delivers ti tr ∧ delivers tr ti.
Proof.
  intros Hi Hr Fi Fr. set (xx := noise_xx (static_key pi) (ephemeral pi) (static_key pr) (ephemeral pr)).
  destruct (xx [] []) as (i1 & m1 & _ & _ & _ & _ & _ & _ & _ & _ & _ & W1 & _); [done..|].
  set (e1 := ephemeral_of (replicate 32 0) m1).
  set (p2 := own_payload pr e1). pose proof (Fr e1) as F2. fold p2 in F2.
  destruct (xx p2 []) as (i1' & m1' & r1 & r2 & m2 & _ & _ & _ & _ & _ & _ & W1' & _ & R1 & W2 & _); [done..|].
  rewrite W1 in W1'. injection W1' as <- <-.
  set (e2 := ephemeral_of e1 m2).
  set (p3 := own_payload pi e2). pose proof (Fi e2) as F3. fold p3 in F3.
  destruct (xx p2 p3) as (i1' & m1' & r1' & r2' & m2' & i2 & i3 & m3 & r3 & ti & tr & W1' & L1 & R1' & W2' & L2 & R2 &
    W3 & L3 & R3 & Ti & Tr & T1 & T2 & _); [done|lia|].
  rewrite W1 in W1'. injection W1' as <- <-. rewrite R1 in R1'. injection R1' as <-.
  rewrite W2 in W2'. injection W2' as <- <-.
  unfold initiator_start, responder_start, initiator_finish, responder_finish.
  rewrite !honest_key by done. cbn [rbind]. rewrite W1. cbn [ok_or rbind]. eexists _, _, _, r2, _, m2, ti, m3, tr. cbv zeta.
  split; [reflexivity|]. split_and!; [| | |done|done].
  - intros x a rest A. rewrite (framed_next_arrives m1 x) by (done || (rewrite L1; done)). cbn [rbind].
    rewrite R1. cbn [ok_or rbind]. rewrite bool_decide_true by done. cbv zeta. fold e1 p2. by rewrite W2.
  - intros x a rest A. rewrite (framed_next_arrives m2 x) by (done || lia). cbn [rbind].
    rewrite R2. cbn [ok_or rbind]. unfold p2 at 1. rewrite honest_payload by done. cbn [rbind]. fold e1 e2 p3.
    rewrite W3. cbn [ok_or rbind]. by rewrite Ti.
  - intros x a rest A. rewrite (framed_next_arrives m3 x) by (done || lia). cbn [rbind].
    rewrite R3. cbn [ok_or rbind]. unfold p3 at 1. rewrite honest_payload by done. cbn [rbind]. by rewrite Tr.
Qed.

(** What a side has read when it takes the peer for the owner of a record. *)
Definition authenticated (own_e : bytes) h inner inner' : Prop :=
  ∃ m h' payload pl, framed_next [] inner = (inner', Ok m) ∧ hs_read h m = Some (h', payload) ∧
    de_payload payload = Some pl ∧ nr_verify mldsa_verify (hp_nr pl) = true ∧
    verify (nr_public_key (hp_nr pl)) own_e (ephemeral_sig pl) = true.

Lemma check_payload_Ok own_e payload :
  check_payload own_e payload = Ok tt →
  ∃ pl, de_payload payload = Some pl ∧ nr_verify mldsa_verify (hp_nr pl) = true ∧
    verify (nr_public_key (hp_nr pl)) own_e (ephemeral_sig pl) = true.
Proof.
  unfold check_payload. destruct (de_payload payload) as [pl|] eqn:E; [|done]. cbn [ok_or rbind].
  destruct (nr_verify _ _) eqn:Hn; [|done]. destruct (_ =? PK_BYTES) eqn:Hp; [|done].
  destruct (_ =? SIG_BYTES) eqn:Hs; [|done]. destruct (mldsa_verify _ _ _) eqn:Hv; [|done]. intros _.
  exists pl. unfold verify. by rewrite Hp, Hs, Hv.
Qed.

(** Nobody is taken for another: a side that completes the handshake has read, in the
    peer's message, a record that signs itself and a signature, under the record's key, of
    the ephemeral key that this side has made for this run. *)
Theorem handshake_authenticates p h own_e inner inner' :
  (∀ t out, initiator_finish p h own_e inner = (inner', Ok (t, out)) → authenticated own_e h inner inner') ∧
  (∀ t, responder_finish h own_e inner = (inner', Ok t) → authenticated own_e h inner inner').
Proof.
  unfold initiator_finish, responder_finish, authenticated.
  destruct (framed_next [] inner) as [rest [m|e]]; [|by split]. cbn [rbind].
  destruct (hs_read h m) as [[h' payload]|] eqn:Hr; [|by split]. cbn [ok_or rbind].
  destruct (check_payload own_e payload) as [[]|e] eqn:Hc; [|by split]. cbn [rbind].
  destruct (check_payload_Ok _ _ Hc) as (pl & Hd & Hn & Hv).
  split; [intros t out H|intros t H]; injection H as -> _; by exists m, h', payload, pl.
Qed.
End facts.
