(* ===== verification/Sdk.v ===== *)
(** primus-sdk: the wallet (wallet/mod.rs), the transaction builder (transaction/mod.rs)
    and the light client's proof check (proof.rs).

    Parameters: the crates bip39, hex, bincode (the wallet file, the atoms of a proof and
    the two mirror structs hashed by proof.rs) and rkyv (the wire format). *)
From S2P Require Import Prelude Floats Types Shield Pvm Crypto Mpt.
Open Scope Z_scope.

(** ** Crates *)
(** bip39: a phrase, its 64-byte seed (empty passphrase), a phrase from entropy. *)
Class Bip39 := {
  phrase_valid : bytes → bool;
  to_seed : bytes → bytes;
  phrase_of_entropy : bytes → bytes;
  phrase_of_entropy_valid e : length e = 16%nat ∨ length e = 32%nat → phrase_valid (phrase_of_entropy e) = true;
}.

Class Hex := {
  hex_encode : bytes → bytes;
  hex_decode : bytes → option bytes;
  hex_decode_encode b : hex_decode (hex_encode b) = Some b;
}.

Record WalletFile := MkWalletFile { wf_version : Z; wf_phrase : bytes; wf_index : Z }.
Class WalletFileCodec := {
  ser_wallet : WalletFile → bytes;
  de_wallet : bytes → option WalletFile;
  de_ser_wallet w : de_wallet (ser_wallet w) = Some w;
}.

Inductive SdkError :=
| InvalidMnemonic
| UnsupportedWordCount (n : Z)
| FileMissing
| WalletFileCorrupt
| UnsupportedVersion (v : Z)
| InvalidHex
| AddressLength (n : Z)
| RecipientRequired
| ZeroAmount
| FeeTooLow (fee : Z)
| CostOverflow
| InsufficientSenderMass (has needs : Z)
| ProofTooOld (proof_height current_height : Z)
| UntrustedRoot
| ProofInvalid
| AtomCorrupt.

(** ** Wallet *)
Record Wallet := MkWallet {
  mnemonic_phrase : bytes;
  derivation_index : Z;
  key_seed : bytes;
  address : bytes;
  public_key_bytes : bytes;
}.

Section wallet.
Context {HA : Hashes} {MD : MlDsa87} {BI : Bip39} {HX : Hex} {WF : WalletFileCodec}.
Implicit Types w : Wallet.

Definition from_mnemonic (phrase : bytes) (index : Z) : result Wallet SdkError :=
  guard? phrase_valid phrase else InvalidMnemonic;
  let child_seed := derive_seed (to_seed phrase) index in
  let kp := keypair_from_seed child_seed in
  Ok (MkWallet phrase index child_seed (hex_encode (kp_pk kp)) (kp_pk kp)).

(** [entropy n] is what the thread's generator gives for [n] bytes. *)
Definition generate (entropy : nat → bytes) (word_count index : Z) : result Wallet SdkError :=
  let? entropy_len :=
    if word_count =? 12 then Ok 16%nat else if word_count =? 24 then Ok 32%nat
    else Err (UnsupportedWordCount word_count) in
  from_mnemonic (phrase_of_entropy (entropy entropy_len)) index.

Definition save w : bytes := ser_wallet (MkWalletFile 1 (mnemonic_phrase w) (derivation_index w)).
Definition load (file : option bytes) : result Wallet SdkError :=
  let? raw := ok_or file FileMissing in
  let? wf := ok_or (de_wallet raw) WalletFileCorrupt in
  guard? wf_version wf =? 1 else UnsupportedVersion (wf_version wf);
  from_mnemonic (wf_phrase wf) (wf_index wf).

Definition get_public_key_bytes w : bytes := public_key_bytes w.
Definition get_short_address w : bytes := take 16 (address w).
Definition get_key_seed w : bytes := key_seed w.
Definition get_secret_key_bytes w : bytes := kp_sk (keypair_from_seed (key_seed w)).
Definition get_mnemonic w : bytes := mnemonic_phrase w.
Definition wallet_sign w (payload : bytes) : bytes := sign_with_seed (key_seed w) payload.
Definition wallet_verify w (payload signature : bytes) : bool :=
  verify (public_key_bytes w) payload signature.

Definition decode_address (hex_address : bytes) : result bytes SdkError :=
  let? b := ok_or (hex_decode hex_address) InvalidHex in
  guard? len b =? PK_BYTES else AddressLength (len b);
  Ok b.
End wallet.

(** ** Transactions *)
Inductive AtomElement := SHydrogen | SCarbon | SOxygen | SGold.
Inductive QuantumLogicSnapshot := SStable | SEntangled (partner : bytes) | SSuperposition (n : Z).
Record AtomSnapshot := MkSnapshot {
  s_public_key : bytes;
  s_element : AtomElement;
  s_neutron_count : Z;
  s_mass : Z;
  s_charge : f32;
  s_last_reaction_hash : bytes;
  s_last_active_index : Z;
  s_nonce : Z;
  s_quantum_state : QuantumLogicSnapshot;
}.
Inductive SdkPayload := SGeneric | STransfer (amount : Z) | SUnknown.

Definition snapshot_sender (pk : bytes) (m : Z) (last : bytes) (n : Z) (e : AtomElement) : AtomSnapshot :=
  let charge := match e with
                | SHydrogen => f32_lit 220 100
                | SCarbon => f32_lit 255 100
                | SOxygen => f32_lit 344 100
                | SGold => f32_lit 254 100
                end in
  MkSnapshot pk e 0 m charge last 0 n SStable.
Definition snapshot_new_receiver (pk : bytes) : AtomSnapshot :=
  MkSnapshot pk SHydrogen 0 0 (f32_lit 220 100) zero32 0 0 SStable.

Record Transaction := MkTransaction {
  tx_sender : AtomSnapshot;
  tx_receiver : AtomSnapshot;
  tx_reaction_hash : bytes;
  tx_energy : f32;
  tx_timestamp : Z;
  tx_signature : bytes;
  tx_payload : SdkPayload;
}.

(** The mappings of [Transaction::to_bytes]. *)
Definition map_element (e : AtomElement) : Element :=
  match e with SHydrogen => Hydrogen | SCarbon => Carbon | SOxygen => Oxygen | SGold => Gold end.
Definition map_quantum (q : QuantumLogicSnapshot) : QuantumState :=
  match q with SStable => Stable | SEntangled p => Entangled p | SSuperposition n => Superposition n end.
Definition make_atom (s : AtomSnapshot) : Atom :=
  MkAtom (s_public_key s) (map_element (s_element s)) (s_neutron_count s) (s_mass s) (s_charge s)
    (s_last_reaction_hash s) (s_last_active_index s) (s_nonce s) (map_quantum (s_quantum_state s)).
Definition map_payload (p : SdkPayload) : Payload :=
  match p with SGeneric => Generic | STransfer amount => Transfer amount | SUnknown => Generic end.
Definition to_signed_reaction (t : Transaction) : SignedReaction :=
  MkReaction (make_atom (tx_sender t)) (make_atom (tx_receiver t)) (tx_reaction_hash t) (tx_energy t)
    (tx_timestamp t) (tx_signature t) (map_payload (tx_payload t)).
Definition to_bytes `{Rkyv} (t : Transaction) : bytes := rkyv_to_bytes (to_signed_reaction t).
(** `AtomCoreExt::short_address` of the core. *)
Definition short_address `{Hashes} `{Hex} (a : Atom) : bytes := hex_encode (take 4 (sha3_256 (public_key a))).
Definition to_hex `{Rkyv} `{Hex} (t : Transaction) : bytes := hex_encode (to_bytes t).

Record TransactionBuilder := MkBuilder {
  b_wallet : Wallet;
  recipient_pk : option bytes;
  b_amount : Z;
  b_fee : Z;
  sender_mass : Z;
  sender_last_hash : bytes;
  sender_nonce : Z;
  sender_element : AtomElement;
}.
Definition builder_new (w : Wallet) : TransactionBuilder :=
  MkBuilder w None 0 PROTOCOL_MIN_FEE 0 zero32 0 SHydrogen.
(** The setters of the builder, each on one field. *)
Definition set_recipient (pk : bytes) (b : TransactionBuilder) : TransactionBuilder :=
  MkBuilder (b_wallet b) (Some pk) (b_amount b) (b_fee b) (sender_mass b) (sender_last_hash b) (sender_nonce b)
    (sender_element b).
Definition set_amount (n : Z) (b : TransactionBuilder) : TransactionBuilder :=
  MkBuilder (b_wallet b) (recipient_pk b) n (b_fee b) (sender_mass b) (sender_last_hash b) (sender_nonce b)
    (sender_element b).
Definition set_fee (n : Z) (b : TransactionBuilder) : TransactionBuilder :=
  MkBuilder (b_wallet b) (recipient_pk b) (b_amount b) n (sender_mass b) (sender_last_hash b) (sender_nonce b)
    (sender_element b).
Definition set_sender_mass (n : Z) (b : TransactionBuilder) : TransactionBuilder :=
  MkBuilder (b_wallet b) (recipient_pk b) (b_amount b) (b_fee b) n (sender_last_hash b) (sender_nonce b)
    (sender_element b).
Definition set_sender_last_hash (h : bytes) (b : TransactionBuilder) : TransactionBuilder :=
  MkBuilder (b_wallet b) (recipient_pk b) (b_amount b) (b_fee b) (sender_mass b) h (sender_nonce b)
    (sender_element b).
Definition set_sender_nonce (n : Z) (b : TransactionBuilder) : TransactionBuilder :=
  MkBuilder (b_wallet b) (recipient_pk b) (b_amount b) (b_fee b) (sender_mass b) (sender_last_hash b) n
    (sender_element b).
Definition set_sender_element (el : AtomElement) (b : TransactionBuilder) : TransactionBuilder :=
  MkBuilder (b_wallet b) (recipient_pk b) (b_amount b) (b_fee b) (sender_mass b) (sender_last_hash b)
    (sender_nonce b) el.

Section build.
Context {HA : Hashes} {MD : MlDsa87}.

(** The reaction that is hashed and signed; its other fields do not matter. *)
Definition hashed_reaction (b : TransactionBuilder) (sender_pk recipient_pk : bytes) : SignedReaction :=
  MkReaction
    (MkAtom sender_pk (map_element (sender_element b)) 0 (sender_mass b) (f32_of_Z 0) (sender_last_hash b) 0
       (sender_nonce b) Stable)
    (MkAtom recipient_pk Hydrogen 0 0 (f32_of_Z 0) zero32 0 0 Stable)
    zero32 (f32_of_Z (b_fee b)) 0 [] (Transfer (b_amount b)).

(** [now] is the system time in seconds. *)
Definition build (now : Z) (b : TransactionBuilder) : result Transaction SdkError :=
  let? recipient_pk := ok_or (recipient_pk b) RecipientRequired in
  guard? negb (b_amount b =? 0) else ZeroAmount;
  guard? negb (b_fee b <? PROTOCOL_MIN_FEE) else FeeTooLow (b_fee b);
  let? total_cost := ok_or (u64_checked_add (b_amount b) (b_fee b)) CostOverflow in
  guard? negb (sender_mass b <? total_cost) else InsufficientSenderMass (sender_mass b) total_cost;
  let sender_pk := get_public_key_bytes (b_wallet b) in
  let types_rx := hashed_reaction b sender_pk recipient_pk in
  let reaction_hash := compute_reaction_hash types_rx in
  let signature := wallet_sign (b_wallet b) (signing_digest types_rx) in
  let sender := snapshot_sender sender_pk (sender_mass b) (sender_last_hash b) (sender_nonce b) (sender_element b) in
  let receiver := snapshot_new_receiver recipient_pk in
  Ok (MkTransaction sender receiver reaction_hash (f32_of_Z (b_fee b)) now signature (STransfer (b_amount b))).

(** primus-core/src/kinetic.rs: the same for the node's own transfers, from the whole
    atom of the sender and a signing key. *)
Definition build_transfer (now : Z) (sender_atom : Atom) (receiver_pk : bytes) (amount fee : Z)
    (signing_key_bytes : bytes) : result SignedReaction KeyError :=
  let receiver := new_materialized receiver_pk Hydrogen in
  let rx := MkReaction sender_atom receiver zero32 (f32_of_Z fee) now [] (Transfer amount) in
  let rx := MkReaction sender_atom receiver (compute_reaction_hash rx) (energy rx) now [] (payload rx) in
  let digest := signing_digest rx in
  let? signature := sign signing_key_bytes digest in
  Ok (MkReaction sender_atom receiver (reaction_hash rx) (energy rx) now signature (payload rx)).
End build.

(** ** proof.rs *)
Definition MAX_PROOF_AGE_BLOCKS : Z := 8.

(** bincode of the two mirror structs and of an atom. *)
Class ProofCodec := {
  ser_leaf_repr : bytes → bytes → bytes;
  ser_ext_repr : bytes → Hash32 → bytes;
  de_atom : bytes → option Atom;
}.

Section proof.
Context {HA : Hashes} {PC : ProofCodec}.

(** The nibbles the path consumes: a branch step one, but for the slot of its own value. *)
Definition sdk_step_len (st : PathStep) : Z :=
  match st with
  | PBranch nibble => if nibble =? 16 then 0 else 1
  | PExtension n => n
  | PLeaf => 0
  end.

Inductive WalkState :=
| Walking (current_hash : Hash32) (rest : list Hash32) (nibble_pos : Z)
| Refused
| Panicked.

(** One step of the loop; [rest] are the siblings left, the last first.  An index below
    zero or a slice past the end panics. *)
Definition sdk_step (nibbles : bytes) (st : WalkState) (step : PathStep) : WalkState :=
  match st with
  | Walking current_hash rest nibble_pos =>
      match step with
      | PBranch nibble =>
          match rest with
          | [] => Refused
          | sibling :: rest =>
              if nibble_pos - 1 <? 0 then Panicked
              else Walking (blake3 (nibble :: current_hash ++ sibling)) rest (nibble_pos - 1)
          end
      | PExtension n =>
          let nibble_pos := nibble_pos - n in
          if nibble_pos <? 0 then Panicked
          else
            let prefix := take (Z.to_nat n) (drop (Z.to_nat nibble_pos) nibbles) in
            Walking (blake3 (ser_ext_repr prefix current_hash)) rest nibble_pos
      | PLeaf => Refused
      end
  | st => st
  end.

(** [None] is a panic. *)
Definition verify_proof_pure (proof : MerkleProof) : option bool :=
  match path proof with
  | [] => Some (bool_decide (root proof = zero32) && bool_decide (value proof = None))
  | _ :: _ =>
      let nibbles := key_to_nibbles (trie_key proof) in
      match last (path proof) with
      | Some PLeaf =>
          let suffix_start := foldl (λ acc st, acc + sdk_step_len st) 0 (path proof) in
          if len nibbles <? suffix_start then None
          else
            let key_suffix := drop (Z.to_nat suffix_start) nibbles in
            match value proof with
            | None => Some true
            | Some v =>
                let start := Walking (blake3 (ser_leaf_repr key_suffix v)) (reverse (siblings proof)) (len nibbles) in
                match foldl (sdk_step nibbles) start (drop 1 (reverse (path proof))) with
                | Walking current_hash _ _ => Some (bool_decide (current_hash = root proof))
                | Refused => Some false
                | Panicked => None
                end
            end
      | _ => Some false
      end
  end.

Definition verify_balance_proof (proof : MerkleProof) (expected_root : Hash32)
    (proof_height current_height : Z) : option (result (option Atom) SdkError) :=
  if MAX_PROOF_AGE_BLOCKS <? u64_saturating_sub current_height proof_height
  then Some (Err (ProofTooOld proof_height current_height))
  else if negb (bool_decide (root proof = expected_root)) then Some (Err UntrustedRoot)
  else
    match verify_proof_pure proof with
    | None => None
    | Some false => Some (Err ProofInvalid)
    | Some true =>
        Some match value proof with
             | Some atom_bytes =>
                 match de_atom atom_bytes with
                 | Some atom => Ok (Some atom)
                 | None => Err AtomCorrupt
                 end
             | None => Ok None
             end
    end.
End proof.
