(* ===== verification/SdkFacts.v ===== *)
(** The client side is right for the node: what the SDK's wallet and builder produce passes
    the node's validation and is executed; and where it is not: the light client's proof
    check neither accepts the node's proofs nor refuses forged ones. *)
From S2P Require Import Prelude Floats Types Shield State Physics Pvm PvmFacts Crypto Mpt MptFacts Sdk.
Open Scope Z_scope.

(** ** Wallets *)
Section wallets.
Context {HA : Hashes} {MD : MlDsa87} {BI : Bip39} {HX : Hex} {WF : WalletFileCodec}.

Lemma from_mnemonic_Ok phrase i w :
  from_mnemonic phrase i = Ok w →
  mnemonic_phrase w = phrase ∧ derivation_index w = i ∧ phrase_valid phrase = true ∧
  public_key_bytes w = kp_pk (keypair_from_seed (key_seed w)) ∧ address w = hex_encode (public_key_bytes w).
Proof. unfold from_mnemonic. destruct (phrase_valid phrase) eqn:E; [|done]. intros [= <-]. by split_and!. Qed.

Lemma wallet_signs phrase i w m : from_mnemonic phrase i = Ok w → wallet_verify w m (wallet_sign w m) = true.
Proof.
  intros H. destruct (from_mnemonic_Ok _ _ _ H) as (_ & _ & _ & Hp & _).
  unfold wallet_verify, wallet_sign. rewrite Hp. apply keypair_signs.
Qed.

Lemma len_public_key phrase i w : from_mnemonic phrase i = Ok w → len (public_key_bytes w) = PK_BYTES.
Proof. intros H. destruct (from_mnemonic_Ok _ _ _ H) as (_ & _ & _ & -> & _). apply len_kp_pk. Qed.

(** A wallet is recovered whole from its file, though the file holds only the phrase
    and the index; its address decodes to its public key; what it signs, it verifies.  A
    new wallet is always made for 12 and for 24 words, and for no other count. *)
Theorem wallet_roundtrip phrase i w :
  from_mnemonic phrase i = Ok w →
  load (Some (save w)) = Ok w ∧
  decode_address (address w) = Ok (get_public_key_bytes w) ∧
  (∀ m, wallet_verify w m (wallet_sign w m) = true) ∧
  (∀ entropy n j, (∀ k, length (entropy k) = k) →
     is_ok (generate entropy n j) = (n =? 12) || (n =? 24)).
Proof.
  intros H. destruct (from_mnemonic_Ok _ _ _ H) as (Hm & Hi & Hv & Hp & Ha). split_and!.
  - unfold load, save. cbn [ok_or rbind]. rewrite de_ser_wallet. cbn [ok_or rbind wf_version wf_phrase wf_index].
    by rewrite Hm, Hi.
  - unfold decode_address. rewrite Ha, hex_decode_encode. cbn [ok_or rbind].
    by rewrite (len_public_key _ _ _ H).
  - intros m. by eapply wallet_signs.
  - intros entropy n j He. unfold generate.
    destruct (Z.eqb_spec n 12); [|destruct (Z.eqb_spec n 24); [|done]]; cbn [rbind orb]; unfold from_mnemonic;
      rewrite phrase_of_entropy_valid by (rewrite He; lia); done.
Qed.
(** A wallet that is loaded is one of its phrase. *)
Lemma load_from_mnemonic o w : load o = Ok w → ∃ phrase i, from_mnemonic phrase i = Ok w.
Proof.
  unfold load. destruct o as [f|]; [|done]. cbn [ok_or rbind]. destruct (de_wallet f) as [wf|]; [|done]. cbn [ok_or rbind].
  destruct (wf_version wf =? 1); [|done]. by eexists _, _.
Qed.
End wallets.

(** ** Transfers *)
Section transfers.
Context {HA : Hashes} {MD : MlDsa87} {BI : Bip39} {HX : Hex}.

(** The hash and the digest depend on the keys, the amount, the fee and the last hash. *)
Lemma signing_digest_ext rx rx' :
  public_key (sender rx) = public_key (sender rx') → public_key (receiver rx) = public_key (receiver rx') →
  payload rx = payload rx' → energy rx = energy rx' →
  last_reaction_hash (sender rx) = last_reaction_hash (sender rx') → signing_digest rx = signing_digest rx'.
Proof. unfold signing_digest, signing_input. by intros -> -> -> -> ->. Qed.

Definition fee_exact (fee : Z) : Prop := PROTOCOL_MIN_FEE ≤ fee < 2 ^ 23.
Lemma fee_exact_encode fee : fee_exact fee → encode (f32_of_Z fee) = fee * FIXED_POINT_SCALE.
Proof. unfold fee_exact, PROTOCOL_MIN_FEE. intros ?. apply encode_exact. lia. Qed.
Lemma fee_exact_u64 fee : fee_exact fee → fp_to_u64 (f32_of_Z fee) = fee.
Proof. unfold fee_exact, PROTOCOL_MIN_FEE. intros ?. apply f32_of_Z_trunc. lia. Qed.
Lemma f32_of_Z_not_negative n : 0 ≤ n → fp_lt (f32_of_Z n) (f32_of_Z 0) = false.
Proof. intros H. pose proof (f32_of_Z_nonneg n H). by destruct (f32_of_Z n) as [[]|[]| |[]]. Qed.

(** What the builder's result is. *)
Lemma build_Ok now b t :
  build now b = Ok t →
  ∃ to, recipient_pk b = Some to ∧ b_amount b ≠ 0 ∧ PROTOCOL_MIN_FEE ≤ b_fee b ∧
    b_amount b + b_fee b ≤ U64_MAX ∧ b_amount b + b_fee b ≤ sender_mass b ∧
    let rx := to_signed_reaction t in
    public_key (sender rx) = public_key_bytes (b_wallet b) ∧ public_key (receiver rx) = to ∧
    nonce (sender rx) = sender_nonce b ∧ last_reaction_hash (sender rx) = sender_last_hash b ∧
    payload rx = Transfer (b_amount b) ∧ energy rx = f32_of_Z (b_fee b) ∧ reaction_hash rx = signing_digest rx ∧
    signature rx = wallet_sign (b_wallet b) (signing_digest rx).
Proof.
  unfold build. intros H. inv_ok H. rename x into to. exists to.
  repeat match goal with Hc : negb _ = true |- _ => apply negb_true_iff in Hc end.
  match goal with Hc : u64_checked_add _ _ = Some _ |- _ => unfold u64_checked_add in Hc end.
  destruct (Z.leb_spec (b_amount b + b_fee b) U64_MAX); [|done]. simplify_eq.
  repeat match goal with Hc : (_ =? _) = false |- _ => apply Z.eqb_neq in Hc
                    | Hc : (_ <? _) = false |- _ => apply Z.ltb_ge in Hc end.
  destruct (recipient_pk b) as [to'|]; [|done]. simplify_eq/=.
  split_and!; try done.
Qed.

(** What the builder makes is structurally valid, and signed. *)
Lemma built_transfer_valid phrase i w now b t :
  from_mnemonic phrase i = Ok w → b_wallet b = w → build now b = Ok t → fee_exact (b_fee b) →
  (∀ to, recipient_pk b = Some to → len to = PK_BYTES) →
  let rx := to_signed_reaction t in
  structurally_valid rx ∧ verify (public_key (sender rx)) (signing_digest rx) (signature rx) = true.
Proof.
  intros Hw <- Hb Hfee Hto. cbv zeta.
  destruct (build_Ok _ _ _ Hb) as (to & Hr & _ & _ & _ & _ & Hsk & Hrk & _ & _ & _ & He & Hh & Hsig). cbv zeta in *.
  set (rx := to_signed_reaction t) in *.
  assert (Hver : verify (public_key (sender rx)) (signing_digest rx) (signature rx) = true).
  { rewrite Hsk, Hsig. exact (wallet_signs _ _ _ _ Hw). }
  assert (Hlen : len (signature rx) = SIG_BYTES).
  { unfold verify in Hver. apply andb_true_iff in Hver as [Hv _]. apply andb_true_iff in Hv as [_ Hv].
    by apply Z.eqb_eq in Hv. }
  split; [|done]. unfold structurally_valid.
  rewrite Hsk, Hrk, He, fee_exact_encode by done. split_and!; [by eapply len_public_key|by apply Hto|done| |done].
  unfold fee_exact, PROTOCOL_MIN_FEE, FIXED_POINT_SCALE in *. lia.
Qed.

(** C12. A transfer the SDK builds from the sender's state on chain is accepted by the
    node: it is structurally valid, its archive passes the zero-copy check, and the virtual
    machine executes it whenever the crystal's heat and the operation's complexity allow,
    charging exactly amount and fee.  (For fees below 2^23; the last reaction hash need not
    be the one on chain.) *)
Theorem built_transfer_executes `{Rkyv} phrase i w now b t base ctx atoms_iter drift rxs acc s :
  from_mnemonic phrase i = Ok w → b_wallet b = w → build now b = Ok t → 0 ≤ b_amount b → fee_exact (b_fee b) →
  (∀ to, recipient_pk b = Some to → len to = PK_BYTES) → context_over base ctx →
  view_map base (changeset acc) !! public_key_bytes w = Some s →
  sender_mass b = mass s → sender_nonce b = nonce s →
  let rx := to_signed_reaction t in
  let curvature := local_curvature ctx rx atoms_iter drift in
  (∃ a, check_archived_root (to_bytes t) = Some a ∧ archived_validate_structure a = Ok tt ∧
        rkyv_deserialize a = Some rx) ∧
  (∀ cs', (∃ acc', execute_single ctx rx atoms_iter drift rxs acc = Ok acc' ∧ changeset acc' = cs') ↔
   fp_gt (f32_add (total_crystal_heat acc) curvature) THERMAL_CAPACITY = false ∧
   (∃ c, quantum_complexity ctx rx rxs = Ok c ∧
         scale_complexity c (calculate_macro_shift curvature) ≤ MAX_SAFE_COMPLEXITY) ∧
   let s2 := transfer_sender ctx rx (b_amount b + b_fee b) s in
   let cs1 := cs_insert (public_key s2) s2 (changeset acc) in
   let r2 := transfer_receiver ctx (b_amount b)
     (default (set_mass 0 (receiver rx)) (view_map base cs1 !! public_key (receiver rx))) in
   cs' = cs_insert (public_key r2) r2 cs1).
Proof.
  intros Hw <- Hb Ha Hfee Hto Hctx Hs Hm Hn. cbv zeta.
  destruct (build_Ok _ _ _ Hb) as (to & Hr & Ha0 & Hf & Hc & Hcm & Hsk & Hrk & Hnn & Hlh & Hp & He & Hh & Hsig).
  cbv zeta in *. set (rx := to_signed_reaction t) in *.
  assert (Hcost : b_amount b + fp_to_u64 (energy rx) = b_amount b + b_fee b) by (by rewrite He, fee_exact_u64).
  destruct (built_transfer_valid phrase i _ now b t Hw eq_refl Hb Hfee Hto) as [Hvalid Hver]. cbv zeta in *.
  split.
  - exists (archive rx). split; [apply check_to_bytes|]. split; [|apply deserialize_archive].
    rewrite archived_validate_structure_archive. by apply validate_structure_Ok.
  - intros cs'. rewrite (transfer_confirms base ctx rx (b_amount b) _ _ _ _ _ Hctx Hp Ha). cbv zeta.
    rewrite Hcost, Hsk. split.
    + intros (_ & _ & Hheat & Hcx & _ & s' & Hs' & _ & _ & Heq). rewrite Hs in Hs'. by injection Hs' as <-.
    + intros (Hheat & Hcx & Heq). split_and!; [|left; by rewrite <-Hsk|done|done|done|].
      * rewrite He. apply f32_of_Z_not_negative. unfold fee_exact, PROTOCOL_MIN_FEE in Hfee. lia.
      * exists s. split_and!; [done|by rewrite Hnn|lia|done].
Qed.

(** A fee that single precision rounds up: the builder is satisfied with a sender who has
    the exact amount and fee, the machine charges one more and refuses. *)
Theorem large_fee_refused now b t base ctx atoms_iter drift rxs acc acc' s :
  build now b = Ok t → 0 ≤ b_amount b → b_fee b = 2 ^ 24 + 3 → context_over base ctx →
  view_map base (changeset acc) !! public_key_bytes (b_wallet b) = Some s →
  mass s = sender_mass b → sender_mass b = b_amount b + b_fee b →
  execute_single ctx (to_signed_reaction t) atoms_iter drift rxs acc ≠ Ok acc'.
Proof.
  intros Hb Ha Hfee Hctx Hs Hm Hsm Hx.
  destruct (build_Ok _ _ _ Hb) as (to & _ & _ & _ & _ & _ & Hsk & _ & _ & _ & Hp & He & _). cbv zeta in *.
  destruct (proj1 (transfer_confirms base ctx _ (b_amount b) atoms_iter drift rxs acc (changeset acc') Hctx Hp Ha))
    as (_ & _ & _ & _ & _ & s' & Hs' & _ & Hcost & _); [by exists acc'|].
  rewrite Hsk, Hs in Hs'. injection Hs' as <-. rewrite He, Hfee in Hcost.
  assert (Hr : fp_to_u64 (f32_of_Z (2 ^ 24 + 3)) = 2 ^ 24 + 4) by (vm_compute; reflexivity).
  rewrite Hr in Hcost. lia.
Qed.

(** The node's own builder signs what the virtual machine checks. *)
Theorem node_transfer_signed now a to amount fee seed rx :
  build_transfer now a to amount fee (kp_sk (keypair_from_seed seed)) = Ok rx →
  public_key a = kp_pk (keypair_from_seed seed) →
  verify (public_key (sender rx)) (signing_digest rx) (signature rx) = true ∧
  reaction_hash rx = signing_digest rx ∧ payload rx = Transfer amount ∧ energy rx = f32_of_Z fee.
Proof.
  unfold build_transfer. intros H Hpk. inv_ok H. split_and!; [|done|done|done].
  cbn [sender signature]. rewrite Hpk. unfold sign in *.
  match goal with Hs : (if ?c then _ else _) = Ok _ |- _ => destruct c; [|done]; injection Hs as <- end.
  rewrite (signing_digest_ext _ (MkReaction a (new_materialized to Hydrogen)
    (compute_reaction_hash (MkReaction a (new_materialized to Hydrogen) zero32 (f32_of_Z fee) now [] (Transfer amount)))
    (f32_of_Z fee) now [] (Transfer amount))) by done.
  pose proof (keypair_signs seed) as Hk. unfold sign_with_seed in Hk. unfold keypair_from_seed in *.
  destruct (key_gen_internal _). apply Hk.
Qed.
End transfers.

(** ** The light client *)
Section light_client.
Context {HA : Hashes} {NC : NodeCodec} {PC : ProofCodec}.

(** bincode: an enum is its variant's index in four bytes and the variant's fields; a
    vector is its length in eight bytes and its items, an array its items. *)
Definition bincode_layout : Prop :=
  (∀ s v, ser_node (Leaf s v) = to_le 4 0 ++ ser_leaf_repr s v) ∧
  (∀ p c, ser_node (Extension p c) = to_le 4 1 ++ ser_ext_repr p c) ∧
  (∀ p c, length (ser_ext_repr p c) = (8 + length p + length c)%nat).

Definition blake3_collision : Prop := ∃ a b, a ≠ b ∧ blake3 a = blake3 b.
Lemma blake3_len_collision a b : blake3 a = blake3 b → length a ≠ length b → blake3_collision.
Proof. intros Hab Hl. exists a, b. split; [by intros ->|done]. Qed.

Definition well_formed_proof (pr : MerkleProof) : Prop :=
  Forall (λ h, length h = 32%nat) (siblings pr) ∧ Forall (λ st, ∀ n, st = PExtension n → 0 ≤ n) (path pr).

Lemma foldl_walk_none nibbles full l : foldl (walk_step nibbles full) None l = None.
Proof. by induction l. Qed.

(** What a walk has in hand: a hash of 32 bytes, siblings of the proof, a position within
    the key. *)
Definition walk_ok (total : Z) (st : WalkState) : Prop :=
  match st with
  | Walking h rest pos => length h = 32%nat ∧ Forall (λ h, length h = 32%nat) rest ∧ 0 ≤ pos ≤ total
  | _ => True
  end.

Lemma sdk_step_ok nibbles st step :
  (∀ n, step = PExtension n → 0 ≤ n) → walk_ok (len nibbles) st → walk_ok (len nibbles) (sdk_step nibbles st step).
Proof.
  intros Hn. destruct st as [h rest pos| |]; [|done|done]. intros (Hh & Hr & Hp).
  destruct step as [x|n|]; cbn [sdk_step]; [|specialize (Hn _ eq_refl)|done].
  - destruct rest as [|sib rest]; [done|]. inversion Hr; subst. case_match eqn:E; [done|].
    apply Z.ltb_ge in E. split_and!; [apply length_blake3|done|lia|lia].
  - case_match eqn:E; [done|]. apply Z.ltb_ge in E. split_and!; [apply length_blake3|done|lia|lia].
Qed.

Lemma sdk_walk_ok nibbles steps st :
  Forall (λ st, ∀ n, st = PExtension n → 0 ≤ n) steps → walk_ok (len nibbles) st →
  walk_ok (len nibbles) (foldl (sdk_step nibbles) st steps).
Proof.
  intros Hs. revert st; induction Hs as [|step steps H _ IH]; intros st Hst; [done|]. cbn [foldl].
  apply IH. by apply sdk_step_ok.
Qed.

Lemma node_walk_ok nibbles full steps h rest h' rest' :
  length h = 32%nat → foldl (walk_step nibbles full) (Some (h, rest)) steps = Some (h', rest') → length h' = 32%nat.
Proof.
  revert h rest; induction steps as [|step steps IH]; intros h rest Hh; cbn [foldl]; [by intros [= <- <-]|].
  destruct (walk_step nibbles full (Some (h, rest)) step) as [[h1 rest1]|] eqn:E; [|by rewrite foldl_walk_none].
  apply IH. destruct step as [x|n|]; cbn [walk_step] in E; [| |done].
  - destruct rest; [done|]. injection E as <- _. apply length_blake3.
  - case_match; [done|]. injection E as <- _. apply length_blake3.
Qed.

(** At the root, after any walk, the two verifiers hash byte strings of different lengths. *)
Lemma root_step nibbles first tl r cur rest pos cur' rest' :
  (∀ p c, ser_node (Extension p c) = to_le 4 1 ++ ser_ext_repr p c) ∧
  (∀ p c, length (ser_ext_repr p c) = (8 + length p + length c)%nat) →
  (∀ n, first = PExtension n → 0 ≤ n) → walk_ok (len nibbles) (Walking cur rest pos) → length cur' = 32%nat →
  match walk_step nibbles (first :: tl) (Some (cur', rest')) first with
  | Some (h, _) => bool_decide (h = r)
  | None => false
  end = true →
  match sdk_step nibbles (Walking cur rest pos) first with
  | Walking h _ _ => Some (bool_decide (h = r))
  | Refused => Some false
  | Panicked => None
  end = Some true → blake3_collision.
Proof.
  intros [Hext Hrepr] Hfirst (Hcur & Hrest & Hpos) Hcur' Hnode Hsdk.
  destruct first as [x|n|]; cbn [sdk_step walk_step] in Hsdk, Hnode; [| |done].
  - destruct rest as [|sib rest]; [done|]. destruct rest' as [|sib' rest']; [done|].
    destruct (pos - 1 <? 0); [done|]. injection Hsdk as Hsdk. apply bool_decide_eq_true in Hsdk, Hnode.
    apply (blake3_len_collision _ _ (eq_trans Hnode (eq_sym Hsdk))).
    inversion Hrest as [|?? Hsl _]; subst. rewrite length_app, length_xor_bytes. simpl. rewrite length_app. lia.
  - specialize (Hfirst n eq_refl).
    assert (Hz : steps_len (steps_before (PExtension n) (PExtension n :: tl)) = 0).
    { cbn [steps_before]. by rewrite decide_True by done. }
    rewrite Hz in Hnode. destruct (len nibbles <? 0 + n) eqn:Hle; [done|].
    destruct (pos - n <? 0) eqn:Hp; [done|]. injection Hsdk as Hsdk. apply bool_decide_eq_true in Hsdk, Hnode.
    apply Z.ltb_ge in Hle, Hp. unfold len in *.
    apply (blake3_len_collision _ _ (eq_trans Hnode (eq_sym Hsdk))). rewrite Hext, length_app, !Hrepr.
    rewrite length_to_le, !length_take, !length_drop. simpl. lia.
Qed.

(** The light client cannot check balances: a proof of inclusion accepted by both the
    node's verifier and the SDK's is a collision of blake3, for the two hash different
    bytes at the root. *)
Theorem inclusion_needs_collision pr v :
  bincode_layout → well_formed_proof pr → value pr = Some v →
  verify_proof pr = true → verify_proof_pure pr = Some true → blake3_collision.
Proof.
  intros (Hleaf & Hext & Hrepr) [Hsib Hsteps] Hv Hnode Hsdk. unfold verify_proof in Hnode. unfold verify_proof_pure in Hsdk.
  destruct (path pr) as [|first tl] eqn:Hpath; [rewrite Hv in Hnode; by rewrite andb_false_r in Hnode|].
  destruct (last (first :: tl)) as [[| |]|] eqn:Hlast; try done.
  destruct (_ <? foldl _ _ _); [done|]. rewrite Hv in Hsdk.
  unfold terminal_hash in Hnode. rewrite Hpath, Hlast, Hv in Hnode.
  destruct (_ <? steps_len _); [by rewrite foldl_walk_none in Hnode|].
  set (nibbles := key_to_nibbles (trie_key pr)) in *.
  set (h0 := node_hash _) in Hnode. set (st0 := Walking _ _ _) in Hsdk.
  assert (Hst0 : walk_ok (len nibbles) st0)
    by (split_and!; [apply length_blake3|by apply Forall_reverse|unfold len; lia|done]).
  assert (Hh0 : length h0 = 32%nat) by apply length_blake3.
  destruct tl as [|second tl].
  - (* a single leaf *)
    simpl in Hlast. injection Hlast as ->. cbn [reverse] in *. simpl in Hsdk, Hnode.
    injection Hsdk as Hsdk. apply bool_decide_eq_true in Hsdk. apply bool_decide_eq_true in Hnode.
    apply (blake3_len_collision _ _ (eq_trans Hnode (eq_sym Hsdk))). rewrite Hleaf.
    rewrite !length_app, length_to_le. change (steps_len [PLeaf]) with 0. change (foldl _ 0 [PLeaf]) with 0. change (0 + 0) with 0. lia.
  - assert (Hrev : drop 1 (reverse (first :: second :: tl)) = drop 1 (reverse (second :: tl)) ++ [first]).
    { rewrite (reverse_cons (second :: tl) first), drop_app_le; [done|]. rewrite length_reverse. simpl. lia. }
    rewrite Hrev in Hnode, Hsdk. rewrite foldl_app in Hnode. rewrite foldl_app in Hsdk. cbn [foldl] in Hnode, Hsdk.
    inversion Hsteps as [|?? Hfirst Htl]; subst.
    assert (Hst1 : walk_ok (len nibbles) (foldl (sdk_step nibbles) st0 (drop 1 (reverse (second :: tl)))))
      by (apply sdk_walk_ok; [by apply Forall_drop, Forall_reverse|done]).
    destruct (foldl (sdk_step nibbles) st0 _) as [cur rest pos| |]; [|done|done].
    destruct (foldl (walk_step nibbles _) (Some (h0, _)) _) as [[cur' rest']|] eqn:Hw; [|done].
    eapply (root_step nibbles first (second :: tl)); [split; done|done|exact Hst1| |exact Hnode|exact Hsdk].
    exact (node_walk_ok _ _ _ _ _ _ _ Hh0 Hw).
Qed.

(** ...and it believes that any account is absent: for every key and every root the
    client trusts there is a proof of exclusion it accepts, made without the trie. *)
Theorem exclusion_forged key trusted_root h :
  verify_balance_proof (MkProof key None trusted_root [] [PLeaf]) trusted_root h h = Some (Ok None).
Proof.
  unfold verify_balance_proof. cbn [root value].
  replace (MAX_PROOF_AGE_BLOCKS <? u64_saturating_sub h h) with false
    by (unfold u64_saturating_sub; rewrite Z.sub_diag; done).
  rewrite bool_decide_eq_true_2 by done. cbn [negb]. unfold verify_proof_pure. cbn [path last foldl sdk_step_len value].
  rewrite (proj2 (Z.ltb_ge _ _)) by (unfold len; lia). done.
Qed.
End light_client.
