(* ===== verification/Ipc.v ===== *)
(** The administration socket (primus-core ipc.rs, primus-types ipc.rs): length-prefixed
    requests, challenges, and the commands the Architect signs.

    The bytes a client sends before it closes are the input of a connection; random
    challenges are drawn from a supply; a shutdown ends the process, and is an outcome. *)
From S2P Require Import Prelude Floats Types Mpt State Physics Pvm Crystal Chamber Storage Engine Processor.
From S2P Require Import Mempool Framing Shield Dht Gossip Crypto Ingress.
Open Scope Z_scope.

Inductive IpcRequest :=
| Status
| GetChallenge
| AdminShutdown (sig : bytes)
| AdminConnectPeer (peer_addr sig : bytes)
| IpcGetProof (addr : bytes).
Inductive IpcResponse :=
| IpcOk
| IpcErr (reason : bytes)
| Challenge (nonce32 : bytes)
| StatusReport (height peers cache_size frame_drops : Z)
| IpcProof (p : MerkleProof).

Class IpcCodec := {
  ser_request : IpcRequest → bytes;
  de_request : bytes → option IpcRequest;
  ser_response : IpcResponse → bytes;
  de_ser_request r : de_request (ser_request r) = Some r;
}.

Record NetworkStatus := MkStatus { peer_list : list bytes; tcp_cache_len : Z; net_frame_drops : Z }.

Record IpcServer := MkIpc {
  ipc_architect_pk : bytes;
  challenges : gmap Z bytes;
  random_supply : list bytes;
}.
Definition ipc_new (architect : bytes) (supply : list bytes) : IpcServer := MkIpc architect ∅ supply.

(** How a connection ends: the client is gone, an error, or the process has exited. *)
Inductive Ending := Closed | ProtocolError | ProcessExit.

Section ipc.
Context {HA : Hashes} {NC : NodeCodec} {AC : AtomCodec} {IC : IpcCodec} {MD : MlDsa87}.
Context (net : NetworkStatus) (core : CoreHandleImpl) (error_text : IngressError → bytes).
Implicit Types s : IpcServer.

Definition ipc_error (t : string) : IpcResponse := IpcErr (bytes_of_string t).

(** The signature of an administrator's command over the challenge of the connection. *)
Definition check_admin (cid : Z) (signature : bytes) s : option bool :=
  (λ nonce, verify (ipc_architect_pk s) nonce signature) <$> challenges s !! cid.
Definition admin_refused (v : option bool) : IpcResponse :=
  match v with
  | None => ipc_error "No challenge issued for this connection"
  | Some _ => ipc_error "Invalid ML-DSA-87 signature"
  end.

(** The response, or [None] if the process exits (it has sent [IpcOk] then). *)
Definition handle_request (cid : Z) (req : IpcRequest) s : IpcServer * option IpcResponse :=
  match req with
  | Status =>
      (s, Some (StatusReport (current_crystal_index (eng_state (engine core))) (len (peer_list net))
                  (tcp_cache_len net) (net_frame_drops net)))
  | GetChallenge =>
      let nonce := default zero32 (head (random_supply s)) in
      (MkIpc (ipc_architect_pk s) (<[cid := nonce]> (challenges s)) (drop 1 (random_supply s)), Some (Challenge nonce))
  | AdminShutdown signature =>
      match check_admin cid signature s with
      | Some true => (s, None)
      | v => (s, Some (admin_refused v))
      end
  | AdminConnectPeer _ signature =>
      match check_admin cid signature s with
      | Some true => (s, Some IpcOk)
      | v => (s, Some (admin_refused v))
      end
  | IpcGetProof address =>
      (s, Some match core_on_get_proof address core with
               | Ok p => IpcProof p
               | Err e => IpcErr (error_text e)
               end)
  end.

Definition frame_of (b : bytes) : bytes := to_le 4 (len b) ++ b.
Definition MAX_REQUEST : Z := 1024 * 1024.

(** One turn of the loop on the input that is left: the connection has ended, or what is
    written and left to read. *)
Inductive Served :=
| Done (s : IpcServer) (out : bytes) (ending : Ending)
| Next (s : IpcServer) (out rest : bytes).
Definition connection_step (cid : Z) (input : bytes) s : Served :=
  if (length input <? 4)%nat
  then Done (MkIpc (ipc_architect_pk s) (delete cid (challenges s)) (random_supply s)) [] Closed
  else
    let n := of_le (take 4 input) in
    let input := drop 4 input in
    if MAX_REQUEST <? n then Done s [] ProtocolError
    else if len input <? n then Done s [] ProtocolError
    else
      match de_request (take (Z.to_nat n) input) with
      | None => Done s [] ProtocolError
      | Some req =>
          match handle_request cid req s with
          | (s, None) => Done s (frame_of (ser_response IpcOk)) ProcessExit
          | (s, Some resp) => Next s (frame_of (ser_response resp)) (drop (Z.to_nat n) input)
          end
      end.

(** The loop; every request takes at least four bytes. *)
Fixpoint connection_loop (fuel : nat) (cid : Z) (input : bytes) s : option (IpcServer * bytes * Ending) :=
  match fuel with
  | O => None
  | S fuel =>
      match connection_step cid input s with
      | Done s out ending => Some (s, out, ending)
      | Next s out rest =>
          match connection_loop fuel cid rest s with
          | Some (s, out', ending) => Some (s, out ++ out', ending)
          | None => None
          end
      end
  end.
Definition handle_connection (cid : Z) (input : bytes) s : option (IpcServer * bytes * Ending) :=
  connection_loop (S (length input)) cid input s.

(** ** Facts *)
(** A sequence of requests of one connection, as a relation: every state it goes through. *)
Inductive steps (cid : Z) : IpcServer → list IpcRequest → IpcServer → Prop :=
| steps_nil s : steps cid s [] s
| steps_cons s req s1 resp reqs s2 :
    handle_request cid req s = (s1, Some resp) → steps cid s1 reqs s2 → steps cid s (req :: reqs) s2.

Lemma handle_request_challenges cid req s s' r c :
  handle_request cid req s = (s', r) → c ≠ cid → challenges s' !! c = challenges s !! c.
Proof.
  intros H Hne. unfold handle_request in H.
  destruct req; repeat case_match; simplify_eq; try done. cbn [challenges]. by rewrite lookup_insert_ne.
Qed.

Lemma handle_request_pk cid req s s' r : handle_request cid req s = (s', r) → ipc_architect_pk s' = ipc_architect_pk s.
Proof. intros H. unfold handle_request in H. destruct req; repeat case_match; by simplify_eq. Qed.

(** A connection is always served to its end, and what it does to the process is
    bounded: it exits only on a signature, under the Architect's key, of the challenge this
    connection was given; the challenges of other connections are untouched. *)
Theorem shutdown_authenticated cid input s :
  ∃ s' out ending, handle_connection cid input s = Some (s', out, ending) ∧
    (∀ c, c ≠ cid → challenges s' !! c = challenges s !! c) ∧
    (ending = ProcessExit →
     ∃ nonce signature, challenges s' !! cid = Some nonce ∧ verify (ipc_architect_pk s) nonce signature = true) ∧
    (ending = Closed → challenges s' !! cid = None).
Proof.
  unfold handle_connection. assert (Hf : (length input < S (length input))%nat) by lia.
  revert Hf. generalize (S (length input)) as fuel. intros fuel; revert input s.
  induction fuel as [|fuel IH]; intros input s Hf; [lia|]. cbn [connection_loop]. unfold connection_step.
  cbv zeta. destruct (Nat.ltb_spec (length input) 4).
  { eexists _, _, _. split; [done|]. cbn [challenges]. split; [by intros c Hc; rewrite lookup_delete_ne|].
    split; [done|]. intros _. apply lookup_delete_eq. }
  destruct (_ <? _); [by eexists _, _, _|]. destruct (_ <? _); [by eexists _, _, _|].
  destruct (de_request _) as [req|]; [|by eexists _, _, _].
  destruct (handle_request cid req s) as [s1 [resp|]] eqn:Hr.
  - destruct (IH (drop (Z.to_nat (of_le (take 4 input))) (drop 4 input)) s1) as (s2 & out & e & -> & Hc & Hx & Hd).
    { rewrite !length_drop. lia. }
    eexists _, _, _. split; [done|]. rewrite <-(handle_request_pk _ _ _ _ _ Hr). split; [|by split].
    intros c Hne. rewrite Hc by done. by eapply handle_request_challenges.
  - eexists _, _, _. split; [done|]. split; [intros c Hne; by eapply handle_request_challenges|].
    split; [|done]. intros _. unfold handle_request in Hr. destruct req; try (by repeat case_match).
    unfold check_admin in Hr. destruct (challenges s !! cid) as [nonce|] eqn:Hn; [|done]. simpl in Hr.
    destruct (verify _ nonce sig) eqn:Hv; [|done]. injection Hr as <-. by exists nonce, sig.
Qed.

(** The signature says nothing of the command, and a challenge is not used up: once
    the Architect has signed to connect a peer, the same signature stops the node, after
    any requests of the connection but for a new challenge. *)
Theorem signature_authorises_any_command cid peer signature s s1 reqs s2 :
  handle_request cid (AdminConnectPeer peer signature) s = (s1, Some IpcOk) →
  steps cid s1 reqs s2 → GetChallenge ∉ reqs →
  handle_request cid (AdminShutdown signature) s2 = (s2, None).
Proof.
  intros Hc Hs Hn. assert (H1 : s1 = s ∧ check_admin cid signature s = Some true).
  { unfold handle_request in Hc. destruct (check_admin cid signature s) as [[]|]; by simplify_eq. }
  destruct H1 as [-> Hv]. clear Hc. induction Hs as [s|s req s1 resp reqs s2 Hr Hs IH].
  - unfold handle_request. by rewrite Hv.
  - rewrite not_elem_of_cons in Hn. destruct Hn as [Hreq Hn]. apply IH; [done|].
    assert (s1 = s) as ->; [|done]. unfold handle_request in Hr. destruct req; repeat case_match; by simplify_eq.
Qed.

(** A connection that ends on an error keeps its challenge for good. *)
Theorem error_leaks_challenge cid s nonce :
  challenges s !! cid = Some nonce →
  handle_connection cid (to_le 4 (MAX_REQUEST + 1)) s = Some (s, [], ProtocolError).
Proof. done. Qed.
End ipc.
