(* ===== verification/IpcPath.v ===== *)
(** Where the node and the command line look for the administration socket (primus-core
    ipc.rs, primus-cli utils.rs and admin.rs): the path, and the check of its owner.

    The environment is the two variables that are read, the output of whoami on Windows,
    and the owners of files; directories are made and protected by the operating system. *)
From S2P Require Import Prelude Types Text.
Open Scope Z_scope.

Record Env := MkEnv {
  xdg_runtime_dir : option bytes;
  home : option bytes;
  windows : bool;
  whoami : bytes;
  current_uid : Z;
  owner : bytes → option Z;
}.

Definition slash : Z := 47.
(** [PathBuf::push] on Unix: an absolute path replaces what is there. *)
Definition path_push (base component : bytes) : bytes :=
  match component with
  | c :: _ => if c =? slash then component else
      match last base with
      | None => component
      | Some e => if e =? slash then base ++ component else base ++ [slash] ++ component
      end
  | [] => match last base with
          | None => []
          | Some e => if e =? slash then base else base ++ [slash]
          end
  end.

Definition socket_name (port : Z) : bytes :=
  bytes_of_string "primus-" ++ decimal port ++ bytes_of_string ".sock".
Definition runtime_dir (e : Env) : bytes :=
  match xdg_runtime_dir e with
  | Some dir => dir
  | None =>
      let p := default (bytes_of_string "/root") (home e) in
      path_push (path_push p (bytes_of_string ".primus")) (bytes_of_string "run")
  end.
Definition unix_path (e : Env) (port : Z) : bytes := path_push (runtime_dir e) (socket_name port).

Definition quote : Z := 34.
Definition pipe_prefix : bytes := bytes_of_string "\\.\pipe\primus-nexus-".
(** The output of whoami: the name and the identifier, separated by a comma. *)
Definition windows_path (e : Env) (port : Z) : option bytes :=
  match split_on 44 [] (trim_by is_space (whoami e)) with
  | [_; part] => Some (pipe_prefix ++ decimal port ++ bytes_of_string "-" ++ trim_by (λ c, c =? quote) part)
  | _ => None
  end.

(** [IpcServer::get_secure_ipc_path] of the node, and the command line's copy of it. *)
Definition node_ipc_path (e : Env) (port : Z) : option bytes :=
  if windows e then windows_path e port else Some (unix_path e port).
Definition cli_ipc_path (e : Env) (port : Z) : option bytes :=
  if windows e then windows_path e port else Some (unix_path e port).

Inductive OwnerError := NoMetadata | NotOwned (socket_uid my_uid : Z).
(** On Unix the source names the parameter `_path` and reads `path`; this is the check it
    spells out. *)
Definition verify_ipc_ownership (e : Env) (path : bytes) : result unit OwnerError :=
  if windows e then Ok tt
  else
    let? socket_uid := ok_or (owner e path) NoMetadata in
    guard? socket_uid =? current_uid e else NotOwned socket_uid (current_uid e);
    Ok tt.

(** [connect_ipc]: where the command line connects, if the socket is there and is its own;
    pipes are tried again for fifteen seconds, which is a matter of time. *)
Definition connect_ipc (e : Env) (port : Z) : option bytes :=
  path ← cli_ipc_path e port;
  match verify_ipc_ownership e path with Ok _ => Some path | Err _ => None end.

(** ** Facts *)
Lemma path_push_prefix base : ∃ pre, ∀ port, path_push base (socket_name port) = pre ++ socket_name port.
Proof.
  unfold path_push. destruct (last base) as [e|] eqn:E.
  - destruct (e =? slash); [by exists base|]. exists (base ++ [slash]). intros port.
    change (socket_name port) with (112 :: bytes_of_string "rimus-" ++ decimal port ++ bytes_of_string ".sock").
    cbn [Z.eqb slash Pos.eqb]. by rewrite <-app_assoc.
  - by exists [].
Qed.

Lemma decimal_inj p q : 0 ≤ p < 65536 → 0 ≤ q < 65536 → decimal p = decimal q → p = q.
Proof.
  intros Hp Hq H. pose proof (parse_u16_decimal p Hp) as H1. rewrite H in H1.
  rewrite (parse_u16_decimal q Hq) in H1. by injection H1.
Qed.
Lemma decimal_avoids c n : ¬ digit c → avoids (λ x, x =? c) (decimal n).
Proof.
  intros Hc. eapply Forall_impl; [apply decimal_digits|]. intros x Hx. apply Z.eqb_neq. by intros ->.
Qed.
Lemma socket_name_inj p q : 0 ≤ p < 65536 → 0 ≤ q < 65536 → socket_name p = socket_name q → p = q.
Proof. intros Hp Hq H. unfold socket_name in H. apply app_inv_head, app_inv_tail in H. by apply decimal_inj. Qed.

(** The command line looks for a node where the node on that port listens, and nowhere
    else: with the same environment the paths agree, and those of two ports differ.  It
    connects only to a socket that its user owns. *)
Theorem ipc_paths e p q :
  0 ≤ p < 65536 → 0 ≤ q < 65536 → is_Some (node_ipc_path e p) →
  (cli_ipc_path e q = node_ipc_path e p ↔ p = q) ∧
  (∀ path, connect_ipc e p = Some path →
     node_ipc_path e p = Some path ∧ (windows e = false → owner e path = Some (current_uid e))).
Proof.
  intros Hp Hq [path0 Hsome]. split.
  - split; [|by intros ->]. unfold cli_ipc_path, node_ipc_path in *. destruct (windows e).
    + unfold windows_path in *. destruct (split_on 44 _ _) as [|x1 [|part [|x3 l]]]; try done. intros H.
      apply (inj Some) in H. apply app_inv_head in H.
      assert (Hs : ∀ n rest, split_on 45 [] (decimal n ++ 45 :: rest) = decimal n :: split_on 45 [] rest).
      { intros n rest. rewrite split_on_avoids; [done|]. apply decimal_avoids. unfold digit. lia. }
      change (bytes_of_string "-") with [45] in H. cbn [app] in H. apply (f_equal (split_on 45 [])) in H.
      rewrite !Hs in H. apply (inj2 cons) in H as [H _]. symmetry. by apply decimal_inj.
    + intros H. apply (inj Some) in H. unfold unix_path in H.
      destruct (path_push_prefix (runtime_dir e)) as [pre Hpre]. rewrite !Hpre in H. apply app_inv_head in H.
      symmetry. by apply socket_name_inj.
  - intros path H. unfold connect_ipc, cli_ipc_path, node_ipc_path in *.
    destruct (if windows e then _ else _) as [path'|]; [|done]. cbn [mbind option_bind] in H.
    unfold verify_ipc_ownership in H. destruct (windows e); [by injection H as <-|].
    destruct (owner e path') as [u|] eqn:Ho; [|done]. cbn [ok_or rbind] in H.
    destruct (Z.eqb_spec u (current_uid e)) as [->|]; [|done]. injection H as <-. done.
Qed.
