(* ===== verification/IpcRun.v ===== *)
(** The listener of the administration socket (primus-core ipc.rs, run): connections are
    accepted one after the other, each is served by a task of its own, and the tasks
    interleave over one table of challenges.

    A turn of a task reads a request and answers it; the network's status and the core are
    what the turn finds.  Creating the socket and protecting it are system calls. *)
From S2P Require Import Prelude Floats Types Mpt State Physics Pvm Crystal Chamber Storage Engine Processor.
From S2P Require Import Mempool Framing Shield Dht Gossip Crypto Ingress Ipc.
Open Scope Z_scope.

Record IpcListener := MkListener {
  server : IpcServer;
  conn_id_gen : Z;
  connections : gmap Z bytes;
  accepting : bool;
  exited : bool;
}.
Definition listener_new (s : IpcServer) : IpcListener := MkListener s 0 ∅ true false.

(** [created] of a named pipe: the next instance could be made; if not, the loop ends and
    with it the client that has just connected. *)
Inductive ListenerEvent :=
| Accepted (input : bytes)
| PipeConnected (created : bool) (input : bytes)
| AcceptFailed
| Turn (net : NetworkStatus) (core : CoreHandleImpl) (cid : Z).

Section run.
Context {HA : Hashes} {NC : NodeCodec} {AC : AtomCodec} {IC : IpcCodec} {MD : MlDsa87}.
Context (error_text : IngressError → bytes).
Implicit Types (l : IpcListener) (ev : ListenerEvent) (out : list (Z * bytes)).

Definition spawn_connection (input : bytes) l : IpcListener :=
  let cid := u64_wrapping_add (conn_id_gen l) 1 in
  MkListener (server l) cid (<[cid := input]> (connections l)) (accepting l) (exited l).
Definition stop_accepting l : IpcListener :=
  MkListener (server l) (conn_id_gen l) (connections l) false (exited l).

(** The loop on a Unix socket. *)
Definition on_accept (accepted : option bytes) l : IpcListener :=
  if accepting l then match accepted with Some input => spawn_connection input l | None => stop_accepting l end else l.
(** The loop on a named pipe: the identifier is taken before the next instance is made. *)
Definition on_pipe (created : bool) (input : bytes) l : IpcListener :=
  if accepting l then
    if created then spawn_connection input l
    else stop_accepting (MkListener (server l) (u64_wrapping_add (conn_id_gen l) 1) (connections l) true (exited l))
  else l.

(** A turn of the task of a connection: a request, or its end. *)
Definition turn (net : NetworkStatus) (core : CoreHandleImpl) (cid : Z) l : IpcListener * list (Z * bytes) :=
  match connections l !! cid with
  | None => (l, [])
  | Some input =>
      match connection_step net core error_text cid input (server l) with
      | Done s out ending =>
          (MkListener s (conn_id_gen l) (delete cid (connections l)) (accepting l)
             (match ending with ProcessExit => true | _ => exited l end), [(cid, out)])
      | Next s out rest =>
          (MkListener s (conn_id_gen l) (<[cid := rest]> (connections l)) (accepting l) (exited l), [(cid, out)])
      end
  end.

Definition listener_step ev l : IpcListener * list (Z * bytes) :=
  if exited l then (l, [])
  else match ev with
       | Accepted input => (on_accept (Some input) l, [])
       | PipeConnected created input => (on_pipe created input l, [])
       | AcceptFailed => (on_accept None l, [])
       | Turn net core cid => turn net core cid l
       end.

(** A schedule, and what is written to the connections, in order. *)
Fixpoint run_listener (evs : list ListenerEvent) l : IpcListener * list (Z * bytes) :=
  match evs with
  | [] => (l, [])
  | ev :: evs => let (l, out) := listener_step ev l in
                 let (l, outs) := run_listener evs l in (l, out ++ outs)
  end.

(** ** Facts *)
Definition challenge_frame (nonce : bytes) : bytes := frame_of (ser_response (Challenge nonce)).
(** The last challenge that was written to connection [c]. *)
Definition latest (c : Z) (nonce : bytes) out : Prop :=
  ∃ o1 o2, out = o1 ++ (c, challenge_frame nonce) :: o2 ∧ ∀ m, (c, challenge_frame m) ∉ o2.
(** The request a connection sends next. *)
Definition next_request (input : bytes) : option IpcRequest :=
  de_request (take (Z.to_nat (of_le (take 4 input))) (drop 4 input)).

Context {SI : Inj (=) (=) ser_response}.

Lemma frame_of_inj a b : frame_of a = frame_of b → a = b.
Proof. intros H. apply app_inj_1 in H as [_ H]; [done|]. by rewrite !length_to_le. Qed.

(** What a turn does to the table of challenges and what it writes. *)
Lemma connection_step_cases net core cid input s :
  match connection_step net core error_text cid input s with
  | Next s' out rest =>
      ipc_architect_pk s' = ipc_architect_pk s ∧
      ((∃ n, challenges s' = <[cid := n]> (challenges s) ∧ out = challenge_frame n) ∨
       challenges s' = challenges s ∧ ∀ m, out ≠ challenge_frame m)
  | Done s' out ProcessExit =>
      s' = s ∧ (∀ m, out ≠ challenge_frame m) ∧ ∃ sig nonce, next_request input = Some (AdminShutdown sig) ∧
        challenges s !! cid = Some nonce ∧ verify (ipc_architect_pk s) nonce sig = true
  | Done s' out _ =>
      ipc_architect_pk s' = ipc_architect_pk s ∧ out = [] ∧
      (challenges s' = challenges s ∨ challenges s' = delete cid (challenges s))
  end.
Proof.
  unfold connection_step. cbv zeta. destruct (_ <? _)%nat; [by auto|].
  destruct (_ <? _); [by auto|]. destruct (_ <? _); [by auto|].
  destruct (de_request _) as [req|] eqn:Hreq; [|by auto].
  assert (Hnext : next_request input = Some req) by done. clear Hreq.
  assert (Hne : ∀ r m, (∀ n, r ≠ Challenge n) → frame_of (ser_response r) ≠ challenge_frame m).
  { intros r m Hr H%frame_of_inj. apply SI in H. by apply (Hr m). }
  unfold handle_request. destruct req; simpl.
  all: try destruct (check_admin _ _ _) as [[]|] eqn:Hc; simpl.
  all: try (split; [done|]; right; split; [done|intros m; apply Hne; intros n; try done; by case_match]).
  - split; [done|]. left. by eexists.
  - split; [done|]. split; [by intros m; apply Hne|]. unfold check_admin in Hc. destruct (challenges s !! cid) as [nonce|] eqn:Hn; [|done].
    injection Hc as Hv. by exists sig, nonce.
Qed.

(** The invariant of a run, over what has been written. *)
Record run_inv (pk : bytes) (n : nat) out l : Prop := {
  inv_pk : ipc_architect_pk (server l) = pk;
  inv_latest c nonce : challenges (server l) !! c = Some nonce → latest c nonce out;
  inv_gen : 0 ≤ conn_id_gen l ≤ Z.of_nat n;
  inv_out c b : (c, b) ∈ out → c ≤ conn_id_gen l;
  inv_conn c b : connections l !! c = Some b → c ≤ conn_id_gen l;
}.

Lemma latest_here c n out : latest c n (out ++ [(c, challenge_frame n)]).
Proof. exists out, []. split; [done|]. intros m. apply not_elem_of_nil. Qed.
Lemma latest_app c n out c' b :
  latest c n out → (c = c' → ∀ m, b ≠ challenge_frame m) → latest c n (out ++ [(c', b)]).
Proof.
  intros (o1 & o2 & -> & Hm) Hb. exists o1, (o2 ++ [(c', b)]). split; [by rewrite <-app_assoc|].
  intros m. rewrite elem_of_app, list_elem_of_singleton. intros [?|[= -> <-]]; [by eapply Hm|by eapply Hb].
Qed.

(** One more connection, or one more identifier. *)
Lemma run_inv_accept pk n out l cs acc ex :
  Z.of_nat (S n) ≤ U64_MAX → run_inv pk n out l →
  (∀ c b, cs !! c = Some b → c ≤ conn_id_gen l + 1) →
  run_inv pk (S n) out (MkListener (server l) (u64_wrapping_add (conn_id_gen l) 1) cs acc ex).
Proof.
  intros Hn [Hp Hl Hg Ho Hc] Hcs.
  assert (u64_wrapping_add (conn_id_gen l) 1 = conn_id_gen l + 1) as Heq.
  { unfold u64_wrapping_add, U64_MAX in *. apply Z.mod_small. lia. }
  split; cbn [server conn_id_gen connections]; rewrite ?Heq; [done..|lia| |done].
  intros c b H%Ho. lia.
Qed.
Lemma run_inv_weaken pk n m out l : (n ≤ m)%nat → run_inv pk n out l → run_inv pk m out l.
Proof. intros ? []. split; try done. lia. Qed.

Lemma frame_not_empty m : [] ≠ challenge_frame m.
Proof. unfold challenge_frame, frame_of. simpl. done. Qed.

Lemma run_inv_turn pk n out l net core cid :
  run_inv pk n out l → let (l', o) := turn net core cid l in run_inv pk n (out ++ o) l'.
Proof.
  intros Hi. pose proof Hi as [Hp Hl Hg Ho Hc]. unfold turn.
  destruct (connections l !! cid) as [input|] eqn:Hin; [|by rewrite app_nil_r].
  pose proof (connection_step_cases net core cid input (server l)) as Hs.
  assert (Hcid : cid ≤ conn_id_gen l) by by eapply Hc.
  assert (Hout : ∀ b0 c b, (c, b) ∈ out ++ [(cid, b0)] → c ≤ conn_id_gen l).
  { intros b0 c b. rewrite elem_of_app, list_elem_of_singleton. intros [H|[= -> _]]; [by eapply Ho|done]. }
  destruct (connection_step _ _ _ _ _ _) as [s' o e|s' o rest].
  - assert (ipc_architect_pk s' = pk ∧ (∀ m, o ≠ challenge_frame m) ∧
            ∀ c nonce, challenges s' !! c = Some nonce → challenges (server l) !! c = Some nonce) as (Hp' & Hne & Hch).
    { destruct e.
      1, 2: destruct Hs as (-> & -> & Hch); split; [done|]; split; [intros m; apply frame_not_empty|];
        intros c nonce H; destruct Hch as [Hch|Hch]; rewrite Hch in H; [done|by apply lookup_delete_Some in H as [_ H]].
      by destruct Hs as (-> & Hne & _). }
    split; cbn [server conn_id_gen connections]; [done|..|done| |].
    + intros c nonce H%Hch%Hl. by apply latest_app.
    + apply Hout.
    + intros c b [_ H]%lookup_delete_Some. by eapply Hc.
  - destruct Hs as [Hp' Hch]. split; cbn [server conn_id_gen connections]; [congruence|..|done| |].
    + intros c nonce H. destruct Hch as [(m & Hch & ->)|[Hch Hne]]; rewrite Hch in H; [|by apply latest_app; [apply Hl|]].
      apply lookup_insert_Some in H as [[<- <-]|[Hcc H]]; [apply latest_here|]. by apply latest_app; [apply Hl|].
    + apply Hout.
    + intros c b [[<- _]|[_ H]]%lookup_insert_Some; [done|by eapply Hc].
Qed.

Definition is_accept ev : bool := match ev with Turn _ _ _ => false | _ => true end.
Definition accepts (evs : list ListenerEvent) : nat := length (filter is_accept evs).

Lemma run_inv_step pk n out l ev :
  Z.of_nat (accepts [ev] + n) ≤ U64_MAX → run_inv pk n out l →
  let (l', o) := listener_step ev l in run_inv pk (accepts [ev] + n) (out ++ o) l'.
Proof.
  intros Hn Hi. unfold listener_step. destruct (exited l); [rewrite app_nil_r; eapply run_inv_weaken; [|done]; lia|].
  destruct ev as [input|created input| |net core cid]; rewrite ?app_nil_r; unfold on_accept, on_pipe.
  - destruct (accepting l); [|eapply run_inv_weaken; [|done]; lia]. apply run_inv_accept; [done|done|].
    intros c b [[<- _]|[_ H]]%lookup_insert_Some; [|apply (inv_conn _ _ _ _ Hi) in H; lia].
    pose proof (inv_gen _ _ _ _ Hi). unfold u64_wrapping_add, U64_MAX in *. simpl in Hn. rewrite Z.mod_small; lia.
  - destruct (accepting l); [|eapply run_inv_weaken; [|done]; lia].
    destruct created; [|unfold stop_accepting; cbn [server conn_id_gen connections]]; apply run_inv_accept; try done.
    + intros c b [[<- _]|[_ H]]%lookup_insert_Some; [|apply (inv_conn _ _ _ _ Hi) in H; lia].
      pose proof (inv_gen _ _ _ _ Hi). unfold u64_wrapping_add, U64_MAX in *. simpl in Hn. rewrite Z.mod_small; lia.
    + intros c b H%(inv_conn _ _ _ _ Hi). lia.
  - destruct (accepting l); (eapply run_inv_weaken; [|by destruct Hi]); lia.
  - by apply run_inv_turn.
Qed.

Lemma run_inv_run pk evs n out l :
  Z.of_nat (accepts evs + n) ≤ U64_MAX → run_inv pk n out l →
  let (l', o) := run_listener evs l in run_inv pk (accepts evs + n) (out ++ o) l'.
Proof.
  revert n out l; induction evs as [|ev evs IH]; intros n out l Hn Hi; cbn [run_listener]; [by rewrite app_nil_r|].
  assert (accepts (ev :: evs) = accepts evs + accepts [ev])%nat as Heq.
  { unfold accepts. rewrite (filter_app _ [ev] evs : filter _ (ev :: evs) = _), length_app. lia. }
  pose proof (run_inv_step pk n out l ev) as Hs. destruct (listener_step ev l) as [l1 o1].
  specialize (IH (accepts [ev] + n)%nat (out ++ o1) l1). destruct (run_listener evs l1) as [l2 o2].
  rewrite Heq, <-Nat.add_assoc, app_assoc. apply IH; [by rewrite Nat.add_assoc, <-Heq|apply Hs; [lia|done]].
Qed.

(** C35. However the connections of the administration socket interleave, the process exits
    only on a request of a connection that carries a signature, under the Architect's key, of
    the last challenge that was written to this very connection; a new connection is given
    an identifier under which nothing has been written and no challenge is stored. *)
Theorem ipc_run_isolated pk supply evs l out :
  Z.of_nat (S (accepts evs)) ≤ U64_MAX →
  run_listener evs (listener_new (ipc_new pk supply)) = (l, out) → exited l = false →
  (∀ net core cid, exited (turn net core cid l).1 = true →
     ∃ input sig nonce, connections l !! cid = Some input ∧ next_request input = Some (AdminShutdown sig) ∧
       latest cid nonce out ∧ verify pk nonce sig = true) ∧
  (∀ input, let l' := spawn_connection input l in
     connections l' !! conn_id_gen l' = Some input ∧ connections l !! conn_id_gen l' = None ∧
     challenges (server l') !! conn_id_gen l' = None ∧ ∀ b, (conn_id_gen l', b) ∉ out).
Proof.
  intros Hn Hr Hex. pose proof (run_inv_run pk evs 0 [] (listener_new (ipc_new pk supply))) as Hi.
  rewrite Hr in Hi. rewrite Nat.add_0_r in Hi. simpl app in Hi.
  assert (run_inv pk (accepts evs) out l) as [Hp Hl Hg Ho Hc].
  { apply Hi; [lia|]. split; cbn; try done; try lia. intros c b H. by apply elem_of_nil in H. }
  clear Hi Hr. split.
  - intros net core cid. unfold turn. destruct (connections l !! cid) as [input|] eqn:Hin; [|cbn; congruence].
    pose proof (connection_step_cases net core cid input (server l)) as Hs.
    destruct (connection_step _ _ _ _ _ _) as [s' o e|s' o rest]; cbn [exited fst]; [|congruence].
    destruct e; [congruence..|]. intros _. destruct Hs as (_ & _ & sig & nonce & Hreq & Hch & Hv).
    exists input, sig, nonce. split_and!; [done|done|by apply Hl|by rewrite <-Hp].
  - intros input. cbv zeta. cbn [spawn_connection conn_id_gen connections server].
    assert (u64_wrapping_add (conn_id_gen l) 1 = conn_id_gen l + 1) as ->.
    { unfold u64_wrapping_add, U64_MAX in *. apply Z.mod_small. lia. }
    assert (Hfresh : ∀ b, (conn_id_gen l + 1, b) ∉ out) by (intros b H%Ho; lia).
    split_and!; [by rewrite lookup_insert_eq| | |done].
    + destruct (connections l !! _) as [b|] eqn:H; [|done]. apply Hc in H. lia.
    + destruct (challenges _ !! _) as [nonce|] eqn:H; [|done]. apply Hl in H as (o1 & o2 & -> & _).
      exfalso. apply (Hfresh (challenge_frame nonce)). rewrite elem_of_app. right. by left.
Qed.
End run.
