(* ===== verification/Node.v ===== *)
(** The running node (primus-core main.rs): the record it announces, one round of the mining
    loop, the commands of its console that change its state, and its shutdown.

    A round of mining holds the engine's lock from its beginning to its end, and the
    mempool's while it selects; a command reads the engine first and pushes later. *)
From S2P Require Import Prelude Floats Types Mpt MptTree MptFacts State Physics Pvm Crystal Chamber Storage.
From S2P Require Import Engine Processor ProcessorFacts Mining Mempool Framing Shield Dht Gossip Ingress Crypto Sdk Text.
Open Scope Z_scope.

(** ** The node's record *)
Definition ip_value (a : IpAddr) : Z := match a with V4 v4 => to_ipv6_mapped v4 | V6 v6 => v6 end.
Definition record_payload (pk : bytes) (a : SocketAddr) (timestamp : Z) : bytes :=
  pk ++ to_be 16 (ip_value (ip a)) ++ to_be 2 (port a) ++ to_le 8 timestamp.
Definition local_record `{Hashes, MlDsa87} (w : Wallet) (pk : bytes) (a : SocketAddr) (timestamp : Z) : PrimusNR :=
  from_socket_addr pk a (wallet_sign w (record_payload pk a timestamp)) timestamp.

Section node.
Context {HA : Hashes} {NC : NodeCodec} {AC : AtomCodec} {CV : CryptoVerifier} {LM : Libm} {RC : ReactionCodec}
        {RK : Rkyv} {EC : EnvelopeCodec} {CC : CrystalCodec} {MD : MlDsa87} {HX : Hex}.
Implicit Types (s : CoreHandleImpl) (e : PrimusEngine) (mp : SectoralMempool).

(** ** The mining loop *)
Definition BLOCK_LIMIT : nat := 50.

(** The candidates: the sector in resonance, then the Architect's. *)
Definition select_reactions (architect_pk : bytes) (drift : Z) mp : SectoralMempool * list SignedReaction :=
  let '(mp, rxs) := drain_resonant mp drift BLOCK_LIMIT in
  let architect_sector := default 0 (head architect_pk) in
  if negb (architect_sector =? drift) && (length rxs <? BLOCK_LIMIT)%nat then
    let '(mp, extra) := drain_resonant mp architect_sector (BLOCK_LIMIT - length rxs) in (mp, rxs ++ extra)
  else (mp, rxs).

(** One round, after the pause; [architect_pk] is the one the node was started with. *)
Definition mining_step (architect_pk : bytes) (now : Z) (seed : bytes) s : CoreHandleImpl :=
  let e := engine s in
  if is_syncing e then s
  else
    let drift := get_galactic_drift (current_crystal_index (eng_state e)) in
    let '(mp, resonant_rxs) := select_reactions architect_pk drift (mempool s) in
    let '(e, r) := mine_block now seed resonant_rxs e in
    let s := Ingress.set_mempool mp (set_engine e s) in
    match r with
    | Ok (Some crystal) => broadcast (NewCrystal (ser_crystal crystal) 8) s
    | _ => s
    end.
Definition mining_loop_step (no_mining : bool) (architect_pk : bytes) (now : Z) (seed : bytes) s : CoreHandleImpl :=
  if no_mining then s else mining_step architect_pk now seed s.

(** The same by sections. *)
Definition select_section (architect_pk : bytes) s : CoreHandleImpl * list SignedReaction :=
  let drift := get_galactic_drift (current_crystal_index (eng_state (engine s))) in
  let '(mp, rxs) := select_reactions architect_pk drift (mempool s) in (Ingress.set_mempool mp s, rxs).
Definition mine_section (now : Z) (seed : bytes) (rxs : list SignedReaction) s : CoreHandleImpl * option Crystal :=
  let '(e, r) := mine_block now seed rxs (engine s) in
  (set_engine e s, match r with Ok (Some crystal) => Some crystal | _ => None end).
Definition mining_program (no_mining : bool) (architect_pk : bytes) (now : Z) (seed : bytes) : Async CoreHandleImpl unit :=
  if no_mining then mret tt
  else
    Acquire LEngine (
      syncing ← atomically (λ s, (s, is_syncing (engine s)));
      if syncing : bool then Release LEngine (mret tt)
      else
        rxs ← with_lock LMempool (select_section architect_pk);
        mined ← atomically (mine_section now seed rxs);
        match mined with
        | Some crystal => atomically (λ s, (broadcast (NewCrystal (ser_crystal crystal) 8) s, tt))
        | None => mret tt
        end;;
        Release LEngine (mret tt)).
(** [mining_loop_step] is the program, when nothing comes between its sections. *)
Theorem mining_exec no_mining pk now seed s :
  exec None [] (mining_program no_mining pk now seed) s = (mining_loop_step no_mining pk now seed s, Some (tt, None, [])).
Proof.
  unfold mining_program, mining_loop_step, mining_step. destruct no_mining; [done|]. cbn.
  destruct (is_syncing (engine s)); [done|]. cbn. unfold select_section.
  destruct (select_reactions _ _ (mempool s)) as [mp rxs]. cbn. unfold mine_section.
  change (engine (Ingress.set_mempool mp s)) with (engine s). destruct (mine_block now seed rxs (engine s)) as [e [[c|]|err]]; done.
Qed.

(** ** The console *)
(** `split_whitespace`. *)
Fixpoint words (cur l : bytes) : list bytes :=
  match l with
  | [] => match cur with [] => [] | _ => [reverse cur] end
  | b :: l =>
      if is_space b then match cur with [] => words [] l | _ => reverse cur :: words [] l end
      else words (b :: cur) l
  end.

Inductive ConsoleOutcome :=
| Queued
| Duplicate
| Usage
| BadAddress (e : SdkError)
| BadAmount
| NoMasterKey
| NoArchitectAtom
| TooExpensive (has needs : Z)
| BuildError
| AdapterError
| PoolError (e : MempoolError).

Definition queue_reaction (now : Z) (rx : SignedReaction) s : CoreHandleImpl * ConsoleOutcome :=
  match push now (mempool s) rx with
  | Ok (mp, true) => (Ingress.set_mempool mp s, Queued)
  | Ok (mp, false) => (Ingress.set_mempool mp s, Duplicate)
  | Err e => (s, PoolError e)
  end.

(** [sdk_tx_to_reaction_result]: the bytes of the SDK, decoded by bincode. *)
Definition sdk_tx_to_reaction_result (tx : Transaction) : option SignedReaction := de_rx (to_bytes tx).
Definition sdk_element (e : Element) : AtomElement :=
  match e with Hydrogen => SHydrogen | Carbon => SCarbon | Oxygen => SOxygen | Gold => SGold end.

(** The two ways to build the transfer; [legacy] holds the result of loading the key file. *)
Definition build_send (now : Z) (wallet : Wallet) (legacy : option (result ArchitectKeys KeyError))
    (sender_atom : Atom) (recipient_pk : bytes) (amount : Z) : result SignedReaction ConsoleOutcome :=
  match legacy with
  | Some keys =>
      match keys with
      | Err _ => Err NoMasterKey
      | Ok k =>
          match build_transfer now sender_atom recipient_pk amount PROTOCOL_MIN_FEE (ak_sk k) with
          | Ok rx => Ok rx
          | Err _ => Err BuildError
          end
      end
  | None =>
      match build now (MkBuilder wallet (Some recipient_pk) amount PROTOCOL_MIN_FEE (mass sender_atom)
                         (last_reaction_hash sender_atom) (nonce sender_atom) (sdk_element (element sender_atom))) with
      | Ok tx => ok_or (sdk_tx_to_reaction_result tx) AdapterError
      | Err _ => Err BuildError
      end
  end.

(** What the command `send` finds before it pushes. *)
Definition plan_send (now : Z) (wallet : Wallet) (legacy : option (result ArchitectKeys KeyError))
    (architect_pk cmd : bytes) e : result SignedReaction ConsoleOutcome :=
  match words [] cmd with
  | [_; recipient_hex; amount_text] =>
      match decode_address recipient_hex with
      | Err err => Err (BadAddress err)
      | Ok recipient_pk =>
          match parse_u64 amount_text with
          | None => Err BadAmount
          | Some amount =>
              if amount <=? 0 then Err BadAmount
              else
                match legacy with
                | Some (Err _) => Err NoMasterKey
                | _ =>
                    match state_get_atom (eng_state e) architect_pk with
                    | None => Err NoArchitectAtom
                    | Some sender_atom =>
                        let total_cost := u64_wrapping_add amount PROTOCOL_MIN_FEE in
                        if mass sender_atom <? total_cost then Err (TooExpensive (mass sender_atom) total_cost)
                        else build_send now wallet legacy sender_atom recipient_pk amount
                    end
                end
          end
      end
  | _ => Err Usage
  end.
Definition console_send (now : Z) (wallet : Wallet) (legacy : option (result ArchitectKeys KeyError))
    (architect_pk cmd : bytes) s : CoreHandleImpl * ConsoleOutcome :=
  match plan_send now wallet legacy architect_pk cmd (engine s) with
  | Err o => (s, o)
  | Ok rx => queue_reaction now rx s
  end.
(** The same by sections: the engine is read, then the mempool takes the reaction. *)
Definition send_program (now : Z) (wallet : Wallet) (legacy : option (result ArchitectKeys KeyError))
    (architect_pk cmd : bytes) : Async CoreHandleImpl ConsoleOutcome :=
  plan ← ask LEngine (λ s, plan_send now wallet legacy architect_pk cmd (engine s));
  match plan with
  | Err o => mret o
  | Ok rx => with_lock LMempool (queue_reaction now rx)
  end.
Theorem send_exec now w legacy pk cmd s :
  exec None [] (send_program now w legacy pk cmd) s =
  let '(s, o) := console_send now w legacy pk cmd s in (s, Some (o, None, [])).
Proof. unfold send_program, console_send, ask. rewrite exec_bind, exec_lock. destruct (plan_send _ _ _ _ _ _); [by rewrite exec_lock|done]. Qed.

(** The reaction of the command `inject`. *)
Definition injected (architect_pk : bytes) (now : Z) : SignedReaction :=
  let a := new_materialized architect_pk Hydrogen in
  let dummy_rx := MkReaction a a zero32 (f32_of_Z PROTOCOL_MIN_FEE) now [] Generic in
  MkReaction a a (compute_reaction_hash dummy_rx) (f32_of_Z PROTOCOL_MIN_FEE) now [] Generic.
Definition console_inject (architect_pk : bytes) (now : Z) s : CoreHandleImpl * ConsoleOutcome :=
  queue_reaction now (injected architect_pk now) s.

(** ** Shutdown *)
(** All the atoms in memory, in the order of the hash map. *)
Definition all_atoms (m : gmap bytes Atom) : Changeset :=
  foldl (λ cs p, cs_insert p.1 p.2 cs) cs_new (map_to_list m).
(** The failure of the commit is logged; the metrics are written in any case. *)
Definition shutdown e : PrimusEngine * result bytes StorageError :=
  let g := MkMetrics (ch_temperature (chamber e)) (ch_entropy (chamber e)) in
  let e := set_state (set_metrics g (eng_state e)) e in
  let '(st, r) := commit_changeset (storage e) (all_atoms (atoms (eng_state e))) (current_crystal_index (eng_state e)) in
  (set_storage (storage_flush (Some (global_metrics (eng_state e))) st) e, r).
End node.
