(* ===== verification/NodeFacts.v ===== *)
(** The running node: its record is signed, a round of mining takes what it should from the
    pool, and a shutdown leaves a disk from which the node comes back as it was. *)
From S2P Require Import Prelude Floats Types Mpt MptTree MptFacts MptProof State Physics Pvm Crystal Chamber Storage.
From S2P Require Import Engine Processor ProcessorFacts Mining Mempool Framing Shield Dht Gossip Ingress Crypto Sdk SdkFacts.
From S2P Require Import Text Node.
Open Scope Z_scope.

(** ** The record *)
(** With the Architect's wallet the record that the node announces carries a valid
    signature, and the address that was signed. *)
Theorem own_record_verifies `{Hashes, MlDsa87, Bip39, Hex} phrase i w a ts :
  from_mnemonic phrase i = Ok w →
  nr_verify mldsa_verify (local_record w (public_key_bytes w) a ts) = true ∧
  (match ip a with V4 v => 0 ≤ v < 2 ^ 32 | V6 v => to_ipv4_mapped v = None end →
   addr (local_record w (public_key_bytes w) a ts) = a).
Proof.
  intros Hw. split.
  - pose proof (wallet_signs phrase i w (record_payload (public_key_bytes w) a ts) Hw) as Hs.
    unfold wallet_verify, verify in Hs. rewrite !andb_true_iff, !Z.eqb_eq in Hs. destruct Hs as [[Hp Hl] Hv].
    unfold nr_verify, local_record, from_socket_addr. cbn [nr_public_key nr_signature addr_ip addr_port nr_timestamp].
    by rewrite Hp, Hl.
  - intros Ha. unfold local_record. destruct a as [[v|v] p]; cbn [ip] in Ha;
      unfold addr, from_socket_addr; cbn [ip port addr_ip addr_port].
    + by rewrite to_ipv4_mapped_to_ipv6.
    + by rewrite Ha.
Qed.

Section node.
Context {HA : Hashes} {NC : NodeCodec} {AC : AtomCodec} {CV : CryptoVerifier} {LM : Libm} {RC : ReactionCodec}
        {RK : Rkyv} {EC : EnvelopeCodec} {CC : CrystalCodec} {MD : MlDsa87} {HX : Hex}.
Implicit Types (s : CoreHandleImpl) (e : PrimusEngine) (mp : SectoralMempool).

(** ** Mining *)
(** What a drain of sector [i] takes. *)
Definition taken (sectors_of : list Z) (rx : SignedReaction) : Prop := structurally_valid rx ∧ sector_of rx ∈ sectors_of.

Lemma drain_spec mp i limit mp' out :
  mempool_ok mp → drain_resonant mp i limit = (mp', out) →
  mempool_ok mp' ∧ residents (sectors mp) ≡ₚ out ++ residents (sectors mp') ∧ (length out ≤ limit)%nat ∧
  Forall (taken [i]) out.
Proof.
  intros Hok H. split; [by eapply drain_ok|].
  destruct (sectors mp !! i) as [s|] eqn:Hs.
  - destruct (drain_resonant_inv _ _ _ _ _ _ Hok Hs H) as (s' & -> & Hd). cbn [sectors].
    destruct (Hok _ _ Hs) as [Hsok _].
    destruct (drain_loop_entries _ _ _ _ _ Hsok Hd) as (_ & Hf & Hp & _ & _). split_and!.
    + destruct (residents_insert _ _ _ s' Hs) as (rest & -> & ->). rewrite Hp. solve_Permutation.
    + rewrite <-(Forall2_length _ _ _ Hf). unfold drain_entries. rewrite length_take. lia.
    + apply Forall_forall. intros rx Hrx. apply list_elem_of_lookup in Hrx as [n Hn].
      destruct (Forall2_lookup_r _ _ _ _ _ Hf Hn) as (p & _ & Hdata).
      destruct (so_data _ _ Hsok _ _ Hdata) as (rx' & <-%ser_rx_inj & _ & Hv & Hsec).
      split; [done|]. rewrite Hsec. apply list_elem_of_here.
  - unfold drain_resonant in H. rewrite Hs in H. injection H as <- <-. split_and!; [done|simpl; lia|constructor].
Qed.

Lemma taken_weaken l l' out : l ⊆ l' → Forall (taken l) out → Forall (taken l') out.
Proof. intros Hs H. eapply Forall_impl; [exact H|]. intros rx [Hv Hin]. split; [done|by apply Hs]. Qed.

Lemma select_spec pk drift mp mp' rxs :
  mempool_ok mp → select_reactions pk drift mp = (mp', rxs) →
  mempool_ok mp' ∧ residents (sectors mp) ≡ₚ rxs ++ residents (sectors mp') ∧ (length rxs ≤ BLOCK_LIMIT)%nat ∧
  Forall (taken [drift; default 0 (head pk)]) rxs.
Proof.
  intros Hok. unfold select_reactions. destruct (drain_resonant mp drift BLOCK_LIMIT) as [mp1 rxs1] eqn:E1.
  destruct (drain_spec _ _ _ _ _ Hok E1) as (Hok1 & Hp1 & Hl1 & Ht1).
  destruct (_ && _).
  - destruct (drain_resonant mp1 _ _) as [mp2 extra] eqn:E2. intros [= <- <-].
    destruct (drain_spec _ _ _ _ _ Hok1 E2) as (Hok2 & Hp2 & Hl2 & Ht2). split_and!; [done| | |].
    + by rewrite Hp1, Hp2, app_assoc.
    + rewrite length_app. lia.
    + apply Forall_app. split; (eapply taken_weaken; [|done]); set_solver.
  - intros [= <- <-]. split_and!; [done..|]. eapply taken_weaken; [|done]. set_solver.
Qed.

(** C39. A round of the mining loop: unless the node is syncing, it takes at most fifty
    reactions out of the pool, all of the resonant sector or of the Architect's, losing none,
    mines with exactly these, and broadcasts the crystal if there is one, and nothing else. *)
Theorem mining_round pk now seed s :
  mempool_ok (mempool s) →
  let s' := mining_step pk now seed s in
  let drift := get_galactic_drift (current_crystal_index (eng_state (engine s))) in
  if is_syncing (engine s) then s' = s
  else ∃ rxs r,
    residents (sectors (mempool s)) ≡ₚ rxs ++ residents (sectors (mempool s')) ∧ mempool_ok (mempool s') ∧
    (length rxs ≤ BLOCK_LIMIT)%nat ∧ Forall (taken [drift; default 0 (head pk)]) rxs ∧
    mine_block now seed rxs (engine s) = (engine s', r) ∧
    network s' = match r with
                 | Ok (Some c) => (λ sent, sent ++ [NewCrystal (ser_crystal c) 8]) <$> network s
                 | _ => network s
                 end.
Proof.
  intros Hok. cbv zeta. unfold mining_step. destruct (is_syncing (engine s)); [done|].
  destruct (select_reactions pk _ (mempool s)) as [mp rxs] eqn:E.
  destruct (select_spec _ _ _ _ _ Hok E) as (Hok' & Hp & Hl & Ht).
  destruct (mine_block now seed rxs (engine s)) as [e' r] eqn:Em. exists rxs, r.
  destruct r as [[c|]|err]; by split_and!.
Qed.

(** ** The console *)
(** The debugging command never queues its reaction: it has no signature, which a Generic
    reaction needs for its structure to be valid. *)
Theorem inject_refused pk now s :
  len pk = PK_BYTES →
  console_inject pk now s = (s, PoolError (StructuralInvalid (InvalidSignatureLength SIG_BYTES 0))).
Proof.
  intros Hpk. unfold console_inject, queue_reaction, push, validate_structure, injected.
  cbn [sender receiver public_key new_materialized payload signature requires_signature_verification].
  by rewrite Hpk, Z.eqb_refl.
Qed.
End node.

(** ** Shutdown *)
Section shutdown.
Context {HA : Hashes} {NC : NodeCodec} {AC : AtomCodec} {CV : CryptoVerifier}.
Context (G : MptNode → Prop) (Ginj : hash_injective_on G).
Context (K : bytes → Prop) (sha3_bytes : ∀ b, Forall is_byte (sha3_256 b)).
Context (sha3_inj : ∀ a b, K a → K b → sha3_256 a = sha3_256 b → a = b).
Implicit Types (e : PrimusEngine) (t : tree) (m : gmap bytes Atom).

Lemma all_atoms_inner m : inner (all_atoms m) = m ∧ contracts (all_atoms m) = ∅.
Proof.
  assert (Hgo : ∀ l cs, NoDup l.*1 →
    inner (foldl (λ cs p, cs_insert p.1 p.2 cs) cs l) = list_to_map l ∪ inner cs ∧
    contracts (foldl (λ cs p, cs_insert p.1 p.2 cs) cs l) = contracts cs).
  { induction l as [|[k a] l IH]; intros cs Hnd; cbn [foldl].
    - cbn. by rewrite map_empty_union.
    - rewrite fmap_cons in Hnd. apply NoDup_cons in Hnd as [Hk Hnd]. cbn [fst snd].
      destruct (IH (cs_insert k a cs) Hnd) as [-> ->]. split; [|done]. cbn. rewrite <-insert_union_r, insert_union_l; [done|].
      by apply not_elem_of_list_to_map_1. }
  unfold all_atoms. destruct (Hgo (map_to_list m) cs_new (NoDup_fst_map_to_list m)) as [-> ->].
  split; [|done]. rewrite list_to_map_to_list. apply map_union_empty.
Qed.

(** Tries that commit to the same atoms have the same root. *)
Lemma commits_to_root T1 T2 t1 t2 m : commits_to G K T1 t1 m → commits_to G K T2 t2 m → mroot T1 = mroot T2.
Proof.
  intros (M1 & HI1 & HM1) (M2 & HI2 & HM2). assert (M1 = M2) as <-; [|by eapply roots_agree].
  assert (Hsub : ∀ M M', image K M m → image K M' m → M ⊆ M').
  { intros M M' H1 H2. apply map_subseteq_spec. intros k v Hv.
    destruct (im_bwd _ _ _ H1 k) as (pk & Hpk & ->); [by exists v|].
    by rewrite (im_fwd _ _ _ H2 pk Hpk), <-(im_fwd _ _ _ H1 pk Hpk). }
  apply (anti_symm (⊆)); by apply Hsub.
Qed.

(** A request for a proof is answered from the database, without the lock of the engine:
    the answer is under the node's own state root, states the account as the node holds it,
    and is accepted when the extension lengths on its path are distinct. *)
Theorem proof_served t (s : CoreHandleImpl) pk :
  node_ok G K t (engine s) → K pk →
  ∃ pr, core_on_get_proof pk s = Ok pr ∧ root pr = current_root (storage (engine s)) ∧
    value pr = ser_atom <$> state_get_atom (eng_state (engine s)) pk ∧
    (distinct_extensions (path pr) → verify_proof pr = true).
Proof using Ginj sha3_bytes sha3_inj.
  intros [Hst Ha _ _] Hpk. unfold core_on_get_proof.
  assert (open_readonly (clone_db (storage (engine s))) = storage (engine s)) as ->.
  { destruct Hst as [_ Hr Hd]. unfold open_readonly, clone_db. rewrite Hd, Hr.
    destruct (storage (engine s)) as [d [r st] sr lg]. simpl in *. subst sr. by destruct r. }
  destruct (get_proof_correct G Ginj K sha3_bytes sha3_inj _ _ pk Hst Hpk) as (pr & Hp & Hroot & Hv & Hver).
  exists pr. rewrite Hp. split_and!; [done|done| |done]. unfold state_get_atom. by rewrite Ha.
Qed.

(** A shutdown writes what is there: it ends, with every atom committed under the same
    root, the node it leaves agrees with its disk as before, and the node that is started
    on that disk has the same storage and the same state, the metrics of the chamber
    included. *)
Theorem shutdown_restart t e content :
  node_ok G K t e → atoms (eng_state e) ≠ ∅ → (∀ pk, K pk → pk ≠ []) →
  writes_ok G K t e (all_atoms (atoms (eng_state e))) →
  ∃ e' t', shutdown e = (e', Ok (current_root (storage e))) ∧ node_ok G K t' e' ∧
    atoms (eng_state e') = atoms (eng_state e) ∧
    current_crystal_index (eng_state e') = current_crystal_index (eng_state e) ∧
    global_metrics (eng_state e') = MkMetrics (ch_temperature (chamber e)) (ch_entropy (chamber e)) ∧
    ∃ e'', let st := storage e' in
      processor_new content (db st) (store (mpt st)) (gc_log st) (eng_architect_pk e) = (e'', Ok tt) ∧
      storage e'' = st ∧ eng_state e'' = eng_state e'.
Proof using Ginj sha3_bytes sha3_inj.
  intros Hok Hne HK (HKs & HG & Hroot). pose proof Hok as [[HT Hr Hd] Ha _ Htip].
  set (cs := all_atoms (atoms (eng_state e))) in *. set (i := current_crystal_index (eng_state e)).
  destruct (commit_changeset_inv G Ginj K sha3_bytes sha3_inj (storage e) t _ cs i HT HKs HG Hroot)
    as (T' & r & Hc & Hr' & HT' & _).
  destruct (all_atoms_inner (atoms (eng_state e))) as [Hin _]. fold cs in Hin.
  assert (Hsame : inner cs ∪ db_atoms (db (storage e)) = db_atoms (db (storage e))).
  { rewrite Hin, Ha. apply map_union_idemp. }
  assert (Hrr : current_root (storage e) = r).
  { rewrite Hsame in HT'. pose proof (commits_to_root _ _ _ _ _ HT HT') as H. rewrite Hr' in H.
    unfold current_root. by rewrite Hr, H. }
  set (g := MkMetrics (ch_temperature (chamber e)) (ch_entropy (chamber e))).
  set (e' := set_storage (save_global_metrics g (committed (storage e) cs i T' r))
               (set_state (set_metrics g (eng_state e)) e)).
  assert (Hs : shutdown e = (e', Ok r)).
  { unfold shutdown. cbn [set_state set_metrics eng_state storage atoms current_crystal_index global_metrics].
    fold cs i. by rewrite Hc. }
  assert (Hok' : node_ok G K (tree_after t (trie_updates cs)) e').
  { destruct (committed_ok G K (storage e) _ cs i T' r Hr' HT') as [C1 C2 C3].
    split; [by split|cbn; by rewrite Hsame|done|exact Htip]. }
  rewrite Hrr. exists e', (tree_after t (trie_updates cs)). split_and!; [done..|].
  destruct (restart_inv G K _ e' content (eng_architect_pk e) Hok' Hne HK) as (e'' & H1 & H2 & H3 & _). by exists e''.
Qed.
End shutdown.
