(* ===== verification/System.v ===== *)
(** The running node as a whole: a transition system over the core and the network state, in
    which any number of messages, spawned tasks, gossip streams, rounds of mining, commands
    of the console and background tasks run at once, section by section between the locks
    they wait for; what holds however long it runs; what stops its mining, and its
    reassembler; and how often the nodes of a network send one reaction. *)
From S2P Require Import Prelude Floats Types Mpt State Physics Pvm Crystal Chamber Storage Engine Processor.
From S2P Require Import ProcessorFacts Mining Mempool Framing Shield Dht Gossip GossipFacts Ingress IngressFacts Crypto Sdk Node NodeFacts.
Open Scope Z_scope.

(** ** Threads *)
(** Any number of calls at once, each at some place of its program, with the locks it holds.
    A step is a section of one of them, or its wait for a lock ending, or a release; a call
    begins, returns, or is given up while it waits, if its caller has set it a time. *)
Section scheduler.
Context {St : Type} (starts : bool → Async St (list Task) → Prop) (outside : St → St → Prop).

Record Thread := MkThread { holds : list LockName; timed : bool; body : Async St (list Task) }.
(** The state, the calls, and the tasks that calls have returned. *)
Record Running := MkRunning { rn_state : St; rn_threads : list Thread; rn_tasks : list Task }.
Implicit Types (s : St) (ts : list Thread) (w : Running) (p : Async St (list Task)).

Inductive sched : Running → Running → Prop :=
| sched_start t p s ts out : starts t p → sched (MkRunning s ts out) (MkRunning s (ts ++ [MkThread [] t p]) out)
| sched_section {X} h t (f : St → St * X) k s ts1 ts2 out :
    sched (MkRunning s (ts1 ++ MkThread h t (Atomic f k) :: ts2) out)
          (MkRunning (f s).1 (ts1 ++ MkThread h t (k (f s).2) :: ts2) out)
| sched_acquire h t l p s ts1 ts2 out :
    l ∉ (ts1 ++ MkThread h t (Acquire l p) :: ts2) ≫= holds →
    sched (MkRunning s (ts1 ++ MkThread h t (Acquire l p) :: ts2) out) (MkRunning s (ts1 ++ MkThread (l :: h) t p :: ts2) out)
| sched_release h t l p s ts1 ts2 out :
    sched (MkRunning s (ts1 ++ MkThread h t (Release l p) :: ts2) out)
          (MkRunning s (ts1 ++ MkThread (filter (.≠ l) h) t p :: ts2) out)
| sched_return h t a s ts1 ts2 out :
    sched (MkRunning s (ts1 ++ MkThread h t (Return a) :: ts2) out) (MkRunning s (ts1 ++ ts2) (out ++ a))
| sched_timeout h l p s ts1 ts2 out :
    sched (MkRunning s (ts1 ++ MkThread h true (Acquire l p) :: ts2) out) (MkRunning s (ts1 ++ ts2) out)
| sched_outside s s' ts out : outside s s' → sched (MkRunning s ts out) (MkRunning s' ts out).

(** What the sections of every program preserve, and what the programs are kept to. *)
Lemma sched_invariant (I : St → Prop) (T : Async St (list Task) → Prop) w w' :
  (∀ X (f : St → St * X) k s, T (Atomic f k) → I s → I (f s).1 ∧ T (k (f s).2)) →
  (∀ l p, T (Acquire l p) → T p) → (∀ l p, T (Release l p) → T p) → (∀ t p, starts t p → T p) →
  (∀ s s', outside s s' → I s → I s') →
  rtc sched w w' → I (rn_state w) → Forall (T ∘ body) (rn_threads w) → I (rn_state w') ∧ Forall (T ∘ body) (rn_threads w').
Proof.
  intros Ha Hq Hr Hs Ho. induction 1 as [w|w1 w2 w3 H _ IH]; [done|]. intros HI HT.
  assert (H2 : I (rn_state w2) ∧ Forall (T ∘ body) (rn_threads w2)); [clear IH|by apply IH; apply H2].
  destruct H as [t p s ts out Hp|X h t f k s ts1 ts2 out|h t l p s ts1 ts2 out _|h t l p s ts1 ts2 out|h t a s ts1 ts2 out|h l p s ts1 ts2 out|s s' ts out Hx];
    cbn [rn_state rn_threads] in *; rewrite ?Forall_app, ?Forall_cons in *; cbn [compose body] in *; destruct_and?;
    try (split_and!; by eauto).
  edestruct Ha as [HI' HT']; [done..|]. by split_and!.
Qed.

(** The locks a program may ask for. *)
Fixpoint uses {A} (l : LockName) (p : Async St A) : Prop :=
  match p with
  | Return _ => False
  | Atomic f k => ∃ x, uses l (k x)
  | Acquire l' p => l = l' ∨ uses l p
  | Release _ p => uses l p
  end.
Lemma uses_bind {A B} l (p : Async St A) (k : A → Async St B) : uses l (p ≫= k) → uses l p ∨ ∃ a, uses l (k a).
Proof.
  induction p as [a|X f k' IH|l' p IH|l' p IH]; cbn; [eauto|..|exact IH].
  - intros [x [H|H]%IH]; eauto.
  - intros [->|[H|H]%IH]; eauto.
Qed.

(** A call that finds its locks free may go from where it is to its end in one go. *)
Lemma sched_exec {h t} p s s' out a h' ts :
  exec None h p s = (s', Some (a, None, h')) → (∀ l, uses l p → l ∉ ts ≫= holds) →
  rtc sched (MkRunning s (ts ++ [MkThread h t p]) out) (MkRunning s' (ts ++ [MkThread h' t (Return a)]) out).
Proof.
  revert h s. induction p as [b|X f k IH|l p IH|l p IH]; intros h s He Hu; cbn in He.
  - injection He as <- <- <-. constructor.
  - eapply rtc_l; [apply sched_section|]. destruct (f s) as [s1 x]. eapply IH; [exact He|]. intros l Hl. apply Hu. by exists x.
  - case_bool_decide; [done|]. eapply rtc_l; [apply sched_acquire|eapply IH; [exact He|]].
    + rewrite bind_app. cbn. rewrite app_nil_r, elem_of_app. intros [Hin|Hin]; [|done]. by eapply (Hu l); [left|].
    + intros l' Hl'. apply Hu. by right.
  - eapply rtc_l; [apply sched_release|]. eapply IH; [exact He|done].
Qed.
Lemma sched_call t p s s' out a h' ts :
  starts t p → exec None [] p s = (s', Some (a, None, h')) → (∀ l, uses l p → l ∉ ts ≫= holds) →
  rtc sched (MkRunning s ts out) (MkRunning s' ts (out ++ a)).
Proof.
  intros Hs He Hu. eapply rtc_l; [by apply sched_start|]. etrans; [by eapply sched_exec|].
  apply rtc_once. pose proof (sched_return h' t a s' ts [] out) as H. by rewrite app_nil_r in H.
Qed.

(** Every section preserves [R]. *)
Fixpoint sections {A} (R : relation St) (p : Async St A) : Prop :=
  match p with
  | Return _ => True
  | Atomic f k => (∀ s, R s (f s).1) ∧ ∀ x, sections R (k x)
  | Acquire _ p | Release _ p => sections R p
  end.
Lemma sections_bind {A B} R (p : Async St A) (k : A → Async St B) :
  sections R p → (∀ a, sections R (k a)) → sections R (p ≫= k).
Proof. intros Hp Hk. induction p as [a|X f k' IH|l p IH|l p IH]; cbn in *; [done| |by apply IH..]. destruct Hp as [Hf Hk']. split; [done|]. intros x. by apply IH. Qed.
Lemma sections_lock {X} R l (f : St → St * X) : (∀ s, R s (f s).1) → sections R (with_lock l f).
Proof. by cbn. Qed.
Lemma sections_weaken {A} (R R' : relation St) (p : Async St A) : (∀ s s', R s s' → R' s s') → sections R p → sections R' p.
Proof. intros H. induction p as [a|X f k IH|l p IH|l p IH]; cbn; [done| |done..]. intros [Hf Hk]. split; [auto|]. intros x. by apply IH. Qed.

(** What a program returns, whatever happens between its sections. *)
Fixpoint returns {A} (Q : A → Prop) (p : Async St A) : Prop :=
  match p with
  | Return a => Q a
  | Atomic f k => ∀ s, returns Q (k (f s).2)
  | Acquire _ p | Release _ p => returns Q p
  end.
Lemma returns_bind {A B} Q (p : Async St A) (k : A → Async St B) : (∀ a, returns Q (k a)) → returns Q (p ≫= k).
Proof. intros Hk. induction p as [a|X f k' IH|l p IH|l p IH]; cbn; [done|intros s; apply IH|done..]. Qed.
Lemma returns_map {A B} (Q : B → Prop) (f : A → B) (p : Async St A) : returns (Q ∘ f) p → returns Q (f <$> p).
Proof. induction p as [a|X g k IH|l p IH|l p IH]; cbn; [done|intros H s; by apply IH|done..]. Qed.

Lemma sched_returns (Q : Task → Prop) w w' :
  (∀ t p, starts t p → returns (Forall Q) p) → rtc sched w w' →
  Forall (returns (Forall Q) ∘ body) (rn_threads w) → Forall Q (rn_tasks w) → Forall Q (rn_tasks w').
Proof.
  intros Hs. induction 1 as [w|w1 w2 w3 H _ IH]; [done|]. intros HT HQ.
  assert (H2 : Forall (returns (Forall Q) ∘ body) (rn_threads w2) ∧ Forall Q (rn_tasks w2)); [clear IH|by apply IH; apply H2].
  destruct H as [t p s ts out Hp|X h t f k s ts1 ts2 out|h t l p s ts1 ts2 out _|h t l p s ts1 ts2 out|h t a s ts1 ts2 out|h l p s ts1 ts2 out|s s' ts out Hx];
    cbn [rn_tasks rn_threads] in *; rewrite ?Forall_app, ?Forall_cons in *; cbn [compose body] in *; destruct_and?;
    split_and!; by eauto.
Qed.

(** What every section preserves, every run preserves. *)
Lemma sched_sections (R : relation St) `{!PreOrder R} w w' :
  (∀ t p, starts t p → sections R p) → (∀ s s', outside s s' → R s s') →
  rtc sched w w' → Forall (sections R ∘ body) (rn_threads w) → R (rn_state w) (rn_state w').
Proof.
  intros Hs Ho Hrun HT. apply (sched_invariant (R (rn_state w)) (sections R) w w'); try done.
  - intros X f k s [Hf Hk] HI. split; [by etrans|done].
  - intros s s' Hx HI. etrans; [done|by apply Ho].
Qed.

(** A call that waits for a lock it holds itself, and has no time set, waits for ever. *)
Definition stuck (l : LockName) (th : Thread) : Prop := l ∈ holds th ∧ timed th = false ∧ ∃ p, body th = Acquire l p.
Lemma sched_stuck l w w' : rtc sched w w' → Exists (stuck l) (rn_threads w) → Exists (stuck l) (rn_threads w').
Proof.
  induction 1 as [w|w1 w2 w3 H _ IH]; [done|]. intros Hex. apply IH. clear IH.
  destruct H as [t p s ts out Hp|X h t f k s ts1 ts2 out|h t l' p s ts1 ts2 out Hl|h t l' p s ts1 ts2 out|h t a s ts1 ts2 out|h l' p s ts1 ts2 out|s s' ts out Hx];
    cbn [rn_threads] in *; rewrite ?Exists_app, ?Exists_cons in *; try tauto;
    (destruct Hex as [Hex|[(Hh & Ht & p' & Hb)|Hex]]; [by left|exfalso|by (right; right) || by right]); cbn in *; try done.
  injection Hb as -> _. apply Hl. rewrite bind_app, bind_cons, !elem_of_app. by right; left.
Qed.

(** *** Accounts of what runs may do *)
(** A potential of the state; what the calls in progress may still spend; what is charged
    for the tasks that are returned; and steps that raise the potential, at a price each. *)
Section credit.
Context (Φ : St → nat) (calm : St → Prop) (raises : St → St → nat) (price : nat) (cost : list Task → nat).

Fixpoint owes {A} (Q : A → nat → Prop) (p : Async St A) (b : nat) : Prop :=
  match p with
  | Return a => Q a b
  | Atomic f k =>
      ∀ s, calm s → calm (f s).1 →
        ∃ b', (Φ (f s).1 + b' ≤ Φ s + b + price * raises s (f s).1)%nat ∧ owes Q (k (f s).2) b'
  | Acquire _ p | Release _ p => owes Q p b
  end.
Lemma owes_bind {A B} Q (p : Async St A) (k : A → Async St B) b :
  owes (λ a b, owes Q (k a) b) p b → owes Q (p ≫= k) b.
Proof.
  revert b. induction p as [a|X f k' IH|l p IH|l p IH]; intros b; [done| |apply IH..]. intros H s Hs Hs'.
  destruct (H s Hs Hs') as (b' & Hb & Hk). exists b'. split; [done|by apply IH].
Qed.
Lemma owes_weaken {A} (Q Q' : A → nat → Prop) (p : Async St A) b :
  (∀ a b, Q a b → Q' a b) → owes Q p b → owes Q' p b.
Proof.
  intros HQ. revert b. induction p as [a|X f k' IH|l p IH|l p IH]; intros b; [apply HQ| |apply IH..]. intros H s Hs Hs'.
  destruct (H s Hs Hs') as (b' & Hb & Hk). exists b'. split; [done|by apply IH].
Qed.
(** Sections that leave the potential alone need no credit. *)
Definition neutral (s s' : St) : Prop := (Φ s' ≤ Φ s + price * raises s s')%nat.
Lemma owes_sections {A} (Q : A → nat → Prop) (p : Async St A) b :
  sections neutral p → returns (λ a, Q a b) p → owes Q p b.
Proof.
  intros Hp HQ. induction p as [a|X f k IH|l p IH|l p IH]; cbn in Hp, HQ |- *; [done| |auto..].
  destruct Hp as [Hf Hk]. intros s _ _. exists b. split; [pose proof (Hf s) as H; unfold neutral in H; lia|by apply IH].
Qed.
Lemma owes_lock {X} (Q : X → nat → Prop) l (f : St → St * X) b :
  (∀ s, calm s → calm (f s).1 → ∃ b', (Φ (f s).1 + b' ≤ Φ s + b + price * raises s (f s).1)%nat ∧ Q (f s).2 b') →
  owes Q (with_lock l f) b.
Proof. done. Qed.

Inductive counted_run : nat → Running → Running → Prop :=
| counted_refl w : counted_run 0 w w
| counted_step k w1 w2 w3 :
    counted_run k w1 w2 → sched w2 w3 → calm (rn_state w2) → calm (rn_state w3) →
    counted_run (k + raises (rn_state w2) (rn_state w3)) w1 w3.

Lemma counted_rtc k w w' : counted_run k w w' → rtc sched w w'.
Proof. induction 1 as [w|k w1 w2 w3 _ IH H _ _]; [done|by eapply rtc_r]. Qed.
Lemma counted_credit k w w' :
  (∀ a b, cost (a ++ b) = (cost a + cost b)%nat) →
  (∀ t p, starts t p → owes (λ out b, cost out ≤ b)%nat p 0) → (∀ s s', outside s s' → neutral s s') →
  rn_threads w = [] → counted_run k w w' →
  ∃ bs, Forall2 (λ th b, owes (λ out b, cost out ≤ b)%nat (body th) b) (rn_threads w') bs ∧
    (Φ (rn_state w') + sum_list bs + cost (rn_tasks w') ≤ Φ (rn_state w) + cost (rn_tasks w) + price * k)%nat.
Proof.
  intros Hcost Hstart Hout Hnil. induction 1 as [w|k w1 w2 w3 _ IH H Hc2 Hc3]; [exists []; rewrite Hnil; split; [constructor|simpl; lia]|].
  destruct (IH Hnil) as (bs & Hbs & Hsum). clear IH.
  destruct H as [t p s ts out Hp|X h t f k' s ts1 ts2 out|h t l p s ts1 ts2 out _|h t l p s ts1 ts2 out|h t a s ts1 ts2 out|h l p s ts1 ts2 out|s s' ts out Hx];
    cbn [rn_state rn_threads rn_tasks] in *;
    try (apply Forall2_app_inv_l in Hbs as (bs1 & bs' & H1 & (b & bs2 & Hb & H2 & ->)%Forall2_cons_inv_l & ->));
    rewrite ?sum_list_with_app in *; cbn [sum_list_with id body] in *.
  - exists (bs ++ [0%nat]). split; [|rewrite sum_list_with_app; simpl; lia].
    apply Forall2_app; [done|]. constructor; [by eapply Hstart|constructor].
  - destruct (Hb s Hc2 Hc3) as (b' & Hle & Hk). exists (bs1 ++ b' :: bs2). split; [|rewrite sum_list_with_app; cbn [sum_list_with id]; lia].
    apply Forall2_app; [done|]. by constructor.
  - exists (bs1 ++ b :: bs2). split; [|rewrite sum_list_with_app; cbn [sum_list_with id]; lia]. apply Forall2_app; [done|]. by constructor.
  - exists (bs1 ++ b :: bs2). split; [|rewrite sum_list_with_app; cbn [sum_list_with id]; lia]. apply Forall2_app; [done|]. by constructor.
  - exists (bs1 ++ bs2). split; [by apply Forall2_app|]. rewrite sum_list_with_app, Hcost. cbn in Hb. lia.
  - exists (bs1 ++ bs2). split; [by apply Forall2_app|]. rewrite sum_list_with_app. lia.
  - exists bs. split; [done|]. pose proof (Hout _ _ Hx) as Hn. unfold neutral in Hn. lia.
Qed.

(** An uninterrupted call at calm times, in a run that is counted. *)
Fixpoint steady {A} `{∀ s, Decision (calm s)} (p : Async St A) (s : St) : bool :=
  bool_decide (calm s) &&
  match p with
  | Return _ => true
  | Atomic f k => (raises s (f s).1 =? 0)%nat && steady (k (f s).2) (f s).1
  | Acquire _ p | Release _ p => steady p s
  end.
Lemma steady_calm {A} `{∀ s, Decision (calm s)} (p : Async St A) s : steady p s = true → calm s.
Proof. destruct p; cbn; intros [Hc _]%andb_true_iff; by apply bool_decide_eq_true in Hc. Qed.
Lemma counted_exec `{∀ s, Decision (calm s)} {h t} p s s' out a h' w :
  (∀ s, raises s s = 0%nat) → exec None h p s = (s', Some (a, None, h')) → steady p s = true →
  counted_run 0 w (MkRunning s [MkThread h t p] out) → counted_run 0 w (MkRunning s' [] (out ++ a)).
Proof.
  intros Hr. revert h s. induction p as [b|X f k IH|l p IH|l p IH]; intros h s He Hst Hrun; cbn in He, Hst;
    apply andb_true_iff in Hst as [Hc%bool_decide_eq_true Hst].
  - injection He as <- <- <-. rewrite <-(Hr s). change 0%nat with (0 + 0)%nat. rewrite <-(Nat.add_0_l (raises s s)).
    apply (counted_step 0 w _ (MkRunning s [] (out ++ b)) Hrun); [exact (sched_return h t b s [] [] out)|done..].
  - apply andb_true_iff in Hst as [H0%Nat.eqb_eq Hst]. destruct (f s) as [s1 x] eqn:Ef. cbn [fst snd] in *.
    eapply IH; [exact He|exact Hst|]. rewrite <-H0. rewrite <-(Nat.add_0_l (raises s s1)).
    apply (counted_step 0 w _ (MkRunning s1 [MkThread h t (k x)] out) Hrun); [|done|by apply (steady_calm (k x))].
    pose proof (sched_section h t f k s [] [] out) as Hx. by rewrite Ef in Hx.
  - case_bool_decide as Hl; [done|]. eapply IH; [exact He|exact Hst|]. rewrite <-(Hr s), <-(Nat.add_0_l (raises s s)).
    apply (counted_step 0 w _ (MkRunning s [MkThread (l :: h) t p] out) Hrun); [|done..].
    apply (sched_acquire h t l p s [] [] out). cbn. by rewrite app_nil_r.
  - eapply IH; [exact He|exact Hst|]. rewrite <-(Hr s), <-(Nat.add_0_l (raises s s)).
    apply (counted_step 0 w _ (MkRunning s [MkThread (filter (.≠ l) h) t p] out) Hrun); [|done..].
    exact (sched_release h t l p s [] [] out).
Qed.
Lemma counted_call `{∀ s, Decision (calm s)} t p s s' out a h' w :
  (∀ s, raises s s = 0%nat) → starts t p → exec None [] p s = (s', Some (a, None, h')) → steady p s = true →
  counted_run 0 w (MkRunning s [] out) → counted_run 0 w (MkRunning s' [] (out ++ a)).
Proof.
  intros Hr Hs He Hst Hrun. eapply counted_exec; [done|exact He|exact Hst|].
  pose proof (steady_calm p s Hst) as Hc. rewrite <-(Hr s), <-(Nat.add_0_l (raises s s)).
  apply (counted_step 0 w _ (MkRunning s [MkThread [] t p] out) Hrun); [exact (sched_start t p s [] out Hs)|done..].
Qed.
End credit.
End scheduler.
Arguments Thread : clear implicits.
Arguments Running : clear implicits.

(** ** What changes the accounts *)
Section accounts.
Context {HA : Hashes} {NC : NodeCodec} {AC : AtomCodec} {CV : CryptoVerifier}.
Implicit Types (e : PrimusEngine) (c : Crystal).

(** What the accounts depend on: the atoms in memory, the undo logs and the contracts on disk. *)
Record Ledger := MkLedger { ld_atoms : gmap bytes Atom; ld_undo : gmap Z UndoLog; ld_code : gmap bytes bytes }.
Definition ledger e : Ledger :=
  MkLedger (atoms (eng_state e)) (db_undo (db (storage e))) (db_contracts (db (storage e))).

(** A batch that the machine accepts on the ledger as it stands is written together with its
    undo log, or leaves its contracts behind when the crystal's root is not the one computed;
    recorded crystals are undone, by their logs; logs that are too old are forgotten. *)
Inductive ledger_step (architect : bytes) : Ledger → Ledger → Prop :=
| ledger_batch e rxs cs heat i root :
    eng_architect_pk e = architect → engine_execute e rxs = Ok (cs, heat) →
    ledger_step architect (ledger e)
      (MkLedger (inner cs ∪ atoms (eng_state e))
         (<[i := make_undo i root (atoms (eng_state e)) cs]> (db_undo (db (storage e))))
         (contracts cs ∪ db_contracts (db (storage e))))
| ledger_refused e rxs cs heat :
    eng_architect_pk e = architect → engine_execute e rxs = Ok (cs, heat) →
    ledger_step architect (ledger e)
      (MkLedger (atoms (eng_state e)) (db_undo (db (storage e))) (contracts cs ∪ db_contracts (db (storage e))))
| ledger_undo e ancestor n logs :
    collect_undo (storage e) ancestor n = Ok logs →
    ledger_step architect (ledger e)
      (MkLedger (rollback_atoms (atoms (eng_state e)) logs)
         (foldl (λ m p, delete p.1 m) (db_undo (db (storage e))) logs) (db_contracts (db (storage e))))
| ledger_forget l i : ledger_step architect l (MkLedger (ld_atoms l) (delete i (ld_undo l)) (ld_code l)).

Definition accounts_follow e e' : Prop :=
  eng_architect_pk e' = eng_architect_pk e ∧ rtc (ledger_step (eng_architect_pk e)) (ledger e) (ledger e').

#[export] Instance accounts_follow_refl : Reflexive accounts_follow.
Proof. intros e. by split. Qed.
#[export] Instance accounts_follow_trans : Transitive accounts_follow.
Proof. intros e1 e2 e3 [P1 A1] [P2 A2]. rewrite P1 in A2. split; [by rewrite P2|by etrans]. Qed.

Lemma follow_same e e' : eng_architect_pk e' = eng_architect_pk e → ledger e' = ledger e → accounts_follow e e'.
Proof. intros Hp Ha. split; [done|]. by rewrite Ha. Qed.

Lemma prune_forgets architect m st h :
  let led st := MkLedger m (db_undo (db st)) (db_contracts (db st)) in
  rtc (ledger_step architect) (led st) (led (prune_undo_window st h)).
Proof.
  cbv zeta. unfold prune_undo_window. destruct (_ <=? _); [done|]. generalize (seqZ 0 (h - UNDO_WINDOW)). intros l.
  revert st; induction l as [|i l IH]; intros st; [done|]. cbn [foldl]. eapply rtc_l; [|apply IH].
  rewrite prune_one_db. exact (ledger_forget _ (MkLedger _ _ _) i).
Qed.

(** The commit of an accepted batch, and the writes of the solidification. *)
Lemma commit_ledger e cs i st r :
  commit_changeset (storage e) cs i = (st, Ok r) →
  ledger (set_storage st e) =
    MkLedger (atoms (eng_state e)) (db_undo (db (storage e))) (contracts cs ∪ db_contracts (db (storage e))).
Proof. intros (T & -> & _)%commit_Ok_inv. done. Qed.
Lemma solidify_ledger architect e cs heat root c :
  rtc (ledger_step architect)
    (MkLedger (inner cs ∪ atoms (eng_state e))
       (<[index c := make_undo (index c) root (atoms (eng_state e)) cs]> (db_undo (db (storage e))))
       (db_contracts (db (storage e))))
    (ledger (solidify e cs heat root c)).
Proof.
  unfold ledger. rewrite (proj1 (solidify_state _ _ _ _ _)). unfold solidify. cbn [storage set_chamber set_state set_storage].
  set (st := save_crystal _ _).
  assert (db_undo (db st) = <[index c := make_undo (index c) root (atoms (eng_state e)) cs]> (db_undo (db (storage e)))) as <-
    by (simpl; by destruct (make_undo_index (index c) root (atoms (eng_state e)) cs) as [-> _]).
  apply (prune_forgets architect _ st).
Qed.

Lemma finalize_follow e c : accounts_follow e (finalize_solidification e c).1.
Proof.
  set (e1 := set_state (set_index (index c) (eng_state e)) e).
  destruct (finalize_solidification e c) as [e' [c'|err]] eqn:Hf; cbn [fst].
  - apply finalize_Ok_inv in Hf as (cs & ce & st & r & Hx & Hc & -> & ->). split; [done|].
    apply (commit_ledger e1) in Hc. injection Hc as Hu Hd.
    eapply rtc_l; [exact (ledger_batch (eng_architect_pk e) e1 _ _ _ (index c) (current_root (storage e)) eq_refl Hx)|].
    change (storage e1) with (storage e) in *. rewrite <-Hd, <-Hu.
    apply (solidify_ledger _ (set_storage st e1) cs ce (current_root (storage e)) (set_state_root r c)).
  - unfold finalize_solidification in Hf. destruct (engine_execute _ _) as [[cs ce]|] eqn:Hx; [|by injection Hf as <-].
    destruct (commit_changeset _ _ _) as [st [r|]] eqn:Hc.
    + apply (commit_ledger e1) in Hc. do 2 (case_bool_decide; [done|]). injection Hf as <- _. split; [done|].
      apply rtc_once. change (ledger_step (eng_architect_pk e) (ledger e1) (ledger (set_storage st e1))).
      rewrite Hc. exact (ledger_refused _ e1 _ _ _ eq_refl Hx).
    + injection Hf as <- _. apply follow_same; [done|]. unfold commit_changeset in Hc.
      destruct (insert_all _ _) as [T [[]|]]; [done|]. by injection Hc as <- _.
Qed.

Lemma apply_chain_follow e chain : accounts_follow e (apply_chain e chain).1.
Proof.
  revert e; induction chain as [|c chain IH]; intros e; [done|]. cbn [apply_chain].
  destruct (verify_pow e c); [|done]. pose proof (finalize_follow e c) as Hf.
  destruct (finalize_solidification e c) as [e1 [c1|err]]; [|done]. by etrans.
Qed.

Lemma reorg_follow e chain : accounts_follow e (perform_reorg e chain).1.
Proof.
  unfold perform_reorg. destruct (sort_by_index chain) as [|base rest]; [done|]. cbv zeta.
  destruct (_ <? _); [done|]. set (ancestor := find_ancestor _ _ _).
  destruct (collect_undo (storage e) ancestor _) as [logs|err] eqn:Hl; [|done].
  assert (Hr : accounts_follow e (rollback e logs ancestor))
    by (split; [done|]; apply rtc_once; exact (ledger_undo _ e _ _ _ Hl)).
  pose proof (apply_chain_follow (rollback e logs ancestor) (base :: rest)) as Hc.
  destruct (apply_chain _ _) as [e1 [[]|err]]; cbn [fst] in *; [|by etrans].
  etrans; [exact Hr|]. etrans; [exact Hc|]. by apply follow_same.
Qed.

Lemma accept_follow e c : accounts_follow e (accept_crystal e c).1.
Proof.
  unfold accept_crystal. destruct (verify_pow e c); [|done]. pose proof (finalize_follow e c) as Hf.
  by destruct (finalize_solidification e c).
Qed.

Lemma crystal_follow e c : accounts_follow e (process_network_crystal e c).1.
Proof.
  unfold process_network_crystal. destruct (get_crystal_latest (storage e)) as [l|]; [|apply accept_follow]. cbv zeta.
  repeat case_match; try done; (apply accept_follow || apply reorg_follow).
Qed.

Lemma mine_follow `{Libm} now seed rxs e : accounts_follow e (mine_block now seed rxs e).1.
Proof.
  unfold mine_block. destruct (prepare_block now seed rxs e) as [e1 c1] eqn:Hp.
  destruct (prepare_block_spec _ _ _ _ _ _ Hp) as (P1 & P2 & P3 & _).
  assert (H1 : accounts_follow e e1) by (apply follow_same; [done|unfold ledger; by rewrite P1, P2]).
  destruct (solve _ _ _ c1) as [[] c2]; [|done]. pose proof (finalize_follow e1 c2) as Hf.
  destruct (finalize_solidification e1 c2) as [e2 [c3|err]]; by etrans.
Qed.
End accounts.

(** ** The core *)
Section core.
Context {HA : Hashes} {NC : NodeCodec} {AC : AtomCodec} {CV : CryptoVerifier} {LM : Libm} {RC : ReactionCodec}
        {RK : Rkyv} {EC : EnvelopeCodec} {CC : CrystalCodec} {MD : MlDsa87} {HX : Hex}.
Implicit Types (s : CoreHandleImpl) (e : PrimusEngine).

Definition clocks_ok (ck : Clocks) : Prop := is_u64 (unix_secs ck).

(** What runs on the core besides the calls of the network: gossip streams, reactions handed
    in directly, background work, the miner, the console. *)
Inductive core_program : Async CoreHandleImpl unit → Prop :=
| prog_gossip ck b : clocks_ok ck → core_program ((λ _, tt) <$> ingress_program ck b)
| prog_reaction rx : core_program (with_lock LEngine (λ s, ((on_reaction rx s).1, tt)))
| prog_target height : core_program (with_lock LEngine (λ s, (core_set_sync_target height s, tt)))
| prog_gc now : core_program (with_lock LReassembler (λ s, (reassembler_gc now s, tt)))
| prog_mine no_mining pk now seed : core_program (mining_program no_mining pk now seed)
| prog_send now w legacy pk cmd : is_u64 now → core_program ((λ _, tt) <$> send_program now w legacy pk cmd)
| prog_inject pk now : is_u64 now → core_program (with_lock LMempool (λ s, ((console_inject pk now s).1, tt))).

(** *** Relations that the calls preserve *)
Section preserved.
Context (R : relation CoreHandleImpl) `{!PreOrder R}.

(** The sections of which the calls are made, those that pool a reaction or announce one
    apart, and those of the miner. *)
Record preserved_by_calls : Prop := {
  pres_drop s : R s (drop_frame s);
  pres_streams streams s : R s (set_reassembler streams s);
  pres_crystal b s : R s (take_crystal b s).1;
  pres_reaction rx s : R s (on_reaction rx s).1;
  pres_target height s : R s (core_set_sync_target height s);
}.
Record preserved_by_mining : Prop := {
  pres_select pk s : R s (select_section pk s).1;
  pres_mine now seed rxs s : R s (mine_section now seed rxs s).1;
}.
Record preserved_by_pooling : Prop := {
  pres_broadcast m s : R s (broadcast m s);
  pres_push now rx s mp is_new : is_u64 now → push now (mempool s) rx = Ok (mp, is_new) → R s (set_mempool mp s);
}.
Context (HC : preserved_by_calls).

Lemma drop_sections {A} (a : A) : sections R (drop_section a).
Proof using HC. split; [apply (pres_drop HC)|done]. Qed.
Lemma ask_sections {X} l (f : CoreHandleImpl → X) : sections R (ask l f).
Proof using PreOrder0. apply sections_lock. by intros s. Qed.
Lemma feed_sections ck env s : R s (feed_section ck env s).1.
Proof using HC. unfold feed_section. destruct (feed _ _ _ _). apply (pres_streams HC). Qed.

Lemma crystal_sections ck b : sections R (crystal_program ck b).
Proof using HC.
  unfold crystal_program. generalize 2%nat as depth. intros depth. revert b.
  induction depth as [|depth IH]; intros b; [done|]. cbn [crystal_calls]. unfold crystal_body.
  destruct (de_envelope b) as [env|].
  - change (sections R (r ← atomically (feed_section ck env); r ← match r with
            | Ok (Some full_message) => crystal_calls depth ck full_message
            | Ok None => mret (Ok tt)
            | Err _ => drop_section (Ok tt)
            end; Release LReassembler (mret r))).
    apply sections_bind; [split; [apply feed_sections|done]|]. intros r. apply sections_bind; [|done].
    destruct r as [[full|]|err]; [apply IH|done|apply drop_sections].
  - destruct (de_crystal b); [|done]. apply sections_lock, (pres_crystal HC).
Qed.
Lemma mining_sections no_mining pk now seed :
  preserved_by_mining → (∀ c s, R s (broadcast (NewCrystal c 8) s)) → sections R (mining_program no_mining pk now seed).
Proof using PreOrder0.
  intros HM Hb. unfold mining_program. destruct no_mining; [done|]. cbn [sections]. apply sections_bind; [by split|]. intros [].
  - done.
  - apply sections_bind; [apply sections_lock, (pres_select HM)|]. intros rxs.
    apply sections_bind; [split; [apply (pres_mine HM)|done]|]. intros mined.
    apply sections_bind; [|done]. destruct mined; [|done]. split; [|done]. intros s. apply Hb.
Qed.
Lemma send_sections now w legacy pk cmd :
  (∀ rx s, R s (queue_reaction now rx s).1) → sections R (send_program now w legacy pk cmd).
Proof using PreOrder0.
  intros Hq. apply sections_bind; [apply ask_sections|]. intros [rx|]; [|done]. apply sections_lock. intros s. apply Hq.
Qed.

Context (HP : preserved_by_pooling).
Lemma broadcast_sections b : sections R (broadcast_section b).
Proof using HP. apply sections_lock. intros s. apply (pres_broadcast HP). Qed.
Lemma push_sections ck rx : clocks_ok ck → sections R (with_lock LMempool (push_section ck rx)).
Proof using HP PreOrder0.
  intros Hck. apply sections_lock. intros s. unfold push_section.
  destruct (push _ _ _) as [[mp b]|err] eqn:Hp; [by eapply (pres_push HP)|done].
Qed.
Lemma admit_sections ck b rx : clocks_ok ck → sections R (admit_program ck b rx).
Proof using HC HP PreOrder0.
  intros Hck. apply sections_bind; [by apply push_sections|]. intros [[]|]; [|done..].
  apply sections_bind; [apply ask_sections|]. intros _. apply sections_bind; [apply broadcast_sections|done].
Qed.
Lemma ingest_sections ck b : clocks_ok ck → sections R (ingest_program ck b).
Proof using HC HP PreOrder0.
  intros Hck. unfold ingest_program. destruct (from_bytes_zero_copy _ _); [|apply drop_sections].
  destruct (rkyv_deserialize _); [|done]. apply sections_bind; [apply ask_sections|]. intros arch.
  apply sections_bind; [destruct arch; [done|apply ask_sections]|]. intros []; [by apply admit_sections|apply drop_sections].
Qed.
Lemma push_program_sections ck b : clocks_ok ck → sections R (push_program ck b).
Proof using HC HP PreOrder0.
  intros Hck. unfold push_program. destruct (_ <? _); [apply drop_sections|].
  destruct (check_archived_root b); [by apply ingest_sections|]. destruct (de_envelope b); [|by apply ingest_sections].
  apply sections_bind; [apply sections_lock, feed_sections|].
  intros [[full|]|err]; [by apply ingest_sections|done|apply drop_sections].
Qed.
Lemma ingress_sections ck b : clocks_ok ck → sections R (ingress_program ck b).
Proof using HC HP PreOrder0.
  intros Hck. unfold ingress_program. destruct (_ <? _); [done|]. destruct (from_bytes_zero_copy _ _); [|done].
  destruct (rkyv_deserialize _); [|done]. apply sections_bind; [by apply push_sections|]. intros [is_new|]; [|done].
  apply sections_bind; [destruct is_new; [apply broadcast_sections|done]|done].
Qed.
Lemma queue_preserved now rx s : is_u64 now → R s (queue_reaction now rx s).1.
Proof using HC HP PreOrder0.
  intros Hn. unfold queue_reaction. destruct (push _ _ _) as [[mp []]|err] eqn:Hp; [by eapply (pres_push HP)..|done].
Qed.
(** Whatever runs on the core. *)
Lemma core_program_sections p : preserved_by_mining → core_program p → sections R p.
Proof using HC HP PreOrder0.
  intros HM. destruct 1 as [ck b Hck|rx|h|now|nm pk now seed|now w legacy pk cmd Hn|pk now Hn].
  - apply sections_bind; [by apply ingress_sections|done].
  - apply sections_lock. intros s. apply (pres_reaction HC).
  - apply sections_lock. intros s. apply (pres_target HC).
  - apply sections_lock. intros s. apply (pres_streams HC).
  - apply mining_sections; [done|]. intros c s. apply (pres_broadcast HP).
  - apply sections_bind; [|done]. apply send_sections. intros rx s. by apply queue_preserved.
  - apply sections_lock. intros s. by apply queue_preserved.
Qed.
End preserved.

(** *** The ledger and the pool *)
Definition core_keeps s s' : Prop :=
  (mempool_ok (mempool s) → mempool_ok (mempool s')) ∧ accounts_follow (engine s) (engine s').
#[export] Instance core_keeps_refl : Reflexive core_keeps.
Proof. intros s. by split. Qed.
#[export] Instance core_keeps_trans : Transitive core_keeps.
Proof. intros s1 s2 s3 [M1 A1] [M2 A2]. split; [auto|by etrans]. Qed.
#[export] Instance core_keeps_preorder : PreOrder core_keeps.
Proof. split; apply _. Qed.
Lemma keeps_same s s' : mempool s' = mempool s → engine s' = engine s → core_keeps s s'.
Proof. intros Hm He. split; [by rewrite Hm|by rewrite He]. Qed.
Lemma keeps_engine s s' : mempool s' = mempool s → accounts_follow (engine s) (engine s') → core_keeps s s'.
Proof. intros Hm He. split; [by rewrite Hm|done]. Qed.

Lemma core_keeps_calls : preserved_by_calls core_keeps.
Proof.
  split.
  - intros s. by apply keeps_same.
  - intros streams s. by apply keeps_same.
  - intros b s. unfold take_crystal. destruct (de_crystal b) as [c|]; [|done].
    pose proof (crystal_follow (engine s) c) as Hf. destruct (process_network_crystal (engine s) c) as [e r].
    by apply keeps_engine.
  - intros rx s. unfold on_reaction. destruct (process_network_reaction (engine s) rx) as [e r] eqn:Hr. cbn [fst].
    apply keeps_engine; [done|]. unfold process_network_reaction in Hr.
    destruct (_ && _); [by injection Hr as <- _|]. destruct (should_engage_gravity_shield _); injection Hr as <- _; [done|].
    by apply follow_same.
  - intros h s. apply keeps_engine; [done|by apply follow_same].
Qed.
Lemma core_keeps_pooling : preserved_by_pooling core_keeps.
Proof.
  split; [intros m s; by apply keeps_same|]. intros now rx s mp b Hn Hp. split; [|done]. intros Hok. by eapply push_ok.
Qed.
Lemma core_keeps_mining : preserved_by_mining core_keeps.
Proof.
  split.
  - intros pk s. unfold select_section. destruct (select_reactions _ _ _) as [mp rxs] eqn:Es. split; [|done].
    intros Hok. by destruct (select_spec _ _ _ _ _ Hok Es).
  - intros now seed rxs s. unfold mine_section. pose proof (mine_follow now seed rxs (engine s)) as Hf.
    destruct (mine_block now seed rxs (engine s)) as [e r]. by apply keeps_engine.
Qed.

(** *** The flag of synchronisation *)
(** A node that synchronises goes on doing so. *)
Definition stays_syncing s s' : Prop := is_syncing (engine s) = true → is_syncing (engine s') = true.
#[export] Instance stays_syncing_preorder : PreOrder stays_syncing.
Proof. split; [intros s H; exact H|intros s1 s2 s3 H1 H2 H; exact (H2 (H1 H))]. Qed.
Lemma stays_same s s' : is_syncing (engine s') = is_syncing (engine s) → stays_syncing s s'.
Proof. by intros H Hs; rewrite H. Qed.
Lemma stays_syncing_calls : preserved_by_calls stays_syncing.
Proof.
  split; try (intros; by apply stays_same).
  - intros b s. apply stays_same. unfold take_crystal. destruct (de_crystal b) as [c|]; [|done].
    destruct (crystal_settings (engine s) c) as (_ & Hs & _). by destruct (process_network_crystal (engine s) c).
  - intros rx s. apply stays_same. unfold on_reaction.
    destruct (process_network_reaction (engine s) rx) as [e r] eqn:Hr. cbn [fst].
    unfold process_network_reaction in Hr. destruct (_ && _); [by injection Hr as <- _|].
    by destruct (should_engage_gravity_shield _); injection Hr as <- _.
  - by intros h s _.
Qed.
Lemma stays_syncing_pooling : preserved_by_pooling stays_syncing.
Proof. split; intros; by apply stays_same. Qed.
Lemma prepare_syncing now seed rxs e : is_syncing (prepare_block now seed rxs e).1 = is_syncing e.
Proof.
  assert (Hinj : is_syncing (foldl (λ e rx, set_chamber (inject_reaction rx (chamber e)) e) e rxs) = is_syncing e).
  { revert e; induction rxs as [|rx rxs IH]; intros e; [done|]. exact (IH (set_chamber (inject_reaction rx (chamber e)) e)). }
  unfold prepare_block, prepare_next_physical_state. cbv zeta. set (e1 := foldl _ e rxs) in *.
  destruct (get_crystal_latest (storage e1)) as [b|]; unfold synthesize_with_gravity; cbv zeta;
    destruct (synthesis_loop _ _ _ _ _) as [candidates en']; unfold update_epoch; by destruct (_ && _).
Qed.
Lemma stays_syncing_mining : preserved_by_mining stays_syncing.
Proof.
  split.
  - intros pk s. apply stays_same. unfold select_section. by destruct (select_reactions _ _ _).
  - intros now seed rxs s. apply stays_same. unfold mine_section, mine_block.
    pose proof (prepare_syncing now seed rxs (engine s)) as Hp.
    destruct (prepare_block now seed rxs (engine s)) as [e1 c1]. destruct (solve _ _ _ c1) as [[] c2]; [|exact Hp].
    destruct (finalize_settings e1 c2) as (_ & Hs & _). destruct (finalize_solidification e1 c2) as [e2 [c3|]];
      cbn in *; by rewrite Hs.
Qed.
End core.

(** ** The calls of the network, whatever the core *)
(** On the core of the network's state. *)
Definition on_core {C} (R : relation C) (n n' : Network C) : Prop := R (net_core n) (net_core n').

Section network.
Context {HA : Hashes} {MC : MessageCodec} {C : Type} {CH : CoreHandle C}.
Context (iter_seen : gset bytes → list bytes) (show : SocketAddr → bytes) (filter_bytes : bytes → result SignedReaction bytes).
(** A relation of the network's states that holds of calls of the core that preserve [R],
    and of what else the handlers change. *)
Context (R : relation C) (N : relation (Network C)) `{!PreOrder N}.
Context (N_core : ∀ n c, R (net_core n) c → N n (Gossip.set_core c n)) (N_dht : ∀ n d, N n (set_dht d n)).
Context (R_crystal : ∀ b, sections R (on_crystal b)) (R_target : ∀ h c, R c (set_sync_target h c)).
Implicit Types n : Network C.

Lemma in_core_sections {A} (p : Async C A) : sections R p → sections N (in_core p).
Proof using N_core.
  induction p as [a|X f k IH|l p IH|l p IH]; cbn; [done| |done..]. intros [Hf Hk]. split.
  - intros n. pose proof (N_core n _ (Hf (net_core n))) as H. by destruct (f (net_core n)).
  - intros x. by apply IH.
Qed.
Lemma read_sections {X} l (f : Network C → X) : sections N (with_lock l (λ n, (n, f n))).
Proof using PreOrder0. apply sections_lock. by intros n. Qed.
Lemma tell_core_sections f : (∀ c, R c (f c)) → sections N (tell_core f).
Proof using N_core. intros Hf. apply sections_lock. intros n. by apply N_core. Qed.

Lemma take_crystals_sections l : sections N (take_crystals l).
Proof using R_crystal N_core. induction l as [|b l IH]; [done|]. apply sections_bind; [by apply in_core_sections|done]. Qed.
Lemma fetch_sections l : sections N (fetch_crystals l).
Proof using PreOrder0.
  induction l as [|i l IH]; [done|]. apply sections_bind; [apply read_sections|]. intros b.
  apply sections_bind; [exact IH|done].
Qed.
(** Every message but the one that submits a reaction, unless pushes preserve the relation
    too, and the one that may end a synchronisation. *)
Lemma message_sections peer_ip m :
  (∀ b, m = SubmitReaction b → sections R (push_bytes b) ∧ ∀ n, N n (add_drop n)) →
  (∀ l, m ≠ MSync (InventoryResponse l)) → sections N (on_message show filter_bytes peer_ip m).
Proof using PreOrder0 R_crystal R_target N_core N_dht.
  intros Hsub Hm. destruct m as [| |v nm height te lp| |ps|d ttl|d ttl|i|data|sm|a|? ? ? ?|rb|?|?|a|?]; cbn [on_message];
    try (apply sections_bind; [apply read_sections|done]); try done.
  - apply sections_bind; [|done]. unfold on_handshake. apply sections_bind; [apply sections_lock; intros n; apply N_dht|]. intros _.
    apply sections_bind; [apply read_sections|]. intros [[h e] cum]. destruct (_ || _); [|done].
    apply sections_bind; [|done]. destruct (_ <? _); [apply tell_core_sections, R_target|done].
  - apply sections_bind; [by apply in_core_sections|done].
  - apply sections_bind; [|done]. destruct sm as [st|lo hi|crystals]; [..|by destruct (Hm crystals)]; cbn [on_sync].
    + apply sections_bind; [apply read_sections|]. intros [[h e] cum]. destruct (is_more_dominant_than _ _); [|done].
      apply sections_bind; [apply tell_core_sections, R_target|done].
    + apply fetch_sections.
  - destruct (Hsub rb eq_refl) as [Hp Hd]. apply sections_bind; [|done]. unfold on_submit. destruct (filter_bytes rb).
    + apply sections_bind; [by apply in_core_sections|done].
    + by split.
Qed.
(** That one too, if the end of a synchronisation preserves the relation. *)
Lemma inventory_sections peer_ip l :
  (∀ c, R c (finish_sync c)) → sections N (on_message show filter_bytes peer_ip (MSync (InventoryResponse l))).
Proof using PreOrder0 R_crystal N_core.
  intros Hf. apply sections_bind; [|done]. apply sections_bind; [apply take_crystals_sections|]. intros _.
  apply sections_bind; [apply read_sections|]. intros syncing. apply sections_bind; [|done].
  destruct syncing; [done|by apply tell_core_sections].
Qed.

Context (R_push : ∀ b, sections R (push_bytes b)) (N_seen : ∀ n seen, N n (set_seen seen n)).
Lemma spread_sections m src : sections N (on_spread iter_seen show m src).
Proof using PreOrder0 N_seen.
  unfold on_spread. destruct (lifetime m) as [[ttl d]|]; [|done]. destruct (ttl =? 0); [done|].
  apply sections_bind.
  - apply sections_lock. intros n. unfold mark_seen. case_bool_decide; [done|apply N_seen].
  - intros []; [|done]. apply read_sections.
Qed.
Lemma task_sections peer_ip t : sections N (on_task iter_seen show peer_ip t).
Proof using PreOrder0 N_core R_crystal R_push N_seen.
  destruct t; cbn [on_task]; try done; (apply sections_bind; [by apply in_core_sections|]); intros r; [..|done|done].
  all: apply sections_bind; [by split|]; intros gossip; destruct (_ && _); [apply spread_sections|done].
Qed.
End network.

(** ** The flood of a reaction *)
Lemma filter_length_le {A} (P P' : A → Prop) `{∀ x, Decision (P x), ∀ x, Decision (P' x)} (l : list A) :
  (∀ x, P' x → P x) → (length (filter P' l) ≤ length (filter P l))%nat.
Proof.
  intros HP. induction l as [|x l IH]; [done|]. rewrite !filter_cons.
  destruct (decide (P' x)), (decide (P x)); simpl; try lia. naive_solver.
Qed.
Lemma filter_length_lt {A} (P P' : A → Prop) `{∀ x, Decision (P x), ∀ x, Decision (P' x)} (l : list A) y :
  (∀ x, P' x → P x) → y ∈ l → P y → ¬ P' y → (S (length (filter P' l)) ≤ length (filter P l))%nat.
Proof.
  intros HP Hy H1 H2. apply list_elem_of_split in Hy as (l1 & l2 & ->). rewrite !filter_app, !length_app.
  rewrite (filter_cons_True P), (filter_cons_False P') by done. pose proof (filter_length_le P P' l1 HP). pose proof (filter_length_le P P' l2 HP).
  simpl. lia.
Qed.

Section pooling.
Context {HA : Hashes} {NC : NodeCodec} {AC : AtomCodec} {CV : CryptoVerifier} {LM : Libm} {RC : ReactionCodec}
        {RK : Rkyv} {EC : EnvelopeCodec} {CC : CrystalCodec} {MD : MlDsa87} {HX : Hex}.
(** The bytes of a reaction, the reaction, and a number of peers. *)
Context (d : bytes) (rx : SignedReaction) (D : nat).
Implicit Types (s : CoreHandleImpl).

Definition carries (m : PrimusMessage) : bool :=
  match m with NewReaction b _ => bool_decide (b = d) | _ => false end.
(** The messages about it that were handed to the network for all peers. *)
Definition announced (sent : list PrimusMessage) : nat := length (filter (λ m, carries m = true) sent).
Definition broadcasts s : nat := announced (default [] (network s)).
Definition pooled s : bool :=
  bool_decide (is_Some (sectors (mempool s) !! sector_of rx ≫= λ sec, data_tree sec !! reaction_hash rx)).
Definition let_go s s' : nat := if pooled s && negb (pooled s') then 1 else 0.
(** Every broadcast sends to [D] peers at most; the pool may take the reaction once, and
    once more each time it lets it go. *)
Definition pool_potential s : nat := D * (broadcasts s + if pooled s then 0 else 1).
Abbreviation core_owes := (owes pool_potential (λ _, True) let_go D).

Definition no_more s s' : Prop := (broadcasts s' ≤ broadcasts s)%nat.
#[export] Instance no_more_preorder : PreOrder no_more.
Proof. split; [intros s|intros s1 s2 s3]; unfold no_more; lia. Qed.
Lemma no_more_neutral s s' : no_more s s' → neutral pool_potential let_go D s s'.
Proof.
  unfold no_more, neutral, pool_potential, let_go. intros H.
  assert (broadcasts s' + (if pooled s' then 0 else 1) ≤ broadcasts s + (if pooled s then 0 else 1) +
            (if pooled s && negb (pooled s') then 1 else 0))%nat as Hle by (destruct (pooled s), (pooled s'); simpl; lia).
  rewrite <-Nat.mul_add_distr_l. by apply Nat.mul_le_mono_l.
Qed.
Lemma no_more_same s s' : network s' = network s → no_more s s'.
Proof. unfold no_more, broadcasts. by intros ->. Qed.
Lemma no_more_calls : preserved_by_calls no_more.
Proof.
  split; intros; apply no_more_same; try done.
  - unfold take_crystal. destruct (de_crystal b); [|done]. by destruct (process_network_crystal _ _).
  - unfold on_reaction. by destruct (process_network_reaction _ _).
Qed.
Lemma no_more_mining : preserved_by_mining no_more.
Proof.
  split; intros; apply no_more_same.
  - unfold select_section. by destruct (select_reactions _ _ _).
  - unfold mine_section. by destruct (mine_block _ _ _ _).
Qed.
Lemma no_more_queue now r s : no_more s (queue_reaction now r s).1.
Proof. apply no_more_same. unfold queue_reaction. by destruct (push _ _ _) as [[mp []]|]. Qed.
Lemma no_more_broadcast m s : carries m = false → no_more s (broadcast m s).
Proof.
  intros Hm. unfold no_more, broadcasts, announced. cbn [broadcast network]. destruct (network s) as [sent|]; [|done].
  cbn. rewrite filter_app, length_app, filter_cons_False by congruence. simpl. lia.
Qed.

(** The reaction that the bytes hold. *)
Definition parsed (b : bytes) (r : SignedReaction) : Prop := ∃ a, check_archived_root b = Some a ∧ rkyv_deserialize a = Some r.
Context (Hd : parsed d rx).

(** A push of it that is new gives the credit for one broadcast. *)
Definition credit (b : bytes) : nat := if decide (b = d) then D else 0.
Definition after_push (b : bytes) (x : result bool MempoolError) (c : nat) : Prop :=
  c = match x with Ok true => credit b | _ => 0%nat end.
Lemma push_credit ck b r : parsed b r → core_owes (after_push b) (with_lock LMempool (push_section ck r)) 0.
Proof using Hd NC AC CV CC.
  intros Hr. apply owes_lock. intros s _ _. unfold push_section, after_push.
  destruct (push _ _ _) as [[mp is_new]|err] eqn:Hp; cbn [fst snd].
  2: { exists 0%nat. split; [|done]. pose proof (no_more_neutral s s (no_more_same _ _ eq_refl)) as H. unfold neutral in H. lia. }
  assert (Hn : neutral pool_potential let_go D s (set_mempool mp s)) by by apply no_more_neutral, no_more_same.
  unfold neutral in Hn. destruct is_new; [|exists 0%nat; split; [lia|done]].
  exists (credit b). split; [|done]. unfold credit. destruct (decide (b = d)) as [->|]; [|lia].
  assert (r = rx) as -> by (destruct Hd as (a & Ha & Hx), Hr as (a' & Ha' & Hx'); congruence).
  apply push_Ok in Hp as (_ & sec & Hs & _ & Hnew & Hmp).
  assert (pooled s = false) as H1.
  { unfold pooled. rewrite bool_decide_false; [done|]. rewrite Hs. cbn. rewrite Hnew. by intros [? ?]. }
  assert (pooled (set_mempool mp s) = true) as H2.
  { unfold pooled. apply bool_decide_true. cbn [mempool set_mempool]. rewrite Hmp. cbn [sectors].
    rewrite lookup_insert_eq. cbn. rewrite lookup_insert_eq. by eexists. }
  unfold pool_potential. rewrite H1, H2. unfold broadcasts. cbn [network set_mempool]. lia.
Qed.
Lemma broadcast_credit b : core_owes (λ _ c, c = 0%nat) (broadcast_section b) (credit b).
Proof.
  apply owes_lock. intros s _ _. cbn [fst snd]. exists 0%nat. split; [|done]. unfold credit.
  destruct (decide (b = d)) as [->|Hne].
  - assert (broadcasts (broadcast (NewReaction d 8) s) ≤ broadcasts s + 1)%nat as Hb.
    { unfold broadcasts, announced. cbn [broadcast network]. destruct (network s); simpl; [|lia].
      rewrite filter_app, length_app. pose proof (length_filter (λ m, carries m = true) [NewReaction d 8]). simpl in *. lia. }
    unfold pool_potential. assert (pooled (broadcast (NewReaction d 8) s) = pooled s) as -> by done.
    pose proof (Nat.mul_le_mono_l _ _ D Hb). lia.
  - pose proof (no_more_neutral _ _ (no_more_broadcast (NewReaction b 8) s (bool_decide_eq_false_2 _ Hne))) as H.
    unfold neutral in H. lia.
Qed.

Abbreviation spent := (λ _ c, c = 0%nat).
Lemma core_sections_owe {A} (p : Async CoreHandleImpl A) : sections no_more p → core_owes spent p 0.
Proof.
  intros Hp. apply owes_sections; [by eapply sections_weaken; [apply no_more_neutral|]|].
  induction p as [a|X f k IH|l p IH|l p IH]; cbn in *; [done| |by apply IH..].
  intros s. by apply IH, Hp.
Qed.
Lemma admit_owes ck b r : parsed b r → core_owes spent (admit_program ck b r) 0.
Proof using Hd NC AC CV CC.
  intros Hr. apply owes_bind. eapply owes_weaken; [|by apply push_credit]. intros [[]|] c ->; [|done..].
  apply owes_bind. apply owes_lock. intros s _ _. exists (credit b). split; [simpl; lia|].
  apply owes_bind. eapply owes_weaken; [|apply broadcast_credit]. by intros [] c ->.
Qed.
Lemma ingest_owes ck b : core_owes spent (ingest_program ck b) 0.
Proof using Hd NC AC CV CC.
  unfold ingest_program, from_bytes_zero_copy. destruct (check_archived_root b) as [a|] eqn:Ha; cbn [ok_or].
  2: { apply core_sections_owe, (drop_sections no_more no_more_calls). }
  destruct (rkyv_deserialize a) as [r|] eqn:Hx; [|done]. assert (Hr : parsed b r) by by exists a.
  apply owes_bind. apply owes_lock. intros s _ _. exists 0%nat. split; [simpl; lia|]. cbn [snd].
  apply owes_bind. eapply owes_weaken; [|apply core_sections_owe; destruct (bool_decide _); [done|apply ask_sections, _]].
  intros [] c ->; [by apply admit_owes|]. apply core_sections_owe, (drop_sections no_more no_more_calls).
Qed.
Lemma push_owes ck b : core_owes spent (push_program ck b) 0.
Proof using Hd NC AC CV CC.
  unfold push_program.
  destruct (_ <? _); [apply core_sections_owe, (drop_sections no_more no_more_calls)|].
  destruct (check_archived_root b); [apply ingest_owes|]. destruct (de_envelope b) as [env|]; [|apply ingest_owes].
  apply owes_bind. eapply owes_weaken; [|apply core_sections_owe, sections_lock, feed_sections, no_more_calls].
  intros [[full|]|err] c ->; [apply ingest_owes|done|]. apply core_sections_owe, (drop_sections no_more no_more_calls).
Qed.
Lemma gossip_owes ck b : core_owes spent (ingress_program ck b) 0.
Proof using Hd NC AC CV CC.
  unfold ingress_program, from_bytes_zero_copy. destruct (_ <? _); [done|].
  destruct (check_archived_root b) as [a|] eqn:Ha; [|done]. cbn [ok_or].
  destruct (rkyv_deserialize a) as [r|] eqn:Hx; [|done]. assert (Hr : parsed b r) by by exists a.
  apply owes_bind. eapply owes_weaken; [|by apply push_credit]. intros [is_new|] c ->; [|done]. apply owes_bind.
  destruct is_new; [|done]. eapply owes_weaken; [|apply broadcast_credit]. by intros [] c ->.
Qed.
Lemma core_program_owes p : core_program p → core_owes spent p 0.
Proof using Hd NC AC CV CC.
  pose proof no_more_calls as HC. destruct 1 as [ck b Hck|r|h|now|nm pk now seed|now w legacy pk cmd Hn|pk now Hn].
  - apply owes_bind. eapply owes_weaken; [|apply gossip_owes]. by intros a c ->.
  - apply core_sections_owe, sections_lock. intros s. apply (pres_reaction _ HC).
  - apply core_sections_owe, sections_lock. intros s. apply (pres_target _ HC).
  - apply core_sections_owe, sections_lock. intros s. apply (pres_streams _ HC).
  - apply core_sections_owe, mining_sections; [apply _|apply no_more_mining|]. intros c s. by apply no_more_broadcast.
  - apply core_sections_owe, sections_bind; [|done]. apply send_sections; [apply _|]. intros r s. apply no_more_queue.
  - apply core_sections_owe, sections_lock. intros s. apply no_more_queue.
Qed.
End pooling.

(** ** The system *)
Section system.
Context {HA : Hashes} {NC : NodeCodec} {AC : AtomCodec} {CV : CryptoVerifier} {LM : Libm} {RC : ReactionCodec}
        {RK : Rkyv} {EC : EnvelopeCodec} {CC : CrystalCodec} {MD : MlDsa87} {HX : Hex} {MC : MessageCodec}.
Context (iter_seen : gset bytes → list bytes) (show : SocketAddr → bytes) (filter_bytes : bytes → result SignedReaction bytes)
        (error_text : IngressError → bytes) (max_ttl : Z).
Abbreviation Net := (Network CoreHandleImpl).
Abbreviation Task := Gossip.Task.
Implicit Types (n : Net) (w : Running Net).

(** The tasks that sessions and the gossip service spawn, apart from those that only send or
    connect; a lifetime is a byte, [max_ttl] at most. *)
Definition task_ok (t : Task) : Prop :=
  match t with
  | TReaction d m => ∃ ttl, m = NewReaction d ttl ∧ 0 ≤ ttl ≤ max_ttl
  | TCrystal d m => ∃ ttl, m = NewCrystal d ttl
  | TPush _ | TOnCrystal _ => True
  | TConnect _ | TSend _ _ => False
  end.

(** Any message of any peer, any task, anything else that runs on the core, at any time. *)
Inductive starts : bool → Async Net (list Task) → Prop :=
| start_message ck peer_ip m :
    clocks_ok ck →
    starts (bool_decide (is_Some (timed_out m)))
      (snd <$> on_message (CH := core_handle ck error_text) show filter_bytes peer_ip m)
| start_task ck peer_ip t :
    clocks_ok ck → task_ok t → starts false (on_task (CH := core_handle ck error_text) iter_seen show peer_ip t)
| start_core p : core_program p → starts false ((λ _, []) <$> in_core p).
(** The table of peers changes by itself. *)
Inductive outside : Net → Net → Prop := table_changes d n : outside n (set_dht d n).

Definition system_step : relation (Running Net) := sched starts outside.
Definition boot n : Running Net := MkRunning n [] [].

(** The calls of the network on this core. *)
Lemma on_crystal_sections R ck :
  preserved_by_calls R → ∀ b, sections R (on_crystal (CoreHandle := core_handle ck error_text) b).
Proof. intros HC b. apply (sections_bind R (crystal_program ck b) (λ a, Return (is_ok a))); [by apply crystal_sections|done]. Qed.
Lemma push_bytes_sections R `{!PreOrder R} ck :
  clocks_ok ck → preserved_by_calls R → preserved_by_pooling R →
  ∀ b, sections R (push_bytes (CoreHandle := core_handle ck error_text) b).
Proof.
  intros Hck HC HP b.
  apply (sections_bind R (push_program ck b) (λ a, Return (as_text error_text a))); [by apply push_program_sections|done].
Qed.

#[local] Instance on_core_preorder (R : relation CoreHandleImpl) `{!PreOrder R} : PreOrder (on_core (C := CoreHandleImpl) R).
Proof. split; [by intros n; unfold on_core|]. intros n1 n2 n3 H1 H2. unfold on_core in *. by etrans. Qed.

Lemma is_inventory (m : PrimusMessage) :
  (∃ l, m = MSync (InventoryResponse l)) ∨ ∀ l, m ≠ MSync (InventoryResponse l).
Proof. destruct m as [| |? ? ? ? ?| |?|? ?|? ?|?|?|[?|? ?|l]|?|? ? ? ?|?|?|?|?|?]; by eauto. Qed.

(** What the sections of the core preserve, every program preserves; the message that may
    end a synchronisation apart. *)
Lemma starts_sections (R : relation CoreHandleImpl) `{!PreOrder R} t p :
  preserved_by_calls R → preserved_by_pooling R → preserved_by_mining R → starts t p →
  sections (on_core R) p ∨
  ∃ ck peer_ip l, p = snd <$> on_message (CH := core_handle ck error_text) show filter_bytes peer_ip (MSync (InventoryResponse l)).
Proof.
  intros HC HP HM. destruct 1 as [ck peer_ip m Hck|ck peer_ip t Hck _|p Hp].
  - destruct (is_inventory m) as [[l ->]|Hm]; [right; by exists ck, peer_ip, l|]. left.
    apply (sections_bind _ _ (λ a, Return a.2)); [|done].
    apply (message_sections show filter_bytes R (on_core R)); try done.
    + by intros n d; unfold on_core.
    + by apply on_crystal_sections.
    + apply (pres_target R HC).
    + intros b _. split; [by apply push_bytes_sections|by intros n; unfold on_core].
  - left. apply (task_sections iter_seen show R (on_core R)); try done.
    + by apply on_crystal_sections.
    + by apply push_bytes_sections.
    + by intros n seen; unfold on_core.
  - left. apply (sections_bind _ _ (λ a, Return [])); [|done].
    apply (in_core_sections R (on_core R)); [done|by apply core_program_sections].
Qed.

Lemma finish_keeps s : core_keeps s (core_finish_sync s).
Proof. unfold core_finish_sync. destruct (is_syncing (engine s)); [apply keeps_engine; [done|by apply follow_same]|done]. Qed.

(** C10. However long the node runs, and in whatever order peers, tasks, miner, console and
    background work take their turns, section by section, with calls that wait for each
    other's locks or are given up: its mempool stays well formed, with structurally valid
    reactions only, each in its sector and under one weight; the Architect's key is the one
    it was started with; and the accounts come from those at the start by the write sets of
    batches that the virtual machine accepted on them, each recorded with what it replaced,
    and by undoing batches so recorded, and in no other way. *)
Theorem node_run_sound n0 w :
  rtc system_step (boot n0) w → mempool_ok (mempool (net_core n0)) →
  let e0 := engine (net_core n0) in let e := engine (net_core (rn_state w)) in
  mempool_ok (mempool (net_core (rn_state w))) ∧ eng_architect_pk e = eng_architect_pk e0 ∧
  rtc (ledger_step (eng_architect_pk e0)) (ledger e0) (ledger e).
Proof.
  intros Hrun Hok. assert (Hk : on_core core_keeps n0 (rn_state w)).
  { eapply (sched_sections starts outside (on_core core_keeps) (boot n0)); [|by intros ? ? []|exact Hrun|constructor].
    intros t p Hp.
    destruct (starts_sections core_keeps t p core_keeps_calls core_keeps_pooling core_keeps_mining Hp) as [H|(ck & ip & l & ->)]; [done|].
    apply (sections_bind _ _ (λ a, Return a.2)); [|done].
    apply (inventory_sections show filter_bytes core_keeps (on_core core_keeps)); [done| |apply finish_keeps].
    apply on_crystal_sections, core_keeps_calls. }
  destruct Hk as [Hm [Hp Ha]]. cbv zeta. split; [by apply Hm|by split].
Qed.

(** A call that goes to its end while nobody holds a lock. *)
Lemma free_call t p n n' a h' ts out :
  starts t p → exec None [] p n = (n', Some (a, None, h')) → ts ≫= holds = [] →
  rtc system_step (MkRunning n ts out) (MkRunning n' ts (out ++ a)).
Proof. intros Hs He Hh. eapply sched_call; [done|exact He|]. intros l _. rewrite Hh. apply not_elem_of_nil. Qed.
Lemma free_program p s' n ts out :
  core_program p → exec None [] p (net_core n) = (s', Some (tt, None, [])) → ts ≫= holds = [] →
  rtc system_step (MkRunning n ts out) (MkRunning (Gossip.set_core s' n) ts out).
Proof.
  intros Hp He Hh. rewrite <-(app_nil_r out) at 2. eapply free_call; [by apply start_core| |done].
  unfold fmap, async_fmap. change (async_bind ?k ?q) with (q ≫= k). by rewrite exec_bind, exec_in_core, He.
Qed.

(** *** The end of a synchronisation *)
Definition syncing n : bool := is_syncing (engine (net_core n)).
(** A call that has seen the node not synchronising, and is to end the synchronisation. *)
Definition end_sync : Async Net (list Task) := (λ _, []) <$> tell_core core_finish_sync.
Definition about_to_finish (p : Async Net (list Task)) : Prop :=
  p = Release LEngine end_sync ∨ p = end_sync ∨ Acquire LEngine p = end_sync.

(** A program that leaves the flag set, from states in which it is set. *)
Fixpoint harmless {A} (p : Async Net A) : Prop :=
  match p with
  | Return _ => True
  | Atomic f k => ∀ n, syncing n = true → syncing (f n).1 = true ∧ harmless (k (f n).2)
  | Acquire _ p | Release _ p => harmless p
  end.
(** A program that is harmless until it is about to finish. *)
Fixpoint careful (p : Async Net (list Task)) : Prop :=
  harmless p ∧
  match p with
  | Return _ => True
  | Atomic f k => ∀ n, careful (k (f n).2) ∨ k (f n).2 = Release LEngine end_sync
  | Acquire _ p | Release _ p => careful p
  end.
Lemma careful_harmless p : careful p → harmless p.
Proof. by destruct p; intros []. Qed.

(** In a context that passes the sections on. *)
Record passes {A} (F : Async Net A → Async Net (list Task)) : Prop := {
  passes_atomic X (f : Net → Net * X) k : F (Atomic f k) = Atomic f (λ x, F (k x));
  passes_acquire l p : F (Acquire l p) = Acquire l (F p);
  passes_release l p : F (Release l p) = Release l (F p);
}.
Lemma careful_in {A} (F : Async Net A → Async Net (list Task)) p :
  passes F → sections (on_core stays_syncing) p → (∀ a, careful (F (Return a))) → careful (F p).
Proof.
  intros [Ha Hq Hr] Hp HF. induction p as [a|X f k IH|l p IH|l p IH]; [done|rewrite Ha|rewrite Hq|rewrite Hr]; cbn in Hp.
  - destruct Hp as [Hf Hk]. split.
    + intros n Hn. split; [by apply Hf|by apply careful_harmless, IH].
    + intros n. left. by apply IH.
  - split; [by apply (careful_harmless (F p)), IH|by apply IH].
  - split; [by apply (careful_harmless (F p)), IH|by apply IH].
Qed.
Lemma starts_careful t p : starts t p → careful p.
Proof.
  intros Hp.
  destruct (starts_sections stays_syncing t p stays_syncing_calls stays_syncing_pooling stays_syncing_mining Hp) as [H|(ck & ip & l & ->)].
  - apply (careful_in (λ q, q)); [done|done|]. intros a. by split.
  - clear Hp. cbn [on_message on_sync].
    induction l as [|b l IH].
    + cbn. split_and!; try (intros n Hn; split; [done|]; cbn in Hn |- *; unfold syncing in Hn; unfold core_is_syncing; by rewrite Hn).
      intros n. destruct (core_is_syncing (net_core n)) eqn:E; [|by right]. left. cbn. by split_and!.
    + cbn [take_crystals].
      match goal with |- careful (fmap _ (mbind _ (mbind ?g (mbind ?h ?q)))) =>
        apply (careful_in (λ z, snd <$> (((z ≫= h) ≫= g) ≫= λ out, mret (out, [])))) end.
      * done.
      * apply (in_core_sections stays_syncing (on_core stays_syncing)); [done|]. apply on_crystal_sections, stays_syncing_calls.
      * intros a. exact IH.
Qed.

(** What a call may be at any time. *)
Definition session_ok (p : Async Net (list Task)) : Prop := careful p ∨ about_to_finish p.
Definition next_ok (p : Async Net (list Task)) : Prop :=
  match p with
  | Return _ => True
  | Atomic f k => ∀ n, session_ok (k (f n).2)
  | Acquire _ p | Release _ p => session_ok p
  end.
Lemma session_next p : session_ok p → next_ok p.
Proof.
  intros [Hc|[->|[->|Hp]]].
  - destruct p as [a|X f k|l p|l p]; destruct Hc as [_ Hc]; cbn; [done| |by left..].
    intros n. destruct (Hc n) as [H| ->]; [by left|by right; left].
  - right. by right; left.
  - right. by right; right.
  - injection Hp as ->. intros n. left. cbn. by split_and!.
Qed.
Lemma reachable_sessions n0 w :
  rtc system_step (boot n0) w → Forall (session_ok ∘ body) (rn_threads w).
Proof.
  intros H. apply (sched_invariant starts outside (λ _, True) session_ok (boot n0) w); try done.
  - intros X f k n Hp _. split; [done|]. by apply session_next in Hp.
  - intros l p Hp. by apply session_next in Hp.
  - intros l p Hp. by apply session_next in Hp.
  - intros t p Hp. left. by eapply starts_careful.
Qed.

(** While no call is about to finish a synchronisation, none will be. *)
Lemma stays_set w w' :
  rtc system_step w w' → syncing (rn_state w) = true → Forall (harmless ∘ body) (rn_threads w) →
  syncing (rn_state w') = true.
Proof.
  intros Hrun Hs Hh. apply (sched_invariant starts outside (λ n, syncing n = true) harmless w w'); try done.
  - intros X f k n Hp Hn. by apply Hp.
  - intros t p Hp. by eapply careful_harmless, starts_careful.
  - by intros ? ? [].
Qed.

(** A handshake, handled from its first section to its last. *)
Definition handshake version id claimed_height claimed_energy port : PrimusMessage :=
  MHandshake version id claimed_height claimed_energy port.
Definition held w : list LockName := rn_threads w ≫= holds.
Definition after_message ck peer_ip m w : Running Net :=
  let '(n, _, spawned) := handle_message (CH := core_handle ck error_text) show filter_bytes peer_ip None m (rn_state w) in
  MkRunning n (rn_threads w) (rn_tasks w ++ spawned).

Lemma far_handshake ck peer_ip version id height en port n :
  let h := current_crystal_index (eng_state (engine (net_core n))) in
  u64_wrapping_add h 5 < height → h < height →
  ∃ n', syncing n' = true ∧ exec None [] (snd <$> on_message (CH := core_handle ck error_text) show filter_bytes peer_ip
      (MHandshake version id height en port)) n = (n', Some ([], None, [])) ∧
    ∃ out, handle_message (CH := core_handle ck error_text) show filter_bytes peer_ip None (MHandshake version id height en port) n = (n', out, []).
Proof.
  cbv zeta. intros Hfar Hhigh.
  assert (Hb : fp_gt en (entropy (global_metrics (eng_state (engine (net_core n))))) ||
               (current_crystal_index (eng_state (engine (net_core n))) <? height) = true)
    by (by rewrite (proj2 (Z.ltb_lt _ height) Hhigh), orb_true_r).
  assert (Hf : (u64_wrapping_add (current_crystal_index (eng_state (engine (net_core n)))) 5 <? height) = true)
    by by apply Z.ltb_lt.
  eexists. split; [|split; [|eexists]].
  2: { cbn. rewrite Hb, Hf. cbn. reflexivity. }
  1: done.
  unfold handle_message, serve, run. cbn. rewrite Hb, Hf. done.
Qed.

Lemma handshake_uses ck peer_ip l version id height en port :
  uses l (snd <$> on_message (CH := core_handle ck error_text) show filter_bytes peer_ip (MHandshake version id height en port)) →
  l = LPeers ∨ l = LEngine.
Proof.
  cbn. intros [->|[_ [->|[[[h e] cum] H]]]]; [by left|by right|]. revert H.
  destruct (_ || _); [|done]. destruct (_ <? _); cbn; [|done]. intros [->|[_ []]]. by right.
Qed.

(** C11. Synchronising does not end: in a node that has run for however long, with any
    number of calls at any place of their programs, none of which is about to finish a
    synchronisation, a single handshake, from any peer and without proof, that claims a
    height more than five above the node's own sets the flag once it gets its locks, and
    nothing that the node, its peers or its operator do afterwards, section by section,
    clears it, so that it mines no more, however long it runs. *)
Theorem handshake_stops_mining n0 w0 ck peer_ip version id claimed_height claimed_energy port :
  rtc system_step (boot n0) w0 → Forall (λ th, ¬ about_to_finish (body th)) (rn_threads w0) →
  (LEngine ∉ held w0) → (LPeers ∉ held w0) → clocks_ok ck →
  let h := current_crystal_index (eng_state (engine (net_core (rn_state w0)))) in
  u64_wrapping_add h 5 < claimed_height → h < claimed_height →
  let w1 := after_message ck peer_ip (handshake version id claimed_height claimed_energy port) w0 in
  rtc system_step w0 w1 ∧
  ∀ w, rtc system_step w1 w →
    is_syncing (engine (net_core (rn_state w))) = true ∧
    ∀ no_mining pk now seed, mining_loop_step no_mining pk now seed (net_core (rn_state w)) = net_core (rn_state w).
Proof.
  intros Hrun Hno He Hl Hck h Hfar Hhigh. unfold after_message, handshake.
  destruct (far_handshake ck peer_ip version id claimed_height claimed_energy port (rn_state w0) Hfar Hhigh)
    as (n1 & Hs & Hx & out & Hm). rewrite Hm. cbv zeta. split.
  - destruct w0 as [n ts tasks]. eapply (sched_call starts outside _ _ n n1 tasks []); [by apply start_message|exact Hx|].
    intros l [->| ->]%handshake_uses; [exact Hl|exact He].
  - intros w Hw. assert (Hset : syncing (rn_state w) = true).
    { eapply stays_set; [exact Hw|exact Hs|]. cbn [rn_threads]. eapply Forall_impl; [apply Forall_and; split; [apply (reachable_sessions n0 w0 Hrun)|exact Hno]|].
      intros th [[Hc|Ha] Hn]; [by apply careful_harmless|done]. }
    split; [exact Hset|]. intros no_mining pk now seed. unfold mining_loop_step, mining_step. unfold syncing in Hset.
    rewrite Hset. by destruct no_mining.
Qed.

(** The exception: the check of the flag and its end take the lock twice.  Of a node that
    does not synchronise, whatever it is, a peer's empty inventory brings a session between
    the two; a handshake that then sets the flag is undone by that session. *)
Theorem handshake_undone n ck peer_ip version id claimed_height claimed_energy port :
  is_syncing (engine (net_core n)) = false → clocks_ok ck →
  let h := current_crystal_index (eng_state (engine (net_core n))) in
  u64_wrapping_add h 5 < claimed_height → h < claimed_height →
  ∃ w0 w1 w2, rtc system_step (boot n) w0 ∧ rtc system_step w0 w1 ∧ rtc system_step w1 w2 ∧
    w1 = after_message ck peer_ip (handshake version id claimed_height claimed_energy port) w0 ∧
    is_syncing (engine (net_core (rn_state w1))) = true ∧ is_syncing (engine (net_core (rn_state w2))) = false.
Proof.
  intros Hsync Hck h Hfar Hhigh.
  destruct (far_handshake ck peer_ip version id claimed_height claimed_energy port n Hfar Hhigh) as (n1 & Hs & Hx & out & Hm).
  set (w0 := MkRunning n [MkThread [] false end_sync] []).
  set (n2 := Gossip.set_core (core_finish_sync (net_core n1)) n1).
  exists w0, (after_message ck peer_ip (handshake version id claimed_height claimed_energy port) w0),
    (MkRunning n2 [] []).
  unfold after_message, handshake. cbn [rn_state w0]. rewrite Hm. cbn [rn_state rn_threads rn_tasks w0]. split_and!; try done.
  - eapply rtc_l; [by apply (sched_start starts outside), (start_message ck peer_ip (MSync (InventoryResponse [])) Hck)|]. cbn.
    eapply rtc_l; [apply (sched_acquire starts outside [] false LEngine _ n [] [] []); cbn; apply not_elem_of_nil|].
    eapply rtc_l; [apply (sched_section starts outside [LEngine] false _ _ n [] [] [])|]. cbn.
    change (core_is_syncing (net_core n)) with (is_syncing (engine (net_core n))). rewrite Hsync.
    apply rtc_once. exact (sched_release starts outside [LEngine] false LEngine end_sync n [] [] []).
  - eapply (sched_call starts outside _ _ n n1 [] [] []); [by apply start_message|exact Hx|]. intros l _. apply not_elem_of_nil.
  - eapply rtc_l; [apply (sched_acquire starts outside [] false LEngine _ n1 [] [] []); cbn; apply not_elem_of_nil|].
    eapply rtc_l; [apply (sched_section starts outside [LEngine] false _ _ n1 [] [] [])|].
    eapply rtc_l; [apply (sched_release starts outside [LEngine] false LEngine _ _ [] [] [])|].
    apply rtc_once. exact (sched_return starts outside [] false [] n2 [] [] []).
  - unfold n2, core_finish_sync. cbn. unfold syncing in Hs. by rewrite Hs.
Qed.

(** *** How often a reaction is sent *)
Section flood.
Context (d : bytes) (rx : SignedReaction) (D : nat) (Hd : parsed d rx).

(** The messages about it that a node has sent to single peers: the relays of the gossip
    service, among what calls have returned. *)
Definition is_relay (t : Task) : bool := match t with TSend _ m => carries d m | _ => false end.
Definition relays (out : list Task) : nat := length (filter (λ t, is_relay t = true) out).
(** The lifetimes under which the node has not seen it. *)
Definition unseen n : nat :=
  length (filter (λ t, message_id (NewReaction d t) ∉ seen_messages n) (seqZ 1 max_ttl)).
(** At most [D] peers, and room among the seen messages. *)
Definition calm n : Prop := (size (seen_messages n) < MAX_SEEN)%nat ∧ (length (peers show n) ≤ D)%nat.
(** The node's pool lets the reaction go, into a block. *)
Definition lets_go n n' : nat := let_go rx (net_core n) (net_core n').
(** A run, at any time calm, in which the pool lets the reaction go so many times. *)
Definition flood_run : nat → Running Net → Running Net → Prop := counted_run starts outside calm lets_go.
(** What a node sends about it: a broadcast is a message to each of [D] peers at most. *)
Definition frames w : nat := D * broadcasts d (net_core (rn_state w)) + relays (rn_tasks w).

Definition potential n : nat := pool_potential d rx D (net_core n) + D * unseen n.
Abbreviation net_owes := (owes potential calm lets_go D).
Abbreviation spent := (λ _ c, c = 0%nat).
Abbreviation paid := (λ out c, relays out ≤ c)%nat.

Lemma relays_app a b : relays (a ++ b) = (relays a + relays b)%nat.
Proof. unfold relays. by rewrite filter_app, length_app. Qed.

Lemma owes_in_core {A} (Q : A → nat → Prop) (p : Async CoreHandleImpl A) b :
  owes (pool_potential d rx D) (λ _, True) (let_go rx) D Q p b → net_owes Q (in_core p) b.
Proof.
  revert b. induction p as [a|X f k IH|l p IH|l p IH]; intros b; cbn; [done| |apply IH..]. intros H n _ _.
  destruct (H (net_core n) I I) as (b' & Hb & Hk). unfold potential, lets_go, unseen.
  destruct (f (net_core n)) as [c x]. cbn [fst snd net_core Gossip.set_core seen_messages] in *. exists b'. split; [lia|by apply IH].
Qed.
(** Sections that neither announce it nor forget what is seen. *)
Definition quiet n n' : Prop := no_more d (net_core n) (net_core n') ∧ seen_messages n' = seen_messages n.
#[local] Instance quiet_preorder : PreOrder quiet.
Proof. split; [by intros n|]. intros n1 n2 n3 [A1 A2] [B1 B2]. split; [by etrans|congruence]. Qed.
Lemma quiet_neutral n n' : quiet n n' → neutral potential lets_go D n n'.
Proof.
  intros [Hc Hs]. pose proof (no_more_neutral d rx D _ _ Hc) as H. unfold neutral, potential, unseen, lets_go in *.
  rewrite Hs. lia.
Qed.
Lemma quiet_owes {A} (Q : A → nat → Prop) (p : Async Net A) b : sections quiet p → returns (λ a, Q a b) p → net_owes Q p b.
Proof. intros Hp. apply owes_sections. by eapply sections_weaken; [apply quiet_neutral|]. Qed.

Lemma unseen_mono n n' : seen_messages n ⊆ seen_messages n' → (unseen n' ≤ unseen n)%nat.
Proof. intros H. apply filter_length_le. intros t. set_solver. Qed.

(** Marking a lifetime of it as seen gives the credit for the relays. *)
Lemma mark_owes m :
  match m with NewReaction _ t => 1 ≤ t ≤ max_ttl | _ => True end →
  net_owes (λ new c, c = if (new : bool) && carries d m then D else 0%nat) (with_lock LSeen (mark_seen iter_seen m)) 0.
Proof.
  intros Ht. apply owes_lock. intros n [Hn _] _. unfold mark_seen. case_bool_decide as Hid; cbn [fst snd andb].
  { exists 0%nat. split; [etrans; [|apply Nat.le_add_r]; lia|done]. }
  set (n' := set_seen _ n).
  assert (Hs : seen_messages n' = {[message_id m]} ∪ seen_messages n).
  { unfold n', remember. cbn [seen_messages set_seen]. rewrite (proj2 (Nat.ltb_ge _ _)); [done|].
    rewrite size_union by set_solver. rewrite size_singleton. lia. }
  assert (Hp : pool_potential d rx D (net_core n') = pool_potential d rx D (net_core n)) by done.
  exists (if carries d m then D else 0%nat). split; [|done]. etrans; [|apply Nat.le_add_r]. unfold potential. rewrite Hp.
  destruct (carries d m) eqn:Ec.
  - destruct m as [| | | | |b t| | | | | | | | | | |]; try done. cbn in Ec. apply bool_decide_eq_true in Ec as ->.
    assert (S (unseen n') ≤ unseen n)%nat as Hu; [|pose proof (Nat.mul_le_mono_l _ _ D Hu); lia].
    apply (filter_length_lt _ _ _ t); [set_solver|apply elem_of_seqZ; lia|done|]. rewrite Hs. set_solver.
  - assert (unseen n' ≤ unseen n)%nat as Hu by (apply unseen_mono; set_solver).
    pose proof (Nat.mul_le_mono_l _ _ D Hu). lia.
Qed.

Lemma relays_forward m src a : (relays (forward m src a) ≤ if carries d m then 1 else 0)%nat.
Proof.
  unfold forward. case_bool_decide; [apply Nat.le_0_l|]. destruct (lifetime m) as [[ttl dec]|]; [|apply Nat.le_0_l].
  destruct (next_ttl ttl dec) as [t|]; [|apply Nat.le_0_l]. cbn [mbind option_bind].
  destruct (with_ttl m t) as [m'|] eqn:Em; [|apply Nat.le_0_l].
  assert (carries d m' = carries d m) as Hc by (destruct m; simplify_eq/=; done).
  unfold relays. rewrite filter_cons. cbn [is_relay]. rewrite Hc. destruct (carries d m); case_decide; simpl; (done || lia).
Qed.
Lemma relays_all m src l : (relays (l ≫= forward m src) ≤ if carries d m then length l else 0)%nat.
Proof.
  induction l as [|a l IH]; [apply Nat.le_0_l|]. cbn [mbind list_bind]. rewrite relays_app.
  pose proof (relays_forward m src a). cbn [length]. destruct (carries d m); cbn in *; lia.
Qed.
Lemma spread_owes m src :
  match m with NewReaction _ t => 0 ≤ t ≤ max_ttl | NewCrystal _ _ => True | _ => False end →
  net_owes paid (on_spread iter_seen show m src) 0.
Proof.
  intros Hm. unfold on_spread. destruct (lifetime m) as [[ttl dec]|] eqn:El; [|apply Nat.le_0_l].
  destruct (Z.eqb_spec ttl 0) as [|Hz]; [apply Nat.le_0_l|]. apply owes_bind.
  eapply owes_weaken; [|apply mark_owes; destruct m; simplify_eq/=; try done; lia].
  intros [] c ->; [|apply Nat.le_0_l]. apply owes_lock. intros n [_ Hp] _. cbn [fst snd]. eexists. split; [apply Nat.le_add_r|].
  rewrite relays_app. pose proof (relays_all m src (peers show n)) as Hr. unfold peers in *.
  assert (relays (local_task m) = 0%nat) as -> by by destruct m. destruct (carries d m); cbn [andb] in *; lia.
Qed.

(** Whatever starts owes nothing. *)
Lemma quiet_core R n c : R = no_more d → R (net_core n) c → quiet n (Gossip.set_core c n).
Proof. by intros ->. Qed.
Lemma crystal_quiet ck {A} (Q : A → nat → Prop) b (k : bool → Async Net A) :
  (∀ r, net_owes Q (k r) 0) → net_owes Q (in_core (on_crystal (CoreHandle := core_handle ck error_text) b) ≫= k) 0.
Proof.
  intros Hk. apply owes_bind. eapply owes_weaken; [|apply owes_in_core, core_sections_owe, on_crystal_sections, no_more_calls].
  intros r c ->. apply Hk.
Qed.
Lemma push_quiet ck {A} (Q : A → nat → Prop) b (k : result unit bytes → Async Net A) :
  (∀ r, net_owes Q (k r) 0) → net_owes Q (in_core (push_bytes (CoreHandle := core_handle ck error_text) b) ≫= k) 0.
Proof using Hd.
  intros Hk. apply owes_bind. eapply owes_weaken; [|apply owes_in_core, (owes_bind _ _ _ _ spent (push_program ck b) (λ a, Return (as_text error_text a)))].
  - intros r c ->. apply Hk.
  - eapply owes_weaken; [|by apply push_owes]. by intros r c ->.
Qed.
Lemma gossip_flag_quiet {A} (Q : A → nat → Prop) (k : bool → Async Net A) :
  (∀ g, net_owes Q (k g) 0) → net_owes Q (atomically (λ n, (n, has_gossip n)) ≫= k) 0.
Proof. intros Hk. apply owes_bind. intros n _ _. exists 0%nat. split; [apply Nat.le_add_r|]. apply Hk. Qed.

Lemma task_owes ck peer_ip t :
  task_ok t → net_owes paid (on_task (CH := core_handle ck error_text) iter_seen show peer_ip t) 0.
Proof using Hd filter_bytes.
  destruct t as [a|b m|b m|b|b|a m]; cbn [on_task task_ok]; try done.
  - intros (ttl & -> & Ht). apply push_quiet. intros r. apply gossip_flag_quiet. intros g.
    destruct (_ && _); [by apply spread_owes|apply Nat.le_0_l].
  - intros (ttl & ->). apply crystal_quiet. intros r. apply gossip_flag_quiet. intros g.
    destruct (_ && _); [by apply spread_owes|apply Nat.le_0_l].
  - intros _. apply push_quiet. intros r. apply Nat.le_0_l.
  - intros _. apply crystal_quiet. intros r. apply Nat.le_0_l.
Qed.
(** The tasks of a session send nothing. *)
Lemma message_returns ck peer_ip m :
  returns (λ r, relays r.2 ≤ 0)%nat (on_message (CH := core_handle ck error_text) show filter_bytes peer_ip m).
Proof.
  destruct m as [| |? ? ? ? ?| |ps|? ?|? ?|?|?|?|?|? ? ? ?|?|?|?|?|?]; cbn [on_message]; try (apply returns_bind; intros ?); try exact (Nat.le_refl 0).
  cbn. induction ps as [|a l IH]; [exact (Nat.le_refl 0)|exact IH].
Qed.
Lemma message_owes ck peer_ip m :
  clocks_ok ck → net_owes paid (snd <$> on_message (CH := core_handle ck error_text) show filter_bytes peer_ip m) 0.
Proof using Hd.
  intros Hck. apply owes_bind.
  assert (Hmsg : sections quiet (on_message (CH := core_handle ck error_text) show filter_bytes peer_ip m) ∨
                 ∃ b, m = SubmitReaction b).
  { destruct (is_inventory m) as [[l ->]|Hm].
    - left. apply (inventory_sections show filter_bytes (no_more d) quiet); [done| |].
      + apply on_crystal_sections, no_more_calls.
      + intros s. apply no_more_same. cbn. unfold core_finish_sync. by destruct (is_syncing _).
    - assert (Hsub : (∃ b, m = SubmitReaction b) ∨ ∀ b, m ≠ SubmitReaction b) by (destruct m; by eauto).
      destruct Hsub as [Hsub|Hsub]; [by right|]. left.
      apply (message_sections show filter_bytes (no_more d) quiet); try done.
      + apply on_crystal_sections, no_more_calls.
      + intros h s. by apply no_more_same.
      + intros b Hb. by destruct (Hsub b). }
  destruct Hmsg as [Hq|[b ->]]; [apply quiet_owes; [done|apply message_returns]|].
  cbn [on_message]. apply owes_bind. unfold on_submit. destruct (filter_bytes b).
  - apply push_quiet. intros r. apply Nat.le_0_l.
  - intros n _ _. exists 0%nat. split; [apply Nat.le_add_r|apply Nat.le_0_l].
Qed.
Lemma starts_owes t p : starts t p → net_owes paid p 0.
Proof using Hd filter_bytes.
  destruct 1 as [ck peer_ip m Hck|ck peer_ip t Hck Ht|p Hp].
  - by apply message_owes.
  - by apply task_owes.
  - apply owes_bind. eapply owes_weaken; [|by apply owes_in_core, core_program_owes]. intros a c ->. apply Nat.le_0_l.
Qed.

Lemma relays_nil : relays [] = 0%nat.
Proof. done. Qed.
(** What one node sends. *)
Lemma flood_node k n0 w :
  flood_run k (boot n0) w → (frames w ≤ D * (broadcasts d (net_core n0) + 1 + k + Z.to_nat max_ttl))%nat.
Proof using Hd filter_bytes.
  intros Hrun.
  destruct (counted_credit starts outside potential calm lets_go D relays k (boot n0) w) as (bs & _ & Hsum); try done.
  - apply relays_app.
  - apply starts_owes.
  - intros n n' [dht n1]. by apply quiet_neutral.
  - cbn [rn_state rn_tasks boot] in Hsum. rewrite relays_nil in Hsum. unfold frames, potential, pool_potential in *.
    assert (unseen n0 ≤ Z.to_nat max_ttl)%nat as Hu.
    { unfold unseen. etrans; [apply length_filter|]. rewrite length_seqZ. lia. }
    pose proof (Nat.mul_le_mono_l _ _ D Hu). destruct (pooled rx (net_core n0)), (pooled rx (net_core (rn_state w))); lia.
Qed.

(** A relay has a lifetime, and it is shorter than the longest. *)
Definition decayed (t : Task) : Prop := match t with TSend _ (NewReaction _ ttl) => 1 ≤ ttl < max_ttl | _ => True end.
Lemma forward_decayed m src l :
  match m with NewReaction _ t => 0 ≤ t ≤ max_ttl | NewCrystal _ _ => True | _ => False end →
  Forall decayed (l ≫= forward m src).
Proof.
  intros Hm. apply Forall_forall. intros t (a & Ht & _)%list_elem_of_bind. revert Ht. unfold forward. case_bool_decide; [by intros ?%elem_of_nil|].
  destruct m as [| | | | |b ttl|b ttl| | | | | | | | | |]; try done; cbn [lifetime mbind option_bind].
  - unfold next_ttl. destruct (Z.leb_spec ttl 1); [by intros ?%elem_of_nil|]. cbn. intros ->%list_elem_of_singleton. cbn. lia.
  - cbn. by intros ->%list_elem_of_singleton.
Qed.
Lemma spread_returns m src :
  match m with NewReaction _ t => 0 ≤ t ≤ max_ttl | NewCrystal _ _ => True | _ => False end →
  returns (St := Net) (Forall decayed) (on_spread iter_seen show m src).
Proof.
  intros Hm. unfold on_spread. destruct (lifetime m) as [[ttl dec]|]; [|constructor].
  destruct (ttl =? 0); [constructor|]. apply returns_bind. intros [].
  - intros n. apply Forall_app. split; [by destruct m; repeat constructor|by apply forward_decayed].
  - constructor.
Qed.
Lemma message_decayed ck peer_ip m :
  returns (Forall decayed ∘ snd) (on_message (CH := core_handle ck error_text) show filter_bytes peer_ip m).
Proof.
  destruct m as [| |? ? ? ? ?| |ps|? ?|? ?|?|?|?|?|? ? ? ?|?|?|?|?|?]; cbn [on_message]; try (apply returns_bind; intros ?);
    try (cbn; repeat constructor). by apply Forall_fmap, Forall_true.
Qed.
Lemma starts_decayed t p : starts t p → returns (Forall decayed) p.
Proof.
  destruct 1 as [ck peer_ip m Hck|ck peer_ip t Hck Ht|p Hp].
  - apply returns_map, message_decayed.
  - destruct t as [a|b m|b m|b|b|a m]; cbn [on_task task_ok] in *; try done.
    + destruct Ht as (ttl & -> & Ht). do 2 (apply returns_bind; intros ?). destruct (_ && _); [by apply spread_returns|constructor].
    + destruct Ht as (ttl & ->). do 2 (apply returns_bind; intros ?). destruct (_ && _); [by apply spread_returns|constructor].
    + apply returns_bind. intros r. constructor.
    + apply returns_bind. intros r. constructor.
  - apply returns_bind. intros r. constructor.
Qed.

(** C34. The flood of a reaction dies out, in a network of any number of nodes whose
    messages have lifetimes of [max_ttl] at most: however many copies reach a node, from
    whom and in what order, and whatever else it does, section by section, it broadcasts the
    reaction once and once more for each time its pool has let it go, and relays it once per
    lifetime, always with a shorter one, so that all the nodes together send a bounded number
    of frames about it, [D] being the most peers that a node has; as long as no node has so
    many seen messages that it forgets some. *)
Theorem flood_terminates (nodes : list (nat * Net * Running Net)) :
  Forall (λ '(k, n0, w), broadcasts d (net_core n0) = 0%nat ∧ flood_run k (boot n0) w) nodes →
  (sum_list_with (λ '(_, _, w), frames w) nodes ≤
   sum_list_with (λ '(k, _, _), D * (1 + k + Z.to_nat max_ttl)) nodes)%nat ∧
  Forall (λ '(_, _, w), ∀ a ttl, TSend a (NewReaction d ttl) ∈ rn_tasks w → 1 ≤ ttl < max_ttl) nodes.
Proof using Hd filter_bytes.
  induction 1 as [|[[k n0] w] nodes [H0 Hrun] _ [IH1 IH2]]; [done|]. cbn [sum_list_with]. split.
  - pose proof (flood_node k n0 w Hrun) as H. rewrite H0 in H. lia.
  - constructor; [|done]. intros a ttl Hin.
    assert (HQ : Forall decayed (rn_tasks w)); [|rewrite Forall_forall in HQ; exact (HQ _ Hin)].
    apply (sched_returns starts outside decayed (boot n0)); [apply starts_decayed|by eapply counted_rtc|constructor..].
Qed.
End flood.

(** *** A chunk in a chunk *)
(** A peer that sends a chunk, complete by itself, that holds a chunk stops the session that
    takes it, and the reassembler stays locked for as long as the node runs: no later chunk
    is taken, and no stream is ever evicted. *)
Theorem nested_chunk_locks_reassembler n ck peer_ip sid env :
  clocks_ok ck → chunk_reassembler (net_core n) !! sid = None →
  let m := CrystalResponse (ser_envelope (single_chunk sid (ser_envelope env))) in
  let p := snd <$> on_message (CH := core_handle ck error_text) show filter_bytes peer_ip m in
  starts false p ∧
  ∃ w1, rtc system_step (MkRunning n [MkThread [] false p] []) w1 ∧
    ∀ w, rtc system_step w1 w → LReassembler ∈ held w.
Proof.
  intros Hck Hs m p. split; [exact (start_message ck peer_ip m Hck)|].
  destruct (feed_single (mono ck) (mono' ck) sid (ser_envelope env) (chunk_reassembler (net_core n)) Hs) as [streams Hf].
  eexists. split.
  - unfold p, m. cbn [on_message on_crystal core_handle]. unfold crystal_program. cbn [crystal_calls]. unfold crystal_body at 1.
    rewrite de_ser_envelope. cbn.
    eapply rtc_l; [apply (sched_acquire starts outside [] false LReassembler _ n [] [] []); cbn; apply not_elem_of_nil|].
    eapply rtc_l; [apply (sched_section starts outside [LReassembler] false _ _ n [] [] [])|]. cbn.
    unfold feed_section. rewrite Hf. cbn. unfold crystal_body at 1. rewrite de_ser_envelope. constructor.
  - intros w Hw. assert (Hst : Exists (stuck LReassembler) (rn_threads w)).
    { eapply (sched_stuck starts outside); [exact Hw|]. apply Exists_exists. eexists. split; [left|]. split; [left|]. split; [done|]. by eexists. }
    apply Exists_exists in Hst as (th & Hin & Hl & _). unfold held. apply list_elem_of_bind. by exists th.
Qed.
End system.
