(* ===== verification/Replica.v ===== *)
(** Two nodes: what one of them has solidified, the other one solidifies too.

    The heat of a chamber belongs to a node: mining raises it, a crystal sets it.  It enters
    the virtual machine as the curvature of a reaction, which limits what a crystal may
    contain and is the tax of a Generic reaction; it also enters the proof of work. *)
From S2P Require Import Prelude Floats Types Mpt MptTree MptFacts State Physics Pvm Crystal Chamber Storage Engine.
From S2P Require Import Processor ProcessorFacts NodeFacts.
Open Scope Z_scope.

(** ** The machine at another temperature *)
(** What the machine says when it is too hot, or too hot to count. *)
Definition heat_error (err : PvmError) : Prop := err = ThermalLimitExceeded ∨ err = ArithmeticOverflow.

(** Where the first computation succeeds, the second does with a related result, or is too hot. *)
Definition follows {A B} (R : A → B → Prop) (r1 : pvm_result A) (r2 : pvm_result B) : Prop :=
  ∀ a, r1 = Ok a → match r2 with Ok b => R a b | Err err => heat_error err end.

Section follows.
Context {A B A' B' : Type} (R : A → B → Prop) (R' : A' → B' → Prop).
Lemma follows_Ok a b : R a b → follows R (Ok a) (Ok b).
Proof. by intros H ? [= <-]. Qed.
Lemma follows_bind r1 r2 k1 k2 :
  follows R' r1 r2 → (∀ a b, R' a b → follows R (k1 a) (k2 b)) → follows R (rbind r1 k1) (rbind r2 k2).
Proof.
  intros H Hk a (a' & Ha & Hb)%rbind_Ok. specialize (H a' Ha).
  destruct r2 as [b|err]; [|done]. by apply (Hk a' b H).
Qed.
Lemma follows_same {C} (r : pvm_result C) k1 k2 :
  (∀ c, follows R (k1 c) (k2 c)) → follows R (rbind r k1) (rbind r k2).
Proof. intros H. destruct r as [c|err]; [apply H|done]. Qed.
Lemma follows_guard (c : bool) k1 k2 err :
  follows R k1 k2 → follows R (guard? c else err; k1) (guard? c else err; k2).
Proof. intros H. by destruct c. Qed.
Lemma follows_limit (c1 c2 : bool) k1 k2 err :
  heat_error err → follows R k1 k2 → follows R (guard? c1 else err; k1) (guard? c2 else err; k2).
Proof. intros He H. destruct c1; [|done]. destruct c2; [done|]. by intros a _. Qed.
End follows.

Section machine.
Context {HA : Hashes} {CV : CryptoVerifier}.
Implicit Types (ctx : ExecutionContext) (rx : SignedReaction).

Definition with_temp (T : f32) ctx : ExecutionContext :=
  MkContext (Pvm.state ctx) (architect_pk ctx) T (crystal_index ctx).
Definition untaxed rx : Prop := payload rx ≠ Generic.
Definition same_writes (a b : Accumulator) : Prop := changeset a = changeset b.

Lemma execute_single_temp T ctx rx iter drift all acc1 acc2 :
  untaxed rx → same_writes acc1 acc2 →
  follows same_writes (execute_single ctx rx iter drift all acc1)
                      (execute_single (with_temp T ctx) rx iter drift all acc2).
Proof.
  intros Hrx Hcs. unfold execute_single. rewrite <-Hcs. apply follows_guard.
  assert (Hl : heat_error ThermalLimitExceeded ∧ heat_error ArithmeticOverflow) by (by split; [left|right]).
  destruct Hl as [Ht Ho]. unfold untaxed in Hrx. destruct (payload rx) as [| | | | |]; try done.
  all: try (apply follows_same; intros ?; apply follows_limit; [done|]; apply follows_same; intros q;
            apply follows_limit; [done|]; apply follows_same; intros ?).
  all: by apply follows_same; intros cs; apply follows_Ok.
Qed.

Lemma execute_all_temp T ctx iter drift all todo acc1 acc2 :
  Forall untaxed todo → same_writes acc1 acc2 →
  follows same_writes (execute_all ctx iter drift all todo acc1) (execute_all (with_temp T ctx) iter drift all todo acc2).
Proof.
  intros Hall; revert acc1 acc2; induction Hall as [|rx todo Hrx _ IH]; intros acc1 acc2 Hcs; [by apply follows_Ok|].
  eapply follows_bind; [by apply execute_single_temp|]. intros a b Hab. by apply IH.
Qed.

(** Without a Generic reaction the write set does not depend on the temperature; whether the
    machine accepts the batch does. *)
Lemma core_execute_temp st code rxs T1 T2 architect :
  Forall untaxed rxs →
  follows (λ p q, p.1 = q.1) (core_execute_payload st code rxs T1 architect) (core_execute_payload st code rxs T2 architect).
Proof.
  intros Hall. unfold core_execute_payload, execute_payload. eapply follows_bind.
  - by apply (execute_all_temp (f32_of_f64 (to_vm_thermal (f64_of_f32 T2))) (make_execution_context st code T1 architect)).
  - intros a b Hab. by apply follows_Ok.
Qed.
End machine.

(** ** Two nodes *)
Section replicas.
Context {HA : Hashes} {NC : NodeCodec} {AC : AtomCodec} {CV : CryptoVerifier}.
Context (G : MptNode → Prop) (Ginj : hash_injective_on G).
Context (K : bytes → Prop) (sha3_bytes : ∀ b, Forall is_byte (sha3_256 b)).
Context (sha3_inj : ∀ a b, K a → K b → sha3_256 a = sha3_256 b → a = b).
Implicit Types (e : PrimusEngine) (c : Crystal) (t : tree).

(** The accounts, the height, the contracts, the Architect and the difficulty are the same;
    the pending reactions and the heat of the chambers, the undo logs and the garbage of the
    tries may differ. *)
Record replicas e1 e2 : Prop := {
  rp_atoms : atoms (eng_state e2) = atoms (eng_state e1);
  rp_height : current_crystal_index (eng_state e2) = current_crystal_index (eng_state e1);
  rp_code : db_contracts (db (storage e2)) = db_contracts (db (storage e1));
  rp_architect : eng_architect_pk e2 = eng_architect_pk e1;
  rp_difficulty : epoch_difficulty e2 = epoch_difficulty e1;
}.

(** Two nodes in agreement with their disks, on tries of one shape. *)
Record in_step t e1 e2 : Prop := {
  is_first : node_ok G K t e1;
  is_second : node_ok G K t e2;
  is_replicas : replicas e1 e2;
}.

(** They have the same state root, and show the same last crystal and heat. *)
Record settled t e1 e2 : Prop := {
  st_in_step : in_step t e1 e2;
  st_root_eq : current_root (storage e2) = current_root (storage e1);
  st_tip : get_crystal_latest (storage e2) = get_crystal_latest (storage e1);
  st_temp : ch_temperature (chamber e2) = ch_temperature (chamber e1);
}.

(** The write sets of a run of the first node stay within [G] and [K]. *)
Fixpoint run_writes t e (cs : list Crystal) : Prop :=
  match cs with
  | [] => True
  | c :: cs =>
      ∀ w heat e' c', engine_execute (at_height e c) (reactions_data c) = Ok (w, heat) →
        finalize_solidification e c = (e', Ok c') →
        writes_ok G K t e w ∧ run_writes (tree_after t (trie_updates w)) e' cs
  end.

Lemma replicas_execute e1 e2 c w heat :
  replicas e1 e2 → engine_execute (at_height e1 c) (reactions_data c) = Ok (w, heat) →
  (Forall untaxed (reactions_data c) →
    match engine_execute (at_height e2 c) (reactions_data c) with
    | Ok (w', _) => w' = w
    | Err err => heat_error err
    end) ∧
  (ch_temperature (chamber e2) = ch_temperature (chamber e1) →
    engine_execute (at_height e2 c) (reactions_data c) = Ok (w, heat)).
Proof.
  intros [Ha Hh Hc Hp Hd] Hx.
  assert (Hx2 : engine_execute (at_height e2 c) (reactions_data c) =
    core_execute_payload (eng_state (at_height e1 c)) (db_contracts (db (storage e1))) (reactions_data c)
      (ch_temperature (chamber e2)) (eng_architect_pk e1)).
  { unfold engine_execute, core_execute_payload, make_execution_context, core_state_view. simpl. by rewrite Ha, Hc, Hp. }
  rewrite Hx2. split; [|intros ->; exact Hx]. intros Hu.
  pose proof (core_execute_temp _ _ _ _ (ch_temperature (chamber e2)) _ Hu _ Hx) as H.
  change (storage (at_height e1 c)) with (storage e1) in H. change (eng_architect_pk (at_height e1 c)) with (eng_architect_pk e1) in H.
  by destruct (core_execute_payload _ _ _ _ _) as [[w' h']|err].
Qed.

(** What a node shows after a solidification, and how the heat comes from the crystal. *)
Lemma finalize_shows e c e' c' :
  finalize_solidification e c = (e', Ok c') →
  get_crystal_latest (storage e') = Some c' ∧ ch_temperature (chamber e') = f32_mul (final_temp c) (f32_lit 7 10) ∧
  eng_architect_pk e' = eng_architect_pk e ∧ epoch_difficulty e' = epoch_difficulty e ∧
  ∃ w heat, engine_execute (at_height e c) (reactions_data c) = Ok (w, heat) ∧
    db_contracts (db (storage e')) = contracts w ∪ db_contracts (db (storage e)).
Proof.
  intros (cs & ce & st & r & Hx & Hc & -> & ->)%finalize_Ok_inv.
  apply commit_Ok_inv in Hc as (T' & -> & _). set (e1 := set_storage _ _).
  destruct (solidify_db e1 cs ce (current_root (storage e)) (set_state_root r c)) as (_ & D2 & _ & _ & D5 & D6 & _).
  split_and!; try done.
  - unfold get_crystal_latest, get_crystal. rewrite D6, D5. apply lookup_insert_eq.
  - exists cs, ce. by rewrite D2.
Qed.

Lemma finalize_root e c e' c' :
  finalize_solidification e c = (e', Ok c') → state_root c = zero32 ∨ state_root c = state_root c'.
Proof.
  unfold finalize_solidification. destruct (engine_execute _ _) as [[cs ce]|]; [|done].
  destruct (commit_changeset _ _ _) as [st [r|]]; [|done]. case_bool_decide; [by left|].
  case_bool_decide; [|done]. intros [= _ <-]. by right.
Qed.

(** The tries of two nodes have one root, before and after. *)
Lemma in_step_writes t e1 e2 w : in_step t e1 e2 → writes_ok G K t e1 w → writes_ok G K t e2 w.
Proof.
  intros [H1 H2 Hr] (HK & HG & Hne). split_and!; [done..|]. intros Hw. specialize (Hne Hw).
  rewrite (commits_to_root G K (mpt (storage e2)) (mpt (storage e1)) t t (db_atoms (db (storage e1)))); [done| |apply H1].
  rewrite <-(no_atoms _ _ _ _ H1), <-(rp_atoms _ _ Hr), (no_atoms _ _ _ _ H2). apply H2.
Qed.

(** One crystal: what the first node makes of [c], the second makes of [c] and of the
    crystal that the first has stored, if its machine accepts the same write set. *)
Lemma step_settles t e1 e2 c c2 w h1 h2 e1' c' :
  in_step t e1 e2 → writes_ok G K t e1 w →
  engine_execute (at_height e1 c) (reactions_data c) = Ok (w, h1) →
  engine_execute (at_height e2 c) (reactions_data c) = Ok (w, h2) →
  finalize_solidification e1 c = (e1', Ok c') → c2 = c ∨ c2 = c' →
  ∃ e2', finalize_solidification e2 c2 = (e2', Ok c') ∧ settled (tree_after t (trie_updates w)) e1' e2'.
Proof using Ginj sha3_bytes sha3_inj.
  intros Hs Hw1 Hx1 Hx2 Hf Hc2. pose proof (in_step_writes _ _ _ _ Hs Hw1) as Hw2.
  destruct Hs as [H1 H2 Hr]. pose proof (finalize_root _ _ _ _ Hf) as Hroot.
  destruct (finalize_commit G Ginj K sha3_bytes sha3_inj t e1 c w H1 Hw1) as (T1 & r1 & C1 & M1 & I1).
  destruct (finalize_commit G Ginj K sha3_bytes sha3_inj t e2 c w H2 Hw2) as (T2 & r2 & C2 & M2 & I2).
  assert (r2 = r1) as ->.
  { rewrite <-(no_atoms _ _ _ _ H2), (rp_atoms _ _ Hr), (no_atoms _ _ _ _ H1) in I2.
    pose proof (commits_to_root G K _ _ _ _ _ I1 I2) as E. rewrite M1, M2 in E. congruence. }
  destruct (finalize_inv G Ginj K sha3_bytes sha3_inj t e1 c H1) as [_ F1].
  destruct (F1 w h1 Hx1 Hw1) as (st1 & q1 & D1 & F1'). cbn [storage at_height set_state] in C1. rewrite C1 in D1.
  injection D1 as <- <-. assert (state_root c' = r1 ∧ c' = set_state_root r1 c) as [Hr' Hc'].
  { apply finalize_Ok_inv in Hf as (w' & ce & st & r & Hx & Hc & -> & _). fold (at_height e1 c) in Hx.
    rewrite Hx1 in Hx. injection Hx as <- <-. rewrite C1 in Hc. injection Hc as <- <-. done. }
  rewrite Hr' in Hroot. destruct (F1' Hroot) as (e & Hf1 & N1 & R1 & A1 & X1). rewrite Hf in Hf1. injection Hf1 as <- _.
  assert (at_height e2 c2 = at_height e2 c ∧ reactions_data c2 = reactions_data c ∧ index c2 = index c ∧
    final_temp c2 = final_temp c ∧ set_state_root r1 c2 = c' ∧ (state_root c2 = zero32 ∨ state_root c2 = r1))
    as (Eh & Ed & Ei & Et & Ec & Er) by (destruct Hc2 as [->|Hc2]; [done|]; subst c2 c'; split_and!; auto).
  destruct (finalize_inv G Ginj K sha3_bytes sha3_inj t e2 c2 H2) as [_ F2]. rewrite Eh, Ed, Ei in F2.
  destruct (F2 w h2 Hx2 Hw2) as (st2 & q2 & D2 & F2'). cbn [storage at_height set_state] in C2. rewrite C2 in D2.
  injection D2 as <- <-. rewrite Ec in F2'. destruct (F2' Er) as (e2' & Hf2 & N2 & R2 & A2 & X2). exists e2'. split; [done|].
  destruct (finalize_shows _ _ _ _ Hf) as (L1 & Q1 & P1 & Y1 & w1 & q1 & Z1 & B1).
  destruct (finalize_shows _ _ _ _ Hf2) as (L2 & Q2 & P2 & Y2 & w2 & q2 & Z2 & B2). rewrite Eh, Ed in Z2.
  destruct Hr as [Ra Rh Rc Rp Rd]. split; [split; [done..|split]| | |]; congruence.
Qed.

(** From where two nodes show the same, the second takes what the first takes, taxed or not. *)
Lemma settled_step t e1 e2 c cs e1' c' :
  settled t e1 e2 → run_writes t e1 (c :: cs) → verify_pow e1 c = Ok tt → finalize_solidification e1 c = (e1', Ok c') →
  ∃ t' e2', verify_pow e2 c = Ok tt ∧ finalize_solidification e2 c = (e2', Ok c') ∧ settled t' e1' e2' ∧ run_writes t' e1' cs.
Proof using Ginj sha3_bytes sha3_inj.
  intros [Hs _ _ Ht] Hw Hv Hf. destruct (finalize_shows _ _ _ _ Hf) as (_ & _ & _ & _ & w & heat & Hx & _).
  destruct (Hw w heat e1' c' Hx Hf) as [Hw1 Hrun].
  destruct (replicas_execute _ _ _ _ _ (is_replicas _ _ _ Hs) Hx) as [_ Hx2].
  destruct (step_settles t e1 e2 c c w heat heat e1' c' Hs Hw1 Hx (Hx2 Ht) Hf (or_introl eq_refl)) as (e2' & Hf2 & Hs').
  exists (tree_after t (trie_updates w)), e2'. split_and!; [|done..]. unfold verify_pow in *.
  by rewrite Ht, (rp_difficulty _ _ (is_replicas _ _ _ Hs)).
Qed.

(** So does a run of crystals. *)
Lemma run_settles cs t e1 e2 e1' :
  settled t e1 e2 → run_writes t e1 cs → apply_chain e1 cs = (e1', Ok tt) →
  ∃ e2' t', apply_chain e2 cs = (e2', Ok tt) ∧ settled t' e1' e2'.
Proof using Ginj sha3_bytes sha3_inj.
  revert t e1 e2; induction cs as [|c cs IH]; intros t e1 e2 Hs Hw Ha.
  { injection Ha as <-. exists e2, t. by split. }
  cbn [apply_chain] in *. destruct (verify_pow e1 c) as [[]|] eqn:Hv; [|done].
  destruct (finalize_solidification e1 c) as [e1a [c'|]] eqn:Hf; [|done].
  destruct (settled_step t e1 e2 c cs e1a c' Hs Hw Hv Hf) as (t' & e2a & -> & -> & Hs' & Hw'). by eapply IH.
Qed.

End replicas.

(** ** The difficulty *)
Section difficulty.
Context {HA : Hashes} {NC : NodeCodec} {AC : AtomCodec} {CV : CryptoVerifier}.
Implicit Types (e : PrimusEngine) (c : Crystal).

(** No crystal of the network changes the difficulty a node asks for: only the node that
    mines the crystal of an epoch does ([update_epoch]), and the others go on with theirs. *)
Theorem network_keeps_difficulty e c : epoch_difficulty (process_network_crystal e c).1 = epoch_difficulty e.
Proof. apply crystal_settings. Qed.
End difficulty.
