(* ===== verification/Sync.v ===== *)
(** A node that has fallen behind: the messages by which it learns of the height of another
    and gets the crystals it lacks, through the network and the core of both. *)
From S2P Require Import Prelude Floats Types Mpt MptTree MptFacts State Physics Pvm Crystal Chamber Storage Engine.
From S2P Require Import Processor ProcessorFacts Mempool Framing Shield Dht Gossip Ingress IngressFacts Crypto Sdk Node NodeFacts Replica.
Open Scope Z_scope.

(** ** Taking crystals one after the other *)
Section extending.
Context {HA : Hashes} {NC : NodeCodec} {AC : AtomCodec} {CV : CryptoVerifier}.
Implicit Types (e : PrimusEngine) (c l : Crystal).

(** Crystals from the network that each extend the last one and are taken. *)
Inductive extends : PrimusEngine → list Crystal → PrimusEngine → Prop :=
| extends_nil e : extends e [] e
| extends_cons e l c e1 cs e2 :
    get_crystal_latest (storage e) = Some l → index c = u64_wrapping_add (index l) 1 →
    prev_hash c = calculate_density l → state_root c ≠ zero32 →
    process_network_crystal e c = (e1, Ok tt) → extends e1 cs e2 → extends e (c :: cs) e2.

Lemma process_extension e l c :
  get_crystal_latest (storage e) = Some l → index c = u64_wrapping_add (index l) 1 →
  prev_hash c = calculate_density l → process_network_crystal e c = accept_crystal e c.
Proof.
  intros Hl Hi Hp. unfold process_network_crystal. rewrite Hl. cbv zeta.
  by rewrite (proj2 (Z.eqb_eq _ _) Hi), bool_decide_true.
Qed.

Lemma accept_Ok e c e1 :
  accept_crystal e c = (e1, Ok tt) → state_root c ≠ zero32 →
  verify_pow e c = Ok tt ∧ finalize_solidification e c = (e1, Ok c).
Proof.
  unfold accept_crystal. intros H Hz. destruct (verify_pow e c) as [[]|]; [|done]. split; [done|].
  destruct (finalize_solidification e c) as [e' [c'|]] eqn:Hf; [|done]. injection H as <-. do 2 f_equal.
  destruct (finalize_root _ _ _ _ Hf) as [|Hr]; [done|].
  apply finalize_Ok_inv in Hf as (? & ? & ? & r & _ & _ & -> & _). simpl in Hr. rewrite <-Hr. by destruct c.
Qed.

(** What the first node has taken, it stores under consecutive heights. *)
Lemma extends_stored e cs e' l :
  extends e cs e' → get_crystal_latest (storage e) = Some l → 0 ≤ index l → index l + len cs < 2 ^ 64 →
  index <$> cs = seqZ (index l + 1) (len cs) ∧
  (∀ c, c ∈ cs → get_crystal (storage e') (index c) = Some c) ∧
  (∀ i, i ≤ index l → get_crystal (storage e') i = get_crystal (storage e) i) ∧
  (∃ l', get_crystal_latest (storage e') = Some l' ∧ index l' = index l + len cs).
Proof.
  intros Hx. revert l; induction Hx as [e|e l0 c e1 cs e2 Hl Hi Hp Hz Ht Hx IH]; intros l Hl' Hpos Hlen.
  { split_and!; [done|by intros c Hc%elem_of_nil|done|]. exists l. split; [done|]. unfold len. simpl. lia. }
  rewrite Hl in Hl'. injection Hl' as ->. unfold len in Hlen. cbn [length] in Hlen.
  rewrite (process_extension e l c Hl Hi Hp) in Ht. destruct (accept_Ok e c e1 Ht Hz) as [_ Hf].
  destruct (finalize_shows _ _ _ _ Hf) as (Hc & _).
  assert (Hi' : index c = index l + 1) by (rewrite Hi; unfold u64_wrapping_add; apply Z.mod_small; lia).
  destruct (IH c Hc) as (H1 & H2 & H3 & l' & H4 & H5); [lia|unfold len; lia|].
  destruct (finalize_step _ _ _ _ Hf) as (? & ? & _ & _ & _ & _ & _ & Hdb & _).
  split_and!.
  - rewrite fmap_cons, H1, Hi'. unfold len. cbn [length]. rewrite (seqZ_cons (index l + 1)) by lia.
    f_equal. f_equal; lia.
  - intros d [->|Hd]%elem_of_cons; [|by apply H2]. rewrite H3 by done. unfold get_crystal. rewrite Hdb. apply lookup_insert_eq.
  - intros i Hle. rewrite H3 by lia. unfold get_crystal. rewrite Hdb. apply lookup_insert_ne. lia.
  - exists l'. split; [done|]. rewrite H5, Hi'. unfold len. cbn [length]. lia.
Qed.
End extending.

(** ** The second node follows *)
Section following.
Context {HA : Hashes} {NC : NodeCodec} {AC : AtomCodec} {CV : CryptoVerifier}.
Context (G : MptNode → Prop) (Ginj : hash_injective_on G).
Context (K : bytes → Prop) (sha3_bytes : ∀ b, Forall is_byte (sha3_256 b)).
Context (sha3_inj : ∀ a b, K a → K b → sha3_256 a = sha3_256 b → a = b).
Implicit Types (e : PrimusEngine) (c l : Crystal) (t : tree).

Lemma extends_follows t e1 cs e1' e2 :
  settled G K t e1 e2 → extends e1 cs e1' → run_writes G K t e1 cs →
  ∃ e2' t', extends e2 cs e2' ∧ settled G K t' e1' e2'.
Proof using Ginj sha3_bytes sha3_inj.
  intros Hs Hx. revert t e2 Hs; induction Hx as [e|e l c ea cs e1' Hl Hi Hp Hz Ht Hx IH]; intros t e2 Hs Hw.
  { exists e2, t. split; [constructor|done]. }
  rewrite (process_extension e l c Hl Hi Hp) in Ht. destruct (accept_Ok e c ea Ht Hz) as [Hv Hf].
  destruct (settled_step G Ginj K sha3_bytes sha3_inj t e e2 c cs ea c Hs Hw Hv Hf) as (t' & e2a & Hv2 & Hf2 & Hs' & Hw').
  destruct (IH t' e2a Hs' Hw') as (e2' & t'' & Hx2 & Hend). exists e2', t''. split; [|done].
  assert (Hl2 : get_crystal_latest (storage e2) = Some l) by (by rewrite (st_tip _ _ _ _ _ Hs)).
  econstructor; [exact Hl2|done..| |exact Hx2].
  rewrite (process_extension e2 l c Hl2 Hi Hp). unfold accept_crystal. by rewrite Hv2, Hf2.
Qed.
End following.

(** ** The messages *)
Section sync.
Context {HA : Hashes} {NC : NodeCodec} {AC : AtomCodec} {CV : CryptoVerifier} {RC : ReactionCodec} {RK : Rkyv}
        {EC : EnvelopeCodec} {CC : CrystalCodec} {MC : MessageCodec}.
Context (show : SocketAddr → bytes) (filter_bytes : bytes → result SignedReaction bytes) (error_text : IngressError → bytes).
Context (ck : Clocks) (peer_ip : bytes) (late : option nat).
Context (G : MptNode → Prop) (Ginj : hash_injective_on G).
Context (K : bytes → Prop) (sha3_bytes : ∀ b, Forall is_byte (sha3_256 b)).
Context (sha3_inj : ∀ a b, K a → K b → sha3_256 a = sha3_256 b → a = b).
Implicit Types (n : Network CoreHandleImpl) (s : CoreHandleImpl) (c l : Crystal) (e : PrimusEngine).

(** The messages of a session one after the other, and what is sent back. *)
Definition handle m n : Network CoreHandleImpl * list PrimusMessage :=
  (handle_message (CH := core_handle ck error_text) show filter_bytes peer_ip late m n).1.
Fixpoint handle_all n ms : Network CoreHandleImpl * list PrimusMessage :=
  match ms with
  | [] => (n, [])
  | m :: ms => let '(n, out) := handle m n in let '(n, out') := handle_all n ms in (n, out ++ out')
  end.

(** The second node is told the status of the first, asks it for what it lacks, and is
    given the answers. *)
Definition status_of n : PrimusMessage :=
  let '(h, en, cum) := core_local_state (net_core n) in MSync (Handshake (from_engine h en cum)).
Definition exchange nA nB : Network CoreHandleImpl * Network CoreHandleImpl :=
  let '(nB, request) := handle (status_of nA) nB in
  let '(nA, answers) := handle_all nA request in
  (nA, (handle_all nB answers).1).

Definition crystal_response c : PrimusMessage := CrystalResponse (ser_crystal c).
(** The bytes of a crystal are not those of a chunk. *)
Definition unframed c : Prop := de_envelope (ser_crystal c) = None.

Lemma take_response c n :
  unframed c → handle (crystal_response c) n =
    (Gossip.set_core (set_engine (process_network_crystal (engine (net_core n)) c).1 (net_core n)) n, []).
Proof.
  intros Hu. unfold handle, crystal_response. rewrite crystal_response_handled. unfold core_on_crystal, take_crystal.
  rewrite Hu, de_ser_crystal. by destruct (process_network_crystal _ _) as [e r].
Qed.

Lemma take_responses cs n e' :
  Forall unframed cs → extends (engine (net_core n)) cs e' →
  handle_all n (crystal_response <$> cs) = (Gossip.set_core (set_engine e' (net_core n)) n, []) ∧
  is_syncing e' = is_syncing (engine (net_core n)).
Proof.
  intros Hu. revert n; induction Hu as [|c cs Hc _ IH]; intros n Hx; inversion Hx as [|? l ? e1 ? ? Hl Hi Hp Hz Ht Hx']; subst.
  { split; [|done]. cbn. do 2 f_equal. destruct n as [? [] ? ? ? ?]. done. }
  rewrite fmap_cons. cbn [handle_all]. rewrite take_response by done. rewrite Ht. cbn [fst].
  destruct (IH (Gossip.set_core (set_engine e1 (net_core n)) n) Hx') as [-> Hs].
  destruct (crystal_settings (engine (net_core n)) c) as (_ & Hs1 & _). rewrite Ht in Hs1. cbn in Hs, Hs1.
  split; [done|congruence].
Qed.

Lemma serve_range n l cs e :
  extends e cs (engine (net_core n)) → get_crystal_latest (storage e) = Some l → 0 ≤ index l → index l + len cs < 2 ^ 64 →
  handle (MSync (RequestCrystals (index l + 1) (index l + len cs))) n = (n, crystal_response <$> cs).
Proof.
  intros Hx Hl Hpos Hlen. destruct (extends_stored _ _ _ _ Hx Hl Hpos Hlen) as (Hr & Hst & _).
  unfold handle. rewrite request_handled. cbn [fst]. f_equal. unfold crystal_range, core_get_crystal_bytes.
  replace (index l + len cs - (index l + 1) + 1) with (len cs) by lia. rewrite <-Hr. clear -Hst.
  induction cs as [|c cs IH]; [done|]. rewrite !fmap_cons. cbn [omap list_omap].
  rewrite (Hst c) by left. simpl. f_equal. apply IH. intros d Hd. apply Hst. by right.
Qed.

Lemma settled_syncing t e1 e2 b h : settled G K t e1 e2 → settled G K t e1 (set_syncing b h e2).
Proof. intros [[H1 [N1 N2 N3 N4] [R1 R2 R3 R4 R5]] Hr Ht Hc]. split; [split; [done|by split|by split]|done..]. Qed.

Lemma tip_height t e l : node_ok G K t e → get_crystal_latest (storage e) = Some l → current_crystal_index (eng_state e) = index l.
Proof. intros [_ _ _ (c & Hc & Hi)] Hl. rewrite Hl in Hc. injection Hc as ->. done. Qed.

(** A status of a greater height is answered with a request for the crystals in between. *)
Lemma request_missing nA nB l k :
  get_crystal_latest (storage (engine (net_core nB))) = Some l →
  current_crystal_index (eng_state (engine (net_core nB))) = index l →
  current_crystal_index (eng_state (engine (net_core nA))) = index l + k → 0 < k → 0 ≤ index l → index l + k < 2 ^ 64 →
  handle (status_of nA) nB =
    (Gossip.set_core (core_set_sync_target (index l + k) (net_core nB)) nB,
     [MSync (RequestCrystals (index l + 1) (index l + k))]).
Proof.
  intros Hl HB HA' Hk Hpos Hlen. unfold handle, status_of, core_local_state. rewrite HA'.
  rewrite status_handled. unfold core_local_state. rewrite HB.
  unfold is_more_dominant_than, from_engine. cbn [gs_crystal_index].
  rewrite (proj2 (Z.ltb_lt (index l) _)) by lia. cbn [fst].
  assert (u64_wrapping_add (index l) 1 = index l + 1) as -> by (unfold u64_wrapping_add; apply Z.mod_small; lia). done.
Qed.

End sync.
