(* ===== verification/KadRpc.v ===== *)
(** The remote call of the Kademlia engine (primus-net-opt lib.rs, KademliaRpc and
    handle_rpc): one request and one response over an encrypted stream, and the lookup over
    the nodes that can be reached.

    A stream delivers what was written to it (Noise); who answers behind an address, once
    the handshakes have succeeded, is a parameter. *)
From S2P Require Import Prelude Floats Types Dht DhtFacts Kademlia Gossip Server.
Open Scope Z_scope.

Inductive KademliaMsg :=
| FindNodeRequest (target : NodeID)
| FindNodeResponse (nodes : list PrimusNR).
(** bincode of the messages. *)
Class KademliaCodec := {
  ser_kad : KademliaMsg → bytes;
  de_kad : bytes → option KademliaMsg;
  de_ser_kad m : de_kad (ser_kad m) = Some m;
}.

Inductive RpcError :=
| ConnectionFailed
| RpcStreamClosed
| RpcFrameTooLarge
| RpcMalformed
| RpcUnexpected
| RpcSendFailed.

(** The engine of its own identity, with an empty table and the Noise key of its signing key.
    [KademliaRpc::new] gets the record, the keys and the domain of the engine. *)
Record KademliaRpc := MkRpc { rpc_nr : PrimusNR; rpc_noise_static : bytes; rpc_sk : bytes; rpc_domain : bytes }.
Record KademliaEngine := MkKadEngine {
  ke_local_id : NodeID;
  ke_table : RoutingTable;
  ke_rpc : KademliaRpc;
  ke_nr : PrimusNR;
  ke_noise_static : bytes;
  ke_sk : bytes;
  ke_domain : bytes;
}.
Definition kademlia_engine_new `{Hashes} (local_nr : PrimusNR) (ml_dsa_sk tls_domain : bytes) : KademliaEngine :=
  let id := node_id local_nr in
  let noise_static := sha3_256 ml_dsa_sk in
  MkKadEngine id (table_new id) (MkRpc local_nr noise_static ml_dsa_sk tls_domain) local_nr noise_static ml_dsa_sk tls_domain.

Section rpc.
Context {HA : Hashes} {LC : LengthDelimitedCodec} {KC : KademliaCodec}.
Implicit Types (t : RoutingTable) (nr : PrimusNR).

(** The next message of a stream. *)
Definition read_message (input : bytes) : result KademliaMsg RpcError :=
  match next_frame bounded_codec input with
  | None => Err RpcStreamClosed
  | Some None => Err RpcFrameTooLarge
  | Some (Some b) => ok_or (de_kad b) RpcMalformed
  end.
Definition written (m : KademliaMsg) : bytes := length_frame (ser_kad m).
(** The codec refuses to write a frame over the limit. *)
Definition send_message (m : KademliaMsg) : result bytes RpcError :=
  guard? len (ser_kad m) <=? MAX_GOSSIP_PAYLOAD else RpcSendFailed; Ok (written m).

(** The other side: what it writes. *)
Definition handle_rpc t (recv : bytes) : result bytes RpcError :=
  let? msg := read_message recv in
  match msg with
  | FindNodeRequest target => send_message (FindNodeResponse (get_closest target K t))
  | FindNodeResponse _ => Err RpcUnexpected
  end.

(** Who answers at an address: a node with its routing table, or nobody. *)
Context (reach : SocketAddr → option RoutingTable).
Definition rpc_find_node (a : SocketAddr) (target : NodeID) : result (list PrimusNR) RpcError :=
  match reach a with
  | None => Err ConnectionFailed
  | Some t =>
      let? request := send_message (FindNodeRequest target) in
      let resp_bytes := match handle_rpc t request with Ok b => b | Err _ => [] end in
      let? msg := read_message resp_bytes in
      match msg with
      | FindNodeResponse nodes => Ok nodes
      | FindNodeRequest _ => Err RpcUnexpected
      end
  end.

(** The liveness check of the routing table; [in_time]: within five seconds. *)
Definition engine_ping (in_time : PrimusNR → bool) (own : NodeID) nr : bool :=
  in_time nr && is_ok (rpc_find_node (addr nr) own).
(** The engine's lookup, over the network as it is. *)
Definition engine_find_node (mldsa_verify : bytes → bytes → bytes → bool) (in_time : PrimusNR → bool)
    (fuel : nat) (target : NodeID) t : option (RoutingTable * list PrimusNR) :=
  find_node mldsa_verify (engine_ping in_time (local_id t))
    (λ _ nr, match rpc_find_node (addr nr) target with Ok nodes => Some nodes | Err _ => None end) fuel target t.

(** ** Facts *)
Definition message_fits (m : KademliaMsg) : Prop := len (ser_kad m) ≤ MAX_GOSSIP_PAYLOAD.
Lemma read_written m : message_fits m → read_message (written m) = Ok m.
Proof. intros Hm. unfold read_message, written. by rewrite next_length_frame, de_ser_kad. Qed.
Lemma send_fits m : message_fits m → send_message m = Ok (written m).
Proof. intros Hm. unfold send_message. by rewrite (proj2 (Z.leb_le _ _)). Qed.

(** A call to a node that is there returns the peers nearest to the target that it knows,
    at most twenty, the nearest first, and each once. *)
Theorem rpc_answers a target t :
  reach a = Some t → table_ok t →
  message_fits (FindNodeRequest target) → message_fits (FindNodeResponse (get_closest target K t)) →
  ∃ nodes, rpc_find_node a target = Ok nodes ∧
    length nodes = Nat.min K (length (all_peers t)) ∧ NoDup (node_id <$> nodes) ∧ StronglySorted (nearer target) nodes ∧
    (∀ p q, p ∈ nodes → q ∈ all_peers t → q ∉ nodes → nearer target p q).
Proof.
  intros Hr Ht Hq Ha. exists (get_closest target K t).
  destruct (get_closest_correct target K t Ht) as (H1 & H2 & H3 & _ & H5). split_and!; [|done..].
  unfold rpc_find_node, handle_rpc. rewrite Hr, (send_fits (FindNodeRequest target)) by done. cbn [rbind].
  rewrite read_written by done. cbn [rbind]. rewrite send_fits by done. by rewrite read_written.
Qed.

(** The lookup over a network of finitely many peers ends, whoever answers and whatever is
    lost: [U] holds the identifiers any reachable node can name. *)
Theorem engine_lookup_ends (mldsa_verify : bytes → bytes → bytes → bool) (in_time : PrimusNR → bool) (U : gset NodeID) target t :
  (∀ a t', reach a = Some t' → Forall (λ nr, node_id nr ∈ U) (all_peers t')) →
  (∀ a t', reach a = Some t' → message_fits (FindNodeResponse (get_closest target K t'))) →
  message_fits (FindNodeRequest target) →
  local_id t ∈ U → Forall (λ nr, node_id nr ∈ U) (all_peers t) →
  is_Some (engine_find_node mldsa_verify in_time (S (size U)) target t).
Proof.
  intros HU Hfit Hq Hloc Hseed. unfold engine_find_node.
  assert (Hclosest : ∀ t', Forall (λ nr, node_id nr ∈ U) (all_peers t') → Forall (λ nr, node_id nr ∈ U) (get_closest target K t')).
  { intros t' Ht'. rewrite Forall_forall in *. intros nr Hin. apply Ht'.
    rewrite <-(proj1 (closest_split target t')). unfold get_closest in Hin.
    rewrite <-(take_drop K (sort_by_distance _ _)). apply elem_of_app. by left. }
  apply (lookup_ends _ _ _ U); [|by apply Hclosest|done|lia].
  intros round nr l. unfold rpc_find_node. destruct (reach (addr nr)) as [t'|] eqn:E; [|done].
  rewrite (send_fits (FindNodeRequest target)) by done. cbn [rbind]. unfold handle_rpc. rewrite read_written by done. cbn [rbind].
  rewrite send_fits by (by eapply Hfit). rewrite read_written by (by eapply Hfit). cbn [rbind].
  intros [= <-]. apply Hclosest. by eapply HU.
Qed.
End rpc.
