(* ===== verification/Connection.v ===== *)
(** The connections of the server (primus-net-opt server.rs, primus-core main.rs): the
    handshake on the first bi-stream, the streams that follow, and the bridge that answers
    Kademlia requests.

    The tasks of the connections and of their streams interleave: what a task does to the
    server is an event of [server_run]. *)
From S2P Require Import Prelude Floats Types Framing Dht DhtFacts Gossip Noise Crypto Handshake Server Kademlia KadRpc.
Open Scope Z_scope.

Section bridge.
Context {HA : Hashes} {LC : LengthDelimitedCodec} {KC : KademliaCodec}.
Implicit Types (d : PrimusDHT).

(** *** The bridge: the requests of a stream, one by one; with what it has written *)
Fixpoint bridge_loop (fuel : nat) d (recv sent : bytes) : option (bytes * result unit RpcError) :=
  match fuel with
  | O => None
  | S fuel =>
      match next_frame bounded_codec recv with
      | None => Some (sent, Ok tt)
      | Some None => Some (sent, Err RpcFrameTooLarge)
      | Some (Some b) =>
          match de_kad b with
          | None => Some (sent, Err RpcMalformed)
          | Some (FindNodeRequest target) =>
              match send_message (FindNodeResponse (find_closest target 20 d)) with
              | Err e => Some (sent, Err e)
              | Ok resp => bridge_loop fuel d (after_frame bounded_codec recv) (sent ++ resp)
              end
          | Some (FindNodeResponse _) => bridge_loop fuel d (after_frame bounded_codec recv) sent
          end
      end
  end.
Definition bridge_handle_rpc d (recv : bytes) : option (bytes * result unit RpcError) :=
  bridge_loop (S (length recv)) d recv [].

Lemma bridge_loop_ends fuel d recv sent : (length recv < fuel)%nat → is_Some (bridge_loop fuel d recv sent).
Proof.
  revert recv sent. induction fuel as [|fuel IH]; intros recv sent Hf; [lia|]. cbn [bridge_loop].
  destruct (next_frame bounded_codec recv) as [[b|]|] eqn:E; [|by eexists..].
  assert (Hs : (length (after_frame bounded_codec recv) < length recv)%nat) by (eapply after_frame_shorter; [|done]; cbn; lia).
  destruct (de_kad b) as [[target|nodes]|]; [|apply IH; lia|by eexists].
  destruct (send_message _); [apply IH; lia|by eexists].
Qed.

Definition request (target : NodeID) : bytes := written (FindNodeRequest target).
Definition response d (target : NodeID) : bytes := written (FindNodeResponse (find_closest target 20 d)).
Lemma written_nonempty m : (0 < length (written m))%nat.
Proof. unfold written, length_frame. rewrite length_app, length_to_be. lia. Qed.
Lemma bridge_loop_answers d targets fuel sent :
  Forall (λ target, message_fits (FindNodeRequest target) ∧ message_fits (FindNodeResponse (find_closest target 20 d))) targets →
  (length (targets ≫= request) < fuel)%nat →
  bridge_loop fuel d (targets ≫= request) sent = Some (sent ++ (targets ≫= response d), Ok tt).
Proof.
  intros Hfit. revert fuel sent. induction Hfit as [|target targets [Hq Ha] Hfit IH]; intros fuel sent Hf.
  - destruct fuel as [|fuel]; [simpl in Hf; lia|]. cbn [bridge_loop mbind list_bind].
    rewrite next_frame_end by (cbn; lia). by rewrite app_nil_r.
  - destruct fuel as [|fuel]; [simpl in Hf; lia|]. rewrite !bind_cons in *. cbn [bridge_loop].
    destruct (bounded_frame (ser_kad (FindNodeRequest target)) (targets ≫= request) Hq) as [H1 H2].
    change (length_frame (ser_kad (FindNodeRequest target))) with (request target) in H1, H2.
    rewrite H1, H2, de_ser_kad, send_fits by done. rewrite IH; [by rewrite <-app_assoc|].
    pose proof (written_nonempty (FindNodeRequest target)) as Hn. change (written (FindNodeRequest target)) with (request target) in Hn.
    rewrite length_app in Hf. lia.
Qed.

(** The bridge answers every request of a stream, in order, and always ends. *)
Theorem bridge_answers d recv targets :
  is_Some (bridge_handle_rpc d recv) ∧
  (Forall (λ target, message_fits (FindNodeRequest target) ∧ message_fits (FindNodeResponse (find_closest target 20 d))) targets →
   bridge_handle_rpc d (targets ≫= request) = Some (targets ≫= response d, Ok tt)).
Proof.
  split; [apply bridge_loop_ends; lia|]. intros Hfit.
  unfold bridge_handle_rpc. rewrite bridge_loop_answers by (done || lia). done.
Qed.
End bridge.

(** ** Connections *)
Section connections.
Context {HA : Hashes} {LC : LengthDelimitedCodec} {KC : KademliaCodec} {MD : MessageDecoder}.
Context {NH : NoiseHandshake} {HC : HandshakeCodec} {ML : MlDsa87}.
Context {S : Type} (mempool_push : bytes → S → S * bool).
Implicit Types (sv : Server S) (p : Party) (d : PrimusDHT) (inner : Inner).

(** The static key is derived from the signing key. *)
Definition server_party (eph : bytes) (nr : PrimusNR) (ml_dsa_sk : bytes) : Party :=
  MkParty (sha3_256 ml_dsa_sk) eph nr ml_dsa_sk.

(** What is written on the first stream, and the transport if the handshake completes. *)
Definition handle_inbound p (is_wasm : bool) inner : bytes * result (Transport * NoiseStream) HandshakeError :=
  let '(inner, r) := responder_start p inner in
  match r with
  | Err e => ([], Err e)
  | Ok (h, responder_e, out) =>
      let '(_, r) := responder_finish h responder_e inner in (out, inbound_stream is_wasm r)
  end.

(** [into_parts] keeps the transport; the stream of the handshake is dropped. *)
Definition open_session (remote_addr : bytes) (t : Transport) sv : Server S :=
  register_session remote_addr (session_new (transport_read t) (transport_write t)) sv.

Inductive ConnEvent :=
| UniStream (recv : bytes)
| BiRequest (recv : bytes)
| ConnectionEnded.

(** One round of the dispatch loop: the server, what is written back, and whether the loop
    goes on.  Only native peers are answered. *)
Definition dispatch (web : bool) d (remote_addr : bytes) (ev : ConnEvent) sv : Server S * bytes * bool :=
  match ev with
  | UniStream recv => (uni_stream mempool_push recv remote_addr sv, [], true)
  | BiRequest recv =>
      if web then (sv, [], true)
      else
        match sessions sv !! remote_addr with
        | None => (sv, [], true)
        | Some _ => (sv, match bridge_handle_rpc d recv with Some (out, _) => out | None => [] end, true)
        end
  | ConnectionEnded => (sv, [], false)
  end.
Fixpoint dispatch_loop (web : bool) d (remote_addr : bytes) (evs : list ConnEvent) sv : Server S * list bytes :=
  match evs with
  | [] => (sv, [])
  | ev :: evs =>
      let '(sv, out, go_on) := dispatch web d remote_addr ev sv in
      if go_on : bool then
        let '(sv, outs) := dispatch_loop web d remote_addr evs sv in (sv, out :: outs)
      else (sv, [])
  end.
(** A connection, from the handshake to its end. *)
Definition handle_connection (web : bool) p d (remote_addr : bytes) inner (evs : list ConnEvent) sv : Server S * list bytes :=
  match handle_inbound p web inner with
  | (out, Err _) => (sv, [out])
  | (out, Ok (t, _)) =>
      let '(sv, outs) := dispatch_loop web d remote_addr evs (open_session remote_addr t sv) in (sv, out :: outs)
  end.

Definition handle_native_connection := handle_connection false.
Definition handle_web_connection := handle_connection true.

(** ** The accept loops
    A client that comes to an endpoint completes the transport's handshake and its request,
    or fails at one of them; [None] is the end of the endpoint. *)
Inductive Attempt (A : Type) := Opened (conn : A) | IncomingFailed | RequestFailed.
Arguments Opened {A} conn.
Arguments IncomingFailed {A}.
Arguments RequestFailed {A}.
(** [WebTransportListener::accept] waits for both. *)
Definition wt_accept {A} (a : Attempt A) : option A := match a with Opened conn => Some conn | _ => None end.
(** The connections that get a task: a failed one is logged in the task of a QUIC client, and
    breaks the loop of WebTransport. *)
Definition quic_loop {A} (incoming : list (Attempt A)) : list A := omap wt_accept incoming.
Fixpoint web_loop {A} (incoming : list (Attempt A)) : list A :=
  match incoming with
  | [] => []
  | a :: incoming => match wt_accept a with Some conn => conn :: web_loop incoming | None => [] end
  end.

(** One client that gives up its handshake ends WebTransport for the others; on QUIC it
    changes nothing. *)
Theorem aborted_handshake_ends_webtransport {A} (before after : list (Attempt A)) (a : Attempt A) :
  wt_accept a = None →
  web_loop (before ++ a :: after) = web_loop before ∧ quic_loop (before ++ a :: after) = quic_loop (before ++ after).
Proof.
  intros Ha. split.
  - induction before as [|b before IH]; cbn; [by rewrite Ha|]. destruct (wt_accept b); [by rewrite IH|done].
  - unfold quic_loop. rewrite !omap_app. cbn. by rewrite Ha.
Qed.

(** ** The server over all its connections *)
(** What its tasks do to it: a connection that comes with its first stream, and a gossip
    stream; in the order in which they do it. *)
Inductive ServerEvent :=
| Accepted (web : bool) (p : Party) (remote_addr : bytes) (inner : Inner)
| GossipStream (recv remote_addr : bytes).
Definition server_event (ev : ServerEvent) sv : Server S :=
  match ev with
  | Accepted web p remote_addr inner =>
      match (handle_inbound p web inner).2 with Ok (t, _) => open_session remote_addr t sv | Err _ => sv end
  | GossipStream recv remote_addr => gossip_task mempool_push recv remote_addr sv
  end.
Definition server_run (evs : list ServerEvent) sv : Server S := foldl (λ sv ev, server_event ev sv) sv evs.

(** A connection is a sequence of such events. *)
Lemma dispatch_events web d remote_addr evs sv :
  ∃ log, (dispatch_loop web d remote_addr evs sv).1 = server_run log sv.
Proof.
  revert sv. induction evs as [|ev evs IH]; intros sv; [by exists []|]. cbn [dispatch_loop].
  assert (Hd : ∃ log, (dispatch web d remote_addr ev sv).1.1 = server_run log sv).
  { destruct ev as [recv|recv|]; cbn [dispatch]; [|destruct web; [|case_match]; by exists []|by exists []].
    cbn [fst]. unfold uni_stream. case_match; [by exists [GossipStream recv remote_addr]|by exists []]. }
  destruct (dispatch web d remote_addr ev sv) as [[sv' out] [|]]; [|exact Hd]. cbn [fst] in Hd.
  destruct Hd as [log1 ->]. destruct (IH (server_run log1 sv)) as [log2 H2].
  destruct (dispatch_loop web d remote_addr evs (server_run log1 sv)) as [sv'' outs]. cbn [fst] in *.
  exists (log1 ++ log2). unfold server_run in *. by rewrite foldl_app.
Qed.
Lemma connection_events web p d remote_addr inner evs sv :
  ∃ log, (handle_connection web p d remote_addr inner evs sv).1 = server_run log sv.
Proof.
  unfold handle_connection. destruct (handle_inbound p web inner) as [out [[t ns]|e]] eqn:E; [|by exists []].
  destruct (dispatch_events web d remote_addr evs (open_session remote_addr t sv)) as [log H].
  destruct (dispatch_loop web d remote_addr evs (open_session remote_addr t sv)) as [sv' outs]. cbn [fst] in *.
  exists (Accepted web p remote_addr inner :: log). unfold server_run. cbn [foldl server_event]. by rewrite E.
Qed.

(** The session of a connection that ends without a failed gossip stream is kept. *)
Theorem ended_session_stays web p d remote_addr inner evs sv out t ns :
  handle_inbound p web inner = (out, Ok (t, ns)) → Forall (λ ev, ∀ recv, ev ≠ UniStream recv) evs →
  is_Some (sessions (handle_connection web p d remote_addr inner (evs ++ [ConnectionEnded]) sv).1 !! remote_addr).
Proof.
  intros Hi Hevs. unfold handle_connection. rewrite Hi.
  assert (Hs : ∀ sv, (dispatch_loop web d remote_addr (evs ++ [ConnectionEnded]) sv).1 = sv).
  { clear Hi. induction Hevs as [|ev evs Hev _ IH]; intros sv'; [done|]. cbn [app dispatch_loop].
    assert (Hd : ∃ o g, dispatch web d remote_addr ev sv' = (sv', o, g)).
    { destruct ev as [recv|recv|]; [by destruct (Hev recv)|destruct web; [|cbn [dispatch]; case_match]; by eexists _, _|by eexists _, _]. }
    destruct Hd as (o & g & ->). destruct g; [|done]. specialize (IH sv').
    by destruct (dispatch_loop web d remote_addr (evs ++ [ConnectionEnded]) sv'). }
  specialize (Hs (open_session remote_addr t sv)).
  destruct (dispatch_loop _ _ _ _ _) as [sv' outs]. cbn [fst] in Hs |- *. rewrite Hs.
  unfold open_session, register_session. cbn [sessions]. rewrite lookup_insert_eq. by eexists.
Qed.

(** *** Where a session comes from *)
(** What the node [p] reads from [inner], the bytes of a connection, when it completes a
    handshake that ends in the transport [t] with the owner of the record [who]: in the first
    message the peer's ephemeral key, to which [p] answers with its own, [own_e]; in the last
    one a payload that decodes to the record, which signs itself, and to a signature of
    [own_e] under the record's key. *)
Definition proved_identity p inner (t : Transport) (who : PrimusNR) : Prop :=
  ∃ rest h own_e out inner' m3 h' payload sig,
    responder_start p inner = (rest, Ok (h, own_e, out)) ∧
    framed_next [] rest = (inner', Ok m3) ∧ hs_read h m3 = Some (h', payload) ∧ into_transport h' = Some t ∧
    de_payload payload = Some (MkPayload who sig) ∧
    nr_verify mldsa_verify who = true ∧ verify (nr_public_key who) own_e sig = true.
(** A session comes from a connection of its address whose handshake is completed. *)
Definition known_origin (log : list ServerEvent) (remote_addr : bytes) (session : PeerSession) : Prop :=
  ∃ web p inner t who, Accepted web p remote_addr inner ∈ log ∧ proved_identity p inner t who ∧
    noise_read session = transport_read t.
Definition sessions_known (log : list ServerEvent) sv : Prop := map_Forall (known_origin log) (sessions sv).

Lemma inbound_proved p web inner out t ns :
  handle_inbound p web inner = (out, Ok (t, ns)) → ∃ who, proved_identity p inner t who.
Proof.
  unfold handle_inbound. destruct (responder_start p inner) as [rest [[[h own_e] out']|e]] eqn:Hs; [|done].
  unfold responder_finish. destruct (framed_next [] rest) as [inner' [m3|e]] eqn:Hm; [|done]. cbn [rbind].
  destruct (hs_read h m3) as [[h' payload]|] eqn:Hr; [|done]. cbn [ok_or rbind].
  destruct (check_payload own_e payload) as [[]|e] eqn:Hc; [|done]. cbn [rbind].
  destruct (into_transport h') as [t'|] eqn:Ht; [|done]. cbn [ok_or inbound_stream rbind]. intros H. injection H as _ -> _.
  destruct (check_payload_Ok _ _ Hc) as ([who sig] & Hd & Hn & Hv). cbn [hp_nr ephemeral_sig] in *.
  by exists who, rest, h, own_e, out', inner', m3, h', payload, sig.
Qed.

Lemma event_sessions_known log ev sv :
  sessions_known log sv → sessions_known (log ++ [ev]) (server_event ev sv).
Proof.
  intros Hk. assert (Hm : sessions_known (log ++ [ev]) sv).
  { intros a session Hs. destruct (Hk a session Hs) as (web & p & inner & t & who & Hin & Hw).
    exists web, p, inner, t, who. split; [|exact Hw]. apply elem_of_app. by left. }
  destruct ev as [web p remote_addr inner|recv remote_addr]; cbn [server_event].
  - destruct (handle_inbound p web inner) as [out [[t ns]|e]] eqn:Hi; cbn [snd]; [|exact Hm].
    unfold sessions_known, open_session, register_session. cbn [sessions]. apply map_Forall_insert_2; [|done].
    destruct (inbound_proved _ _ _ _ _ _ Hi) as [who Hw]. exists web, p, inner, t, who.
    split; [|by split]. apply elem_of_app. right. by apply list_elem_of_singleton.
  - apply gossip_task_origins; [exact Hm|]. by intros a session ct.
Qed.
Lemma run_sessions_known log sv0 : sessions sv0 = ∅ → sessions_known log (server_run log sv0).
Proof.
  intros H0. induction log as [|ev log IH] using rev_ind.
  - unfold sessions_known, server_run. cbn [foldl]. rewrite H0. apply map_Forall_empty.
  - unfold server_run in *. rewrite foldl_app. cbn [foldl]. by apply event_sessions_known.
Qed.
Lemma gossip_task_core recv remote_addr sv :
  srv_core (gossip_task mempool_push recv remote_addr sv) = srv_core (handle_gossip_stream mempool_push recv remote_addr sv).1.
Proof. unfold gossip_task. by destruct (handle_gossip_stream mempool_push recv remote_addr sv) as [sv' [|e]]. Qed.

(** C27. On a server that started without sessions, after any connections and streams in any
    order, only a gossip stream changes the core, and only so: the data of one reaction are
    pushed into the mempool; they are what the frame read from that stream decrypts to, with
    the session's next nonce, under the transport in which the handshake of an earlier
    connection from that address has ended; and in that handshake the node has read a record
    that signs itself, and a signature under the record's key of the ephemeral key the node
    had made for it. *)
Theorem network_input_authenticated sv0 log ev :
  sessions sv0 = ∅ → let sv := server_run log sv0 in let sv' := server_event ev sv in
  srv_core sv' ≠ srv_core sv →
  ∃ recv remote_addr session frame plaintext data ttl web p inner t who,
    ev = GossipStream recv remote_addr ∧
    Accepted web p remote_addr inner ∈ log ∧ proved_identity p inner t who ∧
    sessions sv !! remote_addr = Some session ∧ next_frame gossip_codec recv = Some (Some frame) ∧
    transport_read t (recv_nonce session) (drop 8 frame) = Some plaintext ∧
    de_msg plaintext = Some (NewReaction data ttl) ∧ srv_core sv' = (mempool_push data (srv_core sv)).1.
Proof.
  intros H0 sv sv' Hne. pose proof (run_sessions_known log sv0 H0 : sessions_known log sv) as Hk.
  subst sv'. destruct ev as [web p remote_addr inner|recv remote_addr]; cbn [server_event] in *.
  { destruct (handle_inbound p web inner) as [out [[t ns]|e]]; by destruct Hne. }
  rewrite gossip_task_core in Hne |- *.
  destruct (gossip_stream_authenticated mempool_push recv remote_addr sv Hne)
    as (session & frame & plaintext & data & ttl & Hs & Hf & Hr & Hm & Hc & _).
  destruct (Hk remote_addr session Hs) as (web & p & inner & t & who & Hin & Hw & Hrd). rewrite Hrd in Hr.
  by exists recv, remote_addr, session, frame, plaintext, data, ttl, web, p, inner, t, who.
Qed.

(** C28. A peer that runs the handshake with its own key gets a session, whatever the cuts and
    delays of the messages: in place of an earlier one of the same address, with nonces that
    start at 0, and it reads what the peer writes, before any stream of the connection is
    served. *)
Theorem honest_session pi p d remote_addr web sv :
  honest pi → honest p → payload_fits pi → payload_fits p →
  ∃ hi ei m1 m2 ti m3 session, let f1 := hs_frame m1 in let f2 := hs_frame m2 in let f3 := hs_frame m3 in
    initiator_start pi = Ok (hi, ei, f1) ∧
    (∀ x a rest, arrives f2 x a → initiator_finish pi hi ei (a ++ rest) = (rest, Ok (ti, f3))) ∧
    (∀ x1 a1 x3 a3 rest evs, arrives f1 x1 a1 → arrives f3 x3 a3 →
       let '(sv', outs) := dispatch_loop web d remote_addr evs (register_session remote_addr session sv) in
       handle_connection web p d remote_addr (a1 ++ a3 ++ rest) evs sv = (sv', f2 :: outs)) ∧
    recv_nonce session = 0 ∧ send_nonce session = 0 ∧
    ∀ b, len b + TAG ≤ MAX_FRAME_SIZE → ∃ c, transport_write ti 0 b = Some c ∧ (decrypt c session).2 = Some b.
Proof.
  intros Hi Hp Fi Fp.
  destruct (handshake_completes pi p Hi Hp Fi Fp) as (hi & ei & m1 & hr & er & m2 & ti & m3 & tr & S1 & S2 & S3 & S4 & D & _).
  exists hi, ei, m1, m2, ti, m3, (session_new (transport_read tr) (transport_write tr)). cbv zeta.
  split; [done|]. split; [done|]. split; [|split_and!; [done..|intros b Hb; exact (D 0 b Hb)]].
  intros x1 a1 x3 a3 rest evs A1 A3.
  destruct (dispatch_loop web d remote_addr evs _) as [sv' outs] eqn:Hd. unfold handle_connection, handle_inbound.
  rewrite (S2 x1), (S4 x3) by done. cbn [inbound_stream rbind]. unfold open_session. by rewrite Hd.
Qed.
End connections.
