(* ===== verification/Client.v ===== *)
(** The terminal client's connection to a node (primus-client rpc.rs): the messages, the
    two transports, and the calls.

    Parameters: bincode of the client's messages, which are the node's at the same
    positions, and snow's transport.  A socket is the bytes the node has sent before it
    closes; a node is its network state, and answers with the handler of Gossip. *)
From S2P Require Import Prelude Floats Types Dht Gossip Noise Framing Server Shield Crypto Sdk.
Open Scope Z_scope.

Definition MAX_FRAME_BYTES : Z := 16 * 1024 * 1024.

Inductive CliMessage :=
| CPing
| CPong
| CHandshake (version node_id : bytes) (chain_height : Z) (total_energy : f32) (listener_port : Z)
| CGetPeers
| CPeersResponse (peers : list bytes)
| CNewReaction (data : bytes) (ttl : Z)
| CNewCrystal (data : bytes) (ttl : Z)
| CGetCrystal (height : Z)
| CCrystalResponse (data : bytes)
| CSync
| CFetchState (addr : bytes)
| CStateResponse (m n : Z) (last_hash el : bytes)
| CSubmitReaction (reaction_bytes : bytes)
| CReactionAck (hash : bytes)
| CNodeError (reason : bytes)
| CGetProof (addr : bytes)
| CProofResponse (p : MerkleProof).

(** The node's message with the same position and the same fields; [SyncPlaceholder] has
    none. *)
Definition node_message (m : CliMessage) : option PrimusMessage :=
  match m with
  | CPing => Some Ping
  | CPong => Some Pong
  | CHandshake v i h e p => Some (MHandshake v i h e p)
  | CGetPeers => Some GetPeers
  | CPeersResponse l => Some (PeersResponse l)
  | CNewReaction d ttl => Some (NewReaction d ttl)
  | CNewCrystal d ttl => Some (NewCrystal d ttl)
  | CGetCrystal h => Some (GetCrystal h)
  | CCrystalResponse d => Some (CrystalResponse d)
  | CSync => None
  | CFetchState a => Some (FetchState a)
  | CStateResponse m n l e => Some (StateResponse m n l e)
  | CSubmitReaction b => Some (SubmitReaction b)
  | CReactionAck h => Some (ReactionAck h)
  | CNodeError r => Some (NodeError r)
  | CGetProof a => Some (GetProof a)
  | CProofResponse p => Some (ProofResponse p)
  end.

(** bincode writes the position of the variant and its fields: what one enum writes, the
    other reads as the variant at that position. *)
Class ClientCodec `{MessageCodec, MessageDecoder} := {
  ser_cli : CliMessage → bytes;
  de_cli : bytes → option CliMessage;
  de_msg_cli m m' : node_message m = Some m' → de_msg (ser_cli m) = Some m';
  de_cli_msg m m' : node_message m = Some m' → de_cli (ser_msg m') = Some m;
}.

Inductive ClientError :=
| NodeUnreachable
| NodeRefused (reason : bytes)
| OutgoingTooLarge (n : Z)
| IncomingTooLarge (n : Z)
| EmptyFrame
| SocketError
| DecryptionError
| Undecodable
| UnexpectedResponse
| InvalidAddress (e : SdkError)
| BuildFailed (e : SdkError).

(** ** NoiseTransport *)
Record NoiseTransport := MkTransport {
  t_send_nonce : Z;
  t_recv_nonce : Z;
  t_read_buf : bytes;
}.
Definition transport_new : NoiseTransport := MkTransport 0 0 [].

Section transport.
Context {ST : StatelessTransport}.
Implicit Types tr : NoiseTransport.

Definition CHUNK : nat := Z.to_nat 65519.

Definition send_chunk (acc : NoiseTransport * bytes) (chunk : bytes) : NoiseTransport * bytes :=
  let '(tr, out) := acc in
  let ciphertext := write_message (t_send_nonce tr) chunk in
  (MkTransport (t_send_nonce tr + 1) (t_recv_nonce tr) (t_read_buf tr),
   out ++ to_be 2 (len ciphertext) ++ ciphertext).

(** The bytes written to the socket. *)
Definition send_raw (plaintext : bytes) tr : NoiseTransport * result bytes ClientError :=
  let app_len := as_u32 (len plaintext) in
  if MAX_FRAME_BYTES <? app_len then (tr, Err (OutgoingTooLarge app_len))
  else
    let app_frame := to_be 4 app_len ++ plaintext in
    let '(tr, out) := foldl send_chunk (tr, []) (chunks CHUNK app_frame) in
    (tr, Ok out).

(** The loop reads a frame, of two bytes at least, each time. *)
Fixpoint fill_buf_to (fuel target_len : nat) tr (input : bytes)
    : option (NoiseTransport * bytes * result unit ClientError) :=
  match fuel with
  | O => None
  | S fuel =>
      if (target_len <=? length (t_read_buf tr))%nat then Some (tr, input, Ok tt)
      else if (length input <? 2)%nat then Some (tr, [], Err NodeUnreachable)
      else
        let n := Z.to_nat (of_be (take 2 input)) in
        let input := drop 2 input in
        if (length input <? n)%nat then Some (tr, [], Err SocketError)
        else
          match read_message (t_recv_nonce tr) (take n input) with
          | None => Some (tr, drop n input, Err DecryptionError)
          | Some out =>
              fill_buf_to fuel target_len
                (MkTransport (t_send_nonce tr) (t_recv_nonce tr + 1) (t_read_buf tr ++ out)) (drop n input)
          end
  end.

(** More fuel than the input has bytes is enough (ClientFacts). *)
Definition fill_to (target_len : nat) tr (input : bytes) : NoiseTransport * bytes * result unit ClientError :=
  default (tr, input, Ok tt) (fill_buf_to (S (length input)) target_len tr input).

Definition recv_raw tr (input : bytes) : NoiseTransport * bytes * result bytes ClientError :=
  match fill_to 4 tr input with
  | (tr, input, Err e) => (tr, input, Err e)
  | (tr, input, Ok _) =>
      let frame_len := of_be (take 4 (t_read_buf tr)) in
      if MAX_FRAME_BYTES <? frame_len then (tr, input, Err (IncomingTooLarge frame_len))
      else if frame_len =? 0 then (tr, input, Err EmptyFrame)
      else
        match fill_to (4 + Z.to_nat frame_len) tr input with
        | (tr, input, Err e) => (tr, input, Err e)
        | (tr, input, Ok _) =>
            let total := (4 + Z.to_nat frame_len)%nat in
            (MkTransport (t_send_nonce tr) (t_recv_nonce tr) (drop total (t_read_buf tr)), input,
             Ok (drop 4 (take total (t_read_buf tr))))
        end
  end.
End transport.

(** ** A plain connection to a node *)
Definition plain_frame (b : bytes) : bytes := length_frame b.

Record AtomState := MkAtomState {
  st_mass : Z;
  st_nonce : Z;
  st_last_hash : bytes;
  st_element : AtomElement;
}.

(** Substring search on strings. *)
Fixpoint contains (needle hay : bytes) : bool :=
  bool_decide (take (length needle) hay = needle) ||
  match hay with [] => false | _ :: hay => contains needle hay end.

Section client.
Context {HA : Hashes} {MC : MessageCodec} {MDec : MessageDecoder} {CLI : ClientCodec} {LC : LengthDelimitedCodec}
        {MD : MlDsa87} {HX : Hex} {RK : Rkyv} {S : Type} {CH : CoreHandle S}.
Context (show : SocketAddr → bytes) (filter : bytes → result SignedReaction bytes) (client_ip : bytes).
(** The node's time for the nth call ([None]: it suffices; see [serve]), and the system time. *)
Context (late : nat → option nat) (now : nat → Z).

(** The node, the bytes on their way to the client, and whether the session lives. *)
Record Link := MkLink {
  node : Network S;
  inbox : bytes;
  is_open : bool;
}.
Implicit Types (l : Link) (b : TransactionBuilder).

Definition send_all (out : list PrimusMessage) : bytes := out ≫= λ m, plain_frame (ser_msg m).

(** One frame reaches the node: its session answers, or ends. *)
Definition send_msg (i : nat) (m : CliMessage) l : Link :=
  if negb (is_open l) then l
  else
    match next_frame bounded_codec (plain_frame (ser_cli m)) with
    | Some (Some frame) =>
        match de_msg frame with
        | Some m =>
            let '(n, out, _) := handle_message show filter client_ip (late i) m (node l) in
            MkLink n (inbox l ++ send_all out) true
        | None => MkLink (node l) (inbox l) false
        end
    | _ => MkLink (node l) (inbox l) false
    end.

Definition set_inbox (input : bytes) l : Link := MkLink (node l) input (is_open l).
Definition recv_msg l : Link * result CliMessage ClientError :=
  if len (inbox l) <? 4 then (set_inbox [] l, Err NodeUnreachable)
  else
    let n := of_be (take 4 (inbox l)) in
    let rest := drop 4 (inbox l) in
    if MAX_FRAME_BYTES <? n then (set_inbox rest l, Err (IncomingTooLarge n))
    else if len rest <? n then (set_inbox [] l, Err SocketError)
    else (set_inbox (drop (Z.to_nat n) rest) l, ok_or (de_cli (take (Z.to_nat n) rest)) Undecodable).

Definition exchange (i : nat) (m : CliMessage) l : Link * result CliMessage ClientError := recv_msg (send_msg i m l).

Definition element_of_name (name : bytes) : AtomElement :=
  if bool_decide (name = bytes_of_string "Hydrogen") then SHydrogen
  else if bool_decide (name = bytes_of_string "Carbon") then SCarbon
  else if bool_decide (name = bytes_of_string "Oxygen") then SOxygen
  else if bool_decide (name = bytes_of_string "Gold") then SGold
  else SHydrogen.

Definition atom_state_of (m : CliMessage) : result AtomState ClientError :=
  match m with
  | CStateResponse mass nonce last_hash el => Ok (MkAtomState mass nonce last_hash (element_of_name el))
  | CNodeError reason => Err (NodeRefused reason)
  | _ => Err UnexpectedResponse
  end.
Definition client_atom_state (i : nat) (address_hex : bytes) l : Link * result AtomState ClientError :=
  match decode_address address_hex with
  | Err e => (l, Err (InvalidAddress e))
  | Ok addr_bytes =>
      let '(l, r) := exchange i (CFetchState addr_bytes) l in
      (l, let? m := r in atom_state_of m)
  end.

Definition with_state (st : AtomState) b : TransactionBuilder :=
  set_sender_last_hash (st_last_hash st) (set_sender_nonce (st_nonce st) b).

(** The loop: a second attempt is made only after the first, with the sequence fetched anew.
    [i] counts the messages sent. *)
Fixpoint broadcast_loop (fuel i : nat) (wallet : Wallet) b (retry_done : bool) l
    : option (Link * result bytes ClientError) :=
  match fuel with
  | O => None
  | Datatypes.S fuel =>
      match build (now i) b with
      | Err e => Some (l, Err (BuildFailed e))
      | Ok tx =>
          match exchange i (CSubmitReaction (to_bytes tx)) l with
          | (l, Err e) => Some (l, Err e)
          | (l, Ok (CReactionAck reaction_hash)) => Some (l, Ok (take 4 reaction_hash))
          | (l, Ok (CNodeError reason)) =>
              if contains (bytes_of_string "Sequence Mismatch") reason && negb retry_done then
                match client_atom_state (i + 1) (address wallet) l with
                | (l, Err e) => Some (l, Err e)
                | (l, Ok st) => broadcast_loop fuel (i + 2) wallet (with_state st b) true l
                end
              else Some (l, Err (NodeRefused reason))
          | (l, Ok _) => Some (l, Err UnexpectedResponse)
          end
      end
  end.
Definition broadcast_tx (i : nat) (wallet : Wallet) b l : Link * result bytes ClientError :=
  default (l, Err UnexpectedResponse) (broadcast_loop 2 i wallet b false l).

Definition get_crystal (i : nat) (height : Z) l : Link * result bytes ClientError :=
  let '(l, r) := exchange i (CGetCrystal height) l in
  (l, let? m := r in
      match m with
      | CCrystalResponse b => Ok b
      | CNodeError reason => Err (NodeRefused reason)
      | _ => Err UnexpectedResponse
      end).

Definition get_balance_proof (i : nat) (address_hex : bytes) l : Link * result MerkleProof ClientError :=
  match decode_address address_hex with
  | Err e => (l, Err (InvalidAddress e))
  | Ok addr_bytes =>
      let '(l, r) := exchange i (CGetProof addr_bytes) l in
      (l, let? m := r in
          match m with
          | CProofResponse p => Ok p
          | CNodeError reason => Err (NodeRefused reason)
          | _ => Err UnexpectedResponse
          end)
  end.

(** ** main.rs: what the poller does with the command to send *)
Inductive SendOutcome :=
| Sent (hash : bytes)
| BroadcastError (e : ClientError)
| InsufficientBalance
| InvalidRecipient
| NoSenderState (e : ClientError).

(** [amount + PROTOCOL_MIN_FEE] wraps around in a release build. *)
Definition send_tx (i : nat) (w : Wallet) (to : bytes) (amount : Z) l : Link * SendOutcome :=
  match client_atom_state i (address w) l with
  | (l, Err e) => (l, NoSenderState e)
  | (l, Ok state) =>
      if st_mass state <? u64_wrapping_add amount PROTOCOL_MIN_FEE then (l, InsufficientBalance)
      else
        match decode_address to with
        | Err _ => (l, InvalidRecipient)
        | Ok recipient =>
            let b := set_recipient recipient (builder_new w) in
            let b := set_sender_mass (st_mass state) (set_fee PROTOCOL_MIN_FEE (set_amount amount b)) in
            let b := set_sender_nonce (st_nonce state) (set_sender_last_hash (st_last_hash state) b) in
            let b := set_sender_element (st_element state) b in
            match broadcast_tx (i + 1) w b l with
            | (l, Ok hash) => (l, Sent hash)
            | (l, Err e) => (l, BroadcastError e)
            end
        end
  end.
End client.
Arguments Link : clear implicits.
Arguments MkLink {S}.
