(* ===== verification/ClientFacts.v ===== *)
(** The client's connection works: its encrypted transport delivers what it is given, a
    broadcast ends, and a payment made with the client reaches the node's mempool. *)
From S2P Require Import Prelude Floats Types Dht Gossip Noise NoiseFacts Framing Server Shield Crypto Sdk.
From S2P Require Import Mpt State Pvm Crystal Storage Engine Processor Mempool Ingress IngressFacts SdkFacts Client.
Open Scope Z_scope.

(** ** The encrypted transport *)
Section transport.
Context {ST : StatelessTransport}.
Implicit Types tr : NoiseTransport.

Lemma fill_buf_to_ends fuel target tr input :
  (length input < fuel)%nat → is_Some (fill_buf_to fuel target tr input).
Proof.
  revert tr input; induction fuel as [|fuel IH]; intros tr input Hf; [lia|]. cbn [fill_buf_to].
  destruct (_ <=? _)%nat; [by eexists|]. destruct (Nat.ltb_spec (length input) 2); [by eexists|].
  destruct (_ <? _)%nat; [by eexists|]. destruct (read_message _ _); [|by eexists].
  apply IH. rewrite !length_drop. lia.
Qed.

Definition received tr (cs : list bytes) : NoiseTransport :=
  MkTransport (t_send_nonce tr) (t_recv_nonce tr + len cs) (t_read_buf tr ++ concat cs).
Lemma received_nil tr : received tr [] = tr.
Proof. destruct tr. unfold received. cbn. by rewrite Z.add_0_r, app_nil_r. Qed.
Lemma received_app tr cs ds : received (received tr cs) ds = received tr (cs ++ ds).
Proof.
  unfold received. cbn. rewrite concat_app, app_assoc. unfold len. rewrite length_app. f_equal. lia.
Qed.

Lemma fill_frame tr c cs rest fuel target :
  fits c → (length (t_read_buf tr) < target)%nat →
  fill_buf_to (S fuel) target tr (wire false (t_recv_nonce tr) (c :: cs) ++ rest) =
  fill_buf_to fuel target (received tr [c]) (wire false (t_recv_nonce tr + 1) cs ++ rest).
Proof.
  intros Hc Hl. cbn [wire]. unfold frame, frame_header. rewrite app_nil_r. set (enc := write_message _ c).
  assert (He : len enc = len c + TAG_LEN) by (by apply len_write_message).
  pose proof (read_write_message (t_recv_nonce tr) c Hc) as Hrw. fold enc in Hrw.
  unfold fits, MAX_PLAINTEXT, MAX_FRAME_SIZE, TAG_LEN in *.
  rewrite <-!app_assoc. cbn [fill_buf_to]. rewrite (proj2 (Nat.leb_gt _ _)) by done.
  rewrite length_app, length_to_be. destruct (Nat.ltb_spec (2 + length (enc ++ wire false (t_recv_nonce tr + 1) cs ++ rest)) 2); [lia|].
  rewrite take_app_length' by (by rewrite length_to_be). rewrite drop_app_length' by (by rewrite length_to_be).
  unfold of_be, to_be. rewrite reverse_involutive, of_le_to_le, Z.mod_small by (unfold len in *; simpl; lia).
  unfold len at 1 2 3 4. rewrite !Nat2Z.id, length_app. rewrite (proj2 (Nat.ltb_ge _ _)) by lia.
  rewrite take_app_length, drop_app_length, Hrw. unfold received. cbn [concat].
  by rewrite app_nil_r.
Qed.

(** Filling takes whole frames, and no more of them than it needs. *)
Lemma fill_wire fuel target tr cs rest :
  Forall fits cs → (length cs < fuel)%nat → (target ≤ length (t_read_buf tr ++ concat cs))%nat →
  ∃ ds es, cs = ds ++ es ∧ (target ≤ length (t_read_buf tr ++ concat ds))%nat ∧
    fill_buf_to fuel target tr (wire false (t_recv_nonce tr) cs ++ rest) =
    Some (received tr ds, wire false (t_recv_nonce tr + len ds) es ++ rest, Ok tt).
Proof.
  revert fuel tr; induction cs as [|c cs IH]; intros [|fuel] tr Hc Hf Ht; try (simpl in Hf; lia);
    (destruct (Nat.leb_spec target (length (t_read_buf tr)));
      [eexists [], _; split_and!;
        [reflexivity|cbn; by rewrite app_nil_r|cbn [fill_buf_to]; rewrite (proj2 (Nat.leb_le _ _)) by done;
         by rewrite received_nil, Z.add_0_r]|]).
  - cbn [concat] in Ht. rewrite app_nil_r in Ht. lia.
  - inversion Hc as [|?? Hc1 Hc2]; subst. rewrite fill_frame by done.
    destruct (IH fuel (received tr [c]) Hc2) as (ds & es & -> & Hl & Heq).
    + simpl in Hf. lia.
    + cbn in *. by rewrite app_nil_r, <-app_assoc.
    + exists (c :: ds), es. split_and!; [done| |].
      * cbn in *. by rewrite app_nil_r, <-app_assoc in Hl.
      * cbn [t_recv_nonce received] in Heq. change (len [c]) with 1 in Heq. rewrite Heq, received_app.
        replace (t_recv_nonce tr + len (c :: ds)) with (t_recv_nonce tr + 1 + len ds) by (unfold len; simpl length; lia).
        done.
Qed.

Lemma length_wire n cs : (length cs ≤ length (wire false n cs))%nat.
Proof.
  revert n; induction cs as [|c cs IH]; intros n; [done|]. cbn [wire]. unfold frame, frame_header.
  rewrite !length_app, length_to_be. specialize (IH (n + 1)). simpl. lia.
Qed.

Lemma fill_to_wire target tr cs rest :
  Forall fits cs → (target ≤ length (t_read_buf tr ++ concat cs))%nat →
  ∃ ds es, cs = ds ++ es ∧ (target ≤ length (t_read_buf tr ++ concat ds))%nat ∧
    fill_to target tr (wire false (t_recv_nonce tr) cs ++ rest) =
    (received tr ds, wire false (t_recv_nonce tr + len ds) es ++ rest, Ok tt).
Proof.
  intros Hc Ht. pose proof (length_wire (t_recv_nonce tr) cs).
  destruct (fill_wire (S (length (wire false (t_recv_nonce tr) cs ++ rest))) target tr cs rest Hc) as (ds & es & He & Hl & Heq).
  - rewrite length_app. lia.
  - done.
  - exists ds, es. unfold fill_to. by rewrite Heq.
Qed.

(** What is written is frames of at most [CHUNK] bytes, each under its nonce. *)
Definition sent tr (cs : list bytes) : NoiseTransport :=
  MkTransport (t_send_nonce tr + len cs) (t_recv_nonce tr) (t_read_buf tr).
Lemma foldl_send_chunk cs tr out :
  foldl send_chunk (tr, out) cs = (sent tr cs, out ++ wire false (t_send_nonce tr) cs).
Proof.
  revert tr out; induction cs as [|c cs IH]; intros tr out.
  - cbn. rewrite app_nil_r. destruct tr. unfold sent. cbn. by rewrite Z.add_0_r.
  - cbn [foldl send_chunk]. rewrite IH. cbn [t_send_nonce wire]. unfold sent, frame, frame_header. cbn [t_recv_nonce t_read_buf].
    replace (t_send_nonce tr + len (c :: cs)) with (t_send_nonce tr + 1 + len cs) by (unfold len; simpl length; lia).
    by rewrite app_nil_r, <-!app_assoc.
Qed.

Definition sendable_msg (p : bytes) : Prop := 0 < len p ≤ MAX_FRAME_BYTES.
Definition app_frame (p : bytes) : list bytes := chunks CHUNK (plain_frame p).
Lemma app_frame_chunks p : Forall (λ c, fits c ∧ c ≠ []) (app_frame p) ∧ concat (app_frame p) = plain_frame p.
Proof.
  assert (H0 : (0 < CHUNK)%nat) by (unfold CHUNK; lia).
  split; [|by apply chunks_concat]. destruct (chunks_upto_bounds (length (plain_frame p)) CHUNK (plain_frame p) H0) as [H _].
  eapply Forall_impl; [exact H|]. intros c Hc. cbn beta in Hc. split; [|by intros ->; simpl in Hc; lia].
  unfold fits, len, MAX_PLAINTEXT, MAX_FRAME_SIZE, TAG_LEN, CHUNK in *. lia.
Qed.
Lemma as_u32_len p : sendable_msg p → as_u32 (len p) = len p.
Proof. unfold sendable_msg, MAX_FRAME_BYTES, as_u32. intros. apply Z.mod_small. lia. Qed.

Lemma send_raw_frames p tr :
  sendable_msg p → send_raw p tr = (sent tr (app_frame p), Ok (wire false (t_send_nonce tr) (app_frame p))).
Proof.
  intros Hp. unfold send_raw. rewrite as_u32_len by done.
  rewrite (proj2 (Z.ltb_ge _ _)) by (unfold sendable_msg in Hp; lia).
  unfold app_frame, plain_frame, length_frame. rewrite as_u32_len by done. by rewrite foldl_send_chunk.
Qed.

Lemma recv_raw_frames p tr rest :
  sendable_msg p → t_read_buf tr = [] →
  recv_raw tr (wire false (t_recv_nonce tr) (app_frame p) ++ rest) =
  (MkTransport (t_send_nonce tr) (t_recv_nonce tr + len (app_frame p)) [], rest, Ok p).
Proof.
  intros Hp Hb. destruct (app_frame_chunks p) as [Hall Hcat]. unfold plain_frame, length_frame in Hcat. rewrite as_u32_len in Hcat by done.
  assert (Hfits : Forall fits (app_frame p)) by (eapply Forall_impl; [exact Hall|]; naive_solver).
  assert (Hn : of_be (to_be 4 (len p)) = len p).
  { unfold of_be, to_be. rewrite reverse_involutive, of_le_to_le. apply Z.mod_small.
    unfold sendable_msg, MAX_FRAME_BYTES in Hp. simpl. lia. }
  assert (Hpos : (0 < length p)%nat) by (unfold sendable_msg, len in Hp; lia).
  destruct (fill_to_wire 4 tr (app_frame p) rest Hfits) as (ds & es & He & Hl & Hfill).
  { rewrite Hb, Hcat. cbn [app]. rewrite length_app, length_to_be. lia. }
  rewrite Hb in Hl. cbn [app] in Hl. rewrite He in Hcat, Hfits. rewrite concat_app in Hcat.
  assert (Htake : take 4 (concat ds) = to_be 4 (len p)).
  { apply (f_equal (take 4)) in Hcat. rewrite take_app_le in Hcat by done.
    rewrite take_app_length' in Hcat by (by rewrite length_to_be). done. }
  apply Forall_app in Hfits as [_ Hes].
  destruct (fill_to_wire (4 + length p) (received tr ds) es rest Hes) as (ds' & es' & He' & Hl' & Hfill').
  { cbn [received t_read_buf]. rewrite Hb. cbn [app]. rewrite Hcat, length_app, length_to_be. lia. }
  assert (es' = []) as ->.
  { rewrite He' in Hcat. rewrite concat_app in Hcat. cbn [received t_read_buf] in Hl'. rewrite Hb in Hl'. cbn [app] in Hl'.
    apply (f_equal length) in Hcat. rewrite !length_app, length_to_be in *.
    rewrite He, He', !Forall_app in Hall. destruct Hall as (_ & _ & Hne). destruct es' as [|c es']; [done|].
    inversion Hne as [|?? [_ Hc] _]; subst. destruct c; [done|]. simpl in Hcat. lia. }
  rewrite app_nil_r in He'. subst ds'. unfold recv_raw. rewrite Hfill. cbn [received t_read_buf].
  rewrite Hb. cbn [app]. rewrite Htake, Hn. rewrite (proj2 (Z.ltb_ge _ _)) by (unfold sendable_msg in Hp; lia).
  rewrite (proj2 (Z.eqb_neq _ _)) by (unfold sendable_msg in Hp; lia).
  replace (Z.to_nat (len p)) with (length p) by (unfold len; lia).
  change (t_recv_nonce tr + len ds) with (t_recv_nonce (received tr ds)). rewrite Hfill'. rewrite received_app, <-He.
  cbn [wire app received t_read_buf t_recv_nonce t_send_nonce]. rewrite Hb, He, concat_app. cbn [app].
  rewrite Hcat.
  rewrite drop_ge, take_ge by (rewrite length_app, length_to_be; lia).
  rewrite drop_app_length' by (by rewrite length_to_be); done.
Qed.

(** Several messages over one connection. *)
Fixpoint send_many (ps : list bytes) tr : NoiseTransport * result bytes ClientError :=
  match ps with
  | [] => (tr, Ok [])
  | p :: ps =>
      match send_raw p tr with
      | (tr, Err e) => (tr, Err e)
      | (tr, Ok out) => let '(tr, r) := send_many ps tr in (tr, let? out' := r in Ok (out ++ out'))
      end
  end.
Fixpoint recv_many (k : nat) tr (input : bytes) : NoiseTransport * bytes * result (list bytes) ClientError :=
  match k with
  | O => (tr, input, Ok [])
  | S k =>
      match recv_raw tr input with
      | (tr, input, Err e) => (tr, input, Err e)
      | (tr, input, Ok p) => let '(tr, input, r) := recv_many k tr input in (tr, input, let? ps := r in Ok (p :: ps))
      end
  end.

(** The encrypted transport delivers: messages of one byte to 16 MiB sent over it are
    received in order and whole, however many frames each takes, and the nonces of the two
    ends stay equal. *)
Theorem transport_roundtrip ps tr tr' rest :
  Forall sendable_msg ps → t_recv_nonce tr' = t_send_nonce tr → t_read_buf tr' = [] →
  ∃ tr1 out tr1', send_many ps tr = (tr1, Ok out) ∧
    recv_many (length ps) tr' (out ++ rest) = (tr1', rest, Ok ps) ∧
    t_recv_nonce tr1' = t_send_nonce tr1 ∧ t_read_buf tr1' = [].
Proof.
  intros Hps. revert tr tr'; induction Hps as [|p ps Hp _ IH]; intros tr tr' Hn Hb; cbn [send_many recv_many length].
  { by exists tr, [], tr'. }
  rewrite send_raw_frames by done.
  destruct (IH (sent tr (app_frame p)) (MkTransport (t_send_nonce tr') (t_recv_nonce tr' + len (app_frame p)) []))
    as (tr1 & out & tr1' & Hs & Hr & Hn' & Hb'); [by rewrite Hn|done|].
  rewrite Hs. cbn [rbind]. eexists _, _, tr1'. split; [reflexivity|].
  rewrite <-app_assoc, <-Hn, recv_raw_frames by done. by rewrite Hr.
Qed.
End transport.

(** ** Calls to a node *)
Section calls.
Context {HA : Hashes} {MC : MessageCodec} {MDec : MessageDecoder} {CLI : ClientCodec} {LC : LengthDelimitedCodec}
        {MD : MlDsa87} {HX : Hex} {RK : Rkyv} {S : Type} {CH : CoreHandle S}.
Context (show : SocketAddr → bytes) (filter : bytes → result SignedReaction bytes) (client_ip : bytes).
Context (late : nat → option nat) (now : nat → Z).
Implicit Types (l : Link S).

(** A frame the codec lets through. *)
Definition frame_fits (b : bytes) : Prop := len b ≤ MAX_FRAME_BYTES.

Lemma as_u32_fits b : frame_fits b → as_u32 (len b) = len b.
Proof. unfold frame_fits, MAX_FRAME_BYTES, as_u32, len. intros. apply Z.mod_small. lia. Qed.
Lemma of_be_len b : frame_fits b → of_be (to_be 4 (len b)) = len b.
Proof.
  intros Hb. unfold of_be, to_be. rewrite reverse_involutive, of_le_to_le. apply Z.mod_small.
  unfold frame_fits, MAX_FRAME_BYTES, len in *. simpl. lia.
Qed.

Lemma next_plain_frame b : frame_fits b → next_frame bounded_codec (plain_frame b) = Some (Some b).
Proof. apply next_length_frame. Qed.

Lemma recv_frame b rest l :
  inbox l = plain_frame b ++ rest → frame_fits b →
  recv_msg l = (set_inbox rest l, ok_or (de_cli b) Undecodable).
Proof.
  intros Hi Hb. unfold recv_msg. rewrite Hi. unfold plain_frame, length_frame. rewrite as_u32_fits by done.
  rewrite (proj2 (Z.ltb_ge _ _)) by (unfold len; rewrite !length_app, length_to_be; lia).
  rewrite <-app_assoc, take_app_length', drop_app_length' by (by rewrite length_to_be). rewrite of_be_len by done.
  rewrite (proj2 (Z.ltb_ge _ _)) by done.
  rewrite (proj2 (Z.ltb_ge _ _)) by (unfold len; rewrite length_app; lia).
  replace (Z.to_nat (len b)) with (length b) by (unfold len; lia). by rewrite take_app_length, drop_app_length.
Qed.

(** A request that the node answers with one message. *)
Lemma exchange_answer i m m' r r' n' tasks l :
  is_open l = true → inbox l = [] → node_message m = Some m' → frame_fits (ser_cli m) →
  handle_message show filter client_ip (late i) m' (node l) = (n', [r'], tasks) →
  node_message r = Some r' → frame_fits (ser_msg r') →
  exchange show filter client_ip late i m l = (MkLink n' [] true, Ok r).
Proof.
  intros Ho Hi Hm Hf Hh Hr Hf'. unfold exchange, send_msg. rewrite Ho. cbn [negb].
  rewrite next_plain_frame by done. rewrite (de_msg_cli m m') by done. rewrite Hh, Hi. cbn [app send_all mbind list_bind].
  erewrite recv_frame; [|reflexivity|done]. by rewrite (de_cli_msg r r').
Qed.

(** A broadcast ends after at most two submissions, whatever the node answers. *)
Lemma broadcast_loop_ends i w b l :
  is_Some (broadcast_loop show filter client_ip late now 2 i w b false l).
Proof.
  cbn [broadcast_loop]. destruct (build _ _); [|by eexists].
  destruct (exchange _ _ _ _ _ _ _) as [l1 [m|]]; [|by eexists]. destruct m; try by eexists.
  destruct (_ && _); [|by eexists]. destruct (client_atom_state _ _ _ _ _ _ _) as [l2 [st|]]; [|by eexists].
  destruct (build _ _); [|by eexists]. destruct (exchange _ _ _ _ (i + 2) _ _) as [l3 [m|]]; [|by eexists].
  destruct m; try by eexists. rewrite andb_false_r. by eexists.
Qed.
End calls.

(** ** Payments *)
Section payments.
Context {HA : Hashes} {NC : NodeCodec} {AC : AtomCodec} {CV : CryptoVerifier} {RC : ReactionCodec}
        {RK : Rkyv} {EC : EnvelopeCodec} {CC : CrystalCodec}
        {MC : MessageCodec} {MDec : MessageDecoder} {CLI : ClientCodec} {LC : LengthDelimitedCodec}
        {MD : MlDsa87} {BI : Bip39} {HX : Hex}.
(** A node of the program that answers in time. *)
Context (show : SocketAddr → bytes) (client_ip : bytes) (now : nat → Z) (ck : Clocks)
        (error_text : IngressError → bytes) (shield_text : ShieldError → bytes).
Abbreviation Node := (Link CoreHandleImpl).
Implicit Types (l : Node) (s : CoreHandleImpl).

Definition shield_filter (b : bytes) : result SignedReaction bytes :=
  match filter_bytes_inner b with Ok rx => Ok rx | Err e => Err (shield_text e) end.
Definition in_time (i : nat) : option nat := None.
#[local] Instance the_core : CoreHandle CoreHandleImpl := core_handle ck error_text.
Definition core l : CoreHandleImpl := net_core (node l).
Definition with_core s l : Node := MkLink (Gossip.set_core s (node l)) [] true.
Definition ready l : Prop := is_open l = true ∧ inbox l = [].

(** What the client learns of an account is what the node has. *)
Lemma atom_state_spec i w a l :
  ready l → len (public_key_bytes w) = PK_BYTES → address w = hex_encode (public_key_bytes w) →
  state_get_atom (eng_state (engine (core l))) (public_key_bytes w) = Some a →
  frame_fits (ser_cli (CFetchState (public_key_bytes w))) →
  frame_fits (ser_msg (StateResponse (mass a) (nonce a) (last_reaction_hash a) (element_name (element a)))) →
  client_atom_state show shield_filter client_ip in_time i (address w) l =
  (with_core (core l) l, Ok (MkAtomState (mass a) (nonce a) (last_reaction_hash a) (element_of_name (element_name (element a))))).
Proof.
  intros [Ho Hi] Hpk Ha Hs Hf Hf'. unfold client_atom_state, decode_address.
  rewrite Ha, hex_decode_encode. cbn [ok_or rbind]. rewrite Hpk, Z.eqb_refl.
  set (r := CStateResponse (mass a) (nonce a) (last_reaction_hash a) (element_name (element a))).
  set (r' := StateResponse (mass a) (nonce a) (last_reaction_hash a) (element_name (element a))).
  rewrite (exchange_answer _ _ _ _ i (CFetchState (public_key_bytes w)) (FetchState (public_key_bytes w)) r r' (node l) []
             l Ho Hi eq_refl Hf); [| |reflexivity|exact Hf'].
  - cbn [rbind atom_state_of r]. unfold with_core, Gossip.set_core, core. by destruct (node l).
  - unfold the_core, in_time. rewrite fetch_state_handled. unfold core_get_atom_state.
    change (net_core (node l)) with (core l). by rewrite Hs.
Qed.

Lemma atom_state_unknown i w l :
  ready l → len (public_key_bytes w) = PK_BYTES → address w = hex_encode (public_key_bytes w) →
  state_get_atom (eng_state (engine (core l))) (public_key_bytes w) = None →
  frame_fits (ser_cli (CFetchState (public_key_bytes w))) →
  frame_fits (ser_msg (NodeError (error_text AtomUnknown))) →
  client_atom_state show shield_filter client_ip in_time i (address w) l =
  (with_core (core l) l, Err (NodeRefused (error_text AtomUnknown))).
Proof.
  intros [Ho Hi] Hpk Ha Hs Hf Hf'. unfold client_atom_state, decode_address.
  rewrite Ha, hex_decode_encode. cbn [ok_or rbind]. rewrite Hpk, Z.eqb_refl.
  rewrite (exchange_answer _ _ _ _ i (CFetchState (public_key_bytes w)) (FetchState (public_key_bytes w))
             (CNodeError (error_text AtomUnknown)) (NodeError (error_text AtomUnknown)) (node l) []
             l Ho Hi eq_refl Hf); [| |reflexivity|exact Hf'].
  - cbn [rbind atom_state_of]. unfold with_core, Gossip.set_core, core. by destruct (node l).
  - unfold the_core, in_time. rewrite fetch_state_handled. unfold core_get_atom_state.
    change (net_core (node l)) with (core l). by rewrite Hs.
Qed.

Lemma decode_address_len h b : decode_address h = Ok b → len b = PK_BYTES.
Proof. unfold decode_address. intros H. inv_ok H. by apply Z.eqb_eq. Qed.

(** What the node does with the reaction of a submission. *)
Definition submitted (rx : SignedReaction) (b : bytes) l (r : Node * result bytes ClientError) : Prop :=
  let s := core l in
  let ack : result bytes ClientError := Ok (take 4 (blake3 b)) in
  (¬ known_sender s rx → r = (with_core (drop_frame s) l, ack)) ∧
  (known_sender s rx → ∀ mp is_new, push (unix_secs ck) (mempool s) rx = Ok (mp, is_new) →
     r = (with_core (if is_new : bool then broadcast (NewReaction b 8) (set_mempool mp s) else set_mempool mp s) l, ack)) ∧
  (known_sender s rx → ∀ e, push (unix_secs ck) (mempool s) rx = Err e →
     r = (with_core s l, Err (NodeRefused (error_text (Rejected e))))).

(** The sizes of the messages of a submission. *)
Definition submission_fits (b : bytes) : Prop :=
  len b ≤ APP_MAX_MESSAGE ∧ frame_fits (ser_cli (CSubmitReaction b)) ∧
  frame_fits (ser_msg (ReactionAck (blake3 b))) ∧ (∀ e, frame_fits (ser_msg (NodeError (error_text (Rejected e))))).
(** The node's errors never ask for another sequence. *)
Definition no_sequence_error : Prop :=
  ∀ e, contains (bytes_of_string "Sequence Mismatch") (error_text (Rejected e)) = false.

Lemma broadcast_spec phrase j i w b tx l :
  ready l → no_sequence_error → from_mnemonic phrase j = Ok w → b_wallet b = w → build (now i) b = Ok tx →
  fee_exact (b_fee b) → (∀ to, recipient_pk b = Some to → len to = PK_BYTES) → submission_fits (to_bytes tx) →
  submitted (to_signed_reaction tx) (to_bytes tx) l
    (broadcast_tx show shield_filter client_ip in_time now i w b l).
Proof.
  intros [Ho Hi] Hseq Hw Hbw Hb Hfee Hto (Hsz & Hf & Hack & Herr).
  destruct (built_transfer_valid phrase j w (now i) b tx Hw Hbw Hb Hfee Hto) as [Hv _]. cbv zeta in Hv.
  set (rx := to_signed_reaction tx) in *. set (bs := to_bytes tx) in *.
  assert (Hc : check_archived_root bs = Some (archive rx)) by apply check_to_bytes.
  assert (Hshield : shield_filter bs = Ok rx).
  { unfold shield_filter. by rewrite (proj2 (filter_bytes_inner_Ok bs rx)). }
  destruct (core_admission ck bs rx (core l) Hsz Hc) as [Hphantom Hknown].
  assert (Hgo : ∀ s' r r', core_push_bytes ck bs (core l) = (s', r) →
    match r with Ok _ => CReactionAck (blake3 bs) | Err e => CNodeError (error_text e) end = r' →
    frame_fits (ser_cli (CSubmitReaction bs)) →
    (∀ m, node_message r' = Some m → frame_fits (ser_msg m)) →
    exchange show shield_filter client_ip in_time i (CSubmitReaction bs) l = (with_core s' l, Ok r')).
  { intros s' r r' Hp <- _ Hfit. destruct r as [[]|e].
    - apply (exchange_answer _ _ _ _ _ _ (SubmitReaction bs) _ (ReactionAck (blake3 bs)) (Gossip.set_core s' (node l)) [] l);
        try done. unfold the_core, in_time. rewrite (submit_handled _ _ _ _ _ bs rx _ Hshield).
      change (net_core (node l)) with (core l). by rewrite Hp.
    - apply (exchange_answer _ _ _ _ _ _ (SubmitReaction bs) _ (NodeError (error_text e)) (Gossip.set_core s' (node l)) [] l);
        try done; [|by apply Hfit]. unfold the_core, in_time. rewrite (submit_handled _ _ _ _ _ bs rx _ Hshield).
      change (net_core (node l)) with (core l). by rewrite Hp. }
  assert (Hok : ∀ s', core_push_bytes ck bs (core l) = (s', Ok tt) →
            broadcast_tx show shield_filter client_ip in_time now i w b l = (with_core s' l, Ok (take 4 (blake3 bs)))).
  { intros s' Hp. unfold broadcast_tx. cbn [broadcast_loop]. rewrite Hb. fold bs.
    rewrite (Hgo s' (Ok tt) _ Hp eq_refl Hf) by (by intros m [= <-]). done. }
  split; [|split].
  - intros Hk. by apply Hok, Hphantom.
  - intros Hk mp is_new Hp. apply Hok. rewrite Hknown, Hp by done. by destruct is_new.
  - intros Hk e Hp. unfold broadcast_tx. cbn [broadcast_loop]. rewrite Hb. fold bs.
    rewrite (Hgo (core l) (Err (Rejected e)) _ ltac:(by rewrite Hknown, Hp) eq_refl Hf) by (by intros m [= <-]).
    cbn -[bytes_of_string]. by rewrite Hseq.
Qed.

(** The transfer that the client builds from the state it is told. *)
Definition payment (w : Wallet) (recipient : bytes) (amount : Z) (a : Atom) : TransactionBuilder :=
  MkBuilder w (Some recipient) amount PROTOCOL_MIN_FEE (mass a) (last_reaction_hash a) (nonce a)
    (element_of_name (element_name (element a))).
Lemma build_covered t b r :
  recipient_pk b = Some r → 0 < b_amount b → PROTOCOL_MIN_FEE ≤ b_fee b → b_amount b + b_fee b ≤ Sdk.sender_mass b →
  is_u64 (Sdk.sender_mass b) → ∃ tx, build t b = Ok tx.
Proof.
  intros Hr H0 Hf Hm [_ Hu]. unfold build. rewrite Hr. cbn [ok_or rbind].
  rewrite (proj2 (Z.eqb_neq _ 0)), (proj2 (Z.ltb_ge _ _)) by lia. cbn [negb]. unfold u64_checked_add.
  rewrite (proj2 (Z.leb_le _ _)) by lia. cbn [ok_or rbind].
  rewrite (proj2 (Z.ltb_ge _ _)) by lia. cbn [negb]. by eexists.
Qed.
Lemma build_payment t w recipient amount a :
  0 < amount → amount + PROTOCOL_MIN_FEE ≤ mass a → is_u64 (mass a) →
  ∃ tx, build t (payment w recipient amount a) = Ok tx.
Proof. intros. by eapply build_covered. Qed.

(** A payment made in the client reaches the mempool of the node: for an account of
    the node's state with the mass for amount and fee, the client builds a transfer with the
    account's nonce, and the node queues it exactly when its mempool takes it and the sender
    is the Architect or has mass on chain.  It is acknowledged in these cases, and also when
    the node has dropped it for want of mass. *)
Theorem payment_reaches_mempool phrase j i w to_hex recipient amount a l :
  ready l → no_sequence_error → from_mnemonic phrase j = Ok w →
  state_get_atom (eng_state (engine (core l))) (public_key_bytes w) = Some a → is_u64 (mass a) →
  decode_address to_hex = Ok recipient → 0 < amount → amount + PROTOCOL_MIN_FEE ≤ mass a →
  frame_fits (ser_cli (CFetchState (public_key_bytes w))) →
  frame_fits (ser_msg (StateResponse (mass a) (nonce a) (last_reaction_hash a) (element_name (element a)))) →
  (∀ tx, build (now (i + 1)) (payment w recipient amount a) = Ok tx → submission_fits (to_bytes tx)) →
  ∃ tx, build (now (i + 1)) (payment w recipient amount a) = Ok tx ∧
    let rx := to_signed_reaction tx in
    let s := core l in
    let '(l', outcome) := send_tx show shield_filter client_ip in_time now i w to_hex amount l in
    let sent := Sent (take 4 (blake3 (to_bytes tx))) in
    payload rx = Transfer amount ∧ public_key (receiver rx) = recipient ∧ nonce (sender rx) = nonce a ∧
    (¬ known_sender s rx → core l' = drop_frame s ∧ outcome = sent) ∧
    (known_sender s rx → ∀ mp is_new, push (unix_secs ck) (mempool s) rx = Ok (mp, is_new) →
       mempool (core l') = mp ∧ engine (core l') = engine s ∧ outcome = sent) ∧
    (known_sender s rx → ∀ e, push (unix_secs ck) (mempool s) rx = Err e →
       core l' = s ∧ outcome = BroadcastError (NodeRefused (error_text (Rejected e)))).
Proof.
  intros Hr Hseq Hw Ha Hu Hto H0 Hm Hf Hf' Hsub.
  destruct (build_payment (now (i + 1)) w recipient amount a H0 Hm Hu) as [tx Hb]. exists tx. split; [done|]. cbv zeta.
  destruct (from_mnemonic_Ok _ _ _ Hw) as (_ & _ & _ & _ & Haddr).
  pose proof (len_public_key _ _ _ Hw) as Hpk.
  unfold send_tx. rewrite (atom_state_spec i w a l Hr Hpk Haddr Ha Hf Hf').
  cbn [st_mass st_nonce st_last_hash st_element]. unfold u64_wrapping_add. unfold is_u64, U64_MAX in Hu.
  rewrite Z.mod_small by (unfold PROTOCOL_MIN_FEE in *; lia). rewrite (proj2 (Z.ltb_ge _ _)) by lia. rewrite Hto.
  fold (payment w recipient amount a). set (l1 := with_core (core l) l).
  assert (Hfee : fee_exact (b_fee (payment w recipient amount a))) by (unfold fee_exact, payment, PROTOCOL_MIN_FEE; cbn; lia).
  pose proof (decode_address_len _ _ Hto) as Hlen.
  destruct (broadcast_spec phrase j (i + 1) w (payment w recipient amount a) tx l1) as (S1 & S2 & S3); try done;
    [by intros ? [= <-]|by apply Hsub|]. cbv zeta in *. change (core l1) with (core l) in *.
  destruct (build_Ok _ _ _ Hb) as (r & [= <-] & _ & _ & _ & _ & Hrx). cbv zeta in Hrx.
  destruct Hrx as (_ & Hrcv & Hn & _ & Hp & _).
  destruct (broadcast_tx _ _ _ _ _ _ _ _ _) as [l2 [h|e]]; split_and!; try done.
  all: try (intros Hk; specialize (S1 Hk); simplify_eq/=; done).
  all: try (intros Hk mp is_new Hpush; specialize (S2 Hk mp is_new Hpush); simplify_eq/=; by destruct is_new).
  all: intros Hk e0 Hpush; specialize (S3 Hk e0 Hpush); simplify_eq/=; done.
Qed.

End payments.
