(* ===== verification/ClientNoise.v ===== *)
(** How the client opens a connection (primus-client rpc.rs): plain, and where that fails
    with the Noise handshake over the same frames as a node's, but without payloads.

    The bytes the node sends are an argument; they arrive in time. *)
From S2P Require Import Prelude Floats Types Dht Gossip Noise Crypto Handshake Sdk Client.
Open Scope Z_scope.

Definition as_u16 (n : Z) : Z := n mod 2 ^ 16.
Definition NOISE_KEY_LEN : Z := 32.
Inductive ConnectError := KeyLength (n : Z) | Unreachable | HandshakeFailed | HandshakeClosed.
Inductive Opened (T : Type) := OpenNoise (t : T) | OpenPlain.
Arguments OpenNoise {T}.
Arguments OpenPlain {T}.

Section connect.
Context {NH : NoiseHandshake}.
Implicit Types (h : HsState) (input out : bytes).

(** The loop until the handshake is finished: what is written, what is left to read. *)
Fixpoint noise_loop (fuel : nat) h input out : option (bytes * bytes * result HsState ConnectError) :=
  match hs_turn h with
  | None => Some (out, input, Ok h)
  | Some my_turn =>
      match fuel with
      | O => None
      | S fuel =>
          if my_turn : bool then
            match hs_write h [] with
            | None => Some (out, input, Err HandshakeFailed)
            | Some (h, m) => noise_loop fuel h input (out ++ to_be 2 (as_u16 (len m)) ++ m)
            end
          else if (length input <? 2)%nat then Some (out, [], Err HandshakeClosed)
          else
            let frame_len := Z.to_nat (of_be (take 2 input)) in
            let input := drop 2 input in
            if (length input <? frame_len)%nat then Some (out, [], Err HandshakeClosed)
            else
              match hs_read h (take frame_len input) with
              | None => Some (out, drop frame_len input, Err HandshakeFailed)
              | Some (h, _) => noise_loop fuel h (drop frame_len input) out
              end
      end
  end.

(** [reachable]: whether the node takes the connection. *)
Definition new_with_noise (reachable : bool) (eph static_key input : bytes) : option (bytes * result Transport ConnectError) :=
  if negb (len static_key =? NOISE_KEY_LEN) then Some ([], Err (KeyLength (len static_key)))
  else if negb reachable then Some ([], Err Unreachable)
  else
    '(out, _, r) ← noise_loop 3 (build_initiator static_key eph) input [];
    Some (out, let? h := r in ok_or (into_transport h) HandshakeFailed).
Definition new_plain (reachable : bool) : result unit ConnectError := if reachable then Ok tt else Err Unreachable.
Definition new_with_ephemeral_noise (reachable : bool) (random : nat → bytes) (eph input : bytes) :=
  new_with_noise reachable eph (random 32%nat) input.
(** [plain_up] and [noise_up]: whether the first and the second connection are taken. *)
Definition new_auto (plain_up noise_up : bool) (random : nat → bytes) (eph input : bytes)
    : option (bytes * result (Opened Transport) ConnectError) :=
  match new_plain plain_up with
  | Ok _ => Some ([], Ok OpenPlain)
  | Err _ => '(out, r) ← new_with_ephemeral_noise noise_up random eph input; Some (out, let? t := r in Ok (OpenNoise t))
  end.
End connect.

Section facts.
Context {NH : NoiseHandshake} {HC : HandshakeCodec} {MD : MlDsa87}.

Lemma as_u16_frame m : len m ≤ MAX_FRAME_SIZE → to_be 2 (as_u16 (len m)) ++ m = hs_frame m.
Proof.
  intros Hm. unfold hs_frame, as_u16, MAX_FRAME_SIZE, len in *. by rewrite Z.mod_small by lia.
Qed.
Lemma read_hs_frame m rest : len m ≤ MAX_FRAME_SIZE →
  (length (hs_frame m ++ rest) <? 2)%nat = false ∧
  let n := Z.to_nat (of_be (take 2 (hs_frame m ++ rest))) in
  let input := drop 2 (hs_frame m ++ rest) in
  (length input <? n)%nat = false ∧ take n input = m ∧ drop n input = rest.
Proof.
  intros Hm. unfold hs_frame, MAX_FRAME_SIZE, len in *. rewrite <-app_assoc.
  rewrite (proj2 (Nat.ltb_ge _ _)) by (rewrite length_app, length_to_be; lia). split; [done|]. cbv zeta.
  rewrite take_app_length', drop_app_length' by (by rewrite length_to_be).
  assert (Hn : of_be (to_be 2 (Z.of_nat (length m))) = Z.of_nat (length m)).
  { unfold of_be, to_be. rewrite reverse_involutive, of_le_to_le. apply Z.mod_small. simpl. lia. }
  rewrite Hn, Nat2Z.id, (proj2 (Nat.ltb_ge _ _)) by (rewrite length_app; lia).
  by rewrite take_app_length, drop_app_length.
Qed.

(** The client's encrypted connection never works with a node: the client takes the
    handshake for finished, but the node, which wants a record and a signature in the last
    message, refuses it, whatever the keys. *)
Theorem client_noise_refused random eph p :
  (∀ k, length (random k) = k) → honest p → payload_fits p → de_payload [] = None →
  ∃ f1 f2 f3 t hr er,
    new_with_ephemeral_noise true random eph f2 = Some (f1 ++ f3, Ok t) ∧
    responder_start p [Data f1] = ([], Ok (hr, er, f2)) ∧
    responder_finish hr er [Data f3] = ([], Err PayloadMalformed).
Proof.
  intros Hrand Hp Fp Hde. set (k := random 32%nat).
  set (xx := noise_xx k eph (static_key p) (ephemeral p)).
  destruct (xx [] []) as (i1 & m1 & _ & _ & _ & _ & _ & _ & _ & _ & _ & W1 & _); [done..|].
  set (e1 := ephemeral_of (replicate 32 0) m1).
  set (p2 := own_payload p e1). pose proof (Fp e1) as F2. fold p2 in F2.
  destruct (xx p2 []) as (i1' & m1' & r1 & r2 & m2 & i2 & i3 & m3 & r3 & ti & tr & W1' & L1 & R1 & W2 & L2 & R2 & W3 & L3 & R3 &
    Ti & Tr & _ & _ & U0 & U1 & U2 & U3); [done|done|].
  rewrite W1 in W1'. injection W1' as <- <-.
  assert (B1 : len m1 ≤ MAX_FRAME_SIZE) by (rewrite L1; done).
  assert (B2 : len m2 ≤ MAX_FRAME_SIZE) by lia.
  assert (B3 : len m3 ≤ MAX_FRAME_SIZE) by (rewrite L3; done).
  exists (hs_frame m1), (hs_frame m2), (hs_frame m3), ti, r2, (ephemeral_of e1 m2). split; [|split].
  - unfold new_with_ephemeral_noise, new_with_noise. fold k.
    assert (Hk : len k = NOISE_KEY_LEN) by (unfold len, k; by rewrite Hrand). rewrite Hk. cbn [Z.eqb NOISE_KEY_LEN Pos.eqb negb].
    destruct (read_hs_frame m2 [] B2) as (Q1 & Q2 & Q3 & Q4). rewrite app_nil_r in *.
    cbn [noise_loop]. rewrite U0, W1, as_u16_frame by done. cbn [app]. rewrite U1, Q1, Q2, Q3, R2, Q4.
    rewrite U2, W3, as_u16_frame by done. rewrite U3. cbn [mbind option_bind rbind]. by rewrite Ti.
  - unfold responder_start. rewrite honest_key by done. change [Data (hs_frame m1)] with ([Data (hs_frame m1)] ++ []).
    rewrite (framed_next_arrives m1 []) by (done || apply arrives_at_once). cbn [rbind]. rewrite R1. cbn [ok_or rbind].
    rewrite bool_decide_true by done. cbv zeta. fold e1 p2. by rewrite W2.
  - unfold responder_finish. change [Data (hs_frame m3)] with ([Data (hs_frame m3)] ++ []).
    rewrite (framed_next_arrives m3 []) by (done || apply arrives_at_once). cbn [rbind]. rewrite R3. cbn [ok_or rbind].
    unfold check_payload. by rewrite Hde.
Qed.
End facts.
