(* ===== verification/Cli.v ===== *)
(** The command line (primus-cli main.rs, admin.rs, commands/): its commands, against a
    node reached over the administration socket and over TCP.

    The world is the wallet files and the node: its network state, its administration
    server, and whether its process runs.  The path of the socket and the check of its owner
    are in IpcPath; here the socket is reached. *)
From S2P Require Import Prelude Floats Types Mpt State Physics Pvm Crystal Chamber Storage Engine Processor.
From S2P Require Import Mempool Framing Shield Dht Gossip Crypto Ingress Ipc Sdk Noise Server Client.
Open Scope Z_scope.

(** bincode of the responses, as the node writes and the command line reads them. *)
Class IpcClientCodec `{IpcCodec} := {
  de_response : bytes → option IpcResponse;
  de_ser_response r : de_response (ser_response r) = Some r;
}.

Inductive CliError :=
| NotRunning
| WalletFailed (e : SdkError)
| BadRecipient (e : SdkError)
| InsufficientMass (available required : Z)
| IpcIo
| IpcTooLarge (n : Z)
| IpcUndecodable
| NodeRejected (reason : bytes)
| UnexpectedIpc
| NoTrustedRoot
| RpcFailed (e : ClientError)
| CrystalCorrupt
| ProofRefused (e : SdkError)
| ProofPanic.

(** What a command prints last. *)
Inductive Output :=
| ShutdownInitiated
| ConnectingTo (addr : bytes)
| NodeStatusIs (height peers cache_size frame_drops : Z)
| NodeResponse (hash : bytes)
| NetworkError (e : ClientError)
| Balance (m n : Z) (el : AtomElement)
| ProvedAtom (a : Atom)
| ProvedAbsent
| StateError (e : ClientError)
| CreatedWallet (addr phrase : bytes)
| ShownWallet (addr : bytes).

Inductive Command :=
| WalletCreate (path : bytes)
| WalletShow (path : bytes)
| GetBalance (addr : bytes) (prove : bool)
| SendMass (to : bytes) (amount : Z) (from : bytes)
| AdminShutdownCmd (wallet : bytes)
| AdminConnectPeerCmd (peer wallet : bytes)
| AdminStatusCmd.

Record World := MkWorld {
  files : gmap bytes bytes;
  node_net : Network CoreHandleImpl;
  ipc : IpcServer;
  conn_id_gen : Z;
  running : bool;
}.
(** A connection to the administration socket. *)
Record Conn := MkConn { conn_id : Z; conn_inbox : bytes; conn_open : bool }.

Definition set_files f (wd : World) : World := MkWorld f (node_net wd) (ipc wd) (conn_id_gen wd) (running wd).
Definition set_node n (wd : World) : World := MkWorld (files wd) n (ipc wd) (conn_id_gen wd) (running wd).
Definition set_ipc s r (wd : World) : World := MkWorld (files wd) (node_net wd) s (conn_id_gen wd) r.

Section cli.
Context {HA : Hashes} {NC : NodeCodec} {AC : AtomCodec} {CV : CryptoVerifier} {RC : ReactionCodec}
        {RK : Rkyv} {EC : EnvelopeCodec} {CC : CrystalCodec}
        {MC : MessageCodec} {MDec : MessageDecoder} {CLI : ClientCodec} {LC : LengthDelimitedCodec}
        {MD : MlDsa87} {BI : Bip39} {HX : Hex} {WF : WalletFileCodec} {PC : ProofCodec}
        {IC : IpcCodec} {ICC : IpcClientCodec}.
Context (show : SocketAddr → bytes) (filter : bytes → result SignedReaction bytes) (client_ip : bytes)
        (late : nat → option nat) (now : nat → Z) (entropy : nat → bytes) (tcp_cache : Network CoreHandleImpl → Z)
        (ck : Clocks) (error_text : IngressError → bytes).
#[local] Instance node_core : CoreHandle CoreHandleImpl := core_handle ck error_text.
Implicit Types (wd : World) (c : Conn).

Definition network_status (n : Network CoreHandleImpl) : NetworkStatus :=
  MkStatus (get_peer_list show (net_dht n)) (tcp_cache n) (Gossip.frame_drops n).

(** ** admin.rs: the socket *)
Definition connect_ipc wd : option (World * Conn) :=
  if running wd then
    let cid := conn_id_gen wd + 1 in
    Some (MkWorld (files wd) (node_net wd) (ipc wd) cid true, MkConn cid [] true)
  else None.

(** The bytes of the request are one frame (below 4 GiB), for which the server does one
    turn of its loop. *)
Definition request_frame (req : IpcRequest) : bytes :=
  let bytes := ser_request req in to_le 4 (as_u32 (len bytes)) ++ bytes.
Definition serve (input : bytes) wd c : World * Conn :=
  if conn_open c && running wd then
    match connection_step (network_status (node_net wd)) (net_core (node_net wd)) error_text (conn_id c) input (ipc wd) with
    | Next s out _ => (set_ipc s true wd, MkConn (conn_id c) (conn_inbox c ++ out) true)
    | Done s out ending =>
        (set_ipc s match ending with ProcessExit => false | _ => true end wd,
         MkConn (conn_id c) (conn_inbox c ++ out) false)
    end
  else (wd, c).
Definition send_request (req : IpcRequest) wd c : World * Conn := serve (request_frame req) wd c.
(** The stream is dropped when the command ends. *)
Definition disconnect wd c : World := (serve [] wd c).1.

Definition MAX_RESPONSE : Z := 1024 * 1024.
Definition receive_response c : Conn * result IpcResponse CliError :=
  let input := conn_inbox c in
  let gone := MkConn (conn_id c) [] (conn_open c) in
  if (length input <? 4)%nat then (gone, Err IpcIo)
  else
    let n := of_le (take 4 input) in
    let rest := drop 4 input in
    if MAX_RESPONSE <? n then (MkConn (conn_id c) rest (conn_open c), Err (IpcTooLarge n))
    else if len rest <? n then (gone, Err IpcIo)
    else
      (MkConn (conn_id c) (drop (Z.to_nat n) rest) (conn_open c),
       ok_or (de_response (take (Z.to_nat n) rest)) IpcUndecodable).

Definition ask (req : IpcRequest) wd c : World * Conn * result IpcResponse CliError :=
  let '(wd, c) := send_request req wd c in
  let '(c, r) := receive_response c in (wd, c, r).

Definition get_challenge wd c : World * Conn * result bytes CliError :=
  let '(wd, c, r) := ask GetChallenge wd c in
  (wd, c, match r with
          | Ok (Challenge nonce) => Ok nonce
          | Ok (IpcErr e) => Err (NodeRejected e)
          | Ok _ => Err UnexpectedIpc
          | Err e => Err e
          end).

Definition load_wallet (path : bytes) wd : result Wallet CliError :=
  match load (files wd !! path) with Ok w => Ok w | Err e => Err (WalletFailed e) end.

Definition sign_challenge (path challenge : bytes) wd : result bytes CliError :=
  let? wallet := load_wallet path wd in Ok (wallet_sign wallet challenge).

(** The two signed commands differ in the request and in what they print. *)
Definition admin_command (make : bytes → IpcRequest) (done : Output) (path : bytes) wd : World * result Output CliError :=
  match connect_ipc wd with
  | None => (wd, Err NotRunning)
  | Some (wd, c) =>
      match get_challenge wd c with
      | (wd, c, Err e) => (disconnect wd c, Err e)
      | (wd, c, Ok challenge) =>
          match sign_challenge path challenge wd with
          | Err e => (disconnect wd c, Err e)
          | Ok signature =>
              let '(wd, c, r) := ask (make signature) wd c in
              (disconnect wd c,
               match r with
               | Ok IpcOk => Ok done
               | Ok (IpcErr e) => Err (NodeRejected e)
               | Ok _ => Err UnexpectedIpc
               | Err e => Err e
               end)
          end
      end
  end.
Definition cli_shutdown (path : bytes) wd := admin_command AdminShutdown ShutdownInitiated path wd.
Definition connect_peer (addr path : bytes) wd := admin_command (AdminConnectPeer addr) (ConnectingTo addr) path wd.

Definition status wd : World * result Output CliError :=
  match connect_ipc wd with
  | None => (wd, Err NotRunning)
  | Some (wd, c) =>
      let '(wd, c, r) := ask Status wd c in
      (disconnect wd c,
       match r with
       | Ok (StatusReport height peers cache_size frame_drops) => Ok (NodeStatusIs height peers cache_size frame_drops)
       | Ok (IpcErr e) => Err (NodeRejected e)
       | Ok _ => Err UnexpectedIpc
       | Err e => Err e
       end)
  end.

(** ** commands/wallet.rs *)
Definition create (path : bytes) wd : World * result Output CliError :=
  match generate entropy 24 0 with
  | Err e => (wd, Err (WalletFailed e))
  | Ok w => (set_files (<[path := save w]> (files wd)) wd, Ok (CreatedWallet (address w) (get_mnemonic w)))
  end.
Definition show_wallet (path : bytes) wd : World * result Output CliError :=
  (wd, let? w := load_wallet path wd in Ok (ShownWallet (address w))).

(** ** commands/tx.rs *)
(** [new_auto]: the node answers the plain connection, which is tried first. *)
Definition new_auto wd : option (Link CoreHandleImpl) :=
  if running wd then Some (MkLink (node_net wd) [] true) else None.
Definition keep_node (l : Link CoreHandleImpl) wd : World := set_node (node l) wd.

(** The state assumed when the node gives none. *)
Definition debug_state (amount : Z) : AtomState :=
  MkAtomState (u64_wrapping_add (u64_wrapping_add amount PROTOCOL_MIN_FEE) 1000) 0 zero32 SHydrogen.
Definition cli_builder (w : Wallet) (recipient : bytes) (amount : Z) (st : AtomState) : TransactionBuilder :=
  let b := set_fee PROTOCOL_MIN_FEE (set_amount amount (set_recipient recipient (builder_new w))) in
  let b := set_sender_last_hash (st_last_hash st) (set_sender_mass (st_mass st) b) in
  set_sender_element (st_element st) (set_sender_nonce (st_nonce st) b).

Definition send (to : bytes) (amount : Z) (path : bytes) wd : World * result Output CliError :=
  match load_wallet path wd with
  | Err e => (wd, Err e)
  | Ok w =>
      match decode_address to with
      | Err e => (wd, Err (BadRecipient e))
      | Ok recipient =>
          match new_auto wd with
          | None => (wd, Err NotRunning)
          | Some l =>
              let '(l, r) := client_atom_state show filter client_ip late 0 (address w) l in
              let atom_state := match r with Ok st => st | Err _ => debug_state amount end in
              let required := u64_wrapping_add amount PROTOCOL_MIN_FEE in
              if st_mass atom_state <? required
              then (keep_node l wd, Err (InsufficientMass (st_mass atom_state) required))
              else
                let '(l, r) :=
                  broadcast_tx show filter client_ip late now 1 w (cli_builder w recipient amount atom_state) l in
                (keep_node l wd, Ok match r with Ok hash => NodeResponse hash | Err e => NetworkError e end)
          end
      end
  end.

(** The root that `--prove` trusts: that of the crystal at the height the node reports. *)
Definition trusted_root wd : World * result (bytes * Z) CliError :=
  match connect_ipc wd with
  | None => (wd, Err NotRunning)
  | Some (wd, c) =>
      let '(wd, c, r) := ask Status wd c in
      match r with
      | Ok (StatusReport height _ _ _) =>
          let '(l, r) := get_crystal show filter client_ip late 0 height (MkLink (node_net wd) [] true) in
          (keep_node l (disconnect wd c),
           match r with
           | Err e => Err (RpcFailed e)
           | Ok crystal_bytes =>
               let? crystal := ok_or (de_crystal crystal_bytes) CrystalCorrupt in Ok (state_root crystal, height)
           end)
      | Ok _ => (disconnect wd c, Err NoTrustedRoot)
      | Err e => (disconnect wd c, Err e)
      end
  end.

Definition prove_balance (addr : bytes) wd : World * result Output CliError :=
  match trusted_root wd with
  | (wd, Err e) => (wd, Err e)
  | (wd, Ok (root, current_height)) =>
      let '(l, r) := get_balance_proof show filter client_ip late 0 addr (MkLink (node_net wd) [] true) in
      (keep_node l wd,
       match r with
       | Err e => Err (RpcFailed e)
       | Ok proof =>
           match verify_balance_proof proof root current_height current_height with
           | Some (Ok (Some atom)) => Ok (ProvedAtom atom)
           | Some (Ok None) => Ok ProvedAbsent
           | Some (Err e) => Err (ProofRefused e)
           | None => Err ProofPanic
           end
       end)
  end.

Definition cli_balance (addr : bytes) (prove : bool) wd : World * result Output CliError :=
  match new_auto wd with
  | None => (wd, Err NotRunning)
  | Some l =>
      if prove then prove_balance addr wd
      else
        let '(l, r) := client_atom_state show filter client_ip late 0 addr l in
        (keep_node l wd,
         Ok match r with Ok st => Balance (st_mass st) (st_nonce st) (st_element st) | Err e => StateError e end)
  end.

(** ** main.rs *)
Definition run_command (cmd : Command) wd : World * result Output CliError :=
  match cmd with
  | WalletCreate path => create path wd
  | WalletShow path => show_wallet path wd
  | GetBalance addr prove => cli_balance addr prove wd
  | SendMass to amount from => send to amount from wd
  | AdminShutdownCmd wallet => cli_shutdown wallet wd
  | AdminConnectPeerCmd peer wallet => connect_peer peer wallet wd
  | AdminStatusCmd => status wd
  end.
End cli.
