(* ===== verification/CliFacts.v ===== *)
(** The command line against a node: who can stop it, what a payment from an account that
    is not on chain does, and that no balance is ever proved. *)
From S2P Require Import Prelude Floats Types Mpt MptTree MptFacts State Physics Pvm Crystal Chamber Storage Engine Processor.
From S2P Require Import ProcessorFacts Mempool Framing Shield Dht Gossip Crypto Ingress IngressFacts Ipc Sdk SdkFacts.
From S2P Require Import Noise Server Client ClientFacts Cli.
Open Scope Z_scope.

Section cli.
Context {HA : Hashes} {NC : NodeCodec} {AC : AtomCodec} {CV : CryptoVerifier} {RC : ReactionCodec}
        {RK : Rkyv} {EC : EnvelopeCodec} {CC : CrystalCodec}
        {MC : MessageCodec} {MDec : MessageDecoder} {CLI : ClientCodec} {LC : LengthDelimitedCodec}
        {MD : MlDsa87} {BI : Bip39} {HX : Hex} {WF : WalletFileCodec} {PC : ProofCodec}
        {IC : IpcCodec} {ICC : IpcClientCodec}.
Context (show : SocketAddr → bytes) (client_ip : bytes) (now : nat → Z) (entropy : nat → bytes)
        (tcp_cache : Network CoreHandleImpl → Z) (ck : Clocks)
        (error_text : IngressError → bytes) (shield_text : ShieldError → bytes).
Implicit Types (wd : World) (c : Conn).
Abbreviation filter := (shield_filter shield_text).

(** ** The administration socket *)
Definition request_fits (req : IpcRequest) : Prop := len (ser_request req) ≤ MAX_REQUEST.
Definition response_fits (r : IpcResponse) : Prop := len (ser_response r) ≤ MAX_RESPONSE.

Abbreviation handle wd := (handle_request (network_status show tcp_cache (node_net wd)) (net_core (node_net wd)) error_text).

Lemma of_le_len (b : bytes) n : len b ≤ n → n < 2 ^ 32 → of_le (to_le 4 (len b)) = len b ∧ as_u32 (len b) = len b.
Proof.
  intros Hb Hn. assert (0 ≤ len b) by (unfold len; lia). split; [|unfold as_u32; apply Z.mod_small; lia].
  rewrite of_le_to_le. apply Z.mod_small. simpl. lia.
Qed.

Lemma ask_spec req wd c :
  running wd = true → conn_open c = true → conn_inbox c = [] → request_fits req →
  match handle wd (conn_id c) req (ipc wd) with
  | (s, Some resp) =>
      response_fits resp → ask show tcp_cache error_text req wd c = (set_ipc s true wd, c, Ok resp)
  | (s, None) =>
      response_fits IpcOk →
      ask show tcp_cache error_text req wd c = (set_ipc s false wd, MkConn (conn_id c) [] false, Ok IpcOk)
  end.
Proof.
  intros Hr Ho Hi Hf. destruct c as [cid inb op]; cbn in Ho, Hi. subst.
  destruct (of_le_len (ser_request req) MAX_REQUEST Hf eq_refl) as [Hle Hu].
  assert (Hstep : connection_step (network_status show tcp_cache (node_net wd)) (net_core (node_net wd)) error_text cid
            (request_frame req) (ipc wd) =
          match handle wd cid req (ipc wd) with
          | (s, None) => Done s (frame_of (ser_response IpcOk)) ProcessExit
          | (s, Some resp) => Next s (frame_of (ser_response resp)) []
          end).
  { unfold connection_step, request_frame. rewrite Hu.
    rewrite (proj2 (Nat.ltb_ge _ _)) by (rewrite length_app, length_to_le; lia).
    rewrite take_app_length', drop_app_length' by (by rewrite length_to_le). rewrite Hle.
    rewrite (proj2 (Z.ltb_ge _ _)) by done. rewrite (proj2 (Z.ltb_ge _ _)) by lia.
    unfold len. rewrite Nat2Z.id, take_ge, drop_ge by lia. rewrite de_ser_request.
    by destruct (handle_request _ _ _ _ _ _) as [s [r|]]. }
  assert (Hrecv : ∀ r op', response_fits r →
            receive_response (MkConn cid (frame_of (ser_response r)) op') = (MkConn cid [] op', Ok r)).
  { intros r op' Hr'. destruct (of_le_len (ser_response r) MAX_RESPONSE Hr' eq_refl) as [Hle' _].
    unfold receive_response, frame_of. cbn [conn_inbox conn_id conn_open].
    rewrite (proj2 (Nat.ltb_ge _ _)) by (rewrite length_app, length_to_le; lia).
    rewrite take_app_length', drop_app_length' by (by rewrite length_to_le). rewrite Hle'.
    rewrite (proj2 (Z.ltb_ge _ _)) by done. rewrite (proj2 (Z.ltb_ge _ _)) by lia.
    unfold len. rewrite Nat2Z.id, take_ge, drop_ge by lia. by rewrite de_ser_response. }
  unfold ask, send_request, serve. cbn [conn_open conn_id conn_inbox andb]. rewrite Hr, Hstep. cbn [andb app].
  destruct (handle_request _ _ _ _ _ _) as [s [resp|]]; intros Hfit; cbn [app]; by rewrite Hrecv.
Qed.

Lemma disconnect_open wd c : running wd = true → conn_open c = true →
  disconnect show tcp_cache error_text wd c =
  set_ipc (MkIpc (ipc_architect_pk (ipc wd)) (delete (conn_id c) (challenges (ipc wd))) (random_supply (ipc wd))) true wd.
Proof. intros Hr Ho. unfold disconnect, serve. by rewrite Hr, Ho. Qed.

(** What the signed commands exchange with the node. *)
Definition admin_fits (make : bytes → IpcRequest) (nonce signature : bytes) : Prop :=
  request_fits GetChallenge ∧ request_fits (make signature) ∧ response_fits (Challenge nonce) ∧
  response_fits IpcOk ∧ response_fits (admin_refused (Some false)).
Definition next_challenge wd : bytes := default zero32 (head (random_supply (ipc wd))).
(** The world once the command has gone: the challenge is used, and forgotten. *)
Definition after_command wd : World :=
  MkWorld (files wd) (node_net wd)
    (MkIpc (ipc_architect_pk (ipc wd)) (delete (conn_id_gen wd + 1) (challenges (ipc wd))) (drop 1 (random_supply (ipc wd))))
    (conn_id_gen wd + 1) true.
(** The world when the command has stopped the node. *)
Definition stopped wd : World :=
  MkWorld (files wd) (node_net wd)
    (MkIpc (ipc_architect_pk (ipc wd)) (<[conn_id_gen wd + 1 := next_challenge wd]> (challenges (ipc wd)))
       (drop 1 (random_supply (ipc wd))))
    (conn_id_gen wd + 1) false.

Lemma admin_command_spec make d (exits : bool) path w wd :
  let nonce := next_challenge wd in
  let signature := wallet_sign w nonce in
  let accepted := verify (ipc_architect_pk (ipc wd)) nonce signature in
  running wd = true → load_wallet path wd = Ok w → admin_fits make nonce signature →
  (∀ net core cid s, challenges s !! cid = Some nonce → ipc_architect_pk s = ipc_architect_pk (ipc wd) →
     handle_request net core error_text cid (make signature) s =
     (s, if accepted then (if exits then None else Some IpcOk) else Some (admin_refused (Some false)))) →
  admin_command show tcp_cache error_text make d path wd =
    if accepted then (if exits then stopped wd else after_command wd, Ok d)
    else (after_command wd, Err (NodeRejected (bytes_of_string "Invalid ML-DSA-87 signature"))).
Proof.
  cbv zeta. intros Hr Hw (F1 & F2 & F3 & F4 & F5) Hh. unfold admin_command, connect_ipc. rewrite Hr.
  set (cid := conn_id_gen wd + 1). set (wd0 := MkWorld (files wd) (node_net wd) (ipc wd) cid true).
  set (c := MkConn cid [] true). unfold get_challenge.
  pose proof (ask_spec GetChallenge wd0 c eq_refl eq_refl eq_refl F1) as Ha. cbn [handle_request] in Ha.
  rewrite Ha by done. clear Ha. unfold sign_challenge.
  change (load_wallet path (set_ipc _ true wd0)) with (load_wallet path wd). rewrite Hw. cbn [rbind].
  fold (next_challenge wd0). change (next_challenge wd0) with (next_challenge wd).
  set (s1 := MkIpc _ _ _). set (wd1 := set_ipc s1 true wd0).
  pose proof (ask_spec (make (wallet_sign w (next_challenge wd))) wd1 c eq_refl eq_refl eq_refl F2) as Ha.
  change (ipc wd1) with s1 in Ha. rewrite Hh in Ha; [|apply lookup_insert_eq|done].
  assert (Hclose : disconnect show tcp_cache error_text (set_ipc s1 true wd1) c = after_command wd).
  { rewrite disconnect_open by done. unfold after_command, set_ipc. cbn [ipc challenges conn_id c s1 wd1 wd0 set_ipc files
      node_net conn_id_gen ipc_architect_pk random_supply]. by rewrite delete_insert_eq. }
  destruct (verify _ _ _); [|by rewrite Ha, Hclose]. destruct exits; rewrite Ha by done; [done|by rewrite Hclose].
Qed.

Lemma load_wallet_from_mnemonic path wd w : load_wallet path wd = Ok w → ∃ phrase i, from_mnemonic phrase i = Ok w.
Proof.
  unfold load_wallet. destruct (load _) as [w'|] eqn:E; [|done]. intros [= <-]. by apply load_from_mnemonic in E.
Qed.

(** The command `admin shutdown` stops the node exactly when the node takes the signature
    of the challenge under the wallet for the Architect's, which it does for the Architect's
    own wallet; a refused command leaves the node as it was, and either way no challenge of
    another connection is touched.  `admin connect-peer` is let through by the same
    signatures, and says that the node is connecting: the node does nothing. *)
Theorem admin_commands path peer w wd :
  let nonce := next_challenge wd in
  let signature := wallet_sign w nonce in
  let accepted := verify (ipc_architect_pk (ipc wd)) nonce signature in
  let refused := Err (NodeRejected (bytes_of_string "Invalid ML-DSA-87 signature")) in
  running wd = true → load_wallet path wd = Ok w →
  admin_fits AdminShutdown nonce signature → admin_fits (AdminConnectPeer peer) nonce signature →
  cli_shutdown show tcp_cache error_text path wd =
    (if accepted then (stopped wd, Ok ShutdownInitiated) else (after_command wd, refused)) ∧
  connect_peer show tcp_cache error_text peer path wd =
    (after_command wd, if accepted then Ok (ConnectingTo peer) else refused) ∧
  (public_key_bytes w = ipc_architect_pk (ipc wd) → accepted = true).
Proof.
  cbv zeta. intros Hr Hw F1 F2. split_and!.
  - unfold cli_shutdown. rewrite (admin_command_spec _ _ true _ w) by
      (try done; intros net core cid s Hc Hpk; cbn [handle_request]; unfold check_admin; rewrite Hc, Hpk; cbn; by destruct (verify _ _ _)).
    by destruct (verify _ _ _).
  - unfold connect_peer. rewrite (admin_command_spec _ _ false _ w) by
      (try done; intros net core cid s Hc Hpk; cbn [handle_request]; unfold check_admin; rewrite Hc, Hpk; cbn; by destruct (verify _ _ _)).
    by destruct (verify _ _ _).
  - intros Hpk. destruct (load_wallet_from_mnemonic _ _ _ Hw) as (phrase & i & Hm). rewrite <-Hpk. by eapply wallet_signs.
Qed.

(** ** Wallets *)
Lemma generate_from_mnemonic n i w : generate entropy n i = Ok w → ∃ phrase, from_mnemonic phrase i = Ok w.
Proof. unfold generate. intros H. inv_ok H; eauto. Qed.

(** A wallet that the command line made is the one it finds: it is shown with its address,
    and the other files are as they were. *)
Theorem created_wallet_shown path wd wd' addr phrase :
  create entropy path wd = (wd', Ok (CreatedWallet addr phrase)) →
  show_wallet path wd' = (wd', Ok (ShownWallet addr)) ∧
  ∀ p, p ≠ path → files wd' !! p = files wd !! p.
Proof.
  unfold create. destruct (generate entropy 24 0) as [w|] eqn:Hg; [|done]. intros [= <- <- <-].
  destruct (generate_from_mnemonic _ _ _ Hg) as [ph Hm]. destruct (wallet_roundtrip _ _ _ Hm) as [Hl _].
  split; [|intros p Hp; cbn; by rewrite lookup_insert_ne].
  unfold show_wallet, load_wallet. cbn [files set_files]. by rewrite lookup_insert_eq, Hl.
Qed.

(** ** Payments *)
Abbreviation state_of wd := (eng_state (engine (net_core (node_net wd)))).

(** A payment from an account that is not on chain: the node says that it does not know
    the account, the command line makes up a state with enough mass and sends the payment all
    the same; the node drops it, of a sender without mass, and acknowledges it, so that the
    command prints the node's response with the hash of the payment.  Nothing is queued. *)
Theorem payment_from_nowhere path to amount recipient w wd :
  running wd = true → load_wallet path wd = Ok w → decode_address to = Ok recipient →
  state_get_atom (state_of wd) (public_key_bytes w) = None →
  storage_get_atom (storage (engine (net_core (node_net wd)))) (public_key_bytes w) = None →
  public_key_bytes w ≠ eng_architect_pk (engine (net_core (node_net wd))) →
  0 < amount → amount + PROTOCOL_MIN_FEE + 1000 ≤ U64_MAX → no_sequence_error error_text →
  frame_fits (ser_cli (CFetchState (public_key_bytes w))) → frame_fits (ser_msg (NodeError (error_text AtomUnknown))) →
  (∀ tx, build (now 1) (cli_builder w recipient amount (debug_state amount)) = Ok tx →
     submission_fits error_text (to_bytes tx)) →
  ∃ tx, build (now 1) (cli_builder w recipient amount (debug_state amount)) = Ok tx ∧
    send show filter client_ip in_time now ck error_text to amount path wd =
    (set_node (Gossip.set_core (drop_frame (net_core (node_net wd))) (node_net wd)) wd,
     Ok (NodeResponse (take 4 (blake3 (to_bytes tx))))).
Proof.
  intros Hr Hw Hto Hs Hdisk Harch H0 Hmax Hseq Hf Hf' Hsub.
  destruct (load_wallet_from_mnemonic _ _ _ Hw) as (phrase & j & Hm).
  destruct (from_mnemonic_Ok _ _ _ Hm) as (_ & _ & _ & _ & Haddr).
  set (b := cli_builder w recipient amount (debug_state amount)) in *.
  assert (Hmass : st_mass (debug_state amount) = amount + PROTOCOL_MIN_FEE + 1000).
  { cbn [st_mass debug_state]. unfold u64_wrapping_add, U64_MAX, PROTOCOL_MIN_FEE in *.
    rewrite (Z.mod_small (amount + _)), Z.mod_small; lia. }
  assert (Hfee : PROTOCOL_MIN_FEE = 10) by done.
  destruct (build_covered (now 1) b recipient) as [tx Hb]; [done|done|by apply Z.le_refl| |split|];
    try (change (Sdk.sender_mass b) with (st_mass (debug_state amount)); rewrite Hmass; cbn; lia).
  exists tx. split; [done|]. unfold send. rewrite Hw, Hto. unfold new_auto. rewrite Hr.
  set (l := MkLink (node_net wd) [] true).
  pose proof (atom_state_unknown show client_ip ck error_text shield_text 0 w l ltac:(done)
    (len_public_key _ _ _ Hm) Haddr Hs Hf Hf') as Hstate.
  change (the_core ck error_text) with (node_core ck error_text) in Hstate. rewrite Hstate.
  rewrite Hmass. unfold u64_wrapping_add. rewrite Z.mod_small by (unfold U64_MAX in Hmax; lia).
  rewrite (proj2 (Z.ltb_ge _ _)) by lia. fold b.
  set (l1 := with_core (core l) l).
  destruct (broadcast_spec show client_ip now ck error_text shield_text phrase j 1 w b tx l1) as (S1 & _ & _);
    [done|done|done|done|done| | |by apply Hsub|].
  { unfold fee_exact. cbn. unfold PROTOCOL_MIN_FEE. lia. }
  { intros r [= <-]. by eapply decode_address_len. }
  change (the_core ck error_text) with (node_core ck error_text) in S1. rewrite S1.
  - done.
  - destruct (build_Ok _ _ _ Hb) as (r & _ & _ & _ & _ & _ & Hrx). cbv zeta in Hrx. destruct Hrx as (Hpk & _).
    change (public_key_bytes (b_wallet b)) with (public_key_bytes w) in Hpk.
    intros [Hk|(a & Ha & _)]; rewrite Hpk in *; [by apply Harch|]. change (core l1) with (net_core (node_net wd)) in Ha.
    by rewrite Hdisk in Ha.
Qed.
End cli.
