(* ===== verification/NetExamples.v ===== *)
(** Concrete peers, wallets and streams, on which the theorems on the network and the
    client are applied. *)
From S2P Require Import Prelude Floats Types Mpt MptExamples State Physics Pvm PvmFacts Crystal Chamber.
From S2P Require Import Storage Engine Processor Mining Toy ChainExamples Mempool Framing Dht DhtFacts.
From S2P Require Import Kademlia Maintenance Gossip GossipFacts Noise NoiseFacts Shield Ingress IngressFacts Server.
From S2P Require Import Crypto Sdk SdkFacts Ipc.
Open Scope Z_scope.

#[local] Existing Instance checksum_hashes.
#[local] Existing Instance toy_codec.
#[local] Existing Instance toy_atom_codec.
#[local] Existing Instance toy_reaction_codec.

(** ** The routing table and the lookup *)
Definition peer (n : Z) : PrimusNR := MkNR [n] 0 9000 [] 0.
Definition own_id : bytes := node_id (peer 1).
Lemma own_id_ok : is_id own_id.
Proof. split; [apply length_sha3_256|apply to_le_bytes]. Qed.
(** Twenty peers fill a bucket; two more begin, a peer is removed, one of the two finds that
    the oldest peer does not answer. *)
Definition fill_bucket : list TableEvent := (λ n, InsertBegins (peer n)) <$> seqZ 32 20.
Definition table_events : list TableEvent :=
  fill_bucket ++ [InsertBegins (peer 52); InsertBegins (peer 1); InsertBegins (peer 53); PeerRemoved (node_id (peer 40));
                  PingEnds 1 true; PingEnds 0 false].
Lemma routing_table_invariant_witness :
  let t := shared (run_events table_events (shared_new own_id)) in
  length (all_peers t) = 19%nat ∧ head (all_peers t) = Some (peer 52) ∧ NoDup (node_id <$> all_peers t).
Proof.
  destruct (routing_table_invariant sha3_bytes own_id table_events own_id_ok) as (_ & _ & _ & _ & H).
  split; [vm_compute; reflexivity|]. split; [vm_compute; reflexivity|]. apply H. vm_compute. reflexivity.
Defined.

Definition full_table : RoutingTable := shared (run_events fill_bucket (shared_new own_id)).
Lemma overlapping_inserts_duplicate_witness :
  ∃ rest, bucket_at (shared (run_events [InsertBegins (peer 52); InsertBegins (peer 52); PingEnds 0 false; PingEnds 0 false]
                               (MkShared full_table []))) 2 = peer 52 :: peer 52 :: rest.
Proof.
  destruct (overlapping_inserts_duplicate sha3_bytes (peer 52) full_table) as (rest & _ & _ & _ & _ & H).
  - assert (H0 : shared_ok own_id (shared_new own_id)).
    { pose proof (table_new_ok own_id own_id_ok) as Ht. split; [|split_and!; [|constructor|by intros w ?%elem_of_nil]].
      - split_and!; [reflexivity|by apply table_ok_placed|constructor].
      - intros i b Hi. by destruct (to_buckets _ Ht i b Hi). }
    destruct (events_ok sha3_bytes own_id fill_bucket _ own_id_ok H0) as ((_ & Ht & _) & Hn & _); [vm_compute; reflexivity|].
    by apply table_placed_ok.
  - vm_compute. discriminate.
  - apply (bool_decide_unpack _). vm_compute. exact I.
  - vm_compute. reflexivity.
  - exists rest. exact H.
Defined.

Definition known_table : RoutingTable := table_insert (λ _, true) (peer 2) (table_new own_id).
Definition known_ids : gset NodeID := {[own_id; node_id (peer 2); node_id (peer 3)]}.
Definition answer (round : nat) (nr : PrimusNR) : option (list PrimusNR) :=
  if bool_decide (nr = peer 2) then Some [peer 3] else None.

Lemma find_node_terminates_witness :
  is_Some (find_node (λ _ _ _, true) (λ _, true) answer 4 own_id known_table).
Proof.
  apply (find_node_terminates (λ _ _ _, true) (λ _, true) answer known_ids).
  - intros round nr l H. unfold answer in H. destruct (bool_decide (nr = peer 2)); [|discriminate].
    injection H as <-. constructor; [|constructor]. apply (bool_decide_unpack _). vm_compute. exact I.
  - apply (bool_decide_unpack _). vm_compute. exact I.
  - apply (bool_decide_unpack _). vm_compute. exact I.
  - apply (bool_decide_unpack _). vm_compute. exact I.
Defined.

Definition signed_peer (n : Z) : PrimusNR :=
  MkNR (replicate (Z.to_nat PK_BYTES) n) 0 9000 (replicate (Z.to_nat SIG_BYTES) n) 0.
Definition signed_ids : gset NodeID := {[own_id; node_id (signed_peer 2); node_id (signed_peer 3)]}.
Definition signed_table : RoutingTable :=
  handle_new_peer (λ _ _ _, true) (λ _, true) (signed_peer 2) (table_new own_id).
Definition signed_answer (round : nat) (nr : PrimusNR) : option (list PrimusNR) :=
  if bool_decide (nr = signed_peer 2) then Some [signed_peer 3] else None.
Definition two_hours : list Hour :=
  [MkHour own_id (λ _, true) signed_answer; MkHour own_id (λ _, false) (λ _ _, None)].
Lemma signed_table_sound : table_sound (λ _ _ _, true) signed_ids own_id signed_table.
Proof.
  apply (sound_new sha3_bytes); [|apply table_new_sound, own_id_ok].
  unfold signed_ids. rewrite !elem_of_union, !elem_of_singleton. left; right. reflexivity.
Qed.
Lemma size_union_le (X Y : gset NodeID) : (size (X ∪ Y) ≤ size X + size Y)%nat.
Proof. rewrite size_union_alt. apply Nat.add_le_mono_l, subseteq_size, subseteq_difference_l. done. Qed.

(** ** Streams *)
#[local] Instance plain_transport : StatelessTransport.
Proof.
  refine {| write_message n p := p ++ replicate 16 0; read_message n c := Some (take (length c - 16) c) |}.
  - intros n p _. f_equal. rewrite length_app, length_replicate. apply take_app_length'. lia.
  - intros n p _. unfold len, TAG_LEN. rewrite length_app, length_replicate. lia.
Defined.

Definition pieces_sent : list bytes := [[1; 2; 3]; []; [4]].
Definition on_the_wire : bytes := wire true 0 pieces_sent.
Definition delayed : Inner :=
  [Data (take 1 on_the_wire); NotReady; Data (take 40 (drop 1 on_the_wire)); NotReady; Data (drop 41 on_the_wire)].
Lemma stream_roundtrip_witness :
  read_to_end (length (concat pieces_sent) + length delayed + 1) 2 (noise_new true) delayed = Some [1; 2; 3; 4].
Proof.
  refine (stream_roundtrip true pieces_sent delayed 2 _ _ _ _).
  - repeat constructor; discriminate.
  - repeat constructor; discriminate.
  - lia.
  - vm_compute. reflexivity.
Defined.

(** A reader of one frame, and a writer to a socket that takes three bytes at a time. *)
Lemma poll_write_frames_witness :
  let '(s, _, out, r) := poll_write [7; 8] (noise_new false) [Some 3%nat; None] in
  ([] ++ out) ++ pending s = wire false 0 [[7; 8]] ∧ r = Some 2%nat.
Proof.
  pose proof (poll_write_frames [7; 8] (noise_new false) [Some 3%nat; None] _ _ _ _ [] [] eq_refl eq_refl eq_refl) as [H _].
  split; [exact H|vm_compute; reflexivity].
Defined.

(** ** The bridge *)
Definition unarchive_atom (a : ArchivedAtom) : Atom :=
  MkAtom (a_public_key a) (a_element a) (a_neutron_count a) (a_mass a) (a_charge a) (a_last_reaction_hash a)
    (a_last_active_index a) (a_nonce a) (a_quantum_state a).
Definition unarchive_payload (p : ArchivedPayload) : Payload :=
  match p with
  | AGeneric => Generic
  | ATransfer n => Transfer n
  | AMiningReward n => MiningReward n
  | AContract c => Contract c
  | AContractCall a d => ContractCall a d
  | AUnknown => Unknown
  end.
Definition unarchive (a : ArchivedSignedReaction) : SignedReaction :=
  MkReaction (unarchive_atom (a_sender a)) (unarchive_atom (a_receiver a)) (a_reaction_hash a) (a_energy a)
    (a_timestamp a) (a_signature a) (unarchive_payload (a_payload a)).
Lemma unarchive_archive rx : unarchive (archive rx) = rx.
Proof. by destruct rx as [[] [] ? ? ? ? []]. Qed.
Lemma archive_unarchive a : archive (unarchive a) = a.
Proof. by destruct a as [[] [] ? ? ? ? []]. Qed.

#[local] Instance toy_rkyv : Rkyv.
Proof.
  refine {| rkyv_to_bytes rx := 1 :: put_rx rx;
            check_archived_root b := match b with 1 :: b => archive <$> (fst <$> take_rx b) | _ => None end;
            rkyv_deserialize a := Some (unarchive a) |}.
  - intros rx. by rewrite (take_all _ _ take_rx_put).
  - intros rx. by rewrite unarchive_archive.
  - intros a rx [= <-]. apply archive_unarchive.
Defined.

#[local] Instance toy_envelopes : EnvelopeCodec.
Proof.
  refine {| ser_envelope e := 2 :: chunk_index e :: total_chunks e :: put_bytes (stream_id e)
                                ++ put_bytes (payload_hash e) ++ chunk_data e;
            de_envelope b :=
              match b with
              | 2 :: i :: n :: b => '(sid, b) ← take_bytes b; '(h, b) ← take_bytes b; Some (MkEnvelope sid i n h b)
              | _ => None
              end |}.
  intros []. cbn -[put_bytes take_bytes]. rewrite take_bytes_put. cbn -[put_bytes take_bytes].
  by rewrite take_bytes_put.
Defined.
Definition ck0 : Clocks := MkClocks 100 100 1735689700.
Definition engine0 : PrimusEngine :=
  MkEngine (storage E0) (eng_state E0) (chamber E0) 12 (toy_key 9) false 0 (f32_of_Z 1).
Definition core0 : CoreHandleImpl :=
  MkCore engine0 (mempool_new (λ _, MkSector ∅ ∅)) 0 (Some []) ∅.
Definition from_arch : SignedReaction := toy_rx (new_receiver (toy_key 9)) (new_receiver (toy_key 2)) 10 (Transfer 5).
Definition from_nobody : SignedReaction := toy_rx (new_receiver (toy_key 3)) (new_receiver (toy_key 2)) 10 (Transfer 5).

Lemma nobody_unknown : ¬ known_sender core0 from_nobody.
Proof.
  intros [H|(a & H & _)].
  - apply (f_equal head) in H. vm_compute in H. discriminate H.
  - vm_compute in H. discriminate H.
Qed.
Lemma arch_known : known_sender core0 from_arch.
Proof. left. vm_compute. reflexivity. Qed.
Definition push_ok (rx : SignedReaction) : bool :=
  match push (unix_secs ck0) (mempool core0) rx with Ok (_, b) => b | Err _ => false end.
Lemma arch_pushed : push_ok from_arch = true.
Proof. vm_compute. reflexivity. Qed.
Lemma from_arch_small : len (rkyv_to_bytes from_arch) ≤ APP_MAX_MESSAGE.
Proof. vm_compute. discriminate. Qed.
Lemma from_nobody_small : len (rkyv_to_bytes from_nobody) ≤ APP_MAX_MESSAGE.
Proof. vm_compute. discriminate. Qed.

Definition pushed_to (mp : SectoralMempool) : CoreHandleImpl :=
  broadcast (NewReaction (rkyv_to_bytes from_arch) 8) (Ingress.set_mempool mp core0).
Lemma core_admission_witness :
  core_push_bytes ck0 (rkyv_to_bytes from_nobody) core0 = (drop_frame core0, Ok tt) ∧
  core_push_bytes ck0 (rkyv_to_bytes from_arch) core0 =
    match push (unix_secs ck0) (mempool core0) from_arch with
    | Ok (mp, true) => (pushed_to mp, Ok tt)
    | Ok (mp, false) => (Ingress.set_mempool mp core0, Ok tt)
    | Err e => (core0, Err (Rejected e))
    end.
Proof.
  exact (conj
    (proj1 (core_admission ck0 (rkyv_to_bytes from_nobody) from_nobody core0 from_nobody_small (check_to_bytes _))
       nobody_unknown)
    (proj2 (core_admission ck0 (rkyv_to_bytes from_arch) from_arch core0 from_arch_small (check_to_bytes _))
       arch_known)).
Defined.

(** The same reaction in an envelope. *)
Definition in_chunks : list ChunkEnvelope :=
  match chunk_message (rkyv_to_bytes from_arch) [4] with Ok es => es | Err _ => [] end.
Definition the_chunk : ChunkEnvelope := default (MkEnvelope [] 0 0 [] []) (head in_chunks).
Lemma in_chunks_eq : chunk_message (rkyv_to_bytes from_arch) [4] = Ok in_chunks.
Proof.
  unfold in_chunks, chunk_message. rewrite (proj2 (Z.ltb_ge _ _) from_arch_small). reflexivity.
Qed.
Lemma in_chunks_one : in_chunks = [the_chunk].
Proof. vm_compute. reflexivity. Qed.
Lemma the_chunk_sendable : sendable the_chunk.
Proof. split; [vm_compute; reflexivity|vm_compute; discriminate]. Qed.

Lemma chunked_reaction_witness :
  ∃ streams', streams' !! ([4] : bytes) = None ∧
    let whole := core_push_bytes ck0 (rkyv_to_bytes from_arch) (set_reassembler streams' core0) in
    push_chunks ([] ++ [(ck0, the_chunk)]) core0 = (whole.1, replicate 0 (Ok tt) ++ [whole.2]).
Proof.
  refine (chunked_reaction (rkyv_to_bytes from_arch) [4] in_chunks [] ck0 the_chunk core0 100 (archive from_arch)
            in_chunks_eq _ (check_to_bytes _) _ _ _ _).
  - discriminate.
  - reflexivity.
  - rewrite in_chunks_one. reflexivity.
  - constructor; [|constructor]. split; cbn; [lia|reflexivity].
  - rewrite in_chunks_one. constructor; [apply the_chunk_sendable|constructor].
Defined.

(** ** The server *)
#[local] Instance toy_length_codec : LengthDelimitedCodec.
Proof.
  refine (let field c input := of_be (take (length_field_length c) (drop (length_field_offset c) input)) in
          {| next_frame c input :=
               let n := field c input in
               if len input <? Z.of_nat (skipped c) then None
               else if max_frame_length c <? n then Some None
               else if len input <? Z.of_nat (skipped c) + (n + length_adjustment c) then None
               else Some (Some (take (Z.to_nat (n + length_adjustment c)) (drop (skipped c) input)));
             after_frame c input := drop (skipped c + Z.to_nat (field c input + length_adjustment c)) input |}).
  1,2: intros c head n rest Hh Hn Hm input Ha Hl;
    assert (Ht : field c input = n);
      [unfold field, input; rewrite drop_app_length', take_app_length' by (done || by rewrite length_to_be);
       rewrite of_be_to_be; apply Z.mod_small; lia|].
  - cbv zeta. rewrite Ht, (proj2 (Z.ltb_ge (len input) (Z.of_nat (skipped c)))) by lia.
    rewrite (proj2 (Z.ltb_ge (max_frame_length c) n)) by lia. by rewrite (proj2 (Z.ltb_ge (len input) _)) by lia.
  - by rewrite Ht.
  - intros c Hc. cbv zeta. by rewrite (proj2 (Z.ltb_lt (len []) _)) by (unfold len; simpl; lia).
  - intros c input b Hc. cbv zeta. destruct (Z.ltb_spec (len input) (Z.of_nat (skipped c))) as [|Hl]; [done|]. intros _.
    rewrite length_drop. unfold len in Hl. lia.
Defined.
#[local] Instance no_decoder : MessageDecoder := {| de_msg _ := None |}.

Definition session0 : PeerSession := session_new (λ n c, read_message n c) (λ n p, Some (write_message n p)).
Definition server0 : Server unit := MkServer {[ [10] := session0 ]} 0 tt [].
Definition sent_stream : bytes := default [] (send_gossip [1; 2; 3] session0).2.
Lemma gossip_always_refused_witness :
  handle_gossip_stream (λ _ s, (s, true)) sent_stream [10] server0 = (server0, Err (UnexpectedStreamType 0)).
Proof.
  refine (proj1 (gossip_always_refused (λ _ s, (s, true)) [1; 2; 3] session0 (send_gossip [1; 2; 3] session0).1 sent_stream
    [10] session0 server0 _ _ _ _)).
  - reflexivity.
  - vm_compute. discriminate.
  - vm_compute. discriminate.
  - reflexivity.
Defined.

(** ** Wallets and transfers *)
Definition pad (n : nat) (b : bytes) : bytes := take n (b ++ replicate n 0).
Lemma length_pad n b : length (pad n b) = n.
Proof. unfold pad. rewrite length_take, length_app, length_replicate. lia. Qed.
Lemma take_pad n m b : (n ≤ m)%nat → take n (pad m (pad n b)) = pad n b.
Proof.
  intros H. unfold pad at 1. rewrite take_take, Nat.min_l by done. apply take_app_length'. by rewrite length_pad.
Qed.
Definition PKN : nat := Z.to_nat PK_BYTES.
Definition SKN : nat := Z.to_nat SK_BYTES.
Definition SIGN : nat := Z.to_nat SIG_BYTES.

(** The key is the seed, the signature is the key. *)
#[local] Instance toy_mldsa : MlDsa87.
Proof.
  refine {| key_gen_internal xi := (pad PKN xi, pad SKN (pad PKN xi));
            mldsa_sign sk m := pad SIGN (take PKN sk);
            mldsa_verify pk m sig := bool_decide (take PKN sig = pk) |}.
  - intros xi. cbn [fst]. unfold len. by rewrite length_pad.
  - intros xi. cbn [snd]. unfold len. by rewrite length_pad.
  - intros sk m. unfold len. by rewrite length_pad.
  - intros xi m. cbn [fst snd]. apply bool_decide_eq_true_2.
    rewrite take_pad by (unfold PKN, SKN, PK_BYTES, SK_BYTES; lia).
    apply take_pad. unfold PKN, SIGN, PK_BYTES, SIG_BYTES. lia.
Defined.
#[local] Instance toy_bip39 : Bip39 :=
  {| phrase_valid _ := true; to_seed p := p; phrase_of_entropy e := e; phrase_of_entropy_valid _ _ := eq_refl |}.
#[local] Instance toy_hex : Hex :=
  {| hex_encode b := b; hex_decode b := Some b; hex_decode_encode _ := eq_refl |}.
#[local] Instance toy_wallet_file : WalletFileCodec.
Proof.
  refine {| ser_wallet w := wf_version w :: wf_index w :: wf_phrase w;
            de_wallet b := match b with v :: i :: p => Some (MkWalletFile v p i) | _ => None end |}.
  by intros [].
Defined.

Definition no_wallet : Wallet := MkWallet [] 0 [] [] [].
Definition wallet0 : Wallet := match from_mnemonic [1; 2] 0 with Ok w => w | Err _ => no_wallet end.
Lemma wallet0_eq : from_mnemonic [1; 2] 0 = Ok wallet0.
Proof. reflexivity. Qed.
Lemma wallet_roundtrip_witness : load (Some (save wallet0)) = Ok wallet0.
Proof. exact (proj1 (wallet_roundtrip [1; 2] 0 wallet0 wallet0_eq)). Defined.

Definition builder0 : TransactionBuilder := MkBuilder wallet0 (Some (toy_key 2)) 300 10 1000 zero32 7 SHydrogen.
Definition no_tx : Transaction :=
  MkTransaction (snapshot_new_receiver []) (snapshot_new_receiver []) [] (f32_of_Z 0) 0 [] SGeneric.
Definition tx0 : Transaction := match build 5 builder0 with Ok t => t | Err _ => no_tx end.
Lemma tx0_eq : build 5 builder0 = Ok tx0.
Proof. reflexivity. Qed.
Definition account0 : Atom := sender_snapshot (public_key_bytes wallet0) Hydrogen 1000 zero32 7 0 0.
Definition state0 : StateTree := MkStateTree {[ public_key_bytes wallet0 := account0 ]} 3 metrics_default.
#[local] Instance flat_ln : Libm := {| ln_1p x := x |}.
Definition sdk_ctx : ExecutionContext := make_execution_context state0 ∅ (f32_of_Z 300) [9].

Lemma built_transfer_executes_witness :
  ∃ a, check_archived_root (to_bytes tx0) = Some a ∧ archived_validate_structure a = Ok tt ∧
       rkyv_deserialize a = Some (to_signed_reaction tx0).
Proof.
  refine (proj1 (built_transfer_executes [1; 2] 0 wallet0 5 builder0 tx0 (atoms state0) sdk_ctx (atoms state0) 3
    [to_signed_reaction tx0] acc_new account0 wallet0_eq eq_refl tx0_eq _ _ _ _ _ eq_refl eq_refl)).
  - discriminate.
  - split; [discriminate|reflexivity].
  - intros to H. injection H as <-. reflexivity.
  - apply core_context_over.
  - vm_compute. reflexivity.
Defined.

(** ** The light client: hashes that only sum collide. *)
Definition put_len (b : bytes) : bytes := [len b; 0; 0; 0; 0; 0; 0; 0] ++ b.
Definition toy_leaf_repr (s v : bytes) : bytes := put_len s ++ put_len v.
Definition toy_ext_repr (p c : bytes) : bytes := put_len p ++ c.
Definition take_len (b : bytes) : option (bytes * bytes) :=
  match b with
  | n :: _ :: _ :: _ :: _ :: _ :: _ :: _ :: r => Some (take (Z.to_nat n) r, drop (Z.to_nat n) r)
  | _ => None
  end.
Lemma take_len_put b r : take_len (put_len b ++ r) = Some (b, r).
Proof. unfold take_len, put_len, len. simpl. by rewrite Nat2Z.id, take_app_length, drop_app_length. Qed.
Definition bincode_nodes : NodeCodec.
Proof.
  refine {| ser_node n := match n with
                          | Leaf s v => to_le 4 0 ++ toy_leaf_repr s v
                          | Extension p c => to_le 4 1 ++ toy_ext_repr p c
                          | Branch _ _ => 2 :: toy_ser n
                          end;
            de_node b := match b with
                         | 0 :: _ :: _ :: _ :: r => '(s, r) ← take_len r; '(v, r) ← take_len r; Some (Leaf s v)
                         | 1 :: _ :: _ :: _ :: r => '(p, c) ← take_len r; Some (Extension p c)
                         | 2 :: r => toy_de r
                         | _ => None
                         end |}.
  intros [s v|p c|cs v].
  - change (to_le 4 0) with [0; 0; 0; 0]. unfold toy_leaf_repr. cbn [app]. rewrite take_len_put. cbn [mbind option_bind].
    rewrite <-(app_nil_r (put_len v)), take_len_put. done.
  - change (to_le 4 1) with [1; 0; 0; 0]. unfold toy_ext_repr. cbn [app]. by rewrite take_len_put.
  - apply toy_de_ser.
Defined.
Definition bincode_proofs : ProofCodec :=
  {| ser_leaf_repr := toy_leaf_repr; ser_ext_repr := toy_ext_repr; de_atom b := fst <$> take_atom b |}.
Lemma toy_layout : bincode_layout (NC := bincode_nodes) (PC := bincode_proofs).
Proof.
  split; [done|]. split; [done|]. intros p c. cbn [ser_ext_repr bincode_proofs]. unfold toy_ext_repr, put_len.
  rewrite !length_app. simpl. lia.
Qed.

Definition one_leaf : MerkleProof :=
  MkProof (replicate 32 0) (Some [9]) (checksum (toy_leaf_repr (replicate 64 0) [9])) [] [PLeaf].
Lemma inclusion_needs_collision_witness : blake3_collision.
Proof.
  refine (inclusion_needs_collision (NC := bincode_nodes) (PC := bincode_proofs) one_leaf [9] toy_layout _ eq_refl _ _).
  - split; [constructor|]. constructor; [|constructor]. intros n H. discriminate H.
  - vm_compute. reflexivity.
  - vm_compute. reflexivity.
Defined.

(** ** The administration socket *)
#[local] Instance toy_ipc : IpcCodec.
Proof.
  refine {| ser_request r := match r with
                             | Status => [0]
                             | GetChallenge => [1]
                             | AdminShutdown sig => 2 :: sig
                             | AdminConnectPeer a sig => 3 :: put_bytes a ++ sig
                             | IpcGetProof a => 4 :: a
                             end;
            de_request b := match b with
                            | [0] => Some Status
                            | [1] => Some GetChallenge
                            | 2 :: sig => Some (AdminShutdown sig)
                            | 3 :: r => '(a, sig) ← take_bytes r; Some (AdminConnectPeer a sig)
                            | 4 :: a => Some (IpcGetProof a)
                            | _ => None
                            end;
            ser_response _ := [] |}.
  intros [| |sig|a sig|a]; try done. cbn -[put_bytes take_bytes]. by rewrite take_bytes_put.
Defined.
Definition admin_seed : bytes := replicate 32 6.
Definition ipc0 : IpcServer := MkIpc (kp_pk (keypair_from_seed admin_seed)) {[ 1 := [1; 2; 3] ]} [].
Definition admin_sig : bytes := sign_with_seed admin_seed [1; 2; 3].
Definition net0 : NetworkStatus := MkStatus [] 0 0.
Lemma signature_authorises_any_command_witness :
  handle_request net0 core0 (λ _, []) 1 (AdminShutdown admin_sig) ipc0 = (ipc0, None).
Proof.
  refine (signature_authorises_any_command net0 core0 (λ _, []) 1 [5] admin_sig ipc0 ipc0 [] ipc0 _ _ _).
  - vm_compute. reflexivity.
  - constructor.
  - intros H. inversion H.
Defined.
