(* ===== verification/ClientExamples.v ===== *)
(** A concrete wire format, a node with one account, and a payment made by the client. *)
From S2P Require Import Prelude Floats Types Mpt MptExamples State Physics Pvm Crystal Chamber.
From S2P Require Import Storage Engine Processor Toy ChainExamples Mempool Framing Dht.
From S2P Require Import Gossip Noise NoiseFacts Shield Ingress IngressFacts Server.
From S2P Require Import Crypto Sdk SdkFacts NetExamples Client ClientFacts.
Open Scope Z_scope.

#[local] Existing Instance checksum_hashes.
#[local] Existing Instance toy_codec.
#[local] Existing Instance toy_atom_codec.
#[local] Existing Instance toy_reaction_codec.
#[local] Existing Instance toy_rkyv.
#[local] Existing Instance toy_envelopes.
#[local] Existing Instance toy_length_codec.
#[local] Existing Instance toy_mldsa.
#[local] Existing Instance toy_bip39.
#[local] Existing Instance toy_hex.

(** ** The wire format *)
Section lists.
Context {A : Type} (put : A → bytes) (take_ : bytes → option (A * bytes)).
Fixpoint take_times (n : nat) (b : bytes) : option (list A * bytes) :=
  match n with
  | O => Some ([], b)
  | S n => '(x, b) ← take_ b; '(l, b) ← take_times n b; Some (x :: l, b)
  end.
Definition put_list (l : list A) : bytes := len l :: (l ≫= put).
Definition take_list (b : bytes) : option (list A * bytes) :=
  match b with n :: b => take_times (Z.to_nat n) b | [] => None end.
Lemma take_list_put l r : (∀ x r, take_ (put x ++ r) = Some (x, r)) → take_list (put_list l ++ r) = Some (l, r).
Proof.
  intros Ht. unfold put_list, take_list, len. cbn [app]. rewrite Nat2Z.id.
  induction l as [|x l IH]; [done|]. rewrite bind_cons, <-app_assoc. cbn [length take_times].
  rewrite Ht. cbn [mbind option_bind]. rewrite IH. done.
Qed.
End lists.

Definition put_step (st : PathStep) : bytes :=
  match st with PBranch n => [0; n] | PExtension n => [1; n] | PLeaf => [2; 0] end.
Definition take_step (b : bytes) : option (PathStep * bytes) :=
  match b with
  | 0 :: n :: r => Some (PBranch n, r)
  | 1 :: n :: r => Some (PExtension n, r)
  | 2 :: _ :: r => Some (PLeaf, r)
  | _ => None
  end.
Lemma take_step_put st r : take_step (put_step st ++ r) = Some (st, r).
Proof. by destruct st. Qed.

Definition put_proof (p : MerkleProof) : bytes :=
  put_bytes (trie_key p) ++ put_list put_bytes (option_list (value p)) ++ put_bytes (root p)
  ++ put_list put_bytes (siblings p) ++ put_list put_step (path p).
Definition take_proof (b : bytes) : option (MerkleProof * bytes) :=
  '(k, b) ← take_bytes b; '(v, b) ← take_list take_bytes b; '(r, b) ← take_bytes b;
  '(s, b) ← take_list take_bytes b; '(p, b) ← take_list take_step b; Some (MkProof k (head v) r s p, b).
Lemma take_proof_put p r : take_proof (put_proof p ++ r) = Some (p, r).
Proof.
  destruct p as [k v rt s p]. unfold put_proof, take_proof. cbn [trie_key value root siblings path].
  rewrite <-!app_assoc, take_bytes_put. cbn [mbind option_bind].
  rewrite take_list_put by apply take_bytes_put. cbn [mbind option_bind]. rewrite take_bytes_put. cbn [mbind option_bind].
  rewrite take_list_put by apply take_bytes_put. cbn [mbind option_bind].
  rewrite take_list_put by apply take_step_put. by destruct v.
Qed.

Definition put_cli (m : CliMessage) : bytes :=
  match m with
  | CPing => [0]
  | CPong => [1]
  | CHandshake v i h e p => [2; h; p] ++ put_bytes v ++ put_bytes i ++ put_f32 e
  | CGetPeers => [3]
  | CPeersResponse l => 4 :: put_list put_bytes l
  | CNewReaction d ttl => 5 :: ttl :: d
  | CNewCrystal d ttl => 6 :: ttl :: d
  | CGetCrystal h => [7; h]
  | CCrystalResponse d => 8 :: d
  | CSync => [9]
  | CFetchState a => 10 :: a
  | CStateResponse m n l e => [11; m; n] ++ put_bytes l ++ e
  | CSubmitReaction b => 12 :: b
  | CReactionAck h => 13 :: h
  | CNodeError r => 14 :: r
  | CGetProof a => 15 :: a
  | CProofResponse p => 16 :: put_proof p
  end.
Definition take_cli (b : bytes) : option CliMessage :=
  match b with
  | 0 :: _ => Some CPing
  | 1 :: _ => Some CPong
  | 2 :: h :: p :: b => '(v, b) ← take_bytes b; '(i, b) ← take_bytes b; '(e, b) ← take_f32 b; Some (CHandshake v i h e p)
  | 3 :: _ => Some CGetPeers
  | 4 :: b => '(l, b) ← take_list take_bytes b; Some (CPeersResponse l)
  | 5 :: ttl :: d => Some (CNewReaction d ttl)
  | 6 :: ttl :: d => Some (CNewCrystal d ttl)
  | 7 :: h :: _ => Some (CGetCrystal h)
  | 8 :: d => Some (CCrystalResponse d)
  | 9 :: _ => Some CSync
  | 10 :: a => Some (CFetchState a)
  | 11 :: m :: n :: b => '(l, e) ← take_bytes b; Some (CStateResponse m n l e)
  | 12 :: b => Some (CSubmitReaction b)
  | 13 :: h => Some (CReactionAck h)
  | 14 :: r => Some (CNodeError r)
  | 15 :: a => Some (CGetProof a)
  | 16 :: b => '(p, b) ← take_proof b; Some (CProofResponse p)
  | _ => None
  end.
#[local] Opaque put_bytes take_bytes put_f32 take_f32 put_list take_list put_proof take_proof.
Lemma take_cli_put m : take_cli (put_cli m) = Some m.
Proof.
  destruct m as [| |v i h e p| |l|d t|d t|h|d| |a|x n l e|b|h|r|a|p]; try done; cbn.
  - rewrite take_bytes_put. cbn [mbind option_bind]. rewrite take_bytes_put. cbn [mbind option_bind].
    by rewrite <-(app_nil_r (put_f32 e)), take_f32_put.
  - by rewrite <-(app_nil_r (put_list put_bytes l)), take_list_put by apply take_bytes_put.
  - by rewrite take_bytes_put.
  - by rewrite <-(app_nil_r (put_proof p)), take_proof_put.
Qed.
#[local] Transparent put_bytes take_bytes put_f32 take_f32 put_list take_list put_proof take_proof.

Definition client_message (m : PrimusMessage) : CliMessage :=
  match m with
  | Ping => CPing
  | Pong => CPong
  | MHandshake v i h e p => CHandshake v i h e p
  | GetPeers => CGetPeers
  | PeersResponse l => CPeersResponse l
  | NewReaction d t => CNewReaction d t
  | NewCrystal d t => CNewCrystal d t
  | GetCrystal h => CGetCrystal h
  | CrystalResponse d => CCrystalResponse d
  | MSync _ => CSync
  | FetchState a => CFetchState a
  | StateResponse m n l e => CStateResponse m n l e
  | SubmitReaction b => CSubmitReaction b
  | ReactionAck h => CReactionAck h
  | NodeError r => CNodeError r
  | GetProof a => CGetProof a
  | ProofResponse p => CProofResponse p
  end.
Lemma client_node_message m m' : node_message m = Some m' → client_message m' = m.
Proof. by destruct m; intros [= <-]. Qed.
#[local] Instance wire_messages : MessageCodec := {| ser_msg m := put_cli (client_message m) |}.
#[local] Instance wire_decoder : MessageDecoder := {| de_msg b := take_cli b ≫= node_message |}.
#[local] Instance wire_client : ClientCodec.
Proof.
  refine {| ser_cli := put_cli; de_cli := take_cli |}.
  - intros m m' H. cbn. by rewrite take_cli_put.
  - intros m m' H. cbn. by rewrite (client_node_message m m' H), take_cli_put.
Defined.

Definition put_crystal (c : Crystal) : bytes :=
  [index c; cr_timestamp c; cr_nonce c] ++ put_bytes (prev_hash c) ++ put_bytes (state_root c)
  ++ put_list put_bytes (reactions c) ++ put_list put_rx (reactions_data c)
  ++ put_f32 (cumulative_energy c) ++ put_f32 (final_temp c) ++ put_f32 (final_entropy c).
Definition take_crystal (b : bytes) : option Crystal :=
  match b with
  | i :: t :: n :: b =>
      '(ph, b) ← take_bytes b; '(sr, b) ← take_bytes b; '(rs, b) ← take_list take_bytes b;
      '(rd, b) ← take_list take_rx b; '(ce, b) ← take_f32 b; '(ft, b) ← take_f32 b; '(fe, b) ← take_f32 b;
      Some (MkCrystal i ph t n rs rd ce sr ft fe)
  | _ => None
  end.
#[local] Instance toy_crystals : CrystalCodec.
Proof.
  refine {| ser_crystal := put_crystal; de_crystal := take_crystal |}.
  intros [i ph t n rs rd ce sr ft fe]. unfold put_crystal, take_crystal.
  cbn [index prev_hash cr_timestamp cr_nonce reactions reactions_data cumulative_energy state_root final_temp final_entropy app].
  rewrite take_bytes_put. cbn [mbind option_bind]. rewrite take_bytes_put. cbn [mbind option_bind].
  rewrite take_list_put by apply take_bytes_put. cbn [mbind option_bind].
  rewrite take_list_put by apply take_rx_put. cbn [mbind option_bind].
  rewrite take_f32_put. cbn [mbind option_bind]. rewrite take_f32_put. cbn [mbind option_bind].
  by rewrite <-(app_nil_r (put_f32 fe)), take_f32_put.
Defined.

(** ** The transport *)
#[local] Existing Instance plain_transport.
Lemma transport_roundtrip_witness :
  ∃ tr1 out tr1', send_many [[1; 2]; [3]] transport_new = (tr1, Ok out) ∧
    recv_many 2 transport_new (out ++ [9]) = (tr1', [9], Ok [[1; 2]; [3]]) ∧
    t_recv_nonce tr1' = t_send_nonce tr1 ∧ t_read_buf tr1' = [].
Proof.
  refine (transport_roundtrip [[1; 2]; [3]] transport_new transport_new [9] _ eq_refl eq_refl).
  constructor; [split; [reflexivity|discriminate]|]. constructor; [split; [reflexivity|discriminate]|constructor].
Defined.

(** ** A payment: the account of [wallet0] pays 5 *)
Definition pay_engine : PrimusEngine :=
  MkEngine (storage E0) state0 (chamber E0) 12 (public_key_bytes wallet0) false 0 (f32_of_Z 1).
Definition pay_core : CoreHandleImpl :=
  MkCore pay_engine (mempool_new (λ _, MkSector ∅ ∅)) 0 (Some []) ∅.
Definition pay_node : Network CoreHandleImpl := MkNetwork 9000 pay_core (dht_new (peer 1)) true ∅ 0.
Definition pay_link : Link CoreHandleImpl := MkLink pay_node [] true.
Definition no_text {A} (a : A) : bytes := [].
Definition clock (i : nat) : Z := 1735689700.

Definition pay_tx : Transaction :=
  match build (clock 1) (payment wallet0 (toy_key 2) 5 account0) with Ok t => t | Err _ => no_tx end.
Lemma pay_tx_eq : build (clock 1) (payment wallet0 (toy_key 2) 5 account0) = Ok pay_tx.
Proof. reflexivity. Qed.
Lemma pay_fits : submission_fits no_text (to_bytes pay_tx).
Proof. split_and!; [..|intros e]; vm_compute; discriminate. Qed.
Definition is_queued (r : result (SectoralMempool * bool) MempoolError) : bool :=
  match r with Ok (_, b) => b | Err _ => false end.
Lemma pay_pushed : is_queued (push (unix_secs ck0) (mempool pay_core) (to_signed_reaction pay_tx)) = true.
Proof. vm_compute. reflexivity. Qed.

Lemma payment_reaches_mempool_witness :
  (send_tx (S := CoreHandleImpl) (CH := core_handle ck0 no_text) (λ _, []) (shield_filter no_text) [1] in_time clock 0
     wallet0 (toy_key 2) 5 pay_link).2 = Sent (take 4 (blake3 (to_bytes pay_tx))).
Proof.
  destruct (payment_reaches_mempool (λ _, []) [1] clock ck0 no_text no_text [1; 2] 0 0 wallet0 (toy_key 2) (toy_key 2) 5
    account0 pay_link) as (tx & Hb & H).
  - split; reflexivity.
  - intros e. vm_compute. reflexivity.
  - exact wallet0_eq.
  - vm_compute. reflexivity.
  - split; vm_compute; discriminate.
  - vm_compute. reflexivity.
  - reflexivity.
  - vm_compute. discriminate.
  - vm_compute. discriminate.
  - vm_compute. discriminate.
  - intros tx Hb. change (0 + 1)%nat with 1%nat in Hb. rewrite pay_tx_eq in Hb. injection Hb as <-. exact pay_fits.
  - change (0 + 1)%nat with 1%nat in Hb. rewrite pay_tx_eq in Hb. injection Hb as <-. cbv zeta in H.
    destruct (send_tx _ _ _ _ _ _ _ _ _ _) as [l' outcome]. destruct H as (_ & _ & _ & _ & Hq & _).
    pose proof pay_pushed as Hp. destruct (push _ _ _) as [[mp b]|e] eqn:E; [|discriminate Hp].
    refine (proj2 (proj2 (Hq _ mp b eq_refl))). left. reflexivity.
Defined.
