(* ===== verification/ConnectionExamples.v ===== *)
(** Two nodes with toy keys and the plain run of the pattern, on which the theorems on the
    connections are applied. *)
From S2P Require Import Prelude Floats Types Toy Framing Dht DhtFacts Gossip Noise Crypto Handshake Server Kademlia.
From S2P Require Import KadRpc Connection NetExamples ClientExamples.
Open Scope Z_scope.

#[local] Existing Instance checksum_hashes.
#[local] Existing Instance toy_mldsa.
#[local] Existing Instance toy_length_codec.

(** Message [k] is its overhead of zeros and the payload. *)
Definition overhead (k : nat) : nat := match k with 0 => 32 | 1 => 96 | _ => 64 end%nat.
#[local] Instance plain_handshake : NoiseHandshake.
Proof.
  refine {| HsState := nat; Transport := unit;
            build_initiator _ _ := 0%nat; build_responder _ _ := 0%nat;
            hs_write k p := Some (S k, replicate (overhead k) 0 ++ p);
            hs_read k m := Some (S k, drop (overhead k) m);
            into_transport _ := Some tt;
            hs_turn k := match k with 0 => Some true | 1 => Some false | 2 => Some true | _ => None end%nat;
            transport_write _ _ b := Some b; transport_read _ _ b := Some b |}.
  intros si ei sr er p2 p3 _ _.
  exists 1%nat, (replicate 32 0 ++ []), 1%nat, 2%nat, (replicate 96 0 ++ p2), 2%nat, 3%nat, (replicate 64 0 ++ p3), 3%nat, tt, tt.
  unfold len. rewrite !length_app, !length_replicate. split_and!; try reflexivity; try done; try (by eexists).
  - rewrite Nat2Z.inj_add. lia.
  - rewrite Nat2Z.inj_add. lia.
Defined.

Definition put_record (nr : PrimusNR) : bytes :=
  [addr_ip nr; addr_port nr; nr_timestamp nr] ++ put_bytes (nr_public_key nr) ++ put_bytes (nr_signature nr).
Definition take_record (b : bytes) : option (PrimusNR * bytes) :=
  match b with
  | ip :: port :: ts :: b =>
      '(pk, b) ← take_bytes b; '(sig, b) ← take_bytes b; Some (MkNR pk ip port sig ts, b)
  | _ => None
  end.
Lemma take_record_put nr r : take_record (put_record nr ++ r) = Some (nr, r).
Proof.
  destruct nr as [pk ip port sig ts]. unfold put_record, take_record.
  cbn [nr_public_key addr_ip addr_port nr_signature nr_timestamp app]. rewrite <-!app_assoc.
  rewrite take_bytes_put. cbn [mbind option_bind]. by rewrite take_bytes_put.
Qed.
#[local] Instance toy_payloads : HandshakeCodec.
Proof.
  refine {| ser_payload pl := put_record (hp_nr pl) ++ ephemeral_sig pl;
            de_payload b := '(nr, es) ← take_record b; Some (MkPayload nr es) |}.
  intros [nr es]. cbn [hp_nr ephemeral_sig]. by rewrite take_record_put.
Defined.
#[local] Instance toy_kademlia : KademliaCodec.
Proof.
  refine {| ser_kad m := match m with
                         | FindNodeRequest target => 1 :: target
                         | FindNodeResponse nodes => 2 :: put_list put_record nodes
                         end;
            de_kad b := match b with
                        | 1 :: target => Some (FindNodeRequest target)
                        | 2 :: b => '(nodes, _) ← take_list take_record b; Some (FindNodeResponse nodes)
                        | _ => None
                        end |}.
  intros [target|nodes]; [done|]. cbn -[put_list].
  by rewrite <-(app_nil_r (put_list put_record nodes)), take_list_put by apply take_record_put.
Defined.

(** ** Two honest nodes *)
Definition keys (n : Z) : bytes * bytes := key_gen_internal [n].
Definition node (n : Z) : Party :=
  MkParty [n] [n] (MkNR (keys n).1 0 9000 (mldsa_sign (keys n).2 []) 0) (keys n).2.

Lemma node_honest n : honest (node n).
Proof.
  exists [n]. split; [reflexivity|]. split; [reflexivity|].
  unfold nr_verify, node. cbn [local_nr nr_public_key nr_signature].
  unfold keys. rewrite len_verifying_key, len_mldsa_sign, !Z.eqb_refl.
  apply bool_decide_eq_true_2. cbn [fst snd key_gen_internal toy_mldsa mldsa_sign].
  rewrite take_pad by (unfold PKN, SKN, PK_BYTES, SK_BYTES; lia).
  apply take_pad. unfold PKN, SIGN, PK_BYTES, SIG_BYTES. lia.
Qed.
Lemma node_payload_fits n : payload_fits (node n).
Proof.
  intros e. unfold own_payload, node. cbn [ser_payload toy_payloads local_nr ml_dsa_key hp_nr ephemeral_sig].
  unfold put_record, put_bytes. cbn [nr_public_key addr_ip addr_port nr_signature nr_timestamp app]. unfold keys.
  pose proof (len_verifying_key [n]) as H1. pose proof (len_mldsa_sign (key_gen_internal [n]).2 []) as H2.
  pose proof (len_mldsa_sign (key_gen_internal [n]).2 e) as H3. unfold len in *.
  cbn [length]. rewrite length_app. cbn [length]. rewrite length_app. cbn [length].
  unfold PK_BYTES, SIG_BYTES, MAX_FRAME_SIZE in *. lia.
Qed.

(** ** A server that collects the data of reactions *)
#[local] Instance data_decoder : MessageDecoder :=
  {| de_msg b := match b with 7 :: data => Some (NewReaction data 0) | _ => None end |}.
Definition collect (data : bytes) (got : list bytes) : list bytes * bool := (got ++ [data], true).
Definition table : PrimusDHT := MkDht known_table [].
Definition empty_server : Server (list bytes) := MkServer ∅ 0 [] [].

(** The messages arrive in one piece; no stream follows. *)
Lemma honest_session_witness :
  ∃ hi ei f1 f2 f3 sv' session,
    initiator_start (node 1) = Ok (hi, ei, f1) ∧ initiator_finish (node 1) hi ei [Data f2] = ([], Ok (tt, f3)) ∧
    handle_connection collect false (node 2) table [10] [Data f1; Data f3] [] empty_server = (sv', [f2]) ∧
    sessions sv' !! [10] = Some session ∧ recv_nonce session = 0.
Proof.
  destruct (honest_session collect (node 1) (node 2) table [10] false empty_server
    (node_honest 1) (node_honest 2) (node_payload_fits 1) (node_payload_fits 2))
    as (hi & ei & m1 & m2 & [] & m3 & session & S1 & S2 & S3 & N & _). cbv zeta in *.
  pose proof (S3 [] _ [] _ [] [] (arrives_at_once m1) (arrives_at_once m3)) as H. cbn [dispatch_loop app] in H.
  exists hi, ei, (hs_frame m1), (hs_frame m2), (hs_frame m3), (register_session [10] session empty_server), session.
  split; [exact S1|]. split; [exact (S2 [] _ [] (arrives_at_once m2))|]. split; [exact H|].
  split; [reflexivity|exact N].
Defined.

(** A stream whose padding is the type of gossip, with a payload of which the handler skips
    six bytes; node 2 has accepted node 1. *)
Definition crafted : bytes := [1; 0] ++ to_be 4 8 ++ [1; 0] ++ [0; 0; 0; 0; 0; 0] ++ [7; 5].
Lemma network_input_authenticated_witness :
  ∃ log p inner t who, let sv := server_run collect log empty_server in
    Accepted false p [10] inner ∈ log ∧ proved_identity p inner t who ∧
    srv_core sv = [] ∧ srv_core (server_event collect (GossipStream crafted [10]) sv) = [[5]].
Proof.
  assert (Hacc : ∃ inner out ns, handle_inbound (node 2) false inner = (out, Ok (tt, ns))).
  { destruct (handshake_completes (node 1) (node 2) (node_honest 1) (node_honest 2) (node_payload_fits 1) (node_payload_fits 2))
      as (hi & ei & m1 & hr & er & m2 & ti & m3 & [] & S1 & S2 & S3 & S4 & _). cbv zeta in *.
    exists ([Data (hs_frame m1)] ++ [Data (hs_frame m3)] ++ []), (hs_frame m2), (noise_new false). unfold handle_inbound.
    by rewrite (S2 [] _ _ (arrives_at_once m1)), (S4 [] _ _ (arrives_at_once m3)). }
  destruct Hacc as (inner & out & ns & Hi).
  set (log := [Accepted false (node 2) [10] inner]).
  assert (Hsv : server_run collect log empty_server = open_session [10] (tt : @Transport plain_handshake) empty_server).
  { unfold log, server_run. cbn [foldl server_event]. by rewrite Hi. }
  assert (Hcore : srv_core (server_event collect (GossipStream crafted [10])
            (open_session [10] (tt : @Transport plain_handshake) empty_server)) = [[5]]) by (vm_compute; reflexivity).
  destruct (network_input_authenticated collect empty_server log (GossipStream crafted [10]))
    as (recv & a & _ & _ & _ & _ & _ & web & p & inner' & t & who & E & Hin & Hw & _).
  - reflexivity.
  - rewrite Hsv, Hcore. discriminate.
  - injection E as _ <-. pose proof Hin as Hin'. unfold log in Hin'.
    apply list_elem_of_singleton in Hin'. injection Hin' as -> -> ->.
    exists log, (node 2), inner, t, who. cbv zeta. rewrite Hsv. split; [exact Hin|]. split; [exact Hw|]. split; [reflexivity|exact Hcore].
Defined.
