(* ===== verification/PeersExamples.v ===== *)
(** The Architect's reaction goes from one node to another, and a node floods it. *)
From S2P Require Import Prelude Floats Types Mpt State Physics Pvm Crystal Chamber Storage Engine Processor Mempool Toy.
From S2P Require Import MptExamples ChainExamples Framing Shield Dht Gossip Ingress IngressFacts Server Noise Crypto Sdk Client.
From S2P Require Import SdkFacts Peers NetExamples ClientExamples System.
Open Scope Z_scope.

#[local] Existing Instance checksum_hashes.
#[local] Existing Instance toy_codec.
#[local] Existing Instance toy_atom_codec.
#[local] Existing Instance toy_reaction_codec.
#[local] Existing Instance toy_rkyv.
#[local] Existing Instance toy_envelopes.
#[local] Existing Instance toy_crystals.
#[local] Existing Instance toy_mldsa.
#[local] Existing Instance wire_messages.
#[local] Existing Instance wire_decoder.
#[local] Existing Instance wire_client.

Definition bytes0 : bytes := rkyv_to_bytes from_arch.
Definition node_of (peers : list bytes) : Network CoreHandleImpl :=
  MkNetwork 9000 core0 (MkDht (table_new own_id) peers) true ∅ 0.
Definition all_up : World := MkWorld (λ _, true) (λ _, true).
Definition no_error {A} (a : A) : bytes := [].
Definition no_filter (b : bytes) : result SignedReaction bytes := Err [].

Lemma arch_taken : ∃ mp, push (unix_secs ck0) (mempool core0) from_arch = Ok (mp, true).
Proof.
  assert (H : match push (unix_secs ck0) (mempool core0) from_arch with Ok (_, b) => b | Err _ => false end = true)
    by (vm_compute; reflexivity).
  destruct (push _ _ _) as [[mp b]|e]; [|discriminate H]. subst b. by exists mp.
Qed.

Lemma reaction_spreads_witness :
  ∃ mp, push (unix_secs ck0) (mempool core0) from_arch = Ok (mp, true) ∧
    ([11], ser_msg (NewReaction bytes0 8)) ∈ (broadcast_message (λ _, []) all_up (NewReaction bytes0 8) (node_of [[11]]) ∅).2 ∧
    mempool (net_core (receive (λ _, []) no_filter elements no_error ck0 [10] (ser_msg (NewReaction bytes0 8)) None (node_of []))) = mp.
Proof.
  destruct arch_taken as [mp Hp]. exists mp. split; [exact Hp|].
  assert (Hk : known_sender core0 from_arch) by (left; reflexivity).
  pose proof (reaction_spreads (λ _, []) no_filter elements no_error ck0 ck0 bytes0 from_arch (node_of [[11]]) mp all_up ∅ [11]
    (node_of []) mp true [10] None from_arch_small (check_to_bytes _) Hk Hp) as H.
  cbv zeta in H. destruct (core_push_bytes ck0 bytes0 (net_core (node_of [[11]]))) as [s r].
  destruct H as (_ & _ & _ & Hsent & Hmp & _).
  - apply (bool_decide_unpack _). vm_compute. exact I.
  - reflexivity.
  - reflexivity.
  - apply Z.leb_le. vm_compute. reflexivity.
  - exact (de_msg_cli (CNewReaction bytes0 8) (NewReaction bytes0 8) eq_refl).
  - exact Hk.
  - exact Hp.
  - split; [exact Hsent|exact Hmp].
Defined.

(** ** The flood at one node *)
(** A node with two peers is sent the reaction by one of them: it pools it, broadcasts it to
    both and relays it to the other, and then pushes it again, in vain. *)
#[local] Existing Instance flat_ln.
#[local] Existing Instance toy_hex.
Definition flood0 : Network CoreHandleImpl := node_of [[10]; [11]].
Definition flood_task : Async (Network CoreHandleImpl) (list Gossip.Task) :=
  on_task (CH := core_handle ck0 no_error) elements (λ _, []) [10] (TReaction bytes0 (NewReaction bytes0 8)).
Definition flood1 : Network CoreHandleImpl := (exec None [] flood_task flood0).1.
Definition flood_out : list Gossip.Task := [TPush bytes0; TSend [11] (NewReaction bytes0 7)].

#[local] Instance calm_dec (n : Network CoreHandleImpl) : Decision (calm (λ _, []) 2 n) := _.
Lemma bytes0_parsed : parsed bytes0 from_arch.
Proof. exists (archive from_arch). split; [apply check_to_bytes|apply deserialize_archive]. Qed.
Lemma flood_steady : steady (calm (λ _, []) 2) (lets_go from_arch) flood_task flood0 = true.
Proof. vm_compute. reflexivity. Qed.
Lemma flood_exec : exec None [] flood_task flood0 = (flood1, Some (flood_out, None, [])).
Proof.
  assert (H : (exec None [] flood_task flood0).2 = Some (flood_out, None, [])) by (vm_compute; reflexivity).
  unfold flood1. destruct (exec None [] flood_task flood0) as [n r]. cbn [snd] in H. by subst r.
Qed.
Lemma flood_run1 :
  flood_run elements (λ _, []) no_filter no_error 8 from_arch 2 0 (boot flood0) (MkRunning flood1 [] flood_out).
Proof.
  refine (counted_call _ _ _ _ false flood_task flood0 flood1 [] flood_out [] (boot flood0) _ _ flood_exec flood_steady _).
  - intros n. unfold lets_go, let_go. by destruct (pooled _ _).
  - apply start_task; [split; vm_compute; discriminate|]. exists 8. split; [reflexivity|lia].
  - apply counted_refl.
Qed.
Lemma flood_frames : frames bytes0 2 (MkRunning flood1 [] flood_out) = 3%nat.
Proof. vm_compute. reflexivity. Qed.
Definition flooded : nat * Network CoreHandleImpl * Running (Network CoreHandleImpl) :=
  (0%nat, flood0, MkRunning flood1 [] flood_out).
Lemma flood_started :
  Forall (λ '(k, n0, w), broadcasts bytes0 (net_core n0) = 0%nat ∧
    flood_run elements (λ _, []) no_filter no_error 8 from_arch 2 k (boot n0) w) [flooded].
Proof. constructor; [|constructor]. split; [reflexivity|exact flood_run1]. Qed.
(** Two frames for the broadcast and one for the relay. *)
Lemma flood_terminates_witness :
  frames bytes0 2 (MkRunning flood1 [] flood_out) = 3%nat ∧
  (sum_list_with (λ '(_, _, w), frames bytes0 2 w) [flooded] ≤
   sum_list_with (λ '(k, _, _), 2 * (1 + k + Z.to_nat 8)) [flooded])%nat ∧
  ∀ a ttl, TSend a (NewReaction bytes0 ttl) ∈ flood_out → 1 ≤ ttl < 8.
Proof.
  destruct (flood_terminates elements (λ _, []) no_filter no_error 8 bytes0 from_arch 2 bytes0_parsed [flooded] flood_started)
    as [Hle Hdec].
  split; [exact flood_frames|]. split; [exact Hle|]. exact (Forall_inv Hdec).
Defined.
