(* ===== verification/NodeExamples.v ===== *)
(** A node with a small pool: a round of mining, and a shutdown and restart after its first
    block. *)
From S2P Require Import Prelude Floats Types Mpt MptTree MptFacts MptExamples State Physics Pvm Crystal Chamber.
From S2P Require Import Storage Engine Processor ProcessorFacts Mining Mempool Toy MempoolExamples ChainExamples.
From S2P Require Import Framing Dht Gossip GossipFacts Ingress IngressFacts Crypto Sdk NetExamples ClientExamples Node NodeFacts System.
Open Scope Z_scope.

#[local] Existing Instance checksum_hashes.
#[local] Existing Instance toy_codec.
#[local] Existing Instance toy_atom_codec.
#[local] Existing Instance toy_reaction_codec.
#[local] Existing Instance own_key_crypto.
#[local] Existing Instance flat_ln.
#[local] Existing Instance toy_crystals.

(** ** Mining *)
(** Three reactions of sector 1, which is the Architect's. *)
Definition node0 : CoreHandleImpl := MkCore E0 pool 0 (Some []) ∅.
Definition round1 : CoreHandleImpl := mining_step [1] 1735689700 [] node0.
Lemma mining_round_witness :
  ∃ rxs r, residents (sectors pool) ≡ₚ rxs ++ residents (sectors (mempool round1)) ∧
    mine_block 1735689700 [] rxs E0 = (engine round1, r) ∧ length rxs = 3%nat.
Proof.
  pose proof (mining_round [1] 1735689700 [] node0 pool_ok) as H. cbv zeta in H.
  assert (Hs : is_syncing (engine node0) = false) by (vm_compute; reflexivity). rewrite Hs in H.
  destruct H as (rxs & r & Hp & _ & _ & _ & Hm & _). exists rxs, r. split; [exact Hp|]. split; [exact Hm|].
  apply Permutation_length in Hp. rewrite length_app in Hp.
  assert (H3 : length (residents (sectors pool)) = 3%nat) by (vm_compute; reflexivity).
  assert (H0 : length (residents (sectors (mempool round1))) = 0%nat) by (vm_compute; reflexivity).
  change (mempool node0) with pool in Hp. fold round1 in Hp. rewrite H0 in Hp. rewrite H3 in Hp. lia.
Defined.

(** ** Shutdown *)
Lemma E1_atoms : all_atoms (atoms (eng_state E1)) = cs1.
Proof. vm_compute. reflexivity. Qed.
Lemma E1_writes : writes_ok chain_G chain_K tr1 E1 (all_atoms (atoms (eng_state E1))).
Proof.
  rewrite E1_atoms. split_and!.
  - apply cs1_writes.
  - split; [|exact I]. apply nodes_in_compute. vm_compute. reflexivity.
  - vm_compute. discriminate.
Qed.
Lemma shutdown_restart_witness :
  ∃ e' e'', shutdown E1 = (e', Ok (current_root (storage E1))) ∧
    processor_new genesis_toml (db (storage e')) (store (mpt (storage e'))) (gc_log (storage e')) arch = (e'', Ok tt) ∧
    eng_state e'' = eng_state e'.
Proof.
  destruct (shutdown_restart chain_G chain_G_inj chain_K sha3_bytes chain_K_inj tr1 E1 genesis_toml E1_ok)
    as (e' & t' & Hs & _ & _ & _ & _ & e'' & Hp & _ & Hst).
  - intros H. apply (f_equal (lookup arch)) in H. vm_compute in H. discriminate.
  - intros pk ->. discriminate.
  - exact E1_writes.
  - exists e', e''. split; [exact Hs|]. split; [exact Hp|exact Hst].
Defined.

Lemma proof_served_witness :
  ∃ pr, core_on_get_proof arch (core_new E1 (mempool node0)) = Ok pr ∧ root pr = current_root (storage E1).
Proof.
  destruct (proof_served chain_G chain_G_inj chain_K sha3_bytes chain_K_inj tr1 (core_new E1 (mempool node0)) arch E1_ok eq_refl)
    as (pr & Hp & Hr & _). exists pr. split; [exact Hp|exact Hr].
Defined.

(** ** A run *)
(** A peer asks for the peers, then the node mines, then a peer sends what is no reaction. *)
#[local] Existing Instance toy_rkyv.
#[local] Existing Instance toy_envelopes.
#[local] Existing Instance toy_mldsa.
#[local] Existing Instance toy_bip39.
#[local] Existing Instance toy_hex.
#[local] Existing Instance wire_messages.
Definition run_clocks : Clocks := MkClocks 0 0 7.
Definition net_run0 : Gossip.Network CoreHandleImpl := MkNetwork 9000 node0 (dht_new (peer 1)) true ∅ 0.
Definition net_run1 : Gossip.Network CoreHandleImpl := Gossip.set_core round1 net_run0.
Definition net_run2 : Gossip.Network CoreHandleImpl := Gossip.set_core (core_push_bytes run_clocks [9] round1).1 net_run1.
Abbreviation toy_step := (system_step (λ _, []) (λ _, []) (λ _, Err []) (λ _, []) 255).
Definition no_error (e : IngressError) : bytes := [].

Lemma run_clocks_ok : clocks_ok run_clocks.
Proof. split; vm_compute; discriminate. Qed.
Lemma get_peers_call n ts out :
  ts ≫= holds = [] → rtc toy_step (MkRunning n ts out) (MkRunning n ts out).
Proof.
  intros Hh. rewrite <-(app_nil_r out) at 2. 
  apply (free_call _ _ _ _ _ _ _ n n [] [] ts out (start_message _ _ _ _ _ run_clocks [5] GetPeers run_clocks_ok)); [reflexivity|exact Hh].
Qed.
Lemma push_call b n ts out :
  ts ≫= holds = [] →
  rtc toy_step (MkRunning n ts out) (MkRunning (Gossip.set_core (core_push_bytes run_clocks b (net_core n)).1 n) ts out).
Proof.
  intros Hh. rewrite <-(app_nil_r out) at 2. 
  apply (free_call _ _ _ _ _ _ _ n _ [] [] ts out (start_task _ _ _ _ _ run_clocks [5] (TPush b) run_clocks_ok I)); [|exact Hh].
  cbn [on_task]. rewrite exec_bind, push_bytes_exec. by destruct (core_push_bytes run_clocks b (net_core n)).
Qed.
Lemma mine_call pk now n ts out :
  ts ≫= holds = [] →
  rtc toy_step (MkRunning n ts out) (MkRunning (Gossip.set_core (mining_loop_step false pk now [] (net_core n)) n) ts out).
Proof. intros Hh. eapply free_program; [apply (prog_mine false)|apply mining_exec|exact Hh]. Qed.

Lemma toy_run : rtc toy_step (boot net_run0) (MkRunning net_run2 [] []).
Proof.
  etrans; [by apply get_peers_call|]. etrans; [by apply (mine_call [1] 1735689700)|].
  exact (push_call [9] net_run1 [] [] eq_refl).
Qed.
Lemma node_run_sound_witness :
  mempool_ok (mempool (net_core net_run2)) ∧
  rtc (ledger_step (eng_architect_pk E0)) (ledger E0) (ledger (engine (net_core net_run2))).
Proof.
  destruct (node_run_sound (λ _, []) (λ _, []) (λ _, Err []) (λ _, []) 255 net_run0 _ toy_run pool_ok) as (Hm & _ & Ha).
  exact (conj Hm Ha).
Defined.

(** A peer asks for the peers, and another too, whose session is still to get the lock; then
    one claims a height of a hundred.  Afterwards the node is told that its synchronisation
    has ended, and is given something to push; the session gets its lock; and the node would
    mine. *)
Definition asking : Async (Gossip.Network CoreHandleImpl) (list Gossip.Task) :=
  snd <$> on_message (CH := core_handle run_clocks no_error) (λ _, []) (λ _, Err []) [6] GetPeers.
Definition waiting : Thread (Gossip.Network CoreHandleImpl) := MkThread [] false asking.
Definition net_busy : Running (Gossip.Network CoreHandleImpl) := MkRunning net_run0 [waiting] [].
Definition lie : PrimusMessage := handshake [] [] 100 (f32_of_Z 0) 9000.
Definition net_lied : Running (Gossip.Network CoreHandleImpl) :=
  after_message (λ _, []) (λ _, Err []) no_error run_clocks [5] lie net_busy.
Definition told_peers : Async (Gossip.Network CoreHandleImpl) (list Gossip.Task) :=
  match asking with Acquire _ p => p | p => p end.
Definition net_told : Running (Gossip.Network CoreHandleImpl) :=
  MkRunning (Gossip.set_core (core_push_bytes run_clocks [9] (net_core (rn_state net_lied))).1 (rn_state net_lied))
    [MkThread [LPeers] false told_peers] [].

Lemma busy_run : rtc toy_step (boot net_run0) net_busy.
Proof.
  etrans; [by apply get_peers_call|]. apply rtc_once.
  exact (sched_start _ _ false asking net_run0 [] [] (start_message _ _ _ _ _ run_clocks [6] GetPeers run_clocks_ok)).
Qed.
Lemma lied_syncing : is_syncing (engine (net_core (rn_state net_lied))) = true.
Proof. vm_compute. reflexivity. Qed.
Lemma lied_threads : net_lied = MkRunning (rn_state net_lied) [waiting] [].
Proof. reflexivity. Qed.
Lemma told_run : rtc toy_step net_lied net_told.
Proof.
  rewrite lied_threads. etrans.
  { apply (free_call _ _ _ _ _ _ _ (rn_state net_lied) (rn_state net_lied) [] [] [waiting] []
      (start_message _ _ _ _ _ run_clocks [5] (MSync (InventoryResponse [])) run_clocks_ok)); [|reflexivity].
    cbn. change (core_is_syncing (net_core (rn_state net_lied))) with (is_syncing (engine (net_core (rn_state net_lied)))).
    by rewrite lied_syncing. }
  etrans; [by apply (push_call [9])|]. apply rtc_once.
  apply (sched_acquire _ _ [] false LPeers told_peers _ [] [] []). apply not_elem_of_nil.
Qed.
Lemma handshake_stops_mining_witness :
  is_syncing (engine (net_core net_run0)) = false ∧
  rtc toy_step net_busy net_lied ∧
  mining_loop_step false [1] 1735689700 [] (net_core (rn_state net_told)) = net_core (rn_state net_told).
Proof.
  split; [vm_compute; reflexivity|].
  destruct (handshake_stops_mining (λ _, []) (λ _, []) (λ _, Err []) no_error 255 net_run0 net_busy run_clocks [5] [] [] 100
    (f32_of_Z 0) 9000 busy_run) as [Hrun Hafter].
  - constructor; [|constructor]. intros [H|[H|H]]; discriminate H.
  - apply not_elem_of_nil.
  - apply not_elem_of_nil.
  - exact run_clocks_ok.
  - vm_compute. reflexivity.
  - vm_compute. reflexivity.
  - split; [exact Hrun|]. apply (proj2 (Hafter net_told told_run)).
Defined.
