(* ===== verification/ReplicaExamples.v ===== *)
(** Two nodes with chambers of different heat: the agreement theorem applied, and a Generic
    reaction on which they part; and a node that learns of the first block from another. *)
From S2P Require Import Prelude Floats Types Mpt MptTree MptFacts MptExamples State Physics Pvm Crystal Chamber Storage.
From S2P Require Import Engine Processor ProcessorFacts Mempool Framing Shield Dht Gossip Ingress Crypto Sdk Node NodeFacts.
From S2P Require Import Replica Sync Toy ChainExamples NetExamples ClientExamples NodeExamples.
Open Scope Z_scope.

#[local] Existing Instance checksum_hashes.
#[local] Existing Instance toy_codec.
#[local] Existing Instance toy_atom_codec.
#[local] Existing Instance own_key_crypto.
#[local] Existing Instance toy_reaction_codec.
#[local] Existing Instance toy_rkyv.
#[local] Existing Instance toy_envelopes.
#[local] Existing Instance toy_crystals.
#[local] Existing Instance wire_messages.

Definition heated (e : PrimusEngine) : PrimusEngine := set_chamber (set_thermo (f32_of_Z 300) (f32_of_Z 2) (chamber e)) e.

Lemma heated_replicas e : replicas e (heated e).
Proof. by split. Qed.

(** The node after genesis, and the same node with a hot chamber. *)
Definition hot0 : PrimusEngine := heated E0.
Lemma hot0_in_step : in_step chain_G chain_K tr0 E0 hot0.
Proof. split; [exact E0_ok| |apply heated_replicas]. destruct E0_ok as [H1 H2 H3 H4]. by split. Qed.

(** The first block, with a nonce that solves it once its root is filled in, as the first
    node has stored it; then an empty block. *)
Definition c1_open : Crystal := set_cr_nonce 145 c1.
Definition c1_stored : Crystal := set_state_root (current_root (storage E1)) c1_open.
Definition R1 : PrimusEngine := first (finalize_solidification E0 c1_open).
Definition c2_solved : Crystal :=
  MkCrystal 2 (calculate_density c1_stored) 1735689620 5 [] [] (f32_of_Z 0) zero32 (f32_of_Z 0) (f32_of_Z 0).
Definition R2 : PrimusEngine := first (apply_chain R1 [c2_solved]).

Lemma R1_stored : finalize_solidification E0 c1_open = (R1, Ok c1_stored).
Proof. vm_compute. reflexivity. Qed.
Lemma R2_applied : apply_chain R1 [c2_solved] = (R2, Ok tt).
Proof. vm_compute. reflexivity. Qed.
Lemma c1_open_executes : ∃ ce, engine_execute (at_height E0 c1_open) (reactions_data c1_open) = Ok (cs1, ce).
Proof. eexists. vm_compute. reflexivity. Qed.
Lemma c2_executes : ∃ ce, engine_execute (at_height R1 c2_solved) (reactions_data c2_solved) = Ok (cs_new, ce).
Proof. eexists. vm_compute. reflexivity. Qed.

Lemma two_blocks_write : run_writes chain_G chain_K tr0 E0 [c1_open; c2_solved].
Proof.
  intros w h e c Hx Hf. destruct c1_open_executes as [h1 Hx1]. rewrite Hx1 in Hx. injection Hx as <- _.
  rewrite R1_stored in Hf. apply pair_eq in Hf as [<- _]. split; [exact cs1_writes|].
  intros w2 hh e2 c2 Hx2 _. destruct c2_executes as [h2 Hx2']. rewrite Hx2' in Hx2. injection Hx2 as <- _.
  split; [|exact I]. split_and!; [constructor|exact I|vm_compute; discriminate].
Qed.


(** ** A tax that depends on the chamber *)
Definition pay5 : SignedReaction := MkReaction (genesis_atom genesis_base arch) (new_receiver [5]) [1] (f32_of_Z 10) 0 arch (Transfer 100000).
Definition ct : Crystal :=
  MkCrystal 1 (calculate_density genesis) 1735689610 0 [[1]] [pay5] (f32_of_Z 0) zero32 (f32_of_Z 0) (f32_of_Z 0).
Definition cool1 : PrimusEngine := first (finalize_solidification E0 ct).
Definition hot1 : PrimusEngine := heated cool1.
Definition gen5 : SignedReaction := MkReaction (new_receiver [5]) (new_receiver [8]) [1] (f32_of_Z 1000) 0 [5] Generic.
Definition cg : Crystal :=
  MkCrystal 2 zero32 1735689620 0 [[1]] [gen5] (f32_of_Z 0) zero32 (f32_of_Z 0) (f32_of_Z 0).
Definition cg_stored : Crystal := set_state_root (current_root (storage (first (finalize_solidification cool1 cg)))) cg.

(** Two nodes that differ in the heat of their chambers only, which mining alone makes
    differ, compute different state roots for a crystal with a Generic reaction: what the
    first has solidified, the second refuses. *)
Theorem generic_splits_replicas :
  replicas cool1 hot1 ∧ (finalize_solidification cool1 cg).2 = Ok cg_stored ∧
  (finalize_solidification hot1 cg_stored).2 = Err (StateRootMismatch 2).
Proof. split; [apply heated_replicas|]. split; vm_compute; reflexivity. Qed.

(** ** A node that is behind *)
(** The node behind, and the node that has taken the first block. *)
Definition behind : PrimusEngine := set_chamber (inject_reaction reward (chamber E0)) E0.
Definition ahead : PrimusEngine := first (process_network_crystal E0 c1_stored).
Definition net_of (e : PrimusEngine) : Gossip.Network CoreHandleImpl :=
  MkNetwork 9000 (core_new e (mempool node0)) (dht_new (peer 1)) true ∅ 0.

Lemma behind_settled : settled chain_G chain_K tr0 E0 behind.
Proof. split; [split; [exact E0_ok| |by split]|done..]. destruct E0_ok as [H1 H2 H3 H4]. by split. Qed.
Lemma ahead_extends : extends E0 [c1_stored] ahead.
Proof.
  econstructor; [vm_compute; reflexivity|vm_compute; reflexivity|vm_compute; reflexivity| |  |constructor].
  - vm_compute. discriminate.
  - vm_compute. reflexivity.
Qed.
Lemma c1_stored_executes : ∃ ce, engine_execute (at_height E0 c1_stored) (reactions_data c1_stored) = Ok (cs1, ce).
Proof. eexists. vm_compute. reflexivity. Qed.
Lemma ahead_writes : run_writes chain_G chain_K tr0 E0 [c1_stored].
Proof.
  intros w h e c Hx _. destruct c1_stored_executes as [h1 Hx1]. rewrite Hx1 in Hx. injection Hx as <- _.
  split; [exact cs1_writes|exact I].
Qed.

