(* ===== verification/CliExamples.v ===== *)
(** The command line against a small node: the Architect stops it, and a payment from an
    account it does not know. *)
From S2P Require Import Prelude Floats Types Mpt MptExamples State Physics Pvm Crystal Chamber Storage Engine Processor.
From S2P Require Import Toy ChainExamples Mempool Framing Dht Gossip Noise Shield Ingress Server Crypto Sdk SdkFacts.
From S2P Require Import Ipc IpcRun NetExamples Client ClientFacts ClientExamples Cli CliFacts.
Open Scope Z_scope.

#[local] Existing Instance checksum_hashes.
#[local] Existing Instance toy_codec.
#[local] Existing Instance toy_atom_codec.
#[local] Existing Instance toy_reaction_codec.
#[local] Existing Instance toy_rkyv.
#[local] Existing Instance toy_envelopes.
#[local] Existing Instance toy_crystals.
#[local] Existing Instance toy_length_codec.
#[local] Existing Instance toy_mldsa.
#[local] Existing Instance toy_bip39.
#[local] Existing Instance toy_hex.
#[local] Existing Instance toy_wallet_file.
#[local] Existing Instance wire_messages.
#[local] Existing Instance wire_decoder.
#[local] Existing Instance wire_client.

(** ** The socket's encoding *)
Definition put_request (r : IpcRequest) : bytes :=
  match r with
  | Status => [0]
  | GetChallenge => [1]
  | AdminShutdown sig => 2 :: sig
  | AdminConnectPeer a sig => 3 :: put_bytes a ++ sig
  | IpcGetProof a => 4 :: a
  end.
Definition take_request (b : bytes) : option IpcRequest :=
  match b with
  | [0] => Some Status
  | [1] => Some GetChallenge
  | 2 :: sig => Some (AdminShutdown sig)
  | 3 :: r => '(a, sig) ← take_bytes r; Some (AdminConnectPeer a sig)
  | 4 :: a => Some (IpcGetProof a)
  | _ => None
  end.
Definition put_response (r : IpcResponse) : bytes :=
  match r with
  | IpcOk => [0]
  | IpcErr e => 1 :: e
  | Challenge n => 2 :: n
  | StatusReport h p c d => [3; h; p; c; d]
  | IpcProof p => 4 :: put_proof p
  end.
Definition take_response (b : bytes) : option IpcResponse :=
  match b with
  | [0] => Some IpcOk
  | 1 :: e => Some (IpcErr e)
  | 2 :: n => Some (Challenge n)
  | [3; h; p; c; d] => Some (StatusReport h p c d)
  | 4 :: r => IpcProof ∘ fst <$> take_proof r
  | _ => None
  end.
#[local] Instance wire_ipc : IpcCodec.
Proof.
  refine {| ser_request := put_request; de_request := take_request; ser_response := put_response |}.
  intros [| |sig|a sig|a]; try done. cbn -[put_bytes take_bytes]. by rewrite take_bytes_put.
Defined.
#[local] Instance wire_ipc_client : IpcClientCodec.
Proof.
  refine {| de_response := take_response |}.
  intros [|e|n|h p c d|p]; try done. cbn -[put_proof take_proof]. by rewrite <-(app_nil_r (put_proof p)), take_proof_put.
Defined.

(** ** The Architect stops the node *)
Definition my_wallet : bytes := bytes_of_string "my.wallet".
Definition cli_world (architect : bytes) (n : Network CoreHandleImpl) : World :=
  MkWorld {[ my_wallet := save wallet0 ]} n (ipc_new architect [[4; 5; 6]]) 3 true.
Definition own_node : World := cli_world (public_key_bytes wallet0) pay_node.

Lemma admin_commands_witness :
  (cli_shutdown (λ _, []) (λ _, 0) no_text my_wallet own_node).2 = Ok ShutdownInitiated ∧
  running (cli_shutdown (λ _, []) (λ _, 0) no_text my_wallet own_node).1 = false.
Proof.
  destruct (admin_commands (λ _, []) (λ _, 0) no_text my_wallet [5] wallet0 own_node) as (Hs & _ & Ha).
  - reflexivity.
  - vm_compute. reflexivity.
  - split_and!; vm_compute; discriminate.
  - split_and!; vm_compute; discriminate.
  - rewrite Hs, Ha by reflexivity. split; reflexivity.
Defined.

(** ** A payment from nowhere *)
(** The node of another Architect, which knows no account. *)
Definition empty_state : StateTree := MkStateTree ∅ 3 metrics_default.
Definition strange_core : CoreHandleImpl :=
  MkCore (MkEngine (storage E0) empty_state (chamber E0) 12 (toy_key 9) false 0 (f32_of_Z 1))
    (mempool_new (λ _, MkSector ∅ ∅)) 0 (Some []) ∅.
Definition strange_node : World :=
  cli_world (toy_key 9) (MkNetwork 9000 strange_core (dht_new (peer 1)) true ∅ 0).
Definition poor_tx : Transaction :=
  match build (clock 1) (cli_builder wallet0 (toy_key 2) 5 (debug_state 5)) with Ok t => t | Err _ => no_tx end.
Lemma poor_tx_eq : build (clock 1) (cli_builder wallet0 (toy_key 2) 5 (debug_state 5)) = Ok poor_tx.
Proof. reflexivity. Qed.
Lemma poor_fits : submission_fits no_text (to_bytes poor_tx).
Proof. split_and!; [..|intros e]; vm_compute; discriminate. Qed.

Lemma payment_from_nowhere_witness :
  (send (λ _, []) (shield_filter no_text) [1] in_time clock ck0 no_text (toy_key 2) 5 my_wallet strange_node).2 =
  Ok (NodeResponse (take 4 (blake3 (to_bytes poor_tx)))).
Proof.
  destruct (payment_from_nowhere (λ _, []) [1] clock ck0 no_text no_text my_wallet (toy_key 2) 5 (toy_key 2) wallet0
    strange_node) as (tx & Hb & ->).
  - reflexivity.
  - vm_compute. reflexivity.
  - vm_compute. reflexivity.
  - vm_compute. reflexivity.
  - vm_compute. reflexivity.
  - intros H. apply (f_equal head) in H. vm_compute in H. discriminate H.
  - reflexivity.
  - vm_compute. discriminate.
  - intros e. vm_compute. reflexivity.
  - vm_compute. discriminate.
  - vm_compute. discriminate.
  - intros tx Hb. rewrite poor_tx_eq in Hb. injection Hb as <-. exact poor_fits.
  - rewrite poor_tx_eq in Hb. injection Hb as <-. reflexivity.
Defined.

(** ** Two connections to the socket *)
(** The first gets a challenge, then the second; then the first sends what the Architect
    signed. *)
#[local] Instance wire_response_inj : Inj (=) (=) ser_response.
Proof. intros a b H. apply (f_equal de_response) in H. rewrite !de_ser_response in H. by injection H. Qed.
Definition admin_input : bytes :=
  frame_of (ser_request GetChallenge) ++ frame_of (ser_request (AdminShutdown admin_sig)).
Definition socket_schedule : list ListenerEvent :=
  [Accepted admin_input; Accepted (frame_of (ser_request GetChallenge)); Turn net0 core0 1; Turn net0 core0 2].
Definition admin_pk : bytes := kp_pk (keypair_from_seed admin_seed).
Definition socket_start : IpcListener := listener_new (ipc_new admin_pk [[1; 2; 3]; [7; 7; 7]]).
Definition socket_now : IpcListener := (run_listener (λ _, []) socket_schedule socket_start).1.

Lemma ipc_run_isolated_witness :
  ∃ input sig nonce, connections socket_now !! 1 = Some input ∧ next_request input = Some (AdminShutdown sig) ∧
    latest 1 nonce (run_listener (λ _, []) socket_schedule socket_start).2 ∧ verify admin_pk nonce sig = true.
Proof.
  destruct (ipc_run_isolated (λ _, []) admin_pk [[1; 2; 3]; [7; 7; 7]] socket_schedule socket_now
    (run_listener (λ _, []) socket_schedule socket_start).2) as [H _].
  - vm_compute. discriminate.
  - apply surjective_pairing.
  - vm_compute. reflexivity.
  - apply (H net0 core0 1). vm_compute. reflexivity.
Defined.
