(* ===== verification/Setup.v ===== *)
(** The node's configuration (primus-core setup.rs): the first-run wizard, the file it
    writes, and how node and client read it back.

    The text of addresses is std's, a parameter: it is parsed as it is printed, and has no
    white space, quote or comma.  The operator's answers are the lines of the input; when
    they run out, each further one is empty. *)
From S2P Require Import Prelude Types Text.
Open Scope Z_scope.

Definition quote : Z := 34.
Definition comma : Z := 44.
Definition is_quote (c : Z) : bool := c =? quote.
(** Letters, digits and signs as they occur in a value. *)
Definition special (c : Z) : bool := is_space c || is_quote c || (c =? comma).
Definition plain (l : bytes) : Prop := avoids special l ∧ l ≠ [].

Class AddrText := {
  IpAddr : Type;
  SocketAddr : Type;
  ip_to_string : IpAddr → bytes;
  ip_parse : bytes → option IpAddr;
  sock_to_string : SocketAddr → bytes;
  sock_parse : bytes → option SocketAddr;
  ip_parse_to_string a : ip_parse (ip_to_string a) = Some a;
  sock_parse_to_string a : sock_parse (sock_to_string a) = Some a;
  sock_parse_empty : sock_parse [] = None;
  plain_ip a : plain (ip_to_string a);
  plain_sock a : plain (sock_to_string a);
}.

Section setup.
Context {AT : AddrText}.

Record NodeConfig := MkConfig {
  is_seed : bool;
  public_ip : option IpAddr;
  port : Z;
  seed_peers : list SocketAddr;
  tls_domain : option bytes;
}.
Implicit Types c : NodeConfig.

(** ** The file *)
Definition nl : bytes := [10].
Definition quoted (l : bytes) : bytes := quote :: l ++ [quote].
Definition show_bool (b : bool) : bytes := bytes_of_string (if b then "true" else "false").
Definition localhost : bytes := bytes_of_string "localhost".

Definition config_lines c : list bytes :=
  [bytes_of_string "# Primus-Core node configuration — auto-generated by setup wizard.";
   bytes_of_string "# Edit manually or delete to re-run the wizard on next startup.";
   [];
   bytes_of_string "is_seed = " ++ show_bool (is_seed c);
   bytes_of_string "public_ip = " ++ quoted (default [] (ip_to_string <$> public_ip c));
   bytes_of_string "port = " ++ decimal (port c);
   bytes_of_string "seed_peers = [" ++ join [comma; 32] (quoted ∘ sock_to_string <$> seed_peers c) ++ bytes_of_string "]";
   bytes_of_string "tls_domain = " ++ quoted (default localhost (tls_domain c))].
(** What [save] writes. *)
Definition save_config c : bytes := config_lines c ≫= λ l, l ++ nl.

Definition seed_entry (entry : bytes) : list SocketAddr :=
  option_list (sock_parse (trim_by is_quote (trim_by is_space entry))).

(** The body of the loop over lines. *)
Definition config_line c (line : bytes) : NodeConfig :=
  let line := trim_by is_space line in
  if bool_decide (head line = Some 35) || bool_decide (line = []) then c
  else
    match strip_prefix (bytes_of_string "is_seed = ") line with
    | Some val =>
        MkConfig (bool_decide (trim_by is_space val = bytes_of_string "true")) (public_ip c) (port c) (seed_peers c)
          (tls_domain c)
    | None =>
    match strip_prefix (bytes_of_string "public_ip = ") line with
    | Some val =>
        let s := trim_by is_quote (trim_by is_space val) in
        if bool_decide (s = []) then c
        else MkConfig (is_seed c) (ip_parse s) (port c) (seed_peers c) (tls_domain c)
    | None =>
    match strip_prefix (bytes_of_string "port = ") line with
    | Some val =>
        MkConfig (is_seed c) (public_ip c) (default 9000 (parse_u16 (trim_by is_space val))) (seed_peers c) (tls_domain c)
    | None =>
    match strip_prefix (bytes_of_string "seed_peers = [") line with
    | Some val =>
        let inner := trim_end (λ b, b =? 93) (trim_by is_space val) in
        MkConfig (is_seed c) (public_ip c) (port c) (seed_peers c ++ (split_on comma [] inner ≫= seed_entry)) (tls_domain c)
    | None =>
    match strip_prefix (bytes_of_string "tls_domain = ") line with
    | Some val =>
        let s := trim_by is_quote (trim_by is_space val) in
        if negb (bool_decide (s = [])) && negb (bool_decide (s = localhost))
        then MkConfig (is_seed c) (public_ip c) (port c) (seed_peers c) (Some s)
        else c
    | None => c
    end end end end end.

Definition config_base : NodeConfig := MkConfig false None 9000 [] None.
Definition parse_toml (text : bytes) : option NodeConfig := Some (foldl config_line config_base (split_lines text)).
(** [None]: there is no file, or it cannot be read. *)
Definition load_config (file : option bytes) : option NodeConfig := file ≫= parse_toml.

(** ** The wizard *)
Definition prompt_line (input : list bytes) : bytes * list bytes :=
  match input with
  | [] => ([], [])
  | line :: input => (trim_by is_space line, input)
  end.
Definition to_lower (l : bytes) : bytes := (λ b, if (65 <=? b) && (b <=? 90) then b + 32 else b) <$> l.

Inductive Answer := Default | Said (b : bool) | Unclear.
Definition yes_no (line : bytes) : Answer :=
  let answer := to_lower line in
  if bool_decide (answer = []) then Default
  else if bool_decide (answer = bytes_of_string "y" ∨ answer = bytes_of_string "yes") then Said true
  else if bool_decide (answer = bytes_of_string "n" ∨ answer = bytes_of_string "no") then Said false
  else Unclear.
(** The loops ask again until the answer is clear. *)
Fixpoint prompt_yes_no (default_yes : bool) (input : list bytes) : bool * list bytes :=
  match input with
  | [] => (default_yes, [])
  | line :: input =>
      match yes_no (trim_by is_space line) with
      | Default => (default_yes, input)
      | Said b => (b, input)
      | Unclear => prompt_yes_no default_yes input
      end
  end.
Fixpoint prompt_ip (input : list bytes) : option IpAddr * list bytes :=
  match input with
  | [] => (None, [])
  | line :: input =>
      let line := trim_by is_space line in
      if bool_decide (line = []) then (None, input)
      else match ip_parse line with Some ip => (Some ip, input) | None => prompt_ip input end
  end.
Fixpoint prompt_seeds (input : list bytes) : list SocketAddr * list bytes :=
  match input with
  | [] => ([], [])
  | line :: input =>
      let line := trim_by is_space line in
      if bool_decide (line = []) then ([], input)
      else let '(seeds, input) := prompt_seeds input in (option_list (sock_parse line) ++ seeds, input)
  end.

(** The configuration and the file that is left; [auto_ip] is the address detected. *)
Definition run_wizard (p : Z) (auto_ip : option IpAddr) (input : list bytes) : NodeConfig * bytes :=
  let '(seed, input) := prompt_yes_no false input in
  let '(ip, input) :=
    if seed then
      match auto_ip with
      | Some ip =>
          let '(use_auto, input) := prompt_yes_no true input in
          if use_auto then (Some ip, input) else prompt_ip input
      | None => prompt_ip input
      end
    else (None, input) in
  let '(seeds, input) := prompt_seeds input in
  let config := MkConfig seed ip p seeds None in
  (config, save_config config).

(** What the node starts with: its file, or the wizard. *)
Definition startup (p : Z) (auto_ip : option IpAddr) (file : option bytes) (input : list bytes)
    : NodeConfig * option bytes :=
  match load_config file with
  | Some cfg => (cfg, file)
  | None => let '(cfg, written) := run_wizard p auto_ip input in (cfg, Some written)
  end.

(** ** The client's reading of the same file (primus-client main.rs) *)
Definition node_line (acc : bytes * Z) (line : bytes) : bytes * Z :=
  let line := trim_by is_space line in
  match strip_prefix (bytes_of_string "public_ip = ") line with
  | Some val =>
      let s := trim_by is_quote (trim_by is_space val) in
      if bool_decide (s = []) then acc else (s, acc.2)
  | None =>
      match strip_prefix (bytes_of_string "port = ") line with
      | Some val => (acc.1, default 9000 (parse_u16 (trim_by is_space val)))
      | None => acc
      end
  end.
Definition load_node_addr_from_config (file : option bytes) : option (bytes * Z) :=
  match file with
  | None => None
  | Some text =>
      let '(host, p) := foldl node_line ([], 9000) (split_lines text) in
      if bool_decide (host = []) then None else Some (host, p)
  end.
Definition node_addr (file : option bytes) : bytes * Z :=
  default (bytes_of_string "127.0.0.1", 9000) (load_node_addr_from_config file).
End setup.
