(* ===== verification/SetupFacts.v ===== *)
(** What the wizard writes is what the node reads, and the client finds its node. *)
From S2P Require Import Prelude Types Text Setup.
Open Scope Z_scope.

Section facts.
Context {AT : AddrText}.
Implicit Types c : NodeConfig.

(** ** Values *)
Lemma special_space l : avoids special l → avoids is_space l.
Proof. apply avoids_weaken. intros x. unfold special. by rewrite !orb_false_iff; intros [[? ?] ?]. Qed.
Lemma special_quote l : avoids special l → avoids is_quote l.
Proof. apply avoids_weaken. intros x. unfold special. by rewrite !orb_false_iff; intros [[? ?] ?]. Qed.
Lemma special_comma l : avoids special l → avoids (λ b, b =? comma) l.
Proof. apply avoids_weaken. intros x. unfold special. by rewrite !orb_false_iff; intros [[? ?] ?]. Qed.
Lemma space_newline l : avoids is_space l → avoids (λ b, b =? 10) l.
Proof.
  apply avoids_weaken. intros x. unfold is_space. rewrite orb_false_iff, andb_false_iff, !Z.leb_gt, Z.eqb_neq.
  intros [? [?|?]]; apply Z.eqb_neq; lia.
Qed.

(** A line that begins and ends with something is not changed by trimming. *)
Lemma trim_line pre v x y :
  head pre = Some x → is_space x = false → last v = Some y → is_space y = false → trim_by is_space (pre ++ v) = pre ++ v.
Proof.
  intros Hh Hx Hl Hy. apply (trim_by_ends _ _ x y); [|done| |done].
  - destruct pre; [done|]. exact Hh.
  - by rewrite last_app, Hl.
Qed.
Lemma trim_value v x y : head v = Some x → is_space x = false → last v = Some y → is_space y = false → trim_by is_space v = v.
Proof. intros. by apply (trim_by_ends _ _ x y). Qed.

Lemma last_quoted l : last (quoted l) = Some quote.
Proof. unfold quoted. rewrite app_comm_cons. apply last_snoc. Qed.
Lemma trim_quoted l : trim_by is_space (quoted l) = quoted l.
Proof. apply (trim_value _ quote quote); [done|done|apply last_quoted|done]. Qed.
Lemma unquote l : avoids is_quote l → trim_by is_quote (quoted l) = l.
Proof.
  intros Hl. unfold quoted, trim_by. cbn [drop_while]. change (is_quote quote) with true. cbn iota.
  destruct l as [|x l]; [done|]. inversion Hl as [|?? Hx Hl']; subst. cbn [app drop_while]. rewrite Hx.
  rewrite app_comm_cons, reverse_snoc. cbn [drop_while]. change (is_quote quote) with true. cbn iota.
  fold (trim_end is_quote (x :: l)). unfold avoids in Hl. destruct (last (x :: l)) as [y|] eqn:Ey.
  - apply (trim_end_last _ _ y); [done|]. rewrite Forall_forall in Hl. apply Hl. by apply last_Some_elem_of.
  - by apply last_None in Ey.
Qed.

(** ** Lines *)
Lemma seed_line x c : config_line c (bytes_of_string "is_seed = " ++ show_bool x) =
  MkConfig x (public_ip c) (port c) (seed_peers c) (tls_domain c).
Proof. by destruct x. Qed.

Lemma ip_line ip c : config_line c (bytes_of_string "public_ip = " ++ quoted (default [] (ip_to_string <$> ip))) =
  match ip with Some _ => MkConfig (is_seed c) ip (port c) (seed_peers c) (tls_domain c) | None => c end.
Proof.
  unfold config_line. rewrite (trim_line _ _ 112 quote) by (done || apply last_quoted).
  rewrite strip_prefix_app. change (strip_prefix (bytes_of_string "is_seed = ") _) with (@None bytes).
  cbn iota. change (bool_decide (head _ = Some 35) || _) with false. cbn iota. rewrite trim_quoted, unquote.
  - destruct ip as [ip|]; cbn [fmap option_fmap option_map default from_option id]; [|done].
    destruct (plain_ip ip) as [_ Hne]. by rewrite bool_decide_eq_false_2, ip_parse_to_string.
  - destruct ip as [ip|]; [|constructor]. apply special_quote, plain_ip.
Qed.

Lemma port_line n c : 0 ≤ n < 65536 →
  config_line c (bytes_of_string "port = " ++ decimal n) =
  MkConfig (is_seed c) (public_ip c) n (seed_peers c) (tls_domain c).
Proof.
  intros Hn. destruct (last_digit n) as (y & Hl & Hy). unfold config_line.
  rewrite (trim_line _ _ 112 y) by done. rewrite strip_prefix_app.
  change (strip_prefix (bytes_of_string "is_seed = ") _) with (@None bytes).
  change (strip_prefix (bytes_of_string "public_ip = ") _) with (@None bytes). cbn iota.
  change (bool_decide (head _ = Some 35) || _) with false. cbn iota.
  by rewrite trim_by_avoids, parse_u16_decimal by (done || apply decimal_avoids_space).
Qed.

Lemma domain_line d c : avoids is_quote d →
  config_line c (bytes_of_string "tls_domain = " ++ quoted d) =
  if negb (bool_decide (d = [])) && negb (bool_decide (d = localhost))
  then MkConfig (is_seed c) (public_ip c) (port c) (seed_peers c) (Some d) else c.
Proof.
  intros Hd. unfold config_line. rewrite (trim_line _ _ 116 quote) by (done || apply last_quoted).
  rewrite strip_prefix_app. change (strip_prefix (bytes_of_string "is_seed = ") _) with (@None bytes).
  change (strip_prefix (bytes_of_string "public_ip = ") _) with (@None bytes).
  change (strip_prefix (bytes_of_string "port = ") _) with (@None bytes).
  change (strip_prefix (bytes_of_string "seed_peers = [") _) with (@None bytes). cbn iota.
  change (bool_decide (head _ = Some 35) || _) with false. cbn iota. by rewrite trim_quoted, unquote.
Qed.

(** The list of seeds, between the brackets. *)
Lemma seeds_entries (l : list SocketAddr) :
  split_on comma [] (join [comma; 32] (quoted ∘ sock_to_string <$> l)) ≫= seed_entry = l.
Proof.
  assert (He : ∀ a, seed_entry (quoted (sock_to_string a)) = [a] ∧ seed_entry (32 :: quoted (sock_to_string a)) = [a]).
  { intros a. destruct (plain_sock a) as [Hp _].
    assert (Hs : trim_by is_space (32 :: quoted (sock_to_string a)) = trim_by is_space (quoted (sock_to_string a))) by done.
    unfold seed_entry. by rewrite Hs, !trim_quoted, !unquote, !sock_parse_to_string by (by apply special_quote). }
  destruct l as [|a l]; [cbn; unfold seed_entry; cbn; by rewrite sock_parse_empty|].
  rewrite split_on_join; [|done| |done].
  - cbn [fmap list_fmap]. rewrite bind_cons. cbn [compose]. rewrite (proj1 (He a)). cbn [app]. f_equal.
    induction l as [|b l IH]; [done|]. cbn [fmap list_fmap]. rewrite bind_cons. cbn [compose].
    rewrite (proj2 (He b)). cbn [app]. f_equal. exact IH.
  - apply Forall_fmap, Forall_true. intros b. unfold quoted. cbn [compose]. constructor; [done|].
    apply avoids_app. split; [|by repeat constructor]. apply special_comma, plain_sock.
Qed.

Lemma join_quoted (l : list SocketAddr) :
  let j := join [comma; 32] (quoted ∘ sock_to_string <$> l) in j = [] ∨ (head j = Some quote ∧ last j = Some quote).
Proof.
  destruct l as [|a l]; [by left|]. right. split; [by destruct l|].
  revert a; induction l as [|b l IH]; intros a; [apply last_quoted|].
  change (join _ _) with (quoted (sock_to_string a) ++ [comma; 32] ++ join [comma; 32] (quoted ∘ sock_to_string <$> b :: l)).
  by rewrite !last_app, IH.
Qed.

Lemma seeds_line (l : list SocketAddr) c :
  config_line c (bytes_of_string "seed_peers = [" ++ join [comma; 32] (quoted ∘ sock_to_string <$> l) ++ bytes_of_string "]") =
  MkConfig (is_seed c) (public_ip c) (port c) (seed_peers c ++ l) (tls_domain c).
Proof.
  pose proof (join_quoted l) as Hj. cbv zeta in Hj. pose proof (seeds_entries l) as He.
  set (j := join _ _) in *. change (bytes_of_string "]") with [93]. unfold config_line.
  rewrite (trim_line _ _ 115 93) by (done || apply last_snoc).
  rewrite strip_prefix_app. change (strip_prefix (bytes_of_string "is_seed = ") _) with (@None bytes).
  change (strip_prefix (bytes_of_string "public_ip = ") _) with (@None bytes).
  change (strip_prefix (bytes_of_string "port = ") _) with (@None bytes). cbn iota.
  change (bool_decide (head _ = Some 35) || _) with false. cbn iota.
  assert (Ht : trim_by is_space (j ++ [93]) = j ++ [93]).
  { destruct Hj as [->|[Hh _]]; [done|]. apply (trim_value _ quote 93); [|done|apply last_snoc|done].
    destruct j; [done|]. exact Hh. }
  assert (Hend : trim_end (λ b, b =? 93) (j ++ [93]) = j).
  { unfold trim_end. rewrite reverse_snoc. cbn [drop_while]. rewrite Z.eqb_refl.
    destruct Hj as [->|[_ Hl]]; [done|]. fold (trim_end (λ b, b =? 93) j). by apply (trim_end_last _ _ quote). }
  by rewrite Ht, Hend, He.
Qed.

(** ** The file *)
Definition wf_config c : Prop :=
  0 ≤ port c < 65536 ∧ match tls_domain c with Some d => plain d | None => True end.
(** The domain localhost is written for none, and read back as none. *)
Definition normal c : NodeConfig :=
  MkConfig (is_seed c) (public_ip c) (port c) (seed_peers c)
    (match tls_domain c with Some d => if bool_decide (d = localhost) then None else Some d | None => None end).

Lemma plain_localhost : plain localhost.
Proof. split; [|done]. by repeat constructor. Qed.
Lemma quoted_newline l : avoids special l → avoids (λ b, b =? 10) (quoted l).
Proof.
  intros Hl. unfold quoted. constructor; [done|]. apply avoids_app. split; [|by repeat constructor].
  by apply space_newline, special_space.
Qed.
Lemma prefix_newline s l : forallb (λ b, negb (b =? 10)) (bytes_of_string s) = true → avoids (λ b, b =? 10) l →
  avoids (λ b, b =? 10) (bytes_of_string s ++ l).
Proof.
  intros Hs Hl. apply avoids_app. split; [|done]. unfold avoids. rewrite Forall_forall. intros x Hx.
  rewrite forallb_forall in Hs. apply negb_true_iff, Hs. by apply list_elem_of_In.
Qed.

Lemma avoids_join (p : Z → bool) sep (l : list bytes) : avoids p sep → Forall (avoids p) l → avoids p (join sep l).
Proof.
  intros Hs Hl. induction Hl as [|x l Hx Hl IH]; [constructor|]. destruct l as [|y l]; [done|].
  change (join sep (x :: y :: l)) with (x ++ sep ++ join sep (y :: l)). by rewrite !avoids_app.
Qed.

Lemma config_lines_newline c : wf_config c → Forall (avoids (λ b, b =? 10)) (config_lines c).
Proof.
  intros [_ Hd]. unfold config_lines. rewrite !Forall_cons.
  split_and!; [by repeat constructor|by repeat constructor|constructor|..|constructor].
  - apply prefix_newline; [done|]. by destruct (is_seed c); repeat constructor.
  - apply prefix_newline; [done|]. apply quoted_newline.
    destruct (public_ip c) as [ip|]; [|constructor]. apply plain_ip.
  - apply prefix_newline; [done|]. apply space_newline, decimal_avoids_space.
  - apply prefix_newline; [done|]. apply avoids_app. split; [|by repeat constructor].
    apply avoids_join; [by repeat constructor|]. apply Forall_fmap, Forall_true. intros a. apply quoted_newline, plain_sock.
  - apply prefix_newline; [done|]. apply quoted_newline.
    destruct (tls_domain c) as [d|]; [apply Hd|apply plain_localhost].
Qed.

Lemma load_save c : wf_config c → load_config (Some (save_config c)) = Some (normal c).
Proof.
  intros Hc. pose proof (config_lines_newline c Hc) as Hnl. destruct Hc as [Hp Hd].
  unfold load_config, save_config, parse_toml, nl. cbn [mbind option_bind]. rewrite split_lines_lines by done.
  rewrite foldl_app. cbn [foldl]. unfold config_lines. cbn [foldl]. f_equal.
  change (config_line config_base _) with config_base.
  change (config_line config_base (bytes_of_string "# Edit manually or delete to re-run the wizard on next startup."))
    with config_base.
  change (config_line config_base []) with config_base.
  rewrite seed_line, ip_line, port_line, seeds_line by done.
  rewrite domain_line.
  - unfold normal. destruct c as [sd ip p l d]. cbn [is_seed public_ip port seed_peers tls_domain].
    destruct d as [d|]; cbn [default from_option id]; [|by destruct ip].
    destruct Hd as [_ Hne]. rewrite (bool_decide_eq_false_2 (d = [])) by done. cbn [negb andb].
    case_bool_decide; cbn [negb]; by destruct ip.
  - apply special_quote. destruct (tls_domain c) as [d|]; [apply Hd|apply plain_localhost].
Qed.

(** ** What the client reads in it *)
Lemma node_addr_save c : wf_config c →
  load_node_addr_from_config (Some (save_config c)) = (λ ip, (ip_to_string ip, port c)) <$> public_ip c.
Proof.
  intros Hc. pose proof (config_lines_newline c Hc) as Hnl. destruct Hc as [Hp Hd].
  unfold load_node_addr_from_config, save_config, nl. rewrite split_lines_lines by done.
  rewrite foldl_app. cbn [foldl]. unfold config_lines. cbn [foldl].
  assert (Hip : ∀ acc, node_line acc (bytes_of_string "public_ip = " ++ quoted (default [] (ip_to_string <$> public_ip c))) =
            match public_ip c with Some ip => (ip_to_string ip, acc.2) | None => acc end).
  { intros acc. unfold node_line. rewrite (trim_line _ _ 112 quote) by (done || apply last_quoted).
    rewrite strip_prefix_app, trim_quoted, unquote.
    - destruct (public_ip c) as [ip|]; cbn [fmap option_fmap option_map default from_option id]; [|done].
      by rewrite bool_decide_eq_false_2 by apply plain_ip.
    - destruct (public_ip c); [apply special_quote, plain_ip|constructor]. }
  assert (Hport : ∀ acc, node_line acc (bytes_of_string "port = " ++ decimal (port c)) = (acc.1, port c)).
  { intros acc. destruct (last_digit (port c)) as (y & Hl & Hy). unfold node_line.
    rewrite (trim_line _ _ 112 y) by done. change (strip_prefix (bytes_of_string "public_ip = ") _) with (@None bytes).
    rewrite strip_prefix_app. by rewrite trim_by_avoids, parse_u16_decimal by (done || apply decimal_avoids_space). }
  assert (Hother : ∀ acc pre v x y, head pre = Some x → is_space x = false → last v = Some y → is_space y = false →
            x ≠ 112 → node_line acc (pre ++ v) = acc).
  { intros acc pre v x y Hh Hx Hl Hy Hne. unfold node_line. rewrite (trim_line _ _ x y) by done.
    destruct pre as [|x' pre]; [done|]. injection Hh as ->. cbn [app].
    change (bytes_of_string "public_ip = ") with (112 :: drop 1 (bytes_of_string "public_ip = ")).
    change (bytes_of_string "port = ") with (112 :: drop 1 (bytes_of_string "port = ")).
    cbn [strip_prefix]. by rewrite (proj2 (Z.eqb_neq 112 x)) by done. }
  rewrite Hport, Hip.
  rewrite (Hother _ (bytes_of_string "tls_domain = ") _ 116 quote) by (done || apply last_quoted).
  rewrite (Hother _ (bytes_of_string "seed_peers = [") _ 115 93) by (done || apply last_snoc).
  rewrite (Hother _ (bytes_of_string "is_seed = ") _ 105 101) by (done || by destruct (is_seed c)).
  change (node_line (node_line (node_line ([], 9000) _) _) []) with (([] : bytes), 9000).
  destruct (public_ip c) as [ip|]; cbn; [|done]. by rewrite bool_decide_eq_false_2 by apply plain_ip.
Qed.

(** C36. The configuration survives a restart: the node reads back what it wrote, but for
    the domain localhost, which stands for none, and starts with it without asking; the
    client on the same machine finds the address of a node with a public one. *)
Theorem config_roundtrip c p auto_ip input :
  wf_config c →
  load_config (Some (save_config c)) = Some (normal c) ∧
  startup p auto_ip (Some (save_config c)) input = (normal c, Some (save_config c)) ∧
  load_node_addr_from_config (Some (save_config c)) = (λ ip, (ip_to_string ip, port c)) <$> public_ip c.
Proof.
  intros Hc. pose proof (load_save c Hc) as Hl. split_and!; [done| |by apply node_addr_save].
  unfold startup. by rewrite Hl.
Qed.

(** Whatever the operator answers, the next start finds the wizard's configuration. *)
Theorem wizard_reloaded p auto_ip input p' auto_ip' input' :
  0 ≤ p < 65536 →
  let '(config, file) := startup p auto_ip None input in
  file = Some (save_config config) ∧ startup p' auto_ip' file input' = (config, file).
Proof.
  intros Hp. unfold startup. cbn [load_config mbind option_bind]. unfold run_wizard.
  destruct (prompt_yes_no false input) as [seed input1].
  destruct (if seed then _ else _) as [ip input2]. destruct (prompt_seeds input2) as [seeds input3].
  split; [done|]. by rewrite load_save by done.
Qed.

(** On a machine whose node has no public address the client looks for it on port 9000,
    whichever port the file says. *)
Theorem client_ignores_port c : wf_config c → public_ip c = None →
  node_addr (Some (save_config c)) = (bytes_of_string "127.0.0.1", 9000).
Proof. intros Hc Hip. unfold node_addr. by rewrite node_addr_save, Hip. Qed.
End facts.

(** ** A node with two addresses *)
Definition two_addresses (b : bool) : bytes := bytes_of_string (if b then "10.0.0.1" else "::1").
Definition two_sockets (b : bool) : bytes := bytes_of_string (if b then "10.0.0.1:9000" else "[::1]:9001").
Definition read_back (show : bool → bytes) (l : bytes) : option bool :=
  if bool_decide (l = show true) then Some true else if bool_decide (l = show false) then Some false else None.
#[local] Instance toy_addr : AddrText.
Proof.
  refine {| IpAddr := bool; SocketAddr := bool; ip_to_string := two_addresses; ip_parse := read_back two_addresses;
            sock_to_string := two_sockets; sock_parse := read_back two_sockets |}; try (by intros []); try done;
    intros []; (split; [by repeat constructor|done]).
Defined.
Definition seed_node : NodeConfig := MkConfig true (Some true) 9100 [false; true] (Some (bytes_of_string "example.org")).
Lemma config_roundtrip_witness :
  load_config (Some (save_config seed_node)) = Some seed_node ∧
  load_node_addr_from_config (Some (save_config seed_node)) = Some (bytes_of_string "10.0.0.1", 9100).
Proof.
  assert (Hwf : wf_config seed_node).
  { split; [split; [discriminate|reflexivity]|]. split; [by repeat constructor|discriminate]. }
  destruct (config_roundtrip seed_node 9000 None [] Hwf) as (H1 & _ & H2). exact (conj H1 H2).
Defined.
Lemma client_ignores_port_witness :
  node_addr (Some (save_config (MkConfig false None 9100 [] None))) = (bytes_of_string "127.0.0.1", 9000).
Proof. apply client_ignores_port; [|reflexivity]. split; [split; [discriminate|reflexivity]|exact I]. Defined.
