(* ===== verification/Startup.v ===== *)
(** What the programs find out at their start besides the configuration: the address of the
    machine (primus-core setup.rs) and the node the client is told to use (primus-client
    main.rs).

    The parts of a socket address and the kinds of addresses are std's, and parameters; so
    are the address of a socket and the output of the command `ip route get`. *)
From S2P Require Import Prelude Types Text Setup.
Open Scope Z_scope.

(** The text after the first occurrence of a pattern: `text.find(p)`, then a slice. *)
Fixpoint find_after (p text : bytes) : option bytes :=
  match strip_prefix p text with
  | Some rest => Some rest
  | None => match text with [] => None | _ :: text => find_after p text end
  end.
(** `split_whitespace().next()`. *)
Fixpoint take_word (l : bytes) : bytes :=
  match l with
  | [] => []
  | c :: l => if is_space c then [] else c :: take_word l
  end.
Definition first_word (l : bytes) : bytes := take_word (drop_while is_space l).
(** `split_once`: before and after the first separator. *)
Fixpoint split_once (sep : Z) (l : bytes) : option (bytes * bytes) :=
  match l with
  | [] => None
  | c :: l => if c =? sep then Some ([], l) else (λ '(a, b), (c :: a, b)) <$> split_once sep l
  end.

Section startup.
Context {AT : AddrText}.
Context (is_loopback is_unspecified : IpAddr → bool) (sock_ip : SocketAddr → IpAddr) (sock_port : SocketAddr → Z).

Definition src_mark : bytes := bytes_of_string "src ".
(** The address in the output of `ip route get`. *)
Definition route_source (text : bytes) : option IpAddr := find_after src_mark text ≫= ip_parse ∘ first_word.
(** [udp]: the local address of a socket towards 8.8.8.8, if there is one; [route]: the
    output of the command, on Linux, if it can be run. *)
Definition detect_public_ip_sync (udp : option IpAddr) (route : option bytes) : option IpAddr :=
  let from_route := route ≫= route_source in
  match udp with
  | Some ip => if negb (is_loopback ip) && negb (is_unspecified ip) then Some ip else from_route
  | None => from_route
  end.

(** ** The arguments of the client *)
Definition parse_node (s : bytes) : option (bytes * Z) :=
  match sock_parse s with
  | Some sock => Some (ip_to_string (sock_ip sock), sock_port sock)
  | None => (λ '(h, p), (h, default 9000 (parse_u16 p))) <$> split_once 58 s
  end.
(** The loop over the arguments: the first `--node` that has a successor ends it. *)
Fixpoint node_flag (args : list bytes) : option (bytes * Z) :=
  match args with
  | a :: (s :: _) as rest => if bool_decide (a = bytes_of_string "--node") then parse_node s else node_flag rest
  | _ => None
  end.
(** [args] starts with the name of the program, which is skipped. *)
Definition client_node (args : list bytes) (file : option bytes) : bytes * Z :=
  match node_flag (drop 1 args) with
  | Some a => a
  | None => node_addr file
  end.

(** ** Facts *)
Lemma find_after_first pre rest :
  find_after src_mark (pre ++ [32]) = None → find_after src_mark (pre ++ 32 :: src_mark ++ rest) = Some rest.
Proof.
  induction pre as [|x pre IH]; intros Hn; [reflexivity|].
  cbn [app find_after] in Hn. destruct (strip_prefix src_mark (x :: pre ++ [32])) eqn:Hp; [done|]. specialize (IH Hn).
  cbn [app find_after]. assert (strip_prefix src_mark (x :: pre ++ 32 :: src_mark ++ rest) = None) as ->; [|done].
  clear IH Hn. revert Hp. change src_mark with [115; 114; 99; 32]. cbn -[Z.eqb].
  destruct (115 =? x); [|done]. destruct pre as [|y pre]; [done|]. cbn -[Z.eqb]. destruct (114 =? y); [|done].
  destruct pre as [|z pre]; [done|]. cbn -[Z.eqb]. destruct (99 =? z); [|done].
  destruct pre as [|w pre]; [done|]. cbn -[Z.eqb]. by destruct (32 =? w).
Qed.

Lemma take_word_app w c rest : avoids is_space w → is_space c = true → take_word (w ++ c :: rest) = w.
Proof.
  intros Hw Hc. induction Hw as [|x w Hx Hw IH]; cbn; [by rewrite Hc|]. by rewrite Hx, IH.
Qed.
Lemma first_word_app w c rest :
  w ≠ [] → avoids is_space w → is_space c = true → first_word (w ++ c :: rest) = w.
Proof.
  intros Hne Hw Hc. unfold first_word. destruct w as [|x w]; [done|].
  rewrite (drop_while_head _ _ x); [by apply take_word_app|done|by inversion Hw].
Qed.
Lemma split_once_first sep h p : avoids (λ c, c =? sep) h → split_once sep (h ++ sep :: p) = Some (h, p).
Proof.
  induction 1 as [|x h Hx Hh IH]; cbn; [by rewrite Z.eqb_refl|]. by rewrite Hx, IH.
Qed.

Lemma node_flag_skip pre s rest :
  Forall (λ a, a ≠ bytes_of_string "--node") pre →
  node_flag (pre ++ bytes_of_string "--node" :: s :: rest) = parse_node s.
Proof.
  induction 1 as [|a pre Ha Hpre IH]; cbn [app node_flag]; [by rewrite bool_decide_true|].
  rewrite bool_decide_false by done. rewrite IH. by destruct (pre ++ _) eqn:He; [apply app_nil in He as [_ ?]|].
Qed.

(** Where the socket has no address of use, the detected address is the one after "src" of
    the route's text. *)
Theorem route_is_read udp pre ip rest :
  match udp with Some a => is_loopback a || is_unspecified a = true | None => True end →
  find_after src_mark (pre ++ [32]) = None → ip_to_string ip ≠ [] → avoids is_space (ip_to_string ip) →
  detect_public_ip_sync udp (Some (pre ++ 32 :: src_mark ++ ip_to_string ip ++ 32 :: rest)) = Some ip.
Proof.
  intros Hu Hpre Hne Hsp. assert (Hr : route_source (pre ++ 32 :: src_mark ++ ip_to_string ip ++ 32 :: rest) = Some ip).
  { unfold route_source. rewrite find_after_first by done. cbn. rewrite first_word_app by done. apply ip_parse_to_string. }
  unfold detect_public_ip_sync. cbn [mbind option_bind]. rewrite Hr. destruct udp as [a|]; [|done].
  by destruct (is_loopback a), (is_unspecified a).
Qed.

(** A node named on the command line wins over the configuration; a port that is not one
    becomes 9000, and an address without a colon is as if it were not given. *)
Theorem node_flag_wins prog pre host p rest file :
  Forall (λ a, a ≠ bytes_of_string "--node") pre → avoids (λ c, c =? 58) host → 0 ≤ p →
  sock_parse (host ++ 58 :: decimal p) = None → sock_parse host = None →
  client_node (prog :: pre ++ bytes_of_string "--node" :: (host ++ 58 :: decimal p) :: rest) file =
    (host, default 9000 (parse_u16 (decimal p))) ∧
  client_node (prog :: pre ++ bytes_of_string "--node" :: host :: rest) file = node_addr file.
Proof.
  intros Hpre Hh Hp Hs Hs'. unfold client_node. rewrite !skipn_cons, !drop_0, !node_flag_skip by done.
  unfold parse_node. rewrite Hs, Hs', split_once_first by done. split; [done|].
  assert (split_once 58 host = None) as ->; [|done].
  clear Hs Hs'. induction Hh as [|x h Hx Hh IH]; cbn; [done|]. by rewrite Hx, IH.
Qed.
End startup.
