(* ===== verification/Tui.v ===== *)
(** The terminal of the client (primus-client main.rs): the state of the screen, what keys
    and background events do to it, and the commands it hands to the poller.

    What is drawn is in Screen.  The channel to the poller is a queue of ten: a command for
    which there is no room is lost. *)
From S2P Require Import Prelude Types Text.
Open Scope Z_scope.

Inductive AppTab := Dashboard | Send | Logs.
Inductive AppEvent := Tick | NodeStatus (s : bytes) | BalanceUpdate (b : Z) | LogMsg (msg : bytes) | WalletLoaded (a : bytes).
Inductive UiCommand := SendTx (to : bytes) (amount : Z) | GenerateWallet.

Record App := MkApp {
  tab : AppTab;
  address_input : bytes;
  amount_input : bytes;
  is_typing_address : bool;
  logs : list bytes;
  balance : option Z;
  app_status : bytes;
  wallet_address : bytes;
  node_addr : bytes;
}.
Implicit Types app : App.
Definition app_new (addr : bytes) : App :=
  MkApp Dashboard [] [] true [bytes_of_string "Client started."] None (bytes_of_string "Connecting...")
    (bytes_of_string "Not loaded") addr.

Definition set_tab t app : App :=
  MkApp t (address_input app) (amount_input app) (is_typing_address app) (logs app) (balance app) (app_status app)
    (wallet_address app) (node_addr app).
Definition set_inputs a m app : App :=
  MkApp (tab app) a m (is_typing_address app) (logs app) (balance app) (app_status app) (wallet_address app) (node_addr app).
Definition set_typing b app : App :=
  MkApp (tab app) (address_input app) (amount_input app) b (logs app) (balance app) (app_status app)
    (wallet_address app) (node_addr app).
Definition set_logs l app : App :=
  MkApp (tab app) (address_input app) (amount_input app) (is_typing_address app) l (balance app) (app_status app)
    (wallet_address app) (node_addr app).

Definition next_tab app : App :=
  set_tab match tab app with Dashboard => Send | Send => Logs | Logs => Dashboard end app.

(** A background event. *)
Definition on_event (e : AppEvent) app : App :=
  match e with
  | NodeStatus s =>
      MkApp (tab app) (address_input app) (amount_input app) (is_typing_address app) (logs app) (balance app) s
        (wallet_address app) (node_addr app)
  | BalanceUpdate b =>
      MkApp (tab app) (address_input app) (amount_input app) (is_typing_address app) (logs app) (Some b)
        (app_status app) (wallet_address app) (node_addr app)
  | WalletLoaded a =>
      MkApp (tab app) (address_input app) (amount_input app) (is_typing_address app) (logs app) (balance app)
        (app_status app) a (node_addr app)
  | LogMsg msg =>
      let l := logs app ++ [msg] in
      set_logs (if (50 <? length l)%nat then drop 1 l else l) app
  | Tick => app
  end.

Inductive KeyCode := Char (c : Z) | Tab | Backspace | Enter | Down | Up | OtherKey.
Definition pop (l : bytes) : bytes := take (length l - 1) l.

Definition CHANNEL : nat := 10.
Definition try_send (cmd : UiCommand) (queue : list UiCommand) : list UiCommand :=
  if (length queue <? CHANNEL)%nat then queue ++ [cmd] else queue.

Definition sending app : bool := match tab app with Send => true | _ => false end.

(** A key: the screen and the queue after it, or [None] to leave. *)
Definition on_key (k : KeyCode) app (queue : list UiCommand) : option (App * list UiCommand) :=
  match k with
  | Char 113 => None
  | Tab => Some (next_tab app, queue)
  | Char c =>
      if sending app then
        Some (if is_typing_address app then set_inputs (address_input app ++ [c]) (amount_input app) app
              else set_inputs (address_input app) (amount_input app ++ [c]) app, queue)
      else if c =? 103 then Some (app, try_send GenerateWallet queue)
      else Some (app, queue)
  | Backspace =>
      if sending app then
        Some (if is_typing_address app then set_inputs (pop (address_input app)) (amount_input app) app
              else set_inputs (address_input app) (pop (amount_input app)) app, queue)
      else Some (app, queue)
  | Enter =>
      if sending app then
        match parse_u64 (amount_input app) with
        | Some amount => Some (set_tab Logs (set_inputs [] [] app), try_send (SendTx (address_input app) amount) queue)
        | None => Some (set_logs (logs app ++ [bytes_of_string "Invalid amount!"]) app, queue)
        end
      else Some (app, queue)
  | Down | Up => Some (if sending app then set_typing (negb (is_typing_address app)) app else app, queue)
  | OtherKey => Some (app, queue)
  end.

(** The loop over what happens, until the user leaves. *)
Inductive Input := Key (k : KeyCode) | Event (e : AppEvent).
Fixpoint run_app (inputs : list Input) app (queue : list UiCommand) : App * list UiCommand :=
  match inputs with
  | [] => (app, queue)
  | Event e :: inputs => run_app inputs (on_event e app) queue
  | Key k :: inputs =>
      match on_key k app queue with
      | Some (app, queue) => run_app inputs app queue
      | None => (app, queue)
      end
  end.

(** ** Typing *)
Definition typed (l : bytes) : list Input := (λ c, Key (Char c)) <$> l.
Definition no_q (l : bytes) : Prop := Forall (λ c, c ≠ 113) l.

Lemma on_key_char c app queue : c ≠ 113 → sending app = true →
  on_key (Char c) app queue =
  Some (if is_typing_address app then set_inputs (address_input app ++ [c]) (amount_input app) app
        else set_inputs (address_input app) (amount_input app ++ [c]) app, queue).
Proof.
  intros Hc Hs. unfold on_key. rewrite Hs. destruct c as [|p|p]; [done| |done].
  do 7 (destruct p as [p|p|]; try done).
Qed.

Lemma run_typed l rest app queue : no_q l → sending app = true →
  run_app (typed l ++ rest) app queue =
  run_app rest (if is_typing_address app then set_inputs (address_input app ++ l) (amount_input app) app
                else set_inputs (address_input app) (amount_input app ++ l) app) queue.
Proof.
  intros Hl. revert app. induction Hl as [|c l Hc _ IH]; intros app Hs.
  - cbn. destruct app as [t a m b ? ? ? ? ?]. cbn. destruct b; by rewrite app_nil_r.
  - cbn [typed fmap list_fmap Datatypes.app run_app]. rewrite on_key_char by done. rewrite IH.
    + destruct app as [t a m b ? ? ? ? ?]. cbn. destruct b; cbn; by rewrite <-app_assoc.
    + by destruct app as [t a m [] ? ? ? ? ?].
Qed.

(** What the user types is what is sent: on the empty form, an address, an arrow, a number
    and Enter hand the poller that address and that amount, if its queue has room; the form
    is empty again. *)
Theorem typing_sends to n app queue :
  tab app = Send → is_typing_address app = true → address_input app = [] → amount_input app = [] →
  no_q to → is_u64 n → (length queue < CHANNEL)%nat →
  let '(app', queue') := run_app (typed to ++ [Key Down] ++ typed (decimal n) ++ [Key Enter]) app queue in
  queue' = queue ++ [SendTx to n] ∧ tab app' = Logs ∧ address_input app' = [] ∧ amount_input app' = [] ∧
  logs app' = logs app.
Proof.
  intros Ht Hty Ha Hm Hq Hn Hroom. destruct app as [t a m b lg ba st wa na]. cbn in *. subst.
  rewrite run_typed by done. cbn [is_typing_address set_inputs Datatypes.app run_app on_key sending tab].
  rewrite run_typed; [| |done].
  - cbn [is_typing_address set_typing set_inputs negb run_app on_key sending tab amount_input address_input Datatypes.app].
    rewrite parse_u64_decimal by done. cbn [run_app]. unfold try_send.
    rewrite (proj2 (Nat.ltb_lt _ _)) by done. done.
  - eapply Forall_impl; [apply decimal_digits|]. intros c. unfold digit. lia.
Qed.

(** The limit of the log holds for what comes from the poller only. *)
Theorem invalid_amounts_logged n app queue :
  tab app = Send → parse_u64 (amount_input app) = None →
  length (logs (run_app (replicate n (Key Enter)) app queue).1) = (length (logs app) + n)%nat.
Proof.
  revert app. induction n as [|n IH]; intros app Ht Hp; cbn [replicate run_app on_key]; [cbn; lia|].
  unfold sending. rewrite Ht, Hp. rewrite IH by (by destruct app). destruct app. cbn. rewrite length_app. simpl. lia.
Qed.
