(* ===== verification/Screen.v ===== *)
(** What the client draws (primus-client main.rs ui): the widgets, their text and their
    styles, and the part of the screen each is put in. ratatui turns them into characters. *)
From S2P Require Import Prelude Types Tui Text.
Open Scope Z_scope.

Inductive Color := Cyan | Yellow | DarkGray.
Record Style := MkStyle { fg : option Color; bold : bool }.
Definition style_default : Style := MkStyle None false.
Definition coloured (c : Color) : Style := MkStyle (Some c) false.
#[export] Instance color_eq_dec : EqDecision Color.
Proof. solve_decision. Defined.
#[export] Instance style_eq_dec : EqDecision Style.
Proof. solve_decision. Defined.

(** `Layout`: a split of an area from top to bottom. *)
Inductive Constraint := Length (n : Z) | Min (n : Z).
Definition chunks_constraints : list Constraint := [Length 3; Min 0; Length 3].
Definition inner_constraints : list Constraint := [Length 3; Length 3; Min 0].
(** A part of the screen, or a part of its second part. *)
Inductive Area := Chunk (i : nat) | InnerChunk (i : nat).

(** Every widget has a border on all sides; the footer has no title. *)
Inductive Widget :=
| Tabs (titles : list bytes) (title : bytes) (selected : nat) (style highlight : Style)
| Paragraph (text : bytes) (title : option bytes) (style : Style).

Implicit Types app : App.

Definition newline : bytes := [10].
Definition selected_tab app : nat := match tab app with Dashboard => 0 | Send => 1 | Logs => 2 end.
Definition tabs app : Widget :=
  Tabs [bytes_of_string " Dashboard "; bytes_of_string " Send "; bytes_of_string " Logs "]
    (bytes_of_string " Primus-Client TUI ") (selected_tab app) (coloured Cyan) (MkStyle (Some Yellow) true).

Definition bal_str app : bytes :=
  match balance app with
  | Some b => decimal b ++ bytes_of_string " mass"
  | None => bytes_of_string "N/A"
  end.
Definition info app : bytes :=
  bytes_of_string "Network Status: " ++ app_status app ++ newline ++ bytes_of_string "Wallet: " ++ wallet_address app
  ++ newline ++ bytes_of_string "Balance: " ++ bal_str app.

Definition input_style (typing : bool) : Style := if typing then coloured Yellow else style_default.
Definition body app : list (Area * Widget) :=
  match tab app with
  | Dashboard => [(Chunk 1, Paragraph (info app) (Some (bytes_of_string " Wallet Info ")) style_default)]
  | Send =>
      [(InnerChunk 0, Paragraph (address_input app) (Some (bytes_of_string " Recipient Address "))
                        (input_style (is_typing_address app)));
       (InnerChunk 1, Paragraph (amount_input app) (Some (bytes_of_string " Amount "))
                        (input_style (negb (is_typing_address app))))]
  | Logs => [(Chunk 1, Paragraph (join newline (logs app)) (Some (bytes_of_string " Event Log ")) style_default)]
  end.
Definition footer : Widget :=
  Paragraph (bytes_of_string "Press 'q' to quit, 'Tab' to switch views") None (coloured DarkGray).

Definition ui app : list (Area * Widget) := (Chunk 0, tabs app) :: body app ++ [(Chunk 2, footer)].

(** ** The form *)
(** The texts drawn in a style. *)
Definition texts_in (s : Style) (l : list (Area * Widget)) : list bytes :=
  omap (λ p, match p.2 with
             | Paragraph text (Some _) s' => if decide (s' = s) then Some text else None
             | _ => None
             end) l.

(** On the form, one of the two fields is highlighted: what is typed appears in it and
    nowhere else, and Up and Down move the highlight to the other field. *)
Theorem typing_is_shown app queue c :
  tab app = Send → c ≠ 113 →
  ∃ here other app1 app2, texts_in (coloured Yellow) (ui app) = [here] ∧ texts_in style_default (ui app) = [other] ∧
    on_key (Char c) app queue = Some (app1, queue) ∧
    texts_in (coloured Yellow) (ui app1) = [here ++ [c]] ∧ texts_in style_default (ui app1) = [other] ∧
    on_key Down app queue = Some (app2, queue) ∧ on_key Up app queue = Some (app2, queue) ∧
    texts_in (coloured Yellow) (ui app2) = [other] ∧ texts_in style_default (ui app2) = [here].
Proof.
  intros Ht Hc. assert (Hs : sending app = true) by (unfold sending; by rewrite Ht).
  rewrite (on_key_char c app queue Hc Hs). destruct app as [t a m ty l b st w n]. cbn in Ht. subst t.
  destruct ty; do 4 eexists; split_and!; reflexivity.
Qed.
Lemma typing_is_shown_witness :
  texts_in (coloured Yellow) (ui (set_tab Send (app_new [])))= [[]] ∧
  ∃ here other app1, texts_in (coloured Yellow) (ui (set_tab Send (app_new []))) = [here] ∧
    on_key (Char 53) (set_tab Send (app_new [])) [] = Some (app1, []) ∧ other = here ++ [53] ∧
    texts_in (coloured Yellow) (ui app1) = [other].
Proof.
  split; [reflexivity|].
  destruct (typing_is_shown (set_tab Send (app_new [])) [] 53 eq_refl ltac:(discriminate)) as (h & o & a & _ & H1 & _ & H2 & H3 & _).
  exists h, (h ++ [53]), a. split; [exact H1|]. split; [exact H2|]. split; [reflexivity|exact H3].
Defined.
