(* ===== verification/Poller.v ===== *)
(** The poller of the client (primus-client main.rs): what it does at its start, at each
    tick and for each command of the screen, and what it tells the screen.

    The node it connects to is there or not at each connection; the file my.wallet is part
    of its state.  The text of errors is a parameter. *)
From S2P Require Import Prelude Floats Types Dht Gossip Noise Framing Server Shield Crypto Sdk SdkFacts.
From S2P Require Import Mpt State Physics Pvm Crystal Chamber Storage Engine Processor Mempool Ingress IngressFacts Client ClientFacts Text Tui.
Open Scope Z_scope.

(** [{:02x?}] of bytes. *)
Definition hex_digit (n : Z) : Z := if n <? 10 then 48 + n else 87 + n.
Definition debug_hex (l : bytes) : bytes :=
  bytes_of_string "[" ++ join (bytes_of_string ", ") ((λ b, [hex_digit (b / 16); hex_digit (b mod 16)]) <$> l)
  ++ bytes_of_string "]".

Record Poller := MkPoller {
  p_wallet : option Wallet;
  p_wallet_addr : option bytes;
  my_wallet : option bytes;
}.

Section poller.
Context {HA : Hashes} {MC : MessageCodec} {MDec : MessageDecoder} {CLI : ClientCodec} {LC : LengthDelimitedCodec}
        {MD : MlDsa87} {HX : Hex} {RK : Rkyv} {BI : Bip39} {WF : WalletFileCodec} {S : Type} {CH : CoreHandle S}.
Context (show : SocketAddr → bytes) (filter : bytes → result SignedReaction bytes) (client_ip : bytes).
Context (late : nat → option nat) (now : nat → Z).
Context (error_text : ClientError → bytes) (sdk_text : SdkError → bytes) (host_port : bytes).
Implicit Types (n : Network S) (p : Poller).

Definition log (s : string) : AppEvent := LogMsg (bytes_of_string s).
Definition log_with (s : string) (rest : bytes) : AppEvent := LogMsg (bytes_of_string s ++ rest).

Definition poller_start (file : option bytes) : Poller * list AppEvent :=
  match load file with
  | Ok w => (MkPoller (Some w) (Some (address w)) file, [WalletLoaded (address w)])
  | Err _ => (MkPoller None None file, [log "my.wallet not found. Press 'g' to generate a new wallet."])
  end.

(** [node]: the node, if a connection to it succeeds; [i] counts the messages sent. *)
Definition poller_tick (i : nat) (node : option (Network S)) p : option (Network S) * list AppEvent :=
  match node with
  | None => (None, [NodeStatus (bytes_of_string "Disconnected")])
  | Some n =>
      let connected := NodeStatus (bytes_of_string "Connected (" ++ host_port ++ bytes_of_string ")") in
      match p_wallet_addr p with
      | None => (Some n, [connected])
      | Some addr =>
          let '(l, r) := client_atom_state show filter client_ip late i addr (MkLink n [] true) in
          (Some (Client.node l),
           [connected; match r with
                       | Ok state => BalanceUpdate (st_mass state)
                       | Err e => log_with "Error fetching state: " (error_text e)
                       end])
      end
  end.

Definition outcome_log (o : SendOutcome) : AppEvent :=
  match o with
  | Sent hash =>
      log_with "Tx Broadcasted: Accepted (hash: " (debug_hex hash ++ bytes_of_string ")")
  | BroadcastError e => log_with "Broadcast Error: " (error_text e)
  | InsufficientBalance => log "Insufficient balance!"
  | InvalidRecipient => log "Invalid recipient address format!"
  | NoSenderState e => log_with "Failed to get sender state: " (error_text e)
  end.
Definition send_log (to : bytes) (amount : Z) : AppEvent :=
  log_with "Sending " (decimal amount ++ bytes_of_string " mass to " ++ to ++ bytes_of_string "...").

Definition poller_command (i : nat) (entropy : nat → bytes) (cmd : UiCommand) (node : option (Network S)) p
    : option (Network S) * Poller * list AppEvent :=
  match cmd with
  | SendTx to amount =>
      match p_wallet p with
      | None => (node, p, [log "Cannot send: No wallet loaded!"])
      | Some w =>
          match node with
          | None => (None, p, [send_log to amount; log "Cannot send: Node disconnected."])
          | Some n =>
              let '(l, o) := send_tx show filter client_ip late now i w to amount (MkLink n [] true) in
              (Some (Client.node l), p, [send_log to amount; outcome_log o])
          end
      end
  | GenerateWallet =>
      match p_wallet p with
      | Some _ => (node, p, [log "⚠️ Wallet already exists."])
      | None =>
          match generate entropy 12 0 with
          | Err e => (node, p, [log "Generating wallet..."; log_with "Failed to generate wallet: " (sdk_text e)])
          | Ok w =>
              (node, MkPoller (Some w) (Some (address w)) (Some (save w)),
               [log "Generating wallet..."; WalletLoaded (address w);
                log_with "✅ Wallet created! Mnemonic: " (get_mnemonic w)])
          end
      end
  end.

(** The commands of the queue, one by one. *)
Fixpoint run_commands (i : nat) (entropy : nat → bytes) (cmds : list UiCommand) (node : option (Network S)) p
    : option (Network S) * Poller * list AppEvent :=
  match cmds with
  | [] => (node, p, [])
  | cmd :: cmds =>
      let '(node, p, evs) := poller_command i entropy cmd node p in
      let '(node, p, evs') := run_commands (i + 4) entropy cmds node p in
      (node, p, evs ++ evs')
  end.
End poller.

(** ** Facts *)
Section wallets.
Context {HA : Hashes} {MC : MessageCodec} {MDec : MessageDecoder} {CLI : ClientCodec} {LC : LengthDelimitedCodec}
        {MD : MlDsa87} {HX : Hex} {RK : Rkyv} {BI : Bip39} {WF : WalletFileCodec} {S : Type} {CH : CoreHandle S}.
Context (show : SocketAddr → bytes) (filter : bytes → result SignedReaction bytes) (client_ip : bytes).
Context (late : nat → option nat) (now : nat → Z).
Context (error_text : ClientError → bytes) (sdk_text : SdkError → bytes).
Implicit Types (p : Poller).

(** The poller shows the address of its wallet, and the wallet is the one of the file. *)
Definition poller_ok p : Prop :=
  p_wallet_addr p = address <$> p_wallet p ∧ ∀ w, p_wallet p = Some w → load (my_wallet p) = Ok w.
Lemma start_ok file : poller_ok (poller_start file).1.
Proof. unfold poller_start. destruct (load file) as [w|] eqn:E; split; cbn; try done. by intros ? [= <-]. Qed.
Lemma command_ok i entropy cmd node p :
  poller_ok p →
  poller_ok (poller_command show filter client_ip late now error_text sdk_text i entropy cmd node p).1.2.
Proof.
  intros Hp. destruct cmd as [to amount|]; cbn [poller_command].
  - destruct (p_wallet p); [|done]. destruct node; [|done]. by destruct (send_tx _ _ _ _ _ _ _ _ _ _).
  - destruct (p_wallet p) as [w|]; [done|]. destruct (generate entropy 12 0) as [w|] eqn:E; [|done].
    split; [done|]. intros ? [= <-]. unfold generate in E. cbn [rbind Z.eqb Pos.eqb] in E.
    exact (proj1 (wallet_roundtrip _ _ _ E)).
Qed.

(** Whatever commands the poller has had, it can be started again: it then has the wallet it
    had, if it had one.  But a file that does not load counts as none, and generating a
    wallet replaces it. *)
Theorem poller_restart i entropy cmds node file :
  let '(_, p, _) := run_commands show filter client_ip late now error_text sdk_text i entropy cmds node (poller_start file).1 in
  ∀ w, p_wallet p = Some w → (poller_start (my_wallet p)).1 = p.
Proof.
  assert (H : ∀ p, poller_ok p →
    poller_ok (run_commands show filter client_ip late now error_text sdk_text i entropy cmds node p).1.2).
  { revert i node. induction cmds as [|cmd cmds IH]; intros i node p Hp; [done|]. cbn [run_commands].
    pose proof (command_ok i entropy cmd node p Hp) as Hc.
    destruct (poller_command _ _ _ _ _ _ _ _ _ _ _ _) as [[node' p'] evs]. cbn [fst snd] in Hc.
    pose proof (IH (i + 4)%nat node' p' Hc) as Hr. by destruct (run_commands _ _ _ _ _ _ _ _ _ cmds _ _) as [[? ?] ?]. }
  specialize (H _ (start_ok file)). destruct (run_commands _ _ _ _ _ _ _ _ _ _ _ _) as [[node' p] evs]. cbn [fst snd] in H.
  destruct H as [Ha Hw]. intros w Hpw. unfold poller_start. rewrite (Hw w Hpw). destruct p as [pw pa f]. cbn in *. by subst.
Qed.
Theorem unreadable_wallet_replaced i entropy node f w :
  load (Some f) = Err WalletFileCorrupt → generate entropy 12 0 = Ok w →
  my_wallet (poller_command show filter client_ip late now error_text sdk_text i entropy GenerateWallet node (poller_start (Some f)).1).1.2
  = Some (save w).
Proof. intros Hf Hw. unfold poller_start. rewrite Hf. cbn [poller_command fst p_wallet]. by rewrite Hw. Qed.
End wallets.

(** The line shown last. *)
Lemma last_log msg app : last (logs (on_event (LogMsg msg) app)) = Some msg.
Proof.
  destruct app as [? ? ? ? lg ? ? ? ?]. unfold on_event, set_logs. cbn [logs].
  destruct (50 <? length (lg ++ [msg]))%nat eqn:E; [|by rewrite last_snoc].
  destruct lg as [|x lg]; [done|]. change (drop 1 ((x :: lg) ++ [msg])) with (lg ++ [msg]). by rewrite last_snoc.
Qed.

(** ** From the keyboard to the pool *)
Section typed.
Context {HA : Hashes} {NC : NodeCodec} {AC : AtomCodec} {CV : CryptoVerifier} {RC : ReactionCodec}
        {RK : Rkyv} {EC : EnvelopeCodec} {CC : CrystalCodec}
        {MC : MessageCodec} {MDec : MessageDecoder} {CLI : ClientCodec} {LC : LengthDelimitedCodec}
        {MD : MlDsa87} {BI : Bip39} {HX : Hex} {WF : WalletFileCodec}.
Context (show : SocketAddr → bytes) (client_ip : bytes) (now : nat → Z) (ck : Clocks)
        (error_text : IngressError → bytes) (shield_text : ShieldError → bytes)
        (cli_text : ClientError → bytes) (sdk_text : SdkError → bytes).
#[local] Instance poller_core : CoreHandle CoreHandleImpl := core_handle ck error_text.
Implicit Types (n : Network CoreHandleImpl) (p : Poller).

Definition told (tx : Transaction) : bytes :=
  bytes_of_string "Tx Broadcasted: Accepted (hash: " ++ debug_hex (take 4 (blake3 (to_bytes tx))) ++ bytes_of_string ")".

(** C13. What a user types is paid: on the empty form of the client, an address, an arrow, an
    amount and Enter put a transfer of that amount to that address, with the account's
    nonce, into the node's mempool when it takes it, and the last line shown says so.  It
    says the same when the node has dropped the transfer of an account without mass. *)
Theorem typed_payment phrase j i w to_hex recipient amount a n p entropy app :
  tab app = Send → is_typing_address app = true → address_input app = [] → amount_input app = [] → no_q to_hex →
  p_wallet p = Some w → from_mnemonic phrase j = Ok w → no_sequence_error error_text →
  state_get_atom (eng_state (engine (net_core n))) (public_key_bytes w) = Some a → is_u64 (mass a) →
  decode_address to_hex = Ok recipient → 0 < amount → amount + PROTOCOL_MIN_FEE ≤ mass a →
  frame_fits (ser_cli (CFetchState (public_key_bytes w))) →
  frame_fits (ser_msg (StateResponse (mass a) (nonce a) (last_reaction_hash a) (element_name (element a)))) →
  (∀ tx, build (now (i + 1)) (payment w recipient amount a) = Ok tx → submission_fits error_text (to_bytes tx)) →
  let keys := typed to_hex ++ [Key Down] ++ typed (decimal amount) ++ [Key Enter] in
  let '(app', queue) := run_app keys app [] in
  let '(node', p', evs) :=
    run_commands show (shield_filter shield_text) client_ip in_time now cli_text sdk_text i entropy queue (Some n) p in
  ∃ tx n', build (now (i + 1)) (payment w recipient amount a) = Ok tx ∧ node' = Some n' ∧ p' = p ∧
    let rx := to_signed_reaction tx in
    let s := net_core n in
    let shown := last (logs (foldl (λ x e, on_event e x) app' evs)) in
    payload rx = Transfer amount ∧ public_key (receiver rx) = recipient ∧ nonce (sender rx) = nonce a ∧
    (known_sender s rx → ∀ mp is_new, push (unix_secs ck) (mempool s) rx = Ok (mp, is_new) →
       mempool (net_core n') = mp ∧ shown = Some (told tx)) ∧
    (¬ known_sender s rx → net_core n' = drop_frame s ∧ shown = Some (told tx)).
Proof.
  intros Ht Hty Ha0 Hm0 Hq Hpw Hw Hseq Hst Hu Hto H0 Hm Hf Hf' Hsub keys.
  assert (Hamt : is_u64 amount) by (unfold is_u64, PROTOCOL_MIN_FEE in *; lia).
  pose proof (typing_sends to_hex amount app [] Ht Hty Ha0 Hm0 Hq Hamt ltac:(unfold CHANNEL; simpl; lia)) as Hrun.
  fold keys in Hrun. destruct (run_app keys app []) as [app' queue]. destruct Hrun as (-> & _).
  change ([] ++ [SendTx to_hex amount]) with [SendTx to_hex amount]. cbn [run_commands poller_command]. rewrite Hpw.
  destruct (payment_reaches_mempool show client_ip now ck error_text shield_text phrase j i w to_hex recipient amount a
    (MkLink n [] true)) as (tx & Hb & H); try done. cbv zeta in H. unfold core in H. cbn [Client.node] in H.
  change (the_core ck error_text) with poller_core in H.
  destruct (send_tx _ _ _ _ _ _ _ _ _ _) as [l' o]. destruct H as (Hp & Hr & Hn & Hunk & Hkn & _).
  exists tx, (Client.node l'). split; [exact Hb|]. split; [done|]. split; [done|]. cbv zeta. rewrite app_nil_r.
  cbn [foldl]. split_and!; try done.
  - intros Hk mp is_new Hpush. destruct (Hkn Hk mp is_new Hpush) as (H1 & _ & ->). split; [exact H1|].
    apply last_log.
  - intros Hk. destruct (Hunk Hk) as (H1 & ->). split; [exact H1|]. apply last_log.
Qed.
End typed.
