(* ===== verification/PollerExamples.v ===== *)
(** The account of [wallet0] pays 5: typed, sent and shown. *)
From S2P Require Import Prelude Floats Types Mpt State Physics Pvm Crystal Chamber Storage Engine Processor Toy.
From S2P Require Import MptExamples ChainExamples Mempool Framing Shield Dht Gossip Noise Ingress IngressFacts Server Crypto.
From S2P Require Import Sdk SdkFacts Client ClientFacts NetExamples ClientExamples Text Tui Poller.
Open Scope Z_scope.

#[local] Existing Instance checksum_hashes.
#[local] Existing Instance toy_codec.
#[local] Existing Instance toy_atom_codec.
#[local] Existing Instance toy_reaction_codec.
#[local] Existing Instance toy_rkyv.
#[local] Existing Instance toy_envelopes.
#[local] Existing Instance toy_length_codec.
#[local] Existing Instance toy_mldsa.
#[local] Existing Instance toy_bip39.
#[local] Existing Instance toy_hex.
#[local] Existing Instance toy_wallet_file.
#[local] Existing Instance toy_crystals.
#[local] Existing Instance wire_messages.
#[local] Existing Instance wire_decoder.
#[local] Existing Instance wire_client.

Definition form : App := set_tab Send (app_new []).
Definition poller0 : Poller := MkPoller (Some wallet0) (Some (address wallet0)) (Some (save wallet0)).
Definition typed_keys : list Input := typed (toy_key 2) ++ [Key Down] ++ typed (decimal 5) ++ [Key Enter].

Lemma no_q_key : no_q (toy_key 2).
Proof.
  unfold no_q, toy_key. constructor; [done|]. apply Forall_replicate. done.
Qed.

Lemma typed_payment_witness :
  let '(app', queue) := run_app typed_keys form [] in
  let '(_, _, evs) :=
    run_commands (S := CoreHandleImpl) (CH := poller_core ck0 no_text) (λ _, []) (shield_filter no_text) [1] in_time clock
      no_text no_text 0 (λ _, []) queue (Some pay_node) poller0 in
  last (logs (foldl (λ x e, on_event e x) app' evs)) = Some (told pay_tx).
Proof.
  assert (P1 : no_sequence_error (no_text (A := IngressError))) by (intros e; vm_compute; reflexivity).
  assert (P2 : state_get_atom (eng_state (engine (net_core pay_node))) (public_key_bytes wallet0) = Some account0)
    by (vm_compute; reflexivity).
  assert (P3 : is_u64 (mass account0)) by (split; vm_compute; discriminate).
  assert (P4 : decode_address (toy_key 2) = Ok (toy_key 2)) by (vm_compute; reflexivity).
  assert (P5 : 5 + PROTOCOL_MIN_FEE ≤ mass account0) by (vm_compute; discriminate).
  assert (P6 : frame_fits (ser_cli (CFetchState (public_key_bytes wallet0)))) by (vm_compute; discriminate).
  assert (P7 : frame_fits (ser_msg (StateResponse (mass account0) (nonce account0) (last_reaction_hash account0)
                 (element_name (element account0))))) by (vm_compute; discriminate).
  assert (P8 : ∀ tx, build (clock (0 + 1)) (payment wallet0 (toy_key 2) 5 account0) = Ok tx →
                 submission_fits no_text (to_bytes tx)).
  { intros tx Hb. change (0 + 1)%nat with 1%nat in Hb. rewrite pay_tx_eq in Hb. injection Hb as <-. exact pay_fits. }
  pose proof (typed_payment (λ _, []) [1] clock ck0 no_text no_text no_text no_text [1; 2] 0 0 wallet0 (toy_key 2) (toy_key 2) 5
    account0 pay_node poller0 (λ _, []) form eq_refl eq_refl eq_refl eq_refl no_q_key eq_refl wallet0_eq P1 P2 P3 P4 eq_refl
    P5 P6 P7 P8) as H.
  cbv zeta in H. fold typed_keys in H. destruct (run_app typed_keys form []) as [app' queue]. revert H.
  generalize (run_commands (S := CoreHandleImpl) (CH := poller_core ck0 no_text) (λ _, []) (shield_filter no_text) [1] in_time clock
      no_text no_text 0 (λ _, []) queue (Some pay_node) poller0).
  intros [[node' p'] evs] (tx & n' & Hb & _ & _ & _ & _ & _ & Hk & _).
  change (0 + 1)%nat with 1%nat in Hb. rewrite pay_tx_eq in Hb. injection Hb as <-.
  pose proof pay_pushed as Hp. change (net_core pay_node) with pay_core in Hk.
  destruct (push (unix_secs ck0) (mempool pay_core) (to_signed_reaction pay_tx)) as [[mp b]|e] eqn:E; [|discriminate Hp].
  refine (proj2 (Hk _ mp b eq_refl)). left. reflexivity.
Defined.
