(* ===== verification/Discovery.v ===== *)
(** Discovery on the local network (primus-net-opt discovery.rs): the beacon of a node and
    what its listener does with a datagram.

    The sockets and the pauses are not modelled; text is ASCII.  The order in which the set
    of known peers is walked for eviction is arbitrary.  The node does not start discovery
    at present: its call in main.rs is commented out. *)
From S2P Require Import Prelude Types Text.
Open Scope Z_scope.

Definition MAX_KNOWN_PEERS : Z := 10000.
Definition EVICT_COUNT : nat := Z.to_nat 1000.
Definition DATAGRAM : nat := 256.
Definition prefix : bytes := bytes_of_string "PRIMUS_PEER:".

(** ** The beacon *)
Definition beacon (my_tcp_port : Z) : bytes := prefix ++ decimal my_tcp_port.
Definition u16_saturating_add (a b : Z) : Z := Z.min 65535 (a + b).
(** The ports it is broadcast to: the common ones and a window from the node's own. *)
Definition beacon_ports (my_tcp_port : Z) : gset Z :=
  list_to_set (seqZ 9000 11) ∪
  list_to_set (seqZ my_tcp_port (u16_saturating_add my_tcp_port 16 - my_tcp_port)).

(** ** The listener *)
Section listener.
Context (show_ip : IpAddr → bytes) (walk : gset bytes → list bytes).
Context (walk_all : ∀ s, walk s ≡ₚ elements s).
Implicit Types known : gset bytes.

Definition peer_port (datagram : bytes) : option Z :=
  strip_prefix prefix (take DATAGRAM datagram) ≫= λ p, parse_u16 (trim_by is_space p).
Definition peer_address (from : IpAddr) (p : Z) : bytes := show_ip from ++ [58] ++ decimal p.
Definition evict known : gset bytes :=
  if MAX_KNOWN_PEERS <=? Z.of_nat (size known) then known ∖ list_to_set (take EVICT_COUNT (walk known)) else known.

(** A datagram: the peers known after it, and the one to connect to. *)
Definition on_datagram (my_tcp_port : Z) (from : IpAddr) (datagram : bytes) known : gset bytes * option bytes :=
  match peer_port datagram with
  | None => (known, None)
  | Some peer_tcp_port =>
      if peer_tcp_port =? my_tcp_port then (known, None)
      else
        let target_addr := peer_address from peer_tcp_port in
        if bool_decide (target_addr ∈ known) then (known, None)
        else ({[target_addr]} ∪ evict known, Some target_addr)
  end.
Fixpoint listen (my_tcp_port : Z) (datagrams : list (IpAddr * bytes)) known : gset bytes * list bytes :=
  match datagrams with
  | [] => (known, [])
  | (from, d) :: rest =>
      let '(known, target) := on_datagram my_tcp_port from d known in
      let '(known, targets) := listen my_tcp_port rest known in
      (known, option_list target ++ targets)
  end.

(** ** Facts *)
Lemma peer_port_beacon p : 0 ≤ p < 65536 → peer_port (beacon p) = Some p.
Proof.
  intros Hp. assert (length (decimal p) ≤ 5)%nat by (apply length_decimal; [lia|change (10 ^ Z.of_nat 5) with 100000; lia]). unfold peer_port, beacon.
  rewrite take_ge by (rewrite length_app; change (length prefix) with 12%nat; unfold DATAGRAM; lia).
  rewrite strip_prefix_app. cbn [mbind option_bind].
  by rewrite trim_by_avoids, parse_u16_decimal by (done || apply decimal_avoids_space).
Qed.

Lemma evict_size known :
  Z.of_nat (size known) ≤ MAX_KNOWN_PEERS → Z.of_nat (size (evict known)) < MAX_KNOWN_PEERS.
Proof using walk_all.
  intros Hs. unfold evict. destruct (Z.leb_spec MAX_KNOWN_PEERS (Z.of_nat (size known))); [|lia].
  pose proof (walk_all known) as Hw.
  assert (Hnd : NoDup (take EVICT_COUNT (walk known))).
  { apply (sublist_NoDup _ (walk known)); [|apply sublist_take]. rewrite Hw. apply NoDup_elements. }
  assert (Hsub : list_to_set (take EVICT_COUNT (walk known)) ⊆ known).
  { intros x Hx%elem_of_list_to_set. apply elem_of_elements. rewrite <-Hw.
    rewrite <-(take_drop EVICT_COUNT (walk known)). apply elem_of_app. by left. }
  rewrite size_difference by done. rewrite size_list_to_set by done. rewrite length_take, Hw.
  change (length (elements known)) with (size known). unfold EVICT_COUNT, MAX_KNOWN_PEERS in *. lia.
Qed.

(** The listener knows at most ten thousand peers, whatever is sent to it. *)
Theorem known_bounded my_tcp_port datagrams known :
  Z.of_nat (size known) ≤ MAX_KNOWN_PEERS → Z.of_nat (size (listen my_tcp_port datagrams known).1) ≤ MAX_KNOWN_PEERS.
Proof using walk_all.
  revert known; induction datagrams as [|[from d] rest IH]; intros known Hs; [done|]. cbn [listen].
  assert (Hone : Z.of_nat (size (on_datagram my_tcp_port from d known).1) ≤ MAX_KNOWN_PEERS).
  { unfold on_datagram. destruct (peer_port d); [|done]. destruct (_ =? _); [done|]. case_bool_decide; [done|].
    cbn [fst]. pose proof (evict_size known Hs). rewrite size_union_alt, size_singleton.
    pose proof (subseteq_size (evict known ∖ {[peer_address from z]}) (evict known) ltac:(set_solver)). lia. }
  destruct (on_datagram _ _ _ _) as [known1 target]. specialize (IH known1 Hone).
  by destruct (listen _ _ known1).
Qed.

(** A beacon is understood: the first one of a node on another port makes the listener
    connect to the node's address, the next ones do nothing until the address is evicted;
    a beacon from a node on the same port is taken for the listener's own, whatever host it
    comes from, so that two hosts on the default port never find each other. *)
Theorem beacon_heard mine p from known :
  0 ≤ p < 65536 →
  let target := peer_address from p in
  on_datagram mine from (beacon p) known =
    if p =? mine then (known, None)
    else if bool_decide (target ∈ known) then (known, None) else ({[target]} ∪ evict known, Some target).
Proof. intros Hp. cbv zeta. unfold on_datagram. by rewrite peer_port_beacon. Qed.

Theorem same_port_never_found mine datagrams known :
  Forall (λ d, d.2 = beacon mine) datagrams → 0 ≤ mine < 65536 → listen mine datagrams known = (known, []).
Proof.
  intros Hd Hm. induction Hd as [|[from d] rest Hb _ IH]; [done|]. change (d = beacon mine) in Hb. subst d. cbn [listen].
  rewrite beacon_heard, Z.eqb_refl by done. by rewrite IH.
Qed.
End listener.
