(* ===== verification/Console.v ===== *)
(** The console of the node (primus-core main.rs): the commands typed into the running node,
    with what each prints and what it changes.

    What is printed is a value per command, not its text.  The connection that `connect`
    spawns is made at once; whether the address is reachable is an argument. *)
From S2P Require Import Prelude Text Setup.
From S2P Require Import Floats Types Mpt State Physics Pvm Crystal Chamber Storage Engine Processor Mining Mempool.
From S2P Require Import Framing Shield Dht Gossip Ingress Crypto Sdk Node.
Open Scope Z_scope.

Record AtomLine := MkAtomLine { al_mass : Z; al_element : Element; al_nonce : Z }.
Inductive ConsoleOutput :=
| BadAccount (e : SdkError)
| AtomIs (address : bytes) (a : AtomLine)
| AtomMissing (address : bytes) (others : list (bytes * Z * Element))
| OwnBalances (architect operator : option AtomLine)
| RootIs (height : Z) (root : bytes)
| Snapshot (height : Z) (atom_count : nat) (en temp difficulty : f32) (syncing legacy : bool)
| StatusIs (height : Z) (atom_count : nat) (temp en : f32)
| PeersAre (peers : list bytes)
| ReadFailed
| ConnectUsage
| InvalidPeer (a : bytes)
| Connected (a : bytes)
| ConnectionFailed (a : bytes)
| Outcome (o : ConsoleOutcome)
| HelpText
| UnknownCommand (c : bytes)
| NoOutput.

Inductive ConsoleCommand :=
| CmdBalance
| CmdRoot
| CmdInspect
| CmdStatus
| CmdPeers
| CmdConnect
| CmdSend
| CmdInject
| CmdHelp
| CmdOther
| CmdEmpty.

Definition starts_with (p l : bytes) : bool := bool_decide (take (length p) l = p).
(** The arms of the match, in order. *)
Definition command_of (cmd : bytes) : ConsoleCommand :=
  let exactly s := bool_decide (cmd = bytes_of_string s) in
  let begins s := starts_with (bytes_of_string s) cmd in
  if exactly "balance" || begins "balance " then CmdBalance
  else if exactly "root" then CmdRoot
  else if exactly "inspect" then CmdInspect
  else if exactly "status" then CmdStatus
  else if exactly "peers" then CmdPeers
  else if exactly "connect" || begins "connect " then CmdConnect
  else if begins "send " then CmdSend
  else if exactly "inject" then CmdInject
  else if exactly "help" then CmdHelp
  else if bool_decide (cmd = []) then CmdEmpty
  else CmdOther.

Definition atom_line (a : Atom) : AtomLine := MkAtomLine (mass a) (element a) (nonce a).

Section console.
Context {HA : Hashes} {NC : NodeCodec} {AC : AtomCodec} {CV : CryptoVerifier} {RC : ReactionCodec}
        {RK : Rkyv} {EC : EnvelopeCodec} {CC : CrystalCodec} {MD : MlDsa87} {HX : Hex} {AT : AddrText}.
Context (show : Types.SocketAddr → bytes) (ck : Clocks) (error_text : IngressError → bytes).
#[local] Instance console_core : CoreHandle CoreHandleImpl := core_handle ck error_text.
(** The wallets, the Architect's key, the result of reading the old key file where the node
    runs on it, and the atoms in the order of the hash map. *)
Context (wallet operator : Wallet) (architect_pk : bytes) (legacy : option (result ArchitectKeys KeyError)).
Implicit Types (n : Network CoreHandleImpl).

Definition core_engine n : PrimusEngine := engine (net_core n).
Definition find_atom n (pk : bytes) : option Atom := state_get_atom (eng_state (core_engine n)) pk.

Definition console_balance (cmd : bytes) n : ConsoleOutput :=
  match words [] cmd with
  | _ :: hex :: _ =>
      match decode_address hex with
      | Err e => BadAccount e
      | Ok pk =>
          match find_atom n pk with
          | Some a => AtomIs hex (atom_line a)
          | None =>
              AtomMissing hex
                ((λ '(pk, a), (pk, mass a, element a)) <$>
                   base.filter (λ p, 0 < mass p.2) (map_to_list (atoms (eng_state (core_engine n)))))
          end
      end
  | _ => OwnBalances (atom_line <$> find_atom n architect_pk) (atom_line <$> find_atom n (get_public_key_bytes operator))
  end.
Definition console_root n : ConsoleOutput :=
  RootIs (current_crystal_index (eng_state (core_engine n))) (current_root (storage (core_engine n))).
Definition console_inspect n : ConsoleOutput :=
  let e := core_engine n in
  Snapshot (current_crystal_index (eng_state e)) (size (atoms (eng_state e))) (entropy (global_metrics (eng_state e)))
    (ch_temperature (chamber e)) (epoch_difficulty e) (is_syncing e) (bool_decide (is_Some legacy)).
Definition console_status n : ConsoleOutput :=
  let e := core_engine n in
  StatusIs (current_crystal_index (eng_state e)) (size (atoms (eng_state e))) (ch_temperature (chamber e))
    (ch_entropy (chamber e)).
Definition console_peers n : ConsoleOutput := PeersAre (get_peer_list show (net_dht n)).

(** With no address on the line, the next line is it; the lines left are returned. *)
Definition connect_address (cmd : bytes) (lines : list bytes) : option bytes * list bytes :=
  match words [] cmd with
  | _ :: a :: _ => (Some a, lines)
  | _ => match lines with [] => (None, []) | l :: lines => (Some (trim_by is_space l), lines) end
  end.
Definition console_connect (reachable : bytes → bool) (cmd : bytes) (lines : list bytes) n
    : Network CoreHandleImpl * ConsoleOutput * list bytes :=
  match connect_address cmd lines with
  | (None, lines) => (n, ReadFailed, lines)
  | (Some a, lines) =>
      if bool_decide (a = []) then (n, ConnectUsage, lines)
      else
        match sock_parse a with
        | None => (n, InvalidPeer a, lines)
        | Some _ =>
            match connect_to_peer show (reachable a) a n with
            | (n, Some _) => (n, Connected a, lines)
            | (n, None) => (n, ConnectionFailed a, lines)
            end
        end
  end.

Definition on_core (f : CoreHandleImpl → CoreHandleImpl * ConsoleOutcome) n : Network CoreHandleImpl * ConsoleOutput :=
  let '(s, o) := f (net_core n) in (Gossip.set_core s n, Outcome o).

(** One line and what it reads besides. *)
Definition console_step (reachable : bytes → bool) (now : Z) (line : bytes) (lines : list bytes) n
    : Network CoreHandleImpl * ConsoleOutput * list bytes :=
  let cmd := trim_by is_space line in
  match command_of cmd with
  | CmdBalance => (n, console_balance cmd n, lines)
  | CmdRoot => (n, console_root n, lines)
  | CmdInspect => (n, console_inspect n, lines)
  | CmdStatus => (n, console_status n, lines)
  | CmdPeers => (n, console_peers n, lines)
  | CmdConnect => console_connect reachable cmd lines n
  | CmdSend => let '(n, o) := on_core (console_send now wallet legacy architect_pk cmd) n in (n, o, lines)
  | CmdInject => let '(n, o) := on_core (console_inject architect_pk now) n in (n, o, lines)
  | CmdHelp => (n, HelpText, lines)
  | CmdOther => (n, UnknownCommand cmd, lines)
  | CmdEmpty => (n, NoOutput, lines)
  end.
(** The loop, over the lines typed; [now i] is the time at the ith command. *)
Fixpoint console_loop (fuel : nat) (reachable : bytes → bool) (now : nat → Z) (i : nat) (lines : list bytes) n
    : option (Network CoreHandleImpl * list ConsoleOutput) :=
  match fuel, lines with
  | _, [] => Some (n, [])
  | O, _ => None
  | Datatypes.S fuel, line :: lines =>
      let '(n, o, lines) := console_step reachable (now i) line lines n in
      '(n, os) ← console_loop fuel reachable now (i + 1) lines n;
      Some (n, o :: os)
  end.

(** ** Facts *)
Definition pool_only n n' : Prop :=
  engine (net_core n') = engine (net_core n) ∧ network (net_core n') = network (net_core n) ∧
  chunk_reassembler (net_core n') = chunk_reassembler (net_core n).
Lemma pool_only_refl n : pool_only n n.
Proof. done. Qed.
Lemma pool_only_trans n1 n2 n3 : pool_only n1 n2 → pool_only n2 n3 → pool_only n1 n3.
Proof. unfold pool_only. intros (-> & -> & ->). done. Qed.

Lemma queue_pool now rx s : 
  let s' := (queue_reaction now rx s).1 in
  engine s' = engine s ∧ network s' = network s ∧ chunk_reassembler s' = chunk_reassembler s.
Proof. unfold queue_reaction. by destruct (push now (mempool s) rx) as [[mp []]|e]. Qed.
Lemma send_pool now cmd s :
  let s' := (console_send now wallet legacy architect_pk cmd s).1 in
  engine s' = engine s ∧ network s' = network s ∧ chunk_reassembler s' = chunk_reassembler s.
Proof.
  cbv zeta. unfold console_send. destruct (plan_send _ _ _ _ _ _); [apply queue_pool|done].
Qed.
Lemma connect_core reachable a n : net_core (connect_to_peer show reachable a n).1 = net_core n.
Proof.
  unfold connect_to_peer. destruct (ends_with _ _); [done|]. case_bool_decide; [done|]. destruct (negb reachable); [done|].
  cbn [net_core set_dht]. by destruct (local_state _) as [[h en] cum].
Qed.

Definition changes_state (line : bytes) : bool :=
  match command_of (trim_by is_space line) with CmdConnect | CmdSend | CmdInject => true | _ => false end.

Lemma console_step_spec reachable now line lines n :
  let '(n', _, lines') := console_step reachable now line lines n in
  pool_only n n' ∧ (∃ used, lines = used ++ lines') ∧ (changes_state line = false → n' = n ∧ lines' = lines).
Proof.
  unfold console_step, changes_state. destruct (command_of _); try (split; [done|split; [by exists []|done]]).
  - unfold console_connect. destruct (connect_address _ lines) as [[a|] lines'] eqn:Ea.
    + assert (Hu : ∃ used, lines = used ++ lines').
      { unfold connect_address in Ea. destruct (words _ _) as [|? [|? ?]]; [..|injection Ea as _ <-; by exists []];
          (destruct lines as [|line0 lines]; [done|]; injection Ea as _ <-; by exists [line0]). }
      case_bool_decide; [split; [done|by split]|]. destruct (sock_parse a); [|split; [done|by split]].
      pose proof (connect_core (reachable a) a n) as Hc. destruct (connect_to_peer _ _ _ _) as [n' [out|]]; cbn [fst] in Hc;
        (split; [unfold pool_only; by rewrite Hc|by split]).
    + assert (Hu : ∃ used, lines = used ++ lines').
      { unfold connect_address in Ea. destruct (words _ _) as [|? [|? ?]]; [..|done]; (destruct lines; [|done]; injection Ea as <-; by exists []). }
      split; [done|by split].
  - unfold on_core. pose proof (send_pool now (trim_by is_space line) (net_core n)) as H.
    destruct (console_send _ _ _ _ _ _) as [s o]. split; [exact H|]. split; [by exists []|done].
  - unfold on_core, console_inject. pose proof (queue_pool now (injected architect_pk now) (net_core n)) as H.
    destruct (queue_reaction _ _ _) as [s o]. split; [exact H|]. split; [by exists []|done].
Qed.

(** The console answers every line it is given, and never touches the engine: a session can
    put reactions into the pool of its own node and addresses into its table, but it
    changes no state or storage, mines nothing and announces nothing; without `send`,
    `inject` and `connect` it changes nothing at all. *)
Theorem console_session reachable now i lines n fuel :
  (length lines ≤ fuel)%nat →
  ∃ n' os, console_loop fuel reachable now i lines n = Some (n', os) ∧ pool_only n n' ∧
    (forallb (λ l, negb (changes_state l)) lines = true → n' = n ∧ length os = length lines).
Proof.
  revert i lines n. induction fuel as [|fuel IH]; intros i lines n Hf.
  - destruct lines; [|simpl in Hf; lia]. by exists n, [].
  - destruct lines as [|line lines]; [by exists n, []|]. cbn [console_loop].
    pose proof (console_step_spec reachable (now i) line lines n) as H.
    destruct (console_step _ _ _ _ _) as [[n1 o] lines'] eqn:E. destruct H as (Hp & [used Hu] & Hro).
    destruct (IH (i + 1)%nat lines' n1) as (n2 & os & Hl & Hp2 & Hro2).
    { apply (f_equal length) in Hu. rewrite length_app in Hu. simpl in Hf. lia. }
    rewrite Hl. cbn [mbind option_bind]. exists n2, (o :: os). split; [done|]. split; [by eapply pool_only_trans|].
    cbn [forallb]. intros [Hc Hall]%andb_true_iff. apply negb_true_iff in Hc. destruct (Hro Hc) as [-> ->].
    destruct (Hro2 Hall) as [-> Hlen]. split; [done|]. cbn [length]. by rewrite Hlen.
Qed.
End console.
