(* ===== verification/Boot.v ===== *)
(** The start of the node (primus-core main.rs): the identities of the Architect and of the
    operator, the engine and the pool on their disk, the node's record and its first peers.

    The files, the line typed, the generator of entropy, the clock and the address that
    UPnP gives are arguments.  Listeners, servers and background tasks are started
    afterwards (Node, Server, Connection, Ipc, Gossip). *)
From S2P Require Import Prelude Text Setup.
From S2P Require Import Floats Types Mpt MptTree MptFacts State Physics Pvm Crystal Chamber Storage.
From S2P Require Import Engine Processor ProcessorFacts Mining Mempool Framing Shield Dht Gossip Ingress.
From S2P Require Import Crypto Sdk SdkFacts Node NodeFacts Noise Handshake Server Kademlia KadRpc Connection Discovery.
Open Scope Z_scope.

Record KeyFiles := MkKeyFiles {
  wallet_file : option bytes;
  legacy_key_file : option bytes;
  operator_file : option bytes;
}.
Record Args := MkArgs { my_port : Z; quic_port : option Z; peer : option bytes }.

Inductive BootError :=
| MasterWalletCorrupt (e : SdkError)
| MasterKeyCorrupt (e : KeyError)
| PlaceholderFailed (e : SdkError)
| KeygenFailed (e : SdkError)
| MnemonicInvalid (e : SdkError)
| OperatorCorrupt (e : SdkError)
| OperatorMissing
| EngineFailed (e : StorageError).

Definition or_fail {A E} (f : E → BootError) (r : result A E) : result A BootError :=
  match r with Ok a => Ok a | Err e => Err (f e) end.

(** ** Identities *)
Record Architect := MkArchitect {
  architect_wallet : Wallet;
  architect_pk : bytes;
  architect_sk : bytes;
  legacy_mode : bool;
}.

Section identity.
Context {HA : Hashes} {MD : MlDsa87} {BI : Bip39} {HX : Hex} {WF : WalletFileCodec} {KF : KeyFileCodec}.

Definition with_wallet (w : Wallet) : Architect :=
  MkArchitect w (get_public_key_bytes w) (get_secret_key_bytes w) false.

(** The wallet's file; else the old key's, with a wallet made for the occasion; else a new
    wallet, from the phrase typed or from entropy, which is saved. *)
Definition architect_identity (entropy : nat → bytes) (line : bytes) (files : KeyFiles)
    : result (Architect * KeyFiles) BootError :=
  match wallet_file files, legacy_key_file files with
  | Some f, _ =>
      let? w := or_fail MasterWalletCorrupt (load (Some f)) in Ok (with_wallet w, files)
  | None, Some f =>
      let? keys := or_fail MasterKeyCorrupt (load_master_key (Some f)) in
      let? placeholder := or_fail PlaceholderFailed (generate entropy 12 0) in
      Ok (MkArchitect placeholder (ak_pk keys) (ak_sk keys) true, files)
  | None, None =>
      let phrase_input := trim_by is_space line in
      let? w := if bool_decide (phrase_input = []) then or_fail KeygenFailed (generate entropy 24 0)
                else or_fail MnemonicInvalid (from_mnemonic phrase_input 0) in
      Ok (with_wallet w, MkKeyFiles (Some (save w)) None (operator_file files))
  end.

Definition operator_identity (files : KeyFiles) : result Wallet BootError :=
  match operator_file files with
  | None => Err OperatorMissing
  | Some f => or_fail OperatorCorrupt (load (Some f))
  end.

(** ** Addresses *)
Definition effective_quic_port (args : Args) : Z := default (u16_saturating_add (my_port args) 10000) (quic_port args).
Definition local_addr (external_ip : option IpAddr) (args : Args) : SocketAddr :=
  MkSocketAddr (default (V4 0) external_ip) (effective_quic_port args).
Definition architect_record (a : Architect) (external_ip : option IpAddr) (timestamp : Z) (args : Args) : PrimusNR :=
  local_record (architect_wallet a) (architect_pk a) (local_addr external_ip args) timestamp.
(** The party of the node in a handshake. *)
Definition boot_party (a : Architect) (nr : PrimusNR) (eph : bytes) : Party := server_party eph nr (architect_sk a).

Definition bootstrap_peers `{AddrText} (args : Args) (config : NodeConfig) : list bytes :=
  option_list (peer args) ++ (sock_to_string <$> seed_peers config).
End identity.

(** ** The node *)
Section boot.
Context {HA : Hashes} {NC : NodeCodec} {AC : AtomCodec} {CV : CryptoVerifier} {RC : ReactionCodec}.
Context {MD : MlDsa87} {BI : Bip39} {HX : Hex} {WF : WalletFileCodec} {KF : KeyFileCodec} {AT : AddrText}.
Implicit Types (e : PrimusEngine) (a : Architect).

(** What the node finds on its disk: the database, the nodes of the trie, the log of their
    collection, the sectors of the pool and the file of the genesis. *)
Record Disk := MkDisk {
  disk_db : Db;
  disk_nodes : SledMptStore;
  disk_log : gmap Z bytes;
  disk_sectors : Z → Sector;
  genesis_file : bytes;
}.
Definition boot_engine (disk : Disk) (pk : bytes) : result PrimusEngine BootError :=
  let '(e, r) := processor_new (genesis_file disk) (disk_db disk) (disk_nodes disk) (disk_log disk) pk in
  let? _ := or_fail EngineFailed r in
  let '(e, r) := try_auto_genesis (genesis_file disk) e in
  let? _ := or_fail EngineFailed r in
  Ok e.

Record Booted := MkBooted {
  bt_architect : Architect;
  bt_operator : Wallet;
  bt_files : KeyFiles;
  bt_nr : PrimusNR;
  bt_core : CoreHandleImpl;
  bt_dht : PrimusDHT;
  bt_peers : list bytes;
}.
Definition boot (args : Args) (config : NodeConfig) (entropy : nat → bytes) (line : bytes) (files : KeyFiles)
    (external_ip : option IpAddr) (disk : Disk) (timestamp : Z) : result Booted BootError :=
  let? (a, files) := architect_identity entropy line files in
  let? operator := operator_identity files in
  let? e := boot_engine disk (architect_pk a) in
  let mp := mempool_new (disk_sectors disk) in
  let nr := architect_record a external_ip timestamp args in
  let core := core_new e mp in
  (* once the network is up, [set_network] *)
  let core := MkCore (engine core) (mempool core) (Ingress.frame_drops core) (Some []) (chunk_reassembler core) in
  Ok (MkBooted a operator files nr core (dht_new nr) (bootstrap_peers args config)).
End boot.

(** ** Facts *)
Section identity_facts.
Context {HA : Hashes} {MD : MlDsa87} {BI : Bip39} {HX : Hex} {WF : WalletFileCodec} {KF : KeyFileCodec}.
Implicit Types (a : Architect) (w : Wallet).

Lemma or_fail_Ok {A E} (f : E → BootError) (r : result A E) x : or_fail f r = Ok x → r = Ok x.
Proof. by destruct r; intros [=]; subst. Qed.

(** An identity from a wallet: the file that is left holds the wallet. *)
Lemma identity_wallet entropy line files a files' :
  architect_identity entropy line files = Ok (a, files') → legacy_mode a = false →
  ∃ w phrase i f, from_mnemonic phrase i = Ok w ∧ a = with_wallet w ∧ wallet_file files' = Some f ∧ load (Some f) = Ok w.
Proof.
  unfold architect_identity. intros H Hl. destruct (wallet_file files) as [f|] eqn:Hf.
  - destruct (or_fail _ _) as [w|] eqn:E; [|done]. apply or_fail_Ok in E. injection H as <- <-.
    destruct (load_from_mnemonic _ _ E) as (phrase & i & Hw). by exists w, phrase, i, f.
  - destruct (legacy_key_file files) as [k|].
    + destruct (or_fail _ (load_master_key _)) as [keys|]; [|done]. cbn [rbind] in H.
      destruct (or_fail _ (generate _ _ _)) as [p|]; [|done]. by injection H as <- <-.
    + destruct (if bool_decide _ then _ else _) as [w|] eqn:E; [|done]. injection H as <- <-.
      assert (Hw : ∃ phrase i, from_mnemonic phrase i = Ok w).
      { case_bool_decide; apply or_fail_Ok in E; [|by eexists _, _]. unfold generate in E. cbn [Z.eqb Pos.eqb rbind] in E.
        by eexists _, _. }
      destruct Hw as (phrase & i & Hw). exists w, phrase, i, (save w).
      destruct (wallet_roundtrip phrase i w Hw) as (Hload & _). done.
Qed.

(** Restarted with the files it has left, a node has the same Architect, whatever is typed. *)
Lemma identity_again entropy line files a files' entropy' line' :
  architect_identity entropy line files = Ok (a, files') → legacy_mode a = false →
  architect_identity entropy' line' files' = Ok (a, files').
Proof.
  intros H Hl. destruct (identity_wallet _ _ _ _ _ H Hl) as (w & phrase & i & f & _ & -> & Hf & Hload).
  unfold architect_identity. by rewrite Hf, Hload.
Qed.

Lemma wallet_key w phrase i :
  from_mnemonic phrase i = Ok w →
  ∃ xi, get_secret_key_bytes w = (key_gen_internal xi).2 ∧ public_key_bytes w = (key_gen_internal xi).1.
Proof.
  intros H. destruct (from_mnemonic_Ok _ _ _ H) as (_ & _ & _ & Hp & _). unfold get_secret_key_bytes. rewrite Hp.
  unfold keypair_from_seed. exists (Crypto.fill (rng_new (key_seed w)) 32).1. by destruct (key_gen_internal _).
Qed.

(** Such a node is honest: it completes handshakes (Handshake, Connection). *)
Lemma booted_honest entropy line files a files' external_ip timestamp args eph :
  architect_identity entropy line files = Ok (a, files') → legacy_mode a = false →
  honest (boot_party a (architect_record a external_ip timestamp args) eph).
Proof.
  intros H Hl. destruct (identity_wallet _ _ _ _ _ H Hl) as (w & phrase & i & f & Hw & -> & _).
  destruct (wallet_key w phrase i Hw) as (xi & Hs & Hp). exists xi. split_and!; [exact Hs|exact Hp|].
  exact (proj1 (own_record_verifies phrase i w _ timestamp Hw)).
Qed.

(** With the old key file the record is signed by another key: where that signature does
    not verify, everybody refuses the node's handshake. *)
Theorem legacy_node_refused `{HandshakeCodec} a external_ip timestamp args eph own_e :
  let nr := architect_record a external_ip timestamp args in
  mldsa_verify (architect_pk a) (record_payload (architect_pk a) (local_addr external_ip args) timestamp)
    (wallet_sign (architect_wallet a) (record_payload (architect_pk a) (local_addr external_ip args) timestamp)) = false →
  check_payload own_e (own_payload (boot_party a nr eph) own_e) = Err RecordInvalid.
Proof.
  cbv zeta. intros Hv. unfold check_payload, own_payload. rewrite de_ser_payload. cbn [ok_or rbind hp_nr].
  assert (Hn : nr_verify mldsa_verify (local_nr (boot_party a (architect_record a external_ip timestamp args) eph)) = false).
  { unfold nr_verify. unfold record_payload, ip_value in Hv.
    cbn [boot_party server_party local_nr architect_record local_record from_socket_addr nr_public_key nr_signature addr_ip
      addr_port nr_timestamp local_addr ip port] in *.
    unfold architect_record, local_record, record_payload, ip_value, from_socket_addr.
    cbn [nr_public_key nr_signature addr_ip addr_port nr_timestamp local_addr ip port].
    destruct (_ =? PK_BYTES); [|done]. by destruct (_ =? SIG_BYTES). }
  by rewrite Hn.
Qed.

(** Nodes with high ports all have the last port for QUIC, which leaves none after it for
    WebTransport. *)
Theorem high_ports_collide args :
  quic_port args = None → 55535 ≤ my_port args → effective_quic_port args = 65535.
Proof. intros Hq Hp. unfold effective_quic_port, u16_saturating_add. rewrite Hq. cbn [default]. lia. Qed.
End identity_facts.

Section boot_facts.
Context {HA : Hashes} {NC : NodeCodec} {AC : AtomCodec} {CV : CryptoVerifier} {RC : ReactionCodec}.
Context {MD : MlDsa87} {BI : Bip39} {HX : Hex} {WF : WalletFileCodec} {KF : KeyFileCodec} {AT : AddrText}.
Implicit Types (e : PrimusEngine) (a : Architect).

(** The second attempt at a genesis finds the atoms of the first. *)
Lemma boot_engine_once disk pk e :
  processor_new (genesis_file disk) (disk_db disk) (disk_nodes disk) (disk_log disk) pk = (e, Ok tt) →
  atoms (eng_state e) ≠ ∅ → boot_engine disk pk = Ok e.
Proof.
  intros H Hne. unfold boot_engine. rewrite H. cbn [or_fail rbind]. unfold try_auto_genesis.
  rewrite bool_decide_false by done. done.
Qed.

(** What a node leaves on its disk: its database, and the sectors of its pool. *)
Definition disk_of (mp : SectoralMempool) (content : bytes) e : Disk :=
  let st := storage e in MkDisk (db st) (store (mpt st)) (gc_log st) (sectors_on_disk mp) content.

Context (G : MptNode → Prop) (K : bytes → Prop).

(** C18. A node whose memory, disk and trie agree, which has atoms and whose Architect has a
    wallet (and not the old key file), is stopped and started again with the disk and the
    files it has left: it is the same node, whatever is typed, whatever entropy, arguments and
    configuration it gets.  Its Architect, its storage and its state are the same; its pool,
    which it had opened on any disk [opened] and on which it had made any calls [ops], holds
    the same reactions; and the record it announces is one that other nodes accept in a
    handshake. *)
Theorem reboot t e entropy line files0 a files operator opened ops mp accepted drained content :
  node_ok G K t e → atoms (eng_state e) ≠ ∅ → (∀ pk, K pk → pk ≠ []) →
  architect_identity entropy line files0 = Ok (a, files) → legacy_mode a = false →
  operator_identity files = Ok operator →
  run_ops ops (mempool_new opened) = (mp, accepted, drained) →
  ∀ args config entropy' line' external_ip timestamp, ∃ b,
    boot args config entropy' line' files external_ip (disk_of mp content e) timestamp = Ok b ∧
    bt_architect b = a ∧ bt_files b = files ∧
    storage (engine (bt_core b)) = storage e ∧ eng_state (engine (bt_core b)) = eng_state e ∧
    eng_architect_pk (engine (bt_core b)) = architect_pk a ∧
    mempool (bt_core b) = mp ∧
    ∀ eph, honest (boot_party a (bt_nr b) eph).
Proof.
  intros Hok Hne HK Hid Hl Hop Hpool args config entropy' line' external_ip timestamp.
  destruct (restart_inv G K t e content (architect_pk a) Hok Hne HK) as (e' & Hnew & Hst & Hs & Hpk).
  assert (He : boot_engine (disk_of mp content e) (architect_pk a) = Ok e').
  { apply boot_engine_once; [exact Hnew|]. by rewrite Hs. }
  unfold boot. rewrite (identity_again entropy line files0 a files entropy' line' Hid Hl). cbn [rbind].
  rewrite Hop. cbn [rbind]. rewrite He. cbn [rbind]. eexists. split; [reflexivity|].
  split_and!; [done..|apply reopen_pool, (run_ops_whole _ _ _ _ _ (pool_whole_new opened) Hpool)|].
  intros eph. by eapply booted_honest.
Qed.
End boot_facts.
