(* ===== verification/Launch.v ===== *)
(** From the identities to the open ports (primus-net-opt nat.rs, server.rs new, primus-core
    main.rs): the mapping of ports by UPnP, the binding of the server, and their order.

    The gateway, the interfaces of the machine and the makers of certificates are arguments:
    which requests the gateway accepts, and which addresses can be bound. *)
From S2P Require Import Prelude Text Setup.
From S2P Require Import Floats Types Mpt State Physics Pvm Crystal Chamber Storage Engine Processor.
From S2P Require Import Mempool Framing Dht Gossip Ingress Crypto Sdk Node Noise Handshake Server KadRpc Connection Discovery Boot.
Open Scope Z_scope.

(** ** UPnP *)
Inductive PortMappingProtocol := TCP | UDP.
#[export] Instance protocol_eq_dec : EqDecision PortMappingProtocol.
Proof. solve_decision. Defined.
Record Mapping := MkMapping { protocol : PortMappingProtocol; external_port : Z; target : SocketAddr }.

(** The gateway found: what it accepts, and the address it has outside. *)
Record Gateway := MkGateway {
  add_port : Mapping → bool;
  get_external_ip : option IpAddr;
}.
Inductive NatError := DiscoveryFailed | NoLocalIp | Ipv6Unsupported | TcpMappingFailed | UdpMappingFailed | NoExternalIp.

(** The mappings that are left, and the external address. *)
Definition open_world (gateway : option Gateway) (local_ip : option IpAddr) (p : Z) : list Mapping * result IpAddr NatError :=
  match gateway with
  | None => ([], Err DiscoveryFailed)
  | Some g =>
      match local_ip with
      | None => ([], Err NoLocalIp)
      | Some (V6 _) => ([], Err Ipv6Unsupported)
      | Some (V4 a) =>
          let local_addr := MkSocketAddr (V4 a) p in
          let tcp := MkMapping TCP p local_addr in
          if negb (add_port g tcp) then ([], Err TcpMappingFailed)
          else
            let udp := MkMapping UDP p local_addr in
            if negb (add_port g udp) then ([tcp], Err UdpMappingFailed)
            else ([tcp; udp], ok_or (get_external_ip g) NoExternalIp)
      end
  end.

(** ** The server *)
Inductive BindError := CertificateFailed | ConfigFailed | QuicBindFailed.
Record Machine := MkMachine {
  certified : bytes → bool;
  accepts_config : bool;
  bindable : SocketAddr → bool;
  web_identity : bytes → bool;
}.
(** The server without sessions, its static key, and the address of WebTransport, if that
    can be bound; the sum of ports wraps in a release build. *)
Record NewServer (S : Type) := MkNewServer {
  ns_server : Server S;
  ns_noise_static : bytes;
  ns_web : option SocketAddr;
}.
Arguments MkNewServer {S}.
Arguments ns_server {S}.
Arguments ns_noise_static {S}.
Arguments ns_web {S}.
Definition server_new `{Hashes} {S} (m : Machine) (a : SocketAddr) (mempool : S) (ml_dsa_sk tls_domain : bytes)
    : result (NewServer S) BindError :=
  guard? certified m tls_domain else CertificateFailed;
  guard? accepts_config m else ConfigFailed;
  guard? bindable m a else QuicBindFailed;
  let wt_addr := MkSocketAddr (ip a) ((port a + 1) mod 2 ^ 16) in
  Ok (MkNewServer (MkServer ∅ 0 mempool []) (sha3_256 ml_dsa_sk)
        (if web_identity m tls_domain && bindable m wt_addr then Some wt_addr else None)).

(** ** The start, with the effects on the gateway *)
Inductive LaunchError := NotBooted (e : BootError) | NotBound (e : BindError).

Section launch.
Context {HA : Hashes} {NC : NodeCodec} {AC : AtomCodec} {CV : CryptoVerifier} {RC : ReactionCodec}.
Context {MD : MlDsa87} {BI : Bip39} {HX : Hex} {WF : WalletFileCodec} {KF : KeyFileCodec} {AT : AddrText}.

Definition launch (args : Args) (config : NodeConfig) (entropy : nat → bytes) (line : bytes) (files : KeyFiles)
    (gateway : option Gateway) (local_ip : option IpAddr) (m : Machine) (disk : Disk) (timestamp : Z)
    : list Mapping * result (Booted * NewServer CoreHandleImpl) LaunchError :=
  match (let? (a, files) := architect_identity entropy line files in
         let? _ := operator_identity files in Ok a) with
  | Err e => ([], Err (NotBooted e))
  | Ok a =>
      let (mappings, external) := open_world gateway local_ip (my_port args) in
      let external_ip := match external with Ok ip => Some ip | Err _ => None end in
      (mappings,
       match boot args config entropy line files external_ip disk timestamp with
       | Err e => Err (NotBooted e)
       | Ok b =>
           match server_new m (local_addr external_ip args) (bt_core b) (architect_sk a)
                   (default localhost (tls_domain config)) with
           | Err e => Err (NotBound e)
           | Ok server => Ok (b, server)
           end
       end)
  end.
End launch.

(** ** Facts *)
(** The engine that looks up peers and the server that listens present one Noise key. *)
Lemma same_noise_key `{Hashes} {S} (m : Machine) (a : SocketAddr) (mp : S) nr sk domain server :
  server_new m a mp sk domain = Ok server →
  ns_noise_static server = ke_noise_static (kademlia_engine_new nr sk domain) ∧
  rpc_noise_static (ke_rpc (kademlia_engine_new nr sk domain)) = ns_noise_static server.
Proof. unfold server_new. intros Hn. inv_ok Hn. by split. Qed.
Lemma open_world_ports gateway local_ip p mp :
  mp ∈ (open_world gateway local_ip p).1 → external_port mp = p ∧ port (target mp) = p.
Proof.
  destruct gateway as [g|]; [|by intros H%elem_of_nil]. destruct local_ip as [[a|a]|]; try by intros H%elem_of_nil.
  cbn. destruct (add_port g _); cbn; [|by intros H%elem_of_nil].
  destruct (add_port g _); cbn; rewrite ?elem_of_cons, ?list_elem_of_singleton, ?elem_of_nil; naive_solver.
Qed.
Lemma open_world_Ok gateway local_ip p ip maps :
  open_world gateway local_ip p = (maps, Ok ip) →
  ∃ g a, gateway = Some g ∧ local_ip = Some (V4 a) ∧ get_external_ip g = Some ip ∧
    maps = [MkMapping TCP p (MkSocketAddr (V4 a) p); MkMapping UDP p (MkSocketAddr (V4 a) p)].
Proof.
  destruct gateway as [g|]; [|done]. destruct local_ip as [[a|a]|]; [|done..]. cbn.
  destruct (add_port g _); cbn; [|done]. destruct (add_port g _); cbn; [|done].
  destruct (get_external_ip g) as [ip'|] eqn:E; [|done]. intros [= <- <-]. by exists g, a.
Qed.

Section facts.
Context {HA : Hashes} {NC : NodeCodec} {AC : AtomCodec} {CV : CryptoVerifier} {RC : ReactionCodec}.
Context {MD : MlDsa87} {BI : Bip39} {HX : Hex} {WF : WalletFileCodec} {KF : KeyFileCodec} {AT : AddrText}.

(** With the ports of the configuration, no mapping leads to the port of the node's record. *)
Theorem record_port_not_mapped args config entropy line files gateway local_ip m disk ts mp :
  quic_port args = None → 0 ≤ my_port args < 65535 →
  mp ∈ (launch args config entropy line files gateway local_ip m disk ts).1 →
  external_port mp ≠ effective_quic_port args ∧ port (target mp) ≠ effective_quic_port args.
Proof.
  intros Hq Hp Hin.
  assert (H : mp ∈ (open_world gateway local_ip (my_port args)).1).
  { unfold launch in Hin. destruct (rbind _ _) as [a|e]; [|by apply elem_of_nil in Hin].
    by destruct (open_world _ _ _) as [maps external]. }
  apply open_world_ports in H as [-> ->]. unfold effective_quic_port, u16_saturating_add. rewrite Hq. cbn [default]. lia.
Qed.

(** A node that boots is up where the address it announces can be bound: without a gateway
    that is every interface of the machine; with one that does its work it is the address
    outside, which a machine behind it does not have, and the node does not come up. *)
Theorem upnp_stops_the_node args config entropy line files m disk ts a files' w :
  architect_identity entropy line files = Ok (a, files') → operator_identity files' = Ok w →
  let tls := default localhost (tls_domain config) in
  (∀ b, boot args config entropy line files None disk ts = Ok b →
     certified m tls = true → accepts_config m = true →
     bindable m (MkSocketAddr (V4 0) (effective_quic_port args)) = true → ∀ local_ip,
     ∃ server, launch args config entropy line files None local_ip m disk ts = ([], Ok (b, server)) ∧
       sessions (ns_server server) = ∅ ∧ srv_core (ns_server server) = bt_core b ∧
       ns_noise_static server = sha3_256 (architect_sk a)) ∧
  (∀ g a4 ip, add_port g (MkMapping TCP (my_port args) (MkSocketAddr (V4 a4) (my_port args))) = true →
     add_port g (MkMapping UDP (my_port args) (MkSocketAddr (V4 a4) (my_port args))) = true →
     get_external_ip g = Some ip → (∀ p, bindable m (MkSocketAddr ip p) = false) →
     ∃ maps e, launch args config entropy line files (Some g) (Some (V4 a4)) m disk ts = (maps, Err e)).
Proof.
  intros Ha Hw. cbv zeta. split.
  - intros b Hb Hc Hcfg Hbind local_ip. unfold launch. rewrite Ha. cbn [rbind]. rewrite Hw. cbn [rbind open_world]. rewrite Hb.
    unfold server_new, local_addr. cbn [default]. rewrite Hc, Hcfg, Hbind. eexists. by split.
  - intros g a4 ip Ht Hu Hext Hbind. unfold launch. rewrite Ha. cbn [rbind]. rewrite Hw. cbn [rbind open_world]. rewrite Ht. cbn [negb].
    rewrite Hu. cbn [negb ok_or]. rewrite Hext. destruct (boot _ _ _ _ _ _ _ _) as [b|e]; [|by eexists _, _].
    unfold server_new, local_addr. cbn [default]. rewrite Hbind.
    by destruct (certified m _), (accepts_config m); eexists _, _.
Qed.
End facts.
