(* ===== verification/BootExamples.v ===== *)
(** A node that is started again after its first block, and one that still has the old key
    file. *)
From S2P Require Import Prelude Text Setup SetupFacts.
From S2P Require Import Floats Types Mpt MptTree MptFacts MptExamples State Physics Pvm Crystal Chamber Storage.
From S2P Require Import Engine Processor ProcessorFacts Mining Mempool Toy ChainExamples Framing Shield Dht Gossip Ingress.
From S2P Require Import Crypto Sdk SdkFacts Node NodeFacts Noise Handshake Server Kademlia KadRpc Connection Discovery.
From S2P Require Import NetExamples ClientExamples ConnectionExamples Boot Launch.
Open Scope Z_scope.

#[local] Existing Instance checksum_hashes.
#[local] Existing Instance toy_codec.
#[local] Existing Instance toy_atom_codec.
#[local] Existing Instance toy_reaction_codec.
#[local] Existing Instance own_key_crypto.
#[local] Existing Instance toy_mldsa.
#[local] Existing Instance toy_bip39.
#[local] Existing Instance toy_hex.
#[local] Existing Instance toy_wallet_file.
#[local] Existing Instance toy_addr.

#[local] Instance toy_key_file : KeyFileCodec.
Proof.
  refine {| ser_keys k := put_bytes k.1 ++ k.2; de_keys b := take_bytes b |}.
  intros [pk sk]. cbn [fst snd]. by rewrite take_bytes_put.
Defined.

Definition files0 : KeyFiles := MkKeyFiles None None (Some (save wallet0)).
Definition files1 : KeyFiles := MkKeyFiles (Some (save wallet0)) None (Some (save wallet0)).
Lemma files1_left entropy : architect_identity entropy [1; 2] files0 = Ok (with_wallet wallet0, files1).
Proof.
  unfold architect_identity, files0. cbn [wallet_file legacy_key_file operator_file].
  assert (Ht : trim_by is_space [1; 2] = [1; 2]) by (vm_compute; reflexivity). rewrite Ht.
  rewrite bool_decide_false by done. by rewrite wallet0_eq.
Qed.
Lemma files1_operator : operator_identity files1 = Ok wallet0.
Proof. unfold operator_identity, files1. cbn [operator_file]. by rewrite (proj1 (wallet_roundtrip [1; 2] 0 wallet0 wallet0_eq)). Qed.

(** The first start took the phrase typed; the next one finds the wallet, and whoever asks
    finds the first block and the reaction that was in the pool. *)
Definition waiting : SignedReaction := toy_rx (new_receiver (toy_key 1)) (new_receiver (toy_key 2)) 10 (Transfer 1).
Definition left_pool : SectoralMempool := (run_ops [OpPush 100 waiting] empty_pool).1.1.
Lemma reboot_witness :
  ∃ b, boot (MkArgs 9000 None None) seed_node (λ _, []) [] files1 None (disk_of left_pool genesis_toml E1) 7 = Ok b ∧
    eng_state (engine (bt_core b)) = eng_state E1 ∧ bt_architect b = with_wallet wallet0 ∧
    residents (sectors (mempool (bt_core b))) = [waiting] ∧
    honest (boot_party (with_wallet wallet0) (bt_nr b) [3]).
Proof.
  destruct (reboot chain_G chain_K tr1 E1 (λ _, []) [1; 2] files0 (with_wallet wallet0) files1 wallet0 (λ _, MkSector ∅ ∅)
    [OpPush 100 waiting] left_pool (run_ops [OpPush 100 waiting] empty_pool).1.2 (run_ops [OpPush 100 waiting] empty_pool).2
    genesis_toml E1_ok) with (args := MkArgs 9000 None None) (config := seed_node) (entropy' := λ _ : nat, @nil Z)
      (line' := @nil Z) (external_ip := @None IpAddr) (timestamp := 7) as (b & Hb & Ha & _ & _ & Hs & _ & Hm & Hh).
  - intros H. apply (f_equal (lookup arch)) in H. vm_compute in H. discriminate.
  - intros pk ->. discriminate.
  - apply files1_left.
  - reflexivity.
  - apply files1_operator.
  - unfold left_pool, empty_pool. by destruct (run_ops _ _) as [[]].
  - exists b. split; [exact Hb|]. split; [exact Hs|]. split; [exact Ha|]. split; [|exact (Hh [3])].
    rewrite Hm. vm_compute. reflexivity.
Defined.

(** ** A node behind a gateway *)
(** The machine has the address 192.168.0.2, the gateway 203.0.113.7. *)
Definition home_machine : Machine :=
  MkMachine (λ _, true) true (λ a, match ip a with V4 v => (v =? 0) || (v =? 3232235522) | V6 _ => false end) (λ _, true).
Definition home_gateway : Gateway := MkGateway (λ _, true) (Some (V4 3405803783)).
Lemma upnp_stops_the_node_witness :
  ∃ maps e, launch (MkArgs 9000 None None) seed_node (λ _, []) [1; 2] files0 (Some home_gateway) (Some (V4 3232235522))
    home_machine (disk_of left_pool genesis_toml E1) 7 = (maps, Err e).
Proof.
  destruct (upnp_stops_the_node (MkArgs 9000 None None) seed_node (λ _, []) [1; 2] files0 home_machine
    (disk_of left_pool genesis_toml E1) 7 (with_wallet wallet0) files1 wallet0) as [_ H].
  - apply files1_left.
  - apply files1_operator.
  - apply (H home_gateway 3232235522 (V4 3405803783)); reflexivity.
Defined.
